(* ===== verification/_CoqProject ===== *)
-Q . S2P
Prelude.v
LinkList.v
DList.v
HashMap.v
BurtleHash.v
Buffer.v
WPacket.v
RPacket.v
MinHeap.v
RBTree.v
RBInsert.v
Map.v
TimingWheel.v
Net.v
Connection.v
Unpack.v
Sink.v
Receive.v
Threads.v
Sync.v
SpinLock.v
BlockQueue.v
BlockAlloc.v
Vector.v
KString.v
Connector.v
CoSche.v
