(* ===== verification/Prelude.v ===== *)
(** * kendylib: a verification library for the C utility and network library

    kendylib is a C library for network servers: containers, packets over chains
    of reference-counted buffers, an edge-triggered event engine over epoll with
    connections on top of it, timers, allocators, synchronisation between
    threads, and a coroutine scheduler.  This development models its
    implementation file by file and proves what makes it correct.  Theorems named
    C1, C2, ... in the files are the main ones.

    ** How the C code is modelled

    - Objects live in stores: finite maps from locations to records, one store
      per kind of object; a pointer is [None] or [Some l].  A program is a
      function in the monad [M S A] of this file, from a state [S] to a result
      and a new state or to a [fault]: a load through NULL or of freed memory, an
      access past the end of a block, a failed assertion, a bad free, a branch on
      memory that was never written.  So a theorem that says that a call
      returns [Ok] says that the C code has none of these.
    - Integers are [Z], reduced to their width ([u8] to [u64], [i32]) where the
      code stores or compares them.
    - A loop is [loop fuel body]; [wp_loop] proves that it ends, from a variant.
      Where a theorem has a fuel argument it asks for more fuel than the variant,
      which is the length of a list, the number of bytes or of items left, or, for
      the loops that wait for the outside world, a bound on how often the clock
      can still be read before the deadline ([patience] in [Connector]).  The
      fixed fuels are 33 in [MinHeap], because an index is below 2^30 and every
      round halves or doubles it.
    - [wp m s Q] is total correctness; the tactics [wp_step] and [wp_go] run a
      program symbolically.
    - Threads ([Threads]) run programs of atomic actions over a shared state, and
      the theorems quantify over all schedules.  Elsewhere a call is one step.
    - What is not in the repository is a parameter: the kernel's system calls, the
      clock, [realloc], what [malloc] leaves in fresh memory ([junk]), the
      callbacks of clients.  What is relied on is stated as a hypothesis on the
      parameter and shown to hold of a concrete one in the theorem's witness.

    ** Files

    Containers.
    - [LinkList]: the intrusive list of [link_list.c].  C1: a run of pushes and
      pops refines a queue of addresses, the silently dropped pushes included.
      C2: [link_list_swap] moves one list behind another.
    - [DList]: the value list of [list.c].  C3: all its operations refine a deque
      of byte strings.  C4, C5: search, and removal with its failure.
    - [HashMap]: the open-addressing table of [hash_map.c].  C6: it refines a
      finite map, rehashing and removed slots included.
    - [BurtleHash]: [lookup8.c].  C7: the mixing step is a bijection.  C8: the hash
      equals a specification by blocks.
    - [RBTree], [RBInsert], [Map]: [RBtree.c] and [map.c].  C19: insertion keeps
      order, colours and black heights.  C20: a search takes at most
      logarithmically many comparisons.  C18: a map over any lawful container, and
      so over the tree, refines a sorted list.
    - [MinHeap]: [coro/minheap.c].  C16, C17: insertion keeps the heap and the
      indices, and the minimum is least.
    - [Vector], [KString]: [vector.c] and [kstring.c].  C32: typed values come back
      as from a list.  C33: splitting a joined text gives its fields back.  C34:
      when concatenation overruns its block.

    Packets.
    - [Buffer]: [buffer.c], [refbase.c].  C9: releasing the head of a chain frees
      exactly the buffers that nobody else holds.  C10: reading a chain.
    - [WPacket], [RPacket]: [wpacket.c], [rpacket.c].  C11 to C13: the size of a
      packet's buffers, writes append and keep the length field, and a write that
      never ends.  C14: every field that is written is read back.  C15: binary data.

    Network.
    - [TimingWheel]: [timing_wheel.c].  C21: the ring of lists refines an abstract
      ring.  C22: every timer is called back when it is due.
    - [Net]: [HandleMgr.c], [Socket.c], [Engine.c], [epoll.c], [KendyNet.c],
      [SocketWrapper.c].  C23: the engine never forgets a request that the kernel
      could serve.  C24: handles are unique.
    - [Connection], [Unpack], [Sink], [Receive]: [Connection.c] on top of [Net].
      C25: the packets of a byte stream are delivered, however the kernel cuts
      it.  C26: framed packets come back.
    - [Connector]: [Connector.c] on top of [Net].  C35: every connection that is
      being established is called back once, for a reason, or still waits.
    Threads, memory, coroutines.
    - [Threads], [Sync], [SpinLock], [BlockQueue]: [sync.c], [spinlock.c] and the
      second half of [link_list.c].  C27: the barrier holds, and opens.  C28: mutual
      exclusion.  C29: the queue is linearizable.  C30: no wake-up is lost with one
      consumer.
    - [BlockAlloc]: [block_obj_allocator.c].  C31: blocks never overlap.
    - [CoSche]: [co_sche.c] and the control flow of [uthread.c].  C36: no coroutine
      is lost, and the scheduler does not fault unless a coroutine returns at one
      particular moment.
    Every file defines its state and operations, then a representation predicate
    or invariant, the lemmas that each operation keeps it, the main theorems, and
    concrete examples; the examples at the end of a file also run the code into
    the defects that the proofs have shown.

    ** What is not modelled

    Removal from the red-black tree is modelled, but its balance is not proved;
    the sending half of a connection is modelled and proved only as far as the
    receiving half needs it.  The following parts are left out: the timers of
    [timer.c] and [thread_start_run] of [thread.c], which only pass their arguments to
    timerfd, epoll and POSIX threads; the inline assembly of [uthread.c]; the
    jump macros of [except.h]; the formatted output of [log.c] and everywhere else;
    the code in comments; and the programs [test*.c], which only call the library. *)
From Stdlib Require Export ZArith Lia.
From Stdlib Require Export ssreflect.
From stdpp Require Export prelude gmap list fin_maps sets.

(** ** Notation scope of the development *)

Global Open Scope general_if_scope.

Declare Scope kendy_scope.
Delimit Scope kendy_scope with kendy.

(** ** Locations and pointers

    An object of the C heap is named by a [loc]; a C pointer is [None] (NULL)
    or [Some l].  Each struct field that the code mutates lives in a finite map
    from locations to the field's value, or to a record of fields. *)

Abbreviation loc := positive.
Abbreviation ptr := (option positive).
Abbreviation NULL := (@None positive).

(** ** Faults: what a C run cannot continue from *)

Inductive fault :=
  | NullDeref      (* a load or store through NULL *)
  | Dangling       (* a load or store at an address that is not allocated *)
  | OutOfBounds    (* an access past the end of an allocated block *)
  | AssertFailed   (* assert(...) with a false argument *)
  | DivByZero      (* % or / with a zero right operand *)
  | BadFree        (* free of an address that is not an allocated block *)
  | Uninit         (* a branch on an uninitialised value *)
  | Exited         (* the code called exit() *)
  | NoFuel.        (* the fuel of a loop of the model ran out *)

#[export] Instance fault_eq_dec : EqDecision fault.
Proof. solve_decision. Defined.

(** ** The state-and-fault monad in which the stateful operations are written *)

Inductive result (A : Type) :=
  | Ok (a : A)
  | Fault (f : fault).
Arguments Ok {A} a.
Arguments Fault {A} f.

Definition M (S A : Type) : Type := S → result (A * S).

#[export] Instance M_ret S : MRet (M S) := λ A a s, Ok (a, s).
#[export] Instance M_bind S : MBind (M S) := λ A B f m s,
  match m s with
  | Ok (a, s') => f a s'
  | Fault e => Fault e
  end.
#[export] Instance M_fmap S : FMap (M S) := λ A B f m s,
  match m s with
  | Ok (a, s') => Ok (f a, s')
  | Fault e => Fault e
  end.

Definition fail {S A} (e : fault) : M S A := λ _, Fault e.
Definition get {S} : M S S := λ s, Ok (s, s).
Definition gets {S A} (f : S → A) : M S A := λ s, Ok (f s, s).
Definition put {S} (s : S) : M S () := λ _, Ok (tt, s).
Definition modify {S} (f : S → S) : M S () := λ s, Ok (tt, f s).
Definition assert_ {S} (b : bool) : M S () := if b then mret tt else fail AssertFailed.
Definition lift {S A} (r : result A) : M S A := λ s,
  match r with Ok a => Ok (a, s) | Fault e => Fault e end.

(** [zoom sel upd m] runs [m] on the part [sel s] of the state and puts the
    result back with [upd]. *)
Definition zoom {S T A} (sel : S → T) (upd : T → S → S) (m : M T A) : M S A := λ s,
  match m (sel s) with
  | Ok (a, t) => Ok (a, upd t s)
  | Fault e => Fault e
  end.

Notation "'when' b 'do' m" := (if b then m else mret tt)
  (at level 10, b at level 100, m at level 200) : kendy_scope.

(** A C loop: the body maps the loop's locals to [inl] the next iteration's
    locals or [inr] the value the loop is left with. *)
Fixpoint loop {S X R} (fuel : nat) (body : X → M S (X + R)) (x : X) : M S R :=
  match fuel with
  | O => fail NoFuel
  | Datatypes.S n =>
      r ← body x;
      match r with
      | inl x' => loop n body x'
      | inr v => mret v
      end
  end.

(** ** Heap cells: a store of records indexed by location *)

Definition hload {A} (p : ptr) : M (gmap loc A) A := λ h,
  match p with
  | None => Fault NullDeref
  | Some l => match h !! l with Some a => Ok (a, h) | None => Fault Dangling end
  end.

Definition hmodify {A} (p : ptr) (f : A → A) : M (gmap loc A) () := λ h,
  match p with
  | None => Fault NullDeref
  | Some l => match h !! l with
              | Some a => Ok (tt, <[l := f a]> h)
              | None => Fault Dangling
              end
  end.

Definition hstore {A} (p : ptr) (a : A) : M (gmap loc A) () := hmodify p (λ _, a).

(** [malloc]: the block at a fresh location.  The allocation always succeeds. *)
Definition halloc {A} (a : A) : M (gmap loc A) loc := λ h,
  let l := fresh (dom h) in Ok (l, <[l := a]> h).

Definition hfree {A} (p : ptr) : M (gmap loc A) () := λ h,
  match p with
  | None => Ok (tt, h)
  | Some l => match h !! l with
              | Some _ => Ok (tt, delete l h)
              | None => Fault BadFree
              end
  end.

(** ** Total-correctness predicate transformer *)

Definition wp {S A} (m : M S A) (s : S) (Q : A → S → Prop) : Prop :=
  match m s with
  | Ok (a, s') => Q a s'
  | Fault _ => False
  end.

Section wp.
Context {S : Type}.
Implicit Types s : S.

Lemma wp_ret {A} (a : A) s (Q : A → S → Prop) : Q a s → wp (mret a) s Q.
Proof. done. Qed.

Lemma wp_bind {A B} (m : M S A) (f : A → M S B) s (Q : B → S → Prop) :
  wp m s (λ a s', wp (f a) s' Q) → wp (m ≫= f) s Q.
Proof. rw /wp /mbind /M_bind. by destruct (m s) as [[a s']|e]. Qed.

Lemma wp_mono {A} (m : M S A) s (P Q : A → S → Prop) :
  wp m s P → (∀ a s', P a s' → Q a s') → wp m s Q.
Proof. rw /wp. destruct (m s) as [[a s']|e]; naive_solver. Qed.

Lemma wp_get s (Q : S → S → Prop) : Q s s → wp get s Q.
Proof. done. Qed.
Lemma wp_gets {A} (f : S → A) s (Q : A → S → Prop) : Q (f s) s → wp (gets f) s Q.
Proof. done. Qed.
Lemma wp_put s s' (Q : () → S → Prop) : Q tt s' → wp (put s') s Q.
Proof. done. Qed.
Lemma wp_modify (f : S → S) s (Q : () → S → Prop) : Q tt (f s) → wp (modify f) s Q.
Proof. done. Qed.
Lemma wp_assert (b : bool) s (Q : () → S → Prop) : b = true → Q tt s → wp (assert_ b) s Q.
Proof. by intros ->. Qed.
Lemma wp_zoom {T A} (sel : S → T) (upd : T → S → S) (m : M T A) s Q :
  wp m (sel s) (λ a t, Q a (upd t s)) → wp (zoom sel upd m) s Q.
Proof. rw /wp /zoom. by destruct (m (sel s)) as [[a t]|e]. Qed.
Lemma wp_fmap {A B} (f : A → B) (m : M S A) s (Q : B → S → Prop) :
  wp m s (λ a s', Q (f a) s') → wp (f <$> m) s Q.
Proof. rw /wp /fmap /M_fmap. by destruct (m s) as [[a s']|e]. Qed.
Lemma wp_lift_ok {A} (r : result A) a s (Q : A → S → Prop) :
  r = Ok a → Q a s → wp (lift r) s Q.
Proof. by intros ->. Qed.

(** The outcome of a run that satisfies a postcondition, as an equation. *)
Lemma wp_ok {A} (m : M S A) s Q : wp m s Q → ∃ a s', m s = Ok (a, s') ∧ Q a s'.
Proof. rw /wp. destruct (m s) as [[a s']|e]; naive_solver. Qed.
Lemma ok_wp {A} (m : M S A) s Q a s' : m s = Ok (a, s') → Q a s' → wp m s Q.
Proof. rw /wp. by intros ->. Qed.

(** Total correctness of a loop: the invariant carries a variant [n], which
    every further iteration decreases; any fuel above it is enough. *)
Lemma wp_loop {X R} (I : nat → X → S → Prop) (Q : R → S → Prop)
    (body : X → M S (X + R)) n fuel x s :
  (∀ n x s, I n x s →
     wp (body x) s (λ r s', match r with
                           | inl x' => ∃ n', n' < n ∧ I n' x' s'
                           | inr v => Q v s'
                           end)) →
  I n x s → n < fuel → wp (loop fuel body x) s Q.
Proof.
  intros Hbody. revert n x s.
  induction fuel as [|fuel IH]; intros n x s HI Hn; [lia|]; simpl.
  apply wp_bind. eapply wp_mono; [by eapply Hbody|].
  intros [x'|v] s' H; simpl in *; [|by apply wp_ret].
  destruct H as (n' & ? & HI'). eapply IH; [done|lia].
Qed.
End wp.

(** A round of a loop. *)
Lemma loop_S {S X Y} (body : X → M S (X + Y)) n x :
  loop (Datatypes.S n) body x = (r ← body x; match r with inl x' => loop n body x' | inr v => mret v end).
Proof. done. Qed.

(** More fuel does not change what a loop returns. *)
Lemma loop_more {S X R} (body : X → M S (X + R)) n m x s r :
  loop n body x s = Ok r → n ≤ m → loop m body x s = Ok r.
Proof.
  revert m x s. induction n as [|n IH]; intros m x s; simpl; [done|].
  destruct m as [|m]; [lia|]. rw /= /mbind /M_bind. intros Hrun Hnm.
  destruct (body x s) as [[[x'|v] s']|e]; [|done..]. apply IH; [done|lia].
Qed.

Section wp_heap.
Context {A : Type}.
Implicit Types h : gmap loc A.

Lemma wp_hload l a h (Q : A → gmap loc A → Prop) :
  h !! l = Some a → Q a h → wp (hload (Some l)) h Q.
Proof. rw /wp /hload. by intros ->. Qed.
Lemma wp_hmodify l f a h (Q : () → gmap loc A → Prop) :
  h !! l = Some a → Q tt (<[l := f a]> h) → wp (hmodify (Some l) f) h Q.
Proof. rw /wp /hmodify. by intros ->. Qed.
Lemma wp_hstore l b a h (Q : () → gmap loc A → Prop) :
  h !! l = Some a → Q tt (<[l := b]> h) → wp (hstore (Some l) b) h Q.
Proof. intros. by eapply wp_hmodify. Qed.
Lemma wp_halloc a h (Q : loc → gmap loc A → Prop) :
  (∀ l, h !! l = None → Q l (<[l := a]> h)) → wp (halloc a) h Q.
Proof.
  intros HQ. rw /wp /halloc. apply HQ.
  apply not_elem_of_dom, is_fresh.
Qed.
Lemma wp_hfree l a h (Q : () → gmap loc A → Prop) :
  h !! l = Some a → Q tt (delete l h) → wp (hfree (Some l)) h Q.
Proof. rw /wp /hfree. by intros ->. Qed.
End wp_heap.

(** [wp_step] performs one symbolic execution step, [wp_go] as many as it can;
    the lookups it needs are found by [simplify_map_eq] or in the context. *)
Ltac wp_lookup := first [eassumption | by simplify_map_eq | by rw lookup_insert_ne].

Ltac wp_step :=
  cbn beta match;
  lazymatch goal with
  | |- wp (mbind _ _) _ _ => apply wp_bind
  | |- wp (mret _) _ _ => apply wp_ret
  | |- wp (fmap _ _) _ _ => apply wp_fmap
  | |- wp get _ _ => apply wp_get
  | |- wp (gets _) _ _ => apply wp_gets
  | |- wp (put _) _ _ => apply wp_put
  | |- wp (modify _) _ _ => apply wp_modify
  | |- wp (zoom _ _ _) _ _ => apply wp_zoom
  | |- wp (hload (Some _)) _ _ => eapply wp_hload; [wp_lookup|]
  | |- wp (hmodify (Some _) _) _ _ => eapply wp_hmodify; [wp_lookup|]
  | |- wp (hstore (Some _) _) _ _ => eapply wp_hstore; [wp_lookup|]
  | |- wp (hfree (Some _)) _ _ => eapply wp_hfree; [wp_lookup|]
  | |- wp (halloc _) _ _ => apply wp_halloc; intros
  | |- wp (assert_ _) _ _ => apply wp_assert
  | |- wp (if decide ?P then _ else _) _ _ => case_decide; try congruence
  end.
Ltac wp_go := repeat (wp_step; simpl in * ).

(** Equality of maps built from updates, by lookups. *)
Ltac map_ext :=
  apply map_eq; intros ?; rw ?(lookup_insert, lookup_delete);
  repeat case_decide; congruence.

Lemma alter_is_insert {A} (f : A → A) (h : gmap loc A) l a :
  h !! l = Some a → alter f l h = <[l := f a]> h.
Proof.
  intros Hl. apply map_eq. intros i. rw lookup_alter lookup_insert.
  case_decide; [subst; by rw Hl|done].
Qed.

(** ** Machine integers *)

Definition u8 (z : Z) : Z := z mod 2 ^ 8.
Definition u16 (z : Z) : Z := z mod 2 ^ 16.
Definition u32 (z : Z) : Z := z mod 2 ^ 32.
Definition u64 (z : Z) : Z := z mod 2 ^ 64.
Definition i32 (z : Z) : Z := (z + 2 ^ 31) mod 2 ^ 32 - 2 ^ 31.

#[global] Arguments Z.eqb : simpl never.
#[global] Arguments Z.ltb : simpl never.
#[global] Arguments Z.leb : simpl never.
#[global] Arguments u8 : simpl never.
#[global] Arguments u16 : simpl never.
#[global] Arguments u32 : simpl never.
#[global] Arguments u64 : simpl never.
#[global] Arguments i32 : simpl never.

Create HintDb kendy discriminated.
Create Rewrite HintDb kendy.

Lemma u8_small z : (0 ≤ z < 2 ^ 8)%Z → u8 z = z.
Proof. apply Z.mod_small. Qed.
Lemma u16_small z : (0 ≤ z < 2 ^ 16)%Z → u16 z = z.
Proof. apply Z.mod_small. Qed.
Lemma u32_small z : (0 ≤ z < 2 ^ 32)%Z → u32 z = z.
Proof. apply Z.mod_small. Qed.
Lemma u64_small z : (0 ≤ z < 2 ^ 64)%Z → u64 z = z.
Proof. apply Z.mod_small. Qed.
Lemma i32_small z : (- 2 ^ 31 ≤ z < 2 ^ 31)%Z → i32 z = z.
Proof. intros. rw /i32 Z.mod_small; lia. Qed.
Lemma u8_range z : (0 ≤ u8 z < 2 ^ 8)%Z.
Proof. by apply Z.mod_pos_bound. Qed.
Lemma u32_range z : (0 ≤ u32 z < 2 ^ 32)%Z.
Proof. by apply Z.mod_pos_bound. Qed.
Lemma u64_range z : (0 ≤ u64 z < 2 ^ 64)%Z.
Proof. by apply Z.mod_pos_bound. Qed.
Lemma i32_range z : (- 2 ^ 31 ≤ i32 z < 2 ^ 31)%Z.
Proof. rw /i32. pose proof (Z.mod_pos_bound (z + 2 ^ 31) (2 ^ 32)). lia. Qed.

#[export] Hint Rewrite u8_small u16_small u32_small u64_small i32_small using lia : kendy.
#[export] Hint Resolve u8_range u32_range u64_range i32_range : kendy.

(** Little-endian byte strings. *)
Fixpoint le (bs : list Z) : Z :=
  match bs with [] => 0 | b :: bs => b + 2 ^ 8 * le bs end%Z.
Fixpoint le_bytes (n : nat) (z : Z) : list Z :=
  match n with O => [] | S n => (z mod 2 ^ 8)%Z :: le_bytes n (z / 2 ^ 8)%Z end.

Lemma length_le_bytes n z : length (le_bytes n z) = n.
Proof. revert z. induction n as [|n IH]; intros z; simpl; [done|]. by rw IH. Qed.

Lemma le_le_bytes n z : (0 ≤ z < 2 ^ (8 * Z.of_nat n))%Z → le (le_bytes n z) = z.
Proof.
  revert z. induction n as [|n IH]; intros z Hz.
  - cbn [le_bytes le]. change (2 ^ (8 * Z.of_nat 0))%Z with 1%Z in Hz. lia.
  - cbn [le_bytes le]. rw IH; [|pose proof (Z.div_mod z (2 ^ 8)); lia].
    split; [apply Z.div_pos; lia|]. apply Z.div_lt_upper_bound; [lia|].
    rw -Z.pow_add_r; [lia..|]. rw (_ : 8 + 8 * Z.of_nat n = 8 * Z.of_nat (S n))%Z; lia.
Qed.

(** ** Comparison callbacks

    The three-way comparison of two keys that the trees and lists take: a total
    preorder, with results -1, 0 and 1. *)
Class KeyOrder (cmp : list Z → list Z → Z) : Prop := {
  cmp_range a b : cmp a b = (-1)%Z ∨ cmp a b = 0%Z ∨ cmp a b = 1%Z;
  cmp_sym a b : cmp b a = (- cmp a b)%Z;
  cmp_trans a b c : (cmp a b ≤ 0)%Z → (cmp b c ≤ 0)%Z → (cmp a c ≤ 0)%Z;
}.

Definition key_lt (cmp : list Z → list Z → Z) (a b : list Z) : Prop := cmp a b = (-1)%Z.

Section key_order.
Context (cmp : list Z → list Z → Z) `{!KeyOrder cmp}.

#[export] Instance key_lt_strict : StrictOrder (key_lt cmp).
Proof.
  rw /key_lt. split.
  - intros a Ha. pose proof (cmp_sym (cmp := cmp) a a). lia.
  - intros a b c Hab Hbc. destruct (cmp_range (cmp := cmp) a c) as [H|[H|H]]; [done|exfalso..].
    + pose proof (cmp_trans (cmp := cmp) c a b). pose proof (cmp_sym (cmp := cmp) a c).
      pose proof (cmp_sym (cmp := cmp) b c). lia.
    + pose proof (cmp_trans (cmp := cmp) a b c). lia.
Qed.
Lemma cmp_eq_lt a b c : cmp a b = 0%Z → key_lt cmp b c → key_lt cmp a c.
Proof.
  rw /key_lt. intros Hab Hbc.
  pose proof (cmp_trans (cmp := cmp) c a b). pose proof (cmp_trans (cmp := cmp) a b c).
  pose proof (cmp_sym (cmp := cmp) a c). pose proof (cmp_sym (cmp := cmp) b c).
  destruct (cmp_range (cmp := cmp) a c) as [?|[?|?]]; lia.
Qed.
Lemma cmp_lt_or_gt a b : cmp a b ≠ 0%Z → key_lt cmp a b ∨ key_lt cmp b a.
Proof.
  rw /key_lt (cmp_sym (cmp := cmp) a b). destruct (cmp_range (cmp := cmp) a b) as [?|[?|?]]; lia.
Qed.
End key_order.

(** C's truth value of a comparison. *)
Definition c_bool (b : bool) : Z := if b then 1%Z else 0%Z.

(** ** Lists of bytes: [memcpy] between byte blocks *)

Section slices.
Context {A : Type}.
Implicit Types l bs : list A.

(** The [n] elements of [l] from offset [off]. *)
Definition slice (off n : nat) l : list A := take n (drop off l).
(** [l] with [bs] copied at offset [off]; the caller checks the bounds. *)
Definition splice (off : nat) bs l : list A :=
  take off l ++ bs ++ drop (off + length bs) l.

Lemma length_slice off n l : off + n ≤ length l → length (slice off n l) = n.
Proof. intros. rw /slice length_take length_drop. lia. Qed.
Lemma length_splice off bs l :
  off + length bs ≤ length l → length (splice off bs l) = length l.
Proof. intros. rw /splice !length_app length_take length_drop. lia. Qed.
Lemma slice_splice_same off bs l :
  off + length bs ≤ length l → slice off (length bs) (splice off bs l) = bs.
Proof.
  intros. rw /slice /splice drop_app_length'; [rw length_take; lia|].
  by rw take_app_length.
Qed.
Lemma take_splice off bs l :
  off ≤ length l → take off (splice off bs l) = take off l.
Proof. intros. rw /splice take_app_length' //. rw length_take. lia. Qed.
Lemma take_splice_end off bs l :
  off + length bs ≤ length l →
  take (off + length bs) (splice off bs l) = take off l ++ bs.
Proof.
  intros. rw /splice app_assoc take_app_length' //.
  rw length_app length_take. lia.
Qed.
Lemma splice_app_r off bs l1 l2 : splice (length l1 + off) bs (l1 ++ l2) = l1 ++ splice off bs l2.
Proof. by rw /splice take_app_add -Nat.add_assoc drop_app_add -app_assoc. Qed.
Lemma splice_app_l off bs l1 l2 :
  off + length bs ≤ length l1 → splice off bs (l1 ++ l2) = splice off bs l1 ++ l2.
Proof. intros. rw /splice take_app_le; [lia|]. rw drop_app_le; [lia|]. by rw -!app_assoc. Qed.
Lemma take_splice_all n off bs l : off + length bs ≤ n → n ≤ length l →
  take n (splice off bs l) = splice off bs (take n l).
Proof.
  intros. rw -{1}(take_drop n l) splice_app_l; [rw length_take; lia|].
  rw take_app_length' //. rw length_splice length_take; lia.
Qed.
Lemma slice_app off n m l : slice off (n + m) l = slice off n l ++ slice (off + n) m l.
Proof. by rw /slice -take_take_drop drop_drop. Qed.
Lemma slice_0 off l : slice off 0 l = [].
Proof. done. Qed.
Lemma slice_take off n k l : off + n ≤ k → slice off n (take k l) = slice off n l.
Proof. intros. rw /slice skipn_firstn_comm take_take. f_equal. lia. Qed.
Lemma slice_splice_before off n pos bs l :
  off + n ≤ pos → pos ≤ length l → slice off n (splice pos bs l) = slice off n l.
Proof. intros. by rw -(slice_take off n pos (splice _ _ _)) // take_splice // slice_take. Qed.
End slices.

Lemma elem_of_removelast {A} (x : A) l : x ∈ removelast l → x ∈ l.
Proof.
  induction l as [|a [|b r] IH]; simpl; [done|by intros ?%not_elem_of_nil|].
  intros [->|?]%elem_of_cons; [by left|right; auto].
Qed.

#[export] Hint Resolve length_slice length_splice elem_of_removelast length_le_bytes : kendy.
