(* ===== verification/LinkList.v ===== *)
(** * The intrusive singly linked list ([src/src/link_list.c], [src/include/link_list.h])

    A node is any C object whose first field is a [list_node]; the [next]
    fields of all of them are the store [nexts].  A [link_list] struct holds
    the length and the two end pointers.  [ll_rep N l xs] says that [l]
    represents the node sequence [xs] in the store [N]; each operation is shown
    to implement the corresponding operation on sequences, and a whole run of
    the list is shown to refine a FIFO/LIFO queue of node addresses. *)
From S2P Require Import Prelude.

(** ** Data and operations *)

(** The [next] field of every [list_node]. *)
Abbreviation nexts := (gmap loc ptr).

Record link_list := LinkList {
  ll_size : Z;
  ll_head : ptr;
  ll_tail : ptr;
}.

Definition create_link_list : link_list := LinkList 0 NULL NULL.

Definition link_list_head (l : link_list) : ptr := ll_head l.

Definition link_list_clear (l : link_list) : link_list := LinkList 0 NULL NULL.

Definition link_list_is_empty (l : link_list) : bool := (ll_size l =? 0)%Z.

Definition link_list_size (l : link_list) : Z := ll_size l.

(** [to] and [from] are two different list structs; both are returned. *)
Definition link_list_swap (to from : link_list) : M nexts (link_list * link_list) :=
  match ll_head from, ll_tail from with
  | Some _, Some _ =>
      head ← match ll_tail to with
             | Some t => hstore (Some t) (ll_head from);; mret (ll_head to)
             | None => mret (ll_head from)
             end;
      mret (LinkList (i32 (ll_size to + ll_size from)) head (ll_tail from),
            LinkList 0 NULL NULL)
  | _, _ => mret (to, from)
  end.

Definition link_list_push_back (l : link_list) (n : loc) : M nexts link_list :=
  nx ← hload (Some n);
  match nx with
  | Some _ => mret l
  | None =>
      hstore (Some n) NULL;;
      if (0 =? ll_size l)%Z then
        mret (LinkList (i32 (ll_size l + 1)) (Some n) (Some n))
      else
        hstore (ll_tail l) (Some n);;
        mret (LinkList (i32 (ll_size l + 1)) (ll_head l) (Some n))
  end.

Definition link_list_push_front (l : link_list) (n : loc) : M nexts link_list :=
  nx ← hload (Some n);
  match nx with
  | Some _ => mret l
  | None =>
      hstore (Some n) NULL;;
      if (0 =? ll_size l)%Z then
        mret (LinkList (i32 (ll_size l + 1)) (Some n) (Some n))
      else
        hstore (Some n) (ll_head l);;
        mret (LinkList (i32 (ll_size l + 1)) (Some n) (ll_tail l))
  end.

Definition link_list_pop (l : link_list) : M nexts (ptr * link_list) :=
  if (0 =? ll_size l)%Z then mret (NULL, l)
  else
    let ret := ll_head l in
    head ← hload (ll_head l);
    let tail := match head with None => NULL | Some _ => ll_tail l end in
    hstore ret NULL;;
    mret (ret, LinkList (i32 (ll_size l - 1)) head tail).

(** ** Segments of [next] links *)

(** [lseg N p xs q]: following [next] from [p] visits [xs] and arrives at [q]. *)
Fixpoint lseg (N : nexts) (p : ptr) (xs : list loc) (q : ptr) : Prop :=
  match xs with
  | [] => p = q
  | x :: xs => p = Some x ∧ ∃ r, N !! x = Some r ∧ lseg N r xs q
  end.

Section lseg.
Implicit Types (N : nexts) (xs ys : list loc) (p q r : ptr).

Lemma lseg_app N p xs ys q :
  lseg N p (xs ++ ys) q ↔ ∃ r, lseg N p xs r ∧ lseg N r ys q.
Proof.
  revert p. induction xs as [|x xs IH]; intros p; simpl; [naive_solver|].
  setoid_rewrite IH. naive_solver.
Qed.

Lemma lseg_insert_ne N p xs q n v :
  n ∉ xs → lseg N p xs q → lseg (<[n:=v]> N) p xs q.
Proof.
  revert p. induction xs as [|x xs IH]; intros p Hn; simpl; [done|].
  apply not_elem_of_cons in Hn as [? ?]. intros (-> & r & ? & ?).
  split; [done|]. exists r. rw lookup_insert_ne //. auto.
Qed.

Lemma lseg_fun N p xs ys : lseg N p xs NULL → lseg N p ys NULL → xs = ys.
Proof.
  revert p ys. induction xs as [|x xs IH]; intros p [|y ys]; simpl; [naive_solver..|].
  intros (-> & r & Hr & Hxs) (? & r' & Hr' & Hys). simplify_eq. f_equal. eauto.
Qed.

(** A chain that ends in NULL never visits a node twice. *)
Lemma lseg_NoDup N p xs : lseg N p xs NULL → NoDup xs.
Proof.
  revert p. induction xs as [|x xs IH]; intros p; simpl; [constructor|].
  intros (-> & r & Hr & Hxs). constructor; [|by eauto].
  intros (a & b & ->)%list_elem_of_split. pose proof Hxs as Hxs'.
  apply lseg_app in Hxs as (r' & Ha & Hb). pose proof Hb as [-> _].
  assert (x :: b = x :: a ++ x :: b) as Heq.
  { eapply lseg_fun; [exact Hb|]. simpl. eauto. }
  apply (f_equal length) in Heq. rw /= length_app /= in Heq. lia.
Qed.

Lemma lseg_lookup N p xs q x : lseg N p xs q → x ∈ xs → is_Some (N !! x).
Proof.
  revert p. induction xs as [|y xs IH]; intros p; simpl; [by intros ? ?%not_elem_of_nil|].
  intros (-> & r & Hr & Hxs) [->|?]%elem_of_cons; eauto.
Qed.

(** Every node but the last has a non-NULL link. *)
Lemma lseg_linked N p xs x y :
  lseg N p (xs ++ [y]) NULL → x ∈ xs → ∃ z, N !! x = Some (Some z).
Proof.
  revert p. induction xs as [|w xs IH]; intros p; simpl; [by intros ? ?%not_elem_of_nil|].
  intros (-> & r & Hr & Hxs) [->|?]%elem_of_cons; [|by eauto].
  destruct xs as [|v xs]; simpl in Hxs; destruct Hxs as [-> _]; eauto.
Qed.

Lemma lseg_last N p xs y : lseg N p (xs ++ [y]) NULL → N !! y = Some NULL.
Proof. intros (r & _ & _ & r' & Hr' & ->)%lseg_app. done. Qed.
End lseg.

(** ** The representation predicate *)

Record ll_rep (N : nexts) (l : link_list) (xs : list loc) : Prop := {
  ll_rep_size : ll_size l = Z.of_nat (length xs);
  ll_rep_seg : lseg N (ll_head l) xs NULL;
  ll_rep_tail : ll_tail l = last xs;
}.

(** The length fits the [int32_t] counter, with room for one more node. *)
Definition ll_room (xs : list loc) : Prop := (Z.of_nat (length xs) < 2 ^ 31 - 1)%Z.

(** The store outside [ns] is untouched, and no node is created or lost. *)
Definition nexts_frame (ns : list loc) (N N' : nexts) : Prop :=
  dom N' = dom N ∧ ∀ m, m ∉ ns → N' !! m = N !! m.

Lemma nexts_frame_refl ns N : nexts_frame ns N N.
Proof. done. Qed.
Lemma nexts_frame_insert ns N n v :
  is_Some (N !! n) → n ∈ ns → nexts_frame ns N (<[n:=v]> N).
Proof.
  intros Hn Hin. split; [rw dom_insert_lookup_L //|].
  intros m Hm. rw lookup_insert_ne //. by intros ->.
Qed.
Lemma nexts_frame_trans ns N1 N2 N3 :
  nexts_frame ns N1 N2 → nexts_frame ns N2 N3 → nexts_frame ns N1 N3.
Proof. intros [Hd1 H1] [Hd2 H2]. split; [congruence|]. intros. rw H2 // H1 //. Qed.
#[export] Hint Resolve nexts_frame_refl nexts_frame_insert : kendy.

Section rep.
Implicit Types (N : nexts) (l : link_list) (xs ys : list loc) (n : loc).

Lemma ll_rep_nil N : ll_rep N create_link_list [].
Proof. done. Qed.

Lemma ll_rep_NoDup N l xs : ll_rep N l xs → NoDup xs.
Proof. intros []. by eapply lseg_NoDup. Qed.

Lemma ll_rep_dom N l xs x : ll_rep N l xs → x ∈ xs → is_Some (N !! x).
Proof. intros [] ?. by eapply lseg_lookup. Qed.

(** A list is not disturbed by updates to nodes outside it. *)
Lemma lseg_frame ns N N' p xs q :
  nexts_frame ns N N' → xs ## ns → lseg N p xs q → lseg N' p xs q.
Proof.
  intros [_ HN] Hdisj. revert p. induction xs as [|x xs IH]; intros p; simpl; [done|].
  intros (-> & r & Hr & Hxs). split; [done|]. exists r. split; [|by apply IH; [set_solver|]].
  rw HN //. set_solver.
Qed.
Lemma ll_rep_frame ns N N' l xs :
  nexts_frame ns N N' → xs ## ns → ll_rep N l xs → ll_rep N' l xs.
Proof. intros ? ? []. split; [done| |done]. by eapply lseg_frame. Qed.

Lemma ll_rep_empty_size N l xs : ll_rep N l xs → (0 =? ll_size l)%Z = bool_decide (xs = []).
Proof.
  intros [Hs _ _]. rw Hs. case_bool_decide as Hxs; [by subst|].
  apply Z.eqb_neq. destruct xs; simpl; [done|lia].
Qed.

Lemma ll_rep_snoc N l xs y :
  ll_rep N l (xs ++ [y]) → ll_tail l = Some y ∧ N !! y = Some NULL ∧ y ∉ xs.
Proof.
  intros Hl. pose proof (ll_rep_NoDup _ _ _ Hl) as Hnd. destruct Hl as [_ Hseg Ht].
  rw last_snoc in Ht. split; [done|]. split; [by eapply lseg_last|].
  apply NoDup_app in Hnd as (_ & Hd & _). intros Hin. eapply Hd; [done|]. set_solver.
Qed.

Lemma ll_rep_is_empty N l xs :
  ll_rep N l xs → link_list_is_empty l = bool_decide (xs = []).
Proof. intros. rw /link_list_is_empty Z.eqb_sym. by eapply ll_rep_empty_size. Qed.

Lemma ll_rep_head N l xs : ll_rep N l xs → link_list_head l = head xs.
Proof. intros [_ Hseg _]. destruct xs; simpl in Hseg; [done|]. naive_solver. Qed.
End rep.
#[export] Hint Resolve ll_rep_nil ll_rep_NoDup : kendy.

(** ** Correctness of the operations *)

Section ops.
Implicit Types (N : nexts) (l : link_list) (xs ys : list loc) (n : loc).

(** Pushing a node whose [next] is set is a no-op: the guard of both pushes. *)
Lemma link_list_push_back_linked N l n m :
  N !! n = Some (Some m) → link_list_push_back l n N = Ok (l, N).
Proof. intros Hn. rw /link_list_push_back /mbind /M_bind /= Hn //. Qed.
Lemma link_list_push_front_linked N l n m :
  N !! n = Some (Some m) → link_list_push_front l n N = Ok (l, N).
Proof. intros Hn. rw /link_list_push_front /mbind /M_bind /= Hn //. Qed.

Lemma ll_push_back_ok N l xs n :
  ll_rep N l xs → N !! n = Some NULL → n ∉ xs → ll_room xs →
  wp (link_list_push_back l n) N (λ l' N',
    ll_rep N' l' (xs ++ [n]) ∧ nexts_frame (n :: xs) N N').
Proof.
  intros Hl Hn Hnin Hlen. rw /link_list_push_back. wp_step. wp_step. simpl.
  do 2 wp_step. rw (ll_rep_empty_size _ _ _ Hl).
  assert (Hsz : i32 (ll_size l + 1) = Z.of_nat (length (xs ++ [n]))).
  { rw (ll_rep_size _ _ _ Hl) length_app /=. unfold ll_room in Hlen. rw i32_small; lia. }
  destruct xs as [|y xs _] using rev_ind; case_bool_decide as Hnil; try congruence; try by destruct xs.
  - wp_step. split; [|by apply nexts_frame_insert; [|set_solver]].
    split; [done| |done]. simpl. split; [done|]. exists NULL. by rw lookup_insert_eq.
  - destruct (ll_rep_snoc _ _ _ _ Hl) as (Ht & Hy & Hyn). rw Ht.
    assert (n ≠ y) by set_solver.
    wp_step. eapply wp_hstore; [by rw lookup_insert_ne|]. wp_step. split.
    + split; [done| |by rw last_snoc].
      destruct Hl as [_ Hseg _]. apply lseg_app in Hseg as (r & Hxs & -> & r' & Hr' & ->).
      rw -assoc. apply lseg_app. exists (Some y). split.
      { apply lseg_insert_ne; [done|]. apply lseg_insert_ne; [set_solver|done]. }
      simpl. split; [done|]. exists (Some n). rw lookup_insert_eq. split; [done|].
      split; [done|]. exists NULL. by rw lookup_insert_ne // lookup_insert_eq.
    + eapply nexts_frame_trans; apply nexts_frame_insert; rw ?lookup_insert_ne //; set_solver.
Qed.

Lemma ll_push_front_ok N l xs n :
  ll_rep N l xs → N !! n = Some NULL → n ∉ xs → ll_room xs →
  wp (link_list_push_front l n) N (λ l' N',
    ll_rep N' l' (n :: xs) ∧ nexts_frame [n] N N').
Proof.
  intros Hl Hn Hnin Hlen. rw /link_list_push_front. wp_step. wp_step. simpl.
  do 2 wp_step. rw (ll_rep_empty_size _ _ _ Hl).
  assert (Hsz : i32 (ll_size l + 1) = Z.of_nat (length (n :: xs))).
  { rw (ll_rep_size _ _ _ Hl) /=. unfold ll_room in Hlen. rw i32_small; lia. }
  case_bool_decide as Hnil.
  - subst xs. wp_step. split; [|by apply nexts_frame_insert; [|set_solver]].
    split; [done| |done]. simpl. split; [done|]. exists NULL. by rw lookup_insert_eq.
  - do 2 wp_step. wp_step. rw insert_insert_eq. split.
    + split; [done| |]; destruct Hl as [_ Hseg Ht].
      * simpl. split; [done|]. exists (ll_head l). rw lookup_insert_eq.
        split; [done|]. by apply lseg_insert_ne.
      * simpl. rw Ht. by destruct xs.
    + apply nexts_frame_insert; [done|set_solver].
Qed.

Lemma ll_pop_ok N l xs :
  ll_rep N l xs → (Z.of_nat (length xs) < 2 ^ 31)%Z →
  wp (link_list_pop l) N (λ r N',
    r.1 = head xs ∧ ll_rep N' r.2 (tail xs) ∧ nexts_frame xs N N' ∧
    (∀ x, head xs = Some x → N' !! x = Some NULL)).
Proof.
  intros Hl Hlen. rw /link_list_pop (ll_rep_empty_size _ _ _ Hl).
  case_bool_decide as Hnil; [subst; wp_step; simpl; by eauto with kendy|].
  pose proof (ll_rep_NoDup _ _ _ Hl) as Hnd.
  destruct xs as [|x xs]; [done|]. destruct Hl as [Hs [Hh (r & Hr & Hxs)] Ht].
  apply NoDup_cons in Hnd as [Hx _].
  rw Hh. do 4 wp_step. wp_step. simpl. split; [done|]. split_and!.
  - split; simpl.
    + rw Hs /=. simpl in Hlen. rw i32_small; lia.
    + by apply lseg_insert_ne.
    + rw Ht. destruct xs as [|y xs]; simpl in Hxs; [by subst|]. destruct Hxs as [-> _]. done.
  - apply nexts_frame_insert; [done|set_solver].
  - intros ? [= <-]. by rw lookup_insert_eq.
Qed.

(** Swapping appends [from] to [to] and empties [from]. *)
Lemma ll_swap_ok N to from xs ys :
  ll_rep N to xs → ll_rep N from ys → xs ## ys →
  (Z.of_nat (length xs + length ys) < 2 ^ 31)%Z →
  wp (link_list_swap to from) N (λ r N',
    ll_rep N' r.1 (xs ++ ys) ∧ ll_rep N' r.2 [] ∧ nexts_frame xs N N').
Proof.
  intros Hto Hfrom Hdisj Hlen. rw /link_list_swap.
  destruct ys as [|y ys].
  { destruct Hfrom as [Hs Hh Ht]. simpl in Hh. rw Hh. wp_step. rw app_nil_r.
    split_and!; [done|by split|by eauto with kendy]. }
  destruct Hfrom as [Hs [Hh Hseg] Ht]. rw Hh.
  destruct (ll_tail from) as [t|] eqn:Htail;
    [|symmetry in Ht; by apply last_None in Ht].
  assert (Hsz : i32 (ll_size to + ll_size from) = Z.of_nat (length (xs ++ y :: ys))).
  { rw Hs (ll_rep_size _ _ _ Hto) length_app. rw i32_small; lia. }
  assert (Hlast : Some t = last (xs ++ y :: ys)).
  { by rw last_app Ht; destruct (last (y :: ys)). }
  destruct xs as [|x xs _] using rev_ind.
  - destruct Hto as [_ _ Htt]. simpl in Htt. rw Htt. do 3 wp_step. simpl.
    split_and!; [|done|by eauto with kendy]. split; [done|by split|done].
  - destruct (ll_rep_snoc _ _ _ _ Hto) as (Htt & Hx & Hxn). rw Htt.
    do 5 wp_step. simpl. split_and!; [|done|by apply nexts_frame_insert; [|set_solver]].
    split; [done| |done]. destruct Hto as [_ Hsegt _].
    apply lseg_app in Hsegt as (r & Hxs & -> & _). rw -assoc. apply lseg_app.
    exists (Some x). split; [by apply lseg_insert_ne|]. simpl. split; [done|].
    exists (Some y). rw lookup_insert_eq. split; [done|].
    apply (lseg_insert_ne _ (Some y) (y :: ys)); [set_solver|]. by split.
Qed.
End ops.
#[export] Hint Resolve ll_push_back_ok ll_push_front_ok ll_pop_ok : kendy.

(** ** Refinement of a queue of addresses *)

Module Queue.

(** The calls a client makes on one list. *)
Inductive op :=
  | PushBack (n : loc)
  | PushFront (n : loc)
  | Pop
  | IsEmpty.

Inductive out :=
  | Done
  | Popped (n : ptr)
  | Empty (b : bool).

(** The abstract list: a push of a node that is already queued, and is not
    the last one, is dropped. *)
Definition spec_step (o : op) (xs : list loc) : out * list loc :=
  match o with
  | PushBack n => (Done, if decide (n ∈ xs) then xs else xs ++ [n])
  | PushFront n => (Done, if decide (n ∈ xs) then xs else n :: xs)
  | Pop => (Popped (head xs), tail xs)
  | IsEmpty => (Empty (bool_decide (xs = [])), xs)
  end.

Fixpoint spec_run (os : list op) (xs : list loc) : list out * list loc :=
  match os with
  | [] => ([], xs)
  | o :: os => let (v, xs) := spec_step o xs in
               let (vs, xs) := spec_run os xs in (v :: vs, xs)
  end.

(** The same calls on the C structures. *)
Definition impl_step (o : op) (l : link_list) : M nexts (out * link_list) :=
  match o with
  | PushBack n => l ← link_list_push_back l n; mret (Done, l)
  | PushFront n => l ← link_list_push_front l n; mret (Done, l)
  | Pop => r ← link_list_pop l; mret (Popped r.1, r.2)
  | IsEmpty => mret (Empty (link_list_is_empty l), l)
  end.

Fixpoint impl_run (os : list op) (l : link_list) : M nexts (list out * link_list) :=
  match os with
  | [] => mret ([], l)
  | o :: os => r ← impl_step o l; rs ← impl_run os r.2; mret (r.1 :: rs.1, rs.2)
  end.

(** A push names an existing node that is not the current last one (the code
    cannot tell the last node from a node in no list). *)
Definition admissible (dom : gset loc) (o : op) (xs : list loc) : Prop :=
  match o with
  | PushBack n | PushFront n => n ∈ dom ∧ last xs ≠ Some n
  | Pop | IsEmpty => True
  end.

Fixpoint admissible_run (dom : gset loc) (os : list op) (xs : list loc) : Prop :=
  match os with
  | [] => True
  | o :: os => admissible dom o xs ∧ admissible_run dom os (spec_step o xs).2
  end.

(** Every node is either in the list or detached. *)
Record inv (N : nexts) (l : link_list) (xs : list loc) : Prop := {
  inv_rep : ll_rep N l xs;
  inv_free : ∀ n, n ∈ dom N → n ∉ xs → N !! n = Some NULL;
}.

(** A push, at either end, keeps the invariant. *)
Lemma push_inv N l xs n (m : M nexts link_list) ys ns :
  inv N l xs → n ∈ dom N → last xs ≠ Some n → (∀ x, x ∈ ys ↔ x = n ∨ x ∈ xs) →
  (∀ q, N !! n = Some (Some q) → m N = Ok (l, N)) →
  (N !! n = Some NULL → n ∉ xs →
     wp m N (λ l' N', ll_rep N' l' ys ∧ nexts_frame ns N N')) →
  (∀ x, x ∈ ns → x ∈ ys) →
  wp m N (λ l' N', dom N' = dom N ∧ inv N' l' (if decide (n ∈ xs) then xs else ys)).
Proof.
  intros [Hl Hfree] Hdom Hlast Hys Hlinked Hpush Hns. case_decide as Hin.
  - destruct xs as [|y xs _] using rev_ind; [set_solver|].
    rw last_snoc in Hlast. apply elem_of_app in Hin as [Hin|Hin]; [|set_solver].
    destruct (lseg_linked _ _ _ _ _ (ll_rep_seg _ _ _ Hl) Hin) as [q Hq].
    eapply ok_wp; [by eapply Hlinked|]. done.
  - eapply wp_mono; [by apply Hpush; [apply Hfree|]|].
    intros l' N' [Hl' [Hd HN]]. split; [done|]. split; [done|].
    intros m' Hm Hm'. rw Hd in Hm. rw HN; [by intros ?%Hns|]. apply Hfree; [done|]. intros ?. apply Hm', Hys. by right.
Qed.

Lemma queue_step_refines N l xs o :
  inv N l xs → ll_room xs → admissible (dom N) o xs →
  wp (impl_step o l) N (λ r N',
    r.1 = (spec_step o xs).1 ∧ dom N' = dom N ∧ inv N' r.2 (spec_step o xs).2).
Proof.
  intros Hinv Hroom Hadm. pose proof Hinv as [Hl Hfree].
  destruct o as [n|n| |]; simpl in *.
  - destruct Hadm. wp_step. eapply wp_mono.
    { eapply push_inv with (ys := xs ++ [n]) (ns := n :: xs); eauto; try set_solver;
        [by intros; eapply link_list_push_back_linked|eauto with kendy]. }
    intros l' N' []. by wp_step.
  - destruct Hadm. wp_step. eapply wp_mono.
    { eapply push_inv with (ys := n :: xs) (ns := [n]); eauto; try set_solver;
        [by intros; eapply link_list_push_front_linked|eauto with kendy]. }
    intros l' N' []. by wp_step.
  - wp_step. eapply wp_mono; [apply ll_pop_ok; [done|unfold ll_room in *; lia]|].
    intros [r l'] N' (? & ? & [Hd HN] & Hr); simpl in *. wp_step. simpl. subst r.
    split_and!; [done|done|]. split; [done|]. intros n Hn Hnin. rw Hd in Hn.
    destruct xs as [|x xs]; [by rw HN; [set_solver|auto]|].
    destruct (decide (n = x)) as [->|]; [by apply Hr|]. simpl in *.
    rw HN; [set_solver|]. apply Hfree; set_solver.
  - wp_step. simpl. by rw (ll_rep_is_empty _ _ _ Hl).
Qed.

(** C1: Over any sequence of [link_list_push_back], [link_list_push_front],
    [link_list_pop] and [link_list_is_empty] calls on a list that starts empty,
    with nodes that start detached and no push of the node that is currently
    last, the pointer code never faults and returns exactly what the sequence
    of addresses returns, the final structure representing the final sequence. *)
Theorem link_list_refines_queue (os : list op) (D : gset loc) :
  (Z.of_nat (length os) < 2 ^ 31 - 1)%Z →
  admissible_run D os [] →
  wp (impl_run os create_link_list) (gset_to_gmap NULL D) (λ r N',
    r.1 = (spec_run os []).1 ∧ ll_rep N' r.2 (spec_run os []).2 ∧ dom N' = D).
Proof.
  assert (∀ N l xs, inv N l xs → dom N = D →
    (Z.of_nat (length xs + length os) < 2 ^ 31 - 1)%Z → admissible_run D os xs →
    wp (impl_run os l) N (λ r N', r.1 = (spec_run os xs).1 ∧
      ll_rep N' r.2 (spec_run os xs).2 ∧ dom N' = D)) as Hgen.
  { induction os as [|o os IH]; intros N l xs Hinv Hd Hlen Hadm; simpl in *.
    { wp_step. by destruct Hinv. }
    destruct Hadm as [Ho Hos]. wp_step.
    eapply wp_mono; [apply queue_step_refines; [done|unfold ll_room; lia|by rw Hd]|].
    intros [v l'] N' (Hv & Hd' & Hinv'); simpl in *. wp_step.
    assert (length (spec_step o xs).2 ≤ length xs + 1).
    { destruct o; simpl; repeat case_decide; rw ?length_app; destruct xs; simpl; lia. }
    eapply wp_mono; [apply IH; [done|congruence|lia|done]|].
    intros [vs l''] N'' (? & ? & ?). wp_step. simpl in *.
    destruct (spec_step o xs) as [v' xs']; simpl in *.
    destruct (spec_run os xs') as [vs' xs'']; simpl in *. by subst. }
  intros Hlen Hadm. apply Hgen; [|by rw dom_gset_to_gmap|done|done].
  split; [apply ll_rep_nil|]. intros n Hn _. rw dom_gset_to_gmap in Hn.
  by apply lookup_gset_to_gmap_Some.
Qed.

(** The refinement at a run that queues three nodes at both ends, pushes a
    queued node again and drains the list. *)
Lemma link_list_refines_queue_witness :
  let os := [PushBack 1%positive; PushBack 2%positive; PushFront 3%positive;
             PushBack 1%positive; Pop; Pop; Pop; IsEmpty] in
  wp (impl_run os create_link_list) (gset_to_gmap NULL {[1%positive; 2%positive; 3%positive]})
    (λ r N', r.1 = [Done; Done; Done; Done; Popped (Some 3%positive);
                    Popped (Some 1%positive); Popped (Some 2%positive); Empty true] ∧
             ll_rep N' r.2 [] ∧ dom N' = {[1%positive; 2%positive; 3%positive]}).
Proof.
  apply (link_list_refines_queue
    [PushBack 1%positive; PushBack 2%positive; PushFront 3%positive;
     PushBack 1%positive; Pop; Pop; Pop; IsEmpty] {[1%positive; 2%positive; 3%positive]}).
  - reflexivity.
  - simpl. split_and!; first [by vm_compute | set_solver | done].
Defined.
End Queue.

(** C2: [link_list_swap] moves the whole of [from] behind [to] in constant time:
    the result represents the concatenation, [from] becomes empty, and only the
    links of nodes of [to] are written. *)
Theorem link_list_swap_appends (N : nexts) (to from : link_list) (xs ys : list loc) :
  ll_rep N to xs → ll_rep N from ys → xs ## ys →
  (Z.of_nat (length xs + length ys) < 2 ^ 31)%Z →
  wp (link_list_swap to from) N (λ r N',
    ll_rep N' r.1 (xs ++ ys) ∧ ll_rep N' r.2 [] ∧ nexts_frame xs N N').
Proof. apply ll_swap_ok. Qed.

Lemma link_list_swap_appends_witness :
  let N : nexts := {[1%positive := Some 2%positive; 2%positive := NULL; 3%positive := NULL]} in
  wp (link_list_swap (LinkList 2 (Some 1%positive) (Some 2%positive))
                     (LinkList 1 (Some 3%positive) (Some 3%positive))) N
    (λ r N', ll_rep N' r.1 [1%positive; 2%positive; 3%positive] ∧ ll_rep N' r.2 [] ∧
             nexts_frame [1%positive; 2%positive] N N').
Proof.
  intros N. apply (link_list_swap_appends N _ _ [1%positive; 2%positive] [3%positive]).
  - split; [done| |done]. simpl. eauto 10.
  - split; [done| |done]. simpl. eauto 10.
  - set_solver.
  - done.
Defined.
