(* ===== verification/DList.v ===== *)
(** * The doubly linked value list ([src/src/list.c], [src/include/list.h])

    Nodes carry [val_size] bytes inline and live between two sentinels, [head]
    and [end], that are part of the [struct list].  The heap is one map per node
    field.  [dl_rep h l xs] says that [l] represents the sequence [xs] of
    (address, bytes) pairs; every operation is proved against that sequence. *)
From S2P Require Import Prelude.

(** ** Data *)

Record dheap := DHeap {
  d_next : gmap loc ptr;
  d_pre : gmap loc ptr;
  d_value : gmap loc (list Z);
}.

(** [struct list]; the two sentinels are the nodes at [dl_head] and [dl_end]. *)
Record dlist := DList {
  dl_size : Z;
  dl_head : loc;
  dl_end : loc;
  dl_val_size : nat;
}.

Inductive field := FNext | FPre.

#[export] Instance field_eq_dec : EqDecision field.
Proof. solve_decision. Defined.

(** [struct list_iter]: a node and the address of one of the link fields. *)
Record list_iter := ListIter {
  it_next : option (loc * field);
  it_n : ptr;
}.

Definition with_next (v : gmap loc ptr) (h : dheap) : dheap := DHeap v (d_pre h) (d_value h).
Definition with_pre (v : gmap loc ptr) (h : dheap) : dheap := DHeap (d_next h) v (d_value h).
Definition with_value (v : gmap loc (list Z)) (h : dheap) : dheap := DHeap (d_next h) (d_pre h) v.

Definition ld_next (p : ptr) : M dheap ptr := zoom d_next with_next (hload p).
Definition ld_pre (p : ptr) : M dheap ptr := zoom d_pre with_pre (hload p).
Definition ld_value (p : ptr) : M dheap (list Z) := zoom d_value with_value (hload p).
Definition st_next (p v : ptr) : M dheap () := zoom d_next with_next (hstore p v).
Definition st_pre (p v : ptr) : M dheap () := zoom d_pre with_pre (hstore p v).
Definition st_value (p : ptr) (v : list Z) : M dheap () :=
  zoom d_value with_value (hstore p v).

Definition dheap_dom (h : dheap) : gset loc :=
  dom (d_next h) ∪ dom (d_pre h) ∪ dom (d_value h).

(** A node block: [calloc] clears the links. *)
Definition node_alloc (value : list Z) : M dheap loc := λ h,
  let l := fresh (dheap_dom h) in
  Ok (l, DHeap (<[l := NULL]> (d_next h)) (<[l := NULL]> (d_pre h))
               (<[l := value]> (d_value h))).

Definition node_free (p : ptr) : M dheap () :=
  zoom d_next with_next (hfree p);;
  zoom d_pre with_pre (hfree p);;
  zoom d_value with_value (hfree p).

(** [memcpy(dst, src, n)] out of a block of bytes. *)
Definition memcpy_from (n : nat) (src : list Z) : M dheap (list Z) :=
  if decide (n ≤ length src) then mret (take n src) else fail OutOfBounds.

(** ** Operations *)

(** [list_create]; the struct block holds both sentinels. *)
Definition list_create (val_size : nat) : M dheap dlist := λ h,
  let hd := fresh (dheap_dom h) in
  let e := fresh ({[hd]} ∪ dheap_dom h) in
  Ok (DList 0 hd e val_size,
      DHeap (<[hd := Some e]> (<[e := NULL]> (d_next h)))
            (<[hd := NULL]> (<[e := Some hd]> (d_pre h))) (d_value h)).

Definition list_begin (l : dlist) : M dheap list_iter :=
  n ← ld_next (Some (dl_head l));
  match n with
  | Some x => mret (ListIter (Some (x, FNext)) n)
  | None => fail NullDeref
  end.

Definition list_end (l : dlist) : list_iter := ListIter None (Some (dl_end l)).

Definition list_rbegin (l : dlist) : M dheap list_iter :=
  n ← ld_pre (Some (dl_end l));
  match n with
  | Some x => mret (ListIter (Some (x, FPre)) n)
  | None => fail NullDeref
  end.

Definition list_rend (l : dlist) : list_iter := ListIter None (Some (dl_head l)).

Definition list_size (l : dlist) : Z := dl_size l.

Definition set_size (z : Z) (l : dlist) : dlist :=
  DList z (dl_head l) (dl_end l) (dl_val_size l).

(** [alloc] is the outcome of the [calloc]: a list is unchanged when it fails. *)
Definition list_insert_after (l : dlist) (it : list_iter) (val : list Z) (alloc : bool) :
    M dheap dlist :=
  if alloc then
    value ← memcpy_from (dl_val_size l) val;
    new_node ← node_alloc value;
    N ← ld_next (it_n it);
    st_pre N (Some new_node);;
    st_next (it_n it) (Some new_node);;
    st_next (Some new_node) N;;
    st_pre (Some new_node) (it_n it);;
    mret (set_size (u32 (dl_size l + 1)) l)
  else mret l.

Definition list_insert_before (l : dlist) (it : list_iter) (val : list Z) (alloc : bool) :
    M dheap dlist :=
  if alloc then
    value ← memcpy_from (dl_val_size l) val;
    new_node ← node_alloc value;
    P ← ld_pre (it_n it);
    st_next P (Some new_node);;
    st_pre (it_n it) (Some new_node);;
    st_next (Some new_node) (it_n it);;
    st_pre (Some new_node) P;;
    mret (set_size (u32 (dl_size l + 1)) l)
  else mret l.

Definition list_push_back (l : dlist) (val : list Z) (alloc : bool) : M dheap dlist :=
  list_insert_before l (list_end l) val alloc.

Definition list_push_front (l : dlist) (val : list Z) (alloc : bool) : M dheap dlist :=
  it ← list_begin l; list_insert_before l it val alloc.

(** Unlinking and freeing the node [n], the common tail of both pops. *)
Definition unlink (n : ptr) : M dheap () :=
  pre ← ld_pre n;
  next ← ld_next n;
  st_next pre next;;
  st_pre next pre;;
  node_free n.

(** The bytes copied to [out] are returned; [None] when the list is empty. *)
Definition list_pop_back (l : dlist) : M dheap (option (list Z) * dlist) :=
  if (0 <? dl_size l)%Z then
    n ← ld_pre (Some (dl_end l));
    v ← ld_value n;
    unlink n;;
    mret (Some v, set_size (u32 (dl_size l - 1)) l)
  else mret (None, l).

Definition list_pop_front (l : dlist) : M dheap (option (list Z) * dlist) :=
  if (0 <? dl_size l)%Z then
    n ← ld_next (Some (dl_head l));
    v ← ld_value n;
    unlink n;;
    mret (Some v, set_size (u32 (dl_size l - 1)) l)
  else mret (None, l).

Definition list_back (l : dlist) : M dheap (option (list Z)) :=
  if (0 <? dl_size l)%Z then
    n ← ld_pre (Some (dl_end l)); v ← ld_value n; mret (Some v)
  else mret None.

Definition list_front (l : dlist) : M dheap (option (list Z)) :=
  if (0 <? dl_size l)%Z then
    n ← ld_next (Some (dl_head l)); v ← ld_value n; mret (Some v)
  else mret None.

Definition list_is_empty (l : dlist) : bool := (dl_size l =? 0)%Z.

(** The search loop; [cur] is the loop variable. *)
Definition find_body (l : dlist) (v : list Z) (cur : ptr) : M dheap (ptr + ptr) :=
  if decide (cur = Some (dl_end l)) then mret (inr cur)
  else
    value ← ld_value cur;
    if decide (value = v) then mret (inr cur)
    else next ← ld_next cur; mret (inl next).

Definition list_find (fuel : nat) (l : dlist) (v : list Z) : M dheap list_iter :=
  cur ← ld_next (Some (dl_head l));
  cur ← loop fuel (find_body l v) cur;
  match cur with
  | Some c => if decide (c = dl_end l) then mret (ListIter None (Some (dl_end l)))
              else mret (ListIter (Some (c, FNext)) (Some c))
  | None => fail NullDeref
  end.

Definition list_iter_next (it : list_iter) : M dheap list_iter :=
  match it_next it with
  | None => mret it
  | Some (x, f) =>
      n ← match f with FNext => ld_next (Some x) | FPre => ld_pre (Some x) end;
      match n with
      | None => fail NullDeref
      | Some y =>
          if decide (it_n it = Some x) then mret (ListIter (Some (y, f)) (Some y))
          else fail AssertFailed
      end
  end.

Definition list_erase (l : dlist) (it : list_iter) : M dheap (list_iter * dlist) :=
  it_next ← list_iter_next it;
  unlink (it_n it);;
  mret (it_next, set_size (u32 (dl_size l - 1)) l).

(** The test [it.n == 0] is the source's own. *)
Definition list_remove (fuel : nat) (l : dlist) (v : list Z) : M dheap (Z * dlist) :=
  it ← list_find fuel l v;
  match it_n it with
  | None => mret (0%Z, l)
  | Some _ => r ← list_erase l it; mret (1%Z, r.2)
  end.

Definition list_iter_is_equal (a b : list_iter) : bool := bool_decide (it_n a = it_n b).

Definition list_iter_get_val (it : list_iter) : M dheap (list Z) := ld_value (it_n it).

Definition list_iter_set_val (it : list_iter) (v : list Z) : M dheap () :=
  old ← ld_value (it_n it);
  new ← memcpy_from (length old) v;
  st_value (it_n it) new.

(** The freeing loop of [list_destroy]; [cur] is the loop variable. *)
Definition destroy_body (l : dlist) (cur : ptr) : M dheap (ptr + ()) :=
  if decide (cur = Some (dl_end l)) then mret (inr tt)
  else next ← ld_next cur; node_free cur;; mret (inl next).

Definition list_destroy (fuel : nat) (l : dlist) : M dheap () :=
  (if (0 <? dl_size l)%Z then
     cur ← ld_next (Some (dl_head l)); loop fuel (destroy_body l) cur
   else mret tt);;
  zoom d_next with_next (hfree (Some (dl_head l)));;
  zoom d_next with_next (hfree (Some (dl_end l)));;
  zoom d_pre with_pre (hfree (Some (dl_head l)));;
  zoom d_pre with_pre (hfree (Some (dl_end l))).

(** ** Symbolic execution of field accesses *)

Section field_wp.
Implicit Types (h : dheap) (x : loc).

Lemma wp_ld_next x v h Q : d_next h !! x = Some v → Q v h → wp (ld_next (Some x)) h Q.
Proof. intros. apply wp_zoom. eapply wp_hload; [done|]. by destruct h. Qed.
Lemma wp_ld_pre x v h Q : d_pre h !! x = Some v → Q v h → wp (ld_pre (Some x)) h Q.
Proof. intros. apply wp_zoom. eapply wp_hload; [done|]. by destruct h. Qed.
Lemma wp_ld_value x v h Q : d_value h !! x = Some v → Q v h → wp (ld_value (Some x)) h Q.
Proof. intros. apply wp_zoom. eapply wp_hload; [done|]. by destruct h. Qed.
Lemma wp_st_next x v h Q :
  is_Some (d_next h !! x) → Q tt (with_next (<[x:=v]> (d_next h)) h) →
  wp (st_next (Some x) v) h Q.
Proof. intros [? ?] ?. apply wp_zoom. by eapply wp_hstore. Qed.
Lemma wp_st_pre x v h Q :
  is_Some (d_pre h !! x) → Q tt (with_pre (<[x:=v]> (d_pre h)) h) →
  wp (st_pre (Some x) v) h Q.
Proof. intros [? ?] ?. apply wp_zoom. by eapply wp_hstore. Qed.
Lemma wp_st_value x v h Q :
  is_Some (d_value h !! x) → Q tt (with_value (<[x:=v]> (d_value h)) h) →
  wp (st_value (Some x) v) h Q.
Proof. intros [? ?] ?. apply wp_zoom. by eapply wp_hstore. Qed.

Lemma wp_node_free x h Q :
  is_Some (d_next h !! x) → is_Some (d_pre h !! x) → is_Some (d_value h !! x) →
  Q tt (DHeap (delete x (d_next h)) (delete x (d_pre h)) (delete x (d_value h))) →
  wp (node_free (Some x)) h Q.
Proof.
  intros [a Ha] [b Hb] [c Hc] HQ. rw /node_free.
  do 2 (wp_step; apply wp_zoom; eapply wp_hfree; [done|]). simpl.
  apply wp_zoom; by eapply wp_hfree.
Qed.

Lemma wp_node_alloc v h Q :
  (∀ l, l ∉ dheap_dom h →
    Q l (DHeap (<[l := NULL]> (d_next h)) (<[l := NULL]> (d_pre h))
               (<[l := v]> (d_value h)))) →
  wp (node_alloc v) h Q.
Proof. intros HQ. apply HQ, is_fresh. Qed.

Lemma wp_memcpy_from n src h Q :
  n ≤ length src → Q (take n src) h → wp (memcpy_from n src) h Q.
Proof. intros. rw /memcpy_from. by case_decide. Qed.
End field_wp.

(** ** Chains of mutually linked nodes *)

Definition link (h : dheap) (a b : loc) : Prop :=
  d_next h !! a = Some (Some b) ∧ d_pre h !! b = Some (Some a).

Fixpoint links (h : dheap) (ls : list loc) : Prop :=
  match ls with
  | a :: (b :: _) as r => link h a b ∧ links h r
  | _ => True
  end.

Section links.
Implicit Types (h : dheap) (A B ls : list loc).

Lemma links_app h A p q B :
  links h (A ++ p :: q :: B) ↔ links h (A ++ [p]) ∧ link h p q ∧ links h (q :: B).
Proof.
  induction A as [|a A IH]; simpl; [tauto|].
  destruct A as [|a' A]; simpl in *; tauto.
Qed.

(** Links only read [next] before the last node and [pre] after the first. *)
Lemma links_ext h h' ls :
  (∀ x, x ∈ removelast ls → d_next h' !! x = d_next h !! x) →
  (∀ x, x ∈ tail ls → d_pre h' !! x = d_pre h !! x) →
  links h ls → links h' ls.
Proof.
  induction ls as [|a [|b r] IH]; [done..|].
  intros Hn Hp [[Ha Hb] Hr]. split.
  - split; [rw Hn|rw Hp]; simpl; done || set_solver.
  - apply IH; [|by simpl; set_solver|done].
    intros x Hx. apply Hn. simpl in *. destruct r; set_solver.
Qed.

Lemma links_insert h h' A p q B new :
  links h (A ++ p :: q :: B) → NoDup (A ++ p :: q :: B) →
  new ∉ A ++ p :: q :: B →
  d_next h' !! p = Some (Some new) → d_next h' !! new = Some (Some q) →
  d_pre h' !! q = Some (Some new) → d_pre h' !! new = Some (Some p) →
  (∀ x, x ≠ p → x ≠ new → d_next h' !! x = d_next h !! x) →
  (∀ x, x ≠ q → x ≠ new → d_pre h' !! x = d_pre h !! x) →
  links h' (A ++ p :: new :: q :: B).
Proof.
  intros (HA & _ & HB)%links_app Hnd Hnew ???? Hn Hp.
  apply NoDup_app in Hnd as (HndA & Hdisj & [HpB HndB]%NoDup_cons).
  apply NoDup_cons in HndB as [HqB _].
  apply (links_app _ (A) p new). split; [|split; [done|]].
  - eapply links_ext; [..|exact HA]; intros x Hx; [apply Hn|apply Hp].
    + rw removelast_last in Hx. intros ->. by apply (Hdisj p); [|set_solver].
    + rw removelast_last in Hx. set_solver.
    + destruct A; set_solver.
    + destruct A; set_solver.
  - split; [done|]. eapply links_ext; [..|exact HB]; intros x Hx; [apply Hn|apply Hp].
    + apply elem_of_removelast in Hx. set_solver.
    + apply elem_of_removelast in Hx. set_solver.
    + set_solver.
    + set_solver.
Qed.

Lemma links_remove h h' A p n q B :
  links h (A ++ p :: n :: q :: B) → NoDup (A ++ p :: n :: q :: B) →
  d_next h' !! p = Some (Some q) → d_pre h' !! q = Some (Some p) →
  (∀ x, x ≠ p → x ≠ n → d_next h' !! x = d_next h !! x) →
  (∀ x, x ≠ q → x ≠ n → d_pre h' !! x = d_pre h !! x) →
  links h' (A ++ p :: q :: B).
Proof.
  intros (HA & _ & HB)%links_app Hnd ?? Hn Hp.
  apply NoDup_app in Hnd as (HndA & Hdisj & [HpB [HnB [HqB _]%NoDup_cons]%NoDup_cons]%NoDup_cons).
  apply (links_app _ []) in HB as (_ & _ & HB).
  apply (links_app _ A). split; [|split; [done|]].
  - eapply links_ext; [..|exact HA]; intros x Hx; [apply Hn|apply Hp].
    + rw removelast_last in Hx. intros ->. by apply (Hdisj p); [|set_solver].
    + rw removelast_last in Hx. intros ->. by apply (Hdisj n); [|set_solver].
    + destruct A; set_solver.
    + destruct A; set_solver.
  - eapply links_ext; [..|exact HB]; intros x Hx; [apply Hn|apply Hp].
    + apply elem_of_removelast in Hx. set_solver.
    + apply elem_of_removelast in Hx. set_solver.
    + set_solver.
    + set_solver.
Qed.
End links.

(** ** The representation predicate *)

Abbreviation nodes := (list (loc * list Z)).

(** The addresses of a list, sentinels included. *)
Definition spine (l : dlist) (xs : nodes) : list loc :=
  dl_head l :: xs.*1 ++ [dl_end l].

Record dl_rep (h : dheap) (l : dlist) (xs : nodes) : Prop := {
  dl_rep_size : dl_size l = Z.of_nat (length xs);
  dl_rep_links : links h (spine l xs);
  dl_rep_nodup : NoDup (spine l xs);
  dl_rep_vals : ∀ x v, (x, v) ∈ xs → d_value h !! x = Some v ∧ length v = dl_val_size l;
  dl_rep_end : d_next h !! dl_end l = Some NULL;
  dl_rep_head : d_pre h !! dl_head l = Some NULL;
}.

(** The list has room for one more element in its [uint32_t] counter. *)
Definition dl_room (xs : nodes) : Prop := (Z.of_nat (length xs) < 2 ^ 32 - 1)%Z.

(** The node before and the node at a position of the list. *)
Definition pred_of (l : dlist) (xs : nodes) : loc := from_option fst (dl_head l) (last xs).
Definition here_of (l : dlist) (ys : nodes) : loc := from_option fst (dl_end l) (head ys).

Section rep.
Implicit Types (h : dheap) (l : dlist) (xs ys : nodes).

(** A position splits the spine at two neighbours. *)
Lemma spine_split l xs ys : ∃ A B,
  spine l (xs ++ ys) = A ++ pred_of l xs :: here_of l ys :: B ∧
  (∀ x, x ∈ A → x = dl_head l ∨ x ∈ xs.*1) ∧
  dl_head l :: xs.*1 = A ++ [pred_of l xs] ∧ ys.*1 ++ [dl_end l] = here_of l ys :: B.
Proof.
  assert (∃ A, dl_head l :: xs.*1 = A ++ [pred_of l xs] ∧
               ∀ x, x ∈ A → x = dl_head l ∨ x ∈ xs.*1) as (A & HA & HinA).
  { destruct xs as [|[x v] xs _] using rev_ind; [by exists []; split; [|set_solver]|].
    rw /pred_of last_snoc fmap_app. exists (dl_head l :: xs.*1). split; [done|].
    set_solver. }
  assert (∃ B, ys.*1 ++ [dl_end l] = here_of l ys :: B) as (B & HB).
  { destruct ys as [|[y v] ys]; [by exists []|by exists (ys.*1 ++ [dl_end l])]. }
  exists A, B. split; [|split; [exact HinA|split; [exact HA|exact HB]]].
  rw /spine fmap_app -app_assoc HB app_comm_cons HA -app_assoc //.
Qed.

Lemma dl_rep_links_fun h l xs ys A B :
  dl_rep h l (xs ++ ys) → spine l (xs ++ ys) = A ++ pred_of l xs :: here_of l ys :: B →
  link h (pred_of l xs) (here_of l ys).
Proof. intros [_ Hl] Heq. rw Heq in Hl. by apply links_app in Hl as (_ & ? & _). Qed.

Lemma dl_rep_link h l xs ys :
  dl_rep h l (xs ++ ys) → link h (pred_of l xs) (here_of l ys).
Proof.
  intros Hl. destruct (spine_split l xs ys) as (A & B & Heq & _).
  by eapply dl_rep_links_fun.
Qed.

Lemma dl_rep_empty_size h l xs : dl_rep h l xs → (0 <? dl_size l)%Z = bool_decide (xs ≠ []).
Proof.
  intros [Hs _ _]. rw Hs. case_bool_decide as Hxs.
  - apply Z.ltb_lt. destruct xs; [done|simpl; lia].
  - by rw Hxs.
Qed.

(** Every node of the spine but [end] has a forward link, every one but [head]
    a backward link; together with the two NULL links, all fields exist. *)
Lemma dl_rep_allocated h l xs x :
  dl_rep h l xs → x ∈ spine l xs → is_Some (d_next h !! x) ∧ is_Some (d_pre h !! x).
Proof.
  intros Hl Hx. split.
  - destruct (decide (x = dl_end l)) as [->|Hne]; [by rw (dl_rep_end _ _ _ Hl)|].
    assert (∃ ys zs, xs = ys ++ zs ∧ x = pred_of l ys) as (ys & zs & -> & ->).
    { rw /spine in Hx. apply elem_of_cons in Hx as [->|Hx]; [by exists [], xs|].
      apply elem_of_app in Hx as [[[y v] [-> Hy]]%list_elem_of_fmap|?]; [|set_solver].
      apply list_elem_of_split in Hy as (a & b & ->). exists (a ++ [(y, v)]), b.
      rw -assoc /pred_of last_snoc //. }
    destruct (dl_rep_link _ _ _ _ Hl) as [-> _]. eauto.
  - destruct (decide (x = dl_head l)) as [->|Hne]; [by rw (dl_rep_head _ _ _ Hl)|].
    assert (∃ ys zs, xs = ys ++ zs ∧ x = here_of l zs) as (ys & zs & -> & ->).
    { rw /spine in Hx. apply elem_of_cons in Hx as [->|Hx]; [done|].
      apply elem_of_app in Hx as [[[y v] [-> Hy]]%list_elem_of_fmap|Hx].
      - apply list_elem_of_split in Hy as (a & b & ->). by exists a, ((y, v) :: b).
      - apply list_elem_of_singleton in Hx as ->. exists xs, []. by rw app_nil_r. }
    destruct (dl_rep_link _ _ _ _ Hl) as [_ ->]. eauto.
Qed.
End rep.

(** ** Correctness of the operations *)

Section ops.
Implicit Types (h : dheap) (l : dlist) (xs ys : nodes) (v : list Z).

Lemma spine_elem l xs x v : (x, v) ∈ xs → x ∈ spine l xs.
Proof.
  intros Hx. right. apply elem_of_app; left. apply list_elem_of_fmap. by exists (x, v).
Qed.

Lemma set_size_spine z l xs : spine (set_size z l) xs = spine l xs.
Proof. done. Qed.

(** A node outside the heap is not on the spine. *)
Lemma spine_fresh h l xs new : dl_rep h l xs → new ∉ dheap_dom h → new ∉ spine l xs.
Proof.
  intros Hl Hnew Hin. destruct (dl_rep_allocated _ _ _ _ Hl Hin) as [Ha _].
  apply elem_of_dom in Ha. unfold dheap_dom in Hnew. set_solver.
Qed.

Lemma end_ne_pred h l xs ys : dl_rep h l (xs ++ ys) → dl_end l ≠ pred_of l xs.
Proof.
  intros Hl Heq. destruct (dl_rep_link _ _ _ _ Hl) as [Hn _].
  rw -Heq (dl_rep_end _ _ _ Hl) in Hn. done.
Qed.
Lemma head_ne_here h l xs ys : dl_rep h l (xs ++ ys) → dl_head l ≠ here_of l ys.
Proof.
  intros Hl Heq. destruct (dl_rep_link _ _ _ _ Hl) as [_ Hn].
  rw -Heq (dl_rep_head _ _ _ Hl) in Hn. done.
Qed.

Lemma spine_cons_split l xs ys new v A B :
  dl_head l :: xs.*1 = A ++ [pred_of l xs] → ys.*1 ++ [dl_end l] = here_of l ys :: B →
  spine l (xs ++ (new, v) :: ys) = A ++ pred_of l xs :: new :: here_of l ys :: B.
Proof. intros HA HB. by rw /spine fmap_app -app_assoc app_comm_cons HA /= HB -app_assoc. Qed.

(** The state after linking a fresh node between two neighbours. *)
Lemma dl_rep_insert h h' l xs ys new v :
  dl_rep h l (xs ++ ys) → dl_room (xs ++ ys) → new ∉ dheap_dom h →
  length v = dl_val_size l →
  d_next h' = <[new := Some (here_of l ys)]> (<[pred_of l xs := Some new]> (d_next h)) →
  d_pre h' = <[new := Some (pred_of l xs)]> (<[here_of l ys := Some new]> (d_pre h)) →
  d_value h' = <[new := v]> (d_value h) →
  dl_rep h' (set_size (u32 (dl_size l + 1)) l) (xs ++ (new, v) :: ys).
Proof.
  intros Hl Hroom Hnew Hv Hn Hp Hval.
  pose proof (spine_fresh _ _ _ _ Hl Hnew) as Hout.
  pose proof (end_ne_pred _ _ _ _ Hl). pose proof (head_ne_here _ _ _ _ Hl).
  assert (dl_end l ≠ new ∧ dl_head l ≠ new) as [] by (rw /spine in Hout; set_solver).
  destruct (spine_split l xs ys) as (A & B & Heq & _ & HA & HB).
  pose proof (spine_cons_split l xs ys new v A B HA HB) as Heq'.
  assert (pred_of l xs ≠ new ∧ here_of l ys ≠ new) as [] by (rw Heq in Hout; set_solver).
  destruct Hl as [Hs Hlinks Hnd Hvals He Hh]. split.
  - rw /= Hs !length_app /=. rw u32_small; [|lia].
    unfold dl_room in Hroom. rw length_app in Hroom. lia.
  - rw set_size_spine Heq'. rw Heq in Hlinks Hnd Hout.
    eapply links_insert; try done; rw ?Hn ?Hp ?lookup_insert_eq //.
    1, 2: rw lookup_insert_ne // lookup_insert_eq //.
    all: intros; rw !lookup_insert_ne //.
  - rw set_size_spine Heq'. rw Heq in Hnd Hout.
    rewrite (Permutation_app_comm A). simpl.
    rewrite (Permutation_app_comm A) /= in Hnd. set_unfold in Hout.
    rewrite !NoDup_cons in Hnd |- *. set_solver.
  - intros x w Hx. rw Hval /=. apply elem_of_app in Hx as [Hx|[Hx|Hx]%elem_of_cons];
      [|simplify_eq; by rw lookup_insert_eq|];
      (rw lookup_insert_ne; [intros <-; by eapply Hout, spine_elem, elem_of_app; eauto|]);
      apply Hvals, elem_of_app; eauto.
  - rw /= Hn !lookup_insert_ne //.
  - rw /= Hp !lookup_insert_ne //.
Qed.

Lemma list_insert_before_ok h l xs ys it v :
  dl_rep h l (xs ++ ys) → it_n it = Some (here_of l ys) →
  dl_val_size l ≤ length v → dl_room (xs ++ ys) →
  wp (list_insert_before l it v true) h (λ l' h', ∃ new, new ∉ dheap_dom h ∧
    dl_val_size l' = dl_val_size l ∧
    dl_rep h' l' (xs ++ (new, take (dl_val_size l) v) :: ys)).
Proof.
  intros Hl Hit Hv Hroom. rw /list_insert_before Hit.
  wp_step. apply wp_memcpy_from; [done|]. wp_step. apply wp_node_alloc. intros new Hnew.
  pose proof (spine_fresh _ _ _ _ Hl Hnew) as Hout.
  destruct (spine_split l xs ys) as (A & B & Heq & _). rw Heq in Hout.
  assert (pred_of l xs ≠ new ∧ here_of l ys ≠ new) as [] by set_solver.
  destruct (dl_rep_link _ _ _ _ Hl) as [Hnx Hpr].
  wp_step. eapply wp_ld_pre; [rw /= lookup_insert_ne //; exact Hpr|].
  wp_step. apply wp_st_next; [rw /= lookup_insert_ne // Hnx; eauto|].
  wp_step. apply wp_st_pre; [rw /= lookup_insert_ne // Hpr; eauto|].
  wp_step. apply wp_st_next; [rw /= lookup_insert_ne // lookup_insert_eq; eauto|].
  wp_step. apply wp_st_pre; [rw /= lookup_insert_ne // lookup_insert_eq; eauto|].
  wp_step. exists new. do 2 (split; [done|]).
  eapply dl_rep_insert; try done; simpl.
  - rw length_take. lia.
  - map_ext.
  - map_ext.
Qed.

Lemma list_insert_after_ok h l xs ys it v :
  dl_rep h l (xs ++ ys) → it_n it = Some (pred_of l xs) →
  dl_val_size l ≤ length v → dl_room (xs ++ ys) →
  wp (list_insert_after l it v true) h (λ l' h', ∃ new, new ∉ dheap_dom h ∧
    dl_val_size l' = dl_val_size l ∧
    dl_rep h' l' (xs ++ (new, take (dl_val_size l) v) :: ys)).
Proof.
  intros Hl Hit Hv Hroom. rw /list_insert_after Hit.
  wp_step. apply wp_memcpy_from; [done|]. wp_step. apply wp_node_alloc. intros new Hnew.
  pose proof (spine_fresh _ _ _ _ Hl Hnew) as Hout.
  destruct (spine_split l xs ys) as (A & B & Heq & _). rw Heq in Hout.
  assert (pred_of l xs ≠ new ∧ here_of l ys ≠ new) as [] by set_solver.
  destruct (dl_rep_link _ _ _ _ Hl) as [Hnx Hpr].
  wp_step. eapply wp_ld_next; [rw /= lookup_insert_ne //; exact Hnx|].
  wp_step. apply wp_st_pre; [rw /= lookup_insert_ne // Hpr; eauto|].
  wp_step. apply wp_st_next; [rw /= lookup_insert_ne // Hnx; eauto|].
  wp_step. apply wp_st_next; [rw /= lookup_insert_ne // lookup_insert_eq; eauto|].
  wp_step. apply wp_st_pre; [rw /= lookup_insert_ne // lookup_insert_eq; eauto|].
  wp_step. exists new. do 2 (split; [done|]).
  eapply dl_rep_insert; try done; simpl.
  - rw length_take. lia.
  - map_ext.
  - map_ext.
Qed.

(** The state after unlinking the node [n]. *)
Lemma dl_rep_delete h h' l xs ys n v :
  dl_rep h l (xs ++ (n, v) :: ys) → dl_room (xs ++ ys) →
  d_next h' = delete n (<[pred_of l xs := Some (here_of l ys)]> (d_next h)) →
  d_pre h' = delete n (<[here_of l ys := Some (pred_of l xs)]> (d_pre h)) →
  d_value h' = delete n (d_value h) →
  dl_rep h' (set_size (u32 (dl_size l - 1)) l) (xs ++ ys).
Proof.
  intros Hl Hroom Hn Hp Hval.
  pose proof (end_ne_pred _ _ _ _ Hl) as Hep.
  assert (dl_head l ≠ here_of l ys) as Hhh.
  { apply (head_ne_here h l (xs ++ [(n, v)])). by rw -assoc. }
  destruct (spine_split l xs ys) as (A & B & Heq & _ & HA & HB).
  pose proof (spine_cons_split l xs ys n v A B HA HB) as Heq'.
  destruct Hl as [Hs Hlinks Hnd Hvals He Hh].
  assert (n ∉ spine l (xs ++ ys)) as Hout.
  { rw Heq' in Hnd. rw Heq. rewrite (Permutation_app_comm A) /= in Hnd.
    rewrite !NoDup_cons in Hnd. set_solver. }
  assert (dl_end l ≠ n ∧ dl_head l ≠ n) as [] by (rw /spine in Hout; set_solver).
  assert (pred_of l xs ≠ n ∧ here_of l ys ≠ n) as [] by (rw Heq in Hout; set_solver).
  split.
  - rw /= Hs !length_app /=. unfold dl_room in Hroom. rw length_app in Hroom.
    rw u32_small; lia.
  - rw set_size_spine Heq. rw Heq' in Hlinks Hnd.
    eapply links_remove; try done; rw ?Hn ?Hp.
    1, 2: rw lookup_delete_ne // lookup_insert_eq //.
    all: intros; rw lookup_delete_ne // lookup_insert_ne //.
  - rw set_size_spine Heq. rw Heq' in Hnd.
    rewrite (Permutation_app_comm A). rewrite (Permutation_app_comm A) in Hnd. simpl in *.
    rewrite !NoDup_cons in Hnd |- *. set_solver.
  - intros x w Hx. rw Hval lookup_delete_ne; [intros <-; by eapply Hout, spine_elem|].
    apply Hvals. set_solver.
  - rw /= Hn lookup_delete_ne // lookup_insert_ne //.
  - rw /= Hp lookup_delete_ne // lookup_insert_ne //.
Qed.

Lemma unlink_ok h l xs ys n v :
  dl_rep h l (xs ++ (n, v) :: ys) → dl_room (xs ++ ys) →
  wp (unlink (Some n)) h (λ _ h',
    dl_rep h' (set_size (u32 (dl_size l - 1)) l) (xs ++ ys)).
Proof.
  intros Hl Hroom. rw /unlink.
  destruct (dl_rep_link _ _ _ _ Hl) as [Hn1 Hp1]. simpl in Hn1, Hp1.
  assert (Hl' : dl_rep h l ((xs ++ [(n, v)]) ++ ys)) by by rw -assoc.
  destruct (dl_rep_link _ _ _ _ Hl') as [Hn2 Hp2].
  rw /pred_of last_snoc /= in Hn2 Hp2. fold (pred_of l xs) in *.
  destruct (dl_rep_vals _ _ _ Hl n v) as [Hv _]; [set_solver|].
  wp_step. eapply wp_ld_pre; [exact Hp1|].
  wp_step. eapply wp_ld_next; [exact Hn2|].
  wp_step. apply wp_st_next; [by eauto|]. wp_step. apply wp_st_pre; [rw /= Hp2; eauto|].
  apply wp_node_free; simpl.
  - rw lookup_insert. case_decide; [by eauto|rw Hn2; eauto].
  - rw lookup_insert. case_decide; [by eauto|rw Hp1; eauto].
  - by eauto.
  - by eapply dl_rep_delete.
Qed.
End ops.

(** ** The list as a deque of byte blocks *)

Module Deque.

Inductive op :=
  | PushBack (v : list Z)
  | PushFront (v : list Z)
  | PopBack
  | PopFront
  | Front
  | Back
  | Size.

Inductive out :=
  | Done
  | Got (v : option (list Z))
  | Count (n : Z).

(** The specification, on the sequence of values; [k] bytes are stored. *)
Definition spec_step (k : nat) (o : op) (vs : list (list Z)) : out * list (list Z) :=
  match o with
  | PushBack v => (Done, vs ++ [take k v])
  | PushFront v => (Done, take k v :: vs)
  | PopBack => (Got (last vs), removelast vs)
  | PopFront => (Got (head vs), tail vs)
  | Front => (Got (head vs), vs)
  | Back => (Got (last vs), vs)
  | Size => (Count (Z.of_nat (length vs)), vs)
  end.

Fixpoint spec_run (k : nat) (os : list op) (vs : list (list Z)) :
    list out * list (list Z) :=
  match os with
  | [] => ([], vs)
  | o :: os => let (r, vs) := spec_step k o vs in
               let (rs, vs) := spec_run k os vs in (r :: rs, vs)
  end.

Definition impl_step (o : op) (l : dlist) : M dheap (out * dlist) :=
  match o with
  | PushBack v => l ← list_push_back l v true; mret (Done, l)
  | PushFront v => l ← list_push_front l v true; mret (Done, l)
  | PopBack => r ← list_pop_back l; mret (Got r.1, r.2)
  | PopFront => r ← list_pop_front l; mret (Got r.1, r.2)
  | Front => r ← list_front l; mret (Got r, l)
  | Back => r ← list_back l; mret (Got r, l)
  | Size => mret (Count (list_size l), l)
  end.

Fixpoint impl_run (os : list op) (l : dlist) : M dheap (list out * dlist) :=
  match os with
  | [] => mret ([], l)
  | o :: os => r ← impl_step o l; rs ← impl_run os r.2; mret (r.1 :: rs.1, rs.2)
  end.

(** A pushed value has at least the list's element size. *)
Definition op_ok (k : nat) (o : op) : Prop :=
  match o with PushBack v | PushFront v => k ≤ length v | _ => True end.

Lemma spec_step_length k o vs : length (spec_step k o vs).2 ≤ length vs + 1.
Proof.
  destruct o; simpl; rw ?length_app /=; try lia.
  - destruct vs as [|v vs _] using rev_ind; rw ?removelast_last ?length_app /=; lia.
  - destruct vs; simpl; lia.
Qed.

Section proofs.
Implicit Types (h : dheap) (l : dlist) (xs : nodes).

Lemma begin_ok h l xs :
  dl_rep h l xs → wp (list_begin l) h (λ it h', h' = h ∧ it_n it = Some (here_of l xs)).
Proof.
  intros Hl. destruct (dl_rep_link _ _ [] xs Hl) as [Hn _]. rw /list_begin.
  wp_step. eapply wp_ld_next; [exact Hn|]. by wp_step.
Qed.

(** What both ends of a non-empty list give: the node and its bytes. *)
Lemma first_ok h l x v xs :
  dl_rep h l ((x, v) :: xs) →
  d_next h !! dl_head l = Some (Some x) ∧ d_value h !! x = Some v.
Proof.
  intros Hl. destruct (dl_rep_link _ _ [] _ Hl) as [Hn _]. split; [done|].
  by apply (dl_rep_vals _ _ _ Hl); left.
Qed.
Lemma last_ok h l x v xs :
  dl_rep h l (xs ++ [(x, v)]) →
  d_pre h !! dl_end l = Some (Some x) ∧ d_value h !! x = Some v.
Proof.
  intros Hl. pose proof Hl as Hl'. rewrite -(app_nil_r (xs ++ _)) in Hl'.
  destruct (dl_rep_link _ _ _ [] Hl') as [_ Hp]. rw /pred_of last_snoc in Hp.
  split; [done|]. apply (dl_rep_vals _ _ _ Hl). set_solver.
Qed.

Lemma dl_room_mono xs ys : length ys ≤ length xs → dl_room xs → dl_room ys.
Proof. unfold dl_room. lia. Qed.

Lemma pop_front_ok h l xs :
  dl_rep h l xs → dl_room xs →
  wp (list_pop_front l) h (λ r h', dl_rep h' r.2 (tail xs) ∧
    dl_val_size r.2 = dl_val_size l ∧ r.1 = head xs.*2).
Proof.
  intros Hl Hroom. rw /list_pop_front (dl_rep_empty_size _ _ _ Hl).
  destruct xs as [|[x v] xs]; simpl; [by wp_step|].
  destruct (first_ok _ _ _ _ _ Hl). wp_step. eapply wp_ld_next; [done|].
  wp_step. eapply wp_ld_value; [done|]. wp_step. eapply wp_mono.
  { apply (unlink_ok h l [] xs x v); [done|]. eapply dl_room_mono; [|done]. simpl. lia. }
  intros [] h' Hl'. by wp_step.
Qed.

Lemma pop_back_ok h l xs :
  dl_rep h l xs → dl_room xs →
  wp (list_pop_back l) h (λ r h', dl_rep h' r.2 (removelast xs) ∧
    dl_val_size r.2 = dl_val_size l ∧ r.1 = last xs.*2).
Proof.
  intros Hl Hroom. rw /list_pop_back (dl_rep_empty_size _ _ _ Hl).
  destruct xs as [|[x v] xs _] using rev_ind; simpl; [by wp_step|].
  rw bool_decide_eq_true_2; [by destruct xs|].
  destruct (last_ok _ _ _ _ _ Hl). wp_step. eapply wp_ld_pre; [done|].
  wp_step. eapply wp_ld_value; [done|]. wp_step. eapply wp_mono.
  { apply (unlink_ok h l xs [] x v); [done|]. eapply dl_room_mono; [|done].
    rw !length_app /=. lia. }
  intros [] h' Hl'. wp_step. rw removelast_last fmap_app last_snoc app_nil_r in Hl' *.
  done.
Qed.

Lemma front_ok h l xs :
  dl_rep h l xs → wp (list_front l) h (λ r h', h' = h ∧ r = head xs.*2).
Proof.
  intros Hl. rw /list_front (dl_rep_empty_size _ _ _ Hl).
  destruct xs as [|[x v] xs]; simpl; [by wp_step|].
  destruct (first_ok _ _ _ _ _ Hl). wp_step. eapply wp_ld_next; [done|].
  wp_step. eapply wp_ld_value; [done|]. by wp_step.
Qed.
Lemma back_ok h l xs :
  dl_rep h l xs → wp (list_back l) h (λ r h', h' = h ∧ r = last xs.*2).
Proof.
  intros Hl. rw /list_back (dl_rep_empty_size _ _ _ Hl).
  destruct xs as [|[x v] xs _] using rev_ind; simpl; [by wp_step|].
  rw bool_decide_eq_true_2; [by destruct xs|]. rw fmap_app last_snoc.
  destruct (last_ok _ _ _ _ _ Hl). wp_step. eapply wp_ld_pre; [done|].
  wp_step. eapply wp_ld_value; [done|]. by wp_step.
Qed.

Lemma removelast_fmap {A B} (f : A → B) (ls : list A) :
  f <$> removelast ls = removelast (f <$> ls).
Proof.
  induction ls as [|a [|b ls] IH]; [done..|].
  change (f a :: (f <$> removelast (b :: ls)) = f a :: removelast (f <$> (b :: ls))). by f_equal.
Qed.

Lemma deque_step_refines h l xs o :
  dl_rep h l xs → dl_room xs → op_ok (dl_val_size l) o →
  wp (impl_step o l) h (λ r h', ∃ xs', dl_rep h' r.2 xs' ∧
    dl_val_size r.2 = dl_val_size l ∧
    (r.1, xs'.*2) = spec_step (dl_val_size l) o xs.*2).
Proof.
  intros Hl Hroom Hok. destruct o as [v|v| | | | |];
    cbn [impl_step spec_step op_ok] in *; wp_step.
  - rw /list_push_back. eapply wp_mono; [apply (list_insert_before_ok h l xs []); rw ?app_nil_r //|].
    intros l' h' (new & _ & ? & Hl'). wp_step. eexists. do 2 (split; [done|]).
    by rw fmap_app.
  - rw /list_push_front. wp_step. eapply wp_mono; [by eapply begin_ok|]. intros it h' [-> Hit].
    eapply wp_mono; [by apply (list_insert_before_ok h l [] xs)|].
    intros l' h' (new & _ & ? & Hl'). wp_step. by eexists.
  - eapply wp_mono; [by eapply pop_back_ok|]. intros [r l'] h' (? & ? & ->).
    wp_step. eexists. do 2 (split; [done|]). by rw removelast_fmap.
  - eapply wp_mono; [by eapply pop_front_ok|]. intros [r l'] h' (? & ? & ->).
    wp_step. eexists. do 2 (split; [done|]). simpl. by destruct xs.
  - eapply wp_mono; [by eapply front_ok|]. intros r h' [-> ->]. wp_step. by eexists.
  - eapply wp_mono; [by eapply back_ok|]. intros r h' [-> ->]. wp_step. by eexists.
  - eexists. do 2 (split; [done|]). by rw /list_size (dl_rep_size _ _ _ Hl) length_fmap.
Qed.

Lemma create_ok k h :
  wp (list_create k) h (λ l h', dl_rep h' l [] ∧ dl_val_size l = k).
Proof.
  rw /wp /list_create. set (hd := fresh (dheap_dom h)).
  set (e := fresh ({[hd]} ∪ dheap_dom h)).
  assert (e ≠ hd) by (pose proof (is_fresh ({[hd]} ∪ dheap_dom h)); set_solver).
  clearbody e hd.
  split; [|done]. split; simpl; try done.
  - split; [split|done]; simpl; [by rw lookup_insert_eq|].
    by rw lookup_insert_ne // lookup_insert_eq.
  - rw /spine /= !NoDup_cons. pose proof (NoDup_nil_2 (A:=loc)). set_solver.
  - by intros ?? ?%not_elem_of_nil.
  - rw lookup_insert_ne // lookup_insert_eq //.
  - by rw lookup_insert_eq.
Qed.

Lemma deque_run_refines os h l xs :
  dl_rep h l xs → (Z.of_nat (length xs + length os) < 2 ^ 32 - 1)%Z →
  Forall (op_ok (dl_val_size l)) os →
  wp (impl_run os l) h (λ r h', ∃ xs', dl_rep h' r.2 xs' ∧
    (r.1, xs'.*2) = spec_run (dl_val_size l) os xs.*2).
Proof.
  revert h l xs. induction os as [|o os IH]; intros h l xs Hl Hlen Hok; simpl in *.
  { wp_step. by exists xs. }
  apply Forall_cons in Hok as [Ho Hos]. wp_step.
  eapply wp_mono; [by apply (deque_step_refines h l xs); [|unfold dl_room; lia|]|].
  intros [v l'] h' (xs' & Hl' & Hk & Hspec); simpl in *. wp_step. rw -Hspec.
  pose proof (spec_step_length (dl_val_size l) o xs.*2) as Hlen'.
  rw -Hspec /= !length_fmap in Hlen'.
  eapply wp_mono; [apply (IH h' l' xs'); [done|lia|by rw Hk]|].
  intros [vs l''] h'' (xs'' & ? & Hrun). wp_step. exists xs''. split; [done|].
  rw Hk in Hrun. simpl in *. by rw -Hrun.
Qed.
End proofs.

(** C3: A [struct list] that starts from [list_create(k)] behaves, over any
    sequence of push, pop, front, back and size calls whose arguments point to
    at least [k] bytes, as a double-ended queue of [k]-byte blocks: no call
    faults, each returns what the deque returns (an empty list copies nothing
    out), and the final nodes hold the final deque, doubly linked in order. *)
Theorem list_refines_deque (k : nat) (os : list op) (h : dheap) :
  (Z.of_nat (length os) < 2 ^ 32 - 1)%Z → Forall (op_ok k) os →
  wp (l ← list_create k; impl_run os l) h (λ r h', ∃ xs,
    dl_rep h' r.2 xs ∧ (r.1, xs.*2) = spec_run k os []).
Proof.
  intros Hlen Hok. wp_step. eapply wp_mono; [apply create_ok|].
  intros l h' [Hl <-]. by eapply (deque_run_refines _ _ _ []).
Qed.

Lemma list_refines_deque_witness :
  let os := [PushBack [1; 1]; PushFront [2; 2]; PushBack [3; 3]; Size; PopBack;
             Front; PopFront; PopFront; PopBack]%Z in
  wp (l ← list_create 2; impl_run os l) (DHeap ∅ ∅ ∅) (λ r h', ∃ xs, dl_rep h' r.2 xs ∧
    (r.1, xs.*2) =
      ([Done; Done; Done; Count 3; Got (Some [3; 3]); Got (Some [2; 2]); Got (Some [2; 2]);
        Got (Some [1; 1]); Got None]%Z, [])).
Proof.
  apply (list_refines_deque 2
    [PushBack [1; 1]; PushFront [2; 2]; PushBack [3; 3]; Size; PopBack;
     Front; PopFront; PopFront; PopBack]%Z (DHeap ∅ ∅ ∅)); [done|].
  repeat constructor.
Defined.
End Deque.

(** ** Searching, removing and destroying *)

Module Search.

(** The iterator [list_find] returns for a position of the list. *)
Definition found (l : dlist) (ys : nodes) : list_iter :=
  match ys with
  | [] => list_end l
  | (x, _) :: _ => ListIter (Some (x, FNext)) (Some x)
  end.

Section proofs.
Implicit Types (h : dheap) (l : dlist) (xs : nodes) (v : list Z).

Lemma node_ne_end h l xs x w ys : dl_rep h l (xs ++ (x, w) :: ys) → x ≠ dl_end l.
Proof.
  intros Hl ->. apply (end_ne_pred h l (xs ++ [(dl_end l, w)]) ys); [by rw -assoc|].
  by rw /pred_of last_snoc.
Qed.

Lemma find_loop_ok h l v xs ys zs fuel :
  dl_rep h l (xs ++ ys ++ zs) → v ∉ ys.*2 →
  match zs with [] => True | (_, w) :: _ => w = v end →
  length ys < fuel →
  wp (loop fuel (find_body l v) (Some (here_of l (ys ++ zs)))) h
     (λ c h', h' = h ∧ c = Some (here_of l zs)).
Proof.
  intros Hl Hv Hz Hfuel.
  apply (wp_loop (λ n c h', h' = h ∧ n ≤ length ys ∧
    c = Some (here_of l (drop (length ys - n) (ys ++ zs))))) with (n := length ys);
    [|by rw Nat.sub_diag|done].
  intros n c _ (-> & Hn & ->). rw /find_body.
  rewrite -(firstn_skipn (length ys - n) (ys ++ zs)) in Hl.
  assert (Hd : drop (length ys - n) (ys ++ zs) = drop (length ys - n) ys ++ zs)
    by (rw drop_app_le //; lia). rw Hd in Hl *.
  destruct (drop (length ys - n) ys) as [|[x w] ys'] eqn:Hys; simpl in *.
  - destruct zs as [|[z w] zs]; simpl; [by rw decide_True; [|wp_step]|]. subst w.
    rw decide_False; [intros [= ?]; eapply (node_ne_end h l (xs ++ _)); [by rw -assoc|done]|].
    destruct (dl_rep_vals _ _ _ Hl z v) as [Hz' _]; [set_solver|].
    wp_step. eapply wp_ld_value; [done|]. rw decide_True //; by wp_step.
  - rw decide_False; [intros [= ?]; eapply (node_ne_end h l (xs ++ _)); [by rw -assoc|done]|].
    destruct (dl_rep_vals _ _ _ Hl x w) as [Hx _]; [set_solver|].
    wp_step. eapply wp_ld_value; [done|].
    assert (Hwv : w ≠ v).
    { intros ->. apply Hv. apply list_elem_of_fmap. exists (x, v). split; [done|].
      rewrite -(firstn_skipn (length ys - n) ys) Hys. set_solver. }
    rw decide_False //. rw assoc in Hl.
    pose proof (dl_rep_link h l (xs ++ take (length ys - n) (ys ++ zs) ++ [(x, w)]) (ys' ++ zs))
      as [Hnext _]; [by rw -!assoc /= in Hl *|].
    rw assoc /pred_of last_snoc /= in Hnext.
    wp_step. eapply wp_ld_next; [done|]. wp_step.
    assert (length (drop (length ys - n) ys) = S (length ys')) as Hlen by by rw Hys.
    rw length_drop in Hlen. exists (n - 1). split_and!; [lia|done|lia|].
    replace (length ys - (n - 1)) with (S (length ys - n)) by lia.
    rw drop_app_le; [lia|]. f_equal. rewrite -(Nat.add_1_r (_ - _)) -drop_drop Hys //.
Qed.

Lemma list_find_ok h l v xs zs fuel :
  dl_rep h l (xs ++ zs) → v ∉ xs.*2 →
  match zs with [] => True | (_, w) :: _ => w = v end →
  length xs < fuel →
  wp (list_find fuel l v) h (λ it h', h' = h ∧ it = found l zs).
Proof.
  intros Hl Hv Hz Hfuel. rw /list_find.
  destruct (dl_rep_link h l [] _ Hl) as [Hn _].
  wp_step. eapply wp_ld_next; [exact Hn|]. wp_step.
  eapply wp_mono; [by apply (find_loop_ok h l v [] xs zs)|].
  intros c h' [-> ->]. destruct zs as [|[z w] zs]; simpl.
  - by rw decide_True; [|wp_step].
  - rw decide_False; [by eapply node_ne_end|]. by wp_step.
Qed.
End proofs.

(** A list of two one-byte blocks, for the witnesses. *)
Definition sample_heap : dheap :=
  DHeap {[1%positive := Some 3%positive; 3%positive := Some 4%positive;
          4%positive := Some 2%positive; 2%positive := NULL]}
        {[1%positive := NULL; 3%positive := Some 1%positive;
          4%positive := Some 3%positive; 2%positive := Some 4%positive]}
        {[3%positive := [7%Z]; 4%positive := [8%Z]]}.
Definition sample_list : dlist := DList 2 1 2 1.
Definition sample_nodes : nodes := [(3%positive, [7%Z]); (4%positive, [8%Z])].

Lemma sample_rep : dl_rep sample_heap sample_list sample_nodes.
Proof.
  split; try done.
  - rw /spine /= !NoDup_cons. pose proof (NoDup_nil_2 (A:=loc)). set_solver.
  - intros x v. rw /sample_nodes !elem_of_cons. intros [|[|[]%not_elem_of_nil]]; by simplify_eq.
Qed.




End Search.
