(* ===== verification/HashMap.v ===== *)
(** * The open-addressing hash table ([src/src/hash_map.c], [src/include/hash_map.h])

    Linear probing over an array of items, tombstones ([ITEM_DELETE]) on
    removal, doubling at three quarters of load.  Keys and values are byte
    blocks of fixed sizes; the hash function, the key comparison and the removal
    callback are the caller's, so they are parameters.  [hm_rep h m] says that
    the table [h] represents the finite map [m]. *)
From S2P Require Import Prelude.

(** ** Data *)

Inductive item_flag := ITEM_EMPTY | ITEM_DELETE | ITEM_USED.

#[export] Instance item_flag_eq_dec : EqDecision item_flag.
Proof. solve_decision. Defined.

Record hash_item := HashItem {
  hash_code : Z;
  flag : item_flag;
  item_key : list Z;
  item_val : list Z;
}.

(** [hm_block] is the identity of the [_items] block, which an expansion
    replaces; [hm_on_remove] says whether a removal callback is installed. *)
Record hash_map := HashMap {
  hm_on_remove : bool;
  slot_size : Z;
  hm_size : Z;
  key_size : nat;
  val_size : nat;
  item_size : Z;
  expand_size : Z;
  hm_block : nat;
  hm_items : list hash_item;
}.

(** An iterator: the item's block and slot, [None] for the invalid iterator. *)
Abbreviation hash_map_iter := (option (nat * Z)).

(** A zeroed item, as [calloc] leaves it. *)
Definition zero_item (ks vs : nat) : hash_item :=
  HashItem 0 ITEM_EMPTY (replicate ks 0%Z) (replicate vs 0%Z).

Definition with_items (items : list hash_item) (h : hash_map) : hash_map :=
  HashMap (hm_on_remove h) (slot_size h) (hm_size h) (key_size h) (val_size h)
    (item_size h) (expand_size h) (hm_block h) items.
Definition with_size (size : Z) (h : hash_map) : hash_map :=
  HashMap (hm_on_remove h) (slot_size h) size (key_size h) (val_size h)
    (item_size h) (expand_size h) (hm_block h) (hm_items h).

(** [sizeof(struct hash_item)]: a [uint64_t], an [int8_t] and padding. *)
Definition sizeof_hash_item : Z := 16.

Definition calloc_items (n : Z) (ks vs : nat) : list hash_item :=
  replicate (Z.to_nat n) (zero_item ks vs).

Section hash_map.
Context (_hash_function : list Z → Z) (_key_cmp_function : list Z → list Z → Z).

Definition hash_map_create (slots : Z) (ks vs : nat) (on_remove : bool) : hash_map :=
  HashMap on_remove slots 0 ks vs (u32 (sizeof_hash_item + Z.of_nat ks + Z.of_nat vs))
    (slots - slots / 4) 0 (calloc_items slots ks vs).

(** [HASH_MAP_INDEX]: the modulo by the table size. *)
Definition HASH_MAP_INDEX (code slots : Z) : result Z :=
  if (slots =? 0)%Z then Fault DivByZero else Ok (code mod slots)%Z.

(** [GET_ITEM]: the byte offset is a 32-bit product. *)
Definition GET_ITEM (h : hash_map) (slot : Z) : result nat :=
  let off := u32 (item_size h * slot) in
  if ((0 <? item_size h) && (off mod item_size h =? 0))%Z then
    let i := Z.to_nat (off / item_size h) in
    if decide (i < length (hm_items h)) then Ok i else Fault OutOfBounds
  else Fault OutOfBounds.

Definition item_at (h : hash_map) (i : nat) : hash_item :=
  nth i (hm_items h) (zero_item (key_size h) (val_size h)).

(** One probe of [_hash_map_insert]; the locals are [slot] and [check_count]. *)
Definition insert_body (key val : list Z) (code : Z) (x : Z * Z) :
    M hash_map ((Z * Z) + Z) :=
  let '(slot, check_count) := x in
  h ← get;
  if (check_count <? slot_size h)%Z then
    i ← lift (GET_ITEM h slot);
    let item := item_at h i in
    if decide (flag item ≠ ITEM_USED) then
      put (with_items (<[i := HashItem code ITEM_USED (take (key_size h) key)
                                (take (val_size h) val)]> (hm_items h)) h);;
      mret (inr 0%Z)
    else if ((code =? hash_code item) && (_key_cmp_function key (item_key item) =? 0))%Z then
      mret (inr (-1)%Z)
    else
      slot' ← lift (HASH_MAP_INDEX (u32 (slot + 1)) (slot_size h));
      mret (inl (slot', u32 (check_count + 1)))
  else mret (inr (-1)%Z).

Definition _hash_map_insert (key val : list Z) (code : Z) : M hash_map Z :=
  h ← get;
  slot ← lift (HASH_MAP_INDEX code (slot_size h));
  loop (S (S (Z.to_nat (slot_size h)))) (insert_body key val code) (slot, 0%Z).

(** Re-inserting the used items of the old array, in order. *)
Fixpoint reinsert (items : list hash_item) : M hash_map () :=
  match items with
  | [] => mret tt
  | item :: items =>
      (if decide (flag item = ITEM_USED) then
         _hash_map_insert (item_key item) (item_val item) (hash_code item);; mret tt
       else mret tt);;
      reinsert items
  end.

(** [alloc] is the outcome of the [calloc] of the new array. *)
Definition _hash_map_expand (alloc : bool) : M hash_map Z :=
  h ← get;
  let old_items := hm_items h in
  let slots := u32 (Z.shiftl (slot_size h) 1) in
  if alloc then
    put (HashMap (hm_on_remove h) slots (hm_size h) (key_size h) (val_size h) (item_size h)
           (expand_size h) (S (hm_block h)) (calloc_items slots (key_size h) (val_size h)));;
    reinsert old_items;;
    modify (λ h, HashMap (hm_on_remove h) (slot_size h) (hm_size h) (key_size h) (val_size h)
                   (item_size h) (slot_size h - slot_size h / 4) (hm_block h) (hm_items h));;
    mret 0%Z
  else mret (-1)%Z.

Definition hash_map_insert (key val : list Z) (alloc : bool) : M hash_map Z :=
  let code := _hash_function key in
  h ← get;
  (if ((slot_size h <? 0x80000000) && (expand_size h <=? hm_size h))%Z
   then _hash_map_expand alloc;; mret tt else mret tt);;
  h ← get;
  if (slot_size h <=? hm_size h)%Z then mret (-1)%Z
  else
    r ← _hash_map_insert key val code;
    if (r =? 0)%Z then
      modify (λ h, with_size (u32 (hm_size h + 1)) h);; mret 0%Z
    else mret (-1)%Z.

(** One probe of [_hash_map_find]; the result is the item's slot. *)
Definition find_probe (key : list Z) (code : Z) (x : Z * Z) :
    M hash_map ((Z * Z) + option nat) :=
  let '(slot, check_count) := x in
  h ← get;
  if (check_count <? slot_size h)%Z then
    i ← lift (GET_ITEM h slot);
    let item := item_at h i in
    if decide (flag item = ITEM_EMPTY) then mret (inr None)
    else if ((hash_code item =? code) && (_key_cmp_function key (item_key item) =? 0))%Z then
      if decide (flag item = ITEM_DELETE) then mret (inr None) else mret (inr (Some i))
    else
      slot' ← lift (HASH_MAP_INDEX (u32 (slot + 1)) (slot_size h));
      mret (inl (slot', u32 (check_count + 1)))
  else mret (inr None).

Definition _hash_map_find (key : list Z) : M hash_map (option nat) :=
  let code := _hash_function key in
  h ← get;
  slot ← lift (HASH_MAP_INDEX code (slot_size h));
  loop (S (S (Z.to_nat (slot_size h)))) (find_probe key code) (slot, 0%Z).

Definition hash_map_find (key : list Z) : M hash_map hash_map_iter :=
  item ← _hash_map_find key;
  h ← get;
  mret ((λ i, (hm_block h, Z.of_nat i)) <$> item).

(** Marking the item deleted, and the pairs handed to the removal callback. *)
Definition delete_item (i : nat) : M hash_map (list (list Z * list Z)) :=
  h ← get;
  let item := item_at h i in
  put (with_size (u32 (hm_size h - 1))
        (with_items (<[i := HashItem (hash_code item) ITEM_DELETE (item_key item)
                              (item_val item)]> (hm_items h)) h));;
  mret (if hm_on_remove h then [(item_key item, item_val item)] else []).

Definition hash_map_remove (key : list Z) : M hash_map (Z * list (list Z * list Z)) :=
  item ← _hash_map_find key;
  match item with
  | Some i => calls ← delete_item i; mret (0%Z, calls)
  | None => mret ((-1)%Z, [])
  end.

(** The item an iterator points to: its block must be the current one. *)
Definition iter_item (it : nat * Z) : M hash_map nat :=
  h ← get;
  let i := Z.to_nat it.2 in
  if decide (it.1 = hm_block h ∧ i < length (hm_items h)) then mret i else fail Dangling.

Definition hash_map_erase (it : hash_map_iter) : M hash_map (Z * list (list Z * list Z)) :=
  match it with
  | Some it => i ← iter_item it; calls ← delete_item i; mret (0%Z, calls)
  | None => mret ((-1)%Z, [])
  end.

Definition hash_map_is_vaild_iter (it : hash_map_iter) : bool :=
  match it with Some _ => true | None => false end.

Definition hash_map_iter_get_val (it : hash_map_iter) : M hash_map (list Z) :=
  match it with
  | Some it => i ← iter_item it; h ← get; mret (item_val (item_at h i))
  | None => fail NullDeref
  end.

Definition hash_map_iter_set_val (it : hash_map_iter) (data : list Z) : M hash_map () :=
  match it with
  | Some it =>
      i ← iter_item it; h ← get;
      let item := item_at h i in
      put (with_items (<[i := HashItem (hash_code item) (flag item) (item_key item)
                                (take (val_size h) data)]> (hm_items h)) h)
  | None => fail NullDeref
  end.

(** The callbacks of [hash_map_destroy], in slot order. *)
Definition hash_map_destroy (h : hash_map) : list (list Z * list Z) :=
  if hm_on_remove h then
    (λ item, (item_key item, item_val item)) <$>
      filter (λ item, flag item = ITEM_USED) (hm_items h)
  else [].
End hash_map.

(** ** Correctness *)

Section correct.
Context (_hash_function : list Z → Z) (_key_cmp_function : list Z → list Z → Z).

(** What the table relies on of the caller's comparison: 0 means equal. *)
Context (key_cmp_eq : ∀ k1 k2, _key_cmp_function k1 k2 = 0%Z ↔ k1 = k2).

Implicit Types (h : hash_map) (k v : list Z) (m : gmap (list Z) (list Z)).

(** The [j]-th slot probed for the hash code [code]. *)
Definition probe (n : Z) (code : Z) (j : nat) : Z := ((code + Z.of_nat j) mod n)%Z.

Definition used (item : hash_item) : Prop := flag item = ITEM_USED.
#[local] Instance used_dec item : Decision (used item).
Proof. rw /used. apply _. Defined.

Definition used_count (items : list hash_item) : nat := length (filter used items).

(** Nothing stops the search for [k] before its [j]-th probe. *)
Definition passes h (k : list Z) (j : nat) : Prop :=
  ∀ i, i < j → ∃ item, hm_items h !! Z.to_nat (probe (slot_size h) (_hash_function k) i) = Some item ∧
    flag item ≠ ITEM_EMPTY ∧ item_key item ≠ k.

Record hm_wf h : Prop := {
  wf_slots : (0 < slot_size h)%Z;
  wf_item_size : (16 ≤ item_size h)%Z;
  wf_offsets : (item_size h * slot_size h < 2 ^ 32)%Z;
  wf_length : length (hm_items h) = Z.to_nat (slot_size h);
  wf_items : ∀ p item, hm_items h !! p = Some item → flag item ≠ ITEM_EMPTY →
    hash_code item = _hash_function (item_key item) ∧
    length (item_key item) = key_size h ∧ length (item_val item) = val_size h;
  wf_paths : ∀ p item, hm_items h !! p = Some item → used item →
    ∃ j, j < length (hm_items h) ∧
      Z.to_nat (probe (slot_size h) (_hash_function (item_key item)) j) = p ∧
      passes h (item_key item) j;
}.

(** The live items of [h] are the bindings of [m]. *)
Definition hm_content h m : Prop :=
  hm_wf h ∧ ∀ k v, m !! k = Some v ↔
    ∃ p item, hm_items h !! p = Some item ∧ used item ∧ item_key item = k ∧ item_val item = v.

(** [h] represents the finite map [m]. *)
Definition hm_rep h m : Prop :=
  hm_content h m ∧ hm_size h = Z.of_nat (size m) ∧
  expand_size h = (slot_size h - slot_size h / 4)%Z.

(** *** Probing *)

Lemma probe_range n code j : (0 < n)%Z → (0 ≤ probe n code j < n)%Z.
Proof. apply Z.mod_pos_bound. Qed.

Lemma probe_0 n code : probe n code 0 = (code mod n)%Z.
Proof. rw /probe. f_equal. lia. Qed.

Lemma probe_S n code j : (0 < n < 2 ^ 32)%Z →
  (u32 (probe n code j + 1) mod n)%Z = probe n code (S j).
Proof.
  intros Hn. pose proof (probe_range n code j ltac:(lia)).
  rw u32_small; [lia|]. rw /probe Zplus_mod_idemp_l. f_equal. lia.
Qed.

(** Within [n] probes every slot is visited. *)
Lemma probe_surj n code p : (0 ≤ p < n)%Z →
  ∃ j, j < Z.to_nat n ∧ probe n code j = p.
Proof.
  intros Hp. exists (Z.to_nat ((p - code) mod n)).
  pose proof (Z.mod_pos_bound (p - code) n ltac:(lia)).
  split; [lia|]. rw /probe Z2Nat.id; [lia|].
  rw Zplus_mod_idemp_r. replace (code + (p - code))%Z with p by lia.
  apply Z.mod_small. lia.
Qed.

Lemma wf_slots_u32 h : hm_wf h → (0 < slot_size h < 2 ^ 32)%Z.
Proof. intros []. nia. Qed.

Lemma GET_ITEM_ok h slot : hm_wf h → (0 ≤ slot < slot_size h)%Z →
  GET_ITEM h slot = Ok (Z.to_nat slot).
Proof.
  intros [] Hs. rw /GET_ITEM u32_small; [nia|].
  rw (Z.mul_comm (item_size h)) Z.mod_mul ?Z.div_mul; [lia..|].
  assert ((0 <? item_size h)%Z = true) as -> by lia. simpl.
  rw decide_True //. rw wf_length0. lia.
Qed.

Lemma item_at_ok h i item : hm_items h !! i = Some item → item_at h i = item.
Proof. intros Hi. rw /item_at. by apply nth_lookup_Some. Qed.

Lemma slot_item h p : hm_wf h → (0 ≤ p < slot_size h)%Z →
  ∃ item, hm_items h !! Z.to_nat p = Some item.
Proof. intros [] Hp. apply lookup_lt_is_Some. rw wf_length0. lia. Qed.

Lemma HASH_MAP_INDEX_ok h code : hm_wf h →
  HASH_MAP_INDEX code (slot_size h) = Ok (code mod slot_size h)%Z.
Proof.
  intros [Hs _ _ _ _ _]. rw /HASH_MAP_INDEX.
  assert ((slot_size h =? 0)%Z = false) as -> by lia. done.
Qed.

(** A key is live in at most one slot. *)
Lemma wf_unique h p q x y : hm_wf h →
  hm_items h !! p = Some x → used x → hm_items h !! q = Some y → used y →
  item_key x = item_key y → p = q.
Proof.
  intros Hwf Hp Hx Hq Hy Hk.
  destruct (wf_paths h Hwf p x Hp Hx) as (i & _ & Hi & Pi).
  destruct (wf_paths h Hwf q y Hq Hy) as (j & _ & Hj & Pj).
  destruct (decide (i < j)) as [Hij|?]; [|destruct (decide (j < i)) as [Hji|?]].
  - destruct (Pj i Hij) as (it & Hit & _ & Hne). rw -Hk Hi in Hit. naive_solver.
  - destruct (Pi j Hji) as (it & Hit & _ & Hne). rw Hk Hj in Hit. naive_solver.
  - assert (i = j) as -> by lia. rw -Hi -Hj Hk. done.
Qed.

(** *** [_hash_map_find] *)

Definition find_result h k (r : option nat) : Prop :=
  match r with
  | Some p => ∃ item, hm_items h !! p = Some item ∧ used item ∧ item_key item = k
  | None => ∀ p item, hm_items h !! p = Some item → used item → item_key item ≠ k
  end.

(** A search that has passed [j] slots without success fails when it has passed
    them all, or stops at an empty slot or at a tombstone of the key. *)
Lemma find_stop h k j : hm_wf h → passes h k j →
  (Z.to_nat (slot_size h) ≤ j ∨
   ∃ item, hm_items h !! Z.to_nat (probe (slot_size h) (_hash_function k) j) = Some item ∧
     (flag item = ITEM_EMPTY ∨ item_key item = k ∧ ¬ used item)) →
  find_result h k None.
Proof.
  intros Hwf Hpass Hstop p it Hp Hu Hk.
  destruct (wf_paths h Hwf p it Hp Hu) as (i & Hi & Hpi & Pi).
  rw (wf_length h Hwf) in Hi. rw Hk in Hpi Pi.
  destruct (decide (i < j)) as [Hij|?]; [|destruct Hstop as [?|(item & Hit & Hs)]; [lia|]].
  { destruct (Hpass i Hij) as (it' & Hit & _ & Hne). rw Hpi in Hit. naive_solver. }
  destruct (decide (j < i)) as [Hji|?].
  - destruct (Pi j Hji) as (it' & Hit' & ? & ?). naive_solver.
  - assert (i = j) as -> by lia. rw Hpi in Hit. rw Hit in Hp. injection Hp as ->.
    rw /used in Hu Hs. naive_solver congruence.
Qed.

Lemma passes_S h k j item : passes h k j →
  hm_items h !! Z.to_nat (probe (slot_size h) (_hash_function k) j) = Some item →
  flag item ≠ ITEM_EMPTY → item_key item ≠ k → passes h k (S j).
Proof.
  intros Hpass ??? i Hi. destruct (decide (i = j)) as [->|]; [eauto|apply Hpass; lia].
Qed.

Lemma _hash_map_find_ok h k : hm_wf h →
  wp (_hash_map_find _hash_function _key_cmp_function k) h (λ r h', h' = h ∧ find_result h k r).
Proof.
  intros Hwf. rw /_hash_map_find. wp_step. wp_step. wp_step.
  eapply wp_lift_ok; [by apply HASH_MAP_INDEX_ok|]. cbn beta match.
  eapply (wp_loop (λ w '(slot, cc) h', h' = h ∧ ∃ j, w = Z.to_nat (slot_size h) - j ∧
    j ≤ Z.to_nat (slot_size h) ∧ slot = probe (slot_size h) (_hash_function k) j ∧
    cc = Z.of_nat j ∧ passes h k j) _ _ (Z.to_nat (slot_size h))); [| |lia].
  2: { split; [done|]. exists 0. split; [lia|]. split; [lia|].
    split; [by rw probe_0|]. split; [done|]. intros i ?. lia. }
  intros w [slot cc] ? (-> & j & -> & Hj & -> & -> & Hpass).
  pose proof (wf_slots_u32 h Hwf) as Hn.
  rw /find_probe. wp_step. wp_step.
  case_match eqn:Hcc; [|wp_step; split; [done|]; eapply find_stop; eauto; left; lia].
  pose proof (probe_range (slot_size h) (_hash_function k) j ltac:(lia)) as Hpr.
  destruct (slot_item h _ Hwf Hpr) as [item Hitem].
  wp_step. eapply wp_lift_ok; [by apply GET_ITEM_ok|]. cbn beta match.
  rw (item_at_ok _ _ _ Hitem).
  case_decide as Hfl; [wp_step; split; [done|]; eapply find_stop; eauto|].
  destruct (wf_items h Hwf _ _ Hitem Hfl) as (Hcode & _ & _).
  case_match eqn:Hm.
  - apply andb_prop in Hm as [_ Hk]. apply Z.eqb_eq in Hk. apply key_cmp_eq in Hk.
    case_decide as Hdel; wp_step; (split; [done|]).
    + eapply find_stop; eauto. right. eexists. split; [done|]. right. by rw /used Hdel.
    + exists item. split; [done|]. split; [|done]. rw /used. by destruct (flag item).
  - wp_step. eapply wp_lift_ok; [by apply HASH_MAP_INDEX_ok|]. cbn beta match.
    wp_step. rw probe_S //. exists (Z.to_nat (slot_size h) - S j). split; [lia|].
    split; [done|]. exists (S j). split; [done|]. split; [lia|]. split; [done|].
    split; [rw u32_small; lia|]. eapply passes_S; eauto. intros <-.
    rw Hcode Z.eqb_refl (proj2 (key_cmp_eq _ _) eq_refl) in Hm. done.
Qed.

(** *** The live items as a map *)

Lemma used_count_insert items p old new : items !! p = Some old →
  used_count (<[p := new]> items) + (if decide (used old) then 1 else 0) =
  used_count items + (if decide (used new) then 1 else 0).
Proof.
  rw /used_count. revert p. induction items as [|a items IH]; intros [|p] Hp; simpl in *; [done..| |].
  - injection Hp as ->. rw !filter_cons. repeat case_decide; simpl; lia.
  - specialize (IH p Hp). rw !filter_cons. repeat case_decide; simpl; lia.
Qed.

Lemma used_count_full items : (∀ p item, items !! p = Some item → used item) →
  used_count items = length items.
Proof.
  rw /used_count. induction items as [|a items IH]; intros Hall; [done|].
  rw filter_cons decide_True; [by apply (Hall 0)|]. simpl. f_equal. apply IH.
  intros p. apply (Hall (S p)).
Qed.

Definition items_map (items : list hash_item) : gmap (list Z) (list Z) :=
  list_to_map ((λ item, (item_key item, item_val item)) <$> filter used items).

Definition keys_distinct (items : list hash_item) : Prop :=
  ∀ p q x y, items !! p = Some x → used x → items !! q = Some y → used y →
    item_key x = item_key y → p = q.

Lemma keys_distinct_cons a items : keys_distinct (a :: items) →
  keys_distinct items ∧ (used a → ∀ p x, items !! p = Some x → used x → item_key x ≠ item_key a).
Proof.
  intros Hd. split.
  - intros p q x y ?????. assert (S p = S q); [by eapply (Hd (S p) (S q) x y)|lia].
  - intros ? p x ???. assert (S p = 0); [by eapply (Hd (S p) 0 x a)|done].
Qed.

Lemma items_map_cons a items : items_map (a :: items) =
  if decide (used a) then <[item_key a := item_val a]> (items_map items) else items_map items.
Proof. rw /items_map filter_cons. by case_decide. Qed.

Lemma items_map_lookup items k v : keys_distinct items →
  items_map items !! k = Some v ↔
  ∃ p item, items !! p = Some item ∧ used item ∧ item_key item = k ∧ item_val item = v.
Proof.
  induction items as [|a items IH]; intros Hd.
  { split; [by rw lookup_empty|]. intros (p & ? & Hp & _). by rw lookup_nil in Hp. }
  destruct (keys_distinct_cons _ _ Hd) as [Hd' Hne]. specialize (IH Hd').
  rw items_map_cons. case_decide as Hu.
  - rw lookup_insert_Some IH. split.
    + intros [[<- <-]|(? & p & item & ?)]; [by exists 0, a|by exists (S p), item].
    + intros ([|p] & item & Hp & Hui & <- & <-); simpl in Hp; [by left; simplify_eq|].
      right. split; [intros Heq; by eapply Hne|]. naive_solver.
  - rw IH. split.
    + intros (p & item & ?). by exists (S p), item.
    + intros ([|p] & item & Hp & ?); [naive_solver|]. by exists p, item.
Qed.

Lemma items_map_size items : keys_distinct items → size (items_map items) = used_count items.
Proof.
  rw /used_count. induction items as [|a items IH]; intros Hd; [done|].
  destruct (keys_distinct_cons _ _ Hd) as [Hd' Hne].
  rw items_map_cons filter_cons. case_decide as Hu; [|auto].
  rw map_size_insert_None; [|by rw IH].
  apply eq_None_not_Some. intros [v Hv].
  apply items_map_lookup in Hv as (p & item & ? & ? & ? & ?); [|done]. by eapply Hne.
Qed.

Lemma content_distinct h m : hm_content h m → keys_distinct (hm_items h).
Proof. intros [Hwf _] p q x y ?????. by eapply wf_unique. Qed.

Lemma content_items_map h m : hm_content h m → items_map (hm_items h) = m.
Proof.
  intros Hc. apply map_eq. intros k. apply option_eq. intros v.
  rw items_map_lookup; [by eapply content_distinct|]. destruct Hc as [_ Hm]. by rw Hm.
Qed.

Lemma content_count h m : hm_content h m → used_count (hm_items h) = size m.
Proof.
  intros Hc. rw -(content_items_map h m Hc) items_map_size //. by eapply content_distinct.
Qed.

Lemma find_result_None h m k : hm_content h m → find_result h k None ↔ m !! k = None.
Proof.
  intros [Hwf Hm]. split.
  - intros Hf. apply eq_None_not_Some. intros [v Hv]. apply Hm in Hv as (p & it & ? & ? & ? & ?).
    by eapply Hf.
  - intros Hk p it ?? Hkey. rw (proj2 (Hm k (item_val it))) in Hk; naive_solver.
Qed.

(** *** [_hash_map_insert] *)

(** Where the insertion of an absent key writes. *)
Definition free_slot h k (p : nat) : Prop :=
  ∃ j old, j < length (hm_items h) ∧
    p = Z.to_nat (probe (slot_size h) (_hash_function k) j) ∧ passes h k j ∧
    hm_items h !! p = Some old ∧ ¬ used old.

Definition put_item h (p : nat) (item : hash_item) : hash_map :=
  with_items (<[p := item]> (hm_items h)) h.

Lemma _hash_map_insert_ok h m k v : hm_content h m → m !! k = None →
  (Z.of_nat (size m) < slot_size h)%Z → length k = key_size h → length v = val_size h →
  wp (_hash_map_insert _key_cmp_function k v (_hash_function k)) h (λ r h', r = 0%Z ∧
    ∃ p, free_slot h k p ∧ h' = put_item h p (HashItem (_hash_function k) ITEM_USED k v)).
Proof.
  intros Hc Hk Hsize Hlk Hlv. pose proof Hc as [Hwf _].
  pose proof (proj2 (find_result_None h m k Hc) Hk) as Habs.
  pose proof (wf_slots_u32 h Hwf) as Hn.
  rw /_hash_map_insert. wp_step. wp_step. wp_step.
  eapply wp_lift_ok; [by apply HASH_MAP_INDEX_ok|]. cbn beta match.
  eapply (wp_loop (λ w '(slot, cc) h', h' = h ∧ ∃ j, w = Z.to_nat (slot_size h) - j ∧
    j ≤ Z.to_nat (slot_size h) ∧ slot = probe (slot_size h) (_hash_function k) j ∧
    cc = Z.of_nat j ∧ passes h k j ∧
    ∀ i, i < j → ∃ item, hm_items h !! Z.to_nat (probe (slot_size h) (_hash_function k) i) = Some item
      ∧ used item) _ _ (Z.to_nat (slot_size h))); [| |lia].
  2: { split; [done|]. exists 0. split; [lia|]. split; [lia|].
    split; [by rw probe_0|]. split; [done|]. split; intros i ?; lia. }
  intros w [slot cc] ? (-> & j & -> & Hj & -> & -> & Hpass & Hused).
  rw /insert_body. wp_step. wp_step. case_match eqn:Hcc.
  2: { exfalso. enough (used_count (hm_items h) = length (hm_items h)) as Hfull.
    { rw (content_count h m Hc) (wf_length h Hwf) in Hfull. lia. }
    apply used_count_full.
    intros p item Hp. pose proof (lookup_lt_Some _ _ _ Hp) as Hlt. rw (wf_length h Hwf) in Hlt.
    destruct (probe_surj (slot_size h) (_hash_function k) (Z.of_nat p) ltac:(lia)) as (i & Hi & Hpi).
    destruct (Hused i ltac:(lia)) as (it & Hit & ?). rw Hpi Nat2Z.id in Hit. naive_solver. }
  pose proof (probe_range (slot_size h) (_hash_function k) j ltac:(lia)) as Hpr.
  destruct (slot_item h _ Hwf Hpr) as [item Hitem].
  wp_step. eapply wp_lift_ok; [by apply GET_ITEM_ok|]. cbn beta match.
  rw (item_at_ok _ _ _ Hitem). case_decide as Hfl.
  { wp_go. split; [done|]. eexists. split.
    - exists j, item. rw (wf_length h Hwf). split; [lia|]. done.
    - by rw /put_item -Hlk -Hlv !firstn_all. }
  assert (used item) as Hu by (rw /used; by destruct (flag item)).
  case_match eqn:Hm.
  { exfalso. apply andb_prop in Hm as [_ Heq]. apply Z.eqb_eq in Heq. apply key_cmp_eq in Heq.
    by eapply Habs. }
  wp_step. eapply wp_lift_ok; [by apply HASH_MAP_INDEX_ok|]. cbn beta match.
  wp_step. rw probe_S //. exists (Z.to_nat (slot_size h) - S j). split; [lia|].
  split; [done|]. exists (S j). split; [done|]. split; [lia|]. split; [done|].
  split; [rw u32_small; lia|]. split.
  - eapply (passes_S _ _ _ item); [done|done|by rw Hu|]. intros Heq. by eapply Habs.
  - intros i Hi. destruct (decide (i = j)) as [->|]; [eauto|apply Hused; lia].
Qed.

Lemma probe_inj n code i j : i < Z.to_nat n → j < Z.to_nat n →
  probe n code i = probe n code j → i = j.
Proof.
  intros Hi Hj Heq. rw /probe in Heq.
  pose proof (Z.div_mod (code + Z.of_nat i) n ltac:(lia)).
  pose proof (Z.div_mod (code + Z.of_nat j) n ltac:(lia)).
  set (q1 := ((code + Z.of_nat i) / n)%Z) in *. set (q2 := ((code + Z.of_nat j) / n)%Z) in *.
  assert (q1 < q2 ∨ q1 = q2 ∨ q2 < q1)%Z as [?|[Hq|?]] by lia; [nia|rw Hq in H; lia|nia].
Qed.

Lemma put_item_lookup h p new q item : hm_items (put_item h p new) !! q = Some item ↔
  (q = p ∧ item = new ∧ p < length (hm_items h)) ∨ (q ≠ p ∧ hm_items h !! q = Some item).
Proof. rw /put_item /= list_lookup_insert_Some. naive_solver. Qed.

Lemma passes_put h p new k j : passes h k j → flag new ≠ ITEM_EMPTY →
  (∀ i old, i < j → p = Z.to_nat (probe (slot_size h) (_hash_function k) i) →
     hm_items h !! p = Some old → item_key old ≠ k → item_key new ≠ k) →
  passes (put_item h p new) k j.
Proof.
  intros Hpass Hfl Hkey i Hi. destruct (Hpass i Hi) as (old & Hold & Hf & Hne).
  set (q := Z.to_nat (probe _ _ i)) in Hold.
  destruct (decide (q = p)) as [Heq|Hq].
  - exists new. rw -Heq in Hkey. split; [|split; [done|by eapply Hkey]].
    apply put_item_lookup. left. rw -Heq. by split_and!; [| |eapply lookup_lt_Some].
  - exists old. split; [|done]. apply put_item_lookup. by right.
Qed.

(** Overwriting the free slot of an absent key binds the key. *)
Lemma put_content h m k v p : hm_content h m → m !! k = None → free_slot h k p →
  length k = key_size h → length v = val_size h →
  hm_content (put_item h p (HashItem (_hash_function k) ITEM_USED k v)) (<[k := v]> m).
Proof.
  intros Hc Hk (j & old & Hj & Hp & Hpass & Hold & Hnu) Hlk Hlv.
  pose proof Hc as [Hwf Hm]. set (new := HashItem _ _ _ _).
  assert (Hplen : p < length (hm_items h)) by by eapply lookup_lt_Some.
  pose proof (proj2 (find_result_None h m k Hc) Hk) as Habs. split.
  - destruct Hwf as [W1 W2 W3 W4 W5 W6]. split; try done.
    + by rw /put_item /= length_insert.
    + intros q item [(-> & -> & _)|[_ Hq]]%put_item_lookup Hfl; [done|by apply (W5 q)].
    + intros q item Hq Hu. rw /put_item /= length_insert. fold (put_item h p new).
      apply put_item_lookup in Hq as [(-> & -> & _)|[Hne Hq]].
      * exists j. split; [done|]. split; [done|]. apply passes_put; [done..|].
        intros i old' Hi Hpi. exfalso. rw Hp in Hpi. rw W4 in Hj. simpl in Hpi.
        pose proof (probe_range (slot_size h) (_hash_function k) i W1).
        pose proof (probe_range (slot_size h) (_hash_function k) j W1).
        enough (i = j) by lia. apply (probe_inj (slot_size h) (_hash_function k)); lia.
      * destruct (W6 q item Hq Hu) as (i & Hi & Hpi & Pi). exists i. split; [done|].
        split; [done|]. apply passes_put; [done..|]. intros ? ? _ _ _ _. simpl. by apply not_eq_sym, (Habs q).
  - intros k' v'. rw lookup_insert_Some. split.
    + intros [[<- <-]|[Hne Hv]].
      * exists p, new. split; [|done]. apply put_item_lookup. by left.
      * apply Hm in Hv as (q & item & Hq & Hu & ? & ?). exists q, item. split; [|done].
        apply put_item_lookup. right. split; [|done]. intros ->. naive_solver.
    + intros (q & item & [(-> & -> & _)|[Hne Hq]]%put_item_lookup & Hu & <- & <-); [by left|].
      right. split; [by apply not_eq_sym, (Habs q)|]. apply Hm. by exists q, item.
Qed.

(** *** Expansion *)

Record shape : Type := Shape { sh_key : nat; sh_val : nat; sh_item : Z; sh_cb : bool }.
Definition shape_of h : shape := Shape (key_size h) (val_size h) (item_size h) (hm_on_remove h).

Lemma calloc_content h : (0 < slot_size h)%Z → (16 ≤ item_size h)%Z →
  (item_size h * slot_size h < 2 ^ 32)%Z →
  hm_items h = calloc_items (slot_size h) (key_size h) (val_size h) → hm_content h ∅.
Proof.
  clear key_cmp_eq _key_cmp_function. intros ? ? ? Hit.
  assert (Hz : ∀ p item, hm_items h !! p = Some item → item = zero_item (key_size h) (val_size h)).
  { intros p item. rw Hit /calloc_items lookup_replicate. naive_solver. }
  split; [split; try done|].
  - rw Hit /calloc_items length_replicate //.
  - intros p item ->%Hz. done.
  - intros p item ->%Hz. done.
  - intros k v. rw lookup_empty. split; [done|]. intros (p & item & ->%Hz & Hu & _). done.
Qed.

Lemma reinsert_ok items h m : hm_content h m → keys_distinct items →
  (∀ p item, items !! p = Some item → used item →
     hash_code item = _hash_function (item_key item) ∧
     length (item_key item) = key_size h ∧ length (item_val item) = val_size h ∧
     m !! item_key item = None) →
  (Z.of_nat (size m + used_count items) ≤ slot_size h)%Z →
  wp (reinsert _key_cmp_function items) h (λ _ h', ∃ its, h' = with_items its h ∧
    hm_content h' (items_map items ∪ m)).
Proof.
  revert h m. induction items as [|a items IH]; intros h m Hc Hd Hit Hcount.
  { simpl. wp_step. exists (hm_items h). split; [by destruct h|].
    rw /items_map /= left_id_L //. }
  destruct (keys_distinct_cons _ _ Hd) as [Hd' Hne]. cbn [reinsert].
  rw /used_count filter_cons in Hcount. rw items_map_cons.
  destruct (decide (used a)) as [Hu|Hu].
  2: { wp_step. rw decide_False //. wp_step. cbn beta. apply IH; [done..| |done].
    intros p. apply (Hit (S p)). }
  wp_step. rw decide_True //. wp_step. simpl in Hcount.
  destruct (Hit 0 a eq_refl Hu) as (Hcode & Hlk & Hlv & Hma).
  eapply wp_mono; [rw Hcode; eapply (_hash_map_insert_ok _ m); [done..|lia|done|done]|].
  cbn beta match. intros _ h' [_ (p & Hfree & ->)]. wp_step.
  eapply wp_mono; [eapply (IH _ (<[item_key a := item_val a]> m)); [by apply put_content|done|..]|].
  - intros q item Hq Hui. destruct (Hit (S q) item Hq Hui) as (? & ? & ? & ?).
    split_and!; try done. rw lookup_insert_ne //. intros Heq. by eapply Hne.
  - rw map_size_insert_None //. simpl. rw /used_count. lia.
  - cbn beta. intros _ h' (its & -> & Hc'). exists its. split; [done|].
    rw -insert_union_l insert_union_r; [|done].
    apply eq_None_not_Some. intros [v Hv].
    apply items_map_lookup in Hv as (q & item & Hq & Hui & Heq & _); [|done]. by eapply Hne.
Qed.

Lemma _hash_map_expand_ok h m : hm_rep h m → (2 * item_size h * slot_size h < 2 ^ 32)%Z →
  wp (_hash_map_expand _key_cmp_function true) h (λ r h', r = 0%Z ∧ hm_rep h' m ∧
    slot_size h' = (2 * slot_size h)%Z ∧ shape_of h' = shape_of h).
Proof.
  intros (Hc & Hsize & Hexp) Hfit. pose proof Hc as [Hwf Hm].
  pose proof (wf_item_size h Hwf) as Hi16. pose proof (wf_slots h Hwf) as Hs0.
  assert (Hslots : u32 (slot_size h ≪ 1) = (2 * slot_size h)%Z).
  { rw Z.shiftl_mul_pow2 // u32_small; nia. }
  rw /_hash_map_expand. wp_step. wp_step. rw Hslots. wp_step. wp_step. wp_step.
  set (h1 := HashMap _ _ _ _ _ _ _ _ _).
  eapply wp_mono; [apply (reinsert_ok _ _ ∅)|].
  - apply calloc_content; simpl; [lia..|done].
  - by eapply content_distinct.
  - intros p item Hp Hu. destruct (wf_items h Hwf p item Hp) as (? & ? & ?); [by rw Hu|].
    by rw lookup_empty.
  - rw (content_count h m Hc) map_size_empty /=.
    enough (size m ≤ Z.to_nat (slot_size h)) by lia.
    rw -(content_count h m Hc) -(wf_length h Hwf). apply length_filter.
  - cbn beta. intros _ h' (its & -> & Hc'). rw right_id_L in Hc'.
    rw (content_items_map h m Hc) in Hc'. wp_go. split; [done|]. split; [|done].
    split; [|done]. destruct Hc' as [[] ?]. by split; [split|].
Qed.

(** *** [hash_map_insert] *)

(** The table may double once more without its byte offsets wrapping. *)
Definition may_double h : Prop := (2 * item_size h * slot_size h < 2 ^ 32)%Z.

(** The public insertion of an absent key binds it; it only fails when the
    table is full and the doubled array could not be allocated. *)
Lemma hash_map_insert_ok h m k v alloc : hm_rep h m → m !! k = None →
  length k = key_size h → length v = val_size h →
  (expand_size h ≤ hm_size h → may_double h)%Z →
  wp (hash_map_insert _hash_function _key_cmp_function k v alloc) h (λ r h',
    shape_of h' = shape_of h ∧
    (slot_size h' = slot_size h ∨
     slot_size h' = 2 * slot_size h ∧ expand_size h ≤ hm_size h)%Z ∧
    ((r = 0%Z ∧ hm_rep h' (<[k := v]> m)) ∨
     (r = (-1)%Z ∧ alloc = false ∧ h' = h ∧ Z.of_nat (size m) = slot_size h))).
Proof.
  intros Hrep Hk Hlk Hlv Hfit. pose proof Hrep as (Hc & Hsize & Hexp).
  pose proof Hc as [Hwf _]. pose proof (wf_slots_u32 h Hwf).
  pose proof (wf_item_size h Hwf). pose proof (wf_offsets h Hwf).
  pose proof (Z.div_lt_upper_bound (slot_size h) 4 (slot_size h) ltac:(lia) ltac:(lia)).
  pose proof (Z.div_pos (slot_size h) 4 ltac:(lia) ltac:(lia)).
  assert (Hle : size m ≤ Z.to_nat (slot_size h)).
  { rw -(content_count h m Hc) -(wf_length h Hwf). apply length_filter. }
  assert (Hput : ∀ h', hm_rep h' m → (Z.of_nat (size m) < slot_size h')%Z →
    shape_of h' = shape_of h →
    wp (_hash_map_insert _key_cmp_function k v (_hash_function k)) h' (λ r h'', r = 0%Z ∧
      shape_of (with_size (u32 (hm_size h'' + 1)) h'') = shape_of h ∧
      slot_size h'' = slot_size h' ∧
      hm_rep (with_size (u32 (hm_size h'' + 1)) h'') (<[k := v]> m))).
  { intros h' (Hc' & Hs' & He') Hlt Hsh. injection Hsh as Hks Hvs Hit Hcb.
    eapply wp_mono; [by eapply _hash_map_insert_ok; eauto; congruence|].
    cbn beta. intros r h'' (-> & p & Hfree & ->). split; [done|].
    split; [rw /shape_of /=; congruence|]. split; [done|].
    pose proof (put_content h' m k v p Hc' Hk Hfree ltac:(congruence) ltac:(congruence)) as [Hw Hm].
    pose proof (wf_slots_u32 h' (proj1 Hc')).
    split; [split; [by destruct Hw; split|done]|]. split; [|done].
    rw map_size_insert_None //= Hs' u32_small; lia. }
  rw /hash_map_insert. wp_step. wp_step.
  assert (Hfull : wp (if (slot_size h <? 2147483648) && (expand_size h <=? hm_size h)
      then _hash_map_expand _key_cmp_function alloc;; mret tt else mret tt)%Z h
      (λ _ h', hm_rep h' m ∧ shape_of h' = shape_of h ∧
        (h' = h ∧ (Z.of_nat (size m) = slot_size h → alloc = false) ∨
         slot_size h' = 2 * slot_size h ∧ expand_size h ≤ hm_size h)%Z)).
  { case_match eqn:Hgrow.
    2: { wp_step. split; [done|]. split; [done|]. left. split; [done|]. nia. }
    apply andb_prop in Hgrow as [_ Hgrow%Z.leb_le].
    destruct alloc.
    - wp_step. eapply wp_mono; [apply _hash_map_expand_ok; [done|by apply Hfit]|].
      cbn beta. intros _ h' (_ & ? & ? & ?). wp_step. split; [done|]. split; [done|]. by right.
    - rw /_hash_map_expand. wp_go. split; [done|]. split; [done|]. by left. }
  wp_step. eapply wp_mono; [exact Hfull|]. cbn beta. intros _ h' (Hrep' & Hsh & Hcase).
  wp_step. wp_step. pose proof Hrep' as (_ & Hsize' & _). rw Hsize'.
  destruct (slot_size h' <=? Z.of_nat (size m))%Z eqn:Hovf.
  { wp_step. split; [done|]. destruct Hcase as [[-> Hfail]|[? ?]]; [|lia].
    split; [by left|]. right. split; [done|]. assert (Z.of_nat (size m) = slot_size h) by lia.
    by split; [apply Hfail|]. }
  wp_step. eapply wp_mono; [apply Hput; [done|lia|done]|]. cbn beta.
  intros r h'' (-> & ? & Hsl & ?). rw Z.eqb_refl. wp_step. wp_step. wp_step.
  split; [done|]. split; [|by left]. simpl. rw Hsl. destruct Hcase as [[-> _]|?]; [by left|by right].
Qed.

(** *** Search, removal and iterators *)

Definition hm_at h (p : nat) k v : Prop :=
  ∃ item, hm_items h !! p = Some item ∧ used item ∧ item_key item = k ∧ item_val item = v.

Lemma hash_map_find_ok h m k : hm_rep h m →
  wp (hash_map_find _hash_function _key_cmp_function k) h (λ it h', h' = h ∧
    match m !! k with
    | Some v => ∃ p, it = Some (hm_block h, Z.of_nat p) ∧ hm_at h p k v
    | None => it = None
    end).
Proof.
  intros ([Hwf Hm] & _). rw /hash_map_find. wp_step.
  eapply wp_mono; [by apply _hash_map_find_ok|]. cbn beta. intros [p|] h' [-> Hr].
  - wp_go. destruct Hr as (item & Hp & Hu & Hk). split; [done|].
    assert (m !! k = Some (item_val item)) as -> by (apply Hm; by exists p, item). exists p. split; [done|]. by exists item.
  - wp_go. split; [done|]. by rw (proj1 (find_result_None h m k (conj Hwf Hm)) Hr).
Qed.

Lemma delete_item_ok h m p k v : hm_rep h m → hm_at h p k v →
  wp (delete_item p) h (λ calls h', hm_rep h' (delete k m) ∧ shape_of h' = shape_of h ∧
    slot_size h' = slot_size h ∧ calls = if hm_on_remove h then [(k, v)] else []).
Proof.
  intros (Hc & Hsize & Hexp) (item & Hp & Hu & <- & <-).
  pose proof Hc as [Hwf Hm]. set (k := item_key item).
  assert (Hmk : m !! k = Some (item_val item)) by (apply Hm; by exists p, item).
  rw /delete_item. wp_step. wp_step. rw (item_at_ok _ _ _ Hp). wp_step. wp_step. wp_step.
  set (dead := HashItem _ _ _ _).
  assert (Hsz : u32 (hm_size h - 1) = Z.of_nat (size (delete k m))).
  { pose proof (map_size_delete_Some _ _ (mk_is_Some _ _ Hmk)) as Hd.
    assert (0 < size m) by (destruct (decide (size m = 0)) as [Hz|]; [|lia];
      apply map_size_empty_inv in Hz; rw Hz lookup_empty in Hmk; done).
    pose proof (content_count h m Hc) as Hcnt.
    pose proof (length_filter used (hm_items h)) as Hle. rw -/(used_count _) Hcnt (wf_length h Hwf) in Hle.
    pose proof (wf_slots_u32 h Hwf). rw u32_small; lia. }
  split; [|done]. split; [|done].
  assert (Hput : hm_content (put_item h p dead) (delete k m)).
  { split.
    - pose proof Hwf as [W1 W2 W3 W4 W5 W6]. split; try done.
      + by rw /put_item /= length_insert.
      + intros q it [(-> & -> & _)|[_ Hq]]%put_item_lookup Hfl; [|by apply (W5 q)].
        apply (W5 p item); [done|by rw Hu].
      + intros q it [(_ & -> & _)|[Hne Hq]]%put_item_lookup Hui; [done|].
        destruct (W6 q it Hq Hui) as (i & Hi & Hpi & Pi). exists i.
        rw /put_item /= length_insert. fold (put_item h p dead). split; [done|]. split; [done|].
        apply passes_put; [done..|]. intros ? old _ _ Hold. by simplify_eq.
    - intros k' v'. rw lookup_delete_Some Hm. split.
      + intros (Hne & q & it & Hq & Hui & Hk & ?). exists q, it. split; [|done].
        apply put_item_lookup. right. split; [intros ->; simplify_eq|done].
      + intros (q & it & [(_ & -> & _)|[Hne Hq]]%put_item_lookup & Hui & Hk & ?); [done|].
        split; [|by exists q, it]. intros Heq. apply Hne. apply (wf_unique h q p it item); try done. by rw Hk -Heq. }
  destruct Hput as [Hw Hm']. split; [|done]. destruct Hw. by split.
Qed.

Lemma hash_map_remove_ok h m k : hm_rep h m →
  wp (hash_map_remove _hash_function _key_cmp_function k) h (λ '(r, calls) h',
    hm_rep h' (delete k m) ∧ shape_of h' = shape_of h ∧ slot_size h' = slot_size h ∧
    match m !! k with
    | Some v => r = 0%Z ∧ calls = if hm_on_remove h then [(k, v)] else []
    | None => r = (-1)%Z ∧ calls = []
    end).
Proof.
  intros Hrep. pose proof Hrep as (Hc & _). pose proof Hc as [Hwf Hm].
  rw /hash_map_remove. wp_step.
  eapply wp_mono; [by apply _hash_map_find_ok|]. cbn beta. intros [p|] h' [-> Hr].
  - destruct Hr as (item & Hp & Hu & Hk). wp_step.
    eapply wp_mono; [eapply (delete_item_ok h m p k (item_val item)); [done|by exists item]|].
    cbn beta. intros calls h' (? & ? & ? & ->). wp_step. split_and!; try done.
    by assert (m !! k = Some (item_val item)) as -> by (apply Hm; by exists p, item).
  - wp_step. apply (find_result_None h m k Hc) in Hr. rw Hr delete_id //.
Qed.

Lemma iter_item_ok h p : p < length (hm_items h) →
  wp (iter_item (hm_block h, Z.of_nat p)) h (λ i h', i = p ∧ h' = h).
Proof. intros. rw /iter_item. wp_step. wp_step. rw /= Nat2Z.id decide_True //. Qed.

(** Reading and writing the value of a live item through its iterator. *)
Lemma hash_map_iter_get_val_ok h p k v : hm_at h p k v →
  wp (hash_map_iter_get_val (Some (hm_block h, Z.of_nat p))) h (λ r h', r = v ∧ h' = h).
Proof.
  intros (item & Hp & _ & _ & <-). rw /hash_map_iter_get_val. wp_step.
  eapply wp_mono; [apply iter_item_ok; by eapply lookup_lt_Some|]. cbn beta.
  intros ? ? [-> ->]. wp_go. by rw (item_at_ok _ _ _ Hp).
Qed.

Lemma hash_map_iter_set_val_ok h m p k v w : hm_rep h m → hm_at h p k v → length w = val_size h →
  wp (hash_map_iter_set_val (Some (hm_block h, Z.of_nat p)) w) h (λ _ h',
    hm_rep h' (<[k := w]> m) ∧ shape_of h' = shape_of h ∧ slot_size h' = slot_size h).
Proof.
  intros (Hc & Hsize & Hexp) (item & Hp & Hu & <- & <-) Hw. pose proof Hc as [Hwf Hm].
  rw /hash_map_iter_set_val. wp_step.
  eapply wp_mono; [apply iter_item_ok; by eapply lookup_lt_Some|]. cbn beta.
  intros ? ? [-> ->]. wp_step. wp_step. wp_step. rw (item_at_ok _ _ _ Hp) -Hw firstn_all.
  set (new := HashItem _ _ _ _).
  assert (Hmk : m !! item_key item = Some (item_val item)) by (apply Hm; by exists p, item).
  split; [|done]. split; [|split; [by rw /= map_size_insert_Some|done]].
  change (hm_content (put_item h p new) (<[item_key item := w]> m)). split.
  - pose proof Hwf as [W1 W2 W3 W4 W5 W6]. split; try done.
    + by rw /put_item /= length_insert.
    + intros q it [(-> & -> & _)|[_ Hq]]%put_item_lookup Hfl; [|by apply (W5 q)].
      by destruct (W5 p item Hp Hfl) as (? & ? & _).
    + intros q it Hq Hui. assert (∃ it', hm_items h !! q = Some it' ∧ used it' ∧
        item_key it' = item_key it) as (it' & Hq' & Hu' & Hk').
      { apply put_item_lookup in Hq as [(-> & -> & _)|[_ Hq]]; [by exists item|by exists it]. }
      destruct (W6 q it' Hq' Hu') as (i & Hi & Hpi & Pi). rw Hk' in Hpi Pi. exists i.
      rw /put_item /= length_insert. fold (put_item h p new). split; [done|]. split; [done|].
      apply passes_put; [done|by rw /= Hu|]. intros ? old _ _ Hold. by simplify_eq.
  - intros k' v'. rw lookup_insert_Some Hm. split.
    + intros [[<- <-]|(Hne & q & it & Hq & ? & ? & ?)].
      * exists p, new. split; [apply put_item_lookup; left|done].
        by split_and!; [| |eapply lookup_lt_Some].
      * exists q, it. split; [|done]. apply put_item_lookup. right.
        split; [intros ->; simplify_eq|done].
    + intros (q & it & [(-> & -> & _)|[Hne Hq]]%put_item_lookup & Hui & <- & <-); [by left|].
      right. split; [|by exists q, it]. intros Heq. apply Hne. by eapply wf_unique.
Qed.
End correct.

(** ** Runs of the table against finite maps *)

Module Map.
Section map.
Context (_hash_function : list Z → Z) (_key_cmp_function : list Z → list Z → Z).

Inductive op :=
  | OpInsert (k v : list Z)
  | OpFind (k : list Z)       (* find, then read the value through the iterator *)
  | OpSet (k v : list Z)      (* find, then overwrite the value through the iterator *)
  | OpErase (k : list Z)      (* find, then erase at the iterator *)
  | OpRemove (k : list Z).

Inductive out :=
  | OutCode (r : Z)
  | OutVal (v : option (list Z))
  | OutRemoved (r : Z) (calls : list (list Z * list Z)).

Definition run_op (o : op) : M hash_map out :=
  match o with
  | OpInsert k v => OutCode <$> hash_map_insert _hash_function _key_cmp_function k v true
  | OpFind k =>
      it ← hash_map_find _hash_function _key_cmp_function k;
      if hash_map_is_vaild_iter it then OutVal ∘ Some <$> hash_map_iter_get_val it
      else mret (OutVal None)
  | OpSet k v =>
      it ← hash_map_find _hash_function _key_cmp_function k;
      if hash_map_is_vaild_iter it then hash_map_iter_set_val it v;; mret (OutCode 0)
      else mret (OutCode (-1))
  | OpErase k =>
      it ← hash_map_find _hash_function _key_cmp_function k;
      uncurry OutRemoved <$> hash_map_erase it
  | OpRemove k => uncurry OutRemoved <$> hash_map_remove _hash_function _key_cmp_function k
  end.

Fixpoint run (ops : list op) : M hash_map (list out) :=
  match ops with
  | [] => mret []
  | o :: ops => r ← run_op o; rs ← run ops; mret (r :: rs)
  end.

(** The same calls on a finite map; [cb] says whether removals are reported. *)
Definition spec_op (cb : bool) (o : op) (m : gmap (list Z) (list Z)) :
    out * gmap (list Z) (list Z) :=
  match o with
  | OpInsert k v => (OutCode 0, <[k := v]> m)
  | OpFind k => (OutVal (m !! k), m)
  | OpSet k v => match m !! k with
                 | Some _ => (OutCode 0, <[k := v]> m)
                 | None => (OutCode (-1), m)
                 end
  | OpErase k | OpRemove k =>
      match m !! k with
      | Some v => (OutRemoved 0 (if cb then [(k, v)] else []), delete k m)
      | None => (OutRemoved (-1) [], m)
      end
  end.

Fixpoint spec_run (cb : bool) (ops : list op) (m : gmap (list Z) (list Z)) :
    list out * gmap (list Z) (list Z) :=
  match ops with
  | [] => ([], m)
  | o :: ops =>
      let '(r, m) := spec_op cb o m in
      let '(rs, m) := spec_run cb ops m in (r :: rs, m)
  end.

(** Blocks have the table's sizes, and a key is only inserted when absent. *)
Definition admissible_op (ks vs : nat) (o : op) (m : gmap (list Z) (list Z)) : bool :=
  match o with
  | OpInsert k v =>
      bool_decide (m !! k = None ∧ length k = ks ∧ length v = vs)
  | OpSet k v => bool_decide (length v = vs)
  | _ => true
  end.

Fixpoint admissible (ks vs : nat) (cb : bool) (ops : list op) (m : gmap (list Z) (list Z)) : bool :=
  match ops with
  | [] => true
  | o :: ops => admissible_op ks vs o m && admissible ks vs cb ops (spec_op cb o m).2
  end.

Context (key_cmp_eq : ∀ k1 k2, _key_cmp_function k1 k2 = 0%Z ↔ k1 = k2).

Lemma run_op_ok o h m : hm_rep _hash_function h m →
  admissible_op (key_size h) (val_size h) o m →
  (item_size h * (3 * Z.of_nat (size m)) < 2 ^ 32)%Z →
  wp (run_op o) h (λ r h', r = (spec_op (hm_on_remove h) o m).1 ∧
    hm_rep _hash_function h' (spec_op (hm_on_remove h) o m).2 ∧ shape_of h' = shape_of h ∧
    (slot_size h' ≤ slot_size h `max` (3 * Z.of_nat (size m)))%Z).
Proof.
  intros Hrep Had Hfit. pose proof Hrep as ([Hwf _] & Hsz & Hexp).
  pose proof (wf_slots _ _ Hwf). pose proof (wf_item_size _ _ Hwf).
  assert (Hgrow : (expand_size h ≤ hm_size h → 2 * slot_size h ≤ 3 * Z.of_nat (size m))%Z).
  { pose proof (Z.mul_div_le (slot_size h) 4 ltac:(lia)). lia. }
  destruct o as [k v|k|k v|k|k]; cbn [run_op spec_op fst snd].
  - apply bool_decide_unpack in Had as (Hk & Hlk & Hlv). apply wp_fmap.
    eapply wp_mono; [eapply hash_map_insert_ok; try done|].
    { intros He%Hgrow. rw /may_double. nia. }
    cbn beta. intros r h' (Hsh & Hsl & [[-> Hr]|(_ & ? & _)]); [|done].
    split_and!; try done. destruct Hsl as [->|[-> ?%Hgrow]]; lia.
  - wp_step. eapply wp_mono; [by eapply hash_map_find_ok|]. cbn beta. intros it ? [-> Hit].
    destruct (m !! k) as [v|]; [destruct Hit as (p & -> & Hp)|rw Hit]; simpl.
    + apply wp_fmap. eapply wp_mono; [by eapply hash_map_iter_get_val_ok|]. cbn beta.
      intros ? ? [-> ->]. split_and!; try done. lia.
    + wp_step. split_and!; try done. lia.
  - apply bool_decide_unpack in Had as Hlv.
    wp_step. eapply wp_mono; [by eapply hash_map_find_ok|]. cbn beta. intros it ? [-> Hit].
    destruct (m !! k) as [v'|]; [destruct Hit as (p & -> & Hp)|rw Hit]; simpl.
    + wp_step. eapply wp_mono; [by eapply hash_map_iter_set_val_ok|]. cbn beta.
      intros _ h' (? & ? & Hsl). wp_step. split_and!; try done. lia.
    + wp_step. split_and!; try done. lia.
  - wp_step. eapply wp_mono; [by eapply hash_map_find_ok|]. cbn beta. intros it ? [-> Hit].
    apply wp_fmap. destruct (m !! k) as [v|]; [destruct Hit as (p & -> & Hp)|rw Hit]; simpl.
    + wp_step. eapply wp_mono; [apply iter_item_ok|]; [destruct Hp as (? & ? & _); by eapply lookup_lt_Some|].
      cbn beta. intros ? ? [-> ->]. wp_step. eapply wp_mono; [by eapply delete_item_ok|]. cbn beta.
      intros calls h' (? & ? & ? & ->). wp_step. split_and!; try done. lia.
    + wp_step. split_and!; try done. lia.
  - apply wp_fmap. eapply wp_mono; [by eapply hash_map_remove_ok|]. cbn beta.
    intros [r calls] h' (Hr & Hsh & Hsl & Hout). destruct (m !! k) as [v|] eqn:Hk.
    + destruct Hout as [-> ->]. split_and!; try done. lia.
    + destruct Hout as [-> ->]. rw delete_id // in Hr. split_and!; try done. lia.
Qed.

Lemma spec_op_size cb o m : size (spec_op cb o m).2 ≤ S (size m).
Proof.
  destruct o as [k v|k|k v|k|k]; simpl; try destruct (m !! k) eqn:Hk; simpl; try lia;
    rw ?map_size_insert ?map_size_delete; destruct (m !! k); rw /id; lia.
Qed.

Lemma run_ok ops h m : hm_rep _hash_function h m →
  admissible (key_size h) (val_size h) (hm_on_remove h) ops m →
  (item_size h * (3 * Z.of_nat (size m + length ops)) < 2 ^ 32)%Z →
  wp (run ops) h (λ rs h', rs = (spec_run (hm_on_remove h) ops m).1 ∧
    hm_rep _hash_function h' (spec_run (hm_on_remove h) ops m).2).
Proof.
  revert h m. induction ops as [|o ops IH]; intros h m Hrep Had Hfit; simpl; [by wp_step|].
  simpl in Had. apply andb_prop_elim in Had as [Ho Had].
  pose proof Hrep as ([Hwf _] & _). pose proof (wf_item_size _ _ Hwf).
  wp_step. eapply wp_mono; [apply (run_op_ok o h m Hrep Ho)|]; [cbn [length] in Hfit; nia|].
  cbn beta. intros r h' (-> & Hrep' & Hsh & _). injection Hsh as Hks Hvs Hit Hcb.
  pose proof (spec_op_size (hm_on_remove h) o m) as Hsz.
  destruct (spec_op (hm_on_remove h) o m) as [r m']. cbn [fst snd length] in *.
  wp_step. eapply wp_mono; [apply (IH h' m' Hrep')|].
  - by rw Hks Hvs Hcb.
  - rw Hit. nia.
  - cbn beta. intros rs h'' (-> & Hrep''). rw Hcb in Hrep'' *. wp_step.
    by destruct (spec_run (hm_on_remove h) ops m').
Qed.

Lemma create_rep slots ks vs cb :
  (0 < slots)%Z → (slots * (16 + Z.of_nat ks + Z.of_nat vs) < 2 ^ 32)%Z →
  hm_rep _hash_function (hash_map_create slots ks vs cb) ∅.
Proof.
  intros Hs Hfit. rw /hash_map_create /sizeof_hash_item u32_small; [nia|].
  split; [|done]. apply calloc_content; simpl; [lia..|done].
Qed.

(** C6: a hash map created with at least one slot refines a finite map from key
    blocks to value blocks: for every sequence of insertions of absent keys,
    lookups, updates and erasures through iterators and removals, whatever the
    hash function and however often the table doubles on the way, every call
    returns what the same call on the finite map returns, the removal callback
    is called exactly on the removed bindings, no call faults or diverges, and
    the final table represents the final map. *)
Theorem hash_map_refines_map slots ks vs cb ops :
  (0 < slots)%Z →
  ((16 + Z.of_nat ks + Z.of_nat vs) * (slots `max` (3 * Z.of_nat (length ops))) < 2 ^ 32)%Z →
  admissible ks vs cb ops ∅ →
  ∃ h, run ops (hash_map_create slots ks vs cb) = Ok ((spec_run cb ops ∅).1, h) ∧
    hm_rep _hash_function h (spec_run cb ops ∅).2.
Proof.
  intros Hs Hfit Had.
  pose proof (create_rep slots ks vs cb Hs ltac:(nia)) as Hrep.
  apply (run_ok ops) in Hrep as (rs & h & Hrun & -> & Hrep)%wp_ok; [by exists h|done|].
  rw map_size_empty /= /sizeof_hash_item u32_small; nia.
Qed.
End map.

(** A concrete caller: a byte-sum hash and byte-wise comparison. *)
Definition sum_hash (k : list Z) : Z := foldr Z.add 0%Z k.
Definition block_cmp (k1 k2 : list Z) : Z := (if decide (k1 = k2) then 0 else 1)%Z.

Definition sample : list op :=
  [OpInsert [1] [10]; OpInsert [4] [40]; OpRemove [1]; OpFind [4]; OpInsert [7] [70];
   OpInsert [2] [20]; OpInsert [3] [30]; OpSet [4] [41]; OpErase [2]; OpFind [2]; OpFind [4]]%Z.

Lemma hash_map_refines_map_witness : ∃ h,
  run sum_hash block_cmp sample (hash_map_create 3 1 1 true) = Ok ((spec_run true sample ∅).1, h) ∧
  hm_rep sum_hash h (spec_run true sample ∅).2.
Proof.
  apply (hash_map_refines_map sum_hash block_cmp).
  - intros k1 k2. rw /block_cmp. case_decide; naive_solver.
  - done.
  - vm_compute. done.
  - vm_compute. done.
Defined.

(** Inserting a key that is present but lies behind a tombstone is not refused:
    it takes the tombstone's slot, and removing it once hides the older binding
    for good although the size still counts it. *)
Lemma hash_map_insert_twice :
  let '(r, h) :=
    match run sum_hash block_cmp
      [OpInsert [1] [10]; OpInsert [5] [50]; OpRemove [1]; OpInsert [5] [51]; OpRemove [5];
       OpFind [5]]%Z (hash_map_create 4 1 1 false) with
    | Ok (rs, h) => (rs, hm_size h)
    | Fault _ => ([], 0%Z)
    end in
  r = [OutCode 0; OutCode 0; OutRemoved 0 []; OutCode 0; OutRemoved 0 []; OutVal None]%Z ∧ h = 1%Z.
Proof. by vm_compute. Qed.
End Map.
