(* ===== verification/BurtleHash.v ===== *)
(** * Bob Jenkins's 64-bit hash ([src/src/lookup8.c], [src/include/common_hash_function.h])

    [burtle_hash] is the hash function offered to the hash map.  The model keeps
    every operation at 64 bits.  The macro [mix64] is a sequence of twelve lines
    of one shape; [unmix64] undoes them in the opposite order, which makes the
    comment's claim "mix 3 64-bit values reversibly" a theorem. *)
From S2P Require Import Prelude.

#[local] Open Scope Z_scope.

(** The three state words of the hash. *)
Record abc := Abc { wa : Z; wb : Z; wc : Z }.

(** One line of [mix64]: [x -= y; x -= z; x ^= s] on the word [x]. *)
Definition mix_line (x y z s : Z) : Z := Z.lxor (u64 (u64 (x - y) - z)) s.

(** The lines for [a] shift [c] right, those for [b] shift [a] left, those for
    [c] shift [b] right. *)
Definition mix_a (n : Z) (s : abc) : abc :=
  Abc (mix_line (wa s) (wb s) (wc s) (Z.shiftr (wc s) n)) (wb s) (wc s).
Definition mix_b (n : Z) (s : abc) : abc :=
  Abc (wa s) (mix_line (wb s) (wc s) (wa s) (u64 (Z.shiftl (wa s) n))) (wc s).
Definition mix_c (n : Z) (s : abc) : abc :=
  Abc (wa s) (wb s) (mix_line (wc s) (wa s) (wb s) (Z.shiftr (wb s) n)).

Definition mix64 (s : abc) : abc :=
  let s := mix_a 43 s in let s := mix_b 9 s in let s := mix_c 8 s in
  let s := mix_a 38 s in let s := mix_b 23 s in let s := mix_c 5 s in
  let s := mix_a 35 s in let s := mix_b 49 s in let s := mix_c 11 s in
  let s := mix_a 12 s in let s := mix_b 18 s in mix_c 22 s.

(** [k[i]]: a read of the key. *)
Definition key_at (k : list Z) (i : nat) : result Z :=
  match k !! i with Some b => Ok b | None => Fault OutOfBounds end.

(** [k[i] + (k[i+1] << 8) + ... + (k[i+7] << 56)], modulo [2^64]. *)
Fixpoint word_sum (k : list Z) (i n : nat) (shift : Z) : result Z :=
  match n with
  | O => Ok 0
  | S n =>
      match key_at k i, word_sum k (S i) n (shift + 8) with
      | Ok b, Ok w => Ok (u64 (u64 (Z.shiftl b shift) + w))
      | _, _ => Fault OutOfBounds
      end
  end.

(** The state of the main loop: the words, the read position and [len]. *)
Record hstate := Hstate { hw : abc; hk : nat; hlen : Z }.

(** One round of the main loop: 24 bytes into [a], [b] and [c]. *)
Definition hash_round (k : list Z) (s : hstate) : result hstate :=
  match word_sum k (hk s) 8 0, word_sum k (hk s + 8) 8 0, word_sum k (hk s + 16) 8 0 with
  | Ok x, Ok y, Ok z =>
      Ok (Hstate (mix64 (Abc (u64 (wa (hw s) + x)) (u64 (wb (hw s) + y)) (u64 (wc (hw s) + z))))
            (hk s + 24) (hlen s - 24))
  | _, _, _ => Fault OutOfBounds
  end.

(** [while (len >= 24)] *)
Definition hash_body (k : list Z) (s : hstate) : M () (hstate + hstate) :=
  if 24 <=? hlen s then s' ← lift (hash_round k s); mret (inl s') else mret (inr s).

(** [case i] of the final switch, for the byte [k[i-1]]: the word it is added
    to and its shift; the lowest byte of [c] is reserved for the length. *)
Definition tail_case (i : nat) (b : Z) (s : abc) : abc :=
  if decide (17 <= i)%nat then Abc (wa s) (wb s) (u64 (wc s + Z.shiftl b (8 * Z.of_nat (i - 16))))
  else if decide (9 <= i)%nat then
    Abc (wa s) (u64 (wb s + Z.shiftl b (8 * Z.of_nat (i - 9)))) (wc s)
  else Abc (u64 (wa s + Z.shiftl b (8 * Z.of_nat (i - 1)))) (wb s) (wc s).

(** The switch: every case falls through to the ones below it. *)
Fixpoint tail_switch (k : list Z) (off i : nat) (s : abc) : result abc :=
  match i with
  | O => Ok s
  | S j =>
      match key_at k (off + j) with
      | Ok b => tail_switch k off j (tail_case i b s)
      | Fault e => Fault e
      end
  end.

Definition golden : Z := 0x9e3779b97f4a7c13.

Definition burtle_hash (k : list Z) (length level : Z) : result Z :=
  match loop (S (Z.to_nat (length / 24))) (hash_body k)
          (Hstate (Abc level level golden) 0 length) tt with
  | Ok (s, _) =>
      let w := hw s in
      let w := Abc (wa w) (wb w) (u64 (wc w + length)) in
      match tail_switch k (hk s) (Z.to_nat (hlen s)) w with
      | Ok w => Ok (wc (mix64 w))
      | Fault e => Fault e
      end
  | Fault e => Fault e
  end.

(** ** Words modulo [2^64] *)

Definition word (z : Z) : Prop := 0 <= z < 2 ^ 64.

Lemma u64_word z : word (u64 z).
Proof. apply u64_range. Qed.

Lemma u64_u64 z : u64 (u64 z) = u64 z.
Proof. apply Z.mod_mod. lia. Qed.

Lemma u64_add_l x y : u64 (u64 x + y) = u64 (x + y).
Proof. apply Zplus_mod_idemp_l. Qed.
Lemma u64_add_r x y : u64 (x + u64 y) = u64 (x + y).
Proof. apply Zplus_mod_idemp_r. Qed.
Lemma u64_sub_l x y : u64 (u64 x - y) = u64 (x - y).
Proof. apply Zminus_mod_idemp_l. Qed.

Lemma lxor_word x y : word x -> word y -> word (Z.lxor x y).
Proof.
  rw /word => Hx Hy. split; [by apply Z.lxor_nonneg; lia|].
  destruct (Z.eq_dec (Z.lxor x y) 0) as [->|Hne]; [lia|].
  assert (0 < Z.lxor x y) by (pose proof (proj2 (Z.lxor_nonneg x y)); lia).
  apply Z.log2_lt_pow2; [done|].
  eapply Z.le_lt_trans; [apply Z.log2_lxor; lia|].
  assert (forall z, 0 <= z < 2 ^ 64 -> Z.log2 z < 64) as Hlog.
  { intros z Hz. destruct (Z.eq_dec z 0) as [->|]; [done|]. apply Z.log2_lt_pow2; lia. }
  pose proof (Hlog x Hx). pose proof (Hlog y Hy). lia.
Qed.

Lemma shiftr_word x n : word x -> 0 <= n -> word (Z.shiftr x n).
Proof.
  intros [??] ?. split; [by apply Z.shiftr_nonneg|].
  rw Z.shiftr_div_pow2 //. eapply Z.le_lt_trans; [|done].
  apply Z.div_le_upper_bound; [lia|]. nia.
Qed.

(** ** [mix64] is reversible *)

Definition abc_word (s : abc) : Prop := word (wa s) /\ word (wb s) /\ word (wc s).

Definition unmix_line (x y z s : Z) : Z := u64 (u64 (Z.lxor x s + z) + y).

Lemma mix_line_word x y z s : word s -> word (mix_line x y z s).
Proof. intros. apply lxor_word; [apply u64_word|done]. Qed.

Lemma unmix_mix_line x y z s : word x -> unmix_line (mix_line x y z s) y z s = x.
Proof.
  intros Hx. rw /unmix_line /mix_line Z.lxor_assoc Z.lxor_nilpotent Z.lxor_0_r.
  rw /word in Hx. rw u64_add_l u64_sub_l -Z.add_assoc u64_add_l u64_small; lia.
Qed.

Lemma mix_unmix_line x y z s : word x -> word s -> mix_line (unmix_line x y z s) y z s = x.
Proof.
  intros Hx Hs. rw /unmix_line /mix_line u64_sub_l -Z.sub_add_distr u64_sub_l -Z.add_sub_assoc u64_add_l.
  rw (_ : Z.lxor x s + z + (y - (y + z)) = Z.lxor x s); [lia|].
  rw u64_small; [by apply lxor_word|]. by rw Z.lxor_assoc Z.lxor_nilpotent Z.lxor_0_r.
Qed.

Definition unmix_a (n : Z) (s : abc) : abc :=
  Abc (unmix_line (wa s) (wb s) (wc s) (Z.shiftr (wc s) n)) (wb s) (wc s).
Definition unmix_b (n : Z) (s : abc) : abc :=
  Abc (wa s) (unmix_line (wb s) (wc s) (wa s) (u64 (Z.shiftl (wa s) n))) (wc s).
Definition unmix_c (n : Z) (s : abc) : abc :=
  Abc (wa s) (wb s) (unmix_line (wc s) (wa s) (wb s) (Z.shiftr (wb s) n)).

(** The inverse of [mix64]: the lines undone in the opposite order. *)
Definition unmix64 (s : abc) : abc :=
  let s := unmix_c 22 s in let s := unmix_b 18 s in let s := unmix_a 12 s in
  let s := unmix_c 11 s in let s := unmix_b 49 s in let s := unmix_a 35 s in
  let s := unmix_c 5 s in let s := unmix_b 23 s in let s := unmix_a 38 s in
  let s := unmix_c 8 s in let s := unmix_b 9 s in unmix_a 43 s.

(** [f] and [g] are inverse to each other on words. *)
Definition inverse_on_words (f g : abc -> abc) : Prop :=
  forall s, abc_word s -> abc_word (f s) /\ abc_word (g s) /\ g (f s) = s /\ f (g s) = s.

Lemma inverse_compose f1 g1 f2 g2 : inverse_on_words f1 g1 -> inverse_on_words f2 g2 ->
  inverse_on_words (fun s => f2 (f1 s)) (fun s => g1 (g2 s)).
Proof.
  intros H1 H2 s Hs. destruct (H1 s Hs) as (W1 & W1' & E1 & E1').
  destruct (H2 s Hs) as (W2 & W2' & E2 & E2').
  destruct (H2 _ W1) as (? & _ & E3 & _). destruct (H1 _ W2') as (_ & ? & _ & E4).
  split_and!; [done|done|by rw E3|by rw E4].
Qed.

Lemma mix_a_inverse n : 0 <= n -> inverse_on_words (mix_a n) (unmix_a n).
Proof.
  intros Hn [a b c] (Ha & Hb & Hc). pose proof (shiftr_word c n Hc Hn).
  rw /mix_a /unmix_a /abc_word /= unmix_mix_line ?mix_unmix_line //.
  split_and!; try done; [by apply mix_line_word|apply u64_word].
Qed.
Lemma mix_b_inverse n : inverse_on_words (mix_b n) (unmix_b n).
Proof.
  intros [a b c] (Ha & Hb & Hc). pose proof (u64_word (Z.shiftl a n)).
  rw /mix_b /unmix_b /abc_word /= unmix_mix_line ?mix_unmix_line //.
  split_and!; try done; [by apply mix_line_word|apply u64_word].
Qed.
Lemma mix_c_inverse n : 0 <= n -> inverse_on_words (mix_c n) (unmix_c n).
Proof.
  intros Hn [a b c] (Ha & Hb & Hc). pose proof (shiftr_word b n Hb Hn).
  rw /mix_c /unmix_c /abc_word /= unmix_mix_line ?mix_unmix_line //.
  split_and!; try done; [by apply mix_line_word|apply u64_word].
Qed.

Lemma mix64_inverse : inverse_on_words mix64 unmix64.
Proof.
  pose proof (fun n H => mix_a_inverse n H) as A. pose proof mix_b_inverse as B.
  pose proof (fun n H => mix_c_inverse n H) as C.
  assert (H : forall f g i j k, inverse_on_words f g -> 0 <= i -> 0 <= k ->
    inverse_on_words (fun s => mix_c k (mix_b j (mix_a i (f s))))
      (fun s => g (unmix_a i (unmix_b j (unmix_c k s))))).
  { intros f g i j k Hf Hi Hk.
    pose proof (inverse_compose _ _ _ _ Hf (A i Hi)) as H1.
    pose proof (inverse_compose _ _ _ _ H1 (B j)) as H2.
    exact (inverse_compose _ _ _ _ H2 (C k Hk)). }
  assert (H0 : inverse_on_words (fun s => s) (fun s => s)) by done.
  apply (H _ _ 43 9 8) in H0; [|done..]. apply (H _ _ 38 23 5) in H0; [|done..].
  apply (H _ _ 35 49 11) in H0; [|done..]. by apply (H _ _ 12 18 22) in H0.
Qed.

(** C7: [mix64] is reversible on 64-bit words, as its comment claims: it maps
    triples of words to triples of words, [unmix64] undoes it and it undoes
    [unmix64]; so mixing loses no information. *)
Theorem mix64_reversible s : abc_word s ->
  abc_word (mix64 s) /\ unmix64 (mix64 s) = s /\ mix64 (unmix64 s) = s.
Proof. intros (? & _ & ? & ?)%mix64_inverse. done. Qed.

Lemma mix64_reversible_witness :
  let s := Abc 1 2 golden in
  abc_word (mix64 s) /\ unmix64 (mix64 s) = s /\ mix64 (unmix64 s) = s.
Proof. apply (mix64_reversible (Abc 1 2 golden)). vm_compute; intuition congruence. Defined.

(** ** The hash of a byte string *)

Lemma le_snoc bs b : le (bs ++ [b]) = le bs + 2 ^ (8 * Z.of_nat (length bs)) * b.
Proof.
  induction bs as [|b' bs IH]; [rw /= Z.add_0_l; lia|].
  cbn [app le length]. rw IH Nat2Z.inj_succ.
  rw (_ : 8 * Z.succ (Z.of_nat (length bs)) = 8 + 8 * Z.of_nat (length bs)); [lia|].
  rw Z.pow_add_r; lia.
Qed.

(** [k] absorbed into the state: 8 bytes for [a] and [b], the rest, shifted by
    [sh], for [c]. *)
Definition absorb (sh : Z) (k : list Z) (s : abc) : abc :=
  Abc (u64 (wa s + le (slice 0 8 k))) (u64 (wb s + le (slice 8 8 k)))
      (u64 (wc s + 2 ^ sh * le (slice 16 8 k))).

(** The reference: full 24-byte blocks, then the last block with the length in
    the lowest byte of [c]. *)
Fixpoint hash_spec (blocks : nat) (k : list Z) (len : Z) (s : abc) : abc :=
  match blocks with
  | O => mix64 (absorb 8 k (Abc (wa s) (wb s) (u64 (wc s + len))))
  | S n => hash_spec n (drop 24 k) len (mix64 (absorb 0 (take 24 k) s))
  end.

Lemma slice_S {A} (k : list A) i n x : k !! i = Some x -> slice i (S n) k = x :: slice (S i) n k.
Proof. intros Hi. by rw /slice (drop_S k x i Hi). Qed.

Lemma word_sum_ok k i n shift : (i + n <= length k)%nat -> 0 <= shift ->
  word_sum k i n shift = Ok (u64 (2 ^ shift * le (slice i n k))).
Proof.
  revert i shift. induction n as [|n IH]; intros i shift Hi Hs; cbn [word_sum].
  { by rw slice_0 /= Z.mul_0_r. }
  destruct (lookup_lt_is_Some_2 k i ltac:(lia)) as [b Hb].
  rw /key_at Hb IH; [lia..|]. rw (slice_S k i n b Hb) u64_add_l u64_add_r. cbn [le].
  rw Z.shiftl_mul_pow2 // Z.pow_add_r //. f_equal. f_equal. lia.
Qed.

Lemma slice_slice {A} (k : list A) off n i j :
  (i + j <= n)%nat -> slice i j (take n (drop off k)) = slice (off + i) j k.
Proof.
  intros. rw slice_take //. by rw /slice drop_drop.
Qed.

Lemma hash_round_ok k off s len : (off + 24 <= length k)%nat ->
  hash_round k (Hstate s off len) =
  Ok (Hstate (mix64 (absorb 0 (take 24 (drop off k)) s)) (off + 24) (len - 24)).
Proof.
  intros. rw /hash_round. cbn [hk hw hlen]. rw !word_sum_ok; [lia..|].
  rw !u64_add_r /absorb !slice_slice; [lia..|].
  change (2 ^ 0) with 1. by rw !Z.mul_1_l Nat.add_0_r.
Qed.

Lemma slice_snoc {A} (k : list A) off n x :
  k !! (off + n)%nat = Some x -> slice off (S n) k = slice off n k ++ [x].
Proof.
  intros Hx. rw -(Nat.add_1_r n) slice_app. f_equal. by rw (slice_S k _ 0 x Hx).
Qed.

(** The bytes below the switch's entry point, absorbed. *)
Lemma tail_switch_ok k off n s : abc_word s -> (n <= 23)%nat -> (off + n <= length k)%nat ->
  tail_switch k off n s = Ok (absorb 8 (slice off n k) s).
Proof.
  revert s. induction n as [|n IH]; intros s Hs Hn Hoff; cbn [tail_switch].
  { rw slice_0 /absorb /slice /=. destruct s as [a b c], Hs as (?&?&?). simpl in *.
    rw /word in H H0 H1. rw !Z.add_0_r !u64_small; [lia..|]. done. }
  destruct (lookup_lt_is_Some_2 k (off + n) ltac:(lia)) as [b Hb].
  rw /key_at Hb (slice_snoc _ _ _ _ Hb).
  assert (Hlen : length (slice off n k) = n) by (apply length_slice; lia).
  set (bs := slice off n k) in *. rw IH; [|lia..|].
  - rw /tail_case. destruct Hs as (?&?&?).
    repeat case_decide; split_and!; simpl; try done; apply u64_word.
  - f_equal. rw /tail_case /absorb.
    assert (Hsl : forall i j, (n < i)%nat -> slice i j (bs ++ [b]) = slice i j bs).
    { intros i j ?. rw /slice !drop_ge // ?length_app /= ?Hlen; lia. }
    assert (Hlt : forall i j, (i + j <= n)%nat -> slice i j (bs ++ [b]) = slice i j bs).
    { intros i j ?. rw /slice drop_app_le; [lia|]. rw take_app_le // length_drop. lia. }
    assert (Hin : forall i j, (i <= n < i + j)%nat ->
      slice i j (bs ++ [b]) = slice i j bs ++ [b]).
    { intros i j ?. rw /slice drop_app_le; [lia|].
      rw !take_ge // ?length_app ?length_drop /=; lia. }
    assert (Hlin : forall i j, (i <= n < i + j)%nat -> length (slice i j bs) = (n - i)%nat).
    { intros i j ?. rw /slice take_ge length_drop; lia. }
    case_decide; [|case_decide]; simpl.
    + rw (Hlt 0%nat 8%nat) ?(Hlt 8%nat 8%nat) ?(Hin 16%nat 8%nat); [lia..|].
      rw le_snoc Hlin; [lia|]. f_equal. rw u64_add_l Z.shiftl_mul_pow2; [lia|].
      f_equal.
      rw (_ : 8 * Z.of_nat (S n - 16) = 8 + 8 * Z.of_nat (n - 16)); [lia|].
      rw Z.pow_add_r; lia.
    + rw (Hlt 0%nat 8%nat) ?(Hin 8%nat 8%nat) ?(Hsl 16%nat 8%nat); [lia..|].
      rw le_snoc Hlin; [lia|]. f_equal. rw u64_add_l Z.shiftl_mul_pow2; [lia|].
      f_equal. rw ?Nat.sub_0_r. lia.
    + rw (Hin 0%nat 8%nat) ?(Hsl 8%nat 8%nat) ?(Hsl 16%nat 8%nat); [lia..|].
      rw le_snoc Hlin; [lia|]. f_equal. rw u64_add_l Z.shiftl_mul_pow2; [lia|].
      f_equal. rw ?Nat.sub_0_r. lia.
Qed.

Lemma mix_absorb_word sh k s : abc_word (mix64 (absorb sh k s)).
Proof. apply mix64_inverse. split_and!; apply u64_word. Qed.

(** The main loop consumes the full blocks, [n] of them from offset [off]. *)
Lemma hash_loop_ok k n off s len fuel r : (off + 24 * n + r <= length k)%nat -> (r < 24)%nat ->
  len = Z.of_nat (24 * n + r) -> abc_word s -> (n < fuel)%nat ->
  exists s', loop fuel (hash_body k) (Hstate s off len) tt =
      Ok (Hstate s' (off + 24 * n) (Z.of_nat r), tt) /\ abc_word s' /\
    forall l, hash_spec n (slice off (24 * n + r) k) l s =
      hash_spec 0 (slice (off + 24 * n) r k) l s'.
Proof.
  revert off s len fuel. induction n as [|n IH]; intros off s len [|fuel] Hk Hr -> Hs Hf; try lia.
  - exists s. cbn [loop]. rw /hash_body /mbind /M_bind /=.
    assert ((24 <=? Z.of_nat r) = false) as -> by lia.
    by rw /= Nat.add_0_r.
  - cbn [loop]. rw /hash_body /mbind /M_bind. cbn [hlen].
    assert ((24 <=? Z.of_nat (24 * S n + r)) = true) as -> by (apply Z.leb_le; lia).
    rw hash_round_ok; [lia|]. rw /lift. cbv beta iota delta [mret M_ret].
    edestruct (IH (off + 24)%nat (mix64 (absorb 0 (take 24 (drop off k)) s))
      (Z.of_nat (24 * S n + r) - 24) fuel) as (s' & Hloop & Hs' & Hspec);
      [lia..|apply mix_absorb_word|lia|].
    exists s'. rw Hloop. split; [|split; [done|]].
    + by rw (_ : (off + 24 + 24 * n = off + 24 * S n)%nat); [lia|].
    + intros l. rw (_ : (off + 24 * S n = off + 24 + 24 * n)%nat); [lia|].
      rw -Hspec. cbn [hash_spec]. f_equal.
      * rw /slice skipn_firstn_comm drop_drop. f_equal. lia.
      * rw /slice take_take. do 3 f_equal. lia.
Qed.

(** C8: on a key of at least [length] bytes [burtle_hash] returns a 64-bit value
    without reading past the key's first [length] bytes, and the value is that
    of the reference definition: the full 24-byte blocks, read as little-endian
    words, are absorbed and mixed in order, then the last bytes together with
    the length. *)
Theorem burtle_hash_spec k len level : (len <= length k)%nat -> word level ->
  exists h, burtle_hash k (Z.of_nat len) level = Ok h /\ word h /\
    h = wc (hash_spec (len / 24) (take len k) (Z.of_nat len) (Abc level level golden)).
Proof.
  intros Hlen Hlevel. pose proof (Nat.div_mod_eq len 24) as Hdm.
  pose proof (Nat.mod_upper_bound len 24 ltac:(lia)) as Hr.
  set (n := (len / 24)%nat) in *. set (r := (len mod 24)%nat) in *.
  rw /burtle_hash (_ : Z.of_nat len / 24 = Z.of_nat n); [by rw (Nat2Z.inj_div _ 24)|].
  rw Nat2Z.id.
  destruct (hash_loop_ok k n 0 (Abc level level golden) (Z.of_nat len) (S n) r)
    as (s & Hloop & Hs & Hspec); [lia..|done|lia|].
  rw Hloop. cbn [hw hk hlen]. rw Nat2Z.id.
  rw tail_switch_ok; [|lia..|].
  { destruct Hs as (?&?&?). split_and!; try done. apply u64_word. }
  eexists. split; [done|]. specialize (Hspec (Z.of_nat len)).
  rw (_ : slice 0 (24 * n + r) k = take len k) in Hspec; [by rw Hdm|].
  rw Hspec. split; [|done]. by destruct (mix_absorb_word 8 (slice (0 + 24 * n) r k)
    (Abc (wa s) (wb s) (u64 (wc s + Z.of_nat len)))) as (_ & _ & ?).
Qed.

Lemma burtle_hash_spec_witness : exists h,
  burtle_hash (replicate 30 7) 29 5 = Ok h /\ word h /\
  h = wc (hash_spec 1 (replicate 29 7) 29 (Abc 5 5 golden)).
Proof. apply (burtle_hash_spec (replicate 30 7) 29 5); [simpl; lia|by vm_compute]. Defined.
