(* ===== verification/Buffer.v ===== *)
(** * Reference-counted buffers ([src/src/buffer.c], [src/src/refbase.c])

    A [struct buffer] is a block of bytes with a reference count and a [next]
    link, so that buffers form chains; a packet or a receive window holds a
    reference to a buffer of a chain and every buffer holds one to its
    successor.  The buffers of a process are the store [bufs]. *)
From S2P Require Import Prelude.

(** ** [refbase] *)

Record refbase := Refbase { refcount : Z; mt : bool }.

(** [ATOMIC_INCREASE] and [++] have the same effect between steps of one
    thread: the count is a 32-bit signed integer in both cases. *)
Definition ref_increase (r : refbase) : refbase := Refbase (i32 (refcount r + 1)) (mt r).

(** The decremented count, and whether the destroyer is called. *)
Definition ref_decrease (r : refbase) : refbase * bool :=
  let c := i32 (refcount r - 1) in (Refbase c (mt r), (c <=? 0)%Z).

(** ** [struct buffer] *)

Record buffer := Buffer {
  _refbase : refbase;
  capacity : Z;
  b_size : Z;
  b_next : ptr;
  buf : list Z;
}.

Abbreviation bufs := (gmap loc buffer).

Definition with_ref (r : refbase) (b : buffer) : buffer :=
  Buffer r (capacity b) (b_size b) (b_next b) (buf b).
Definition with_next (p : ptr) (b : buffer) : buffer :=
  Buffer (_refbase b) (capacity b) (b_size b) p (buf b).
Definition with_bsize (n : Z) (b : buffer) : buffer :=
  Buffer (_refbase b) (capacity b) n (b_next b) (buf b).
Definition with_bytes (bs : list Z) (b : buffer) : buffer :=
  Buffer (_refbase b) (capacity b) (b_size b) (b_next b) bs.

(** [sizeof(struct buffer)], before the flexible array member. *)
Definition sizeof_buffer : Z := 32.

(** [calloc(1,size)] with a 32-bit [size]: the array has what is left of it. *)
Definition buffer_create (m : bool) (cap : Z) : M bufs loc :=
  let size := u32 (sizeof_buffer + cap) in
  if (size <? sizeof_buffer)%Z then fail OutOfBounds
  else halloc (Buffer (Refbase 0 m) cap 0 NULL (replicate (Z.to_nat (size - sizeof_buffer)) 0%Z)).

(** [buffer_release] and [buffer_destroy] call each other through the
    destroyer; the recursion follows [next], so the number of allocated buffers
    bounds it. *)
Fixpoint release (fuel : nat) (p : ptr) : M bufs () :=
  match p, fuel with
  | None, _ => mret tt
  | Some _, O => fail NoFuel
  | Some _, S fuel =>
      b ← hload p;
      let '(r, destroy) := ref_decrease (_refbase b) in
      hstore p (with_ref r b);;
      if destroy then
        (* buffer_destroy *)
        release fuel (b_next b);;
        hfree p
      else mret tt
  end.

Definition buffer_release (p : ptr) : M bufs () :=
  n ← gets size; release (S n) p.

Definition buffer_acquire (b1 b2 : ptr) : M bufs ptr :=
  if decide (b1 = b2) then mret b1
  else
    (match b2 with
     | Some _ => hmodify b2 (λ b, with_ref (ref_increase (_refbase b)) b)
     | None => mret tt
     end);;
    (match b1 with Some _ => buffer_release b1 | None => mret tt end);;
    mret b2.

Definition buffer_create_and_acquire (m : bool) (b : ptr) (cap : Z) : M bufs ptr :=
  nb ← buffer_create m cap; buffer_acquire b (Some nb).

(** [memcpy] out of and into a buffer's bytes. *)
Definition buf_read (p : ptr) (pos n : Z) : M bufs (list Z) :=
  b ← hload p;
  if (pos + n <=? Z.of_nat (length (buf b)))%Z
  then mret (slice (Z.to_nat pos) (Z.to_nat n) (buf b))
  else fail OutOfBounds.

Definition buf_write (p : ptr) (pos : Z) (bs : list Z) : M bufs () :=
  b ← hload p;
  if (pos + Z.of_nat (length bs) <=? Z.of_nat (length (buf b)))%Z
  then hstore p (with_bytes (splice (Z.to_nat pos) bs (buf b)) b)
  else fail OutOfBounds.

(** [buffer_read]: the locals of the loop are the buffer, the position, the
    bytes still wanted and what has been copied out. *)
Definition buffer_read_body (x : ptr * Z * Z * list Z) :
    M bufs ((ptr * Z * Z * list Z) + Z * list Z) :=
  let '(p, pos, sz, out) := x in
  if (sz =? 0)%Z then mret (inr (0%Z, out))
  else
    match p with
    | None => mret (inr ((-1)%Z, out))
    | Some _ =>
        b ← hload p;
        let copy_size := Z.min (u32 (b_size b - pos)) sz in
        bs ← buf_read p pos copy_size;
        let sz := (sz - copy_size)%Z in
        let pos := u32 (pos + copy_size) in
        let out := out ++ bs in
        if (b_size b <=? pos)%Z then mret (inl (b_next b, 0%Z, sz, out))
        else mret (inl (p, pos, sz, out))
    end.

Definition buffer_read (fuel : nat) (p : ptr) (pos sz : Z) : M bufs (Z * list Z) :=
  loop fuel buffer_read_body (p, pos, sz, []).

(** ** Chains *)

Definition buf_wf (b : buffer) : Prop :=
  (0 ≤ b_size b ≤ capacity b)%Z ∧ (capacity b + 32 < 2 ^ 32)%Z ∧
  length (buf b) = Z.to_nat (capacity b).

(** The valid bytes of a buffer. *)
Definition bdata (b : buffer) : list Z := take (Z.to_nat (b_size b)) (buf b).

Definition rc (b : buffer) : Z := refcount (_refbase b).

(** The buffers [ls] are linked from [p] up to [q]. *)
Fixpoint chain (h : bufs) (p : ptr) (ls : list loc) (q : ptr) : Prop :=
  match ls with
  | [] => p = q
  | l :: ls => p = Some l ∧ ∃ b, h !! l = Some b ∧ chain h (b_next b) ls q
  end.

(** The bytes held by the buffers [ls], in order. *)
Definition content (h : bufs) (ls : list loc) : list Z :=
  concat ((λ l, from_option bdata [] (h !! l)) <$> ls).

Lemma length_bdata b : buf_wf b → length (bdata b) = Z.to_nat (b_size b).
Proof. intros (? & _ & ?). rw /bdata length_take. lia. Qed.

Lemma content_cons h l ls b : h !! l = Some b → content h (l :: ls) = bdata b ++ content h ls.
Proof. intros Hl. by rw /content /= Hl. Qed.

Lemma content_nil h : content h [] = [].
Proof. done. Qed.

Lemma content_app h ls1 ls2 : content h (ls1 ++ ls2) = content h ls1 ++ content h ls2.
Proof. by rw /content fmap_app concat_app. Qed.

Lemma chain_app h p ls1 ls2 q :
  chain h p (ls1 ++ ls2) q ↔ ∃ r, chain h p ls1 r ∧ chain h r ls2 q.
Proof.
  revert p. induction ls1 as [|l ls1 IH]; intros p; simpl.
  - split; [by exists p|by intros (? & -> & ?)].
  - split.
    + intros (-> & b & Hb & (r & ? & ?)%IH). exists r. eauto.
    + intros (r & (-> & b & Hb & ?) & ?). split; [done|]. exists b. rw IH. eauto.
Qed.

(** A chain depends only on the links of its buffers, and its content only on
    their bytes. *)
Lemma chain_ext h h' p ls q :
  (∀ l, l ∈ ls → b_next <$> h' !! l = b_next <$> h !! l) → chain h p ls q → chain h' p ls q.
Proof.
  revert p. induction ls as [|l ls IH]; intros p Hext; [done|].
  intros (-> & b & Hb & Hc). split; [done|].
  pose proof (Hext l ltac:(left)) as Hl. rw Hb in Hl.
  destruct (h' !! l) as [b'|]; [|done]. injection Hl as Hn. exists b'. split; [done|].
  rw Hn. apply IH; [|done]. intros l' ?. apply Hext. by right.
Qed.

Lemma content_ext h h' ls : (∀ l, l ∈ ls → bdata <$> h' !! l = bdata <$> h !! l) →
  content h' ls = content h ls.
Proof.
  intros Hext. rw /content. f_equal. apply list_fmap_ext. intros i l Hl.
  pose proof (Hext l ltac:(by eapply list_elem_of_lookup_2)) as H.
  destruct (h' !! l), (h !! l); simpl in *; congruence.
Qed.

Lemma chain_lookup h p ls q l : chain h p ls q → l ∈ ls → is_Some (h !! l).
Proof.
  revert p. induction ls as [|l' ls IH]; intros p; [by intros ? ?%not_elem_of_nil|].
  intros (_ & b & Hb & Hc) [->|?]%elem_of_cons; eauto.
Qed.

(** The buffers of a chain are determined by its start. *)
Lemma chain_det h p ls1 ls2 : chain h p ls1 NULL → chain h p ls2 NULL → ls1 = ls2.
Proof.
  revert p ls2. induction ls1 as [|a ls1 IH]; intros p [|a2 ls2] C1 C2; simpl in *; try done.
  - subst. by destruct C2.
  - subst. by destruct C1.
  - destruct C1 as (-> & b1 & ? & ?), C2 as (? & b2 & ? & ?). simplify_eq. f_equal. by eapply IH.
Qed.

(** ** References *)

Lemma ref_decrease_keep r : (2 ≤ refcount r < 2 ^ 31)%Z →
  ref_decrease r = (Refbase (refcount r - 1) (mt r), false).
Proof. intros ?. rw /ref_decrease i32_small; [lia|]. f_equal. lia. Qed.

Lemma ref_decrease_last r : refcount r = 1%Z → ref_decrease r = (Refbase 0 (mt r), true).
Proof. intros Hr. by rw /ref_decrease Hr. Qed.

(** Moving the reference count of the buffer at [p] by [d]. *)
Definition ref_add (d : Z) (b : buffer) : buffer :=
  with_ref (Refbase (rc b + d) (mt (_refbase b))) b.

Lemma rc_ref_add d b : rc (ref_add d b) = (rc b + d)%Z.
Proof. done. Qed.

Definition add_ref (d : Z) (p : ptr) (h : bufs) : bufs :=
  match p with
  | Some l => alter (ref_add d) l h
  | None => h
  end.

(** [p] is NULL or a buffer that others refer to as well. *)
Definition shared (h : bufs) (p : ptr) : Prop :=
  match p with
  | Some l => ∃ b, h !! l = Some b ∧ (2 ≤ rc b < 2 ^ 31)%Z
  | None => True
  end.

Lemma release_shared fuel p h Q : shared h p → 0 < fuel →
  Q tt (add_ref (-1) p h) → wp (release fuel p) h Q.
Proof.
  destruct p as [l|]; [|by destruct fuel].
  intros (b & Hb & Hrc) Hf HQ. destruct fuel as [|fuel]; [lia|]. cbn [release].
  wp_step. wp_step. rw ref_decrease_keep //. wp_step. wp_step. wp_step.
  rw /add_ref (alter_is_insert _ _ _ _ Hb) in HQ. done.
Qed.

(** Releasing a reference to a chain whose first buffers have no other
    reference, followed by NULL or a shared buffer: exactly these buffers are
    freed, and the buffer that follows loses one reference. *)
Lemma release_chain fuel p ls q h (Q : () → bufs → Prop) :
  chain h p ls q → NoDup ls → (∀ l, l ∈ ls → rc <$> h !! l = Some 1%Z) →
  shared h q → (∀ l, q = Some l → l ∉ ls) → length ls < fuel →
  Q tt (foldr delete (add_ref (-1) q h) ls) → wp (release fuel p) h Q.
Proof.
  revert p h fuel Q. induction ls as [|l ls IH]; intros p h fuel Q Hc Hnd Hrc Hq Hql Hf HQ.
  { simpl in Hc. subst p. by apply release_shared. }
  destruct fuel as [|fuel]; [simpl in Hf; lia|]. destruct Hc as (-> & b & Hb & Hc).
  apply NoDup_cons in Hnd as [Hl Hnd].
  pose proof (Hrc l ltac:(left)) as Hrl. rw Hb in Hrl. injection Hrl as Hrl.
  cbn [release]. wp_step. wp_step. rw (ref_decrease_last _ Hrl). wp_step. wp_step.
  set (h' := <[l := _]> h).
  assert (Hne : ∀ l', l' ∈ ls → h' !! l' = h !! l').
  { intros l' Hl'. rw /h' lookup_insert_ne //. by intros <-. }
  assert (Hq' : ∀ l', q = Some l' → h' !! l' = h !! l').
  { intros l' Heq. rw /h' lookup_insert_ne //. intros <-. by eapply (Hql l); [|left]. }
  wp_step. apply IH.
  - eapply chain_ext; [|done]. intros l' Hl'. by rw Hne.
  - done.
  - intros l' Hl'. rw Hne //. apply Hrc. by right.
  - rw /shared in Hq *. destruct q as [l'|]; [|done]. by rw Hq'.
  - intros l' Heq Hl'. eapply Hql; [done|by right].
  - simpl in Hf. lia.
  - assert (Hlq : ∀ h'', add_ref (-1) q h'' !! l = h'' !! l).
    { intros h''. destruct q as [l'|]; simpl; [|done]. apply lookup_alter_ne.
      intros ->. by eapply (Hql l); [|left]. }
    cbv beta. eapply wp_hfree.
    + rw lookup_foldr_delete_not_elem_of // Hlq. apply lookup_insert_eq.
    + simpl in HQ. rw !delete_foldr_delete in HQ *.
      enough (delete l (add_ref (-1) q h') = delete l (add_ref (-1) q h)) as -> by done.
      apply map_eq. intros i. rw !lookup_delete. case_decide as Hi; [done|].
      destruct q as [l'|]; simpl; [|by rw /h' lookup_insert_ne].
      rw !lookup_alter. case_decide; [by rw Hq'|by rw /h' lookup_insert_ne].
Qed.

(** C9: releasing the last reference to a chain of buffers that nobody else
    refers to frees every buffer of it up to the first one that is still
    shared; that buffer only loses one reference, and no other buffer is
    touched.  The recursion ends, and nothing is freed twice. *)
Theorem buffer_release_frees_chain h p ls q :
  chain h p ls q → NoDup ls → (∀ l, l ∈ ls → rc <$> h !! l = Some 1%Z) →
  shared h q → (∀ l, q = Some l → l ∉ ls) →
  buffer_release p h = Ok (tt, foldr delete (add_ref (-1) q h) ls).
Proof.
  intros Hc Hnd Hrc Hq Hql.
  assert (Hlen : length ls ≤ size h).
  { rw -(size_dom h) -(size_list_to_set (C := gset loc) ls Hnd). apply subseteq_size.
    intros l Hl%elem_of_list_to_set. apply elem_of_dom. by eapply chain_lookup. }
  assert (wp (buffer_release p) h
    (λ _ h', h' = foldr delete (add_ref (-1) q h) ls)) as (? & ? & -> & ->)%wp_ok.
  { rw /buffer_release. wp_step. wp_step. eapply release_chain; try done. lia. }
  by destruct x.
Qed.

(** Two unshared buffers in front of a shared one. *)
Definition two_and_shared : bufs :=
  list_to_map [(1%positive, Buffer (Refbase 1 false) 2 2 (Some 2%positive) [1; 2]%Z);
               (2%positive, Buffer (Refbase 1 false) 2 1 (Some 3%positive) [3; 0]%Z);
               (3%positive, Buffer (Refbase 2 false) 2 2 NULL [4; 5]%Z)].

Lemma buffer_release_frees_chain_witness :
  buffer_release (Some 1%positive) two_and_shared =
  Ok (tt, {[ 3%positive := Buffer (Refbase 1 false) 2 2 NULL [4; 5]%Z ]}).
Proof.
  apply (buffer_release_frees_chain two_and_shared (Some 1%positive) [1; 2]%positive (Some 3%positive)).
  - simpl. split; [done|]. eexists. split; [by vm_compute|]. split; [done|].
    eexists. split; [by vm_compute|done].
  - apply (bool_decide_unpack _). by vm_compute.
  - intros l Hl. repeat (apply elem_of_cons in Hl as [->|Hl]; [by vm_compute|]).
    by apply not_elem_of_nil in Hl.
  - simpl. eexists. split; [by vm_compute|]. by vm_compute.
  - intros l Heq. injection Heq as <-. apply (bool_decide_unpack _). by vm_compute.
Defined.

(** ** Reading along a chain *)

Lemma wp_buf_read l b pos n h (Q : list Z → bufs → Prop) : h !! l = Some b →
  (0 ≤ pos ∧ 0 ≤ n ∧ pos + n ≤ Z.of_nat (length (buf b)))%Z →
  Q (slice (Z.to_nat pos) (Z.to_nat n) (buf b)) h → wp (buf_read (Some l) pos n) h Q.
Proof.
  intros Hl Hb HQ. rw /buf_read. wp_step. wp_step.
  assert ((pos + n <=? Z.of_nat (length (buf b)))%Z = true) as -> by (apply Z.leb_le; lia).
  by wp_step.
Qed.

Lemma wp_buf_write l b pos bs h (Q : () → bufs → Prop) : h !! l = Some b →
  (0 ≤ pos ∧ pos + Z.of_nat (length bs) ≤ Z.of_nat (length (buf b)))%Z →
  Q tt (<[l := with_bytes (splice (Z.to_nat pos) bs (buf b)) b]> h) →
  wp (buf_write (Some l) pos bs) h Q.
Proof.
  intros Hl Hb HQ. rw /buf_write. wp_step. wp_step.
  assert ((pos + Z.of_nat (length bs) <=? Z.of_nat (length (buf b)))%Z = true) as ->
    by (apply Z.leb_le; lia).
  by wp_step.
Qed.

Definition chain_wf (h : bufs) (ls : list loc) : Prop :=
  ∀ l, l ∈ ls → ∃ b, h !! l = Some b ∧ buf_wf b.

Lemma slice_bdata b pos n : (pos + n ≤ Z.to_nat (b_size b)) →
  slice pos n (buf b) = take n (drop pos (bdata b)).
Proof. intros. rw /bdata -(slice_take pos n (Z.to_nat (b_size b))) //. Qed.

Lemma buffer_read_loop fuel h p ls pos n out :
  chain h p ls NULL → chain_wf h ls →
  (0 ≤ n < 2 ^ 32)%Z → (0 ≤ pos)%Z → length ls < fuel →
  (∀ l, p = Some l → ∃ b, h !! l = Some b ∧ (pos ≤ b_size b)%Z) → (p = NULL → pos = 0%Z) →
  let d := drop (Z.to_nat pos) (content h ls) in
  loop fuel buffer_read_body (p, pos, n, out) h =
  Ok (if decide (Z.to_nat n ≤ length d) then (0%Z, out ++ take (Z.to_nat n) d)
      else ((-1)%Z, out ++ d), h).
Proof.
  revert p ls pos n out. induction fuel as [|fuel IH]; intros p ls pos n out Hc Hwf Hn Hp Hf Hpos Hnul;
    [lia|]. cbn zeta.
  destruct ls as [|l ls].
  { simpl in Hc. subst p. rw (Hnul eq_refl). cbn [loop]. rw /buffer_read_body content_nil drop_nil /=.
    destruct (Z.eqb_spec n 0) as [->|Hne].
    - by rw /= app_nil_r.
    - rw decide_False; [lia|]. by rw app_nil_r. }
  destruct Hc as (-> & b & Hb & Hc). destruct (Hwf l ltac:(left)) as (b' & Hb' & Hbw).
  simplify_eq. pose proof Hbw as (Hs & Hcap & Hlen).
  destruct (Hpos l eq_refl) as (b' & Hb' & Hps). simplify_eq.
  rw (content_cons _ _ _ _ Hb). pose proof (length_bdata b Hbw) as Hld.
  set (d := bdata b) in *. set (rest := content h ls).
  rw drop_app_le; [lia|]. cbn [loop].
  destruct (Z.eqb_spec n 0) as [Hz|Hne].
  { rw /buffer_read_body Hz Z.eqb_refl. cbn [mbind M_bind mret M_ret].
    by rw /= app_nil_r. }
  rw /mbind /M_bind.
  assert (Hbody : buffer_read_body (Some l, pos, n, out) h =
    let c := Z.min (b_size b - pos) n in
    let out' := out ++ take (Z.to_nat c) (drop (Z.to_nat pos) d) in
    Ok (if (b_size b <=? pos + c)%Z then inl (b_next b, 0%Z, n - c, out')
        else inl (Some l, pos + c, n - c, out'), h)%Z).
  { rw /buffer_read_body. assert ((n =? 0)%Z = false) as -> by lia.
    rw /mbind /M_bind /hload Hb. cbn zeta. rw (u32_small (b_size b - pos)); [lia|].
    set (c := Z.min _ n). assert (0 ≤ c)%Z by lia. assert (c ≤ b_size b - pos)%Z by lia.
    rw /buf_read /mbind /M_bind /hload Hb.
    assert ((pos + c <=? Z.of_nat (length (buf b)))%Z = true) as -> by (apply Z.leb_le; lia).
    cbn [mret M_ret]. rw slice_bdata; [lia|]. rw (u32_small (pos + c)); [lia|].
    by case_match. }
  rw Hbody. cbn zeta. set (c := Z.min (b_size b - pos) n).
  destruct (Z.leb_spec (b_size b) (pos + c)) as [Hend|Hmore].
  - assert (Hcc : c = (b_size b - pos)%Z) by lia.
    rw (IH _ ls); [done|intros l' ?; apply Hwf; by right|lia|lia|simpl in Hf; lia| |done|].
    { intros l' Heq. destruct ls as [|l'' ls]; [by simpl in Hc; rw Heq in Hc|].
      destruct Hc as (Hn' & _). rw Heq in Hn'. injection Hn' as <-.
      destruct (Hwf l' ltac:(right; left)) as (b' & Hb' & (? & _)). eauto with lia. }
    fold rest. rw Z2Nat.inj_0 drop_0.
    assert (Hd : take (Z.to_nat c) (drop (Z.to_nat pos) d) = drop (Z.to_nat pos) d).
    { apply take_ge. rw length_drop. lia. }
    rw Hd. rw length_app length_drop.
    assert (Z.to_nat n = (length d - Z.to_nat pos) + Z.to_nat (n - c)) as Hnn by lia.
    do 2 case_decide; try lia; rw -app_assoc //.
    rw Hnn take_app_add' //. by rw length_drop.
  - assert (Hcn : c = n) by lia. rw Hcn. destruct fuel as [|fuel]; [simpl in Hf; lia|].
    cbn [loop]. rw /buffer_read_body /mbind /M_bind. rw Z.sub_diag Z.eqb_refl. cbn [mret M_ret].
    rw decide_True; [rw length_app length_drop; lia|].
    rw take_app_le //. rw length_drop. lia.
Qed.

(** C10: [buffer_read] copies [n] bytes starting at offset [pos] of a chain out
    of as many buffers as they span, in at most one iteration per buffer after
    the first check; it returns 0 and exactly those bytes when the chain holds
    that many, and -1 after copying all there is when it does not.  It changes
    nothing and reads only valid bytes. *)
Theorem buffer_read_chain h l ls pos n :
  chain h (Some l) (l :: ls) NULL → chain_wf h (l :: ls) → (0 ≤ n < 2 ^ 32)%Z → (0 ≤ pos)%Z →
  (∃ b, h !! l = Some b ∧ (pos ≤ b_size b)%Z) →
  let d := drop (Z.to_nat pos) (content h (l :: ls)) in
  buffer_read (2 + length ls) (Some l) pos n h =
  Ok (if decide (Z.to_nat n ≤ length d) then (0%Z, take (Z.to_nat n) d) else ((-1)%Z, d), h).
Proof.
  intros Hc Hwf Hn Hp Hpos d. rw /buffer_read.
  apply (buffer_read_loop _ _ _ (l :: ls) _ _ []); try done; [simpl; lia|].
  intros l' Heq. by injection Heq as <-.
Qed.

Definition two_buffers : bufs :=
  list_to_map [(1%positive, Buffer (Refbase 1 false) 4 3 (Some 2%positive) [1; 2; 3; 0]%Z);
               (2%positive, Buffer (Refbase 1 false) 4 2 NULL [4; 5; 0; 0]%Z)].

Lemma buffer_read_chain_witness :
  buffer_read 3 (Some 1%positive) 1 3 two_buffers = Ok ((0, [2; 3; 4])%Z, two_buffers).
Proof.
  apply (buffer_read_chain two_buffers 1%positive [2%positive] 1 3).
  - simpl. split; [done|]. eexists. split; [by vm_compute|]. split; [done|].
    eexists. split; [by vm_compute|done].
  - intros l Hl. repeat (apply elem_of_cons in Hl as [->|Hl];
      [eexists; split; [by vm_compute|]; by vm_compute|]). by apply not_elem_of_nil in Hl.
  - done.
  - done.
  - eexists. split; [by vm_compute|]. done.
Defined.

(** ** Stepping lemmas for the clients *)

Lemma wp_buffer_create m cap h (Q : loc → bufs → Prop) : (0 ≤ cap)%Z → (cap + 32 < 2 ^ 32)%Z →
  (∀ l, h !! l = None →
     Q l (<[l := Buffer (Refbase 0 m) cap 0 NULL (replicate (Z.to_nat cap) 0%Z)]> h)) →
  wp (buffer_create m cap) h Q.
Proof.
  intros Hc1 Hc2 HQ. rw /buffer_create /sizeof_buffer u32_small; [lia|].
  assert ((32 + cap <? 32)%Z = false) as -> by (apply Z.ltb_ge; lia).
  apply wp_halloc. intros l Hl. rw (_ : 32 + cap - 32 = cap)%Z; [lia|]. by apply HQ.
Qed.

Lemma ref_increase_small b : (0 ≤ rc b < 2 ^ 31 - 1)%Z →
  with_ref (ref_increase (_refbase b)) b = ref_add 1 b.
Proof. intros ?. rw /ref_add /ref_increase i32_small; [rw /rc in H; lia|done]. Qed.

(** Taking a first reference. *)
Lemma wp_buffer_acquire_null l b h (Q : ptr → bufs → Prop) :
  h !! l = Some b → (0 ≤ rc b < 2 ^ 31 - 1)%Z → Q (Some l) (<[l := ref_add 1 b]> h) →
  wp (buffer_acquire NULL (Some l)) h Q.
Proof.
  intros Hl Hr HQ. rw /buffer_acquire. wp_step. wp_step. wp_step. by rw ref_increase_small.
Qed.

(** Moving a reference from one buffer to another, which does not free the
    first as it has a further reference. *)
Lemma wp_buffer_acquire_move l1 l2 b1 b2 h (Q : ptr → bufs → Prop) :
  h !! l1 = Some b1 → h !! l2 = Some b2 → l1 ≠ l2 →
  (2 ≤ rc b1 < 2 ^ 31)%Z → (0 ≤ rc b2 < 2 ^ 31 - 1)%Z →
  Q (Some l2) (<[l1 := ref_add (-1) b1]> (<[l2 := ref_add 1 b2]> h)) →
  wp (buffer_acquire (Some l1) (Some l2)) h Q.
Proof.
  intros H1 H2 Hne Hr1 Hr2 HQ. rw /buffer_acquire. wp_step. wp_step. wp_step. rw ref_increase_small //. wp_step.
  assert (Hl : <[l2 := ref_add 1 b2]> h !! l1 = Some b1) by by rw lookup_insert_ne.
  rw /buffer_release. wp_step. wp_step. apply release_shared; [by exists b1|lia|].
  wp_step. by rw /add_ref (alter_is_insert _ _ _ _ Hl).
Qed.

Lemma wp_buffer_create_and_acquire m cap h (Q : ptr → bufs → Prop) :
  (0 ≤ cap)%Z → (cap + 32 < 2 ^ 32)%Z →
  (∀ l, h !! l = None →
     Q (Some l) (<[l := Buffer (Refbase 1 m) cap 0 NULL (replicate (Z.to_nat cap) 0%Z)]> h)) →
  wp (buffer_create_and_acquire m NULL cap) h Q.
Proof.
  intros Hc1 Hc2 HQ. rw /buffer_create_and_acquire. wp_step. apply wp_buffer_create; [done..|].
  intros l Hl. eapply wp_buffer_acquire_null; [apply lookup_insert_eq|done|].
  rw insert_insert_eq. by apply HQ.
Qed.

(** What a write of bytes leaves alone. *)
Definition bshape (b : buffer) : ptr * refbase * Z * nat :=
  (b_next b, _refbase b, capacity b, length (buf b)).
Definition hshape (h h' : bufs) : Prop := ∀ l, bshape <$> h' !! l = bshape <$> h !! l.

#[export] Instance hshape_preorder : PreOrder hshape.
Proof. split; [done|]. intros h1 h2 h3 H12 H23 l. by rw H23 H12. Qed.

Lemma hshape_insert h l b b' : h !! l = Some b → bshape b' = bshape b → hshape h (<[l := b']> h).
Proof.
  intros Hl Hb l'. rw lookup_insert. case_decide; [subst; by rw Hl /= Hb|done].
Qed.

Lemma hshape_lookup h h' l b : hshape h h' → h !! l = Some b →
  ∃ b', h' !! l = Some b' ∧ bshape b' = bshape b.
Proof.
  intros Hs Hl. pose proof (Hs l) as H. rw Hl in H. destruct (h' !! l) as [b'|]; [|done].
  exists b'. split; [done|]. by apply (inj Some).
Qed.

Lemma hshape_chain h h' p ls q : hshape h h' → chain h p ls q → chain h' p ls q.
Proof.
  intros Hs. apply chain_ext. intros l _. pose proof (Hs l) as H.
  destruct (h' !! l), (h !! l); try done. apply (inj Some) in H. injection H as Hn _ _ _. by rw /= Hn.
Qed.

Lemma content_insert_notin h l b ls : l ∉ ls → content (<[l := b]> h) ls = content h ls.
Proof. intros Hl. apply content_ext. intros l' Hl'. rw lookup_insert_ne //. by intros <-. Qed.

Lemma content_insert h l b pre post : NoDup (pre ++ l :: post) →
  content (<[l := b]> h) (pre ++ l :: post) = content h pre ++ bdata b ++ content h post.
Proof.
  intros (_ & Hpre & [Hl _]%NoDup_cons)%NoDup_app.
  rw content_app (content_cons _ l post b); [apply lookup_insert_eq|].
  rw !content_insert_notin //. intros Hin. eapply Hpre; [done|by left].
Qed.

(** Overwriting valid bytes of one buffer of a chain overwrites the same bytes
    of its content. *)
Lemma content_splice h l b pre post pos bs : NoDup (pre ++ l :: post) → h !! l = Some b →
  buf_wf b → pos + length bs ≤ Z.to_nat (b_size b) →
  content (<[l := with_bytes (splice pos bs (buf b)) b]> h) (pre ++ l :: post) =
  splice (length (content h pre) + pos) bs (content h (pre ++ l :: post)).
Proof.
  intros Hnd Hl Hwf Hpos. rw content_insert // content_app (content_cons _ _ _ _ Hl).
  pose proof (length_bdata b Hwf) as Hlb. destruct Hwf as (? & _ & Hlen).
  rw splice_app_r splice_app_l; [lia|]. do 2 f_equal.
  rw /bdata /= take_splice_all //. lia.
Qed.
