(* ===== verification/WPacket.v ===== *)
(** * Packets being written ([src/src/wpacket.c], [src/include/wpacket.h])

    A [wpacket] writes its data into a chain of buffers that it extends as it
    grows.  A packet that is not raw starts with a 32-bit length field, which
    counts the bytes behind it and is updated by every write.  The invariant
    [wp_rep h w ls data] says that the packet [w] holds the payload [data] in
    the buffers [ls] of the store [h]. *)
From S2P Require Import Prelude Buffer.

(** ** Data *)

(** [w_len] is the buffer to whose first four bytes [len] points. *)
Record wpacket := WPacket {
  w_len : ptr;
  w_buf : ptr;
  w_writebuf : ptr;
  w_wpos : Z;
  w_factor : Z;
  w_begin_pos : Z;
  data_size : Z;
  w_raw : bool;
  w_mt : bool;
  _packet_send_finish : option nat;
}.

(** The packet being read ([src/include/rpacket.h]): either kind of packet can
    be created from the other. *)
Record rpacket := RPacket {
  r_len : Z;
  rpos : Z;
  data_remain : Z;
  binbufpos : Z;
  r_begin_pos : Z;
  binbuf : ptr;
  r_buf : ptr;
  readbuf : ptr;
  r_raw : bool;
  r_mt : bool;
}.

Record write_pos := WritePos { wp_buf : ptr; wp_wpos : Z }.

(** ** Sizes *)

Definition is_pow_of_2 (size : Z) : bool := (Z.land size (u32 (size - 1)) =? 0)%Z.

Fixpoint GetK_loop (fuel : nat) (size k : Z) : Z :=
  match fuel with
  | O => k
  | S n => if (1 <? size)%Z then GetK_loop n (Z.shiftr size 1) (u8 (k + 1)) else k
  end.

(** A 32-bit size reaches 1 within 32 shifts. *)
Definition GetK (size : Z) : Z :=
  let size := if is_pow_of_2 size then size else u32 (Z.shiftl size 1) in
  GetK_loop 32 size 0.

Definition GetSize_of_pow2 (size : Z) : Z :=
  if is_pow_of_2 size then size
  else
    let size := u32 (size - 1) in
    let size := Z.lor size (Z.shiftr size 1) in
    let size := Z.lor size (Z.shiftr size 2) in
    let size := Z.lor size (Z.shiftr size 4) in
    let size := Z.lor size (Z.shiftr size 8) in
    let size := Z.lor size (Z.shiftr size 16) in
    u32 (size + 1).

(** ** The length field *)

Definition len_get (p : ptr) : M bufs Z := bs ← buf_read p 0 4; mret (le bs).
Definition len_set (p : ptr) (n : Z) : M bufs () := buf_write p 0 (le_bytes 4 n).

(** ** Operations *)

Definition wpacket_create (mt : bool) (size : Z) (is_raw : bool) : M bufs wpacket :=
  let size := GetSize_of_pow2 size in
  b ← buffer_create_and_acquire mt NULL size;
  writebuf ← buffer_acquire NULL b;
  if is_raw then
    hmodify b (with_bsize 0);;
    mret (WPacket NULL b writebuf 0 (u8 size) 0 0 is_raw mt None)
  else
    len_set b 0;;
    hmodify b (with_bsize 4);;
    mret (WPacket b b writebuf 4 (u8 size) 0 4 is_raw mt None).

Definition wpacket_create_by_rpacket (r : rpacket) : M bufs wpacket :=
  b ← buffer_acquire NULL (r_buf r);
  mret (WPacket NULL b NULL 0 0 (r_begin_pos r)
          (if r_raw r then r_len r else u32 (r_len r + 4)) (r_raw r) (r_mt r) None).

Definition wpacket_get_writepos (w : wpacket) : write_pos := WritePos (w_writebuf w) (w_wpos w).

Definition wpacket_destroy (w : wpacket) : M bufs () :=
  buffer_release (w_buf w);; buffer_release (w_writebuf w).

(** [factor] is a [uint8_t]. *)
Definition wpacket_expand (w : wpacket) : M bufs wpacket :=
  let factor := u8 (Z.shiftl (w_factor w) 1) in
  nb ← buffer_create_and_acquire (w_mt w) NULL factor;
  hmodify (w_writebuf w) (with_next nb);;
  wb ← hload (w_writebuf w);
  writebuf ← buffer_acquire (w_writebuf w) (b_next wb);
  mret (WPacket (w_len w) (w_buf w) writebuf 0 factor (w_begin_pos w) (data_size w)
          (w_raw w) (w_mt w) (_packet_send_finish w)).

(** [wpacket_copy]: the locals are the offset of [ptr] in [buf], [wpos] and
    [tmp_buf].  Each buffer is copied from its start. *)
Definition wpacket_copy_body (dst : ptr) (x : Z * Z * ptr) : M bufs ((Z * Z * ptr) + Z) :=
  let '(off, wpos, tmp_buf) := x in
  match tmp_buf with
  | None => mret (inr wpos)
  | Some _ =>
      b ← hload tmp_buf;
      let copy_size := u32 (b_size b - wpos) in
      bs ← buf_read tmp_buf 0 copy_size;
      buf_write dst off bs;;
      mret (inl ((off + copy_size)%Z, 0%Z, b_next b))
  end.

Definition wpacket_copy (w : wpacket) (dst : ptr) : M bufs wpacket :=
  n ← gets size;
  wpos ← loop (S (S n)) (wpacket_copy_body dst) (0%Z, w_wpos w, w_buf w);
  mret (WPacket (w_len w) (w_buf w) (w_writebuf w) wpos (w_factor w) (w_begin_pos w) (data_size w)
          (w_raw w) (w_mt w) (_packet_send_finish w)).

(** The copy on write of a packet created from an [rpacket]. *)
Definition wpacket_unshare (w : wpacket) : M bufs wpacket :=
  len ← len_get (w_len w);
  let factor := GetSize_of_pow2 len in
  tmp ← buffer_create_and_acquire (w_mt w) NULL (u8 factor);
  w ← wpacket_copy w tmp;
  b ← buffer_acquire (w_buf w) tmp;
  writebuf ← buffer_acquire (w_writebuf w) b;
  mret (WPacket (if w_raw w then w_len w else tmp) b writebuf
          (if w_raw w then w_wpos w else 4%Z) (u8 factor) 0 (data_size w)
          (w_raw w) (w_mt w) (_packet_send_finish w)).

(** The [memcpy] of one iteration and the updates that go with it. *)
Definition write_copy (w : wpacket) (bs : list Z) : M bufs wpacket :=
  let copy_size := Z.of_nat (length bs) in
  buf_write (w_writebuf w) (w_wpos w) bs;;
  hmodify (w_writebuf w) (λ b, with_bsize (u32 (b_size b + copy_size)) b);;
  (match w_len w with
   | Some _ => n ← len_get (w_len w); len_set (w_len w) (u32 (n + copy_size))
   | None => mret tt
   end);;
  mret (WPacket (w_len w) (w_buf w) (w_writebuf w) (u32 (w_wpos w + copy_size)) (w_factor w)
          (w_begin_pos w) (u32 (data_size w + copy_size)) (w_raw w) (w_mt w)
          (_packet_send_finish w)).

(** One iteration of [while(size)]: the locals are the packet and what is left
    to write. *)
Definition write_body (x : wpacket * list Z) : M bufs ((wpacket * list Z) + wpacket) :=
  let '(w, bs) := x in
  if decide (bs = []) then mret (inr w)
  else
    b ← hload (w_writebuf w);
    w ← (if (u32 (capacity b - w_wpos w) =? 0)%Z then wpacket_expand w else mret w);
    b ← hload (w_writebuf w);
    let copy_size := Z.to_nat (Z.min (u32 (capacity b - w_wpos w)) (Z.of_nat (length bs))) in
    w ← write_copy w (take copy_size bs);
    mret (inl (w, drop copy_size bs)).

Definition wpacket_write (w : wpacket) (bs : list Z) : M bufs wpacket :=
  w ← (match w_writebuf w with None => wpacket_unshare w | Some _ => mret w end);
  loop (S (length bs)) write_body (w, bs).

Definition wpacket_write_uint8 (w : wpacket) (v : Z) := wpacket_write w (le_bytes 1 v).
Definition wpacket_write_uint16 (w : wpacket) (v : Z) := wpacket_write w (le_bytes 2 v).
Definition wpacket_write_uint32 (w : wpacket) (v : Z) := wpacket_write w (le_bytes 4 v).
Definition wpacket_write_uint64 (w : wpacket) (v : Z) := wpacket_write w (le_bytes 8 v).
(** A [double] is its 64-bit pattern. *)
Definition wpacket_write_double (w : wpacket) (v : Z) := wpacket_write w (le_bytes 8 v).

Definition wpacket_write_binary (w : wpacket) (value : list Z) : M bufs wpacket :=
  w ← (if w_raw w then mret w else wpacket_write_uint32 w (u32 (Z.of_nat (length value))));
  wpacket_write w value.

(** [value] is a C string without its terminating zero. *)
Definition wpacket_write_string (w : wpacket) (value : list Z) : M bufs wpacket :=
  if w_raw w then wpacket_write_binary w value else wpacket_write_binary w (value ++ [0%Z]).

(** [wpacket_rewrite]: the locals are [wp->buf], [pos] and what is left. *)
Definition rewrite_body (x : ptr * Z * list Z) : M bufs ((ptr * Z * list Z) + ptr) :=
  let '(p, pos, bs) := x in
  if decide (bs = []) then mret (inr p)
  else
    b ← hload p;
    let copy_size := Z.to_nat (Z.min (u32 (capacity b - pos)) (Z.of_nat (length bs))) in
    buf_write p pos (take copy_size bs);;
    let rest := drop copy_size bs in
    let pos := u32 (pos + Z.of_nat copy_size) in
    if bool_decide (rest ≠ []) && (capacity b <=? pos)%Z then
      assert_ (bool_decide (b_next b ≠ NULL));;
      mret (inl (b_next b, 0%Z, rest))
    else mret (inl (p, pos, rest)).

(** Only [wp->buf] is advanced. *)
Definition wpacket_rewrite (wp : write_pos) (bs : list Z) : M bufs write_pos :=
  n ← gets size;
  p ← loop (2 + n + length bs) rewrite_body (wp_buf wp, wp_wpos wp, bs);
  mret (WritePos p (wp_wpos wp)).

Definition wpacket_rewrite_uint8 (wp : write_pos) (v : Z) := wpacket_rewrite wp (le_bytes 1 v).
Definition wpacket_rewrite_uint16 (wp : write_pos) (v : Z) := wpacket_rewrite wp (le_bytes 2 v).
Definition wpacket_rewrite_uint32 (wp : write_pos) (v : Z) := wpacket_rewrite wp (le_bytes 4 v).
Definition wpacket_rewrite_uint64 (wp : write_pos) (v : Z) := wpacket_rewrite wp (le_bytes 8 v).
Definition wpacket_rewrite_double (wp : write_pos) (v : Z) := wpacket_rewrite wp (le_bytes 8 v).

(** ** [GetSize_of_pow2] *)

(** A bit of [z] is set when one of the [n] bits of [y] from its place up is. *)
Definition smeared (n y z : Z) : Prop :=
  ∀ i, (0 ≤ i)%Z → Z.testbit z i = true ↔ ∃ j, (0 ≤ j < n)%Z ∧ Z.testbit y (i + j) = true.

Lemma smeared_1 y : smeared 1 y y.
Proof.
  intros i Hi. split.
  - intros H. exists 0%Z. by rw Z.add_0_r.
  - intros (j & ? & Hj). by rw (_ : i + j = i)%Z in Hj; [lia|].
Qed.

Lemma smeared_double n y z : (0 < n)%Z → smeared n y z → smeared (2 * n) y (Z.lor z (Z.shiftr z n)).
Proof.
  intros Hn Hs i Hi. rw Z.lor_spec Z.shiftr_spec // orb_true_iff (Hs i Hi) (Hs (i + n)%Z ltac:(lia)).
  split.
  - intros [(j & ? & ?)|(j & ? & Hj)]; [exists j; split; [lia|done]|].
    exists (n + j)%Z. split; [lia|]. by rw Z.add_assoc.
  - intros (j & ? & Hj). destruct (Z.lt_ge_cases j n); [left; exists j; split; [lia|done]|].
    right. exists (j - n)%Z. split; [lia|]. by rw (_ : i + n + (j - n) = i + j)%Z; [lia|].
Qed.

Lemma smeared_ones n y z : (0 < y < 2 ^ n)%Z → (0 ≤ z)%Z → smeared n y z →
  z = Z.ones (Z.log2 y + 1).
Proof.
  intros Hy Hz Hs. assert (Hlog : (Z.log2 y < n)%Z) by (apply Z.log2_lt_pow2; lia).
  pose proof (Z.log2_nonneg y).
  apply Z.bits_inj'. intros i Hi. rw Z.testbit_ones_nonneg; [lia..|].
  apply eq_true_iff_eq. rw (Hs i Hi) Z.ltb_lt. split.
  - intros (j & Hj & Hb). destruct (Z.lt_ge_cases i (Z.log2 y + 1)); [done|].
    rw Z.bits_above_log2 in Hb; [lia..|done].
  - intros. exists (Z.log2 y - i)%Z. split; [lia|].
    rw (_ : i + (Z.log2 y - i) = Z.log2 y)%Z; [lia|]. apply Z.bit_log2. lia.
Qed.

Lemma is_pow_of_2_true size : (0 < size < 2 ^ 32)%Z →
  is_pow_of_2 size = true → size = (2 ^ Z.log2 size)%Z.
Proof.
  intros Hs Hp. rw /is_pow_of_2 u32_small in Hp; [lia|]. apply Z.eqb_eq in Hp.
  destruct (Z.log2_spec size ltac:(lia)) as [Hle Hlt].
  destruct (Z.eq_dec size (2 ^ Z.log2 size)%Z) as [|Hne]; [done|]. exfalso.
  assert (Z.log2 (size - 1) = Z.log2 size) as Hl by (apply Z.log2_unique; [apply Z.log2_nonneg|lia]).
  pose proof (f_equal (λ z, Z.testbit z (Z.log2 size)) Hp) as Hb. cbv beta in Hb.
  rw Z.land_spec Z.bits_0 Z.bit_log2 in Hb; [lia|]. rw -Hl Z.bit_log2 in Hb; [|done].
  pose proof (Z.log2_nonneg size). pose proof (Z.pow_pos_nonneg 2 (Z.log2 size)). lia.
Qed.

(** C11: for a size between 1 and 2^31 [GetSize_of_pow2] returns the least
    power of two that is not below it. *)
Theorem GetSize_of_pow2_least size : (1 ≤ size ≤ 2 ^ 31)%Z →
  ∃ k, (0 ≤ k ≤ 31)%Z ∧ GetSize_of_pow2 size = (2 ^ k)%Z ∧
    (size ≤ 2 ^ k)%Z ∧ ∀ j, (0 ≤ j)%Z → (size ≤ 2 ^ j → k ≤ j)%Z.
Proof.
  intros Hs. rw /GetSize_of_pow2. destruct (is_pow_of_2 size) eqn:Hp.
  { apply is_pow_of_2_true in Hp; [|lia]. exists (Z.log2 size). split_and!.
    - apply Z.log2_nonneg.
    - rw (_ : 31 = Z.log2 (2 ^ 31))%Z; [done|]. apply Z.log2_le_mono. lia.
    - done.
    - lia.
    - intros j ? Hj. rw Hp in Hj. by apply Z.pow_le_mono_r_iff in Hj. }
  assert (Hs2 : (2 ≤ size)%Z).
  { destruct (Z.eq_dec size 1%Z) as [->|]; [by vm_compute in Hp|lia]. }
  set (y := u32 (size - 1)). assert (Hy : y = (size - 1)%Z) by (apply u32_small; lia).
  set (z1 := Z.lor y _). set (z2 := Z.lor z1 _). set (z3 := Z.lor z2 _). set (z4 := Z.lor z3 _).
  set (z5 := Z.lor z4 _).
  assert (Hz : smeared 32 y z5).
  { pose proof (smeared_1 y) as H. apply smeared_double in H; [|done].
    do 4 (apply smeared_double in H; [|done]). exact H. }
  assert (Hnn : ∀ a n, (0 ≤ a → 0 ≤ Z.lor a (Z.shiftr a n))%Z).
  { intros a n ?. apply Z.lor_nonneg. by rw Z.shiftr_nonneg. }
  apply smeared_ones in Hz; [|lia|by repeat apply Hnn; lia].
  rw Hz Z.ones_equiv. pose proof (Z.log2_nonneg y).
  destruct (Z.log2_spec y ltac:(lia)) as [Hle Hlt].
  assert (Hl : (Z.log2 y < 31)%Z) by (apply Z.log2_lt_pow2; lia).
  pose proof (Z.pow_le_mono_r 2 (Z.log2 y + 1) 31 ltac:(lia) ltac:(lia)).
  pose proof (Z.pow_pos_nonneg 2 (Z.log2 y + 1) ltac:(lia) ltac:(lia)).
  exists (Z.log2 y + 1)%Z. split_and!; [lia..| |lia|].
  - rw u32_small; lia.
  - intros j Hj Hsj. destruct (Z.le_gt_cases (Z.log2 y + 1) j) as [|Hlt']; [done|].
    pose proof (Z.pow_le_mono_r 2 j (Z.log2 y) ltac:(lia) ltac:(lia)). lia.
Qed.

Lemma GetSize_of_pow2_least_witness : ∃ k, (0 ≤ k ≤ 31)%Z ∧ GetSize_of_pow2 33 = (2 ^ k)%Z ∧
  (33 ≤ 2 ^ k)%Z ∧ ∀ j, (0 ≤ j)%Z → (33 ≤ 2 ^ j → k ≤ j)%Z.
Proof. apply (GetSize_of_pow2_least 33). lia. Defined.

(** ** The representation invariant *)

(** Every buffer has a reference, the current one a second one; the margin to
    the 32-bit limit is what later references may use. *)
Definition refs (h : bufs) (ls : list loc) (cur : loc) : Prop :=
  ∀ l, l ∈ ls → ∃ b, h !! l = Some b ∧
    ((if decide (l = cur) then 2 else 1) ≤ rc b < 2 ^ 30)%Z.

Definition header (raw : bool) (data : list Z) : list Z :=
  if raw then [] else le_bytes 4 (Z.of_nat (length data)).

(** The packet [w] holds the payload [data] in the buffers [pre ++ [cur]], of
    which [cur] is the one written to. *)
Record wp_rep (h : bufs) (w : wpacket) (pre : list loc) (cur : loc) (data : list Z) : Prop := {
  wr_buf : w_buf w = head (pre ++ [cur]);
  wr_writebuf : w_writebuf w = Some cur;
  wr_len : w_len w = if w_raw w then NULL else w_buf w;
  wr_chain : chain h (w_buf w) (pre ++ [cur]) NULL;
  wr_nodup : NoDup (pre ++ [cur]);
  wr_wf : chain_wf h (pre ++ [cur]);
  wr_cur : ∃ b, h !! cur = Some b ∧ b_size b = w_wpos w;
  wr_full : ∀ l, l ∈ pre → ∃ b, h !! l = Some b ∧ b_size b = capacity b;
  wr_refs : refs h (pre ++ [cur]) cur;
  wr_content : content h (pre ++ [cur]) = header (w_raw w) data ++ data;
  wr_size : data_size w = Z.of_nat (length (header (w_raw w) data ++ data));
  wr_head : w_raw w = false → ∃ l b, w_buf w = Some l ∧ h !! l = Some b ∧ (4 ≤ b_size b)%Z;
  wr_factor : (0 ≤ w_factor w < 2 ^ 8)%Z;
}.

(** The buffers a packet may still add: the factor doubles at 8 bits. *)
Fixpoint growth (n : nat) (factor : Z) : Z :=
  match n with
  | O => 0
  | S n => u8 (2 * factor) + growth n (u8 (2 * factor))
  end.

(** What the packet can still take: the rest of the current buffer and all
    buffers it can be extended by. *)
Definition room (h : bufs) (w : wpacket) : Z :=
  match w_writebuf w with
  | Some l => match h !! l with
              | Some b => capacity b - w_wpos w + growth 8 (w_factor w)
              | None => 0
              end
  | None => 0
  end.

(** [w'] is [w] but for the write position, the sizes and the factor. *)
Definition same_packet (w w' : wpacket) : Prop :=
  w_buf w' = w_buf w ∧ w_raw w' = w_raw w ∧ w_mt w' = w_mt w ∧ w_begin_pos w' = w_begin_pos w ∧
  _packet_send_finish w' = _packet_send_finish w.

#[export] Instance same_packet_preorder : PreOrder same_packet.
Proof. split; rw /same_packet; [done|]. intros ???; naive_solver congruence. Qed.

(** No buffer is freed or resized. *)
Definition caps (h h' : bufs) : Prop :=
  ∀ l b, h !! l = Some b → ∃ b', h' !! l = Some b' ∧ capacity b' = capacity b.

(** Outside of the packet's buffers the store is as before; the buffers it has
    gained were free. *)
Definition frame (h h' : bufs) (ls ls' : list loc) : Prop :=
  (∃ new, ls' = ls ++ new ∧ ∀ l, l ∈ new → h !! l = None) ∧
  (∀ l, l ∉ ls' → h' !! l = h !! l) ∧ caps h h'.

Lemma u8_mod z : u8 z = (z mod 256)%Z.
Proof. done. Qed.

Lemma growth_S n f : growth (S n) f = (growth n f + u8 (2 ^ Z.of_nat (S n) * f))%Z.
Proof.
  revert f. induction n as [|n IH]; intros f.
  { cbn [growth]. rw (_ : 2 ^ Z.of_nat 1 = 2)%Z; [done|lia]. }
  change (growth (S (S n)) f) with (u8 (2 * f) + growth (S n) (u8 (2 * f)))%Z.
  rw IH. change (growth (S n) f) with (u8 (2 * f) + growth n (u8 (2 * f)))%Z.
  rw -Z.add_assoc. do 2 f_equal. rw !u8_mod Zmult_mod_idemp_r. f_equal.
  rw (Nat2Z.inj_succ (S n)) Z.pow_succ_r; lia.
Qed.

(** Eight doublings exhaust the factor. *)
Lemma growth_8 f : growth 8 (u8 (2 * f)) = (growth 8 f - u8 (2 * f))%Z.
Proof.
  change (growth 8 f) with (u8 (2 * f) + growth 7 (u8 (2 * f)))%Z. rw growth_S.
  rw (_ : u8 (2 ^ Z.of_nat 8 * u8 (2 * f)) = 0)%Z; [|lia].
  rw u8_mod (_ : 2 ^ Z.of_nat 8 * u8 (2 * f) = u8 (2 * f) * 256)%Z; [lia|]. by apply Z_mod_mult.
Qed.

Lemma growth_nonneg n f : (0 ≤ growth n f)%Z.
Proof.
  revert f. induction n as [|n IH]; intros f; cbn [growth]; [lia|].
  pose proof (u8_range (2 * f)). pose proof (IH (u8 (2 * f))). lia.
Qed.

Lemma growth_pos f : (0 < growth 8 f)%Z → (0 < u8 (2 * f))%Z.
Proof.
  pose proof (u8_range (2 * f)). change (growth 8 f) with (u8 (2 * f) + growth 7 (u8 (2 * f)))%Z.
  intros H'. destruct (Z.eq_dec (u8 (2 * f)) 0%Z) as [Hz|]; [|lia]. rw Hz in H'. by vm_compute in H'.
Qed.

(** *** Expansion *)

Lemma wpacket_expand_ok h w pre cur data : wp_rep h w pre cur data →
  (∃ b, h !! cur = Some b ∧ capacity b = w_wpos w) →
  let f := u8 (2 * w_factor w) in
  wp (wpacket_expand w) h (λ w' h', ∃ nl, h !! nl = None ∧
    wp_rep h' w' (pre ++ [cur]) nl data ∧ same_packet w w' ∧ w_factor w' = f ∧ w_wpos w' = 0%Z ∧
    (∃ b, h' !! nl = Some b ∧ capacity b = f) ∧ frame h h' (pre ++ [cur]) ((pre ++ [cur]) ++ [nl])).
Proof.
  intros Hw (b & Hb & Hcap) f. pose proof (u8_range (2 * w_factor w)) as Hf. fold f in Hf.
  pose proof Hw as [Wbuf Wwb Wlen Wch Wnd Wwf (b' & Hb' & Wcur) Wfull Wrefs Wct Wsz Whd Wfac].
  simplify_eq.
  rw /wpacket_expand Wwb Z.shiftl_mul_pow2 // (Z.mul_comm _ (2 ^ 1)). change (2 ^ 1)%Z with 2%Z. fold f. wp_step.
  apply wp_buffer_create_and_acquire; [lia|lia|]. intros nl Hnl.
  set (nb := Buffer _ _ _ _ _).
  assert (Hne : nl ≠ cur) by congruence.
  wp_step. eapply wp_hmodify; [by rw lookup_insert_ne|]. wp_step. eapply wp_hload; [apply lookup_insert_eq|].
  wp_step. simpl b_next. destruct (Wrefs cur) as (b' & Hb' & Hrc); [set_solver|]. simplify_eq.
  rw decide_True // in Hrc.
  eapply (wp_buffer_acquire_move cur nl (with_next (Some nl) b) nb);
    [apply lookup_insert_eq|by rw lookup_insert_ne // lookup_insert_eq|done|rw /rc /= in Hrc *; lia|done|].
  wp_step. exists nl. split; [done|].
  assert (Hnin : nl ∉ pre ++ [cur]).
  { intros Hin. by destruct (chain_lookup _ _ _ _ _ Wch Hin) as [? ?]; simplify_eq. }
  set (h' := <[cur := _]> _).
  assert (Hh' : h' = <[cur := ref_add (-1) (with_next (Some nl) b)]> (<[nl := ref_add 1 nb]> h)).
  { rw /h'. map_ext. }
  clearbody h'. subst h'. set (b1 := ref_add (-1) _). set (b2 := ref_add 1 nb).
  set (h' := <[cur := b1]> _).
  assert (Hother : ∀ l, l ≠ cur → l ≠ nl → h' !! l = h !! l).
  { intros l ??. by rw /h' !lookup_insert_ne. }
  assert (Hcur : h' !! cur = Some b1) by apply lookup_insert_eq.
  assert (Hnew : h' !! nl = Some b2) by (rw /h' lookup_insert_ne //; apply lookup_insert_eq).
  assert (Hdata : ∀ l, l ∈ pre ++ [cur] → bdata <$> h' !! l = bdata <$> h !! l).
  { intros l Hl. destruct (decide (l = cur)) as [->|]; [by rw Hcur Hb|].
    rw Hother //. by intros ->. }
  assert (Hpre : ∀ l, l ∈ pre → l ≠ cur ∧ l ≠ nl).
  { intros l Hl. apply NoDup_app in Wnd as (_ & Hd & _). split; [|set_solver].
    intros ->. eapply Hd; [done|set_solver]. }
  split; [|split_and!; try done].
  2: { by exists b2. }
  2: { split; [exists [nl]; split; [done|set_solver]|]. split.
    - intros l Hl. apply Hother; set_solver.
    - intros l b' Hl. destruct (decide (l = cur)) as [->|]; [exists b1; by simplify_eq|].
      exists b'. rw Hother //. congruence. }
  assert (Hdc : bdata b2 = []) by by rw /b2 /nb /bdata.
  split; simpl; try done.
  - rw Wbuf. by destruct pre.
  - apply chain_app. exists (Some nl). split; [|by split; [|exists b2]].
    apply chain_app in Wch as (r & Hc1 & Hc2). apply chain_app. exists r. split.
    + eapply chain_ext; [|done]. intros l Hl. by rw Hother; [apply Hpre..|].
    + destruct Hc2 as (-> & ? & ? & ?). split; [done|]. by exists b1.
  - apply NoDup_app. split; [done|]. split; [|by apply NoDup_singleton].
    intros l Hl ->%list_elem_of_singleton. done.
  - intros l [Hl| ->%list_elem_of_singleton]%elem_of_app.
    + destruct (Wwf l Hl) as (b' & Hb'' & Hbw). destruct (decide (l = cur)) as [->|].
      * exists b1. split; [done|]. simplify_eq. done.
      * exists b'. split; [|done]. rw Hother //. by intros ->.
    + exists b2. split; [done|]. split; [simpl; lia|]. split; [simpl; lia|].
      by rw /= length_replicate.
  - by exists b2.
  - intros l [Hl| ->%list_elem_of_singleton]%elem_of_app.
    + destruct (Hpre l Hl). rw Hother //. by apply Wfull.
    + exists b1. split; [done|]. simpl. congruence.
  - intros l [Hl| ->%list_elem_of_singleton]%elem_of_app.
    + rw decide_False; [by intros ->|]. destruct (decide (l = cur)) as [->|].
      * exists b1. split; [done|]. rw /b1 /ref_add /rc /=. rw /rc in Hrc. lia.
      * destruct (Wrefs l Hl) as (b' & ? & Hr). rw decide_False // in Hr.
        exists b'. split; [|done]. rw Hother //. by intros ->.
    + rw decide_True //. by exists b2.
  - rw content_app (content_cons _ _ _ _ Hnew) Hdc app_nil_r (content_ext h h') //.
  - intros Hraw. destruct (Whd Hraw) as (l & b' & Hl & Hlb & ?). exists l.
    destruct (decide (l = cur)) as [->|]; [exists b1; split_and!; try done; by simplify_eq|].
    exists b'. split; [done|]. split; [|done]. rw Hother //. congruence.
Qed.

(** *** Copying a piece into the current buffer *)

Lemma wf_shape h h' ls : hshape h h' → chain_wf h ls →
  (∀ l b, l ∈ ls → h' !! l = Some b → (0 ≤ b_size b ≤ capacity b)%Z) → chain_wf h' ls.
Proof.
  intros Hs Hwf Hsz l Hl. destruct (Hwf l Hl) as (b & Hb & (_ & Hcap & Hlen)).
  destruct (hshape_lookup h h' l b Hs Hb) as (b' & Hb' & Hsh). injection Hsh as _ _ Hc Hl'.
  exists b'. split; [done|]. split; [by eapply Hsz|]. rw Hc Hl'. done.
Qed.

Lemma refs_shape h h' ls cur : hshape h h' → refs h ls cur → refs h' ls cur.
Proof.
  intros Hs Hr l Hl. destruct (Hr l Hl) as (b & Hb & Hrc).
  destruct (hshape_lookup h h' l b Hs Hb) as (b' & Hb' & Hsh). injection Hsh as _ Hr' _ _.
  exists b'. split; [done|]. by rw /rc Hr'.
Qed.

Lemma bshape_bytes b bs : length bs = length (buf b) → bshape (with_bytes bs b) = bshape b.
Proof. intros H. by rw /bshape /with_bytes /= H. Qed.

Lemma header_app data bs :
  splice 0 (le_bytes 4 (Z.of_nat (length (data ++ bs)))) (header false data ++ data ++ bs) =
  header false (data ++ bs) ++ data ++ bs.
Proof. done. Qed.

(** The length field as the packet reads it. *)
Lemma len_get_ok h w pre cur data l : wp_rep h w pre cur data → w_raw w = false →
  w_buf w = Some l → (Z.of_nat (length data) < 2 ^ 32)%Z →
  wp (len_get (Some l)) h (λ n h', h' = h ∧ n = Z.of_nat (length data)).
Proof.
  intros Hw Hraw Hl Hlen. destruct (wr_head _ _ _ _ _ Hw Hraw) as (l' & b & Hl' & Hb & H4).
  assert (l' = l) as -> by congruence.
  pose proof (wr_buf _ _ _ _ _ Hw) as Hhd. rw Hl in Hhd.
  assert (Hls : ∃ ls, pre ++ [cur] = l :: ls).
  { destruct pre as [|l0 pre]; simpl in *; simplify_eq; eauto. }
  destruct Hls as (ls & Hls). destruct (wr_wf _ _ _ _ _ Hw l) as (b' & ? & Hbw).
  { rw Hls. by left. } simplify_eq. pose proof Hbw as (? & ? & Hbl).
  pose proof (wr_content _ _ _ _ _ Hw) as Hct. rw Hls (content_cons _ _ _ _ Hb) Hraw in Hct.
  rw /len_get. wp_step. eapply wp_buf_read; [done|lia|]. wp_step. split; [done|].
  change (Z.to_nat 0) with 0. change (Z.to_nat 4) with 4.
  rw slice_bdata; [lia|]. pose proof (length_bdata b Hbw).
  rw (_ : take 4 (drop 0 (bdata b)) = le_bytes 4 (Z.of_nat (length data))).
  - rw drop_0 -(take_app_le _ (content h ls)); [lia|]. rw Hct /header take_app_length' //.
  - apply le_le_bytes. change (2 ^ (8 * Z.of_nat 4))%Z with (2 ^ 32)%Z. lia.
Qed.

Lemma write_copy_ok h w pre cur data bs b : wp_rep h w pre cur data →
  h !! cur = Some b → (w_wpos w + Z.of_nat (length bs) ≤ capacity b)%Z →
  (Z.of_nat (length data + length bs) + 4 < 2 ^ 32)%Z →
  wp (write_copy w bs) h (λ w' h', wp_rep h' w' pre cur (data ++ bs) ∧ same_packet w w' ∧
    w_factor w' = w_factor w ∧ w_wpos w' = (w_wpos w + Z.of_nat (length bs))%Z ∧
    hshape h h' ∧ (∀ l, l ∉ pre ++ [cur] → h' !! l = h !! l)).
Proof.
  intros Hw Hb Hcap Hlen.
  pose proof Hw as [Wbuf Wwb Wlen Wch Wnd Wwf (b' & Hb' & Wcur) Wfull Wrefs Wct Wsz Whd Wfac].
  simplify_eq. destruct (Wwf cur ltac:(set_solver)) as (b' & Hb' & Hbw). simplify_eq.
  pose proof Hbw as (Hbs & Hbc & Hbl).
  set (n := Z.of_nat (length bs)) in *. rw -Wcur in Hcap.
  assert (Hds : data_size w = (Z.of_nat (length data) + (if w_raw w then 0 else 4))%Z).
  { rw Wsz length_app /header. destruct (w_raw w); simpl; rw ?length_le_bytes; lia. }
  rw /write_copy. fold n. wp_step. rw Wwb. eapply wp_buf_write; [done|lia|].
  wp_step. eapply wp_hmodify; [apply lookup_insert_eq|]. rw insert_insert_eq.
  set (b1 := with_bsize _ _). set (h1 := <[cur := b1]> h).
  assert (Hsz1 : b_size b1 = (b_size b + n)%Z) by (apply u32_small; simpl; lia).
  assert (Hs1 : hshape h h1).
  { eapply hshape_insert; [done|]. rw /b1 /bshape /= length_splice //. lia. }
  assert (Hb1 : bdata b1 = bdata b ++ bs).
  { rw /bdata Hsz1 /b1 /= -Wcur. rw (_ : Z.to_nat (b_size b + n) = Z.to_nat (b_size b) + length bs); [lia|].
    rw take_splice_end //. lia. }
  assert (Hct1 : content h1 (pre ++ [cur]) = header (w_raw w) data ++ data ++ bs).
  { rw content_insert // Hb1 content_nil app_nil_r !app_assoc -Wct. f_equal.
    rw content_app (content_cons _ _ _ _ Hb) content_nil app_nil_r //. }
  assert (Hsz : ∀ l b', l ∈ pre ++ [cur] → h1 !! l = Some b' → (0 ≤ b_size b' ≤ capacity b')%Z).
  { intros l b' Hl Hb'. destruct (decide (l = cur)) as [->|].
    - rw /h1 lookup_insert_eq in Hb'. injection Hb' as <-. rw Hsz1. simpl. lia.
    - rw /h1 lookup_insert_ne // in Hb'. destruct (Wwf l Hl) as (? & ? & Hx).
      simplify_eq. by destruct Hx. }
  assert (Hbuf : ∃ l ls, w_buf w = Some l ∧ pre ++ [cur] = l :: ls).
  { rw Wbuf. destruct pre as [|l0 pre]; simpl; eauto. }
  (* the heap after the length field has been updated *)
  assert (Hlenset : wp (match w_len w with
      | Some _ => n0 ← len_get (w_len w); len_set (w_len w) (u32 (n0 + n))
      | None => mret tt end) h1 (λ _ h2, hshape h1 h2 ∧
        content h2 (pre ++ [cur]) = header (w_raw w) (data ++ bs) ++ data ++ bs ∧
        (∀ l, b_size <$> h2 !! l = b_size <$> h1 !! l) ∧
        (∀ l, l ∉ pre ++ [cur] → h2 !! l = h1 !! l))).
  { rw Wlen. destruct (w_raw w) eqn:Hraw; [by wp_step|].
    destruct Hbuf as (l & ls & Hl & Hls). rw Hl. wp_step.
    destruct (Whd eq_refl) as (l' & b0 & Hl' & Hb0 & H4). assert (l' = l) as -> by congruence.
    destruct (hshape_lookup h h1 l b0 Hs1 Hb0) as (b0' & Hb0' & Hsh0).
    destruct (Wwf l) as (? & ? & Hb0w); [rw Hls; by left|]. simplify_eq.
    assert (Hsz0 : (4 ≤ b_size b0')%Z).
    { destruct (decide (l = cur)) as [->|].
      - rw /h1 lookup_insert_eq in Hb0'. simplify_eq. rw Hsz1. lia.
      - rw /h1 lookup_insert_ne // in Hb0'. by simplify_eq. }
    assert (Hw0 : buf_wf b0').
    { destruct (wf_shape h h1 _ Hs1 Wwf Hsz l) as (? & ? & ?); [rw Hls; by left|]. by simplify_eq. }
    pose proof Hw0 as (Hz & ? & Hbl0). pose proof (length_bdata b0' Hw0) as Hlb0.
    assert (Hfirst : slice 0 4 (buf b0') = le_bytes 4 (Z.of_nat (length data))).
    { rw slice_bdata; [lia|]. rw drop_0 -(take_app_le _ (content h1 ls)); [lia|].
      rw -(content_cons _ _ _ _ Hb0') -Hls Hct1 /header take_app_length' //. }
    rw /len_get. wp_step. eapply wp_buf_read; [done|lia|]. wp_step.
    change (Z.to_nat 0) with 0. change (Z.to_nat 4) with 4. rw Hfirst le_le_bytes.
    { change (2 ^ (8 * Z.of_nat 4))%Z with (2 ^ 32)%Z. lia. }
    rw u32_small; [lia|]. rw /len_set.
    eapply wp_buf_write; [done|rw length_le_bytes; lia|].
    set (hd := le_bytes 4 _). change (Z.to_nat 0) with 0. split_and!.
    - eapply hshape_insert; [done|]. apply bshape_bytes, length_splice. rw length_le_bytes. lia.
    - rw Hls in Wnd. rw Hls in Hct1 *.
      rw (content_splice h1 l b0' [] ls 0 hd Wnd Hb0' Hw0) ?length_le_bytes; [lia|].
      change (content h1 ([] ++ l :: ls)) with (content h1 (l :: ls)).
      change (length (content h1 []) + 0) with 0. rw Hct1 -header_app. f_equal.
      rw /hd. f_equal. rw length_app. lia.
    - intros l'. rw lookup_insert. case_decide; [subst; by rw Hb0'|done].
    - intros l' Hl''. rw lookup_insert_ne //. intros <-. apply Hl''. rw Hls. by left. }
  wp_step. eapply wp_mono; [exact Hlenset|]. cbv beta. intros _ h2 (Hs2 & Hct2 & Hsz2 & Hfr2).
  wp_step. assert (Hs : hshape h h2) by by etrans.
  assert (Hsize2 : ∀ l b2, h2 !! l = Some b2 → ∃ b1, h1 !! l = Some b1 ∧ b_size b1 = b_size b2).
  { intros l b2 Hb2. pose proof (Hsz2 l) as Heq. rw Hb2 in Heq.
    destruct (h1 !! l); [|done]. eexists. split; [done|]. by injection Heq. }
  assert (Hback : ∀ l b, h1 !! l = Some b → ∃ b2, h2 !! l = Some b2 ∧ b_size b2 = b_size b ∧
    capacity b2 = capacity b).
  { intros l b2 Hb2. destruct (hshape_lookup h1 h2 l b2 Hs2 Hb2) as (b3 & Hb3 & Hsh).
    exists b3. pose proof (Hsz2 l) as Heq. rw Hb2 Hb3 in Heq. injection Heq. by injection Hsh. }
  split; [|split_and!; try done].
  2: { simpl. apply u32_small. lia. }
  2: { intros l Hl. rw Hfr2 // /h1 lookup_insert_ne //. set_solver. }
  split; simpl; try done.
  - by eapply hshape_chain.
  - apply (wf_shape h); [done..|]. intros l b2 Hl Hb2.
    destruct (Hsize2 l b2 Hb2) as (b3 & Hb3 & <-). pose proof (Hsz l b3 Hl Hb3).
    destruct (Hback l b3 Hb3) as (b4 & Hb4 & _ & Hcp).
    assert (b4 = b2) as -> by congruence. by rw Hcp.
  - destruct (Hback cur b1) as (b2 & Hb2 & Hs' & _); [apply lookup_insert_eq|].
    exists b2. split; [done|]. rw Hs' Hsz1 u32_small; lia.
  - intros l Hl. destruct (Wfull l Hl) as (b3 & Hb3 & Hf). destruct (Hback l b3) as (b2 & ? & ? & ?).
    { rw /h1 lookup_insert_ne //. apply NoDup_app in Wnd as (_ & Hd & _). intros <-.
      eapply Hd; [done|set_solver]. }
    exists b2. split; [done|congruence].
  - by eapply refs_shape.
  - rw Hds u32_small; [destruct (w_raw w); lia|]. rw !length_app /header.
    destruct (w_raw w); rw ?length_le_bytes /=; lia.
  - intros Hraw. destruct (Whd Hraw) as (l & b0 & ? & Hb0 & ?). exists l.
    destruct (decide (l = cur)) as [->|].
    + destruct (Hback cur b1) as (b2 & Hb2 & Hs' & _); [apply lookup_insert_eq|].
      exists b2. split; [done|]. split; [done|]. simplify_eq. lia.
    + destruct (Hback l b0) as (b2 & Hb2 & Hs' & _); [by rw /h1 lookup_insert_ne|].
      exists b2. split; [done|]. split; [done|]. lia.
Qed.

(** *** The write loop *)

Lemma hshape_caps h h' : hshape h h' → caps h h'.
Proof.
  intros Hs l b Hl. destruct (hshape_lookup _ _ _ _ Hs Hl) as (b' & Hb' & Heq).
  exists b'. split; [done|]. by injection Heq.
Qed.

Lemma frame_same h h' ls : (∀ l, l ∉ ls → h' !! l = h !! l) → hshape h h' → frame h h' ls ls.
Proof.
  split; [|split; [done|by apply hshape_caps]].
  exists []. split; [by rw app_nil_r|by intros ? ?%not_elem_of_nil].
Qed.

Lemma frame_refl h ls : frame h h ls ls.
Proof. by apply frame_same. Qed.

Lemma frame_trans h1 h2 h3 ls1 ls2 ls3 :
  (∀ l, l ∈ ls2 → is_Some (h2 !! l)) → frame h1 h2 ls1 ls2 → frame h2 h3 ls2 ls3 → frame h1 h3 ls1 ls3.
Proof.
  intros Hin ((n1 & -> & Hn1) & H12 & C12) ((n2 & -> & Hn2) & H23 & C23). split; [|split].
  - exists (n1 ++ n2). split; [by rw app_assoc|].
    intros l [?|Hl]%elem_of_app; [by apply Hn1|]. rw -H12; [|by apply Hn2].
    intros Hl'. destruct (Hin l Hl') as [x Hx]. by rw (Hn2 l Hl) in Hx.
  - intros l Hl. rw H23 // H12 //. set_solver.
  - intros l b Hl. destruct (C12 l b Hl) as (b2 & Hb2 & <-). by apply C23.
Qed.

Lemma wp_rep_allocated h w pre cur data l : wp_rep h w pre cur data → l ∈ pre ++ [cur] →
  is_Some (h !! l).
Proof. intros Hw. apply (chain_lookup _ _ _ _ _ (wr_chain _ _ _ _ _ Hw)). Qed.

(** The current buffer, and what is left of it. *)
Lemma wp_rep_cur h w pre cur data : wp_rep h w pre cur data →
  ∃ b, h !! cur = Some b ∧ (0 ≤ w_wpos w ≤ capacity b)%Z ∧ (capacity b + 32 < 2 ^ 32)%Z ∧
    room h w = (capacity b - w_wpos w + growth 8 (w_factor w))%Z.
Proof.
  intros Hw. destruct (wr_cur _ _ _ _ _ Hw) as (b & Hb & Hs). exists b. split; [done|].
  destruct (wr_wf _ _ _ _ _ Hw cur) as (b' & Hb' & Hbw); [set_solver|]. simplify_eq.
  destruct Hbw as (? & ? & _). split; [lia|]. split; [done|].
  by rw /room (wr_writebuf _ _ _ _ _ Hw) Hb.
Qed.

(** What one iteration establishes: the first [n] bytes have been appended. *)
Definition appended (h : bufs) (w : wpacket) (ls : list loc) (data bs : list Z)
    (h' : bufs) (w' : wpacket) : Prop :=
  ∃ pre' cur', wp_rep h' w' pre' cur' (data ++ bs) ∧ same_packet w w' ∧
    frame h h' ls (pre' ++ [cur']) ∧ room h' w' = (room h w - Z.of_nat (length bs))%Z.

Lemma appended_trans h w pre cur data bs1 h1 w1 bs2 h2 w2 :
  wp_rep h w pre cur data →
  appended h w (pre ++ [cur]) data bs1 h1 w1 →
  (∀ pre1 cur1, wp_rep h1 w1 pre1 cur1 (data ++ bs1) →
     appended h1 w1 (pre1 ++ [cur1]) (data ++ bs1) bs2 h2 w2) →
  appended h w (pre ++ [cur]) data (bs1 ++ bs2) h2 w2.
Proof.
  intros Hw (pre1 & cur1 & Hw1 & Hs1 & Hf1 & Hr1) H2.
  destruct (H2 _ _ Hw1) as (pre2 & cur2 & Hw2 & Hs2 & Hf2 & Hr2).
  exists pre2, cur2. rw app_assoc. split; [done|]. split; [by etrans|].
  split; [|rw length_app; lia].
  eapply frame_trans; [|done..]. intros l. by apply (wp_rep_allocated _ _ _ _ _ _ Hw1).
Qed.

Lemma write_body_ok h w pre cur data bs : wp_rep h w pre cur data → bs ≠ [] →
  (Z.of_nat (length data + length bs) + 4 < 2 ^ 32)%Z → (0 < room h w)%Z →
  wp (write_body (w, bs)) h (λ r h', ∃ w' n, r = inl (w', drop n bs) ∧ 0 < n ≤ length bs ∧
    appended h w (pre ++ [cur]) data (take n bs) h' w').
Proof.
  intros Hw Hbs Hlen Hroom. destruct (wp_rep_cur _ _ _ _ _ Hw) as (b & Hb & Hpos & Hcap & Hr).
  assert (Hpbs : 0 < length bs) by (destruct bs; simpl; [done|lia]).
  rw /write_body. wp_step. rw (wr_writebuf _ _ _ _ _ Hw). wp_step. wp_step. wp_step.
  rw u32_small; [lia|].
  apply wp_mono with (P := λ w1 h1, ∃ pre1 cur1 b1, wp_rep h1 w1 pre1 cur1 data ∧
    same_packet w w1 ∧ frame h h1 (pre ++ [cur]) (pre1 ++ [cur1]) ∧ room h1 w1 = room h w ∧
    h1 !! cur1 = Some b1 ∧ (0 ≤ w_wpos w1 < capacity b1)%Z ∧ (capacity b1 + 32 < 2 ^ 32)%Z).
  { destruct (Z.eqb_spec (capacity b - w_wpos w) 0) as [Hz|Hz].
    - eapply wp_mono; [eapply wpacket_expand_ok; [done|by exists b; split; [|lia]]|].
      cbv beta zeta. intros w1 h1 (nl & Hnl & Hw1 & Hsame & Hf & Hp1 & (b1 & Hb1 & Hc1) & Hfr).
      exists (pre ++ [cur]), nl, b1.
      assert (0 < u8 (2 * w_factor w))%Z as Hpos' by (apply growth_pos; lia).
      pose proof (u8_range (2 * w_factor w)).
      split_and!; try done; [|lia..].
      rw Hr /room (wr_writebuf _ _ _ _ _ Hw1) Hb1 Hc1 Hf Hp1 growth_8. lia.
    - wp_step. exists pre, cur, b. split_and!; try done; [apply frame_refl|lia..]. }
  cbv beta. intros w1 h1 (pre1 & cur1 & b1 & Hw1 & Hsame & Hfr & Hr1 & Hb1 & Hp1 & Hc1).
  wp_step. rw (wr_writebuf _ _ _ _ _ Hw1). wp_step. rw u32_small; [lia|].
  set (n := Z.to_nat (Z.min _ _)).
  assert (Hn : 0 < n ≤ length bs) by lia.
  assert (Htake : length (take n bs) = n) by (rw length_take; lia).
  wp_step. eapply wp_mono; [eapply (write_copy_ok _ _ _ _ _ _ b1); [done|done|lia|lia]|].
  cbv beta. intros w2 h2 (Hw2 & Hsame2 & Hf2 & Hp2 & Hsh & Hfr2).
  wp_step. exists w2, n. split; [done|]. split; [done|]. exists pre1, cur1.
  split; [done|]. split; [by etrans|]. split.
  - eapply frame_trans; [|done|by apply frame_same].
    intros l. by apply (wp_rep_allocated _ _ _ _ _ _ Hw1).
  - rw -Hr1. destruct (wp_rep_cur _ _ _ _ _ Hw1) as (b1' & ? & _ & _ & ->).
    destruct (wp_rep_cur _ _ _ _ _ Hw2) as (b2 & Hb2 & _ & _ & ->).
    destruct (hshape_lookup _ _ _ _ Hsh Hb1) as (b2' & Hb2' & Hsb).
    injection Hsb as _ _ Hcc _. assert (b2' = b2) as -> by congruence.
    assert (b1' = b1) as -> by congruence. rw Hcc Hf2 Hp2 Htake. lia.
Qed.

Lemma wpacket_write_ok h w pre cur data bs : wp_rep h w pre cur data →
  (Z.of_nat (length data + length bs) + 4 < 2 ^ 32)%Z → (Z.of_nat (length bs) ≤ room h w)%Z →
  wp (wpacket_write w bs) h (λ w' h', appended h w (pre ++ [cur]) data bs h' w').
Proof.
  intros Hw Hlen Hroom. rw /wpacket_write (wr_writebuf _ _ _ _ _ Hw). wp_step. wp_step.
  eapply (wp_loop (λ k '(w1, bs1) h1, ∃ bs0, k = length bs1 ∧ bs = bs0 ++ bs1 ∧
    appended h w (pre ++ [cur]) data bs0 h1 w1) _ _ (length bs)); [| |lia].
  2: { exists []. split; [done|]. split; [done|]. exists pre, cur. rw app_nil_r.
    split; [done|]. split; [done|]. split; [apply frame_refl|]. simpl. lia. }
  intros k [w1 bs1] h1 (bs0 & -> & Heq & Happ). subst bs. rw length_app in Hlen Hroom.
  destruct (decide (bs1 = [])) as [->|Hne].
  { rw app_nil_r. rw /write_body. by wp_step. }
  pose proof Happ as (pre1 & cur1 & Hw1 & _ & _ & Hr1).
  assert (0 < length bs1) by (destruct bs1; simpl; [done|lia]).
  eapply wp_mono; [eapply write_body_ok; [done|done|rw length_app; lia|lia]|].
  cbv beta. intros r h2 (w2 & n & -> & Hn & Happ2).
  exists (length bs1 - n). split; [lia|]. exists (bs0 ++ take n bs1).
  split; [by rw length_drop|]. split; [by rw -app_assoc take_drop|].
  eapply appended_trans; [done|done|]. intros pre1' cur1' Hw1'.
  enough (pre1' ++ [cur1'] = pre1 ++ [cur1]) as -> by done.
  pose proof (wr_chain _ _ _ _ _ Hw1) as C1. pose proof (wr_chain _ _ _ _ _ Hw1') as C2.
  by eapply chain_det.
Qed.

(** *** Creation *)

Lemma wpacket_create_ok h m size raw : let cap := GetSize_of_pow2 size in
  (0 ≤ cap)%Z → (cap + 32 < 2 ^ 32)%Z → (raw = false → 4 ≤ cap)%Z →
  wp (wpacket_create m size raw) h (λ w h', ∃ l, h !! l = None ∧ wp_rep h' w [] l [] ∧
    room h' w = (cap - (if raw then 0 else 4) + growth 8 (u8 cap))%Z ∧
    w_raw w = raw ∧ w_mt w = m ∧ w_begin_pos w = 0%Z ∧
    (∃ b, h' !! l = Some b ∧ capacity b = cap) ∧ ∀ l', l' ≠ l → h' !! l' = h !! l').
Proof.
  intros cap Hc0 Hc1 Hc4. pose proof (u8_range cap). rw /wpacket_create. fold cap. wp_step.
  apply wp_buffer_create_and_acquire; [done..|]. intros l Hl.
  set (b := Buffer _ _ _ _ _). wp_step. eapply wp_buffer_acquire_null; [apply lookup_insert_eq|done|].
  rw insert_insert_eq.
  assert (Hrep : ∀ b' w, b_next b' = NULL → rc b' = 2%Z → capacity b' = cap →
    length (buf b') = Z.to_nat cap → b_size b' = (if raw then 0 else 4)%Z →
    bdata b' = header raw [] → w_wpos w = b_size b' → w_buf w = Some l → w_writebuf w = Some l →
    w_len w = (if raw then NULL else Some l) → w_factor w = u8 cap → data_size w = b_size b' →
    w_raw w = raw →
    wp_rep (<[l := b']> h) w [] l [] ∧
    room (<[l := b']> h) w = (cap - (if raw then 0 else 4) + growth 8 (u8 cap))%Z).
  { intros b' w Hn Hr Hcap Hlen Hsz Hdata Hwp Hwb Hww Hwl Hwf Hds Hraw.
    assert (Hb' : <[l := b']> h !! l = Some b') by apply lookup_insert_eq.
    assert (Hlook : ∀ P : buffer → Prop, P b' → ∀ l', l' ∈ [] ++ [l] →
      ∃ b0, <[l := b']> h !! l' = Some b0 ∧ P b0).
    { intros P HP l' ->%list_elem_of_singleton. eauto. }
    split; [split|]; try done.
    - by rw Hwl Hwb Hraw.
    - rw Hwb. split; [done|]. by exists b'.
    - apply NoDup_singleton.
    - intros l' Hl'. apply (Hlook buf_wf); [|done]. split; [|split; [lia|by rw Hcap]]. rw Hsz Hcap. destruct raw; lia.
    - by exists b'.
    - intros ? ?%not_elem_of_nil. done.
    - intros l' Hl'. pose proof Hl' as ->%list_elem_of_singleton. rw decide_True //.
      exists b'. split; [done|]. lia.
    - rw (content_cons _ _ _ _ Hb') content_nil Hraw Hdata. by rw !app_nil_r.
    - rw Hds Hsz app_nil_r Hraw. by destruct raw.
    - intros Hf. exists l, b'. split; [done|]. split; [done|]. rw Hsz -Hraw Hf. lia.
    - by rw Hwf.
    - rw /room Hww Hb' Hcap Hwp Hsz Hwf. lia. }
  assert (Hother : ∀ b' : buffer, ∀ l', l' ≠ l → <[l := b']> h !! l' = h !! l').
  { intros. by rw lookup_insert_ne. }
  destruct raw.
  - wp_step. eapply wp_hmodify; [apply lookup_insert_eq|]. rw insert_insert_eq. wp_step.
    exists l. split; [done|].
    match goal with |- wp_rep ?h' ?w _ _ _ ∧ _ =>
      destruct (Hrep (with_bsize 0 (ref_add 1 b)) w) as [? ?]; try done end.
    + by rw /b /= length_replicate.
    + split_and!; try done; [by eexists; split; [apply lookup_insert_eq|]|by apply Hother].
  - specialize (Hc4 eq_refl). wp_step. rw /len_set.
    eapply wp_buf_write; [apply lookup_insert_eq|rw length_le_bytes /b /= length_replicate; lia|].
    rw insert_insert_eq. wp_step. eapply wp_hmodify; [apply lookup_insert_eq|].
    rw insert_insert_eq. wp_step. exists l. split; [done|].
    match goal with |- wp_rep (<[_ := ?b']> _) ?w _ _ _ ∧ _ =>
      destruct (Hrep b' w) as [? ?]; try done end.
    + change (length (splice 0 (le_bytes 4 0) (replicate (Z.to_nat cap) 0%Z)) = Z.to_nat cap).
      rw length_splice length_replicate // length_le_bytes. lia.
    + split_and!; try done; [by eexists; split; [apply lookup_insert_eq|]|by apply Hother].
Qed.

(** C12: writing to a packet appends the bytes to its payload, extending the
    chain by as many buffers as needed, whenever the packet has room for them:
    the call ends without a fault, the length field, the sizes and the links
    represent the longer payload, buffers of other packets are untouched and
    the room shrinks by what was written. *)
Theorem wpacket_write_appends h w pre cur data bs : wp_rep h w pre cur data →
  (Z.of_nat (length data + length bs) + 4 < 2 ^ 32)%Z → (Z.of_nat (length bs) ≤ room h w)%Z →
  ∃ w' h' pre' cur', wpacket_write w bs h = Ok (w', h') ∧
    wp_rep h' w' pre' cur' (data ++ bs) ∧ same_packet w w' ∧
    frame h h' (pre ++ [cur]) (pre' ++ [cur']) ∧
    room h' w' = (room h w - Z.of_nat (length bs))%Z.
Proof.
  intros Hw Hlen Hroom.
  destruct (wp_ok _ _ _ (wpacket_write_ok _ _ _ _ _ _ Hw Hlen Hroom))
    as (w' & h' & Hrun & pre' & cur' & ?). by exists w', h', pre', cur'.
Qed.

(** A new packet of 8 bytes, to which 20 bytes are written. *)
Lemma wpacket_write_appends_witness : ∃ w h l w' h' pre' cur',
  wpacket_create false 8 false ∅ = Ok (w, h) ∧ wp_rep h w [] l [] ∧
  wpacket_write w (replicate 20 7%Z) h = Ok (w', h') ∧
  wp_rep h' w' pre' cur' (replicate 20 7%Z) ∧ room h' w' = 224%Z.
Proof.
  destruct (wp_ok _ _ _ (wpacket_create_ok ∅ false 8 false ltac:(vm_compute; done)
    ltac:(vm_compute; done) ltac:(vm_compute; done))) as (w & h & Hc & l & _ & Hw & Hr & _).
  assert (Hr' : room h w = 244%Z) by (rw Hr; by vm_compute).
  destruct (wpacket_write_appends h w [] l [] (replicate 20 7%Z) Hw) as (w' & h' & pre' & cur' & H).
  - done.
  - rw Hr'. by vm_compute.
  - exists w, h, l, w', h', pre', cur'. rw Hr' in H. by destruct H as (? & ? & _ & _ & ?).
Defined.

(** *** A packet without room *)

Lemma write_body_stuck h w pre cur data bs : wp_rep h w pre cur data → bs ≠ [] →
  (Z.of_nat (length data + length bs) + 4 < 2 ^ 32)%Z → room h w = 0%Z →
  wp (write_body (w, bs)) h (λ r h', ∃ w' pre' cur', r = inl (w', bs) ∧
    wp_rep h' w' pre' cur' data ∧ room h' w' = 0%Z).
Proof.
  intros Hw Hbs Hlen Hroom. destruct (wp_rep_cur _ _ _ _ _ Hw) as (b & Hb & Hpos & Hcap & Hr).
  pose proof (growth_nonneg 8 (w_factor w)).
  assert (Hf0 : u8 (2 * w_factor w) = 0%Z).
  { pose proof (u8_range (2 * w_factor w)). pose proof (growth_nonneg 7 (u8 (2 * w_factor w))).
    change (growth 8 (w_factor w))
      with (u8 (2 * w_factor w) + growth 7 (u8 (2 * w_factor w)))%Z in *. lia. }
  rw /write_body. wp_step. rw (wr_writebuf _ _ _ _ _ Hw). wp_step. wp_step. wp_step.
  rw u32_small; [lia|]. rw (_ : capacity b - w_wpos w = 0)%Z; [lia|]. rw Z.eqb_refl.
  eapply wp_mono; [eapply wpacket_expand_ok; [done|by exists b; split; [|lia]]|].
  cbv beta zeta. intros w1 h1 (nl & Hnl & Hw1 & Hsame & Hf & Hp1 & (b1 & Hb1 & Hc1) & Hfr).
  rw Hf0 in Hf Hc1. wp_step. rw (wr_writebuf _ _ _ _ _ Hw1). wp_step.
  rw Hc1 Hp1. change (u32 (0 - 0)) with 0%Z. rw Z.min_l; [lia|]. change (Z.to_nat 0) with 0.
  rw take_0 drop_0. wp_step.
  eapply wp_mono; [eapply (write_copy_ok _ _ _ _ _ _ b1); [done|done|simpl; lia|simpl; lia]|].
  cbv beta. intros w2 h2 (Hw2 & Hsame2 & Hf2 & Hp2 & Hsh & Hfr2). wp_step.
  exists w2, (pre ++ [cur]), nl. split; [done|]. rw app_nil_r in Hw2. split; [done|].
  destruct (wp_rep_cur _ _ _ _ _ Hw2) as (b2 & Hb2 & _ & _ & ->).
  destruct (hshape_lookup _ _ _ _ Hsh Hb1) as (b2' & Hb2' & Hsb). injection Hsb as _ _ Hcc _.
  assert (b2' = b2) as -> by congruence. rw Hcc Hc1 Hp2 Hp1 Hf2 Hf. by vm_compute.
Qed.

(** C13: a write that exceeds the room of its packet never ends: the factor by
    which the packet grows is kept in 8 bits, so after at most eight doublings
    it is 0, and the loop goes on adding buffers of no capacity.  No number of
    iterations is enough. *)
Theorem wpacket_write_diverges h w pre cur data bs fuel : wp_rep h w pre cur data →
  (Z.of_nat (length data + length bs) + 4 < 2 ^ 32)%Z → (room h w < Z.of_nat (length bs))%Z →
  loop fuel write_body (w, bs) h = Fault NoFuel.
Proof.
  revert h w pre cur data bs. induction fuel as [|fuel IH]; intros h w pre cur data bs Hw Hlen Hroom;
    [done|]. cbn [loop]. rw /mbind /M_bind.
  destruct (wp_rep_cur _ _ _ _ _ Hw) as (b & Hb & Hpos & Hcap & Hr).
  pose proof (growth_nonneg 8 (w_factor w)).
  assert (Hne : bs ≠ []) by (intros ->; simpl in Hroom; lia).
  destruct (Z.eq_dec (room h w) 0%Z) as [Hz|Hz].
  - destruct (wp_ok _ _ _ (write_body_stuck _ _ _ _ _ _ Hw Hne Hlen Hz))
      as (r & h' & -> & w' & pre' & cur' & -> & Hw' & Hr'). eapply IH; [done|done|lia].
  - destruct (wp_ok _ _ _ (write_body_ok _ _ _ _ _ _ Hw Hne Hlen ltac:(lia)))
      as (r & h' & -> & w' & n & -> & Hn & pre' & cur' & Hw' & _ & _ & Hr').
    rw length_take_le in Hr'; [lia|]. eapply IH; [done| |].
    + rw length_app length_take length_drop. lia.
    + rw length_drop. lia.
Qed.

(** 128 bytes requested, 129 needed with the header: the first expansion
    already has capacity 0. *)
Lemma wpacket_write_diverges_witness : ∃ w h,
  wpacket_create false 128 false ∅ = Ok (w, h) ∧
  loop 1000 write_body (w, replicate 125 7%Z) h = Fault NoFuel.
Proof.
  destruct (wp_ok _ _ _ (wpacket_create_ok ∅ false 128 false ltac:(vm_compute; done)
    ltac:(vm_compute; done) ltac:(vm_compute; done))) as (w & h & Hc & l & _ & Hw & Hr & _).
  assert (Hr' : room h w = 124%Z) by (rw Hr; by vm_compute).
  exists w, h. split; [done|]. apply (wpacket_write_diverges h w [] l []); [done|done|].
  rw Hr'. by vm_compute.
Defined.
