(* ===== verification/RPacket.v ===== *)
(** * Packets being read ([src/src/rpacket.c], [src/include/rpacket.h])

    An [rpacket] reads its payload out of a chain of buffers, taking a reference
    to the buffer its read position is in.  Binary data that lies in one buffer
    is returned in place; data that spans buffers is first copied into [binbuf].
    [rp_rep h r ls rest] says that the packet [r] still has the bytes [rest] to
    be read, and that [ls] are the buffers from the current one on. *)
From S2P Require Import Prelude Buffer WPacket.

(** ** Operations *)

Definition with_pos (p n : Z) (r : rpacket) : rpacket :=
  RPacket (r_len r) p n (binbufpos r) (r_begin_pos r) (binbuf r) (r_buf r) (readbuf r)
    (r_raw r) (r_mt r).
Definition with_readbuf (p : ptr) (pos : Z) (r : rpacket) : rpacket :=
  RPacket (r_len r) pos (data_remain r) (binbufpos r) (r_begin_pos r) (binbuf r) (r_buf r) p
    (r_raw r) (r_mt r).
Definition with_binbuf (p : ptr) (pos : Z) (r : rpacket) : rpacket :=
  RPacket (r_len r) (rpos r) (data_remain r) pos (r_begin_pos r) p (r_buf r) (readbuf r)
    (r_raw r) (r_mt r).

Definition rpacket_create (mt : bool) (b : ptr) (pos pk_len : Z) (is_raw : bool) : M bufs rpacket :=
  r_buf ← buffer_acquire NULL b;
  readbuf ← buffer_acquire NULL b;
  mret (RPacket pk_len (if is_raw then pos else u32 (pos + 4)) pk_len 0 pos NULL r_buf readbuf
          is_raw mt).

Definition rpacket_create_by_wpacket (w : wpacket) : M bufs rpacket :=
  r_buf ← buffer_acquire NULL (w_buf w);
  readbuf ← buffer_acquire NULL (w_buf w);
  if w_raw w then
    mret (RPacket (data_size w) (w_begin_pos w) (data_size w) 0 (w_begin_pos w) NULL r_buf readbuf
            true (w_mt w))
  else
    let len := u32 (data_size w - 4) in
    b ← hload readbuf;
    if (4 <? u32 (b_size b - w_begin_pos w))%Z then
      mret (RPacket len (u32 (w_begin_pos w + 4)) len 0 (w_begin_pos w) NULL r_buf readbuf
              false (w_mt w))
    else
      readbuf ← buffer_acquire readbuf (b_next b);
      mret (RPacket len 4 len 0 (w_begin_pos w) NULL r_buf readbuf false (w_mt w)).

Definition rpacket_destroy (r : rpacket) : M bufs () :=
  buffer_release (r_buf r);; buffer_release (readbuf r);; buffer_release (binbuf r).

Definition rpacket_len (r : rpacket) : Z := r_len r.
Definition rpacket_data_remain (r : rpacket) : Z := data_remain r.

(** [size - rpos] clipped to what is wanted. *)
Definition clip (b : buffer) (r : rpacket) (size : Z) : Z :=
  Z.min (u32 (b_size b - rpos r)) size.

(** The position moves by [copy_size]; at the end of a buffer, when data
    remain, to the next buffer. *)
Definition rpacket_advance (r : rpacket) (b : buffer) (copy_size : Z) : M bufs rpacket :=
  let r := with_pos (u32 (rpos r + copy_size)) (u32 (data_remain r - copy_size)) r in
  if ((b_size b <=? rpos r) && negb (data_remain r =? 0))%Z then
    p ← buffer_acquire (readbuf r) (b_next b);
    mret (with_readbuf p 0 r)
  else mret r.

(** One iteration of [while(size>0)]. *)
Definition read_body (x : rpacket * Z * list Z) :
    M bufs ((rpacket * Z * list Z) + rpacket * list Z) :=
  let '(r, size, out) := x in
  if (size =? 0)%Z then mret (inr (r, out))
  else
    b ← hload (readbuf r);
    let copy_size := clip b r size in
    bs ← buf_read (readbuf r) (rpos r) copy_size;
    r ← rpacket_advance r b copy_size;
    mret (inl (r, (size - copy_size)%Z, out ++ bs)).

(** The return value and the bytes written to [out]. *)
Definition rpacket_read (r : rpacket) (size : Z) : M bufs (rpacket * Z * list Z) :=
  if (data_remain r <? size)%Z then mret (r, (-1)%Z, [])
  else
    n ← gets base.size;
    '(r, out) ← loop (2 + n + Z.to_nat size) read_body (r, size, []);
    mret (r, 0%Z, out).

(** The value is 0 when the read fails. *)
Definition rpacket_read_uint (n : nat) (r : rpacket) : M bufs (rpacket * Z) :=
  '(r, _, out) ← rpacket_read r (Z.of_nat n); mret (r, le out).

Definition rpacket_read_uint8 := rpacket_read_uint 1.
Definition rpacket_read_uint16 := rpacket_read_uint 2.
Definition rpacket_read_uint32 := rpacket_read_uint 4.
Definition rpacket_read_uint64 := rpacket_read_uint 8.
(** A [double] is its 64-bit pattern. *)
Definition rpacket_read_double := rpacket_read_uint 8.

(** One iteration of the copy into [binbuf]. *)
Definition binbuf_body (x : rpacket * Z) : M bufs ((rpacket * Z) + rpacket) :=
  let '(r, size) := x in
  if (size =? 0)%Z then mret (inr r)
  else
    b ← hload (readbuf r);
    let copy_size := clip b r size in
    bs ← buf_read (readbuf r) (rpos r) copy_size;
    buf_write (binbuf r) (binbufpos r) bs;;
    r ← rpacket_advance (with_binbuf (binbuf r) (u32 (binbufpos r + copy_size)) r) b copy_size;
    mret (inl (r, (size - copy_size)%Z)).

(** The address of a result: a buffer and an offset into its bytes. *)
Abbreviation addr := (option (ptr * Z)).

(** The copy of [size] bytes into [binbuf], which is created on first use. *)
Definition read_spanning (r : rpacket) (size : Z) : M bufs (rpacket * addr) :=
  r ← match binbuf r with
      | None => p ← buffer_create_and_acquire (r_mt r) NULL (r_len r); mret (with_binbuf p 0 r)
      | Some _ => mret r
      end;
  let a := Some (binbuf r, binbufpos r) in
  n ← gets base.size;
  r ← loop (2 + n + Z.to_nat size) binbuf_body (r, size);
  mret (r, a).

(** The results are the address and [*len], which one branch does not set. *)
Definition rpacket_raw_read_binary (r : rpacket) (len : Z) : M bufs (rpacket * addr * Z) :=
  if (data_remain r =? 0)%Z then mret (r, None, len)
  else
    b ← hload (readbuf r);
    if (data_remain r <=? u32 (b_size b - rpos r))%Z then
      (* [data_remain] is cleared before it is added to [rpos] *)
      let r' := with_pos (rpos r) 0 r in
      mret (with_pos (u32 (rpos r + data_remain r')) 0 r', Some (readbuf r, rpos r), data_remain r)
    else
      '(r, a) ← read_spanning r (data_remain r); mret (r, a, len).

Definition rpacket_read_binary (r : rpacket) (len : Z) : M bufs (rpacket * addr * Z) :=
  if r_raw r then rpacket_raw_read_binary r len
  else
    '(r, size) ← rpacket_read_uint32 r;
    if ((data_remain r =? 0) || (data_remain r <? size))%Z then mret (r, None, size)
    else
      b ← hload (readbuf r);
      if (size <=? u32 (b_size b - rpos r))%Z then
        let a := Some (readbuf r, rpos r) in
        r ← rpacket_advance r b size;
        mret (r, a, size)
      else
        '(r, a) ← read_spanning r size; mret (r, a, size).

Definition rpacket_read_string (r : rpacket) : M bufs (rpacket * addr) :=
  '(r, a, _) ← (if r_raw r then rpacket_raw_read_binary r 0 else rpacket_read_binary r 0);
  mret (r, a).

(** ** The reading invariant *)

(** [h'] is [h] but for reference counts. *)
Definition bbody (b : buffer) : Z * Z * ptr * list Z := (capacity b, b_size b, b_next b, buf b).
Definition hbody (h h' : bufs) : Prop := ∀ l, bbody <$> h' !! l = bbody <$> h !! l.

#[export] Instance hbody_preorder : PreOrder hbody.
Proof. split; [done|]. intros h1 h2 h3 H12 H23 l. by rw H23 H12. Qed.

Lemma hbody_lookup h h' l b : hbody h h' → h !! l = Some b →
  ∃ b', h' !! l = Some b' ∧ bbody b' = bbody b.
Proof.
  intros Hs Hl. pose proof (Hs l) as H. rw Hl in H. destruct (h' !! l) as [b'|]; [|done].
  exists b'. split; [done|]. by apply (inj Some).
Qed.

Lemma hbody_chain h h' p ls q : hbody h h' → chain h p ls q → chain h' p ls q.
Proof.
  intros Hs. apply chain_ext. intros l _. pose proof (Hs l) as H.
  destruct (h' !! l), (h !! l); try done. apply (inj Some) in H. injection H as _ _ Hn _. by rw /= Hn.
Qed.

Lemma hbody_content h h' ls : hbody h h' → content h' ls = content h ls.
Proof.
  intros Hs. apply content_ext. intros l _. pose proof (Hs l) as H.
  destruct (h' !! l), (h !! l); try done. apply (inj Some) in H.
  injection H as _ Hz _ Hb. by rw /= /bdata Hz Hb.
Qed.

Lemma hbody_wf h h' ls : hbody h h' → chain_wf h ls → chain_wf h' ls.
Proof.
  intros Hs Hwf l Hl. destruct (Hwf l Hl) as (b & Hb & Hw).
  destruct (hbody_lookup _ _ _ _ Hs Hb) as (b' & Hb' & Heq). exists b'. split; [done|].
  injection Heq as Hc Hz _ Hbuf. by rw /buf_wf Hc Hz Hbuf.
Qed.

Lemma hbody_insert h l b d : h !! l = Some b → hbody h (<[l := ref_add d b]> h).
Proof. intros Hl l'. rw lookup_insert. case_decide; [subst; by rw Hl|done]. Qed.

(** Room for what is still to be copied into [binbuf]. *)
Definition binbuf_ok (h : bufs) (r : rpacket) (ls : list loc) (rest : list Z) : Prop :=
  match binbuf r with
  | Some l => l ∉ ls ∧ (0 ≤ binbufpos r)%Z ∧ (binbufpos r + Z.of_nat (length rest) ≤ r_len r)%Z ∧
      ∃ b, h !! l = Some b ∧ length (buf b) = Z.to_nat (r_len r)
  | None => True
  end.

(** The packet [r] is in the buffer [l], which is followed by [ls], and has
    [rest] still to be read. *)
Record rp_rep (h : bufs) (r : rpacket) (l : loc) (ls : list loc) (rest : list Z) : Prop := {
  rr_cur : readbuf r = Some l;
  rr_chain : chain h (Some l) (l :: ls) NULL;
  rr_nodup : NoDup (l :: ls);
  rr_wf : chain_wf h (l :: ls);
  rr_ref : ∃ b, h !! l = Some b ∧ (2 ≤ rc b < 2 ^ 31)%Z ∧ (0 ≤ rpos r ≤ b_size b)%Z;
  rr_refs : ∀ l', l' ∈ ls → ∃ b, h !! l' = Some b ∧ (1 ≤ rc b < 2 ^ 31 - 1)%Z;
  rr_remain : data_remain r = Z.of_nat (length rest);
  rr_data : ∃ tail, drop (Z.to_nat (rpos r)) (content h (l :: ls)) = rest ++ tail;
  rr_bin : binbuf_ok h r (l :: ls) rest;
  rr_len : (Z.of_nat (length rest) ≤ r_len r)%Z ∧ (r_len r + 32 < 2 ^ 32)%Z;
}.

(** What reading does not change. *)
Definition same_source (r r' : rpacket) : Prop :=
  r_len r' = r_len r ∧ r_raw r' = r_raw r ∧ r_mt r' = r_mt r ∧ r_buf r' = r_buf r ∧
  r_begin_pos r' = r_begin_pos r.

#[export] Instance same_source_preorder : PreOrder same_source.
Proof. split; rw /same_source; [done|]. intros ???; naive_solver congruence. Qed.

(** The bytes ahead in the current buffer. *)
Lemma bytes_ahead h r l ls rest b (c : nat) : rp_rep h r l ls rest → h !! l = Some b →
  c ≤ length rest → c ≤ Z.to_nat (b_size b - rpos r) →
  slice (Z.to_nat (rpos r)) c (buf b) = take c rest.
Proof.
  intros Hr Hb Hc1 Hc2. destruct (rr_ref _ _ _ _ _ Hr) as (b' & Hb' & _ & Hpos). simplify_eq.
  destruct (rr_wf _ _ _ _ _ Hr l ltac:(left)) as (b' & Hb'' & Hw). simplify_eq.
  pose proof (length_bdata b Hw). destruct (rr_data _ _ _ _ _ Hr) as (tail & Hd).
  rw slice_bdata; [lia|]. rw (content_cons _ _ _ _ Hb) drop_app_le in Hd; [lia|].
  rw -(take_app_le _ (content h ls)); [rw length_drop; lia|]. rw Hd take_app_le //.
Qed.

(** After [c] bytes of the current buffer: the packet stays in it when the
    bytes are all that was wanted or do not exhaust it, and else moves on. *)
Lemma rpacket_advance_ok h r l ls rest b c : rp_rep h r l ls rest → h !! l = Some b →
  (0 ≤ c)%Z → (c ≤ Z.of_nat (length rest))%Z → (c ≤ b_size b - rpos r)%Z →
  wp (rpacket_advance r b c) h (λ r' h', ∃ l' ls', rp_rep h' r' l' ls' (drop (Z.to_nat c) rest) ∧
    hbody h h' ∧ same_source r r' ∧ binbuf r' = binbuf r ∧ binbufpos r' = binbufpos r ∧
    (length ls' < length ls ∨
     ls' = ls ∧ (c = Z.of_nat (length rest) ∨ c < b_size b - rpos r)%Z)).
Proof.
  intros Hr Hb Hc0 Hc1 Hc2. pose proof Hr as [Rc Rch Rnd Rwf (b' & Hb' & Rref & Rpos) Rrefs Rrem (tail & Rdata) Rbin Rlen].
  simplify_eq. destruct (Rwf l ltac:(left)) as (b' & Hb'' & Hw). simplify_eq.
  pose proof Hw as (Hsz & Hcap & _). pose proof (length_bdata b Hw) as Hlb.
  rw /rpacket_advance /=. rw u32_small; [lia|]. rw Rrem u32_small; [lia|].
  set (r1 := with_pos _ _ r).
  assert (Hdata1 : drop (Z.to_nat (rpos r + c)) (content h (l :: ls)) = drop (Z.to_nat c) rest ++ tail).
  { rw Z2Nat.inj_add; [lia..|]. rw -drop_drop Rdata drop_app_le //. lia. }
  assert (Hbin1 : binbuf_ok h r1 (l :: ls) (drop (Z.to_nat c) rest)).
  { rw /binbuf_ok in Rbin *. rw /r1 /=. destruct (binbuf r) as [bb|]; [|done].
    destruct Rbin as (? & ? & ? & ?). split_and!; try done. rw length_drop. lia. }
  assert (Hstay : rp_rep h r1 l ls (drop (Z.to_nat c) rest)).
  { split; rw /r1 /=; try done.
    - exists b. split_and!; try done; lia.
    - rw length_drop. lia.
    - by exists tail.
    - rw length_drop. lia. }
  destruct ((b_size b <=? rpos r + c) && negb (Z.of_nat (length rest) - c =? 0))%Z eqn:Hmove.
  2: { wp_step. exists l, ls. split_and!; try done. right. split; [done|].
    destruct (Z.leb_spec (b_size b) (rpos r + c)); [|right; lia]. left.
    destruct (Z.eqb_spec (Z.of_nat (length rest) - c) 0); [lia|done]. }
  apply andb_prop in Hmove as [Hend%Z.leb_le Hrem%negb_true_iff%Z.eqb_neq].
  (* some bytes are left, so there is a next buffer *)
  assert (Hnext : content h ls = drop (Z.to_nat c) rest ++ tail).
  { rw -Hdata1 (content_cons _ _ _ _ Hb) drop_app_length' //. lia. }
  destruct ls as [|l' ls].
  { exfalso. apply (f_equal length) in Hnext. rw content_nil length_app length_drop /= in Hnext. lia. }
  destruct Rch as (_ & b0 & Hb0 & Hch). simplify_eq. pose proof Hch as (Hn & b' & Hb' & Hch').
  destruct (Rrefs l' ltac:(left)) as (b0 & ? & Hrc'). simplify_eq.
  apply NoDup_cons in Rnd as [Hnin Rnd]. assert (l ≠ l') as Hne by (intros ->; set_solver).
  wp_step. rw /= Rc Hn. eapply (wp_buffer_acquire_move l l' b b'); [done|done|done|lia|lia|].
  set (h' := <[l := _]> _).
  assert (Hbody : hbody h h').
  { etrans; [by apply (hbody_insert h l' b' 1)|]. apply hbody_insert. by rw lookup_insert_ne. }
  wp_step. exists l', ls. split; [|split_and!; try done; left; simpl; lia].
  split; simpl; try done.
  - apply (hbody_chain h h' (Some l') (l' :: ls) NULL Hbody). by rw -Hn.
  - eapply hbody_wf; [done|]. intros x Hx. apply Rwf. by right.
  - exists (ref_add 1 b'). split; [by rw /h' lookup_insert_ne // lookup_insert_eq|].
    destruct (Rwf l') as (? & ? & Hw'); [right; left|]. simplify_eq. destruct Hw' as (? & _ & _).
    split; [rw rc_ref_add; lia|simpl; lia].
  - intros x Hx. assert (x ≠ l) by (intros ->; set_solver).
    assert (x ≠ l') by (apply NoDup_cons in Rnd as [? _]; intros ->; set_solver).
    rw /h' !lookup_insert_ne //. apply Rrefs. by right.
  - rw length_drop. lia.
  - exists tail. by rw (hbody_content h h' _ Hbody) Hnext.
  - rw /binbuf_ok in Hbin1 *. simpl in *. destruct (binbuf r) as [bb|]; [|done].
    destruct Hbin1 as (Hb1 & ? & ? & bx & Hbx & ?). apply not_elem_of_cons in Hb1 as [? Hb1].
    split_and!; try done. exists bx. split; [|done]. rw /h' !lookup_insert_ne //. set_solver.
  - rw length_drop. lia.
Qed.

Lemma chain_length h p ls q : chain h p ls q → NoDup ls → length ls ≤ base.size h.
Proof.
  intros Hc Hnd. rw -(size_dom h) -(size_list_to_set (C := gset loc) ls Hnd). apply subseteq_size.
  intros l Hl%elem_of_list_to_set. apply elem_of_dom. by eapply chain_lookup.
Qed.

(** [rest] after a read of [n] bytes into [out]. *)
Definition consumed (rest : list Z) (n : nat) (out rest' : list Z) : Prop :=
  out = take n rest ∧ rest' = drop n rest.

(** The loop reads [n] bytes; it ends because every iteration finishes the
    request or moves on to the next buffer. *)
Lemma read_loop_ok h r l ls rest n fuel : rp_rep h r l ls rest → n ≤ length rest →
  n + length ls < fuel →
  wp (loop fuel read_body (r, Z.of_nat n, [])) h (λ '(r', out) h', out = take n rest ∧
    (∃ l' ls', rp_rep h' r' l' ls' (drop n rest)) ∧ hbody h h' ∧ same_source r r' ∧
    binbuf r' = binbuf r ∧ binbufpos r' = binbufpos r).
Proof.
  intros Hr Hn Hfuel.
  eapply (wp_loop (λ k '(r1, size, out) h1, ∃ (n1 : nat) l1 ls1 rest1, k = n1 + length ls1 ∧
    size = Z.of_nat n1 ∧ rp_rep h1 r1 l1 ls1 rest1 ∧ n1 ≤ length rest1 ∧
    take n rest = out ++ take n1 rest1 ∧ drop n rest = drop n1 rest1 ∧
    hbody h h1 ∧ same_source r r1 ∧ binbuf r1 = binbuf r ∧ binbufpos r1 = binbufpos r)
    _ _ (n + length ls)); [| |lia].
  2: { exists n, l, ls, rest. by split_and!. }
  intros k [[r1 size] out] h1 (n1 & l1 & ls1 & rest1 & -> & -> & Hr1 & Hn1 & Ht & Hd & Hb & Hs & Hbb & Hbp).
  rw /read_body. destruct (Z.eqb_spec (Z.of_nat n1) 0) as [Hz|Hz].
  { wp_step. assert (n1 = 0) as -> by lia. rw take_0 app_nil_r in Ht. rw drop_0 in Hd.
    split_and!; try done. rw Hd. by exists l1, ls1. }
  destruct (rr_ref _ _ _ _ _ Hr1) as (b & Hl & _ & Hpos).
  destruct (rr_wf _ _ _ _ _ Hr1 l1 ltac:(left)) as (b' & ? & Hw). simplify_eq.
  destruct Hw as (? & ? & Hlen).
  wp_step. rw (rr_cur _ _ _ _ _ Hr1). wp_step. wp_step. rw /clip u32_small; [lia|].
  set (c := Z.min _ _). assert (Hc : (0 ≤ c ∧ c ≤ b_size b - rpos r1 ∧ c ≤ Z.of_nat n1)%Z) by lia.
  eapply wp_buf_read; [done|lia|].
  rw (bytes_ahead _ _ _ _ _ _ _ Hr1 Hl); [lia..|]. wp_step.
  eapply wp_mono; [eapply rpacket_advance_ok; [done|done|lia..]|]. cbv beta.
  intros r2 h2 (l2 & ls2 & Hr2 & Hb2 & Hs2 & Hbb2 & Hbp2 & Hprog). wp_step.
  exists (n1 - Z.to_nat c + length ls2). split.
  { destruct Hprog as [?|(-> & ?)]; lia. }
  exists (n1 - Z.to_nat c), l2, ls2, (drop (Z.to_nat c) rest1).
  split_and!; try done; [lia|rw length_drop; lia| | |by etrans|by etrans|congruence|congruence].
  - rw Ht -app_assoc. f_equal. rw take_take_drop. f_equal. lia.
  - rw Hd drop_drop. f_equal. lia.
Qed.

(** [rpacket_read] on both branches. *)
Lemma rpacket_read_ok h r l ls rest n : rp_rep h r l ls rest → n ≤ length rest →
  wp (rpacket_read r (Z.of_nat n)) h (λ '(r', ret, out) h', ret = 0%Z ∧ out = take n rest ∧
    (∃ l' ls', rp_rep h' r' l' ls' (drop n rest)) ∧ hbody h h' ∧ same_source r r' ∧
    binbuf r' = binbuf r ∧ binbufpos r' = binbufpos r).
Proof.
  intros Hr Hn. rw /rpacket_read (rr_remain _ _ _ _ _ Hr).
  assert ((Z.of_nat (length rest) <? Z.of_nat n)%Z = false) as -> by (apply Z.ltb_ge; lia).
  wp_step. wp_step. rw Nat2Z.id. wp_step.
  pose proof (chain_length _ _ _ _ (rr_chain _ _ _ _ _ Hr) (rr_nodup _ _ _ _ _ Hr)) as Hlen.
  simpl in Hlen. eapply wp_mono; [eapply read_loop_ok; [done|done|lia]|].
  intros [r' out] h' ?. by wp_step.
Qed.

Lemma rpacket_read_short r n h : (data_remain r < n)%Z → rpacket_read r n h = Ok (r, (-1)%Z, [], h).
Proof. intros. rw /rpacket_read. assert ((data_remain r <? n)%Z = true) as -> by lia. done. Qed.

(** The integers read are the ones written. *)
Lemma rpacket_read_uint_ok h r l ls rest n v : rp_rep h r l ls (le_bytes n v ++ rest) →
  (0 ≤ v < 2 ^ (8 * Z.of_nat n))%Z →
  wp (rpacket_read_uint n r) h (λ '(r', v') h', v' = v ∧
    (∃ l' ls', rp_rep h' r' l' ls' rest) ∧ hbody h h' ∧ same_source r r' ∧
    binbuf r' = binbuf r ∧ binbufpos r' = binbufpos r).
Proof.
  intros Hr Hv. rw /rpacket_read_uint. wp_step.
  eapply wp_mono; [eapply rpacket_read_ok; [done|rw length_app length_le_bytes; lia]|].
  intros [[r' ret] out] h' (-> & -> & Hr' & ?). wp_step.
  rw take_app_length' ?length_le_bytes // le_le_bytes //. split; [done|].
  by rw drop_app_length' ?length_le_bytes in Hr'.
Qed.

(** *** Binary data that span buffers *)

(** The store may change elsewhere. *)
Lemma rp_rep_insert h r l ls rest x b : rp_rep h r l ls rest → x ∉ l :: ls →
  (∀ bx, binbuf r = Some x → h !! x = Some bx → length (buf b) = length (buf bx)) →
  rp_rep (<[x := b]> h) r l ls rest.
Proof.
  intros [Rc Rch Rnd Rwf (b' & Hb' & Rref & Rpos) Rrefs Rrem (tail & Rdata) Rbin Rlen] Hx Hbx.
  assert (Hl : ∀ y, y ∈ l :: ls → <[x := b]> h !! y = h !! y).
  { intros y Hy. rw lookup_insert_ne //. by intros <-. }
  split; try done.
  - eapply chain_ext; [|done]. intros y Hy. by rw Hl.
  - intros y Hy. rw Hl //. by apply Rwf.
  - exists b'. rw Hl //. by left.
  - intros y Hy. rw Hl; [by right|]. by apply Rrefs.
  - exists tail. rw (content_ext h) //. intros y Hy. by rw Hl.
  - rw /binbuf_ok in Rbin *. destruct (binbuf r) as [bb|]; [|done].
    destruct Rbin as (? & ? & ? & bx & Hb & Hlen). split_and!; try done.
    destruct (decide (bb = x)) as [->|].
    + exists b. split; [apply lookup_insert_eq|]. by rw (Hbx bx).
    + exists bx. by rw lookup_insert_ne.
Qed.

Lemma rpacket_advance_binbuf p pos r b c h Q :
  wp (rpacket_advance r b c) h (λ r' h', Q (with_binbuf p pos r') h') →
  wp (rpacket_advance (with_binbuf p pos r) b c) h Q.
Proof.
  rw /rpacket_advance /=. case_match; intros H'; [|exact H'].
  rw /wp /mbind /M_bind /= in H' *. by destruct (buffer_acquire _ _ h) as [[]|].
Qed.

Lemma with_binbuf_rep h r l ls rest bb b pos : rp_rep h r l ls rest →
  bb ∉ l :: ls → h !! bb = Some b → length (buf b) = Z.to_nat (r_len r) →
  (0 ≤ pos)%Z → (pos + Z.of_nat (length rest) ≤ r_len r)%Z →
  rp_rep h (with_binbuf (Some bb) pos r) l ls rest.
Proof.
  intros [Rc Rch Rnd Rwf Rref Rrefs Rrem Rdata Rbin Rlen] ?????.
  split; try done. rw /binbuf_ok /=. split_and!; try done. by exists b.
Qed.

Lemma binbuf_loop_ok h r l ls rest n fuel bb off b0 : rp_rep h r l ls rest → n ≤ length rest →
  n + length ls < fuel → binbuf r = Some bb → binbufpos r = off → h !! bb = Some b0 →
  wp (loop fuel binbuf_body (r, Z.of_nat n)) h (λ r' h', ∃ b,
    h' !! bb = Some b ∧ slice (Z.to_nat off) n (buf b) = take n rest ∧
    (∃ l' ls', rp_rep h' r' l' ls' (drop n rest)) ∧ same_source r r' ∧ binbuf r' = Some bb).
Proof.
  intros Hr Hn Hfuel Hbb Hoff Hb0.
  assert (Hoff0 : (0 ≤ off)%Z).
  { pose proof (rr_bin _ _ _ _ _ Hr) as Hbin. rw /binbuf_ok Hbb in Hbin. by destruct Hbin as (_ & ? & _); subst. }
  eapply (wp_loop (λ k '(r1, size) h1, ∃ (n1 : nat) l1 ls1 rest1 b1, k = n1 + length ls1 ∧
    size = Z.of_nat n1 ∧ rp_rep h1 r1 l1 ls1 rest1 ∧ n1 ≤ length rest1 ∧ n1 ≤ n ∧
    h1 !! bb = Some b1 ∧ binbufpos r1 = (off + Z.of_nat (n - n1))%Z ∧
    take n rest = slice (Z.to_nat off) (n - n1) (buf b1) ++ take n1 rest1 ∧
    drop n rest = drop n1 rest1 ∧ same_source r r1 ∧ binbuf r1 = Some bb)
    _ _ (n + length ls)); [| |lia].
  2: { exists n, l, ls, rest, b0. rw Nat.sub_diag slice_0. split_and!; try done. lia. }
  intros k [r1 size] h1 (n1 & l1 & ls1 & rest1 & b1 & -> & -> & Hr1 & Hn1 & Hnn & Hb1 & Hbp & Ht & Hd & Hs & Hbb1).
  rw /binbuf_body. destruct (Z.eqb_spec (Z.of_nat n1) 0) as [Hz|Hz].
  { wp_step. assert (n1 = 0) as -> by lia. rw take_0 app_nil_r Nat.sub_0_r in Ht. rw drop_0 in Hd.
    exists b1. split_and!; try done. rw Hd. by exists l1, ls1. }
  destruct (rr_ref _ _ _ _ _ Hr1) as (b & Hl & _ & Hpos).
  destruct (rr_wf _ _ _ _ _ Hr1 l1 ltac:(left)) as (b' & ? & Hw). simplify_eq.
  destruct Hw as (? & ? & Hlen).
  pose proof (rr_bin _ _ _ _ _ Hr1) as Hbin. rw /binbuf_ok Hbb1 in Hbin.
  destruct Hbin as (Hnin & Hp0 & Hpr & b1' & ? & Hb1len). simplify_eq.
  pose proof (rr_len _ _ _ _ _ Hr1) as [? Hrlen].
  wp_step. rw (rr_cur _ _ _ _ _ Hr1). wp_step. wp_step. rw /clip u32_small; [lia|].
  set (c := Z.min _ _). assert (Hc : (0 ≤ c ∧ c ≤ b_size b - rpos r1 ∧ c ≤ Z.of_nat n1)%Z) by lia.
  eapply wp_buf_read; [done|lia|].
  rw (bytes_ahead _ _ _ _ _ _ _ Hr1 Hl); [lia..|]. wp_step. rw Hbb1.
  assert (Htake : length (take (Z.to_nat c) rest1) = Z.to_nat c) by (rw length_take; lia).
  eapply wp_buf_write; [done|rw Htake; lia|].
  set (b2 := with_bytes _ b1). set (h2 := <[bb := b2]> h1).
  assert (Hb2len : length (buf b2) = length (buf b1)) by (apply length_splice; rw Htake; lia).
  assert (Hr1' : rp_rep h2 r1 l1 ls1 rest1).
  { apply rp_rep_insert; [done|done|]. intros ? _ ?. by simplify_eq. }
  assert (Hl2 : h2 !! l1 = Some b) by (rw /h2 lookup_insert_ne //; intros ->; apply Hnin; left).
  wp_step. apply rpacket_advance_binbuf.
  eapply wp_mono; [eapply (rpacket_advance_ok _ _ _ _ _ b); [done|done|lia..]|]. cbv beta.
  intros r2 h3 (l2 & ls2 & Hr2 & Hb2 & Hs2 & Hbb2 & Hbp2 & Hprog). wp_step.
  destruct (hbody_lookup _ _ bb b2 Hb2) as (b3 & Hb3 & Hb3e); [apply lookup_insert_eq|].
  injection Hb3e as _ _ _ Hbuf3.
  pose proof Hs2 as (Hs2len & _).
  assert (Hpos' : u32 (binbufpos r1 + c) = (binbufpos r1 + c)%Z) by (apply u32_small; lia).
  exists (n1 - Z.to_nat c + length ls2). split.
  { destruct Hprog as [?|(-> & ?)]; lia. }
  exists (n1 - Z.to_nat c), l2, ls2, (drop (Z.to_nat c) rest1), b3.
  split_and!; try done; [lia| |rw length_drop; lia|lia| | | |by etrans].
  - pose proof (rr_bin _ _ _ _ _ Hr2) as Hbin2. rw /binbuf_ok Hbb2 Hbb1 in Hbin2.
    destruct Hbin2 as (Hnin2 & _). rw Hpos'.
    eapply with_binbuf_rep; [done|done|done|by rw Hbuf3 Hb2len Hs2len Hb1len|lia|].
    rw Hs2len length_drop. lia.
  - simpl. rw Hpos' Hbp. lia.
  - rw Ht Hbuf3 (_ : n - (n1 - Z.to_nat c) = (n - n1) + Z.to_nat c); [lia|].
    rw slice_app -app_assoc. f_equal.
    + rw /b2 /= Hbp slice_splice_before; [lia|lia|done].
    + rw /b2. cbn [buf with_bytes]. rw Hbp (_ : Z.to_nat (binbufpos r) + (n - n1) = Z.to_nat (binbufpos r + Z.of_nat (n - n1))); [lia|].
      pose proof (slice_splice_same (Z.to_nat (binbufpos r + Z.of_nat (n - n1)))
        (take (Z.to_nat c) rest1) (buf b1)) as Hsame. rw Htake in Hsame. rw Hsame; [lia|].
      rw take_take_drop. f_equal. lia.
  - rw Hd drop_drop. f_equal. lia.
Qed.

(** The bytes [bs] are at the address [a]. *)
Definition holds (h : bufs) (a : addr) (bs : list Z) : Prop :=
  match a with
  | Some (Some l, off) => (0 ≤ off)%Z ∧ ∃ b, h !! l = Some b ∧
      Z.to_nat off + length bs ≤ length (buf b) ∧ slice (Z.to_nat off) (length bs) (buf b) = bs
  | Some (None, _) => False
  | None => bs = []
  end.

Lemma read_spanning_ok h r l ls rest n : rp_rep h r l ls rest → 0 < n ≤ length rest →
  wp (read_spanning r (Z.of_nat n)) h (λ '(r', a) h', holds h' a (take n rest) ∧
    (∃ l' ls', rp_rep h' r' l' ls' (drop n rest)) ∧ same_source r r').
Proof.
  intros Hr Hn. rw /read_spanning. wp_step.
  pose proof (rr_len _ _ _ _ _ Hr) as [Hl1 Hl2].
  apply wp_mono with (P := λ r1 h1, ∃ bb b0, rp_rep h1 r1 l ls rest ∧ same_source r r1 ∧
    binbuf r1 = Some bb ∧ h1 !! bb = Some b0).
  { destruct (binbuf r) as [bb|] eqn:Hbb.
    - wp_step. pose proof (rr_bin _ _ _ _ _ Hr) as Hbin. rw /binbuf_ok Hbb in Hbin.
      destruct Hbin as (_ & _ & _ & b0 & ? & _). by exists bb, b0.
    - wp_step. apply wp_buffer_create_and_acquire; [lia|lia|]. intros bb Hfresh. wp_step.
      assert (Hnin : bb ∉ l :: ls).
      { intros Hin. destruct (rr_wf _ _ _ _ _ Hr bb Hin) as (? & ? & _). congruence. }
      eexists bb, _. split; [|split; [done|split; [done|apply lookup_insert_eq]]].
      eapply with_binbuf_rep; [|done|apply lookup_insert_eq|by rw /= length_replicate|lia|lia].
      apply rp_rep_insert; [done|done|]. intros ? Hx. congruence. }
  cbv beta. intros r1 h1 (bb & b0 & Hr1 & Hs1 & Hbb1 & Hb0). wp_step. wp_step. wp_step.
  rw Nat2Z.id.
  pose proof (chain_length _ _ _ _ (rr_chain _ _ _ _ _ Hr1) (rr_nodup _ _ _ _ _ Hr1)) as Hlen.
  simpl in Hlen.
  eapply wp_mono; [eapply (binbuf_loop_ok _ _ _ _ _ n _ bb); [done|lia|lia|done|done|done]|].
  cbv beta. intros r' h' (b & Hb & Hsl & Hr' & Hs' & _). wp_step.
  assert (Hlt : length (take n rest) = n) by (rw length_take; lia).
  split; [|split; [done|by etrans]]. rw /holds Hbb1 Hlt. split.
  { pose proof (rr_bin _ _ _ _ _ Hr1) as Hbin. rw /binbuf_ok Hbb1 in Hbin. by destruct Hbin as (_ & ? & _). }
  exists b. split; [done|]. split; [|done].
  assert (Hll : length (slice (Z.to_nat (binbufpos r1)) n (buf b)) = n) by by rw Hsl.
  rw /slice length_take length_drop in Hll.
  lia.
Qed.

(** *** Length-prefixed data *)

Lemma le_bytes_lt n v : (0 ≤ v < 2 ^ (8 * Z.of_nat n))%Z → length (le_bytes n v) = n.
Proof. by rw length_le_bytes. Qed.

(** A binary field is returned in place or in [binbuf]; an empty one at the end
    of the packet is returned as NULL. *)
Lemma rpacket_read_binary_ok h r l ls bs rest len0 : r_raw r = false →
  rp_rep h r l ls (le_bytes 4 (Z.of_nat (length bs)) ++ bs ++ rest) →
  wp (rpacket_read_binary r len0) h (λ '(r', a, len) h', len = Z.of_nat (length bs) ∧
    holds h' a bs ∧ (∃ l' ls', rp_rep h' r' l' ls' rest) ∧ same_source r r').
Proof.
  intros Hraw Hr. rw /rpacket_read_binary Hraw. wp_step.
  pose proof (rr_len _ _ _ _ _ Hr) as [Hl1 Hl2]. rw !length_app length_le_bytes in Hl1.
  eapply wp_mono; [eapply (rpacket_read_uint_ok _ _ _ _ _ 4); [done|]|].
  { change (2 ^ (8 * Z.of_nat 4))%Z with (2 ^ 32)%Z. lia. }
  intros [r1 v] h1 (-> & (l1 & ls1 & Hr1) & Hb1 & Hs1 & _ & _).
  rw (rr_remain _ _ _ _ _ Hr1) length_app.
  destruct ((Z.of_nat (length bs + length rest) =? 0) ||
    (Z.of_nat (length bs + length rest) <? Z.of_nat (length bs)))%Z eqn:Hend.
  { assert (length bs = 0 ∧ length rest = 0) as [Hb0 Hr0].
    { apply orb_prop in Hend as [?%Z.eqb_eq|?%Z.ltb_lt]; lia. }
    apply nil_length_inv in Hb0 as ->. wp_step. split; [done|]. split; [done|].
    split; [by exists l1, ls1|done]. }
  destruct (rr_ref _ _ _ _ _ Hr1) as (b & Hl & _ & Hpos).
  destruct (rr_wf _ _ _ _ _ Hr1 l1 ltac:(left)) as (b' & ? & Hw). simplify_eq.
  pose proof Hw as (? & ? & Hlen).
  wp_step. rw (rr_cur _ _ _ _ _ Hr1). wp_step. rw u32_small; [lia|].
  destruct (Z.leb_spec (Z.of_nat (length bs)) (b_size b - rpos r1)) as [Hin|Hout].
  - wp_step. eapply wp_mono; [eapply rpacket_advance_ok; [done|done|lia|rw length_app; lia|done]|].
    cbv beta. intros r2 h2 (l2 & ls2 & Hr2 & Hb2 & Hs2 & _). wp_step. split; [done|].
    rw Nat2Z.id drop_app_length in Hr2.
    split; [|split; [by exists l2, ls2|by etrans]].
    destruct (hbody_lookup _ _ _ _ Hb2 Hl) as (b2 & Hlb2 & Heq). injection Heq as _ _ _ Hbuf.
    rw /holds. split; [lia|]. exists b2. split; [done|]. rw Hbuf. split; [lia|].
    rw (bytes_ahead _ _ _ _ _ _ (length bs) Hr1 Hl); [rw length_app; lia|lia|].
    by rw take_app_length.
  - wp_step. eapply wp_mono; [eapply read_spanning_ok; [done|rw length_app; lia]|].
    cbv beta. intros [r2 a] h2 (Hh & Hr2 & Hs2). wp_step. rw drop_app_length in Hr2.
    rw take_app_length in Hh. split; [done|]. split; [done|]. split; [done|by etrans].
Qed.

(** ** Creation *)

(** A packet created from a written one has the whole payload to be read.  The
    length field must lie in the first buffer with room to spare. *)
Lemma rpacket_create_by_wpacket_ok h w pre cur data : wp_rep h w pre cur data →
  w_begin_pos w = 0%Z → data ≠ [] → (Z.of_nat (length data) + 40 < 2 ^ 32)%Z →
  (w_raw w = false → ∀ l b, w_buf w = Some l → h !! l = Some b → 4 < capacity b)%Z →
  wp (rpacket_create_by_wpacket w) h (λ r h', (∃ l ls, rp_rep h' r l ls data) ∧
    r_raw r = w_raw w ∧ hbody h h').
Proof.
  intros Hw Hbp Hne Hlen Hfirst.
  assert (Hpl : 0 < length data) by (destruct data; simpl; [done|lia]).
  pose proof Hw as [Wbuf Wwb Wlen Wch Wnd Wwf (bc & Hbc & Wcur) Wfull Wrefs Wct Wsz Whd Wfac].
  assert (∃ l ls, w_buf w = Some l ∧ pre ++ [cur] = l :: ls) as (l & ls & Hl & Hls).
  { rw Wbuf. destruct pre as [|l0 pre]; simpl; eauto. }
  rw Hls Hl in Wch Wnd Wwf Wct. destruct (Wwf l ltac:(left)) as (b & Hb & Hbw).
  destruct (Wrefs l) as (b' & Hb' & Hrc); [rw Hls; left|].
  assert (b' = b) as -> by congruence. clear Hb'.
  assert (Hrc' : (1 ≤ rc b < 2 ^ 30)%Z) by (case_decide; lia).
  pose proof Hbw as (Hsz & Hcap & _). pose proof (length_bdata b Hbw) as Hlb.
  set (b2 := ref_add 1 (ref_add 1 b)). set (h2 := <[l := b2]> h).
  assert (Hbody : hbody h h2).
  { rw /h2 -(insert_insert_eq h l b2 (ref_add 1 b)). etrans; [by apply (hbody_insert h l b 1)|].
    apply hbody_insert, lookup_insert_eq. }
  set (hl := (if w_raw w then 0 else 4)%Z).
  assert (Hhl : length (header (w_raw w) data) = Z.to_nat hl).
  { rw /header /hl. by destruct (w_raw w). }
  assert (Hsz' : data_size w = (hl + Z.of_nat (length data))%Z).
  { rw Wsz length_app Hhl /hl. destruct (w_raw w); lia. }
  assert (Hpos : (hl ≤ b_size b)%Z ∧ (w_raw w = false → 4 < b_size b)%Z).
  { rw /hl. destruct (w_raw w) eqn:Hraw; [lia|]. specialize (Hfirst eq_refl l b Hl Hb).
    enough (4 < b_size b)%Z by lia. destruct pre as [|l0 pre].
    - injection Hls as -> <-. rw (content_cons _ _ _ _ Hb) content_nil app_nil_r in Wct.
      apply (f_equal length) in Wct. rw length_app Hhl Hlb /hl in Wct. lia.
    - injection Hls as -> _. destruct (Wfull l ltac:(left)) as (b' & Hb' & Hf).
      assert (b' = b) as -> by congruence. lia. }
  assert (Hrep : rp_rep h2 (RPacket (Z.of_nat (length data)) hl (Z.of_nat (length data)) 0 0 NULL
      (Some l) (Some l) (w_raw w) (w_mt w)) l ls data).
  { split; simpl; try done.
    - by apply (hbody_chain h h2 (Some l) (l :: ls) NULL Hbody).
    - by eapply hbody_wf.
    - exists b2. split; [apply lookup_insert_eq|]. rw !rc_ref_add. split; [lia|].
      rw /hl in Hpos *. destruct (w_raw w); simpl; lia.
    - intros x Hx. apply NoDup_cons in Wnd as [Hnin _].
      destruct (Wrefs x) as (bx & Hbx & Hrx); [rw Hls; by right|]. exists bx.
      rw /h2 lookup_insert_ne; [by intros <-|]. split; [done|]. case_decide; lia.
    - exists []. rw app_nil_r (hbody_content _ _ _ Hbody) Wct drop_app_length' //.
    - lia. }
  rw /rpacket_create_by_wpacket Hl. wp_step.
  eapply wp_buffer_acquire_null; [done|lia|]. wp_step.
  eapply wp_buffer_acquire_null; [apply lookup_insert_eq|rw rc_ref_add; lia|].
  rw insert_insert_eq. fold b2 h2. rw Hbp.
  destruct (w_raw w) eqn:Hraw.
  - wp_step. rw Hsz'. split; [by exists l, ls|done].
  - destruct Hpos as [_ Hpos]. specialize (Hpos eq_refl).
    wp_step. eapply wp_hload; [apply lookup_insert_eq|]. simpl b_size.
    rw Z.sub_0_r (u32_small (b_size b)); [lia|].
    assert ((4 <? b_size b)%Z = true) as -> by (apply Z.ltb_lt; lia).
    wp_step. rw Hsz' /hl (_ : 4 + Z.of_nat (length data) - 4 = Z.of_nat (length data))%Z; [lia|].
    rw u32_small; [lia|]. split; [by exists l, ls|done].
Qed.

(** ** Round trip *)

Module Fields.

(** The typed values of a packet that is not raw; a string is given without its
    terminating zero. *)
Inductive field :=
  | F8 (v : Z) | F16 (v : Z) | F32 (v : Z) | F64 (v : Z) | FDouble (v : Z)
  | FBin (bs : list Z) | FStr (s : list Z).

Inductive kind := K8 | K16 | K32 | K64 | KDouble | KBin | KStr.

Definition kind_of (f : field) : kind :=
  match f with
  | F8 _ => K8 | F16 _ => K16 | F32 _ => K32 | F64 _ => K64 | FDouble _ => KDouble
  | FBin _ => KBin | FStr _ => KStr
  end.

Definition write_field (w : wpacket) (f : field) : M bufs wpacket :=
  match f with
  | F8 v => wpacket_write_uint8 w v
  | F16 v => wpacket_write_uint16 w v
  | F32 v => wpacket_write_uint32 w v
  | F64 v => wpacket_write_uint64 w v
  | FDouble v => wpacket_write_double w v
  | FBin bs => wpacket_write_binary w bs
  | FStr s => wpacket_write_string w s
  end.

Fixpoint write_fields (w : wpacket) (fs : list field) : M bufs wpacket :=
  match fs with
  | [] => mret w
  | f :: fs => w ← write_field w f; write_fields w fs
  end.

(** The caller's view of a result: [len] bytes, or the bytes up to a zero. *)
Definition load_bytes (a : addr) (len : Z) : M bufs (list Z) :=
  match a with
  | Some (p, off) => buf_read p off len
  | None => if (len =? 0)%Z then mret [] else fail NullDeref
  end.

Definition load_string (a : addr) : M bufs (list Z) :=
  match a with
  | Some (p, off) =>
      b ← hload p;
      let bs := drop (Z.to_nat off) (buf b) in
      match list_find (λ c, c = 0%Z) bs with
      | Some (n, _) => mret (take n bs)
      | None => fail OutOfBounds
      end
  | None => fail NullDeref
  end.

Definition read_field (r : rpacket) (k : kind) : M bufs (rpacket * field) :=
  match k with
  | K8 => '(r, v) ← rpacket_read_uint8 r; mret (r, F8 v)
  | K16 => '(r, v) ← rpacket_read_uint16 r; mret (r, F16 v)
  | K32 => '(r, v) ← rpacket_read_uint32 r; mret (r, F32 v)
  | K64 => '(r, v) ← rpacket_read_uint64 r; mret (r, F64 v)
  | KDouble => '(r, v) ← rpacket_read_double r; mret (r, FDouble v)
  | KBin => '(r, a, len) ← rpacket_read_binary r 0; bs ← load_bytes a len; mret (r, FBin bs)
  | KStr => '(r, a) ← rpacket_read_string r; s ← load_string a; mret (r, FStr s)
  end.

Fixpoint read_fields (r : rpacket) (ks : list kind) : M bufs (rpacket * list field) :=
  match ks with
  | [] => mret (r, [])
  | k :: ks =>
      '(r, f) ← read_field r k;
      '(r, fs) ← read_fields r ks;
      mret (r, f :: fs)
  end.

(** Values in the range of their type; no string holds a zero. *)
Definition field_ok (f : field) : Prop :=
  match f with
  | F8 v => (0 ≤ v < 2 ^ 8)%Z
  | F16 v => (0 ≤ v < 2 ^ 16)%Z
  | F32 v => (0 ≤ v < 2 ^ 32)%Z
  | F64 v | FDouble v => (0 ≤ v < 2 ^ 64)%Z
  | FBin _ => True
  | FStr s => Forall (λ c, c ≠ 0%Z) s
  end.

Definition encode (f : field) : list Z :=
  match f with
  | F8 v => le_bytes 1 v
  | F16 v => le_bytes 2 v
  | F32 v => le_bytes 4 v
  | F64 v | FDouble v => le_bytes 8 v
  | FBin bs => le_bytes 4 (Z.of_nat (length bs)) ++ bs
  | FStr s => le_bytes 4 (Z.of_nat (length (s ++ [0%Z]))) ++ s ++ [0%Z]
  end.

Definition encode_all (fs : list field) : list Z := concat (encode <$> fs).

Lemma encode_nonempty f : 0 < length (encode f).
Proof. destruct f; simpl; lia. Qed.

Section write.
Context (h : bufs) (w : wpacket) (pre : list loc) (cur : loc) (data : list Z).
Context (Hw : wp_rep h w pre cur data) (Hraw : w_raw w = false).

Lemma write_binary_ok bs :
  (Z.of_nat (length data + (4 + length bs)) + 4 < 2 ^ 32)%Z →
  (Z.of_nat (4 + length bs) ≤ room h w)%Z →
  wp (wpacket_write_binary w bs) h (λ w' h',
    appended h w (pre ++ [cur]) data (le_bytes 4 (Z.of_nat (length bs)) ++ bs) h' w').
Proof.
  intros Hlen Hroom. rw /wpacket_write_binary Hraw. wp_step. rw u32_small; [lia|].
  eapply wp_mono; [eapply wpacket_write_ok; [done|rw length_le_bytes; lia..]|].
  cbv beta. intros w1 h1 Happ. pose proof Happ as (pre1 & cur1 & Hw1 & _ & _ & Hr1).
  rw length_le_bytes in Hr1.
  eapply wp_mono; [eapply wpacket_write_ok; [done|rw length_app length_le_bytes; lia|lia]|].
  cbv beta. intros w2 h2 Happ2. eapply appended_trans; [done|done|].
  intros pre1' cur1' Hw1'. enough (pre1' ++ [cur1'] = pre1 ++ [cur1]) as -> by done.
  eapply chain_det; [apply (wr_chain _ _ _ _ _ Hw1')|apply (wr_chain _ _ _ _ _ Hw1)].
Qed.

Lemma write_field_ok f :
  (Z.of_nat (length data + length (encode f)) + 4 < 2 ^ 32)%Z →
  (Z.of_nat (length (encode f)) ≤ room h w)%Z →
  wp (write_field w f) h (λ w' h', appended h w (pre ++ [cur]) data (encode f) h' w').
Proof.
  destruct f as [v|v|v|v|v|bs|s]; intros Hlen Hroom; cbn [write_field];
    try (by apply wpacket_write_ok).
  - apply write_binary_ok; cbn [encode] in *; rw length_app length_le_bytes in Hlen Hroom; lia.
  - rw /wpacket_write_string Hraw. cbn [encode] in *.
    apply write_binary_ok; rw length_app length_le_bytes in Hlen Hroom; lia.
Qed.
End write.

Lemma write_fields_ok fs h w pre cur data : wp_rep h w pre cur data → w_raw w = false →
  (Z.of_nat (length data + length (encode_all fs)) + 4 < 2 ^ 32)%Z →
  (Z.of_nat (length (encode_all fs)) ≤ room h w)%Z →
  wp (write_fields w fs) h (λ w' h',
    appended h w (pre ++ [cur]) data (encode_all fs) h' w').
Proof.
  revert h w pre cur data. induction fs as [|f fs IH]; intros h w pre cur data Hw Hraw Hlen Hroom.
  { cbn [write_fields]. wp_step. exists pre, cur. rw app_nil_r. split; [done|]. split; [done|].
    split; [apply frame_refl|simpl; lia]. }
  cbn [write_fields]. rw /encode_all fmap_cons /= in Hlen Hroom *. fold (encode_all fs) in *.
  rw length_app in Hlen Hroom. wp_step.
  eapply wp_mono; [eapply write_field_ok; [done|done|lia|lia]|].
  cbv beta. intros w1 h1 Happ. pose proof Happ as (pre1 & cur1 & Hw1 & Hs1 & _ & Hr1).
  eapply wp_mono; [eapply IH; [done|by destruct Hs1 as (_ & -> & _)|rw length_app; lia|lia]|].
  cbv beta. intros w2 h2 Happ2. eapply appended_trans; [done|done|].
  intros pre1' cur1' Hw1'. enough (pre1' ++ [cur1'] = pre1 ++ [cur1]) as -> by done.
  eapply chain_det; [apply (wr_chain _ _ _ _ _ Hw1')|apply (wr_chain _ _ _ _ _ Hw1)].
Qed.

Lemma load_bytes_ok h a bs : holds h a bs →
  load_bytes a (Z.of_nat (length bs)) h = Ok (bs, h).
Proof.
  rw /holds /load_bytes. destruct a as [[[l|] off]|]; [|done|by intros ->].
  intros (Ho & b & Hb & Hlen & Hs).
  assert (wp (buf_read (Some l) off (Z.of_nat (length bs))) h (λ r h', r = bs ∧ h' = h))
    as (? & ? & -> & -> & ->)%wp_ok; [|done].
  eapply wp_buf_read; [done|lia|]. by rw Nat2Z.id.
Qed.

Lemma load_string_ok h a s : holds h a (s ++ [0%Z]) → Forall (λ c, c ≠ 0%Z) s →
  load_string a h = Ok (s, h).
Proof.
  rw /holds /load_string. destruct a as [[[l|] off]|]; [|done|by intros [_ ?]%app_nil].
  intros (Ho & b & Hb & Hlen & Hs) Hz. rw /mbind /M_bind /hload Hb.
  set (bs := drop _ (buf b)). rw -/bs /slice in Hs.
  assert (Hbs : bs = s ++ 0%Z :: drop (length (s ++ [0%Z])) bs).
  { rw -{1}(take_drop (length (s ++ [0%Z])) bs) Hs -app_assoc //. }
  assert (Hfind : list_find (λ c, c = 0%Z) bs = Some (length s, 0%Z)).
  { apply list_find_Some. split; [by rw Hbs list_lookup_middle|]. split; [done|].
    intros j y Hj Hlt. rw Hbs lookup_app_l // in Hj. rw Forall_lookup in Hz. by eapply Hz. }
  rw Hfind /=. by rw {1}Hbs take_app_length.
Qed.

Lemma read_field_ok h r l ls f rest : r_raw r = false → field_ok f →
  rp_rep h r l ls (encode f ++ rest) →
  wp (read_field r (kind_of f)) h (λ '(r', f') h', f' = f ∧
    (∃ l' ls', rp_rep h' r' l' ls' rest) ∧ same_source r r').
Proof.
  intros Hraw Hf Hr.
  destruct f as [v|v|v|v|v|bs|s]; cbn [read_field kind_of encode field_ok] in *.
  1-5: wp_step; eapply wp_mono; [eapply rpacket_read_uint_ok; [done|]|].
  1,3,5,7,9: cbn; lia.
  1-5: intros [r' v'] h' (-> & ? & _ & ? & _); by wp_step.
  - wp_step. rw -app_assoc in Hr. eapply wp_mono; [by eapply rpacket_read_binary_ok|].
    intros [[r' a] len] h' (-> & Hh & Hr' & Hs). wp_step.
    eapply ok_wp; [by apply load_bytes_ok|]. by wp_step.
  - rw /rpacket_read_string Hraw. wp_step. wp_step. rw -app_assoc in Hr.
    eapply wp_mono; [by eapply rpacket_read_binary_ok|].
    intros [[r' a] len] h' (-> & Hh & Hr' & Hs). wp_step. wp_step.
    eapply ok_wp; [by apply load_string_ok|]. by wp_step.
Qed.

Lemma read_fields_ok fs h r l ls : r_raw r = false → Forall field_ok fs →
  rp_rep h r l ls (encode_all fs) →
  wp (read_fields r (kind_of <$> fs)) h (λ '(r', fs') h', fs' = fs ∧ data_remain r' = 0%Z).
Proof.
  revert h r l ls. induction fs as [|f fs IH]; intros h r l ls Hraw Hok Hr.
  { cbn [read_fields fmap list_fmap]. wp_step. split; [done|]. by rw (rr_remain _ _ _ _ _ Hr). }
  apply Forall_cons in Hok as [Hf Hok]. rw fmap_cons. cbn [read_fields]. wp_step.
  eapply wp_mono; [eapply read_field_ok; [done|done|exact Hr]|].
  intros [r1 f1] h1 (-> & (l1 & ls1 & Hr1) & Hs1). wp_step.
  eapply wp_mono; [eapply IH; [by destruct Hs1 as (_ & -> & _)|done|exact Hr1]|].
  intros [r2 fs2] h2 (-> & Hrem). by wp_step.
Qed.

(** The whole way of a sequence of values through a packet. *)
Definition send_receive (m : bool) (size : Z) (fs : list field) : M bufs (rpacket * list field) :=
  w ← wpacket_create m size false;
  w ← write_fields w fs;
  r ← rpacket_create_by_wpacket w;
  read_fields r (kind_of <$> fs).


(** An 8-byte packet whose fields cross three buffers. *)
Definition sample_fields : list field :=
  [F16 513; FStr [104; 105]; FBin (replicate 12 9); F64 (2 ^ 63 + 5); F8 255]%Z.


(** A packet whose first buffer holds the length field only is misread: the
    position in the second buffer is taken to be 4 as well, so the first value
    is skipped and the read runs off the chain. *)
Lemma four_byte_packet_misread :
  send_receive false 4 [F32 1; F32 2]%Z ∅ = Fault NullDeref.
Proof. by vm_compute. Qed.
End Fields.

(** ** Raw packets *)

(** C15: reading a raw packet returns the address of all bytes that remain, in
    place when they lie in the current buffer and in [binbuf] when they span
    buffers, and leaves nothing to be read; but the length is only stored in
    the first case, in the second [*len] keeps the value it had. *)
Theorem rpacket_raw_read_binary_all h r l ls rest b len0 :
  rp_rep h r l ls rest → rest ≠ [] → h !! l = Some b →
  ∃ r' a h', rpacket_raw_read_binary r len0 h =
      Ok ((r', a, if decide (Z.of_nat (length rest) ≤ b_size b - rpos r)%Z
                  then Z.of_nat (length rest) else len0), h') ∧
    holds h' a rest ∧ data_remain r' = 0%Z.
Proof.
  intros Hr Hne Hb.
  assert (Hp : 0 < length rest) by (destruct rest; simpl; [done|lia]).
  destruct (rr_ref _ _ _ _ _ Hr) as (b' & Hb' & _ & Hpos). assert (b' = b) as -> by congruence.
  destruct (rr_wf _ _ _ _ _ Hr l ltac:(left)) as (b' & Hb'' & Hw).
  assert (b' = b) as -> by congruence. pose proof Hw as (? & ? & Hlen).
  enough (wp (rpacket_raw_read_binary r len0) h (λ '(r', a, len) h',
    len = (if decide (Z.of_nat (length rest) ≤ b_size b - rpos r)%Z
           then Z.of_nat (length rest) else len0) ∧ holds h' a rest ∧ data_remain r' = 0%Z))
    as ([[r' a] len] & h' & -> & -> & ?)%wp_ok by (by exists r', a, h').
  rw /rpacket_raw_read_binary (rr_remain _ _ _ _ _ Hr).
  assert ((Z.of_nat (length rest) =? 0)%Z = false) as -> by lia.
  wp_step. rw (rr_cur _ _ _ _ _ Hr). wp_step. rw u32_small; [lia|].
  destruct (Z.leb_spec (Z.of_nat (length rest)) (b_size b - rpos r)) as [Hin|Hout].
  - wp_step. rw decide_True //. split; [done|]. split; [|done]. split; [lia|].
    exists b. split; [done|]. split; [lia|].
    rw (bytes_ahead _ _ _ _ _ _ (length rest) Hr Hb); [lia..|]. by rw firstn_all.
  - wp_step. eapply wp_mono; [eapply (read_spanning_ok _ _ _ _ _ (length rest)); [done|lia]|].
    cbv beta. intros [r2 a] h2 (Hh & (l' & ls' & Hr2) & _). wp_step. rw decide_False; [lia|].
    rw firstn_all in Hh. split; [done|]. split; [done|].
    by rw (rr_remain _ _ _ _ _ Hr2) drop_all.
Qed.

(** A raw packet that spans two buffers. *)
Definition raw_bufs : bufs :=
  list_to_map [(1%positive, Buffer (Refbase 2 false) 4 3 (Some 2%positive) [1; 2; 3; 0]%Z);
               (2%positive, Buffer (Refbase 1 false) 4 2 NULL [4; 5; 0; 0]%Z)].
Definition raw_packet : rpacket :=
  RPacket 5 0 5 0 0 NULL (Some 1%positive) (Some 1%positive) true false.

Lemma rpacket_raw_read_binary_all_witness : ∃ r' a h',
  rpacket_raw_read_binary raw_packet 77 raw_bufs = Ok ((r', a, 77%Z), h') ∧
  holds h' a [1; 2; 3; 4; 5]%Z ∧ data_remain r' = 0%Z.
Proof.
  apply (rpacket_raw_read_binary_all raw_bufs raw_packet 1%positive [2%positive] [1; 2; 3; 4; 5]%Z
    (Buffer (Refbase 2 false) 4 3 (Some 2%positive) [1; 2; 3; 0]%Z) 77%Z); [|done|by vm_compute].
  assert (Hall : ∀ P : buffer → Prop,
    P (Buffer (Refbase 2 false) 4 3 (Some 2%positive) [1; 2; 3; 0]%Z) →
    P (Buffer (Refbase 1 false) 4 2 NULL [4; 5; 0; 0]%Z) →
    ∀ l, l ∈ [1; 2]%positive → ∃ b, raw_bufs !! l = Some b ∧ P b).
  { intros P H1 H2 l [->| ->%list_elem_of_singleton]%elem_of_cons;
      [eexists; split; [by vm_compute|exact H1]|eexists; split; [by vm_compute|exact H2]]. }
  split.
  - done.
  - simpl. split; [done|]. eexists. split; [by vm_compute|]. split; [done|].
    eexists. split; [by vm_compute|done].
  - apply (bool_decide_unpack _). by vm_compute.
  - intros l Hl. by apply (Hall buf_wf).
  - eexists. split; [by vm_compute|]. by vm_compute.
  - intros l ->%list_elem_of_singleton. eexists. split; [by vm_compute|]. by vm_compute.
  - done.
  - exists []. by vm_compute.
  - done.
  - by vm_compute.
Defined.
