(* ===== verification/MinHeap.v ===== *)
(** * The binary heap of the coroutine scheduler ([src/coro/minheap.c])

    An array of element pointers used from index 1; every element stores its
    index in the heap, 0 when it is in none.  The ordering is the caller's
    [less].  [heap_rep m es] says that [m] holds the elements [es] in heap
    order with their indices up to date. *)
From Stdlib Require Import ZifyNat.
From S2P Require Import Prelude.

(** ** Data *)

(** [data] has [max_size] cells, which is what [minheap_create] allocates;
    [index] holds the [index] field of every element. *)
Record minheap := MinHeap {
  mh_size : Z;
  mh_max_size : Z;
  mh_data : list ptr;
  mh_index : gmap loc Z;
}.

Abbreviation H := (M minheap).

Definition with_size (n : Z) (m : minheap) : minheap :=
  MinHeap n (mh_max_size m) (mh_data m) (mh_index m).
Definition with_data (d : list ptr) (m : minheap) : minheap :=
  MinHeap (mh_size m) (mh_max_size m) d (mh_index m).
Definition with_index (i : gmap loc Z) (m : minheap) : minheap :=
  MinHeap (mh_size m) (mh_max_size m) (mh_data m) i.

(** [m->data[i]], as a value and as a place. *)
Definition data_at (i : Z) : H ptr := λ m,
  if (i <? 0)%Z then Fault OutOfBounds
  else match mh_data m !! Z.to_nat i with
       | Some p => Ok (p, m)
       | None => Fault OutOfBounds
       end.
Definition data_set (i : Z) (p : ptr) : H () := λ m,
  if (0 <=? i)%Z && bool_decide (Z.to_nat i < length (mh_data m))
  then Ok (tt, with_data (<[Z.to_nat i := p]> (mh_data m)) m)
  else Fault OutOfBounds.
Definition get_index (e : ptr) : H Z := zoom mh_index with_index (hload e).
Definition set_index (e : ptr) (i : Z) : H () := zoom mh_index with_index (hstore e i).

Section minheap.
Context (lt : loc → loc → bool).

(** [m->less(l,r)]; both are dereferenced. *)
Definition less (l r : ptr) : H bool :=
  match l, r with Some l, Some r => mret (lt l r) | _, _ => fail NullDeref end.

Definition minheap_create (size : Z) (elements : gmap loc Z) : minheap :=
  MinHeap 0 size (replicate (Z.to_nat size) NULL) elements.

Definition swap (idx1 idx2 : Z) : H () :=
  ele ← data_at idx1;
  e2 ← data_at idx2;
  data_set idx1 e2;;
  data_set idx2 ele;;
  e1 ← data_at idx1;
  set_index e1 idx1;;
  e2 ← data_at idx2;
  set_index e2 idx2.

Definition parent (idx : Z) : Z := (idx / 2)%Z.
Definition left (idx : Z) : Z := i32 (idx * 2).
Definition right (idx : Z) : Z := i32 (idx * 2 + 1).

(** [up]: the locals are [idx] and [p]. *)
Definition up_body (x : Z * Z) : H ((Z * Z) + ()) :=
  let '(idx, p) := x in
  if (p =? 0)%Z then mret (inr tt)
  else
    e ← data_at idx;
    assert_ (bool_decide (e ≠ NULL));;
    ep ← data_at p;
    assert_ (bool_decide (ep ≠ NULL));;
    b ← less e ep;
    if b : bool then swap idx p;; mret (inl (p, parent p)) else mret (inr tt).

(** A 32-bit index is halved at most 31 times. *)
Definition up (idx : Z) : H () := loop 33 up_body (idx, parent idx).

(** The recursion of [down] doubles the index. *)
Fixpoint down (fuel : nat) (idx : Z) : H () :=
  match fuel with
  | O => fail NoFuel
  | S fuel =>
      m ← get;
      let l := left idx in
      let r := right idx in
      let size := mh_size m in
      (if (l <? size)%Z then
         e ← data_at l; assert_ (bool_decide (e ≠ NULL));;
         e ← data_at idx; assert_ (bool_decide (e ≠ NULL))
       else mret tt);;
      min ← (if (l <? size)%Z then
               el ← data_at l; e ← data_at idx; b ← less el e;
               mret (if b : bool then l else idx)
             else mret idx);
      (if (r <? size)%Z then
         e ← data_at r; assert_ (bool_decide (e ≠ NULL));;
         e ← data_at min; assert_ (bool_decide (e ≠ NULL))
       else mret tt);;
      min ← (if (r <? size)%Z then
               er ← data_at r; e ← data_at min; b ← less er e;
               mret (if b : bool then r else min)
             else mret min);
      if (min =? idx)%Z then mret tt
      else swap idx min;; down fuel min
  end.

Definition minheap_change (e : ptr) : H () :=
  idx ← get_index e;
  down 33 idx;;
  up idx.

Definition minheap_insert (e : ptr) : H () :=
  i ← get_index e;
  if (i =? 0)%Z then
    m ← get;
    if (mh_max_size m <=? mh_size m)%Z then mret tt
    else
      let size := (mh_size m + 1)%Z in
      modify (with_size size);;
      data_set size e;;
      set_index e size;;
      idx ← get_index e;
      up idx
  else minheap_change e.

(** The first loop of [minheap_remove]: the entries of [back] from index 1. *)
Fixpoint collect (n : nat) (i : Z) (e : ptr) (room : Z) (back : list ptr) : H (list ptr) :=
  match n with
  | O => mret back
  | S n =>
      d ← data_at i;
      set_index d 0;;
      d ← data_at i;
      if decide (d = e) then collect n (i + 1) e room back
      else
        (* [back[c++]]: the array has [room] entries *)
        if (Z.of_nat (length back) + 1 <? room)%Z
        then collect n (i + 1) e room (back ++ [d])
        else fail OutOfBounds
  end.

Fixpoint insert_all (back : list ptr) : H () :=
  match back with
  | [] => mret tt
  | e :: back => minheap_insert e;; insert_all back
  end.

Definition minheap_remove (e : ptr) : H () :=
  m ← get;
  back ← collect (Z.to_nat (mh_size m)) 1 e (mh_size m - 1) [];
  modify (with_data (replicate (Z.to_nat (mh_max_size m)) NULL));;
  modify (with_size 0);;
  insert_all back.

Definition minheap_min : H ptr :=
  m ← get;
  if (mh_size m =? 0)%Z then mret NULL else data_at 1.

Definition minheap_popmin : H ptr :=
  m ← get;
  if (mh_size m =? 0)%Z then mret NULL
  else
    e ← data_at 1;
    swap 1 (mh_size m);;
    data_set (mh_size m) NULL;;
    modify (with_size (mh_size m - 1));;
    down 33 1;;
    set_index e 0;;
    mret e.
End minheap.

(** ** The cells of a heap *)

#[local] Arguments Nat.div : simpl never.
#[local] Ltac Zify.zify_post_hook ::= Z.to_euclidean_division_equations.

(** The cells and indices hold the elements [es]. *)
Record heap_data (m : minheap) (es : list loc) : Prop := {
  hd_size : mh_size m = Z.of_nat (length es);
  hd_max : mh_max_size m = Z.of_nat (length (mh_data m));
  hd_fits : length es < length (mh_data m);
  hd_small : (Z.of_nat (length (mh_data m)) < 2 ^ 30)%Z;
  hd_data : ∀ i, i < length es → mh_data m !! S i = Some (es !! i);
  hd_nodup : NoDup es;
  hd_index : ∀ i e, es !! i = Some e → mh_index m !! e = Some (Z.of_nat (S i));
}.

(** What the operations on the elements [es] leave alone. *)
Record heap_frame (es : list loc) (m m' : minheap) : Prop := {
  hf_max : mh_max_size m' = mh_max_size m;
  hf_dom : dom (mh_index m') = dom (mh_index m);
  hf_index : ∀ x, x ∉ es → mh_index m' !! x = mh_index m !! x;
}.

Lemma heap_frame_refl es m : heap_frame es m m.
Proof. done. Qed.
Lemma heap_frame_trans es es' m1 m2 m3 :
  heap_frame es m1 m2 → heap_frame es' m2 m3 → es' ≡ₚ es → heap_frame es m1 m3.
Proof.
  intros [Hm Hd Hi] [Hm' Hd' Hi'] Hp. split; [congruence..|]. intros x Hx. rw Hi' ?Hp //. by apply Hi.
Qed.

Definition swap_list (es : list loc) (i j : nat) : list loc :=
  match es !! i, es !! j with
  | Some a, Some b => <[i := b]> (<[j := a]> es)
  | _, _ => es
  end.

Lemma swap_list_perm es i j : swap_list es i j ≡ₚ es.
Proof.
  rw /swap_list. destruct (es !! i) as [a|] eqn:Hi; [|done].
  destruct (es !! j) as [b|] eqn:Hj; [|done].
  destruct (decide (i = j)) as [->|Hne].
  { simplify_eq. by rw !list_insert_id. }
  by apply Permutation_insert_swap.
Qed.

Lemma swap_list_lookup es i j a b k : es !! i = Some a → es !! j = Some b → k < length es →
  swap_list es i j !! k = if decide (k = i) then Some b else if decide (k = j) then Some a else es !! k.
Proof.
  intros Hi Hj Hk. rw /swap_list Hi Hj.
  destruct (decide (k = i)) as [->|]; [rw list_lookup_insert_eq ?length_insert //|].
  rw list_lookup_insert_ne //. destruct (decide (k = j)) as [->|].
  - by rw list_lookup_insert_eq.
  - by rw list_lookup_insert_ne.
Qed.

Lemma swap_list_length es i j : length (swap_list es i j) = length es.
Proof. by rw swap_list_perm. Qed.

(** *** Swapping two cells *)

Lemma wp_data_at m es i (Q : ptr → minheap → Prop) : heap_data m es → 1 ≤ i ≤ length es →
  (∀ e, es !! (i - 1) = Some e → Q (Some e) m) → wp (data_at (Z.of_nat i)) m Q.
Proof.
  intros Hd Hi HQ. destruct (lookup_lt_is_Some_2 es (i - 1) ltac:(lia)) as [e He].
  rw /wp /data_at. assert ((Z.of_nat i <? 0)%Z = false) as -> by (apply Z.ltb_ge; lia).
  rw Nat2Z.id. pose proof (hd_data _ _ Hd (i - 1) ltac:(lia)) as H.
  rw (_ : S (i - 1) = i) in H; [lia|]. rw H He. by apply HQ.
Qed.

Lemma swap_ok m es i j : heap_data m es → 1 ≤ i ≤ length es → 1 ≤ j ≤ length es →
  wp (swap (Z.of_nat i) (Z.of_nat j)) m (λ _ m', heap_data m' (swap_list es (i - 1) (j - 1)) ∧
    heap_frame es m m').
Proof.
  intros Hd Hi Hj. pose proof Hd as [Dsz Dmax Dfit Dsm Ddata Dnd Dix].
  destruct (lookup_lt_is_Some_2 es (i - 1) ltac:(lia)) as [a Ha].
  destruct (lookup_lt_is_Some_2 es (j - 1) ltac:(lia)) as [b Hb].
  pose proof (Dix _ _ Ha) as Hia. pose proof (Dix _ _ Hb) as Hib.
  assert (Hab : i = j → a = b) by (intros ->; congruence).
  set (d := mh_data m) in *. set (d' := <[j := Some a]> (<[i := Some b]> d)).
  assert (Hset : ∀ k p m0, 1 ≤ k ≤ length es → length (mh_data m0) = length d →
    data_set (Z.of_nat k) p m0 = Ok (tt, with_data (<[k := p]> (mh_data m0)) m0)).
  { intros k p m0 Hk Hl. rw /data_set Nat2Z.id.
    assert ((0 <=? Z.of_nat k)%Z = true) as -> by (apply Z.leb_le; lia).
    by rw bool_decide_eq_true_2; [lia|]. }
  rw /swap. wp_step. eapply (wp_data_at _ es); [done|lia|]. intros x Hx.
  assert (x = a) as -> by congruence. wp_step.
  eapply (wp_data_at _ es); [done|lia|]. intros x Hx'. assert (x = b) as -> by congruence.
  wp_step. eapply ok_wp; [by apply Hset|]. wp_step.
  eapply ok_wp; [apply Hset; [lia|by rw /= length_insert]|]. cbn [mh_data with_data]. fold d d'.
  set (m2 := with_data d' _).
  assert (Hi2 : d' !! i = Some (Some (if decide (i = j) then a else b))).
  { rw /d'. case_decide; [subst; rw list_lookup_insert_eq ?length_insert //; lia|].
    rw list_lookup_insert_ne // list_lookup_insert_eq //. lia. }
  assert (Hj2 : d' !! j = Some (Some a)).
  { rw /d' list_lookup_insert_eq ?length_insert //. lia. }
  assert (Hat : ∀ k e m0, mh_data m0 = d' → d' !! k = Some (Some e) →
    data_at (Z.of_nat k) m0 = Ok (Some e, m0)).
  { intros k e m0 Hm Hk. rw /data_at Nat2Z.id Hm Hk.
    by assert ((Z.of_nat k <? 0)%Z = false) as -> by (apply Z.ltb_ge; lia). }
  set (e1 := if decide (i = j) then a else b) in *.
  assert (He1 : ∃ z, mh_index m !! e1 = Some z) by (rw /e1; case_decide; eauto).
  destruct He1 as [z1 He1].
  wp_step. eapply ok_wp; [by apply Hat|]. wp_step. rw /set_index. wp_step.
  eapply wp_hstore; [done|]. wp_step. eapply ok_wp; [by apply Hat|]. wp_step.
  assert (Ha1 : is_Some (<[e1 := Z.of_nat i]> (mh_index m) !! a)).
  { destruct (decide (e1 = a)) as [->|]; [rw lookup_insert_eq; eauto|rw lookup_insert_ne //; eauto]. }
  destruct Ha1 as [za Ha1]. eapply wp_hstore; [exact Ha1|].
  split; [|split; [done| |]].
  2: { simpl. rw !dom_insert_lookup_L //; eauto. }
  2: { intros y Hy. simpl. assert (y ≠ a) by (intros ->; by eapply Hy, list_elem_of_lookup_2).
    assert (y ≠ b) by (intros ->; by eapply Hy, list_elem_of_lookup_2).
    rw !lookup_insert_ne //. rw /e1. by case_decide. }
  assert (Hdat : ∀ k, k < length es → d' !! S k = Some (swap_list es (i - 1) (j - 1) !! k)).
  { intros k Hk. rw (swap_list_lookup _ _ _ a b) //. rw /d'.
    destruct (decide (S k = j)) as [<-|].
    - rw list_lookup_insert_eq ?length_insert; [lia|]. repeat case_decide; try lia; try done.
      by rw Hab; [lia|].
    - rw list_lookup_insert_ne //. destruct (decide (S k = i)) as [<-|].
      + rw list_lookup_insert_eq; [lia|]. by rw decide_True; [lia|].
      + rw list_lookup_insert_ne // Ddata //. by rw !decide_False; [lia..|]. }
  split; simpl; rw ?swap_list_length //.
  - by rw /d' !length_insert.
  - by rw /d' !length_insert.
  - by rw /d' !length_insert.
  - by rw swap_list_perm.
  - intros k e He. pose proof (lookup_lt_Some _ _ _ He) as Hk. rw swap_list_length in Hk.
    rw (swap_list_lookup _ _ _ a b) // in He.
    destruct (decide (k = i - 1)) as [->|Hki].
    + injection He as <-. destruct (decide (i = j)) as [->|].
      * assert (b = a) as -> by congruence. rw lookup_insert_eq. f_equal. lia.
      * rw lookup_insert_ne; [intros ->; by assert (i - 1 = j - 1) by (eapply NoDup_lookup; eauto); lia|].
        rw /e1 lookup_insert_eq. f_equal. lia.
    + destruct (decide (k = j - 1)) as [->|Hkj].
      * injection He as <-. rw lookup_insert_eq. f_equal. lia.
      * assert (e ≠ a) by (intros ->; apply Hki; eapply NoDup_lookup; eauto).
        assert (e ≠ b) by (intros ->; apply Hkj; eapply NoDup_lookup; eauto).
        rw lookup_insert_ne // lookup_insert_ne; [rw /e1; case_decide; done|]. by apply Dix.
Qed.

Lemma pow2_above n k : (Z.of_nat n < 2 ^ 30)%Z → 30 ≤ k → n < 2 ^ k.
Proof.
  intros Hn Hk. pose proof (Nat.pow_le_mono_r 2 30 k ltac:(lia) Hk) as Hp.
  apply Nat2Z.inj_le in Hp. rw Nat2Z.inj_pow in Hp.
  change (Z.of_nat 2 ^ Z.of_nat 30)%Z with (2 ^ 30)%Z in Hp. lia.
Qed.

Lemma log2_small m es j : heap_data m es → 1 ≤ j ≤ length es → Nat.log2 j < 33.
Proof.
  intros Hd Hj. pose proof (hd_fits _ _ Hd). pose proof (hd_small _ _ Hd).
  apply Nat.log2_lt_pow2; [lia|]. apply pow2_above; lia.
Qed.

(** A new element is put into the first free cell, and moved up from there. *)
Lemma insert_start lt m es e (R : () → minheap → Prop) : heap_data m es → mh_index m !! e = Some 0%Z →
  (mh_size m + 1 < mh_max_size m)%Z →
  (∀ m1, heap_data m1 (es ++ [e]) → heap_frame (es ++ [e]) m m1 →
     wp (up lt (Z.of_nat (length (es ++ [e])))) m1 R) →
  wp (minheap_insert lt (Some e)) m R.
Proof.
  intros Hd He Hfull HR. pose proof Hd as [Dsz Dmax Dfit Dsm Ddata Dnd Dix].
  rw /minheap_insert. wp_step. rw /get_index. wp_step. eapply wp_hload; [done|].
  rw Z.eqb_refl. wp_step. wp_step. simpl.
  assert ((mh_max_size m <=? mh_size m)%Z = false) as -> by (apply Z.leb_gt; lia).
  wp_step. wp_step. wp_step. rw Dsz (_ : Z.of_nat (length es) + 1 = Z.of_nat (S (length es)))%Z; [lia|].
  rw {1}/wp /data_set Nat2Z.id. cbn [mh_data with_size with_index].
  rw bool_decide_eq_true_2; [lia|]. rw andb_true_r.
  assert ((0 <=? Z.of_nat (S (length es)))%Z = true) as -> by (apply Z.leb_le; lia).
  wp_step. rw /set_index. wp_step. simpl. eapply wp_hstore; [done|]. wp_step. wp_step.
  eapply wp_hload; [apply lookup_insert_eq|].
  set (m1 := with_index _ _).
  assert (Hnin : e ∉ es).
  { intros [i Hi]%list_elem_of_lookup. apply Dix in Hi. rw He in Hi. injection Hi. lia. }
  rw (_ : Z.of_nat (S (length es)) = Z.of_nat (length (es ++ [e]))); [rw length_app /=; lia|].
  apply HR.
  - split; simpl; rw ?length_insert ?length_app /=; try done; try lia.
    + intros i Hi. destruct (decide (i = length es)) as [->|].
      * rw list_lookup_insert_eq; [lia|]. by rw list_lookup_middle.
      * rw list_lookup_insert_ne; [lia|]. rw Ddata; [lia|]. rw lookup_app_l //. lia.
    + apply NoDup_app. split; [done|]. split; [set_solver|apply NoDup_singleton].
    + intros i x Hi. apply lookup_app_Some in Hi as [Hi|[Hlen Hi]].
      * rw lookup_insert_ne; [by intros ->; apply Hnin; eapply list_elem_of_lookup_2|]. by apply Dix.
      * apply list_lookup_singleton_Some in Hi as [Hz <-]. rw lookup_insert_eq. f_equal. lia.
  - split; simpl; [done|by rw !dom_insert_lookup_L // lookup_insert_eq|].
    intros x Hx. rw !lookup_insert_ne //; set_solver.
Qed.

Lemma min_head m es : heap_data m es → minheap_min m = Ok (head es, m).
Proof.
  intros Hd. enough (Hwp : wp minheap_min m (λ p m', p = head es ∧ m' = m))
    by (apply wp_ok in Hwp as (? & ? & -> & -> & ->); done).
  rw /minheap_min. wp_step. wp_step. rw (hd_size _ _ Hd). destruct es as [|e es].
  { by rw Z.eqb_refl. }
  destruct (Z.eqb_spec (Z.of_nat (length (e :: es))) 0) as [H0|_]; [simpl in H0; lia|].
  change 1%Z with (Z.of_nat 1). eapply wp_data_at; [done|simpl; lia|]. intros x Hx. by injection Hx as ->.
Qed.

(** ** The heap order *)

Section correct.
Context (key : loc → Z).
Definition key_lt (a b : loc) : bool := (key a <? key b)%Z.

(** The key at 1-based position [i] of the element list. *)
Definition K (es : list loc) (i : nat) : Z := from_option key 0%Z (es !! (i - 1)).

Definition heap_ordered (es : list loc) : Prop :=
  ∀ i, 2 ≤ i ≤ length es → (K es (i / 2) ≤ K es i)%Z.

(** Heap order but for the position [j], whose parent is in order with the
    children of [j]. *)
Definition heap_but (es : list loc) (j : nat) : Prop :=
  (∀ i, 2 ≤ i ≤ length es → i ≠ j → (K es (i / 2) ≤ K es i)%Z) ∧
  (∀ i, 2 ≤ i ≤ length es → i / 2 = j → 2 ≤ j → (K es (j / 2) ≤ K es i)%Z).

Definition heap_rep (m : minheap) (es : list loc) : Prop :=
  heap_data m es ∧ heap_ordered es.

Lemma K_swap es i j a b k : es !! i = Some a → es !! j = Some b → 1 ≤ k ≤ length es →
  K (swap_list es i j) k =
  if decide (k = S i) then key b else if decide (k = S j) then key a else K es k.
Proof.
  intros Hi Hj Hk. rw /K (swap_list_lookup _ _ _ a b) //; [lia|].
  repeat case_decide; try done; lia.
Qed.

(** *** Moving up *)

Lemma heap_but_swap es j a b : 2 ≤ j ≤ length es →
  es !! (j - 1) = Some a → es !! (j / 2 - 1) = Some b → (key a < key b)%Z →
  heap_but es j → heap_but (swap_list es (j - 1) (j / 2 - 1)) (j / 2).
Proof.
  intros Hj Ha Hb Hlt [H1 H2].
  assert (Ka : K es j = key a) by by rw /K Ha.
  assert (Kb : K es (j / 2) = key b) by by rw /K Hb.
  assert (HK : ∀ k, 1 ≤ k ≤ length es → K (swap_list es (j - 1) (j / 2 - 1)) k =
    if decide (k = j) then key b else if decide (k = j / 2) then key a else K es k).
  { intros k Hk. rw (K_swap _ _ _ a b) //. repeat case_decide; try done; lia. }
  split; rw swap_list_length.
  - intros i Hi Hne. rw !HK; [lia..|].
    destruct (decide (i = j)) as [->|Hij].
    { rw decide_False; [lia|]. rw decide_True //. lia. }
    rw (decide_False (P := i = j / 2)) //.
    destruct (decide (i / 2 = j)) as [Hc|]; [specialize (H2 i Hi Hc ltac:(lia)); lia|].
    specialize (H1 i Hi Hij). destruct (decide (i / 2 = j / 2)) as [Hc|]; [|done].
    rw Hc in H1. lia.
  - intros i Hi Hc Hp. rw !HK; [lia..|].
    rw (decide_False (P := j / 2 / 2 = j)); [lia|]. rw (decide_False (P := j / 2 / 2 = j / 2)); [lia|].
    pose proof (H1 (j / 2) ltac:(lia) ltac:(lia)) as Hup.
    destruct (decide (i = j)) as [->|Hij]; [lia|].
    rw (decide_False (P := i = j / 2)); [lia|]. specialize (H1 i Hi Hij). rw Hc in H1. lia.
Qed.

Lemma heap_but_done es j : 1 ≤ j ≤ length es → heap_but es j →
  (j = 1 ∨ (K es (j / 2) ≤ K es j)%Z) → heap_ordered es.
Proof.
  intros Hj [H1 H2] Hd i Hi. destruct (decide (i = j)) as [->|]; [|by apply H1].
  destruct Hd as [->|]; [lia|done].
Qed.

Lemma up_ok m es j : heap_data m es → 1 ≤ j ≤ length es → heap_but es j →
  wp (up key_lt (Z.of_nat j)) m (λ _ m', ∃ es', heap_rep m' es' ∧ es' ≡ₚ es ∧ heap_frame es m m').
Proof.
  intros Hd Hj Hh. rw /up.
  eapply (wp_loop (λ k '(idx, p) m', ∃ es' i, k = Nat.log2 i ∧ idx = Z.of_nat i ∧
    p = Z.of_nat (i / 2) ∧ heap_data m' es' ∧ es' ≡ₚ es ∧ 1 ≤ i ≤ length es' ∧ heap_but es' i ∧
    heap_frame es m m') _ _ (Nat.log2 j)); [| |by eapply log2_small].
  2: { exists es, j. split_and!; try done; [|lia..]. rw /parent; lia. }
  intros k [idx p] m' (es' & i & -> & -> & -> & Hd' & Hp & Hi & Hh' & Hfr).
  rw /up_body. destruct (Z.eqb_spec (Z.of_nat (i / 2)) 0) as [Hz|Hz].
  { wp_step. exists es'. split; [|done]. split; [done|]. eapply heap_but_done; [done|done|left; lia]. }
  wp_step. eapply wp_data_at; [done|lia|]. intros a Ha. wp_step. wp_step; [done|].
  wp_step. eapply wp_data_at; [done|lia|]. intros b Hb. wp_step. wp_step; [done|].
  wp_step. rw /less. wp_step. rw /key_lt. destruct (Z.ltb_spec (key a) (key b)) as [Hlt|Hge].
  2: { wp_step. exists es'. split; [|done]. split; [done|].
    eapply heap_but_done; [done|done|right]. by rw /K Ha Hb. }
  wp_step. eapply wp_mono; [apply swap_ok; [done|lia|lia]|]. cbv beta.
  intros _ m2 (Hd2 & Hfr2). wp_step. exists (Nat.log2 (i / 2)). split.
  { apply Nat.log2_lt_pow2; [lia|]. pose proof (Nat.log2_spec i ltac:(lia)) as [_ Hs].
    rw Nat.pow_succ_r' in Hs. lia. }
  assert (Hpos : 1 ≤ i / 2) by lia.
  exists (swap_list es' (i - 1) (i / 2 - 1)), (i / 2). rw swap_list_length.
  split_and!; try done; [rw /parent; lia|by rw swap_list_perm|lia| |by eapply heap_frame_trans].
  by eapply heap_but_swap; [lia| | | |].
Qed.

(** *** Insertion and the minimum *)

(** C16: inserting a new element into a heap with a free cell keeps the heap
    order and the stored indices, adds exactly that element, and ends within
    the 31 halvings of an index. *)
Theorem minheap_insert_heap m es e : heap_rep m es → mh_index m !! e = Some 0%Z →
  (mh_size m + 1 < mh_max_size m)%Z →
  ∃ m' es', minheap_insert key_lt (Some e) m = Ok (tt, m') ∧ heap_rep m' es' ∧ es' ≡ₚ e :: es ∧
    mh_max_size m' = mh_max_size m ∧ dom (mh_index m') = dom (mh_index m).
Proof.
  intros [Hd Hh] He Hfull.
  enough (wp (minheap_insert key_lt (Some e)) m (λ _ m', ∃ es', heap_rep m' es' ∧ es' ≡ₚ e :: es ∧
    mh_max_size m' = mh_max_size m ∧ dom (mh_index m') = dom (mh_index m)))
    as ([] & m' & -> & es' & ?)%wp_ok by (by exists m', es').
  eapply insert_start; [done..|]. intros m1 Hd1 [Hmax1 Hdom1 _].
  assert (HK : ∀ i, 1 ≤ i ≤ length es → K (es ++ [e]) i = K es i).
  { intros i Hi. rw /K lookup_app_l //. lia. }
  eapply wp_mono; [eapply (up_ok m1 (es ++ [e])); [done|rw length_app /=; lia|]|].
  { split; rw length_app /=; intros i Hi.
    - intros Hne. rw !HK; [lia..|]. apply Hh. lia.
    - intros Hc. lia. }
  cbv beta. intros _ m' (es' & Hr & Hp & [Hmax Hdom _]). exists es'. split; [done|].
  split; [by rw Hp Permutation_app_comm|]. split; congruence.
Qed.

End correct.

(** *** The elements of a heap in any order

    [minheap_popmin] does not keep the heap order; what it keeps is the set of
    the elements, whatever the comparison. *)

Section members.
Context (lt : loc → loc → bool).

Lemma up_members m es j : heap_data m es → 1 ≤ j ≤ length es →
  wp (up lt (Z.of_nat j)) m (λ _ m', ∃ es', heap_data m' es' ∧ es' ≡ₚ es ∧ heap_frame es m m').
Proof.
  intros Hd Hj. rw /up.
  eapply (wp_loop (λ k '(idx, p) m', ∃ es' i, k = Nat.log2 i ∧ idx = Z.of_nat i ∧
    p = Z.of_nat (i / 2) ∧ heap_data m' es' ∧ es' ≡ₚ es ∧ 1 ≤ i ≤ length es' ∧
    heap_frame es m m') _ _ (Nat.log2 j)); [| |by eapply log2_small].
  2: { exists es, j. split_and!; try done; [|lia..]. rw /parent; lia. }
  intros k [idx p] m' (es' & i & -> & -> & -> & Hd' & Hp & Hi & Hfr).
  rw /up_body. destruct (Z.eqb_spec (Z.of_nat (i / 2)) 0) as [Hz|Hz]; [wp_step; by exists es'|].
  wp_step. eapply wp_data_at; [done|lia|]. intros a Ha. wp_step. wp_step; [done|].
  wp_step. eapply wp_data_at; [done|lia|]. intros b Hb. wp_step. wp_step; [done|].
  wp_step. rw /less. wp_step. destruct (lt a b); [|wp_step; by exists es'].
  wp_step. eapply wp_mono; [apply swap_ok; [done|lia|lia]|]. cbv beta.
  intros _ m2 (Hd2 & Hfr2). wp_step. exists (Nat.log2 (i / 2)). split.
  { apply Nat.log2_lt_pow2; [lia|]. pose proof (Nat.log2_spec i ltac:(lia)) as [_ Hs].
    rw Nat.pow_succ_r' in Hs. lia. }
  assert (Hpos : 1 ≤ i / 2) by lia.
  exists (swap_list es' (i - 1) (i / 2 - 1)), (i / 2). rw swap_list_length.
  split_and!; try done; [rw /parent; lia|by rw swap_list_perm|lia|by eapply heap_frame_trans].
Qed.

(** The choice of the smaller child does not fault. *)
Lemma wp_child m es i j (R : Z → minheap → Prop) : heap_data m es → 1 ≤ i ≤ length es → 1 ≤ j ≤ length es →
  R (Z.of_nat i) m → R (Z.of_nat j) m →
  wp (el ← data_at (Z.of_nat i); e ← data_at (Z.of_nat j); b ← less lt el e;
      mret (if b : bool then Z.of_nat i else Z.of_nat j)) m R.
Proof.
  intros Hd Hi Hj HRi HRj. wp_step. eapply wp_data_at; [done|lia|]. intros a Ha.
  wp_step. eapply wp_data_at; [done|lia|]. intros b Hb. wp_step. rw /less. do 2 wp_step. by destruct (lt a b).
Qed.
Lemma wp_assert_two m es i j (R : () → minheap → Prop) : heap_data m es → 1 ≤ i ≤ length es →
  1 ≤ j ≤ length es → R tt m →
  wp (e ← data_at (Z.of_nat i); assert_ (bool_decide (e ≠ NULL));;
      e ← data_at (Z.of_nat j); assert_ (bool_decide (e ≠ NULL))) m R.
Proof.
  intros Hd Hi Hj HR. wp_step. eapply wp_data_at; [done|lia|]. intros a Ha. wp_step. wp_step; [done|].
  wp_step. eapply wp_data_at; [done|lia|]. intros b Hb. by wp_step.
Qed.

Lemma down_members fuel i m es : heap_data m es → 1 ≤ i → 0 < fuel → length es < i * 2 ^ fuel →
  (Z.of_nat i < 2 ^ 30)%Z →
  wp (down lt fuel (Z.of_nat i)) m (λ _ m', ∃ es', heap_data m' es' ∧ es' ≡ₚ es ∧ heap_frame es m m').
Proof.
  revert i m es. induction fuel as [|fuel IH]; intros i m es Hd Hi Hf Hlen Hsm; [lia|].
  pose proof (hd_size _ _ Hd) as Dsz. pose proof (hd_fits _ _ Hd). pose proof (hd_small _ _ Hd).
  cbn [down]. wp_step. wp_step. cbv zeta.
  rw (_ : left (Z.of_nat i) = Z.of_nat (2 * i)); [rw /left i32_small; lia|].
  rw (_ : right (Z.of_nat i) = Z.of_nat (2 * i + 1)); [rw /right i32_small; lia|].
  rw Dsz. wp_step. eapply (wp_mono _ _ (λ _ m', m' = m)).
  { destruct (Z.ltb_spec (Z.of_nat (2 * i)) (Z.of_nat (length es))); [|by wp_step].
    eapply wp_assert_two; [done|lia|lia|done]. }
  intros [] m1 ->. wp_step.
  eapply (wp_mono _ _ (λ min m', m' = m ∧ ∃ k, min = Z.of_nat k ∧ (k = i ∨ k = 2 * i ∧ 2 * i < length es))).
  { destruct (Z.ltb_spec (Z.of_nat (2 * i)) (Z.of_nat (length es))); [|wp_step; by eauto].
    eapply wp_child; [done|lia|lia| |]; (split; [done|]); eexists; (split; [done|]); [right; lia|by left]. }
  intros min1 m1 (-> & k & -> & Hk). wp_step. eapply (wp_mono _ _ (λ _ m', m' = m)).
  { destruct (Z.ltb_spec (Z.of_nat (2 * i + 1)) (Z.of_nat (length es))); [|by wp_step].
    eapply wp_assert_two; [done|lia|lia|done]. }
  intros [] m1 ->. wp_step.
  eapply (wp_mono _ _ (λ min m', m' = m ∧ ∃ k, min = Z.of_nat k ∧ (k = i ∨ 2 * i ≤ k < length es))).
  { destruct (Z.ltb_spec (Z.of_nat (2 * i + 1)) (Z.of_nat (length es))).
    - eapply wp_child; [done|lia|lia| |]; (split; [done|]); eexists; (split; [done|]); lia.
    - wp_step. split; [done|]. exists k. split; [done|]. lia. }
  intros min2 m1 (-> & k2 & -> & Hk2). destruct (Z.eqb_spec (Z.of_nat k2) (Z.of_nat i)) as [_|Hne].
  { wp_step. exists es. done. }
  wp_step. eapply wp_mono; [apply swap_ok; [done|lia|lia]|]. intros [] m1 (Hd1 & Hfr1).
  eapply wp_mono; [apply (IH k2 m1 _ Hd1)|].
  - lia.
  - destruct fuel; [|lia]. change (2 ^ 1) with 2 in Hlen. lia.
  - rw swap_list_length. rw Nat.pow_succ_r' in Hlen. nia.
  - lia.
  - cbv beta. intros [] m2 (es2 & Hd2 & Hp2 & Hfr2). exists es2. split; [done|].
    split; [by rw Hp2 swap_list_perm|]. eapply heap_frame_trans; [done|done|by rw swap_list_perm].
Qed.

Lemma insert_members m es e : heap_data m es → mh_index m !! e = Some 0%Z →
  (mh_size m + 1 < mh_max_size m)%Z →
  wp (minheap_insert lt (Some e)) m (λ _ m', ∃ es', heap_data m' es' ∧ es' ≡ₚ e :: es ∧ heap_frame (e :: es) m m').
Proof.
  intros Hd He Hroom. eapply insert_start; [done..|]. intros m1 Hd1 Hfr1.
  eapply wp_mono; [apply up_members; [done|rw length_app /=; lia]|].
  cbv beta. intros [] m2 (es2 & Hd2 & Hp2 & Hfr2). exists es2. split; [done|].
  assert (Hp : es ++ [e] ≡ₚ e :: es) by by rw Permutation_app_comm.
  split; [by rw Hp2|]. eapply heap_frame_trans; [|exact Hfr2|exact Hp].
  destruct Hfr1. split; [done..|]. intros x Hx. apply hf_index0. by rw Hp.
Qed.

(** The elements after the first cell has been swapped with the last and the
    last dropped. *)
Definition pop_list (es : list loc) : list loc := take (length es - 1) (swap_list es 0 (length es - 1)).

Lemma pop_list_perm e es : pop_list (e :: es) ≡ₚ es.
Proof.
  rw /pop_list (_ : length (e :: es) - 1 = length es); [simpl; lia|]. apply (Permutation_cons_inv (a := e)).
  trans (swap_list (e :: es) 0 (length es)); [|by rw swap_list_perm].
  rw -{2}(take_drop (length es) (swap_list (e :: es) 0 (length es))).
  rw Permutation_cons_append. f_equiv. apply reflexive_eq, list_eq. intros i. rw lookup_drop.
  destruct (lookup_lt_is_Some_2 (e :: es) (length es) ltac:(simpl; lia)) as [x Hx].
  destruct i as [|i].
  - rw Nat.add_0_r (swap_list_lookup _ _ _ e x) //=; [simpl; lia|]. case_decide; simplify_eq/=; [|by rw decide_True].
    by destruct es.
  - symmetry. rw lookup_ge_None_2; [rw swap_list_length /=; lia|done].
Qed.

Lemma popmin_members m e es : heap_data m (e :: es) →
  wp (minheap_popmin lt) m (λ p m', ∃ es', p = Some e ∧ heap_data m' es' ∧ es' ≡ₚ es ∧
    mh_max_size m' = mh_max_size m ∧ dom (mh_index m') = dom (mh_index m) ∧
    mh_index m' !! e = Some 0%Z ∧ ∀ x, x ∉ e :: es → mh_index m' !! x = mh_index m !! x).
Proof.
  intros Hd. pose proof (hd_size _ _ Hd) as Dsz. pose proof (hd_fits _ _ Hd) as Dfit. pose proof (hd_small _ _ Hd).
  rw /minheap_popmin. wp_step. wp_step. rw Dsz.
  destruct (Z.eqb_spec (Z.of_nat (length (e :: es))) 0) as [H0|_]; [simpl in H0; lia|].
  change 1%Z with (Z.of_nat 1). wp_step. eapply wp_data_at; [done|simpl; lia|]. intros x Hx. injection Hx as <-.
  wp_step. eapply wp_mono; [apply swap_ok; [done|simpl; lia..]|]. intros [] m1 ([D1 D2 D3 D4 D5 D6 D7] & Hfr1).
  rw swap_list_length in D1, D3, D5. wp_step. rw {1}/wp /data_set Nat2Z.id.
  rw bool_decide_eq_true_2; [lia|]. rw andb_true_r. rw (proj2 (Z.leb_le _ _)); [lia|].
  wp_step. wp_step. cbn [mh_size with_data].
  set (m2 := with_size _ _). pose proof (pop_list_perm e es) as Hpp.
  assert (Hl1 : length (e :: es) - 1 = length es) by (simpl; lia). rw Hl1 in D5, D6, D7.
  assert (Hsub : ∀ i, i < length es → pop_list (e :: es) !! i = swap_list (e :: es) 0 (length es) !! i).
  { intros i Hi. rw /pop_list Hl1 lookup_take_lt //. }
  assert (Hlp : length (pop_list (e :: es)) = length es) by by rw Hpp.
  assert (Hd2 : heap_data m2 (pop_list (e :: es))).
  { split; rw ?Hlp; simpl; rw ?length_insert //.
    - simpl. lia.
    - simpl in D3. lia.
    - intros i Hi. rw list_lookup_insert_ne; [simpl; lia|]. rw D5; [simpl; lia|]. by rw Hsub.
    - rw Hpp. by apply NoDup_cons_1_2 with e, (hd_nodup _ _ Hd).
    - intros i x Hi. pose proof (lookup_lt_Some _ _ _ Hi) as Hlt. rw Hlp in Hlt. rw Hsub // in Hi.
      by apply D7. }
  wp_step. eapply wp_mono; [apply (down_members 33 1 m2 _ Hd2); [lia|lia| |lia]|].
  { rw Nat.mul_1_l. apply pow2_above; [|lia]. simpl length in Dfit. lia. }
  intros [] m3 (es3 & Hd3 & Hp3 & [Hfr3 Hfr4 Hfr5]). wp_step. rw /set_index. wp_step.
  destruct Hfr1 as [Hm1 Hm2 Hm3]. assert (Hin : e ∈ dom (mh_index m3)).
  { rw Hfr4 /= Hm2. apply elem_of_dom. exists (Z.of_nat 1). by apply (hd_index _ _ Hd 0). }
  apply elem_of_dom in Hin as [z Hz]. eapply wp_hstore; [exact Hz|]. wp_step. exists es3.
  assert (Hne : e ∉ es3). { rw Hp3 Hpp. by apply NoDup_cons_1_1, (hd_nodup _ _ Hd). }
  split_and!; [done| |by rw Hp3 Hpp|simpl; rw Hfr3 /=; done|
    by rw /= dom_insert_lookup_L // Hfr4|by rw /= lookup_insert_eq|].
  - destruct Hd3 as [E1 E2 E3 E4 E5 E6 E7]. split; try done. intros i x Hi. simpl. rw lookup_insert_ne; [|by apply E7].
    intros <-. by eapply Hne, list_elem_of_lookup_2.
  - intros x [Hxe Hx]%not_elem_of_cons. simpl. rw lookup_insert_ne //. rw Hfr5 ?Hpp //=. apply Hm3. set_solver.
Qed.
End members.

(** Ten free elements and a heap for at most five. *)
Definition sample_key (e : loc) : Z := (Z.pos e * 7) mod 10.
Definition sample_heap : minheap :=
  minheap_create 6 (list_to_map ((λ e, (e, 0%Z)) <$> [1; 2; 3; 4; 5]%positive)).

Lemma sample_heap_rep : heap_rep sample_key sample_heap [].
Proof.
  split; [split|]; try done; [simpl; lia|intros i Hi; simpl in Hi; lia|apply NoDup_nil_2].
Qed.

Lemma minheap_insert_heap_witness : ∃ m' es',
  minheap_insert (key_lt sample_key) (Some 3%positive) sample_heap = Ok (tt, m') ∧
  heap_rep sample_key m' es' ∧ es' ≡ₚ [3%positive] ∧ mh_max_size m' = 6%Z ∧
  dom (mh_index m') = dom (mh_index sample_heap).
Proof.
  apply (minheap_insert_heap sample_key sample_heap [] 3%positive).
  - apply sample_heap_rep.
  - by vm_compute.
  - by vm_compute.
Defined.


(** The last allocated cell is the one before [max_size]: the guard of
    [minheap_insert] admits one element too many. *)
Lemma minheap_insert_overflow :
  (minheap_insert (key_lt Z.pos) (Some 1%positive);;
   minheap_insert (key_lt Z.pos) (Some 2%positive))
    (minheap_create 2 (list_to_map [(1%positive, 0%Z); (2%positive, 0%Z)])) = Fault OutOfBounds.
Proof. by vm_compute. Qed.

(** [down] ignores the last element: 1, 2 and 3 are popped as 1, 3. *)
Lemma minheap_popmin_out_of_order :
  match (minheap_insert (key_lt Z.pos) (Some 1%positive);;
         minheap_insert (key_lt Z.pos) (Some 2%positive);;
         minheap_insert (key_lt Z.pos) (Some 3%positive);;
         e1 ← minheap_popmin (key_lt Z.pos);
         e2 ← minheap_popmin (key_lt Z.pos);
         mret (e1, e2))
    (minheap_create 9 (list_to_map [(1%positive, 0%Z); (2%positive, 0%Z); (3%positive, 0%Z)]))
  with Ok (r, _) => r = (Some 1%positive, Some 3%positive) | Fault _ => False end.
Proof. by vm_compute. Qed.

(** [minheap_remove] of an element of a heap of two writes past [back]. *)
Lemma minheap_remove_overflow :
  (minheap_insert (key_lt Z.pos) (Some 1%positive);;
   minheap_insert (key_lt Z.pos) (Some 2%positive);;
   minheap_remove (key_lt Z.pos) (Some 1%positive))
    (minheap_create 9 (list_to_map [(1%positive, 0%Z); (2%positive, 0%Z)])) = Fault OutOfBounds.
Proof. by vm_compute. Qed.
