(* ===== verification/RBTree.v ===== *)
(** * The red-black tree ([src/src/RBtree.c], [src/include/RBtree.h])

    A search tree of nodes with parent links and one shared [nil] node, the
    field [dummy] of the tree itself.  The nodes, the dummy among them, are a
    store of records; the memory of the dummy is not initialised by
    [RBtree_create] but for its colour, so its other fields start with arbitrary
    values, which the model takes as an argument.  Keys and values are byte
    blocks, and the comparison is the caller's. *)
From S2P Require Import Prelude.

(** ** Data *)

Inductive color := RED | BLACK.

#[export] Instance color_eq_dec : EqDecision color.
Proof. solve_decision. Defined.

Record RBnode := Node {
  n_parent : ptr;
  n_left : ptr;
  n_right : ptr;
  n_color : color;
  n_key : list Z;
  n_val : list Z;
}.

Record RBtree := Tree {
  rb_root : ptr;
  rb_nil : loc;
  rb_size : Z;
  rb_key_size : nat;
  rb_val_size : nat;
  rb_nodes : gmap loc RBnode;
}.

(** An iterator holds a node's address. *)
Abbreviation map_iter := ptr.

Definition set_parent (p : ptr) (n : RBnode) : RBnode :=
  Node p (n_left n) (n_right n) (n_color n) (n_key n) (n_val n).
Definition set_left (p : ptr) (n : RBnode) : RBnode :=
  Node (n_parent n) p (n_right n) (n_color n) (n_key n) (n_val n).
Definition set_right (p : ptr) (n : RBnode) : RBnode :=
  Node (n_parent n) (n_left n) p (n_color n) (n_key n) (n_val n).
Definition set_color (c : color) (n : RBnode) : RBnode :=
  Node (n_parent n) (n_left n) (n_right n) c (n_key n) (n_val n).
Definition set_key (k : list Z) (n : RBnode) : RBnode :=
  Node (n_parent n) (n_left n) (n_right n) (n_color n) k (n_val n).
Definition set_val (v : list Z) (n : RBnode) : RBnode :=
  Node (n_parent n) (n_left n) (n_right n) (n_color n) (n_key n) v.

Definition with_root (p : ptr) (rb : RBtree) : RBtree :=
  Tree p (rb_nil rb) (rb_size rb) (rb_key_size rb) (rb_val_size rb) (rb_nodes rb).
Definition with_rbsize (n : Z) (rb : RBtree) : RBtree :=
  Tree (rb_root rb) (rb_nil rb) n (rb_key_size rb) (rb_val_size rb) (rb_nodes rb).
Definition with_nodes (h : gmap loc RBnode) (rb : RBtree) : RBtree :=
  Tree (rb_root rb) (rb_nil rb) (rb_size rb) (rb_key_size rb) (rb_val_size rb) h.

(** ** Access to the fields of nodes and tree *)

Abbreviation T := (M RBtree).

Definition on_nodes {A} (m : M (gmap loc RBnode) A) : T A := zoom rb_nodes with_nodes m.
Definition node (p : ptr) : T RBnode := on_nodes (hload p).
Definition update (p : ptr) (f : RBnode → RBnode) : T () := on_nodes (hmodify p f).
Definition nil : T ptr := gets (λ rb, Some (rb_nil rb)).
Definition root : T ptr := gets rb_root.
Definition set_root (p : ptr) : T () := modify (with_root p).
(** A bound on the length of any path. *)
Definition path_fuel : T nat := gets (λ rb, 2 + size (rb_nodes rb)).

Section RBtree.
Context (compare_function : list Z → list Z → Z).

Definition less (left right : list Z) : bool := (compare_function left right =? -1)%Z.
Definition equal (left right : list Z) : bool := (compare_function left right =? 0)%Z.
Definition more (left right : list Z) : bool := (compare_function left right =? 1)%Z.

(** [get_key] and [get_value] assert that the node is there. *)
Definition get_key (p : ptr) : T (list Z) :=
  assert_ (bool_decide (p ≠ NULL));; n ← node p; mret (n_key n).
Definition get_value (p : ptr) : T (list Z) :=
  assert_ (bool_decide (p ≠ NULL));; n ← node p; mret (n_val n).
Definition copy_key (p : ptr) (key : list Z) : T () :=
  rb ← get; update p (set_key (take (rb_key_size rb) key)).
Definition copy_value (p : ptr) (value : list Z) : T () :=
  rb ← get; update p (set_val (take (rb_val_size rb) value)).

(** [dummy] is what the memory of the dummy node holds before. *)
Definition RBtree_create (dummy_loc : loc) (dummy : RBnode) (key_size val_size : nat) : RBtree :=
  Tree (Some dummy_loc) dummy_loc 0 key_size val_size {[ dummy_loc := set_color BLACK dummy ]}.

(** *** Rotations *)

Definition rotate_left (n : ptr) : T () :=
  nn ← node n;
  let parent := n_parent nn in
  let right := n_right nn in
  nil ← nil;
  if decide (right = nil) then mret tt
  else
    rn ← node right;
    update n (set_right (n_left rn));;
    update (n_left rn) (set_parent n);;
    root ← root;
    (if decide (n = root) then set_root right
     else
       pn ← node parent;
       if decide (n = n_left pn) then update parent (set_left right)
       else update parent (set_right right));;
    update right (set_parent parent);;
    update n (set_parent right);;
    update right (set_left n).

Definition rotate_right (n : ptr) : T () :=
  nn ← node n;
  let parent := n_parent nn in
  let left := n_left nn in
  nil ← nil;
  if decide (left = nil) then mret tt
  else
    ln ← node left;
    update n (set_left (n_right ln));;
    update (n_right ln) (set_parent n);;
    root ← root;
    (if decide (n = root) then set_root left
     else
       pn ← node parent;
       if decide (n = n_left pn) then update parent (set_left left)
       else update parent (set_right left));;
    update left (set_parent parent);;
    update n (set_parent left);;
    update left (set_right n).

Definition color_flip (n : ptr) : T () :=
  nn ← node n;
  if bool_decide (n_left nn ≠ NULL) && bool_decide (n_right nn ≠ NULL) then
    update n (set_color RED);;
    update (n_right nn) (set_color BLACK);;
    update (n_left nn) (set_color BLACK)
  else mret tt.

(** *** Insertion *)

(** One iteration of [insert_fix_up]. *)
Definition insert_fix_body (n : ptr) : T (ptr + ()) :=
  nn ← node n;
  let parent := n_parent nn in
  pn ← node parent;
  if decide (n_color pn = RED) then
    let grand_parent := n_parent pn in
    gn ← node grand_parent;
    if decide (parent = n_left gn) then
      ancle ← node (n_right gn);
      if decide (n_color ancle = RED) then
        color_flip grand_parent;;
        mret (inl grand_parent)
      else
        n ← (if decide (n = n_right pn) then rotate_left parent;; mret parent else mret n);
        nn ← node n;
        update (n_parent nn) (set_color BLACK);;
        pn ← node (n_parent nn);
        update (n_parent pn) (set_color RED);;
        rotate_right (n_parent pn);;
        mret (inl n)
    else
      ancle ← node (n_left gn);
      if decide (n_color ancle = RED) then
        color_flip grand_parent;;
        mret (inl grand_parent)
      else
        n ← (if decide (n = n_left pn) then rotate_right parent;; mret parent else mret n);
        nn ← node n;
        update (n_parent nn) (set_color BLACK);;
        pn ← node (n_parent nn);
        update (n_parent pn) (set_color RED);;
        rotate_left (n_parent pn);;
        mret (inl n)
  else mret (inr tt).

Definition insert_fix_up (n : ptr) : T () :=
  fuel ← path_fuel;
  loop fuel insert_fix_body n;;
  root ← root;
  update root (set_color BLACK).

(** One iteration of [find]: the locals are [cur] and [pre]. *)
Definition find_body (key : list Z) (x : ptr * ptr) : T ((ptr * ptr) + ptr) :=
  let '(cur, pre) := x in
  nil ← nil;
  if decide (cur = nil) then mret (inr pre)
  else
    k ← get_key cur;
    if equal key k then mret (inr cur)
    else
      n ← node cur;
      if less key k then mret (inl (n_left n, cur)) else mret (inl (n_right n, cur)).

Definition find (key : list Z) : T ptr :=
  root ← root;
  nil ← nil;
  if decide (root = nil) then mret nil
  else fuel ← path_fuel; loop fuel (find_body key) (root, NULL).

(** [malloc] of a node: its links and colour are set by the caller. *)
Definition create_node (key value : list Z) : T ptr :=
  rb ← get;
  l ← on_nodes (halloc (Node NULL NULL NULL RED (take (rb_key_size rb) key)
                          (take (rb_val_size rb) value)));
  mret (Some l).

Definition RBtree_end : T map_iter := nil.

Definition RBtree_insert (key val : list Z) : T map_iter :=
  x ← find key;
  nil ← nil;
  found ← (if decide (x = nil) then mret false else k ← get_key x; mret (equal key k));
  if found : bool then RBtree_end
  else
    n ← create_node key val;
    update n (set_color RED);;
    update n (set_right nil);;
    update n (set_left nil);;
    (if decide (x = nil) then
       update n (set_parent nil);;
       set_root n
     else
       update n (set_parent x);;
       k ← get_key x;
       if less key k then update x (set_left n) else update x (set_right n));;
    modify (λ rb, with_rbsize (u32 (rb_size rb + 1)) rb);;
    insert_fix_up n;;
    mret n.

(** *** Search and traversal *)

Definition RBtree_find (key : list Z) : T map_iter :=
  n ← find key;
  nil ← nil;
  if decide (n = nil) then RBtree_end
  else
    k ← get_key n;
    if equal key k then mret n else RBtree_end.

Definition minimum (n : ptr) : T ptr :=
  nil ← nil;
  fuel ← path_fuel;
  loop fuel (λ n, nn ← node n;
    if decide (n_left nn = nil) then mret (inr n) else mret (inl (n_left nn))) n.

Definition maxmum (n : ptr) : T ptr :=
  nil ← nil;
  fuel ← path_fuel;
  loop fuel (λ n, nn ← node n;
    if decide (n_right nn = nil) then mret (inr n) else mret (inl (n_right nn))) n.

(** The climb of [successor]: the locals are [n] and [y]. *)
Definition successor (n : ptr) : T ptr :=
  nn ← node n;
  nil ← nil;
  if decide (n_right nn = nil) then
    fuel ← path_fuel;
    loop fuel (λ '(n, y),
      if decide (y = nil) then mret (inr y)
      else
        yn ← node y;
        if decide (n = n_right yn) then mret (inl (y, n_parent yn)) else mret (inr y))
      (n, n_parent nn)
  else minimum (n_right nn).

Definition predecessor (n : ptr) : T ptr :=
  nn ← node n;
  nil ← nil;
  if decide (n_left nn = nil) then
    fuel ← path_fuel;
    loop fuel (λ '(n, y),
      if decide (y = nil) then mret (inr y)
      else
        yn ← node y;
        if decide (n = n_left yn) then mret (inl (y, n_parent yn)) else mret (inr y))
      (n, n_parent nn)
  else maxmum (n_left nn).

Definition rb_iter_get_first (it : map_iter) : T (list Z) := get_key it.
Definition rb_iter_get_second (it : map_iter) : T (list Z) := get_value it.
Definition rb_iter_set_second (it : map_iter) (val : list Z) : T () := copy_value it val.

Definition RB_iter_next (it : map_iter) : T map_iter :=
  nil ← nil;
  if decide (it = nil) then mret it
  else
    succ ← successor it;
    mret (match succ with None => nil | Some _ => succ end).

Definition RBtree_begin : T map_iter :=
  root ← root;
  min ← minimum root;
  nil ← nil;
  mret (match min with None => nil | Some _ => min end).

(** *** Deletion *)

Definition get_delete_node (n : ptr) : T ptr :=
  nn ← node n;
  nil ← nil;
  if decide (n_left nn = nil ∧ n_right nn = nil) then mret n
  else if decide (n_right nn = nil) then maxmum (n_left nn)
  else minimum (n_right nn).

(** One iteration of [delete_fix_up]; [w->left->color == BLACK;] is a statement
    without effect in the source, as [w->right->color == BLACK;] is. *)
Definition delete_fix_body (n : ptr) : T (ptr + ptr) :=
  root ← root;
  nn ← node n;
  if decide (n = root ∨ n_color nn = RED) then mret (inr n)
  else
    let p := n_parent nn in
    pn ← node p;
    if decide (n = n_left pn) then
      wn ← node (n_right pn);
      (if decide (n_color wn = RED) then
         update (n_right pn) (set_color BLACK);;
         update p (set_color RED);;
         rotate_left p
       else mret tt);;
      pn ← node p;
      let w := n_right pn in
      wn ← node w;
      wl ← node (n_left wn);
      wr ← node (n_right wn);
      if decide (n_color wl = BLACK ∧ n_color wr = BLACK) then
        update w (set_color RED);;
        mret (inl p)
      else
        (if decide (n_color wr = BLACK) then
           update w (set_color RED);;
           rotate_right w
         else mret tt);;
        pn ← node p;
        let w := n_right pn in
        update w (set_color (n_color pn));;
        update p (set_color BLACK);;
        wn ← node w;
        update (n_right wn) (set_color BLACK);;
        rotate_left p;;
        rb ← get;
        mret (inl (rb_root rb))
    else
      wn ← node (n_left pn);
      (if decide (n_color wn = RED) then
         update (n_left pn) (set_color BLACK);;
         update p (set_color RED);;
         rotate_right p
       else mret tt);;
      pn ← node p;
      let w := n_left pn in
      wn ← node w;
      wl ← node (n_left wn);
      wr ← node (n_right wn);
      if decide (n_color wl = BLACK ∧ n_color wr = BLACK) then
        update w (set_color RED);;
        mret (inl p)
      else
        (if decide (n_color wl = BLACK) then
           update w (set_color RED);;
           rotate_left w
         else mret tt);;
        pn ← node p;
        let w := n_left pn in
        update w (set_color (n_color pn));;
        update p (set_color BLACK);;
        wn ← node w;
        update (n_left wn) (set_color BLACK);;
        rotate_right p;;
        rb ← get;
        mret (inl (rb_root rb)).

Definition delete_fix_up (n : ptr) : T () :=
  fuel ← path_fuel;
  n ← loop fuel delete_fix_body n;
  update n (set_color BLACK).

(** [want_succ] says whether the caller passes [succ]; the result is what is
    stored there, NULL when nothing is. *)
Definition rb_delete (key : list Z) (want_succ : bool) : T ptr :=
  n ← find key;
  kn ← get_key n;
  if equal key kn then
    x ← get_delete_node n;
    succ ← (if want_succ then
              kx ← get_key x;
              if bool_decide (x = n) || less kx kn then successor x else mret n
            else mret NULL);
    xn ← node x;
    nil ← nil;
    let parent := n_parent xn in
    pn ← node parent;
    (* the link to [x] in its parent *)
    let set_link p := update parent (if decide (x = n_left pn) then set_left p else set_right p) in
    let z := if decide (n_left xn = nil)
             then (if decide (n_right xn = nil) then nil else n_right xn)
             else n_left xn in
    set_link z;;
    update z (set_parent parent);;
    (if decide (n = x) then mret tt
     else
       kx ← get_key x;
       copy_key n kx;;
       vx ← get_value x;
       copy_value n vx);;
    root ← root;
    xn ← node x;
    (if bool_decide (x ≠ root) && bool_decide (n_color xn = BLACK) then delete_fix_up z
     else mret tt);;
    rb ← get;
    (if decide (x = rb_root rb) then set_root nil else mret tt);;
    on_nodes (hfree x);;
    modify (λ rb, with_rbsize (u32 (rb_size rb - 1)) rb);;
    mret succ
  else mret NULL.

Definition RBtree_delete (key : list Z) : T () := rb_delete key false;; mret tt.

Definition RBtree_erase (it : map_iter) : T map_iter :=
  key ← get_key it;
  succ ← rb_delete key true;
  match succ with None => RBtree_end | Some _ => mret succ end.

Definition RBtree_size : T Z := gets rb_size.
Definition RBtree_empty : T bool := gets (λ rb, (rb_size rb =? 0)%Z).

(** *** Destruction and checking *)

(** One round of [RBtree_destroy]; the local is the stack of nodes, its front
    first.  The dummy is a part of the tree struct and no block of its own. *)
Definition destroy_round (stack : list ptr) : T (list ptr + ()) :=
  match stack with
  | [] => mret (inr tt)
  | cur :: _ =>
      n ← node cur;
      stack ← (match n_right n with
               | Some _ => update cur (set_right NULL);; mret (n_right n :: stack)
               | None => mret stack
               end);
      stack ← (match n_left n with
               | Some _ => update cur (set_left NULL);; mret (n_left n :: stack)
               | None => mret stack
               end);
      n ← node cur;
      if decide (n_left n = NULL ∧ n_right n = NULL) then
        rb ← get;
        (if decide (cur = Some (rb_nil rb)) then fail BadFree else on_nodes (hfree cur));;
        mret (inl (tail stack))
      else mret (inl stack)
  end.

Definition RBtree_destroy : T () :=
  rb ← get;
  if (rb_size rb =? 0)%Z then mret tt
  else fuel ← path_fuel; loop (3 * fuel) destroy_round [rb_root rb].

(** [check]: the results are the return value, [*max_black_level] and
    [*max_level].  In its last branch the function ends without a [return]; its
    value is then [fall_off]. *)
Fixpoint check (fall_off : Z) (fuel : nat) (n : ptr) (level black_level : Z) (maxima : Z * Z) :
    T (Z * (Z * Z)) :=
  match fuel with
  | O => fail NoFuel
  | S fuel =>
      nil ← nil;
      if decide (n = nil) then mret (1%Z, maxima)
      else
        nn ← node n;
        pn ← node (n_parent nn);
        let black_level := if decide (n_color nn = BLACK) then (black_level + 1)%Z else black_level in
        if decide (n_color nn = RED ∧ n_color pn = RED) then mret (0%Z, maxima)
        else
          let level := (level + 1)%Z in
          if decide (n_left nn = nil ∧ n_right nn = nil) then
            let '(max_black_level, max_level) := maxima in
            let max_level := Z.max level max_level in
            if (max_black_level =? 0)%Z then mret (1%Z, (black_level, max_level))
            else if (max_black_level =? black_level)%Z then mret (1%Z, (max_black_level, max_level))
            else mret (0%Z, (max_black_level, max_level))
          else
            '(r, maxima) ← check fall_off fuel (n_left nn) level black_level maxima;
            if (r =? 0)%Z then mret (0%Z, maxima)
            else
              '(r, maxima) ← check fall_off fuel (n_right nn) level black_level maxima;
              if (r =? 0)%Z then mret (0%Z, maxima) else mret (fall_off, maxima)
  end.

(** What [RBtree_check_vaild] prints. *)
Definition RBtree_check_vaild (fall_off : Z) : T (option (Z * Z)) :=
  rb ← get;
  if decide (rb_root rb = Some (rb_nil rb)) then mret None
  else
    fuel ← path_fuel;
    '(r, maxima) ← check fall_off fuel (rb_root rb) 0 0 (0%Z, 0%Z);
    mret (if (r =? 0)%Z then None else Some maxima).
End RBtree.

(** ** The tree in the store

    A [tree] is the abstract shape: colour, address, key and value of every node.
    [rep] says that a store holds it below a given parent; a [ctx] is the path
    from a subtree up to the root, innermost node first, and [crep] says that the
    store holds it around a subtree at a given address. *)

Inductive tree :=
  | L
  | N (c : color) (x : loc) (k v : list Z) (l r : tree).

(** Whether the hole is the left child, the node, and the other child. *)
Record frame := Fr {
  f_left : bool;
  f_color : color;
  f_addr : loc;
  f_key : list Z;
  f_val : list Z;
  f_sib : tree;
}.
Abbreviation ctx := (list frame).

Definition plug1 (f : frame) (t : tree) : tree :=
  if f_left f then N (f_color f) (f_addr f) (f_key f) (f_val f) t (f_sib f)
  else N (f_color f) (f_addr f) (f_key f) (f_val f) (f_sib f) t.
Definition plug (K : ctx) (t : tree) : tree := foldl (λ t f, plug1 f t) t K.

Fixpoint locs (t : tree) : list loc :=
  match t with L => [] | N _ x _ _ l r => locs l ++ x :: locs r end.
Definition clocs (K : ctx) : list loc := K ≫= λ f, f_addr f :: locs (f_sib f).

(** The elements in order, with the addresses of their nodes. *)
Fixpoint items (t : tree) : list (loc * (list Z * list Z)) :=
  match t with L => [] | N _ x k v l r => items l ++ (x, (k, v)) :: items r end.

Section rep.
Context (h : gmap loc RBnode) (nl : loc).

Definition addr (t : tree) : ptr :=
  match t with L => Some nl | N _ x _ _ _ _ => Some x end.
Definition caddr (K : ctx) : ptr :=
  match K with [] => Some nl | f :: _ => Some (f_addr f) end.

Fixpoint rep (par : ptr) (t : tree) : Prop :=
  match t with
  | L => True
  | N c x k v l r =>
      h !! x = Some (Node par (addr l) (addr r) c k v) ∧ rep (Some x) l ∧ rep (Some x) r
  end.

Fixpoint crep (K : ctx) (a : ptr) : Prop :=
  match K with
  | [] => True
  | Fr d c x k v s :: K =>
      h !! x = Some (if d then Node (caddr K) a (addr s) c k v
                     else Node (caddr K) (addr s) a c k v) ∧
      rep (Some x) s ∧ crep K (Some x)
  end.
End rep.

(** The address of the root, from the path to a subtree. *)
Fixpoint croot (K : ctx) (a : ptr) : ptr :=
  match K with [] => a | f :: K => croot K (Some (f_addr f)) end.

(** The store of [rb] holds [t] within [K], and nothing else but the dummy. *)
Record tree_at (rb : RBtree) (K : ctx) (t : tree) : Prop := {
  ta_nodup : NoDup (rb_nil rb :: clocs K ++ locs t);
  ta_nil : ∃ d, rb_nodes rb !! rb_nil rb = Some d ∧ n_color d = BLACK;
  ta_dom : dom (rb_nodes rb) = list_to_set (rb_nil rb :: clocs K ++ locs t);
  ta_ctx : crep (rb_nodes rb) (rb_nil rb) K (addr (rb_nil rb) t);
  ta_rep : rep (rb_nodes rb) (rb_nil rb) (caddr (rb_nil rb) K) t;
  ta_root : rb_root rb = croot K (addr (rb_nil rb) t);
}.

(** What the operations on nodes leave alone. *)
Definition same_but_nodes (rb rb' : RBtree) : Prop :=
  rb_nil rb' = rb_nil rb ∧ rb_size rb' = rb_size rb ∧
  rb_key_size rb' = rb_key_size rb ∧ rb_val_size rb' = rb_val_size rb.

#[export] Instance same_but_nodes_preorder : PreOrder same_but_nodes.
Proof.
  split.
  - by intros [].
  - rw /same_but_nodes. intros ??? (?&?&?&?) (?&?&?&?). repeat split; congruence.
Qed.

(** *** Focus: moving between a subtree and its parent *)

Lemma plug_app K1 K2 t : plug (K1 ++ K2) t = plug K2 (plug K1 t).
Proof. by rw /plug foldl_app. Qed.
Lemma plug_cons f K t : plug (f :: K) t = plug K (plug1 f t).
Proof. done. Qed.

Lemma locs_plug1 f t : locs (plug1 f t) ≡ₚ f_addr f :: locs (f_sib f) ++ locs t.
Proof.
  destruct f as [[] c x k v s]; rw /plug1 /=.
  - rw -Permutation_middle. f_equiv. apply Permutation_app_comm.
  - by rw -Permutation_middle.
Qed.
Lemma clocs_cons f K : clocs (f :: K) = f_addr f :: locs (f_sib f) ++ clocs K.
Proof. done. Qed.
Lemma locs_focus f K t : clocs K ++ locs (plug1 f t) ≡ₚ clocs (f :: K) ++ locs t.
Proof.
  rw clocs_cons locs_plug1 /= -Permutation_middle. f_equiv.
  rw !(assoc (++)). f_equiv. apply Permutation_app_comm.
Qed.

Lemma tree_at_focus rb f K t : tree_at rb (f :: K) t ↔ tree_at rb K (plug1 f t).
Proof.
  destruct f as [d c x k v s].
  split; intros [Hnd Hnil Hdom Hc Hr Hroot]; split.
  - by rw locs_focus.
  - done.
  - by rw locs_focus.
  - destruct d; apply Hc.
  - destruct Hc as (Hx & Hs & ?). destruct d; cbn; auto.
  - by destruct d.
  - by rw -locs_focus.
  - done.
  - by rw -locs_focus.
  - destruct d; cbn in Hr |- *; destruct Hr as (?&?&?); split_and!; auto.
  - destruct d; apply Hr.
  - by destruct d.
Qed.
Lemma tree_at_plug rb K t : tree_at rb K t ↔ tree_at rb [] (plug K t).
Proof.
  revert t. induction K as [|f K IH]; intros t; [done|].
  by rw tree_at_focus IH plug_cons.
Qed.

(** *** Stores that agree on a tree *)

Lemma rep_frame h h' nl par t :
  (∀ x, x ∈ locs t → h' !! x = h !! x) → rep h nl par t → rep h' nl par t.
Proof.
  revert par. induction t as [|c x k v l IHl r IHr]; intros par Hf; simpl in *; [done|].
  intros (Hx & ? & ?). split_and!.
  - rw Hf // elem_of_app elem_of_cons. auto.
  - apply IHl; [|done]. intros. apply Hf. apply elem_of_app. by left.
  - apply IHr; [|done]. intros. apply Hf. apply elem_of_app. right. by right.
Qed.
Lemma crep_frame h h' nl K a :
  (∀ x, x ∈ clocs K → h' !! x = h !! x) → crep h nl K a → crep h' nl K a.
Proof.
  revert a. induction K as [|[d c x k v s] K IH]; intros a Hf; [done|].
  rw clocs_cons in Hf. intros (Hx & ? & ?). split_and!.
  - rw Hf; [by left|done].
  - eapply rep_frame; [|done]. intros. apply Hf. right. apply elem_of_app. by left.
  - apply IH; [|done]. intros. apply Hf. right. apply elem_of_app. by right.
Qed.

(** *** Stepping through accesses to nodes *)

Lemma wp_node l n rb Q : rb_nodes rb !! l = Some n → Q n rb → wp (node (Some l)) rb Q.
Proof.
  intros Hl HQ. apply wp_zoom. eapply wp_hload; [done|].
  by destruct rb.
Qed.
Lemma wp_update l f n rb Q :
  rb_nodes rb !! l = Some n → Q tt (with_nodes (<[l := f n]> (rb_nodes rb)) rb) →
  wp (update (Some l) f) rb Q.
Proof. intros. apply wp_zoom. by eapply wp_hmodify. Qed.
Lemma wp_nil rb Q : Q (Some (rb_nil rb)) rb → wp nil rb Q.
Proof. done. Qed.
Lemma wp_root rb Q : Q (rb_root rb) rb → wp root rb Q.
Proof. done. Qed.
Lemma wp_set_root p rb Q : Q tt (with_root p rb) → wp (set_root p) rb Q.
Proof. done. Qed.
Lemma wp_path_fuel rb Q : Q (2 + size (rb_nodes rb)) rb → wp path_fuel rb Q.
Proof. done. Qed.

#[local] Arguments set_parent p !n /.
#[local] Arguments set_left p !n /.
#[local] Arguments set_right p !n /.
#[local] Arguments set_color c !n /.
#[local] Arguments set_key k !n /.
#[local] Arguments set_val v !n /.

Ltac rb_norm :=
  cbn [rb_nodes rb_root rb_nil rb_size rb_key_size rb_val_size
       with_nodes with_root with_rbsize n_parent n_left n_right n_color n_key n_val
       set_parent set_left set_right set_color set_key set_val
       addr caddr f_left f_color f_addr f_key f_val f_sib] in *.
Ltac rb_lookup :=
  solve [repeat first
    [ eassumption
    | rewrite lookup_insert_eq; reflexivity
    | rewrite lookup_insert_ne; [by first [congruence|auto]|] ]].
Ltac rb_step :=
  cbn beta match;
  lazymatch goal with
  | |- wp (mbind _ _) _ _ => apply wp_bind
  | |- wp (mret _) _ _ => apply wp_ret
  | |- wp nil _ _ => apply wp_nil
  | |- wp root _ _ => apply wp_root
  | |- wp get _ _ => apply wp_get
  | |- wp (modify _) _ _ => apply wp_modify
  | |- wp (set_root _) _ _ => apply wp_set_root
  | |- wp path_fuel _ _ => apply wp_path_fuel
  | |- wp (node (Some _)) _ _ => eapply wp_node; [rb_norm; rb_lookup|]
  | |- wp (update (Some _) _) _ _ => eapply wp_update; [rb_norm; rb_lookup|]
  | |- wp (if decide _ then _ else _) _ _ => case_decide; simplify_eq; try done
  end; rb_norm.
Ltac rb_go := repeat rb_step.

(** Disequalities of addresses from the absence of duplicates. *)
Ltac nodup_facts H :=
  rewrite ?NoDup_cons ?NoDup_app /= in H;
  rewrite ?NoDup_cons ?NoDup_app ?elem_of_app ?elem_of_cons ?not_elem_of_app
    ?not_elem_of_cons in H;
  destruct_and? H.

(** *** Stores that relink a tree or its path *)

Definition set_child (d : bool) (p : ptr) (n : RBnode) : RBnode :=
  if d then set_left p n else set_right p n.

Lemma rep_relink h h' nl par par' t z n :
  rep h nl par t → NoDup (nl :: locs t) → addr nl t = Some z → h !! z = Some n →
  h' !! z = Some (set_parent par' n) →
  (∀ w, w ∈ locs t → w ≠ z → h' !! w = h !! w) → rep h' nl par' t.
Proof.
  destruct t as [|c x k v l r]; [done|]; cbn.
  intros (Hx & ? & ?) Hnd [= ->] Hn Hz Hf. nodup_facts Hnd.
  rewrite Hx in Hn. injection Hn as <-. split_and!; [done|..];
    (eapply rep_frame; [|done]); intros w Hw; apply Hf; set_solver.
Qed.

Lemma crep_relink h h' nl f K a a' n :
  crep h nl (f :: K) a → NoDup (clocs (f :: K)) → h !! f_addr f = Some n →
  h' !! f_addr f = Some (set_child (f_left f) a' n) →
  (∀ w, w ∈ clocs (f :: K) → w ≠ f_addr f → h' !! w = h !! w) → crep h' nl (f :: K) a'.
Proof.
  destruct f as [d c x k v s]; cbn [crep f_addr f_left].
  intros (Hx & ? & ?) Hnd Hn Hx' Hf. rewrite clocs_cons in Hnd Hf. simpl in *.
  nodup_facts Hnd.
  rewrite Hx in Hn. injection Hn as <-. split_and!.
  - rw Hx'. by destruct d.
  - eapply rep_frame; [|done]. intros w Hw. apply Hf; set_solver.
  - eapply crep_frame; [|done]. intros w Hw. apply Hf; set_solver.
Qed.

Lemma rep_addr h nl par t : (is_Some (h !! nl)) → rep h nl par t →
  ∃ z n, addr nl t = Some z ∧ h !! z = Some n ∧ (z = nl ∨ z ∈ locs t).
Proof.
  intros [n Hn]. destruct t as [|c x k v l r]; cbn; [by eauto 10|].
  intros (?&_). eexists x, _. split_and!; [done..|]. right. set_solver.
Qed.

Lemma croot_neq K x x' : x ∉ clocs K → croot K (Some x) = Some x' → K = [] ∨ x' ∈ clocs K.
Proof.
  revert x. destruct K as [|f K]; [by left|]. intros x _. simpl. intros H. right.
  revert f H. induction K as [|g K IH]; intros f; simpl; [intros [= <-]; by left|].
  intros H%IH. right. apply elem_of_app. by right.
Qed.

(** *** Rotations *)

(** Apartness of the addresses of a duplicate-free list. *)
Ltac nd_in := rewrite ?elem_of_cons ?elem_of_app ?elem_of_cons ?elem_of_app ?elem_of_cons; tauto.
Ltac nd_clash :=
  exfalso; match goal with
  | H : _ ∉ _ |- _ => apply H; nd_in
  | H : ∀ w, w ∈ _ → w ∉ _ |- _ => eapply H; [eassumption|nd_in]
  end.
Ltac nd_apart := try done; intros ->; nd_clash.
Ltac nd_split H :=
  rewrite -?app_assoc -?app_comm_cons -?app_assoc in H;
  repeat match type of H with
  | NoDup (_ :: _) => let H1 := fresh "Hnin" in apply NoDup_cons in H as [H1 H]
  | NoDup (_ ++ _) => let H1 := fresh "Hnd" in let H2 := fresh "Hdisj" in
      apply NoDup_app in H as (H1 & H2 & H)
  end.

(** A subtree that the updates miss, and one whose parent link they set. *)
Ltac rb_apart w Hw :=
  repeat match goal with
  | H : ∀ w, w ∈ _ → w ≠ _ ∧ _ |- _ => pose proof (H w Hw); clear H
  end; destruct_and?; rewrite !lookup_insert_ne //.
Ltac rb_sub H :=
  eapply rep_frame; [|exact H]; intros w Hw; rb_apart w Hw.
Ltac rb_csub H :=
  eapply crep_frame; [|exact H]; intros w Hw; rb_apart w Hw.
Ltac rb_fields :=
  etransitivity; [rb_lookup|]; rb_norm; congruence.
Ltac rb_top H Hz :=
  eapply rep_relink; [exact H| |eassumption|exact Hz|rb_fields|];
  [assumption|intros w Hw ?; rb_apart w Hw].
Ltac rb_dummy z nl Hd :=
  destruct (decide (z = nl)) as [->|]; [specialize (Hd eq_refl) as ->|];
  (eexists; split; [rb_lookup|done]).

Lemma tree_at_rotate_left rb K c x k v a c' y k' v' b d :
  tree_at rb K (N c x k v a (N c' y k' v' b d)) →
  wp (rotate_left (Some x)) rb (λ _ rb',
    same_but_nodes rb rb' ∧ tree_at rb' K (N c' y k' v' (N c x k v a b) d)).
Proof.
  intros [Hnd (n0 & Hnil & Hblack) Hdom Hc Hr Hroot].
  destruct rb as [rt nl sz ks vs h]; cbn -[dom clocs] in *.
  destruct Hr as (Hx & Ha & Hy & Hb & Hd).
  destruct (rep_addr h nl (Some y) b) as (z & nz & Hz & Hnz & Hin); [by eauto|done|].
  pose proof Hnd as Hnd'. nd_split Hnd'.
  assert (x ≠ y ∧ z ≠ x ∧ z ≠ y ∧ y ≠ nl ∧ x ≠ nl) as (?&?&?&?&?)
    by (destruct Hin as [->|]; split_and!; nd_apart).
  assert (∀ w, w ∈ locs a → w ≠ x ∧ w ≠ y ∧ w ≠ z) as Hapa
    by (destruct Hin as [->|]; intros; split_and!; nd_apart).
  assert (∀ w, w ∈ locs d → w ≠ x ∧ w ≠ y ∧ w ≠ z) as Hapd
    by (destruct Hin as [->|]; intros; split_and!; nd_apart).
  assert (∀ w, w ∈ locs b → w ≠ x ∧ w ≠ y) as Hapb by (intros; split_and!; nd_apart).
  assert (∀ w, w ∈ clocs K → w ≠ x ∧ w ≠ y ∧ w ≠ z) as HapK
    by (destruct Hin as [->|]; intros; split_and!; nd_apart).
  assert (NoDup (nl :: locs b)) by (apply NoDup_cons; split; [intros ?; nd_clash|done]).
  assert (z = nl → nz = n0) as Hdummy by (intros ->; congruence).
  rw /rotate_left.
  destruct K as [|f K].
  - rb_go; rw Hz; rb_go.
    split; [done|]. split; cbn -[dom clocs].
    + by rewrite -?app_assoc -?app_comm_cons -?app_assoc in Hnd |- *.
    + rb_dummy z nl Hdummy.
    + rewrite !dom_insert_L Hdom. clear -Hin. set_solver.
    + done.
    + split_and!; [rb_fields|rb_fields|by rb_sub Ha|by rb_top Hb Hnz|by rb_sub Hd].
    + done.
  - assert (Some x ≠ rt).
    { subst rt. intros Heq. destruct (croot_neq (f :: K) x x) as [|Hin']; [|done..|].
      - intros Hin'. by destruct (HapK _ Hin').
      - by destruct (HapK _ Hin'). }
    destruct f as [dir cf xf kf vf sf]; cbn in Hc. destruct Hc as (Hf & Hs & HK).
    clear Hapa Hapd Hapb HapK Hnd' Hnin.
    pose proof Hnd as Hnd'. rewrite clocs_cons in Hnd'. cbn [f_addr f_sib] in Hnd'. nd_split Hnd'.
    assert (nl ≠ xf ∧ x ≠ xf ∧ y ≠ xf ∧ z ≠ xf) as (?&?&?&?)
      by (destruct Hin as [->|]; split_and!; nd_apart).
    assert (∀ w, w ∈ locs a → w ≠ x ∧ w ≠ y ∧ w ≠ z ∧ w ≠ xf)
      by (destruct Hin as [->|]; intros; split_and!; nd_apart).
    assert (∀ w, w ∈ locs d → w ≠ x ∧ w ≠ y ∧ w ≠ z ∧ w ≠ xf)
      by (destruct Hin as [->|]; intros; split_and!; nd_apart).
    assert (∀ w, w ∈ locs b → w ≠ x ∧ w ≠ y ∧ w ≠ xf) by (intros; split_and!; nd_apart).
    assert (∀ w, w ∈ locs sf → w ≠ x ∧ w ≠ y ∧ w ≠ z ∧ w ≠ xf) as Hapf
      by (destruct Hin as [->|]; intros; split_and!; nd_apart).
    assert (∀ w, w ∈ clocs K → w ≠ x ∧ w ≠ y ∧ w ≠ z ∧ w ≠ xf)
      by (destruct Hin as [->|]; intros; split_and!; nd_apart).
    assert (addr nl sf ≠ Some x).
    { destruct sf; simpl; [congruence|]. intros [= ->].
      destruct (Hapf x) as [[] _]; [cbn; nd_in|done]. }
    destruct dir; rb_go; rw Hz; rb_go.
    + split; [done|]. split; cbn -[dom clocs].
      * by rewrite -?app_assoc -?app_comm_cons -?app_assoc in Hnd |- *.
      * rb_dummy z nl Hdummy.
      * rewrite !dom_insert_L Hdom. clear -Hin. rewrite clocs_cons /=. set_solver.
      * split_and!; [rb_fields|by rb_sub Hs|by rb_csub HK].
      * split_and!; [rb_fields|rb_fields|by rb_sub Ha|by rb_top Hb Hnz|by rb_sub Hd].
      * done.
    + split; [done|]. split; cbn -[dom clocs].
      * by rewrite -?app_assoc -?app_comm_cons -?app_assoc in Hnd |- *.
      * rb_dummy z nl Hdummy.
      * rewrite !dom_insert_L Hdom. clear -Hin. rewrite clocs_cons /=. set_solver.
      * split_and!; [rb_fields|by rb_sub Hs|by rb_csub HK].
      * split_and!; [rb_fields|rb_fields|by rb_sub Ha|by rb_top Hb Hnz|by rb_sub Hd].
      * done.
Qed.

Lemma tree_at_rotate_right rb K c x k v a c' y k' v' b d :
  tree_at rb K (N c x k v (N c' y k' v' d b) a) →
  wp (rotate_right (Some x)) rb (λ _ rb',
    same_but_nodes rb rb' ∧ tree_at rb' K (N c' y k' v' d (N c x k v b a))).
Proof.
  intros [Hnd (n0 & Hnil & Hblack) Hdom Hc Hr Hroot].
  destruct rb as [rt nl sz ks vs h]; cbn -[dom clocs] in *.
  destruct Hr as (Hx & (Hy & Hd & Hb) & Ha).
  destruct (rep_addr h nl (Some y) b) as (z & nz & Hz & Hnz & Hin); [by eauto|done|].
  pose proof Hnd as Hnd'. nd_split Hnd'.
  assert (x ≠ y ∧ z ≠ x ∧ z ≠ y ∧ y ≠ nl ∧ x ≠ nl) as (?&?&?&?&?)
    by (destruct Hin as [->|]; split_and!; nd_apart).
  assert (∀ w, w ∈ locs a → w ≠ x ∧ w ≠ y ∧ w ≠ z) as Hapa
    by (destruct Hin as [->|]; intros; split_and!; nd_apart).
  assert (∀ w, w ∈ locs d → w ≠ x ∧ w ≠ y ∧ w ≠ z) as Hapd
    by (destruct Hin as [->|]; intros; split_and!; nd_apart).
  assert (∀ w, w ∈ locs b → w ≠ x ∧ w ≠ y) as Hapb by (intros; split_and!; nd_apart).
  assert (∀ w, w ∈ clocs K → w ≠ x ∧ w ≠ y ∧ w ≠ z) as HapK
    by (destruct Hin as [->|]; intros; split_and!; nd_apart).
  assert (NoDup (nl :: locs b)) by (apply NoDup_cons; split; [intros ?; nd_clash|done]).
  assert (z = nl → nz = n0) as Hdummy by (intros ->; congruence).
  rw /rotate_right.
  destruct K as [|f K].
  - rb_go; rw Hz; rb_go.
    split; [done|]. split; cbn -[dom clocs].
    + by rewrite -?app_assoc -?app_comm_cons -?app_assoc in Hnd |- *.
    + rb_dummy z nl Hdummy.
    + rewrite !dom_insert_L Hdom. clear -Hin. set_solver.
    + done.
    + split_and!; [rb_fields|by rb_sub Hd|rb_fields|by rb_top Hb Hnz|by rb_sub Ha].
    + done.
  - assert (Some x ≠ rt).
    { subst rt. intros Heq. destruct (croot_neq (f :: K) x x) as [|Hin']; [|done..|].
      - intros Hin'. by destruct (HapK _ Hin').
      - by destruct (HapK _ Hin'). }
    destruct f as [dir cf xf kf vf sf]; cbn in Hc. destruct Hc as (Hf & Hs & HK).
    clear Hapa Hapd Hapb HapK Hnd' Hnin.
    pose proof Hnd as Hnd'. rewrite clocs_cons in Hnd'. cbn [f_addr f_sib] in Hnd'. nd_split Hnd'.
    assert (nl ≠ xf ∧ x ≠ xf ∧ y ≠ xf ∧ z ≠ xf) as (?&?&?&?)
      by (destruct Hin as [->|]; split_and!; nd_apart).
    assert (∀ w, w ∈ locs a → w ≠ x ∧ w ≠ y ∧ w ≠ z ∧ w ≠ xf)
      by (destruct Hin as [->|]; intros; split_and!; nd_apart).
    assert (∀ w, w ∈ locs d → w ≠ x ∧ w ≠ y ∧ w ≠ z ∧ w ≠ xf)
      by (destruct Hin as [->|]; intros; split_and!; nd_apart).
    assert (∀ w, w ∈ locs b → w ≠ x ∧ w ≠ y ∧ w ≠ xf) by (intros; split_and!; nd_apart).
    assert (∀ w, w ∈ locs sf → w ≠ x ∧ w ≠ y ∧ w ≠ z ∧ w ≠ xf) as Hapf
      by (destruct Hin as [->|]; intros; split_and!; nd_apart).
    assert (∀ w, w ∈ clocs K → w ≠ x ∧ w ≠ y ∧ w ≠ z ∧ w ≠ xf)
      by (destruct Hin as [->|]; intros; split_and!; nd_apart).
    assert (addr nl sf ≠ Some x).
    { destruct sf; simpl; [congruence|]. intros [= ->].
      destruct (Hapf x) as [[] _]; [cbn; nd_in|done]. }
    destruct dir; rb_go; rw Hz; rb_go.
    + split; [done|]. split; cbn -[dom clocs].
      * by rewrite -?app_assoc -?app_comm_cons -?app_assoc in Hnd |- *.
      * rb_dummy z nl Hdummy.
      * rewrite !dom_insert_L Hdom. clear -Hin. rewrite clocs_cons /=. set_solver.
      * split_and!; [rb_fields|by rb_sub Hs|by rb_csub HK].
      * split_and!; [rb_fields|by rb_sub Hd|rb_fields|by rb_top Hb Hnz|by rb_sub Ha].
      * done.
    + split; [done|]. split; cbn -[dom clocs].
      * by rewrite -?app_assoc -?app_comm_cons -?app_assoc in Hnd |- *.
      * rb_dummy z nl Hdummy.
      * rewrite !dom_insert_L Hdom. clear -Hin. rewrite clocs_cons /=. set_solver.
      * split_and!; [rb_fields|by rb_sub Hs|by rb_csub HK].
      * split_and!; [rb_fields|by rb_sub Hd|rb_fields|by rb_top Hb Hnz|by rb_sub Ha].
      * done.
Qed.
