(* ===== verification/RBInsert.v ===== *)
(** * Insertion into the red-black tree, search and traversal

    The proofs about [RBtree_insert], [RBtree_find] and the iterators of
    [RBTree]: every step is a transition between shapes ([RBTree.tree_at]), on
    which the red-black conditions and the order of the elements are stated. *)
From stdpp Require Import sorting.
From S2P Require Import Prelude RBTree.

(** ** The red-black conditions on shapes *)

Definition tcol (t : tree) : color := match t with L => BLACK | N c _ _ _ _ _ => c end.
Definition ccol (K : ctx) : color := match K with [] => BLACK | f :: _ => f_color f end.

(** No red node has a red child, and every path has [n] black nodes. *)
Fixpoint is_rb (t : tree) (n : nat) : Prop :=
  match t with
  | L => n = 0
  | N RED _ _ _ l r => tcol l = BLACK ∧ tcol r = BLACK ∧ is_rb l n ∧ is_rb r n
  | N BLACK _ _ _ l r => ∃ m, n = S m ∧ is_rb l m ∧ is_rb r m
  end.

(** The path is that of a red-black tree with a black root, for a subtree of
    black height [n] whose colour is not constrained. *)
Fixpoint is_rb_ctx (K : ctx) (n : nat) : Prop :=
  match K with
  | [] => True
  | Fr _ c _ _ _ s :: K =>
      is_rb s n ∧
      match c with
      | RED => tcol s = BLACK ∧ K ≠ [] ∧ ccol K = BLACK ∧ is_rb_ctx K n
      | BLACK => is_rb_ctx K (S n)
      end
  end.

Lemma is_rb_plug K t n :
  is_rb t n → is_rb_ctx K n → (tcol t = BLACK ∨ ccol K = BLACK) →
  ∃ m, is_rb (plug K t) m ∧ (K ≠ [] → tcol (plug K t) = BLACK).
Proof.
  revert t n. induction K as [|[d c x k v s] K IH]; intros t n Ht HK Hc.
  - exists n. by split.
  - rw plug_cons. destruct HK as [Hs HK]. destruct c.
    + destruct HK as (Hsc & HKn & HKc & HK). destruct Hc as [Hc|Hc]; [|done].
      destruct (IH (plug1 (Fr d RED x k v s) t) n) as (m & ? & Hm); [|done|by right|].
      { destruct d; cbn; tauto. }
      exists m. split; [done|]. intros _. by apply Hm.
    + destruct (IH (plug1 (Fr d BLACK x k v s) t) (S n)) as (m & ? & Hm); [|done|by left; destruct d|].
      { destruct d; cbn; eauto. }
      exists m. split; [done|]. intros _. destruct K; [by destruct d|by apply Hm].
Qed.

Lemma items_plug1 f t t' : items t = items t' → items (plug1 f t) = items (plug1 f t').
Proof. intros Ht. rw /plug1. by destruct (f_left f); rw /= Ht. Qed.
Lemma items_plug K t t' : items t = items t' → items (plug K t) = items (plug K t').
Proof.
  revert t t'. induction K as [|f K IH]; intros t t' Ht; [done|].
  rw !plug_cons. by apply IH, items_plug1.
Qed.

(** ** Reading and colouring nodes of a shape *)

Lemma wp_node_at rb K c x k v l r Q :
  tree_at rb K (N c x k v l r) →
  Q (Node (caddr (rb_nil rb) K) (addr (rb_nil rb) l) (addr (rb_nil rb) r) c k v) rb →
  wp (node (Some x)) rb Q.
Proof. intros [_ _ _ _ [Hx _] _]. by apply wp_node. Qed.

Lemma wp_node_frame rb d c x k v s K t Q :
  tree_at rb (Fr d c x k v s :: K) t →
  Q (Node (caddr (rb_nil rb) K)
          (addr (rb_nil rb) (if d then t else s)) (addr (rb_nil rb) (if d then s else t)) c k v) rb →
  wp (node (Some x)) rb Q.
Proof.
  intros Ht%tree_at_focus. destruct d; by apply (wp_node_at _ _ _ _ _ _ _ _ _ Ht).
Qed.

(** The colour of a subtree's node, which is the dummy for an empty one. *)
Lemma wp_node_color rb K t Q :
  tree_at rb K t → (∀ n, n_color n = tcol t → Q n rb) →
  wp (node (addr (rb_nil rb) t)) rb Q.
Proof.
  intros Ht HQ. destruct t as [|c x k v l r]; cbn.
  - destruct Ht as [_ (d & Hd & ?) _ _ _ _]. eapply wp_node; [done|]. by apply HQ.
  - eapply wp_node_at; [done|]. by apply HQ.
Qed.
Lemma wp_node_caddr rb K t Q :
  tree_at rb K t → (∀ n, n_color n = ccol K → Q n rb) →
  wp (node (caddr (rb_nil rb) K)) rb Q.
Proof.
  intros Ht HQ. destruct K as [|[d c x k v s] K]; cbn.
  - destruct Ht as [_ (d & Hd & ?) _ _ _ _]. eapply wp_node; [done|]. by apply HQ.
  - eapply wp_node_frame; [done|]. by apply HQ.
Qed.

(** An update of a node that leaves its links alone. *)
Lemma tree_at_fields rb K c x k v l r f c' k' v' :
  (∀ p a b, f (Node p a b c k v) = Node p a b c' k' v') →
  tree_at rb K (N c x k v l r) →
  wp (update (Some x) f) rb (λ _ rb',
    same_but_nodes rb rb' ∧ tree_at rb' K (N c' x k' v' l r)).
Proof.
  intros Hf [Hnd (d & Hd & Hblack) Hdom Hc (Hx & Hl & Hr) Hroot].
  eapply wp_update; [done|]. split; [done|].
  assert (rb_nil rb ≠ x ∧ x ∉ clocs K ∧ x ∉ locs l ∧ x ∉ locs r) as (?&?&?&?).
  { clear -Hnd. cbn in Hnd. apply NoDup_cons in Hnd as [? Hnd].
    apply NoDup_app in Hnd as (_ & HK & Hnd).
    apply NoDup_app in Hnd as (_ & Hl & Hnd). apply NoDup_cons in Hnd as [? _].
    split_and!; [set_solver|by intros ?%HK; set_solver|by intros ?%Hl; set_solver|done]. }
  split; cbn -[dom] in *.
  - done.
  - eexists. rw lookup_insert_ne //.
  - by rw dom_insert_lookup_L.
  - eapply crep_frame; [|done]. intros. rw lookup_insert_ne //; congruence.
  - rw lookup_insert_eq Hf. split_and!; [done|..];
      (eapply rep_frame; [|done]); intros; (rw lookup_insert_ne //; congruence).
  - done.
Qed.

Lemma tree_at_color rb K c c' x k v l r :
  tree_at rb K (N c x k v l r) →
  wp (update (Some x) (set_color c')) rb (λ _ rb',
    same_but_nodes rb rb' ∧ tree_at rb' K (N c' x k v l r)).
Proof. by apply tree_at_fields. Qed.

Lemma addr_ne rb f K t : tree_at rb (f :: K) t → t ≠ L →
  addr (rb_nil rb) (f_sib f) ≠ addr (rb_nil rb) t.
Proof.
  intros [Hnd _ _ _ _ _] Ht. rw clocs_cons in Hnd.
  destruct t as [|c x k v l r]; [done|]. destruct (f_sib f) as [|c' y k' v' l' r']; cbn in *.
  - intros [= Heq]. rewrite Heq in Hnd. apply NoDup_cons in Hnd as [[] _]. set_solver.
  - intros [= Heq]. rewrite Heq in Hnd. apply NoDup_cons in Hnd as [_ Hnd]. apply NoDup_cons in Hnd as [_ Hnd].
    rewrite -?app_assoc in Hnd. apply NoDup_app in Hnd as (_ & _ & Hnd). cbn in Hnd.
    apply NoDup_cons in Hnd as [[] _]. set_solver.
Qed.

(** ** One iteration of [insert_fix_up] *)

(** The last step of a round on the left: the parent and the grandparent of the
    node change colours and the grandparent is rotated away. *)
Lemma fix_rotate_right rb y ky vy s g kg vg u K x k v l r Q :
  tree_at rb (Fr true RED y ky vy s :: Fr true BLACK g kg vg u :: K) (N RED x k v l r) →
  (∀ rb', same_but_nodes rb rb' →
     tree_at rb' (Fr true BLACK y ky vy (N RED g kg vg s u) :: K) (N RED x k v l r) →
     Q (inl (Some x) : ptr + ()) rb') →
  wp (nn ← node (Some x);
      update (n_parent nn) (set_color BLACK);;
      pn ← node (n_parent nn);
      update (n_parent pn) (set_color RED);;
      rotate_right (n_parent pn);;
      mret (inl (Some x))) rb Q.
Proof.
  intros Ht HQ. apply wp_bind, (wp_node_at _ _ _ _ _ _ _ _ _ Ht); cbn.
  apply tree_at_focus in Ht. cbn in Ht.
  apply wp_bind. eapply wp_mono; [by eapply tree_at_color|]. cbn.
  intros _ rb1 [Hs1 Ht1]. apply wp_bind, (wp_node_at _ _ _ _ _ _ _ _ _ Ht1); cbn.
  apply tree_at_focus in Ht1. cbn in Ht1.
  apply wp_bind. eapply wp_mono; [by eapply tree_at_color|]. cbn.
  intros _ rb2 [Hs2 Ht2]. apply wp_bind. eapply wp_mono; [by eapply tree_at_rotate_right|]. cbn.
  intros _ rb3 [Hs3 Ht3]. apply wp_ret, HQ; [by repeat (etrans; [done|])|].
  by apply tree_at_focus.
Qed.

Lemma fix_rotate_left rb y ky vy s g kg vg u K x k v l r Q :
  tree_at rb (Fr false RED y ky vy s :: Fr false BLACK g kg vg u :: K) (N RED x k v l r) →
  (∀ rb', same_but_nodes rb rb' →
     tree_at rb' (Fr false BLACK y ky vy (N RED g kg vg u s) :: K) (N RED x k v l r) →
     Q (inl (Some x) : ptr + ()) rb') →
  wp (nn ← node (Some x);
      update (n_parent nn) (set_color BLACK);;
      pn ← node (n_parent nn);
      update (n_parent pn) (set_color RED);;
      rotate_left (n_parent pn);;
      mret (inl (Some x))) rb Q.
Proof.
  intros Ht HQ. apply wp_bind, (wp_node_at _ _ _ _ _ _ _ _ _ Ht); cbn.
  apply tree_at_focus in Ht. cbn in Ht.
  apply wp_bind. eapply wp_mono; [by eapply tree_at_color|]. cbn.
  intros _ rb1 [Hs1 Ht1]. apply wp_bind, (wp_node_at _ _ _ _ _ _ _ _ _ Ht1); cbn.
  apply tree_at_focus in Ht1. cbn in Ht1.
  apply wp_bind. eapply wp_mono; [by eapply tree_at_color|]. cbn.
  intros _ rb2 [Hs2 Ht2]. apply wp_bind. eapply wp_mono; [by eapply tree_at_rotate_left|]. cbn.
  intros _ rb3 [Hs3 Ht3]. apply wp_ret, HQ; [by repeat (etrans; [done|])|].
  by apply tree_at_focus.
Qed.

Lemma tree_at_color_flip rb K c g kg vg cl xl kl vl ll lr cr xr kr vr rl rr :
  tree_at rb K (N c g kg vg (N cl xl kl vl ll lr) (N cr xr kr vr rl rr)) →
  wp (color_flip (Some g)) rb (λ _ rb', same_but_nodes rb rb' ∧
    tree_at rb' K (N RED g kg vg (N BLACK xl kl vl ll lr) (N BLACK xr kr vr rl rr))).
Proof.
  intros Ht. rw /color_flip. apply wp_bind, (wp_node_at _ _ _ _ _ _ _ _ _ Ht); cbn.
  apply wp_bind. eapply wp_mono; [by eapply tree_at_color|]. cbn. intros _ rb1 [Hs1 Ht1].
  apply (tree_at_focus _ (Fr false RED g kg vg (N cl xl kl vl ll lr)) K (N cr xr kr vr rl rr)) in Ht1.
  apply wp_bind. eapply wp_mono; [by eapply tree_at_color|]. cbn. intros _ rb2 [Hs2 Ht2].
  apply tree_at_focus in Ht2. cbn in Ht2.
  apply (tree_at_focus _ (Fr true RED g kg vg (N BLACK xr kr vr rl rr)) K (N cl xl kl vl ll lr)) in Ht2.
  eapply wp_mono; [by eapply tree_at_color|]. cbn. intros _ rb3 [Hs3 Ht3].
  split; [by repeat (etrans; [done|])|]. by apply tree_at_focus in Ht3.
Qed.

(** What is left of the path to look at. *)
Definition fix_variant (K : ctx) : nat := if decide (ccol K = RED) then length K else 0.

Definition fix_inv (rb0 : RBtree) (its : list (loc * (list Z * list Z))) (n : nat) (p : ptr)
    (rb : RBtree) : Prop :=
  ∃ K x k v l r m,
    p = Some x ∧ same_but_nodes rb0 rb ∧ tree_at rb K (N RED x k v l r) ∧
    is_rb (N RED x k v l r) m ∧ is_rb_ctx K m ∧ n = fix_variant K ∧
    items (plug K (N RED x k v l r)) = its.

Lemma addr_plug1 nl f t : addr nl (plug1 f t) = Some (f_addr f).
Proof. rw /plug1. by destruct (f_left f). Qed.

Lemma wp_node_sib rb d c x k v s K t Q :
  tree_at rb (Fr d c x k v s :: K) t → (∀ n, n_color n = tcol s → Q n rb) →
  wp (node (addr (rb_nil rb) s)) rb Q.
Proof.
  intros Ht%tree_at_focus. apply (wp_node_color _ (Fr (negb d) c x k v t :: K)).
  apply tree_at_focus. by destruct d.
Qed.

(** A round whose grandparent has the parent as its left child. *)
Lemma insert_fix_left rb0 rb d y ky vy s g kg vg u K x k v l r m (Q : ptr + () → RBtree → Prop) :
  let f := Fr d RED y ky vy s in
  let K0 := f :: Fr true BLACK g kg vg u :: K in
  same_but_nodes rb0 rb → tree_at rb K0 (N RED x k v l r) →
  is_rb (N RED x k v l r) m → is_rb_ctx K0 m →
  (∀ n p rb', n < 2 + length K →
     fix_inv rb0 (items (plug K0 (N RED x k v l r))) n p rb' → Q (inl p) rb') →
  wp (ancle ← node (addr (rb_nil rb) u);
      if decide (n_color ancle = RED) then
        color_flip (Some g);;
        mret (inl (Some g))
      else
        n ← (if decide (Some x = addr (rb_nil rb) (if d then s else N RED x k v l r))
             then rotate_left (Some y);; mret (Some y) else mret (Some x));
        nn ← node n;
        update (n_parent nn) (set_color BLACK);;
        pn ← node (n_parent nn);
        update (n_parent pn) (set_color RED);;
        rotate_right (n_parent pn);;
        mret (inl n)) rb Q.
Proof.
  intros f K0 Hs Ht (Hlc & Hrc & Hl & Hr) (Hsrb & Hsc & _ & _ & Hu & HK) HQ. subst f K0.
  pose proof (proj1 (tree_at_focus _ _ _ _) Ht) as Hp. pose proof (proj1 (tree_at_focus _ _ _ _) Hp) as Hg.
  apply wp_bind. eapply wp_node_sib; [exact Hp|]. intros n ->.
  destruct (decide (tcol u = RED)) as [Huc|Huc].
  - destruct u as [|[] ux uk uv ul ur]; [done| |done]. apply wp_bind.
    assert (∃ pl pr, plug1 (Fr d RED y ky vy s) (N RED x k v l r) = N RED y ky vy pl pr ∧
      is_rb pl m ∧ is_rb pr m) as (pl & pr & Heq & ? & ?).
    { destruct d; cbn; eexists _, _; split_and!; done. }
    pose proof (eq_refl : plug (Fr d RED y ky vy s :: Fr true BLACK g kg vg (N RED ux uk uv ul ur) :: K)
      (N RED x k v l r) = plug K (plug1 (Fr true BLACK g kg vg (N RED ux uk uv ul ur))
      (plug1 (Fr d RED y ky vy s) (N RED x k v l r)))) as Hplug.
    rewrite Hplug Heq in HQ. rewrite Heq in Hg. cbn in Hg.
    eapply wp_mono; [by eapply tree_at_color_flip|]. cbn -[is_rb]. intros _ rb1 [Hs1 Ht1].
    apply wp_ret, (HQ (fix_variant K)); [rw /fix_variant; case_decide; lia|].
    destruct Hu as (_ & _ & ? & ?).
    eexists K, g, kg, vg, _, _, (S m). split_and!; [done|by etrans|done| |done|done|by apply items_plug].
    cbn. split_and!; eauto.
  - assert (tcol u = BLACK) as Hub by (by destruct (tcol u)). clear Huc.
    destruct d; cbn -[is_rb is_rb_ctx]; cbn in Hp.
    + rewrite decide_False; [intros Heq; by apply (addr_ne _ _ _ _ Ht)|].
      apply wp_bind, wp_ret. eapply fix_rotate_right; [done|]. intros rb1 Hs1 Ht1.
      apply (HQ 0); [lia|].
      eexists _, x, k, v, l, r, m. split_and!; [done|by etrans|done| | |done|].
      * done.
      * cbn -[is_rb]. split_and!; [by cbn|done].
      * apply (items_plug K). cbn. by rewrite -?app_assoc -?app_comm_cons -?app_assoc.
    + rewrite decide_True; [done|]. apply wp_bind. apply wp_bind.
      eapply wp_mono; [by eapply tree_at_rotate_left|]. cbn. intros _ rb1 [Hs1 Ht1].
      apply wp_ret.
      apply (tree_at_focus _ (Fr true RED x k v r) _ (N RED y ky vy s l)) in Ht1.
      eapply fix_rotate_right; [done|]. intros rb2 Hs2 Ht2.
      apply (HQ 0); [lia|].
      eexists _, y, ky, vy, _, _, m. split_and!; [done|by repeat (etrans; [done|])|done| | |done|].
      * done.
      * cbn -[is_rb]. split_and!; [by cbn|done].
      * apply (items_plug K). cbn. by rewrite -?app_assoc -?app_comm_cons -?app_assoc.
Qed.

(** A round whose grandparent has the parent as its right child. *)
Lemma insert_fix_right rb0 rb d y ky vy s g kg vg u K x k v l r m (Q : ptr + () → RBtree → Prop) :
  let f := Fr d RED y ky vy s in
  let K0 := f :: Fr false BLACK g kg vg u :: K in
  same_but_nodes rb0 rb → tree_at rb K0 (N RED x k v l r) →
  is_rb (N RED x k v l r) m → is_rb_ctx K0 m →
  (∀ n p rb', n < 2 + length K →
     fix_inv rb0 (items (plug K0 (N RED x k v l r))) n p rb' → Q (inl p) rb') →
  wp (ancle ← node (addr (rb_nil rb) u);
      if decide (n_color ancle = RED) then
        color_flip (Some g);;
        mret (inl (Some g))
      else
        n ← (if decide (Some x = addr (rb_nil rb) (if d then N RED x k v l r else s))
             then rotate_right (Some y);; mret (Some y) else mret (Some x));
        nn ← node n;
        update (n_parent nn) (set_color BLACK);;
        pn ← node (n_parent nn);
        update (n_parent pn) (set_color RED);;
        rotate_left (n_parent pn);;
        mret (inl n)) rb Q.
Proof.
  intros f K0 Hs Ht (Hlc & Hrc & Hl & Hr) (Hsrb & Hsc & _ & _ & Hu & HK) HQ. subst f K0.
  pose proof (proj1 (tree_at_focus _ _ _ _) Ht) as Hp. pose proof (proj1 (tree_at_focus _ _ _ _) Hp) as Hg.
  apply wp_bind. eapply wp_node_sib; [exact Hp|]. intros n ->.
  destruct (decide (tcol u = RED)) as [Huc|Huc].
  - destruct u as [|[] ux uk uv ul ur]; [done| |done]. apply wp_bind.
    assert (∃ pl pr, plug1 (Fr d RED y ky vy s) (N RED x k v l r) = N RED y ky vy pl pr ∧
      is_rb pl m ∧ is_rb pr m) as (pl & pr & Heq & ? & ?).
    { destruct d; cbn; eexists _, _; split_and!; done. }
    pose proof (eq_refl : plug (Fr d RED y ky vy s :: Fr false BLACK g kg vg (N RED ux uk uv ul ur) :: K)
      (N RED x k v l r) = plug K (plug1 (Fr false BLACK g kg vg (N RED ux uk uv ul ur))
      (plug1 (Fr d RED y ky vy s) (N RED x k v l r)))) as Hplug.
    rewrite Hplug Heq in HQ. rewrite Heq in Hg. cbn in Hg.
    eapply wp_mono; [by eapply tree_at_color_flip|]. cbn -[is_rb]. intros _ rb1 [Hs1 Ht1].
    apply wp_ret, (HQ (fix_variant K)); [rw /fix_variant; case_decide; lia|].
    destruct Hu as (_ & _ & ? & ?).
    eexists K, g, kg, vg, _, _, (S m). split_and!; [done|by etrans|done| |done|done|by apply items_plug].
    cbn. split_and!; eauto.
  - assert (tcol u = BLACK) as Hub by (by destruct (tcol u)). clear Huc.
    destruct d; cbn -[is_rb is_rb_ctx]; cbn in Hp.
    + rewrite decide_True; [done|]. apply wp_bind. apply wp_bind.
      eapply wp_mono; [by eapply tree_at_rotate_right|]. cbn. intros _ rb1 [Hs1 Ht1].
      apply wp_ret.
      apply (tree_at_focus _ (Fr false RED x k v l) _ (N RED y ky vy r s)) in Ht1.
      eapply fix_rotate_left; [done|]. intros rb2 Hs2 Ht2.
      apply (HQ 0); [lia|].
      eexists _, y, ky, vy, _, _, m. split_and!; [done|by repeat (etrans; [done|])|done| | |done|].
      * done.
      * cbn -[is_rb]. split_and!; [by cbn|done].
      * apply (items_plug K). cbn. by rewrite -?app_assoc -?app_comm_cons -?app_assoc.
    + rewrite decide_False; [intros Heq; by apply (addr_ne _ _ _ _ Ht)|].
      apply wp_bind, wp_ret. eapply fix_rotate_left; [done|]. intros rb1 Hs1 Ht1.
      apply (HQ 0); [lia|].
      eexists _, x, k, v, l, r, m. split_and!; [done|by etrans|done| | |done|].
      * done.
      * cbn -[is_rb]. split_and!; [by cbn|done].
      * apply (items_plug K). cbn. by rewrite -?app_assoc -?app_comm_cons -?app_assoc.
Qed.

Lemma insert_fix_body_ok rb0 its n p rb :
  fix_inv rb0 its n p rb →
  wp (insert_fix_body p) rb (λ r rb', match r with
    | inl p' => ∃ n', n' < n ∧ fix_inv rb0 its n' p' rb'
    | inr _ => ∃ K x k v l r m,
        same_but_nodes rb0 rb' ∧ tree_at rb' K (N RED x k v l r) ∧
        is_rb (N RED x k v l r) m ∧ is_rb_ctx K m ∧ ccol K = BLACK ∧
        items (plug K (N RED x k v l r)) = its
    end).
Proof.
  intros (K & x & k & v & l & r & m & -> & Hs & Ht & Hrb & HK & -> & <-).
  rw /insert_fix_body. apply wp_bind, (wp_node_at _ _ _ _ _ _ _ _ _ Ht); cbn -[is_rb].
  apply wp_bind. destruct (decide (ccol K = BLACK)) as [Hc|Hc].
  { eapply wp_node_caddr; [done|]. intros n ->. rw Hc. cbn -[is_rb].
    apply wp_ret. eauto 20. }
  destruct K as [|[d [] y ky vy s] [|[dg cg g kg vg u] K]]; [done|naive_solver| |done|done].
  assert (cg = BLACK) as -> by apply HK.
  eapply wp_node_frame; [done|]. cbn -[is_rb plug items is_rb_ctx].
  apply wp_bind. pose proof (proj1 (tree_at_focus _ _ _ _) Ht) as Hp.
  eapply wp_node_frame; [done|]. cbn -[is_rb plug items is_rb_ctx].
  destruct dg; cbn -[is_rb plug items is_rb_ctx].
  - rewrite addr_plug1 decide_True; [done|].
    eapply insert_fix_left; [done..|]. intros n p rb' Hn Hinv. by eauto.
  - rewrite decide_False.
    { intros Heq. apply (addr_ne _ _ _ _ Hp); [by destruct d|]. by rw addr_plug1. }
    eapply insert_fix_right; [done..|]. intros n p rb' Hn Hinv. by eauto.
Qed.

Lemma size_nodes rb K t :
  tree_at rb K t → size (rb_nodes rb) = S (length (clocs K ++ locs t)).
Proof.
  intros [Hnd _ Hdom _ _ _].
  by rw -size_dom Hdom size_list_to_set.
Qed.
Lemma length_clocs K : length K ≤ length (clocs K).
Proof. induction K as [|f K IH]; [done|]. rw clocs_cons /= length_app. lia. Qed.

(** ** The order of the elements *)

Section order.
Context (cmp : list Z → list Z → Z) `{!KeyOrder cmp}.
Implicit Types its : list (loc * (list Z * list Z)).

Definition ikey (i : loc * (list Z * list Z)) : list Z := i.2.1.
Definition sorted its : Prop := StronglySorted (key_lt cmp) (ikey <$> its).

Fixpoint cpre (K : ctx) : list (loc * (list Z * list Z)) :=
  match K with
  | [] => []
  | f :: K => cpre K ++ (if f_left f then [] else items (f_sib f) ++ [(f_addr f, (f_key f, f_val f))])
  end.
Fixpoint cpost (K : ctx) : list (loc * (list Z * list Z)) :=
  match K with
  | [] => []
  | f :: K => (if f_left f then (f_addr f, (f_key f, f_val f)) :: items (f_sib f) else []) ++ cpost K
  end.
Lemma items_plug_split K t : items (plug K t) = cpre K ++ items t ++ cpost K.
Proof.
  revert t. induction K as [|f K IH]; intros t; [by rw /= app_nil_r|].
  rw plug_cons IH /plug1 /=. destruct (f_left f); cbn; by rewrite -?app_assoc /= -?app_assoc /=.
Qed.

(** The path that a search for [key] takes. *)
Definition on_path (key : list Z) (K : ctx) : Prop :=
  Forall (λ f, if f_left f then key_lt cmp key (f_key f) else key_lt cmp (f_key f) key) K.

Lemma sorted_app l1 l2 : sorted (l1 ++ l2) ↔
  sorted l1 ∧ sorted l2 ∧ (∀ i j, i ∈ l1 → j ∈ l2 → key_lt cmp (ikey i) (ikey j)).
Proof.
  rw /sorted fmap_app. split.
  - intros Hs. split_and!; [by eapply StronglySorted_app_1_l|by eapply StronglySorted_app_1_r|].
    intros i j Hi Hj. eapply StronglySorted_app_1_elem_of; [done|by apply list_elem_of_fmap_2..].
  - intros (?&?&Hij). apply StronglySorted_app_2; [|done..].
    intros ?? (i&->&?)%list_elem_of_fmap (j&->&?)%list_elem_of_fmap. by apply Hij.
Qed.
Lemma sorted_cons i l : sorted (i :: l) ↔ sorted l ∧ (∀ j, j ∈ l → key_lt cmp (ikey i) (ikey j)).
Proof.
  rw -(app_nil_l (i :: l)) -/([i] ++ l) /= (sorted_app [i] l). split.
  - intros (_&?&Hij). split; [done|]. intros j. apply Hij. by left.
  - intros [? Hij]. split_and!; [repeat constructor|done|].
    intros ?? ->%list_elem_of_singleton. apply Hij.
Qed.

Lemma on_path_bounds key K t :
  sorted (items (plug K t)) → on_path key K →
  (∀ i, i ∈ cpre K → key_lt cmp (ikey i) key) ∧ (∀ i, i ∈ cpost K → key_lt cmp key (ikey i)).
Proof.
  revert t. induction K as [|f K IH]; intros t Hs Hp.
  { by split; intros i ?%not_elem_of_nil. }
  apply Forall_cons in Hp as [Hf Hp]. rewrite plug_cons in Hs.
  destruct (IH _ Hs Hp) as [Hpre Hpost].
  rewrite items_plug_split in Hs. apply sorted_app in Hs as (_ & Hs & _).
  apply sorted_app in Hs as (Hs & _ & _). rewrite /plug1 in Hs. cbn.
  destruct (f_left f); cbn in Hs; apply sorted_app in Hs as (_ & Hs & Hlt); cbn.
  - rw app_nil_r. split; [done|]. apply sorted_cons in Hs as [_ Hs].
    intros i [->|[Hi|Hi]%elem_of_app]%elem_of_cons; [done| |by apply Hpost].
    etrans; [exact Hf|]. by apply Hs in Hi.
  - split; [|done]. intros i [Hi|[Hi| ->%list_elem_of_singleton]%elem_of_app]%elem_of_app; [by apply Hpre| |done].
    etrans; [|exact Hf]. apply (Hlt i (f_addr f, (f_key f, f_val f)) Hi). by left.
Qed.
End order.

(** ** The loop of the insertion *)

(** [insert_fix_up] restores the red-black conditions and keeps the elements. *)
Lemma insert_fix_up_ok rb K x k v l r m :
  tree_at rb K (N RED x k v l r) → is_rb (N RED x k v l r) m → is_rb_ctx K m →
  wp (insert_fix_up (Some x)) rb (λ _ rb', ∃ t' m',
    same_but_nodes rb rb' ∧ tree_at rb' [] t' ∧ is_rb t' m' ∧ tcol t' = BLACK ∧
    items t' = items (plug K (N RED x k v l r))).
Proof.
  intros Ht Hrb HK. rw /insert_fix_up. apply wp_bind, wp_path_fuel, wp_bind.
  eapply wp_loop with (I := fix_inv rb (items (plug K (N RED x k v l r)))) (n := fix_variant K).
  - intros n p rb1 Hinv. eapply wp_mono; [by apply insert_fix_body_ok|].
    intros [p'|[]] rb2; [done|]. intros (K1 & x1 & k1 & v1 & l1 & r1 & m1 & Hs & Ht1 & Hrb1 & HK1 & Hc1 & Hits).
    apply wp_bind, wp_root.
    destruct (is_rb_plug K1 (N RED x1 k1 v1 l1 r1) m1) as (m2 & Hrb2 & _); [done|done|by right|].
    apply tree_at_plug in Ht1. rw (ta_root _ _ _ Ht1) /=. rw -Hits.
    destruct (plug K1 (N RED x1 k1 v1 l1 r1)) as [|c x2 k2 v2 l2 r2] eqn:Heq.
    { apply (f_equal (length ∘ items)) in Heq. rewrite /= items_plug_split in Heq.
      cbn in Heq. rewrite !length_app in Heq. cbn in Heq. lia. }
    eapply wp_mono; [by eapply tree_at_color|]. cbn -[is_rb]. intros _ rb3 [Hs3 Ht3].
    exists (N BLACK x2 k2 v2 l2 r2). destruct c; cbn in Hrb2; destruct_and?.
    + exists (S m2). split_and!; [by etrans|done| |done|done]. cbn. eauto.
    + destruct Hrb2 as (m' & -> & ? & ?).
      exists (S m'). split_and!; [by etrans|done| |done|done]. cbn. eauto.
  - eexists K, x, k, v, l, r, m. by split_and!.
  - rw (size_nodes _ _ _ Ht) length_app /fix_variant. pose proof (length_clocs K).
    case_decide; lia.
Qed.

(** ** Search *)

Fixpoint height (t : tree) : nat :=
  match t with L => 0 | N _ _ _ _ l r => S (max (height l) (height r)) end.

Lemma height_locs t : height t ≤ length (locs t).
Proof. induction t as [|c x k v l IHl r IHr]; simpl; [lia|]. rw length_app /=. lia. Qed.

(** No node is the dummy. *)
Lemma tree_at_ne_nil rb K c x k v l r :
  tree_at rb K (N c x k v l r) → Some x ≠ Some (rb_nil rb).
Proof.
  intros [Hnd _ _ _ _ _] [= Heq]. rewrite Heq in Hnd.
  apply NoDup_cons in Hnd as [[] _]. apply elem_of_app. right. cbn. set_solver.
Qed.
Lemma tree_at_ne_nil_frame rb d c x k v s K t :
  tree_at rb (Fr d c x k v s :: K) t → Some x ≠ Some (rb_nil rb).
Proof. intros Ht%tree_at_focus. destruct d; cbn in Ht; eauto using tree_at_ne_nil. Qed.

Section search.
Context (cmp : list Z → list Z → Z) `{!KeyOrder cmp}.

Lemma equal_spec a b : equal cmp a b = true ↔ cmp a b = 0%Z.
Proof. apply Z.eqb_eq. Qed.
Lemma less_spec a b : less cmp a b = true ↔ key_lt cmp a b.
Proof. apply Z.eqb_eq. Qed.

Lemma wp_get_key rb K c x k v l r Q :
  tree_at rb K (N c x k v l r) → Q k rb → wp (get_key (Some x)) rb Q.
Proof.
  intros Ht HQ. rw /get_key. apply wp_bind, wp_assert; [done|].
  by apply wp_bind, (wp_node_at _ _ _ _ _ _ _ _ _ Ht).
Qed.

(** What a search for [key] in [t0] ends with: a node with an equal key, or the
    place where the key would be, and there the last node of the path. *)
Definition found (rb : RBtree) (key : list Z) (t0 : tree) (K : ctx) (t : tree) (p : ptr) : Prop :=
  plug K t = t0 ∧ on_path cmp key K ∧
  match t with
  | L => p = caddr (rb_nil rb) K
  | N _ x k _ _ _ => p = Some x ∧ cmp key k = 0%Z
  end.

Lemma rb_find_loop_ok rb key t0 K t fuel :
  tree_at rb K t → plug K t = t0 → t0 ≠ L → on_path cmp key K → height t < fuel →
  wp (loop fuel (find_body cmp key)
        (addr (rb_nil rb) t, if decide (K = []) then NULL else caddr (rb_nil rb) K)) rb
    (λ p rb', rb' = rb ∧ ∃ K' t', found rb key t0 K' t' p).
Proof.
  intros Ht Ht0 Hne Hp Hfuel.
  apply (wp_loop (λ n '(cur, pre) rb', rb' = rb ∧ ∃ K t,
    n = height t ∧ cur = addr (rb_nil rb) t ∧
    pre = (if decide (K = []) then NULL else caddr (rb_nil rb) K) ∧
    tree_at rb K t ∧ plug K t = t0 ∧ on_path cmp key K) _ _ (height t)); [|by eauto 10|done].
  clear K t Ht Ht0 Hp Hfuel.
  intros n [cur pre] rb' [-> (K & t & -> & -> & -> & Ht & Ht0 & Hp)].
  rw /find_body. apply wp_bind, wp_nil. destruct t as [|c x k v l r].
  - rewrite decide_True; [done|]. apply wp_ret. split; [done|]. exists K, L.
    split_and!; [done..|]. case_decide; [by subst|done].
  - assert (rb_nil rb ≠ x).
    { destruct Ht as [Hnd _ _ _ _ _]. intros Heq. rewrite Heq in Hnd.
      apply NoDup_cons in Hnd as [[] _]. apply elem_of_app. right. cbn. set_solver. }
    cbn [addr]. rewrite decide_False; [congruence|].
    apply wp_bind. eapply wp_get_key; [done|].
    destruct (equal cmp key k) eqn:Heq.
    { apply wp_ret. split; [done|]. exists K, (N c x k v l r).
      split_and!; [done..|]. by apply equal_spec. }
    apply wp_bind, (wp_node_at _ _ _ _ _ _ _ _ _ Ht).
    assert (cmp key k ≠ 0%Z) as Hcmp by (intros ?%equal_spec; congruence).
    destruct (less cmp key k) eqn:Hless; apply wp_ret; cbn.
    + exists (height l). split; [lia|]. split; [done|]. exists (Fr true c x k v r :: K), l.
      split_and!; [done..|by apply tree_at_focus|done|]. constructor; [by apply less_spec|done].
    + exists (height r). split; [lia|]. split; [done|]. exists (Fr false c x k v l :: K), r.
      split_and!; [done..|by apply tree_at_focus|done|]. constructor; [|done].
      destruct (cmp_lt_or_gt cmp key k Hcmp) as [?%less_spec|?]; [congruence|done].
Qed.

Lemma find_ok rb key t0 :
  tree_at rb [] t0 →
  wp (find cmp key) rb (λ p rb', rb' = rb ∧ ∃ K t, found rb key t0 K t p).
Proof.
  intros Ht. rw /find. apply wp_bind, wp_root, wp_bind, wp_nil.
  rw (ta_root _ _ _ Ht) /=. destruct t0 as [|c x k v l r].
  - rewrite decide_True; [done|]. apply wp_ret. split; [done|]. exists [], L.
    split_and!; [done|constructor|done].
  - rewrite decide_False; [by eauto using tree_at_ne_nil|].
    apply wp_bind, wp_path_fuel. pose proof (height_locs (N c x k v l r)).
    apply (rb_find_loop_ok rb key (N c x k v l r) [] (N c x k v l r)); [done..|constructor|].
    rw (size_nodes _ _ _ Ht) /=. cbn in *. lia.
Qed.

(** ** The map that a tree holds *)

(** The elements of [rb] are [its], in the order of their keys. *)
Record rb_map (rb : RBtree) (its : list (loc * (list Z * list Z))) : Prop := {
  rm_tree : ∃ t n, tree_at rb [] t ∧ is_rb t n ∧ tcol t = BLACK ∧ items t = its;
  rm_sorted : sorted cmp its;
  rm_size : rb_size rb = u32 (Z.of_nat (length its));
}.

Lemma items_locs t : (items t).*1 = locs t.
Proof. induction t as [|c x k v l IHl r IHr]; [done|]. by rw /= fmap_app IHl fmap_cons IHr. Qed.

Lemma found_present rb its key t0 K t p :
  items t0 = its → sorted cmp its → found rb key t0 K t p →
  match t with
  | L => (∀ i, i ∈ its → cmp key (ikey i) ≠ 0%Z) ∧ its = cpre K ++ cpost K
  | N _ x k v l r => (x, (k, v)) ∈ its
  end.
Proof.
  intros <- Hs (<- & Hp & Ht). rw items_plug_split. destruct t as [|c x k v l r].
  - split; [|done]. destruct (on_path_bounds cmp key K L Hs Hp) as [Hpre Hpost].
    intros i [Hi|Hi]%elem_of_app.
    + apply Hpre in Hi. rewrite /key_lt (cmp_sym (cmp := cmp) key (ikey i)) in Hi. lia.
    + apply Hpost in Hi. rewrite /key_lt in Hi. lia.
  - cbn. set_solver.
Qed.

(** *** [RBtree_find] *)

Lemma RBtree_find_ok rb its key :
  rb_map rb its →
  wp (RBtree_find cmp key) rb (λ it rb', rb' = rb ∧
    ((∃ x k v, it = Some x ∧ (x, (k, v)) ∈ its ∧ cmp key k = 0%Z) ∨
     (it = Some (rb_nil rb) ∧ ∀ i, i ∈ its → cmp key (ikey i) ≠ 0%Z))).
Proof.
  intros [(t0 & n & Ht0 & _ & _ & Hits) Hs _]. rw /RBtree_find. apply wp_bind.
  eapply wp_mono; [by apply find_ok|]. intros p ? [-> (K & t & Hf)].
  apply wp_bind, wp_nil. pose proof (found_present _ _ _ _ _ _ _ Hits Hs Hf) as Hpres.
  destruct Hf as (Hplug & Hp & Hres). rewrite -Hplug in Ht0. apply tree_at_plug in Ht0.
  destruct t as [|c x k v l r].
  - rewrite Hres. destruct Hpres as [Hno Heq]. destruct K as [|[d c x k v s] K].
    + rewrite decide_True; [done|]. apply wp_nil. by eauto.
    + cbn [caddr f_addr].
      rewrite decide_False; [by eauto using tree_at_ne_nil_frame|].
      apply wp_bind. pose proof (proj1 (tree_at_focus _ _ _ _) Ht0) as Ht1.
      assert (∃ l r, plug1 (Fr d c x k v s) L = N c x k v l r) as (l & r & Hl) by (destruct d; cbn; eauto).
      rewrite Hl in Ht1. eapply wp_get_key; [done|].
      destruct (equal cmp key k) eqn:Hek; [|apply wp_nil; by eauto].
      apply equal_spec in Hek. exfalso. apply (Hno (x, (k, v))); [|done].
      rw Heq. destruct d; cbn; set_solver.
  - destruct Hres as [-> Hcmp].
    rewrite decide_False; [by eauto using tree_at_ne_nil|]. apply wp_bind. eapply wp_get_key; [done|].
    rewrite (proj2 (equal_spec key k)) //. apply wp_ret. split; [done|]. left. eauto 10.
Qed.
End search.

(** ** Insertion *)

Lemma tree_at_fresh rb K t l : tree_at rb K t → rb_nodes rb !! l = None →
  l ≠ rb_nil rb ∧ l ∉ clocs K ++ locs t.
Proof.
  intros [_ _ Hdom _ _ _] Hl%not_elem_of_dom.
  rewrite Hdom elem_of_list_to_set not_elem_of_cons in Hl. tauto.
Qed.

(** Linking a new red leaf [l] at an empty place of the tree. *)
Lemma tree_at_link rb rb' K l k v :
  tree_at rb K L → rb_nodes rb !! l = None → rb_nil rb' = rb_nil rb →
  rb_nodes rb' !! l = Some (Node (caddr (rb_nil rb) K) (Some (rb_nil rb)) (Some (rb_nil rb)) RED k v) →
  (∀ w, w ≠ l → Some w ≠ hd_error (f_addr <$> K) → rb_nodes rb' !! w = rb_nodes rb !! w) →
  (∀ f K', K = f :: K' → rb_nodes rb' !! f_addr f =
     set_child (f_left f) (Some l) <$> rb_nodes rb !! f_addr f) →
  dom (rb_nodes rb') = {[l]} ∪ dom (rb_nodes rb) → rb_root rb' = croot K (Some l) →
  tree_at rb' K (N RED l k v L L).
Proof.
  intros Ht Hl Hnil Hnew Hsame Htop Hdom Hroot.
  destruct (tree_at_fresh _ _ _ _ Ht Hl) as [Hlnil HlK].
  destruct Ht as [Hnd (d & Hd & Hblack) Hdom0 Hc _ _]. rewrite app_nil_r in HlK.
  assert (∀ w, w ∈ clocs K → w ≠ l ∧ w ≠ rb_nil rb) as Hap.
  { intros w Hw. apply NoDup_cons in Hnd as [Hnd _]. rewrite app_nil_r in Hnd.
    split; intros ->; done. }
  assert (rb_nodes rb' !! rb_nil rb = Some d) as Hnil'.
  { rewrite Hsame //. destruct K as [|f K]; [done|]. intros [= Heq].
    destruct (Hap (f_addr f)); [by left|done]. }
  split; rw ?Hnil.
  - cbn in *. rewrite app_nil_r in Hnd. apply NoDup_cons in Hnd as [Hn1 Hnd].
    rewrite NoDup_cons NoDup_app. split_and!; [set_solver|done|set_solver|by apply NoDup_singleton].
  - eauto.
  - rw Hdom Hdom0. cbn. set_solver.
  - destruct K as [|f K]; [done|].
    destruct (rb_nodes rb !! f_addr f) as [n|] eqn:Hn.
    + eapply crep_relink; [done| |done| |].
      * cbn in Hnd. by rewrite app_nil_r NoDup_cons in Hnd; destruct Hnd.
      * by rw (Htop f K) // Hn.
      * intros w Hw Hne. apply Hsame; [by apply Hap|cbn; congruence].
    + destruct f as [?? x ???]. cbn in *. destruct Hc as [Hx _]. congruence.
  - done.
  - done.
Qed.

Section insert.
Context (cmp : list Z → list Z → Z) `{!KeyOrder cmp}.

(** What [RBtree_insert] leaves: the new element in its place. *)
Definition inserted (rb : RBtree) (its : list (loc * (list Z * list Z))) (key val : list Z)
    (it : ptr) (rb' : RBtree) : Prop :=
  ∃ l pre post, it = Some l ∧ l ∉ its.*1 ∧ its = pre ++ post ∧
    rb_map cmp rb' (pre ++ (l, (key, val)) :: post) ∧
    rb_nil rb' = rb_nil rb ∧ rb_key_size rb' = rb_key_size rb ∧ rb_val_size rb' = rb_val_size rb.

(** After the new node is linked, the rest of the insertion. *)
Lemma insert_tail rb0 rb its K n l key val :
  tree_at rb K (N RED l key val L L) → is_rb_ctx K n → n = 0 →
  its = cpre K ++ cpost K → sorted cmp its →
  (∀ i, i ∈ cpre K → key_lt cmp (ikey i) key) → (∀ i, i ∈ cpost K → key_lt cmp key (ikey i)) →
  l ∉ its.*1 → rb_size rb = u32 (Z.of_nat (length its)) →
  rb_nil rb = rb_nil rb0 → rb_key_size rb = rb_key_size rb0 → rb_val_size rb = rb_val_size rb0 →
  wp (modify (λ rb, with_rbsize (u32 (rb_size rb + 1)) rb);;
      insert_fix_up (Some l);;
      mret (Some l)) rb (inserted rb0 its key val).
Proof.
  intros Ht HK -> Hits Hs Hpre Hpost Hl Hsz Hnil Hks Hvs.
  apply wp_bind, wp_modify, wp_bind.
  eapply wp_mono.
  { eapply (insert_fix_up_ok (with_rbsize (u32 (rb_size rb + 1)) rb) K l key val L L 0); [by destruct Ht|done|done]. }
  cbn. intros _ rb' (t' & m' & (Hn' & Hsz' & Hks' & Hvs') & Ht' & Hrb' & Hc' & Hits').
  apply wp_ret. exists l, (cpre K), (cpost K). cbn in *.
  rewrite items_plug_split in Hits'. cbn in Hits'.
  split_and!; try congruence. split.
  - exists t', m'. by split_and!.
  - subst its. apply sorted_app in Hs as (?&?&?). apply sorted_app. split_and!; [done|apply sorted_cons; split; [done|by apply Hpost]|].
    intros i j Hi [->|Hj]%elem_of_cons; [by apply Hpre|]. by eauto.
  - rw Hsz' Hsz Hits !length_app /= /u32 Zplus_mod_idemp_l. f_equal. lia.
Qed.

Lemma is_rb_hole K t m :
  is_rb (plug K t) m → tcol (plug K t) = BLACK →
  ∃ n, is_rb t n ∧ is_rb_ctx K n ∧ (tcol t = RED → ccol K = BLACK ∧ K ≠ []).
Proof.
  revert t. induction K as [|[d c x k v s] K IH]; intros t Hrb Hc.
  - exists m. cbn in *. split_and!; [done|done|congruence].
  - rewrite plug_cons in Hrb Hc. destruct (IH _ Hrb Hc) as (n & Ht & HK & Hred).
    destruct c, d; cbn in Ht, Hred |- *; destruct_and?.
    1,2: destruct Hred as [? ?]; [done|]; exists n; split_and!; try done; congruence.
    all: destruct Ht as (m' & -> & ? & ?); eauto 10.
Qed.

Lemma wp_create_node rb key val Q :
  length key = rb_key_size rb → length val = rb_val_size rb →
  (∀ l, rb_nodes rb !! l = None →
     Q (Some l) (with_nodes (<[l := Node NULL NULL NULL RED key val]> (rb_nodes rb)) rb)) →
  wp (create_node key val) rb Q.
Proof.
  intros Hk Hv HQ. rw /create_node. apply wp_bind, wp_get, wp_bind, wp_zoom, wp_halloc.
  intros l Hl. rewrite -Hk -Hv !firstn_all. apply wp_ret. by apply HQ.
Qed.

(** The creation and linking of a node at an empty place [K]. *)
Lemma insert_new rb its K key val :
  tree_at rb K L → is_rb_ctx K 0 → on_path cmp key K →
  items (plug K L) = its → sorted cmp its → rb_size rb = u32 (Z.of_nat (length its)) →
  length key = rb_key_size rb → length val = rb_val_size rb →
  wp (n ← create_node key val;
      update n (set_color RED);;
      update n (set_right (Some (rb_nil rb)));;
      update n (set_left (Some (rb_nil rb)));;
      (if decide (caddr (rb_nil rb) K = Some (rb_nil rb)) then
         update n (set_parent (Some (rb_nil rb)));;
         set_root n
       else
         update n (set_parent (caddr (rb_nil rb) K));;
         k ← get_key (caddr (rb_nil rb) K);
         if less cmp key k then update (caddr (rb_nil rb) K) (set_left n)
         else update (caddr (rb_nil rb) K) (set_right n));;
      modify (λ rb, with_rbsize (u32 (rb_size rb + 1)) rb);;
      insert_fix_up n;;
      mret n) rb (inserted rb its key val).
Proof.
  intros Ht HK Hp Hits Hs Hsz Hkey Hval.
  destruct (on_path_bounds cmp key K L) as [Hpre Hpost]; [by rw Hits|done|].
  assert (its = cpre K ++ cpost K) as Hsplit by (by rw -Hits items_plug_split).
  apply wp_bind, wp_create_node; [done..|]. intros l Hl.
  pose proof (tree_at_fresh _ _ _ _ Ht Hl) as [Hlnil HlK]. rewrite app_nil_r in HlK.
  assert (l ∉ its.*1).
  { rw -Hits items_locs. apply tree_at_plug in Ht. apply (tree_at_fresh _ _ _ _ Ht Hl). }
  do 3 (rb_step; rb_step).
  destruct K as [|f K]; cbn [caddr].
  - rewrite decide_True; [done|]. do 2 rb_step. rb_step. rb_step.
    eapply (insert_tail rb _ its [] 0); [|done..].
    eapply tree_at_link; [exact Ht|done|done| | |done| |done]; cbn -[dom].
    + by rewrite lookup_insert_eq.
    + intros w ? _. by rewrite !lookup_insert_ne.
    + rw !dom_insert_L. set_solver.
  - destruct f as [d c x k v s].
    rewrite decide_False; [by eauto using tree_at_ne_nil_frame|]. cbn [f_addr].
    assert (∃ nx, rb_nodes rb !! x = Some nx ∧ n_key nx = k) as (nx & Hx & Hnx).
    { destruct Ht as [_ _ _ [Hx _] _ _]. destruct d; eauto. }
    assert (x ≠ l) by (intros ->; congruence).
    rb_step. rb_step. rb_step. rb_step. rw /get_key. rb_step. apply wp_assert; [done|]. rb_step.
    rb_step. rb_step. rewrite Hnx.
    apply Forall_cons in Hp as [Hd Hp]. cbn in Hd.
    assert (less cmp key k = d) as ->.
    { destruct d; [by apply less_spec|]. apply not_true_iff_false. intros ?%less_spec.
      by apply (irreflexivity (key_lt cmp) key); etrans. }
    assert (wp (update (Some x) (set_child d (Some l)))
      (with_nodes (<[l := Node (Some x) (Some (rb_nil rb)) (Some (rb_nil rb)) RED key val]> (rb_nodes rb)) rb)
      (λ _ rb', same_but_nodes rb rb' ∧ tree_at rb' (Fr d c x k v s :: K) (N RED l key val L L))) as Hlink.
    { eapply wp_update; [cbn; by rewrite lookup_insert_ne|]. split; [done|].
      eapply tree_at_link; [exact Ht|done|done|..]; cbn -[dom].
      - by rewrite lookup_insert_ne // lookup_insert_eq.
      - intros w ??. rewrite !lookup_insert_ne; congruence.
      - intros f K' [= <- <-]. cbn. by rewrite lookup_insert_eq Hx.
      - rw !dom_insert_L. assert (x ∈ dom (rb_nodes rb)) by (apply elem_of_dom; eauto). set_solver.
      - by rw (ta_root _ _ _ Ht). }
    eapply wp_mono; [rewrite !insert_insert_eq; destruct d; exact Hlink|].
    cbn. intros _ rb' [(Hn1 & Hs1 & Hk1 & Hv1) Ht1].
    eapply (insert_tail rb rb' its _ 0); try done. by rw Hs1.
Qed.

Lemma RBtree_insert_ok rb its key val :
  rb_map cmp rb its → length key = rb_key_size rb → length val = rb_val_size rb →
  wp (RBtree_insert cmp key val) rb (λ it rb',
    (it = Some (rb_nil rb) ∧ rb' = rb ∧ ∃ i, i ∈ its ∧ cmp key (ikey i) = 0%Z) ∨
    ((∀ i, i ∈ its → cmp key (ikey i) ≠ 0%Z) ∧ inserted rb its key val it rb')).
Proof.
  intros [(t0 & m & Ht0 & Hrb & Hblack & Hits) Hs Hsz] Hkey Hval.
  rw /RBtree_insert. apply wp_bind. eapply wp_mono; [by apply (find_ok cmp)|].
  intros p ? [-> (K & t & Hf)]. apply wp_bind, wp_nil.
  pose proof (found_present _ _ _ _ _ _ _ _ Hits Hs Hf) as Hpres.
  destruct Hf as (Hplug & Hp & Hres). subst t0. apply tree_at_plug in Ht0.
  destruct t as [|c x k v l r].
  - destruct Hpres as [Hno Hsplit]. subst p.
    destruct (is_rb_hole _ _ _ Hrb Hblack) as (n & -> & HK & _).
    apply wp_bind. eapply wp_mono; [|intros b rb' H; exact H].
    eapply wp_mono with (P := λ b rb', b = false ∧ rb' = rb).
    + destruct K as [|[d c x k v s] K].
      * by rewrite decide_True.
      * rewrite decide_False; [by eauto using tree_at_ne_nil_frame|].
        apply wp_bind. pose proof (proj1 (tree_at_focus _ _ _ _) Ht0) as Ht1.
        assert (∃ l r, plug1 (Fr d c x k v s) L = N c x k v l r) as (l & r & Hl)
          by (destruct d; cbn; eauto).
        rewrite Hl in Ht1. eapply wp_get_key; [done|]. apply wp_ret. split; [|done].
        apply not_true_iff_false. intros Hek%equal_spec. apply (Hno (x, (k, v))); [|done].
        rw Hsplit. destruct d; cbn; set_solver.
    + intros b ? [-> ->]. eapply wp_mono; [by eapply insert_new|]. auto.
  - destruct Hres as [-> Hcmp].
    apply wp_bind. rewrite decide_False; [by eauto using tree_at_ne_nil|].
    apply wp_bind. eapply wp_get_key; [done|].
    rewrite (proj2 (equal_spec cmp key k)) //. apply wp_ret, wp_nil. left. eauto 10.
Qed.
End insert.

(** ** Iteration *)

(** The address of the first element of a list, the dummy's for none. *)
Definition first_addr (nl : loc) (its : list (loc * (list Z * list Z))) : ptr :=
  match its with [] => Some nl | i :: _ => Some i.1 end.

Lemma minimum_ok rb K c x k v l r :
  tree_at rb K (N c x k v l r) →
  wp (minimum (Some x)) rb (λ p rb', rb' = rb ∧
    p = first_addr (rb_nil rb) (items (N c x k v l r))).
Proof.
  intros Ht. rw /minimum. apply wp_bind, wp_nil, wp_bind, wp_path_fuel.
  apply (wp_loop (λ n p rb', rb' = rb ∧ ∃ K' c' x' k' v' l' r' post,
    n = height (N c' x' k' v' l' r') ∧ p = Some x' ∧
    tree_at rb K' (N c' x' k' v' l' r') ∧
    items (N c x k v l r) = items (N c' x' k' v' l' r') ++ post) _ _ (height (N c x k v l r))).
  - intros n p ? [-> (K' & c' & x' & k' & v' & l' & r' & post & -> & -> & Ht' & Hits)].
    apply wp_bind, (wp_node_at _ _ _ _ _ _ _ _ _ Ht'). cbn [n_left].
    destruct l' as [|c2 x2 k2 v2 l2 r2].
    + rewrite decide_True; [done|]. apply wp_ret. split; [done|]. by rw Hits.
    + pose proof (proj2 (tree_at_focus _ (Fr true c' x' k' v' r') _ (N c2 x2 k2 v2 l2 r2)) Ht') as Ht2.
      rewrite decide_False; [by eauto using tree_at_ne_nil|]. apply wp_ret.
      eexists; split; [|split; [done|eexists _, _, _, _, _, _, _, _; split_and!; [done..|]]].
      { cbn. lia. }
      rw Hits. cbn. by rewrite -?app_assoc /= -?app_assoc.
  - split; [done|]. eexists _, _, _, _, _, _, _, []. split_and!; [done..|]. by rw app_nil_r.
  - rw (size_nodes _ _ _ Ht) length_app. pose proof (height_locs (N c x k v l r)). lia.
Qed.

(** Climbing from the right: the nearest ancestor on whose left side one is. *)
Lemma successor_climb rb K c x k v l r :
  tree_at rb K (N c x k v l r) →
  wp (loop (2 + size (rb_nodes rb)) (λ '(n, y),
        if decide (y = Some (rb_nil rb)) then mret (inr y)
        else
          yn ← node y;
          if decide (n = n_right yn) then mret (inl (y, n_parent yn)) else mret (inr y))
        (Some x, caddr (rb_nil rb) K)) rb
    (λ p rb', rb' = rb ∧ p = first_addr (rb_nil rb) (cpost K)).
Proof.
  intros Ht.
  apply (wp_loop (λ n '(p, y) rb', rb' = rb ∧ ∃ K' c' x' k' v' l' r',
    n = length K' ∧ p = Some x' ∧ y = caddr (rb_nil rb) K' ∧
    tree_at rb K' (N c' x' k' v' l' r') ∧ cpost K = cpost K') _ _ (length K)).
  - intros n [p y] ? [-> (K' & c' & x' & k' & v' & l' & r' & -> & -> & -> & Ht' & ->)].
    destruct K' as [|[d cf xf kf vf s] K'].
    + rewrite decide_True; [done|]. by apply wp_ret.
    + cbn [caddr f_addr]. rewrite decide_False; [by eauto using tree_at_ne_nil_frame|].
      apply wp_bind, (wp_node_frame _ _ _ _ _ _ _ _ _ _ Ht'). destruct d; cbn [n_right].
      * rewrite decide_False; [intros Heq; by apply (addr_ne _ _ _ _ Ht')|]. by apply wp_ret.
      * rewrite decide_True; [done|]. apply wp_ret.
        apply tree_at_focus in Ht'. cbn in Ht'.
        exists (length K'). split; [cbn; lia|]. split; [done|].
        eexists K', _, _, _, _, _, _. split_and!; [done..|]. done.
  - split; [done|]. eexists K, _, _, _, _, _, _. by split_and!.
  - rw (size_nodes _ _ _ Ht) length_app. pose proof (length_clocs K). lia.
Qed.

Lemma successor_ok rb K c x k v l r :
  tree_at rb K (N c x k v l r) →
  wp (successor (Some x)) rb (λ p rb', rb' = rb ∧
    p = first_addr (rb_nil rb) (items r ++ cpost K)).
Proof.
  intros Ht. rw /successor. apply wp_bind, (wp_node_at _ _ _ _ _ _ _ _ _ Ht), wp_bind, wp_nil.
  cbn [n_right n_parent]. destruct r as [|c2 x2 k2 v2 l2 r2].
  - rewrite decide_True; [done|]. apply wp_bind, wp_path_fuel. by eapply successor_climb.
  - pose proof (proj2 (tree_at_focus _ (Fr false c x k v l) _ (N c2 x2 k2 v2 l2 r2)) Ht) as Ht2.
    rewrite decide_False; [by eauto using tree_at_ne_nil|].
    eapply wp_mono; [by eapply minimum_ok|]. intros p rb' [-> ->]. split; [done|].
    cbn. destruct (items l2) as [|[??] ?]; done.
Qed.

Lemma cpre_app K1 K2 : cpre (K1 ++ K2) = cpre K2 ++ cpre K1.
Proof. induction K1 as [|f K IH]; cbn; [by rw app_nil_r|]. by rw IH -app_assoc. Qed.
Lemma cpost_app K1 K2 : cpost (K1 ++ K2) = cpost K1 ++ cpost K2.
Proof. induction K1 as [|f K IH]; cbn; [done|]. by rw IH -app_assoc. Qed.

(** Every element is at some place of the tree. *)
Lemma items_plug_inv t pre i post :
  items t = pre ++ i :: post →
  ∃ K c l r, plug K (N c i.1 i.2.1 i.2.2 l r) = t ∧ post = items r ++ cpost K ∧
    pre = cpre K ++ items l.
Proof.
  revert pre post. induction t as [|c x k v l IHl r IHr]; intros pre post Hits; cbn in Hits.
  { by destruct pre. }
  apply app_eq_inv in Hits as [(l1 & Heq & Hr)|(l1 & Heq & Hr)].
  - destruct l1 as [|j l1]; cbn in *.
    + injection Hr as -> ->. exists [], c, l, r. cbn. by rewrite app_nil_r in Heq; rewrite Heq app_nil_r.
    + injection Hr as -> ->. destruct (IHl pre l1 Heq) as (K & c' & l' & r' & Hp & -> & ->).
      exists (K ++ [Fr true c x k v r]), c', l', r'. split_and!.
      * by rw plug_app Hp.
      * by rw cpost_app /= -app_assoc app_nil_r.
      * by rw cpre_app /=.
  - destruct l1 as [|j l1]; cbn in *.
    + injection Hr as <- <-. exists [], c, l, r. cbn. by rewrite !app_nil_r in Heq |- *.
    + injection Hr as <- Hr. destruct (IHr l1 post Hr) as (K & c' & l' & r' & Hp & -> & ->).
      exists (K ++ [Fr false c x k v l]), c', l', r'. split_and!.
      * by rw plug_app Hp.
      * by rw cpost_app /= app_nil_r.
      * by rw cpre_app Heq /= -!app_assoc.
Qed.

Lemma RB_iter_next_ok cmp rb its pre i post :
  rb_map cmp rb its → its = pre ++ i :: post →
  wp (RB_iter_next (Some i.1)) rb (λ it rb', rb' = rb ∧ it = first_addr (rb_nil rb) post).
Proof.
  intros [(t & n & Ht & _ & _ & <-) _ _] Hits.
  destruct (items_plug_inv _ _ _ _ Hits) as (K & c & l & r & <- & -> & _).
  apply tree_at_plug in Ht. rw /RB_iter_next. apply wp_bind, wp_nil.
  rewrite decide_False; [by eauto using tree_at_ne_nil|].
  apply wp_bind. eapply wp_mono; [by eapply successor_ok|]. intros p rb' [-> ->].
  apply wp_ret. split; [done|]. by destruct (items r ++ cpost K).
Qed.

Lemma RBtree_begin_ok cmp rb its :
  rb_map cmp rb its → its ≠ [] →
  wp RBtree_begin rb (λ it rb', rb' = rb ∧ it = first_addr (rb_nil rb) its).
Proof.
  intros [(t & n & Ht & _ & _ & <-) _ _] Hne. rw /RBtree_begin.
  apply wp_bind, wp_root, wp_bind. rw (ta_root _ _ _ Ht) /=.
  destruct t as [|c x k v l r]; [done|].
  eapply wp_mono; [by eapply minimum_ok|]. intros p rb' [-> ->].
  apply wp_bind, wp_nil, wp_ret. split; [done|]. by destruct (items _).
Qed.

(** On a fresh tree, [RBtree_begin] follows the uninitialised left link of the
    dummy node. *)
Lemma RBtree_begin_empty dl d ks vs l :
  n_left d = Some l → l ≠ dl →
  RBtree_begin (RBtree_create dl d ks vs) = Fault Dangling.
Proof.
  intros Hd Hl. rw /RBtree_begin /minimum. cbn.
  rewrite /mbind /M_bind /root /nil /path_fuel /gets /node /on_nodes /zoom /hload.
  cbn [rb_root RBtree_create rb_nil rb_nodes]. cbn [loop Nat.add].
  rewrite /mbind /M_bind /zoom /hload /=. rewrite lookup_singleton_eq /= Hd.
  case_decide; [congruence|]. cbn. by rewrite lookup_insert_ne.
Qed.

(** ** Elements through iterators *)

Lemma rb_map_at cmp rb its pre i post :
  rb_map cmp rb its → its = pre ++ i :: post →
  ∃ K c l r, tree_at rb K (N c i.1 i.2.1 i.2.2 l r).
Proof.
  intros [(t & n & Ht & _ & _ & <-) _ _] Hits.
  destruct (items_plug_inv _ _ _ _ Hits) as (K & c & l & r & <- & _ & _).
  apply tree_at_plug in Ht. eauto.
Qed.

Lemma rb_iter_get_ok cmp rb its pre i post :
  rb_map cmp rb its → its = pre ++ i :: post →
  rb_iter_get_first (Some i.1) rb = Ok (i.2.1, rb) ∧ rb_iter_get_second (Some i.1) rb = Ok (i.2.2, rb).
Proof.
  intros Hm Hits. destruct (rb_map_at _ _ _ _ _ _ Hm Hits) as (K & c & l & r & Ht).
  split.
  - destruct (wp_ok (rb_iter_get_first (Some i.1)) rb (λ k rb', k = i.2.1 ∧ rb' = rb))
      as (? & ? & -> & -> & ->); [by eapply wp_get_key|done].
  - destruct (wp_ok (rb_iter_get_second (Some i.1)) rb (λ v rb', v = i.2.2 ∧ rb' = rb))
      as (? & ? & -> & -> & ->); [|done].
    apply wp_bind, wp_assert; [done|]. by apply wp_bind, (wp_node_at _ _ _ _ _ _ _ _ _ Ht).
Qed.

(** The nodes of a tree's elements are different. *)
Lemma rb_map_nodup cmp rb its : rb_map cmp rb its → NoDup (rb_nil rb :: its.*1).
Proof. intros [(t & n & [Hnd _ _ _ _ _] & _ & _ & <-) _ _]. by rewrite items_locs. Qed.

(** A node's value can be replaced without changing anything else of the shape. *)
Lemma plug_set_val K c x k v v' l r n :
  is_rb (plug K (N c x k v l r)) n → tcol (plug K (N c x k v l r)) = BLACK →
  is_rb (plug K (N c x k v' l r)) n ∧ tcol (plug K (N c x k v' l r)) = BLACK.
Proof.
  assert (∀ K t t' n, tcol t = tcol t' → (∀ m, is_rb t m → is_rb t' m) →
    is_rb (plug K t) n → is_rb (plug K t') n ∧ tcol (plug K t) = tcol (plug K t')) as Hgen.
  { clear. intros K. induction K as [|f K IH]; intros t t' n Hc Ht Hrb; [by split; auto|].
    rewrite !plug_cons in Hrb |- *. apply IH; [by rw /plug1; destruct (f_left f)| |done].
    intros m. rw /plug1. destruct (f_left f), (f_color f); cbn; rw -?Hc; naive_solver. }
  intros Hrb Hb. destruct (Hgen K (N c x k v l r) (N c x k v' l r) n) as [? Heq]; [done..|].
  by rewrite -Heq.
Qed.

Lemma rb_iter_set_second_ok cmp rb its pre i post val :
  rb_map cmp rb its → its = pre ++ i :: post → length val = rb_val_size rb →
  wp (rb_iter_set_second (Some i.1) val) rb (λ _ rb', same_but_nodes rb rb' ∧
    rb_map cmp rb' (pre ++ (i.1, (i.2.1, val)) :: post)).
Proof.
  intros [(t & n & Ht & Hrb & Hb & <-) Hs Hsz] Hits Hval.
  destruct (items_plug_inv _ _ _ _ Hits) as (K & c & l & r & <- & Hpost & Hpre).
  apply tree_at_plug in Ht. apply wp_bind, wp_get. rewrite -Hval firstn_all.
  eapply wp_mono; [by eapply (tree_at_fields rb K c _ _ _ l r _ c i.2.1 val)|]. cbn. intros _ rb' [Hs' Ht'].
  split; [done|]. destruct Hs' as (_ & Hsz' & _ & _).
  assert (items (plug K (N c i.1 i.2.1 val l r)) = pre ++ (i.1, (i.2.1, val)) :: post) as Hitems.
  { rw items_plug_split Hpre Hpost /=. by rewrite -!app_assoc. }
  split.
  - exists (plug K (N c i.1 i.2.1 val l r)), n. pose proof (plug_set_val _ _ _ _ _ val _ _ _ Hrb Hb) as [??].
    split_and!; [by apply tree_at_plug in Ht'|done..].
  - rewrite Hits in Hs. rewrite /sorted !fmap_app !fmap_cons in Hs |- *. done.
  - rw Hsz' Hsz. f_equal. f_equal. rw Hits !length_app. done.
Qed.

Lemma RBtree_create_ok cmp dl d ks vs : rb_map cmp (RBtree_create dl d ks vs) [].
Proof.
  split; [|constructor|done]. exists L, 0. split_and!; [|done..].
  split; cbn -[dom].
  - by apply NoDup_singleton.
  - eexists. by rewrite lookup_singleton_eq.
  - rewrite dom_singleton_L. set_solver.
  - done.
  - done.
  - done.
Qed.

(** ** The length of a search *)

Lemma is_rb_height t n :
  is_rb t n → height t ≤ 2 * n + match tcol t with RED => 1 | BLACK => 0 end ∧
  2 ^ n ≤ S (length (items t)).
Proof.
  revert n. induction t as [|c x k v l IHl r IHr]; intros n; cbn -[Nat.mul Nat.pow].
  { intros ->. cbn. lia. }
  rw length_app /=. destruct c; cbn -[Nat.mul Nat.pow].
  - intros (Hcl & Hcr & Hl & Hr). destruct (IHl _ Hl) as [Hhl Hsl], (IHr _ Hr) as [Hhr Hsr].
    rewrite Hcl in Hhl. rewrite Hcr in Hhr. cbn in *. lia.
  - intros (m & -> & Hl & Hr). destruct (IHl _ Hl) as [Hhl Hsl], (IHr _ Hr) as [Hhr Hsr].
    rw Nat.pow_succ_r'. destruct (tcol l), (tcol r); lia.
Qed.

Lemma height_log t n :
  is_rb t n → tcol t = BLACK → height t ≤ 2 * Nat.log2 (S (length (items t))).
Proof.
  intros Hrb Hb. destruct (is_rb_height t n Hrb) as [Hh Hs]. rewrite Hb in Hh. cbn in Hh.
  apply Nat.log2_le_mono in Hs. rewrite Nat.log2_pow2 in Hs; lia.
Qed.

(** C19.  Insertion into a red-black tree.  On a tree whose nodes are in the
    order of their keys and satisfy the red-black conditions (no red node has a
    red child, the same number of black nodes on every path, a black root),
    [RBtree_insert] of an absent key puts exactly one new element, at an address
    not in use, in its place in the order, re-establishes all the conditions
    and returns the iterator of the new element; all other elements keep their
    nodes, so iterators stay valid.  For a key that is present it returns the
    end iterator and changes nothing.  It never faults, and its loops end. *)
Theorem RBtree_insert_keeps_red_black cmp rb its key val :
  KeyOrder cmp → rb_map cmp rb its →
  length key = rb_key_size rb → length val = rb_val_size rb →
  ∃ it rb', RBtree_insert cmp key val rb = Ok (it, rb') ∧
    ((it = Some (rb_nil rb) ∧ rb' = rb ∧ ∃ i, i ∈ its ∧ cmp key (ikey i) = 0%Z) ∨
     ((∀ i, i ∈ its → cmp key (ikey i) ≠ 0%Z) ∧
      ∃ l pre post, it = Some l ∧ l ∉ rb_nil rb :: its.*1 ∧ its = pre ++ post ∧
        rb_map cmp rb' (pre ++ (l, (key, val)) :: post))).
Proof.
  intros Hcmp Hm Hk Hv. destruct (wp_ok _ _ _ (RBtree_insert_ok cmp _ _ _ _ Hm Hk Hv)) as (it & rb' & Hrun & H).
  exists it, rb'. split; [done|]. destruct H as [?|[Hno (l & pre & post & -> & Hl & Hits & Hm' & Hnil & _)]]; [by left|].
  right. split; [done|]. exists l, pre, post. split_and!; [done| |done|done].
  apply rb_map_nodup in Hm'. rewrite Hnil fmap_app /= NoDup_cons in Hm'.
  rewrite not_elem_of_cons. split; [|done]. intros ->. set_solver.
Qed.

(** C20.  A search is logarithmic.  In a tree of [n] elements the loop of [find]
    ends after at most [2 * log2 (n + 1) + 1] rounds: with that bound in place of
    the size of the store its result is the same. *)
Theorem find_logarithmic cmp rb its key :
  KeyOrder cmp → rb_map cmp rb its → its ≠ [] →
  ∃ p, find cmp key rb = Ok (p, rb) ∧
    loop (S (2 * Nat.log2 (S (length its)))) (find_body cmp key) (rb_root rb, NULL) rb = Ok (p, rb).
Proof.
  intros Hcmp [(t & n & Ht & Hrb & Hb & <-) _ _] Hne.
  destruct t as [|c x k v l r]; [done|].
  set (t := N c x k v l r) in *.
  assert (∀ m, height t < m → ∃ p, loop m (find_body cmp key) (rb_root rb, NULL) rb = Ok (p, rb)) as Hloop.
  { intros m Hm. destruct (wp_ok _ _ _ (rb_find_loop_ok cmp rb key t [] t m Ht eq_refl ltac:(done) ltac:(constructor) Hm))
      as (p & ? & Hrun & -> & _). exists p. rewrite -Hrun (ta_root _ _ _ Ht). done. }
  destruct (Hloop (S (height t))) as [p Hp]; [lia|]. exists p.
  pose proof (height_log _ _ Hrb Hb). pose proof (height_locs t). pose proof (size_nodes _ _ _ Ht) as Hsz.
  split; [|by eapply loop_more; [exact Hp|lia]].
  rw /find /mbind /M_bind /root /nil /path_fuel /gets.
  rewrite decide_False; [rewrite (ta_root _ _ _ Ht); exact (tree_at_ne_nil _ _ _ _ _ _ _ _ Ht)|].
  eapply loop_more; [exact Hp|]. rewrite Hsz length_app. lia.
Qed.

(** ** Concrete trees *)

(** The comparison of keys by their little-endian value; here of single bytes. *)
Definition cmp_le (a b : list Z) : Z := Z.sgn (le a - le b).

#[export] Instance cmp_le_order : KeyOrder cmp_le.
Proof.
  split.
  - intros a b. rw /cmp_le. lia.
  - intros a b. rw /cmp_le. lia.
  - intros a b c. rw /cmp_le. lia.
Qed.

Definition dummy0 : RBnode := Node (Some 77%positive) (Some 78%positive) NULL RED [] [].
Definition empty_tree : RBtree := RBtree_create 1 dummy0 1 1.

Lemma RBtree_insert_keeps_red_black_witness :
  ∃ it rb', RBtree_insert cmp_le [5%Z] [50%Z] empty_tree = Ok (it, rb') ∧
    ((it = Some (rb_nil empty_tree) ∧ rb' = empty_tree ∧ ∃ i, i ∈ [] ∧ cmp_le [5%Z] (ikey i) = 0%Z) ∨
     ((∀ i, i ∈ [] → cmp_le [5%Z] (ikey i) ≠ 0%Z) ∧
      ∃ l pre post, it = Some l ∧ l ∉ [1%positive] ∧ [] = pre ++ post ∧
        rb_map cmp_le rb' (pre ++ (l, ([5%Z], [50%Z])) :: post))).
Proof.
  apply (RBtree_insert_keeps_red_black cmp_le empty_tree []);
    [apply cmp_le_order|apply RBtree_create_ok|reflexivity|reflexivity].
Defined.

Definition tree1 : RBtree :=
  match RBtree_insert cmp_le [5%Z] [50%Z] empty_tree with Ok (_, rb) => rb | Fault _ => empty_tree end.

Lemma tree1_map : rb_map cmp_le tree1 [(2%positive, ([5%Z], [50%Z]))].
Proof.
  destruct (wp_ok _ _ _ (RBtree_insert_ok cmp_le empty_tree [] [5%Z] [50%Z]
    (RBtree_create_ok _ _ _ _ _) eq_refl eq_refl)) as (it & rb' & Hrun & H).
  assert (tree1 = rb' ∧ it = Some 2%positive) as [-> ->].
  { rw /tree1 Hrun. split; [done|]. vm_compute in Hrun. congruence. }
  destruct H as [(_ & _ & i & Hi%not_elem_of_nil & _)|[_ (l & [|? ?] & [|? ?] & [= <-] & _ & Hits & Hm & _)]];
    [done|done|done..].
Qed.

Lemma find_logarithmic_witness :
  ∃ p, find cmp_le [5%Z] tree1 = Ok (p, tree1) ∧
    loop (S (2 * Nat.log2 (S 1))) (find_body cmp_le [5%Z]) (rb_root tree1, NULL) tree1 = Ok (p, tree1).
Proof.
  apply (find_logarithmic cmp_le tree1 [(2%positive, ([5%Z], [50%Z]))]);
    [apply cmp_le_order|apply tree1_map|discriminate].
Defined.
