(* ===== verification/Map.v ===== *)
(** * The map front end ([src/src/map.c], [src/include/map.h])

    A [map_t] delegates every operation to a container, a struct of function
    pointers.  The container is here a record of operations over a state of its
    own, a class states what [map.c] and its clients rely on, and the red-black
    tree is shown to be such a container.  The refinement of the map is proved
    against the class only. *)
From stdpp Require Import sorting.
From S2P Require Import Prelude RBTree RBInsert.

(** ** The interface *)

(** [struct interface_map_container], with the function pointers that its
    iterators carry. *)
Record interface_map_container (C : Type) := Container {
  c_insert : list Z → list Z → M C map_iter;
  c_erase : map_iter → M C map_iter;
  c_remove : list Z → M C ();
  c_find : list Z → M C map_iter;
  c_begin : M C map_iter;
  c_end : M C map_iter;
  c_size : M C Z;
  c_empty : M C bool;
  it_next : map_iter → M C map_iter;
  it_get_first : map_iter → M C (list Z);
  it_get_second : map_iter → M C (list Z);
  it_set_second : map_iter → list Z → M C ();
}.
Arguments c_insert {C} i : rename.
Arguments c_erase {C} i : rename.
Arguments c_remove {C} i : rename.
Arguments c_find {C} i : rename.
Arguments c_begin {C} i : rename.
Arguments c_end {C} i : rename.
Arguments c_size {C} i : rename.
Arguments c_empty {C} i : rename.
Arguments it_next {C} i : rename.
Arguments it_get_first {C} i : rename.
Arguments it_get_second {C} i : rename.
Arguments it_set_second {C} i : rename.

(** The container that [RBtree_create] fills in. *)
Definition RBtree_container (cmp : list Z → list Z → Z) : interface_map_container RBtree :=
  Container RBtree (RBtree_insert cmp) (RBtree_erase cmp) (RBtree_delete cmp) (RBtree_find cmp)
    RBtree_begin RBtree_end RBtree_size RBtree_empty
    RB_iter_next rb_iter_get_first rb_iter_get_second rb_iter_set_second.

(** ** [struct map] *)

Record map (C : Type) := Map {
  m_container : interface_map_container C;
  m_free_container_on_destroy : bool;
}.
Arguments Map {C}.
Arguments m_container {C}.
Arguments m_free_container_on_destroy {C}.

(** A [map_t] is a pointer, which the operations assert not to be NULL.  Without
    a container of the caller's, [map_create] makes a red-black tree, which it
    should free with the map; [dl] is the address of its dummy node and [d] what
    the memory there holds before. *)
Definition map_create {C} (key_size val_size : nat) (cmp : list Z → list Z → Z) (dl : loc) (d : RBnode)
    (container : option (interface_map_container C)) : map C + map RBtree * RBtree :=
  match container with
  | Some c => inl (Map c false)
  | None => inr (Map (RBtree_container cmp) true, RBtree_create dl d key_size val_size)
  end.

Section map.
Context {C : Type}.

Definition with_map {A} (m : option (map C)) (f : interface_map_container C → M C A) : M C A :=
  match m with
  | None => fail AssertFailed
  | Some m => f (m_container m)
  end.

(** [map_destroy] has an empty body. *)
Definition map_destroy (m : option (map C)) : M C () := mret tt.
Definition map_insert (m : option (map C)) (key val : list Z) : M C map_iter :=
  with_map m (λ c, c_insert c key val).
Definition map_erase (m : option (map C)) (it : map_iter) : M C map_iter :=
  with_map m (λ c, c_erase c it).
Definition map_remove (m : option (map C)) (key : list Z) : M C () :=
  with_map m (λ c, c_remove c key).
Definition map_find (m : option (map C)) (key : list Z) : M C map_iter :=
  with_map m (λ c, c_find c key).
Definition map_begin (m : option (map C)) : M C map_iter := with_map m c_begin.
Definition map_end (m : option (map C)) : M C map_iter := with_map m c_end.
Definition map_size (m : option (map C)) : M C Z := with_map m c_size.
Definition map_empty (m : option (map C)) : M C bool := with_map m c_empty.

Definition map_iter_equal (a b : map_iter) : bool := bool_decide (a = b).

(** The macros [IT_MAP_NEXT], [IT_MAP_GETFIRST], [IT_MAP_GETSECOND] and
    [IT_MAP_SETSECOND] call the function pointers of the iterator, which are
    those of its container. *)
Definition IT_MAP_NEXT (m : option (map C)) (it : map_iter) : M C map_iter :=
  with_map m (λ c, it_next c it).
Definition IT_MAP_GETFIRST (m : option (map C)) (it : map_iter) : M C (list Z) :=
  with_map m (λ c, it_get_first c it).
Definition IT_MAP_GETSECOND (m : option (map C)) (it : map_iter) : M C (list Z) :=
  with_map m (λ c, it_get_second c it).
Definition IT_MAP_SETSECOND (m : option (map C)) (it : map_iter) (val : list Z) : M C () :=
  with_map m (λ c, it_set_second c it val).
End map.

(** ** What a container promises

    [mc_holds ks vs e c its] says that the container [c], of keys of [ks] and
    values of [vs] bytes, holds the elements [its] in the order of their keys,
    each at its address, and that [e] is the address of the end iterator. *)
Class MapContainer {C} (cmp : list Z → list Z → Z) (i : interface_map_container C) := {
  mc_holds : nat → nat → loc → C → list (loc * (list Z * list Z)) → Prop;
  mc_sorted ks vs e c its : mc_holds ks vs e c its → sorted cmp its ∧ NoDup (e :: its.*1);
  mc_end ks vs e c its : mc_holds ks vs e c its → c_end i c = Ok (Some e, c);
  mc_size ks vs e c its : mc_holds ks vs e c its →
    c_size i c = Ok (u32 (Z.of_nat (length its)), c);
  mc_find ks vs e c its key : mc_holds ks vs e c its →
    wp (c_find i key) c (λ it c', c' = c ∧
      ((∃ x k v, it = Some x ∧ (x, (k, v)) ∈ its ∧ cmp key k = 0%Z) ∨
       (it = Some e ∧ ∀ j, j ∈ its → cmp key (ikey j) ≠ 0%Z)));
  mc_insert ks vs e c its key val : mc_holds ks vs e c its →
    length key = ks → length val = vs →
    wp (c_insert i key val) c (λ it c',
      (it = Some e ∧ c' = c ∧ ∃ j, j ∈ its ∧ cmp key (ikey j) = 0%Z) ∨
      ((∀ j, j ∈ its → cmp key (ikey j) ≠ 0%Z) ∧ ∃ l pre post,
         it = Some l ∧ its = pre ++ post ∧ mc_holds ks vs e c' (pre ++ (l, (key, val)) :: post)));
  mc_begin ks vs e c its : mc_holds ks vs e c its → its ≠ [] →
    c_begin i c = Ok (first_addr e its, c);
  mc_next ks vs e c pre j post : mc_holds ks vs e c (pre ++ j :: post) →
    it_next i (Some j.1) c = Ok (first_addr e post, c);
  mc_get ks vs e c pre j post : mc_holds ks vs e c (pre ++ j :: post) →
    it_get_first i (Some j.1) c = Ok (j.2.1, c) ∧ it_get_second i (Some j.1) c = Ok (j.2.2, c);
  mc_set ks vs e c pre j post val : mc_holds ks vs e c (pre ++ j :: post) → length val = vs →
    wp (it_set_second i (Some j.1) val) c (λ _ c',
      mc_holds ks vs e c' (pre ++ (j.1, (j.2.1, val)) :: post));
}.

(** The red-black tree is a container. *)
#[export] Program Instance RBtree_map_container cmp `{!KeyOrder cmp} :
    MapContainer cmp (RBtree_container cmp) := {|
  mc_holds ks vs e rb its := rb_map cmp rb its ∧ rb_nil rb = e ∧ rb_key_size rb = ks ∧ rb_val_size rb = vs;
|}.
Next Obligation.
  intros cmp ? ks vs e rb its (Hm & <- & _ & _). split; [apply Hm|by eapply rb_map_nodup].
Qed.
Next Obligation. intros cmp ? ks vs e rb its (Hm & <- & _ & _). done. Qed.
Next Obligation.
  intros cmp ? ks vs e rb its (Hm & _ & _ & _). cbn. rw /RBtree_size /gets. by rw (rm_size _ _ _ Hm).
Qed.
Next Obligation.
  intros cmp ? ks vs e rb its key (Hm & <- & _ & _). by apply RBtree_find_ok.
Qed.
Next Obligation.
  intros cmp ? ks vs e rb its key val (Hm & <- & <- & <-) Hk Hv.
  eapply wp_mono; [by apply (RBtree_insert_ok cmp)|]. intros it rb' [H|[Hno H]]; [by left|right].
  split; [done|]. destruct H as (l & pre & post & -> & _ & -> & Hm' & ? & ? & ?). eauto 10.
Qed.
Next Obligation.
  intros cmp ? ks vs e rb its (Hm & <- & _ & _) Hne. cbn.
  by destruct (wp_ok _ _ _ (RBtree_begin_ok _ _ _ Hm Hne)) as (? & ? & -> & -> & ->).
Qed.
Next Obligation.
  intros cmp ? ks vs e rb pre j post (Hm & <- & _ & _). cbn.
  by destruct (wp_ok _ _ _ (RB_iter_next_ok cmp rb _ pre j post Hm eq_refl)) as (? & ? & -> & -> & ->).
Qed.
Next Obligation.
  intros cmp ? ks vs e rb pre j post (Hm & _ & _ & _). by apply (rb_iter_get_ok cmp rb _ pre j post Hm).
Qed.
Next Obligation.
  intros cmp ? ks vs e rb pre j post val (Hm & <- & <- & <-) Hv.
  eapply wp_mono; [by eapply (rb_iter_set_second_ok cmp)|].
  intros ? rb' [(? & ? & ? & ?) ?]. by split_and!.
Qed.

(** ** Clients of a map *)

Inductive op :=
  | Insert (key val : list Z)
  | Find (key : list Z)
  | Update (key val : list Z)     (* IT_MAP_SETSECOND on what map_find returns *)
  | Size
  | Walk.                         (* from map_begin to map_end *)

Inductive obs :=
  | OBool (b : bool)
  | OVal (v : option (list Z))
  | OSize (n : Z)
  | OList (kvs : list (list Z * list Z)).

Section client.
Context {C : Type}.

Definition walk_body (m : option (map C)) (e : map_iter) (x : map_iter * list (list Z * list Z)) :
    M C (map_iter * list (list Z * list Z) + list (list Z * list Z)) :=
  let '(it, acc) := x in
  if map_iter_equal it e then mret (inr acc)
  else
    k ← IT_MAP_GETFIRST m it;
    v ← IT_MAP_GETSECOND m it;
    it ← IT_MAP_NEXT m it;
    mret (inl (it, acc ++ [(k, v)])).

(** One call of a client; a walk starts only when the map is not empty. *)
Definition exec (fuel : nat) (m : option (map C)) (o : op) : M C obs :=
  match o with
  | Insert key val =>
      it ← map_insert m key val;
      e ← map_end m;
      mret (OBool (negb (map_iter_equal it e)))
  | Find key =>
      it ← map_find m key;
      e ← map_end m;
      if map_iter_equal it e then mret (OVal None)
      else v ← IT_MAP_GETSECOND m it; mret (OVal (Some v))
  | Update key val =>
      it ← map_find m key;
      e ← map_end m;
      if map_iter_equal it e then mret (OBool false)
      else IT_MAP_SETSECOND m it val;; mret (OBool true)
  | Size => n ← map_size m; mret (OSize n)
  | Walk =>
      n ← map_size m;
      if (n =? 0)%Z then mret (OList [])
      else
        it ← map_begin m;
        e ← map_end m;
        l ← loop fuel (walk_body m e) (it, []);
        mret (OList l)
  end.

Fixpoint run (fuel : nat) (m : option (map C)) (ops : list op) : M C (list obs) :=
  match ops with
  | [] => mret []
  | o :: ops => r ← exec fuel m o; rs ← run fuel m ops; mret (r :: rs)
  end.
End client.

(** ** The abstract map: a sorted association list *)

Section spec.
Context (cmp : list Z → list Z → Z).
Implicit Types l : list (list Z * list Z).

Fixpoint spec_find (key : list Z) l : option (list Z) :=
  match l with
  | [] => None
  | (k, v) :: l => if (cmp key k =? 0)%Z then Some v else spec_find key l
  end.
Fixpoint spec_insert (key val : list Z) l : list (list Z * list Z) :=
  match l with
  | [] => [(key, val)]
  | (k, v) :: l => if (cmp key k =? -1)%Z then (key, val) :: (k, v) :: l
                   else (k, v) :: spec_insert key val l
  end.
Fixpoint spec_update (key val : list Z) l : list (list Z * list Z) :=
  match l with
  | [] => []
  | (k, v) :: l => if (cmp key k =? 0)%Z then (k, val) :: l else (k, v) :: spec_update key val l
  end.

Definition spec (o : op) l : obs * list (list Z * list Z) :=
  match o with
  | Insert key val =>
      match spec_find key l with
      | Some _ => (OBool false, l)
      | None => (OBool true, spec_insert key val l)
      end
  | Find key => (OVal (spec_find key l), l)
  | Update key val =>
      (OBool (bool_decide (is_Some (spec_find key l))), spec_update key val l)
  | Size => (OSize (Z.of_nat (length l)), l)
  | Walk => (OList l, l)
  end.

Fixpoint spec_run (ops : list op) l : list obs * list (list Z * list Z) :=
  match ops with
  | [] => ([], l)
  | o :: ops => let '(r, l) := spec o l in let '(rs, l) := spec_run ops l in (r :: rs, l)
  end.

Context `{!KeyOrder cmp}.
Implicit Types its : list (loc * (list Z * list Z)).

Lemma spec_find_none key its :
  (∀ j, j ∈ its → cmp key (ikey j) ≠ 0%Z) → spec_find key its.*2 = None.
Proof.
  induction its as [|[x [k v]] its IH]; intros Hno; [done|]. cbn.
  rewrite (proj2 (Z.eqb_neq _ _)); [apply (Hno (x, (k, v))); by left|].
  apply IH. intros j Hj. apply Hno. by right.
Qed.
Lemma spec_update_none key val its :
  (∀ j, j ∈ its → cmp key (ikey j) ≠ 0%Z) → spec_update key val its.*2 = its.*2.
Proof.
  induction its as [|[x [k v]] its IH]; intros Hno; [done|]. cbn.
  rewrite (proj2 (Z.eqb_neq _ _)); [apply (Hno (x, (k, v))); by left|].
  f_equal. apply IH. intros j Hj. apply Hno. by right.
Qed.

Lemma sorted_before key pre x k v post :
  sorted cmp (pre ++ (x, (k, v)) :: post) → cmp key k = 0%Z →
  ∀ j, j ∈ pre → cmp key (ikey j) ≠ 0%Z.
Proof.
  intros (_ & _ & Hlt)%sorted_app Hk j Hj H0.
  assert (key_lt cmp (ikey j) k) as Hjk by (apply (Hlt j (x, (k, v)) Hj); by left).
  pose proof (cmp_eq_lt cmp key _ k H0 Hjk) as Hlt'. rewrite /key_lt in Hlt'. lia.
Qed.

Lemma spec_find_some key pre x k v post :
  sorted cmp (pre ++ (x, (k, v)) :: post) → cmp key k = 0%Z →
  spec_find key (pre ++ (x, (k, v)) :: post).*2 = Some v.
Proof.
  intros Hs Hk. pose proof (sorted_before _ _ _ _ _ _ Hs Hk) as Hno. clear Hs.
  induction pre as [|[y [k' v']] pre IH]; cbn; [by rw Hk|].
  rewrite (proj2 (Z.eqb_neq _ _)); [apply (Hno (y, (k', v'))); by left|].
  apply IH. intros j Hj. apply Hno. by right.
Qed.
Lemma spec_update_some key val pre x k v post :
  sorted cmp (pre ++ (x, (k, v)) :: post) → cmp key k = 0%Z →
  spec_update key val (pre ++ (x, (k, v)) :: post).*2 = (pre ++ (x, (k, val)) :: post).*2.
Proof.
  intros Hs Hk. pose proof (sorted_before _ _ _ _ _ _ Hs Hk) as Hno. clear Hs.
  induction pre as [|[y [k' v']] pre IH]; cbn; [by rw Hk|].
  rewrite (proj2 (Z.eqb_neq _ _)); [apply (Hno (y, (k', v'))); by left|].
  f_equal. apply IH. intros j Hj. apply Hno. by right.
Qed.
Lemma spec_insert_place key val pre x post :
  sorted cmp (pre ++ (x, (key, val)) :: post) →
  spec_insert key val (pre ++ post).*2 = (pre ++ (x, (key, val)) :: post).*2.
Proof.
  induction pre as [|[y [k' v']] pre IH]; cbn; intros Hs.
  - destruct post as [|[y [k' v']] post]; [done|]. apply sorted_cons in Hs as [_ Hs].
    cbn. rewrite (proj2 (Z.eqb_eq _ _)); [|done]. apply (Hs (y, (k', v'))). by left.
  - apply sorted_cons in Hs as [Hs Hlt]. rewrite (proj2 (Z.eqb_neq _ _)); [|f_equal; by apply IH].
    assert (key_lt cmp k' key) as Hk by (apply (Hlt (x, (key, val))); set_solver).
    intros Hk'. by apply (irreflexivity (key_lt cmp) key); etrans.
Qed.
End spec.

(** ** The refinement *)

Section refinement.
Context {C : Type} (cmp : list Z → list Z → Z) (i : interface_map_container C)
  `{!KeyOrder cmp} `{!MapContainer cmp i}.
Context (ks vs : nat) (e : loc) (b : bool).
Implicit Types its : list (loc * (list Z * list Z)).

Notation m := (Some (Map i b)).
Notation holds := (mc_holds (cmp := cmp) (i := i) ks vs e).

(** Keys and values have the sizes that the map was made for. *)
Definition op_ok (o : op) : Prop :=
  match o with
  | Insert k v | Update k v => length k = ks ∧ length v = vs
  | _ => True
  end.

Lemma wp_map_end c its Q : holds c its → Q (Some e) c → wp (map_end m) c Q.
Proof. intros Hc. rw /wp /map_end /=. by rw (mc_end _ _ _ _ _ Hc). Qed.
Lemma wp_map_size c its Q : holds c its → Q (u32 (Z.of_nat (length its))) c → wp (map_size m) c Q.
Proof. intros Hc. rw /wp /map_size /=. by rw (mc_size _ _ _ _ _ Hc). Qed.

Lemma holds_ne_end c pre j post : holds c (pre ++ j :: post) → map_iter_equal (Some j.1) (Some e) = false.
Proof.
  intros Hc. apply bool_decide_eq_false. intros [= Heq].
  destruct (mc_sorted _ _ _ _ _ Hc) as [_ Hnd]. rewrite NoDup_cons in Hnd.
  destruct Hnd as [[] _]. rewrite -Heq fmap_app. set_solver.
Qed.

Lemma elem_of_split_item its x k v : (x, (k, v)) ∈ its → ∃ pre post, its = pre ++ (x, (k, v)) :: post.
Proof. apply list_elem_of_split. Qed.

Lemma wp_map_find c its key Q :
  holds c its →
  (∀ pre x k v post, its = pre ++ (x, (k, v)) :: post → cmp key k = 0%Z → Q (Some x) c) →
  ((∀ j, j ∈ its → cmp key (ikey j) ≠ 0%Z) → Q (Some e) c) →
  wp (map_find m key) c Q.
Proof.
  intros Hc Hyes Hno. eapply wp_mono; [by apply (mc_find _ _ _ _ _ key Hc)|].
  intros it c' [-> [(x & k & v & -> & Hin & Hk)|[-> Hn]]]; [|by apply Hno].
  apply list_elem_of_split in Hin as (pre & post & Hin). by eapply Hyes.
Qed.

Lemma walk_ok c its fuel :
  holds c its → length its < fuel →
  wp (loop fuel (walk_body m (Some e)) (first_addr e its, [])) c (λ l c', c' = c ∧ l = its.*2).
Proof.
  intros Hc Hfuel.
  apply (wp_loop (λ n '(it, acc) c', c' = c ∧ ∃ pre post, its = pre ++ post ∧ n = length post ∧
    it = first_addr e post ∧ acc = pre.*2) _ _ (length its)); [|by split; [done|exists [], its]|done].
  intros n [it acc] c' [-> (pre & post & -> & -> & -> & ->)]. rw /walk_body.
  destruct post as [|j post]; cbn [first_addr].
  - rewrite /map_iter_equal bool_decide_true //. apply wp_ret. by rw app_nil_r.
  - rewrite (holds_ne_end _ _ _ _ Hc).
    destruct (mc_get _ _ _ _ _ _ _ Hc) as [Hfst Hsnd].
    apply wp_bind, (ok_wp _ _ _ _ _ Hfst), wp_bind, (ok_wp _ _ _ _ _ Hsnd).
    apply wp_bind, (ok_wp _ _ _ _ _ (mc_next _ _ _ _ _ _ _ Hc)), wp_ret.
    exists (length post). split; [cbn; lia|]. split; [done|]. exists (pre ++ [j]), post.
    split_and!; [by rw -app_assoc|done|done|]. rw fmap_app /=. by destruct j as [? []].
Qed.

(** One call returns what the association list returns. *)
Lemma map_exec_ok c its fuel o :
  holds c its → op_ok o → length its < fuel → (Z.of_nat (length its) < 2 ^ 32)%Z →
  wp (exec fuel m o) c (λ r c', r = (spec cmp o its.*2).1 ∧
    ∃ its', holds c' its' ∧ its'.*2 = (spec cmp o its.*2).2 ∧ length its' ≤ S (length its)).
Proof.
  intros Hc Ho Hfuel Hlen. destruct (mc_sorted _ _ _ _ _ Hc) as [Hs _].
  destruct o as [key val|key|key val| |]; cbn [exec spec].
  - destruct Ho as [Hk Hv]. apply wp_bind.
    eapply wp_mono; [by apply (mc_insert _ _ _ _ _ key val Hc)|].
    intros it c' [(-> & -> & j & Hj & Hkj)|(Hno & l & pre & post & -> & -> & Hc')].
    + apply wp_bind. eapply wp_map_end; [done|]. rewrite /map_iter_equal bool_decide_true //.
      destruct j as [x [k v]]. apply list_elem_of_split in Hj as (pre & post & ->).
      rewrite (spec_find_some cmp key _ _ _ _ _ Hs Hkj). apply wp_ret. split; [done|]. eauto.
    + apply wp_bind. eapply wp_map_end; [done|].
      rewrite (holds_ne_end _ _ (l, (key, val)) _ Hc') spec_find_none //.
      apply wp_ret. split; [done|]. eexists. split_and!; [done| |rw !length_app /=; lia].
      symmetry. apply (spec_insert_place cmp), (mc_sorted _ _ _ _ _ Hc').
  - apply wp_bind. eapply wp_map_find; [done|intros pre x k v post -> Hk|intros Hno];
      apply wp_bind; (eapply wp_map_end; [done|]).
    + rewrite (holds_ne_end _ _ _ _ Hc) (spec_find_some cmp _ _ _ _ _ _ Hs Hk).
      destruct (mc_get _ _ _ _ _ _ _ Hc) as [_ Hsnd].
      apply wp_bind, (ok_wp _ _ _ _ _ Hsnd), wp_ret. split; [done|]. by eauto.
    + rewrite /map_iter_equal bool_decide_true // spec_find_none //. apply wp_ret. split; [done|]. by eauto.
  - destruct Ho as [Hk Hv]. apply wp_bind.
    eapply wp_map_find; [done|intros pre x k v post -> Hkk|intros Hno];
      apply wp_bind; (eapply wp_map_end; [done|]).
    + rewrite (holds_ne_end _ _ _ _ Hc) (spec_find_some cmp _ _ _ _ _ _ Hs Hkk).
      apply wp_bind. eapply wp_mono; [by apply (mc_set _ _ _ _ _ _ _ val Hc)|].
      intros ? c' Hc'. apply wp_ret. rw bool_decide_true; [by eexists|]. split; [done|].
      eexists. split_and!; [exact Hc'| |rw !length_app /=; lia].
      symmetry. by apply (spec_update_some cmp).
    + rewrite /map_iter_equal bool_decide_true // spec_find_none // spec_update_none //.
      apply wp_ret. rw bool_decide_false; [by intros [? ?]|]. split; [done|]. by eauto.
  - apply wp_bind. eapply wp_map_size; [done|]. apply wp_ret. rw length_fmap u32_small; [lia|]. split; [done|]. by eauto.
  - apply wp_bind. eapply wp_map_size; [done|]. rw u32_small; [lia|].
    destruct its as [|j its]; [by apply wp_ret; split; [done|eauto]|].
    rewrite (proj2 (Z.eqb_neq _ _)); [done|]. apply wp_bind.
    eapply ok_wp; [by apply (mc_begin _ _ _ _ _ Hc)|]. apply wp_bind. eapply wp_map_end; [done|].
    apply wp_bind. eapply wp_mono; [by apply walk_ok|]. intros l c' [-> ->]. apply wp_ret. split; [done|]. by eauto.
Qed.
End refinement.


