(* ===== verification/TimingWheel.v ===== *)
(** * The timing wheel ([src/src/timing_wheel.c], [src/include/timing_wheel.h])

    A ring of slots, each the head of a doubly linked list of items.  A timer
    is put in the slot that the wheel reaches when it is due; an update walks
    the slots that the elapsed time covers and calls the callbacks of their
    items.  The callbacks are the caller's: a function on the whole state, with
    a client's state of its own.  [GetSystemMs] is an argument of the operations
    that read it. *)
From Stdlib Require Import ZifyNat.
From stdpp Require Import sorting.
From S2P Require Import Prelude.
#[local] Ltac Zify.zify_post_hook ::= Z.to_euclidean_division_equations.

(** ** Data *)

Record WheelItem := Item {
  wi_pre : ptr;
  wi_next : ptr;
  wi_ud : Z;
  wi_callback : option nat;      (* NULL or a function *)
  wi_slot : Z;                   (* int32_t *)
}.

Record TimingWheel := Wheel {
  tw_precision : Z;              (* uint32_t, as are the next three *)
  tw_slot_size : Z;
  tw_last_update : Z;
  tw_current : Z;
  tw_slot : list ptr;
}.

Record world (U : Type) := World {
  w_wheel : TimingWheel;
  w_items : gmap loc WheelItem;
  w_client : U;
}.
Arguments World {U}.
Arguments w_wheel {U}.
Arguments w_items {U}.
Arguments w_client {U}.

Definition set_pre (p : ptr) (i : WheelItem) : WheelItem :=
  Item p (wi_next i) (wi_ud i) (wi_callback i) (wi_slot i).
Definition set_next (p : ptr) (i : WheelItem) : WheelItem :=
  Item (wi_pre i) p (wi_ud i) (wi_callback i) (wi_slot i).
Definition set_slot (s : Z) (i : WheelItem) : WheelItem :=
  Item (wi_pre i) (wi_next i) (wi_ud i) (wi_callback i) s.
Definition set_slots (l : list ptr) (t : TimingWheel) : TimingWheel :=
  Wheel (tw_precision t) (tw_slot_size t) (tw_last_update t) (tw_current t) l.

Section wheel.
Context {U : Type}.
Abbreviation W := (M (world U)).

Definition on_items {A} (m : M (gmap loc WheelItem) A) : W A :=
  zoom w_items (λ h w, World (w_wheel w) h (w_client w)) m.
Definition wheel : W TimingWheel := gets w_wheel.
Definition set_wheel (f : TimingWheel → TimingWheel) : W () :=
  modify (λ w, World (f (w_wheel w)) (w_items w) (w_client w)).

(** [t->slot\[i\]] *)
Definition slot_at (i : Z) : W ptr := λ w,
  if (i <? 0)%Z then Fault OutOfBounds
  else match tw_slot (w_wheel w) !! Z.to_nat i with
       | Some p => Ok (p, w)
       | None => Fault OutOfBounds
       end.
Definition slot_set (i : Z) (p : ptr) : W () :=
  slot_at i;; set_wheel (λ t, set_slots (<[Z.to_nat i := p]> (tw_slot t)) t).

(** Unsigned division and remainder, which trap on zero. *)
Definition udiv (a b : Z) : W Z := if (b =? 0)%Z then fail DivByZero else mret (a / b)%Z.
Definition umod (a b : Z) : W Z := if (b =? 0)%Z then fail DivByZero else mret (a mod b)%Z.

Definition CreateWheelItem (ud : Z) (callback : option nat) : W ptr :=
  l ← on_items (halloc (Item NULL NULL ud callback (-1)));
  mret (Some l).

Definition DestroyWheelItem (wit : ptr) : W ptr := on_items (hfree wit);; mret NULL.

(** [junk] is what the memory of the slots holds: they are not initialised. *)
Definition CreateTimingWheel (now : Z) (junk : nat → ptr) (precision max : Z) : result TimingWheel :=
  if (precision =? 0)%Z then Fault DivByZero
  else
    let slot_size := (max / precision)%Z in
    Ok (Wheel precision slot_size (u32 now) 0 (junk <$> seq 0 (Z.to_nat slot_size))).

(** [item->pre] is set only when the slot was empty. *)
Definition Add (slot : Z) (item : ptr) : W () :=
  head ← slot_at slot;
  (if decide (head = NULL) then
     on_items (hmodify item (set_pre NULL));;
     on_items (hmodify item (set_next NULL))
   else
     on_items (hmodify head (set_pre item));;
     on_items (hmodify item (set_next head)));;
  slot_set slot item;;
  on_items (hmodify item (set_slot slot)).

Definition RegisterTimer (now : Z) (item : ptr) (timeout : Z) : W Z :=
  t ← wheel;
  let timeout := if (timeout <? tw_precision t)%Z then tw_precision t else timeout in
  let now := u32 now in
  n ← udiv (u32 (now + timeout - tw_last_update t - tw_precision t)) (tw_precision t);
  let n := i32 n in
  if (tw_slot_size t <=? u32 n)%Z then mret (-1)%Z
  else
    n ← umod (u32 (tw_current t + n)) (tw_slot_size t);
    Add n item;;
    mret 0%Z.

(** What a call of a callback does. *)
Context (call : nat → Z → W ()).

(** The loop of [Active] over the items of a slot. *)
Definition active_body (head : ptr) : W (ptr + ()) :=
  match head with
  | None => mret (inr tt)
  | Some _ =>
      cur ← on_items (hload head);
      on_items (hmodify head (set_slot 0));;
      on_items (hmodify head (set_next NULL));;
      on_items (hmodify head (set_pre NULL));;
      match wi_callback cur with
      | Some f => call f (wi_ud cur)
      | None => mret tt
      end;;
      mret (inl (wi_next cur))
  end.

Definition Active (slot : Z) : W () :=
  head ← slot_at slot;
  slot_set slot NULL;;
  w ← get;
  loop (S (size (w_items w))) active_body head.

(** The rounds [i], [i + 1], ... of the loop of [UpdateWheel]; the result is the
    last [i]. *)
Fixpoint update_rounds (rounds : nat) (i : Z) : W Z :=
  match rounds with
  | O => mret i
  | S rounds =>
      t ← wheel;
      s ← umod (u32 (tw_current t + i)) (tw_slot_size t);
      Active s;;
      update_rounds rounds (i + 1)
  end.

Definition UpdateWheel (now : Z) : W Z :=
  t ← wheel;
  let interval := u32 (now - tw_last_update t) in
  if (interval <? tw_precision t)%Z then mret (-1)%Z
  else
    interval ← udiv interval (tw_precision t);
    i ← update_rounds (Z.to_nat (Z.min interval (tw_slot_size t))) 0;
    t ← wheel;
    c ← umod (u32 (tw_current t + i)) (tw_slot_size t);
    set_wheel (λ t, Wheel (tw_precision t) (tw_slot_size t) now c (tw_slot t));;
    mret 0%Z.

Definition UnRegisterTimer (wit : ptr) : W () :=
  i ← on_items (hload wit);
  t ← wheel;
  if ((wi_slot i <? 0) || (tw_slot_size t <=? wi_slot i))%Z then mret tt
  else
    let next := wi_next i in
    let pre := wi_pre i in
    match pre with
    | Some _ =>
        on_items (hmodify pre (set_next next));;
        match next with
        | Some _ => on_items (hmodify next (set_pre pre))
        | None => mret tt
        end
    | None =>
        slot_set (wi_slot i) next;;
        match next with
        | Some _ => on_items (hmodify next (set_pre NULL))
        | None => mret tt
        end
    end;;
    on_items (hmodify wit (set_pre NULL));;
    on_items (hmodify wit (set_next NULL));;
    on_items (hmodify wit (set_slot (-1))).
End wheel.

(** ** The lists of the slots *)

(** The items [l] of slot [s], linked in both directions; [prev] comes before. *)
Fixpoint links (h : gmap loc WheelItem) (s : Z) (prev : ptr) (l : list loc) : Prop :=
  match l with
  | [] => True
  | x :: l =>
      (∃ it, h !! x = Some it ∧ wi_pre it = prev ∧ wi_next it = head l ∧ wi_slot it = s) ∧
      links h s (Some x) l
  end.

(** An item that is in no list. *)
Definition free_item (it : WheelItem) : Prop :=
  wi_pre it = NULL ∧ wi_next it = NULL ∧ (wi_slot it = -1 ∨ wi_slot it = 0)%Z.

Section links.
Implicit Types (h : gmap loc WheelItem) (l : list loc).

Lemma links_frame h h' s prev l :
  (∀ x, x ∈ l → h' !! x = h !! x) → links h s prev l → links h' s prev l.
Proof.
  revert prev. induction l as [|x l IH]; intros prev Hf; [done|].
  intros [(it & Hx & ?) ?]. split; [|apply IH; [|done]; intros; apply Hf; by right].
  exists it. split; [rw Hf; [by left|done]|done].
Qed.
Lemma links_slot h s prev l x : links h s prev l → x ∈ l → ∃ it, h !! x = Some it ∧ wi_slot it = s.
Proof.
  revert prev. induction l as [|y l IH]; intros prev; [by intros _ ?%not_elem_of_nil|].
  intros [(it & Hy & _ & _ & ?) Hl] [->|Hin]%elem_of_cons; [by eauto|by eapply IH].
Qed.
End links.

(** ** The wheel as a ring of lists, the current slot first *)

Definition slot_index (t : TimingWheel) (i : nat) : nat :=
  (Z.to_nat (tw_current t) + i) mod Z.to_nat (tw_slot_size t).

Record wheel_rep {U} (w : world U) (R : list (list loc)) : Prop := {
  wr_precision : (0 < tw_precision (w_wheel w) < 2 ^ 32)%Z;
  wr_size : (0 < tw_slot_size (w_wheel w) <= 2 ^ 31)%Z;
  wr_length : length R = Z.to_nat (tw_slot_size (w_wheel w));
  wr_slots : length (tw_slot (w_wheel w)) = length R;
  wr_current : (0 <= tw_current (w_wheel w) < tw_slot_size (w_wheel w))%Z;
  wr_last : (0 <= tw_last_update (w_wheel w) < 2 ^ 32)%Z;
  wr_lists : ∀ i l, R !! i = Some l →
    tw_slot (w_wheel w) !! slot_index (w_wheel w) i = Some (head l) ∧
    links (w_items w) (Z.of_nat (slot_index (w_wheel w) i)) NULL l ∧ NoDup l;
  wr_free : ∀ x it, w_items w !! x = Some it → x ∈ concat R ∨ free_item it;
}.

Lemma slot_index_inj t i j :
  i < Z.to_nat (tw_slot_size t) → j < Z.to_nat (tw_slot_size t) →
  slot_index t i = slot_index t j → i = j.
Proof.
  rw /slot_index. intros Hi Hj Heq.
  set (n := Z.to_nat (tw_slot_size t)) in *. set (c := Z.to_nat (tw_current t)) in *.
  assert (n ≠ 0) by lia.
  pose proof (Nat.div_mod (c + i) n ltac:(done)). pose proof (Nat.div_mod (c + j) n ltac:(done)).
  rewrite Heq in H0. revert H0 H1. generalize ((c + i) / n), ((c + j) / n), ((c + j) mod n).
  clearbody n c. clear Heq. intros q1 q2 r E1 E2. assert (q1 = q2) by nia. subst. lia.
Qed.
Lemma slot_index_lt t i : (0 < tw_slot_size t)%Z → slot_index t i < Z.to_nat (tw_slot_size t).
Proof. intros. apply Nat.mod_upper_bound. lia. Qed.

Section rep.
Context {U : Type}.
Implicit Types (w : world U) (R : list (list loc)).

(** An item is in one list of the ring only. *)
Lemma rep_disjoint w R i j l l' x :
  wheel_rep w R → R !! i = Some l → R !! j = Some l' → x ∈ l → x ∈ l' → i = j.
Proof.
  intros Hw Hi Hj Hx Hx'.
  destruct (wr_lists _ _ Hw _ _ Hi) as (_ & Hl & _), (wr_lists _ _ Hw _ _ Hj) as (_ & Hl' & _).
  destruct (links_slot _ _ _ _ _ Hl Hx) as (it & Hit & Hs), (links_slot _ _ _ _ _ Hl' Hx') as (it' & Hit' & Hs').
  assert (it' = it) as -> by congruence. apply (slot_index_inj (w_wheel w)).
  - rw -(wr_length _ _ Hw). by eapply lookup_lt_Some.
  - rw -(wr_length _ _ Hw). by eapply lookup_lt_Some.
  - lia.
Qed.

Lemma elem_of_concat x R : x ∈ concat R ↔ ∃ i l, R !! i = Some l ∧ x ∈ l.
Proof.
  rw list_elem_of_In in_concat. split.
  - intros (l & Hl%list_elem_of_In & Hx%list_elem_of_In).
    apply list_elem_of_lookup in Hl as [i Hi]. eauto.
  - intros (i & l & Hi & Hx). exists l. rw -!list_elem_of_In. split; [by eapply list_elem_of_lookup_2|done].
Qed.

(** Replacing one list of the ring. *)
Lemma rep_replace w w' R i l l' :
  wheel_rep w R → R !! i = Some l →
  w_wheel w' = set_slots (<[slot_index (w_wheel w) i := head l']> (tw_slot (w_wheel w))) (w_wheel w) →
  (∀ x, x ∉ l → x ∉ l' → w_items w' !! x = w_items w !! x) →
  links (w_items w') (Z.of_nat (slot_index (w_wheel w) i)) NULL l' → NoDup l' →
  (∀ x, x ∈ l' → x ∉ l → ∀ j k, R !! j = Some k → x ∉ k) →
  (∀ x it, w_items w' !! x = Some it → x ∈ l → x ∉ l' → free_item it) →
  wheel_rep w' (<[i := l']> R).
Proof.
  intros Hw Hi Hwheel Hsame Hlinks Hnd Hnew Hfree.
  pose proof (lookup_lt_Some _ _ _ Hi) as Hlt. destruct Hw as [H1 H2 H3 H4 H5 H6 H7 H8].
  assert (wheel_rep w R) as Hw by done.
  pose proof (slot_index_lt (w_wheel w) i ltac:(lia)).
  split; rw ?Hwheel ?length_insert; try done.
  - intros j k Hj. rw /slot_index /= -/(slot_index (w_wheel w) j).
    destruct (decide (i = j)) as [<-|Hij].
    + rewrite list_lookup_insert_eq // in Hj. injection Hj as <-.
      rw list_lookup_insert_eq; [lia|]. done.
    + rewrite list_lookup_insert_ne // in Hj. destruct (H7 _ _ Hj) as (Hs & Hl & Hn).
      rw list_lookup_insert_ne.
      { intros Heq. apply Hij, (slot_index_inj (w_wheel w)); [lia| |done].
        rw -H3. by eapply lookup_lt_Some. }
      split_and!; [done| |done]. eapply links_frame; [|done].
      intros x Hx. apply Hsame.
      * intros Hx'. by apply Hij, (rep_disjoint w R i j l k x).
      * intros Hx'. destruct (decide (x ∈ l)) as [Hxl|Hxl].
        { by apply Hij, (rep_disjoint w R i j l k x). }
        by apply (Hnew x Hx' Hxl j k).
  - intros x it Hx. destruct (decide (x ∈ l')) as [Hx'|Hx'].
    { left. apply elem_of_concat. exists i, l'. by rw list_lookup_insert_eq. }
    destruct (decide (x ∈ l)) as [Hxl|Hxl]; [by right; eapply Hfree|].
    rewrite Hsame // in Hx. destruct (H8 _ _ Hx) as [Hc|?]; [|by right].
    left. apply elem_of_concat in Hc as (j & k & Hj & Hk). apply elem_of_concat.
    exists j, k. rw list_lookup_insert_ne; [intros <-; congruence|done].
Qed.
End rep.

(** ** Firing the items of a slot *)

(** What stays of an item: its callback and the argument of that. *)
Definition info (it : WheelItem) : option nat * Z := (wi_callback it, wi_ud it).
Definition same_info (h h' : gmap loc WheelItem) : Prop := ∀ x, info <$> h' !! x = info <$> h !! x.

#[export] Instance same_info_equiv : Equivalence same_info.
Proof.
  split; rw /same_info.
  - done.
  - by intros h h' H x.
  - intros h1 h2 h3 H1 H2 x. by rw H2.
Qed.

Lemma same_info_insert h h' x it it' :
  same_info h h' → h' !! x = Some it → info it' = info it → same_info h (<[x := it']> h').
Proof.
  intros Hs Hx Hi y. rewrite -(Hs y). destruct (decide (x = y)) as [->|].
  - by rw lookup_insert_eq Hx /= Hi.
  - by rw lookup_insert_ne.
Qed.

Section fire.
Context {U : Type} (call : nat → Z → M (world U) ()) (cb : nat → Z → U → U).

(** The callbacks change the client's state only. *)
Definition calls_client : Prop := ∀ f ud w,
  call f ud w = Ok (tt, World (w_wheel w) (w_items w) (cb f ud (w_client w))).

(** The callbacks of the items of a list, in order. *)
Definition fire1 (h : gmap loc WheelItem) (c : U) (x : loc) : U :=
  match h !! x with
  | Some it => match wi_callback it with Some f => cb f (wi_ud it) c | None => c end
  | None => c
  end.
Definition fire (h : gmap loc WheelItem) (l : list loc) (c : U) : U := foldl (fire1 h) c l.

Lemma fire_info h h' l c : same_info h h' → fire h' l c = fire h l c.
Proof.
  intros Hs. rw /fire. revert c. induction l as [|x l IH]; intros c; [done|].
  rw /= IH. f_equal. rw /fire1. specialize (Hs x). rewrite /info in Hs.
  destruct (h' !! x) as [it'|], (h !! x) as [it|]; try done. cbn in Hs.
  injection Hs as -> ->. done.
Qed.

Context (Hcall : calls_client).
Implicit Types (w : world U) (R : list (list loc)).

Lemma active_body_ok w x l h' s prev :
  links (w_items w) s prev (x :: l) → x ∉ l →
  w_items w = h' →
  wp (active_body call (Some x)) w (λ r w', r = inl (head l) ∧ w_wheel w' = w_wheel w ∧
    links (w_items w') s (Some x) l ∧ (∀ y, y ≠ x → w_items w' !! y = h' !! y) ∧
    (∃ it, w_items w' !! x = Some it ∧ free_item it) ∧ same_info h' (w_items w') ∧
    w_client w' = fire1 h' (w_client w) x).
Proof.
  intros [(it & Hx & Hpre & Hnext & Hs) Hl] Hnin <-. destruct w as [t h c].
  rw /active_body /on_items. cbn [w_items w_wheel w_client] in *.
  repeat (wp_step; cbn [w_items w_wheel w_client] in * ). rewrite !insert_insert_eq.
  eapply (wp_mono _ _ (λ _ w', w' = World t (<[x := set_pre NULL (set_next NULL (set_slot 0 it))]> h) (fire1 h c x))).
  - rw /fire1 Hx. destruct (wi_callback it) as [f|]; [|done]. by rw /wp Hcall.
  - intros _ w' ->. apply wp_ret. cbn. split_and!; [by rw Hnext|done| |..].
    + eapply links_frame; [|done]. intros y Hy. rw lookup_insert_ne //. by intros ->.
    + intros y Hy. by rw lookup_insert_ne.
    + eexists. rw lookup_insert_eq. split; [done|]. by split_and!; [..|right].
    + by eapply same_info_insert.
    + done.
Qed.

Lemma active_loop_ok w s l fuel :
  links (w_items w) s NULL l → NoDup l → length l < fuel →
  wp (loop fuel (active_body call) (head l)) w (λ _ w',
    w_wheel w' = w_wheel w ∧ (∀ x, x ∉ l → w_items w' !! x = w_items w !! x) ∧
    (∀ x, x ∈ l → ∃ it, w_items w' !! x = Some it ∧ free_item it) ∧
    same_info (w_items w) (w_items w') ∧ w_client w' = fire (w_items w) l (w_client w)).
Proof.
  intros Hl Hnd Hfuel.
  apply (wp_loop (λ n p w', ∃ pre post prev, l = pre ++ post ∧ n = length post ∧ p = head post ∧
    w_wheel w' = w_wheel w ∧ links (w_items w') s prev post ∧
    (∀ x, x ∉ pre → w_items w' !! x = w_items w !! x) ∧
    (∀ x, x ∈ pre → ∃ it, w_items w' !! x = Some it ∧ free_item it) ∧
    same_info (w_items w) (w_items w') ∧ w_client w' = fire (w_items w) pre (w_client w)) _ _ (length l));
    [| |done].
  - intros n p w' (pre & [|x post] & prev & -> & -> & -> & Hw & Hlk & Hsame & Hfree & Hinfo & Hc).
    + apply wp_ret. rewrite app_nil_r. by split_and!.
    + apply NoDup_app in Hnd as (_ & Hdisj & Hnd). apply NoDup_cons in Hnd as [Hx _].
      eapply wp_mono; [by apply (active_body_ok w' x post (w_items w') s prev)|].
      intros r w2 (-> & Hw2 & Hlk2 & Hsame2 & Hfree2 & Hinfo2 & Hc2).
      exists (length post). split; [cbn; lia|]. exists (pre ++ [x]), post, (Some x).
      split_and!; [by rw -app_assoc|done|done|congruence|done|..].
      * intros y Hy. rewrite not_elem_of_app list_elem_of_singleton in Hy. destruct Hy as [? ?].
        rw Hsame2 //. by apply Hsame.
      * intros y [Hy| ->%list_elem_of_singleton]%elem_of_app; [|done].
        rw Hsame2; [|by apply Hfree]. intros ->. apply (Hdisj x Hy). by left.
      * by etrans.
      * rw Hc2 Hc /fire foldl_app /=. rw /fire1. specialize (Hinfo x). rewrite /info in Hinfo.
        destruct (w_items w' !! x) as [it'|], (w_items w !! x) as [it|]; try done. cbn in Hinfo.
        injection Hinfo as -> ->. done.
  - exists [], l, NULL. split_and!; try done. by intros x ?%not_elem_of_nil.
Qed.

Lemma wp_slot_at w R i l Q :
  wheel_rep w R → R !! i = Some l → Q (head l) w →
  wp (slot_at (Z.of_nat (slot_index (w_wheel w) i))) w Q.
Proof.
  intros Hw Hi HQ. rw /wp /slot_at. rewrite (proj2 (Z.ltb_ge _ _)); [lia|].
  rw Nat2Z.id. by destruct (wr_lists _ _ Hw _ _ Hi) as [-> _].
Qed.
Lemma wp_slot_set w R i l p Q :
  wheel_rep w R → R !! i = Some l →
  Q tt (World (set_slots (<[slot_index (w_wheel w) i := p]> (tw_slot (w_wheel w))) (w_wheel w))
          (w_items w) (w_client w)) →
  wp (slot_set (Z.of_nat (slot_index (w_wheel w) i)) p) w Q.
Proof.
  intros Hw Hi HQ. apply wp_bind. eapply wp_slot_at; [done..|].
  apply wp_modify. by rw Nat2Z.id.
Qed.

(** There are at least as many items as a list has. *)
Lemma rep_length w R i l : wheel_rep w R → R !! i = Some l → length l ≤ size (w_items w).
Proof.
  intros Hw Hi. destruct (wr_lists _ _ Hw _ _ Hi) as (_ & Hl & Hnd).
  rw -(size_dom (D := gset loc)) -(size_list_to_set (C := gset loc) l) //.
  apply subseteq_size. intros x Hx%elem_of_list_to_set.
  destruct (links_slot _ _ _ _ _ Hl Hx) as (it & ? & _). by apply elem_of_dom.
Qed.

(** [Active] empties a slot and calls the callbacks of its items in order. *)
Lemma Active_ok w R i l :
  wheel_rep w R → R !! i = Some l →
  wp (Active call (Z.of_nat (slot_index (w_wheel w) i))) w (λ _ w',
    wheel_rep w' (<[i := []]> R) ∧
    w_wheel w' = set_slots (<[slot_index (w_wheel w) i := NULL]> (tw_slot (w_wheel w))) (w_wheel w) ∧
    same_info (w_items w) (w_items w') ∧ w_client w' = fire (w_items w) l (w_client w)).
Proof.
  intros Hw Hi. destruct (wr_lists _ _ Hw _ _ Hi) as (_ & Hl & Hnd).
  apply wp_bind. eapply wp_slot_at; [done..|]. apply wp_bind. eapply wp_slot_set; [done..|].
  apply wp_bind, wp_get. cbn [w_items].
  pose proof (rep_length _ _ _ _ Hw Hi).
  eapply wp_mono; [eapply (active_loop_ok _ _ l); cbn [w_items]; [exact Hl|done|lia]|].
  cbn [w_items w_wheel w_client]. intros _ w' (Hw' & Hsame & Hfree & Hinfo & Hc).
  split_and!; [|done..].
  eapply (rep_replace w w' R i l []); try done.
  - intros x ? _. by apply Hsame.
  - constructor.
  - by intros x ?%not_elem_of_nil.
  - intros x it Hx Hin _. destruct (Hfree x Hin) as (it' & ? & ?). by assert (it' = it) as -> by congruence.
Qed.
End fire.

(** ** The operations on the ring *)

Section ops.
Context {U : Type} (call : nat → Z → M (world U) ()) (cb : nat → Z → U → U).
Context (Hcall : calls_client call cb).
Implicit Types (w : world U) (R : list (list loc)).

Lemma slot_index_Z t i :
  (0 ≤ tw_current t < tw_slot_size t)%Z →
  Z.of_nat (slot_index t i) = ((tw_current t + Z.of_nat i) mod tw_slot_size t)%Z.
Proof. intros. rw /slot_index Nat2Z.inj_mod Nat2Z.inj_add !Z2Nat.id; lia. Qed.

Lemma wp_umod a b s Q : b ≠ 0%Z → Q (a mod b)%Z s → wp (umod (U := U) a b) s Q.
Proof. intros Hb HQ. rw /umod. by rewrite (proj2 (Z.eqb_neq _ _)). Qed.
Lemma wp_udiv a b s Q : b ≠ 0%Z → Q (a / b)%Z s → wp (udiv (U := U) a b) s Q.
Proof. intros Hb HQ. rw /udiv. by rewrite (proj2 (Z.eqb_neq _ _)). Qed.

(** *** [UpdateWheel] *)

Lemma set_slots_twice l l' t : set_slots l (set_slots l' t) = set_slots l t.
Proof. done. Qed.

Lemma update_rounds_ok w R n i :
  wheel_rep w R → i + n ≤ length R →
  wp (update_rounds call n (Z.of_nat i)) w (λ r w',
    r = Z.of_nat (i + n) ∧ wheel_rep w' (take i R ++ replicate n [] ++ drop (i + n) R) ∧
    (∃ sl, w_wheel w' = set_slots sl (w_wheel w)) ∧ same_info (w_items w) (w_items w') ∧
    w_client w' = fire cb (w_items w) (concat (slice i n R)) (w_client w)).
Proof.
  revert w R i. induction n as [|n IH]; intros w R i Hw Hi; cbn [update_rounds].
  - apply wp_ret. rw Nat.add_0_r slice_0 /= take_drop. split_and!; try done.
    exists (tw_slot (w_wheel w)). by destruct (w_wheel w).
  - destruct (lookup_lt_is_Some_2 R i) as [l Hl]; [lia|].
    pose proof (wr_size _ _ Hw). pose proof (wr_current _ _ Hw). pose proof (wr_length _ _ Hw).
    apply wp_bind, wp_gets, wp_bind, wp_umod; [lia|].
    rw u32_small; [lia|]. rw -slot_index_Z //. apply wp_bind.
    eapply wp_mono; [by eapply (Active_ok call cb Hcall)|].
    intros _ w1 (Hw1 & Ht1 & Hi1 & Hc1). rw (_ : Z.of_nat i + 1 = Z.of_nat (S i))%Z; [lia|].
    eapply wp_mono; [apply IH; [exact Hw1|rw length_insert; lia]|].
    intros r w' (-> & Hw' & (sl & Ht') & Hi' & Hc'). split_and!.
    + f_equal. lia.
    + rewrite (take_S_r _ _ []) in Hw'; [by rw list_lookup_insert_eq; [lia|]|].
      rewrite take_insert_ge // drop_insert_lt in Hw'; [lia|].
      rewrite -!app_assoc /= in Hw'. by rewrite (_ : i + S n = S i + n) /=; [lia|].
    + exists sl. rw Ht' Ht1. done.
    + by etrans.
    + rw Hc' Hc1 (fire_info cb _ _ _ _ Hi1) /fire -foldl_app. do 2 f_equal.
      rw (_ : S n = 1 + n) // slice_app. rw (_ : slice i 1 R = [l]).
      { rw /slice (drop_S _ _ _ Hl) //. }
      rw /= (_ : i + 1 = S i); [lia|]. do 2 f_equal. rw /slice.
      by rewrite drop_insert_lt; [lia|].
Qed.

(** Moving the current slot forward. *)
Lemma rep_rotate w R k now :
  wheel_rep w R → k ≤ length R → (0 ≤ now < 2 ^ 32)%Z →
  let t := w_wheel w in
  wheel_rep (World (Wheel (tw_precision t) (tw_slot_size t) now
      ((tw_current t + Z.of_nat k) mod tw_slot_size t) (tw_slot t)) (w_items w) (w_client w))
    (drop k R ++ take k R).
Proof.
  intros [H1 H2 H3 H4 H5 H6 H7 H8] Hk Hnow t. subst t.
  split; cbn; rw ?length_app ?length_drop ?length_take; try done; try lia.
  - intros i l Hi.
    set (n := Z.to_nat (tw_slot_size (w_wheel w))) in *.
    set (j := if decide (i < length R - k) then k + i else i - (length R - k)).
    assert (R !! j = Some l ∧ slot_index (w_wheel w) j =
      slot_index (Wheel (tw_precision (w_wheel w)) (tw_slot_size (w_wheel w)) now
        ((tw_current (w_wheel w) + Z.of_nat k) mod tw_slot_size (w_wheel w)) (tw_slot (w_wheel w))) i) as [Hj <-].
    { rw /slot_index /= -/n. subst j.
      assert (Z.to_nat ((tw_current (w_wheel w) + Z.of_nat k) mod tw_slot_size (w_wheel w)) =
        (Z.to_nat (tw_current (w_wheel w)) + k) mod n) as ->.
      { apply Nat2Z.inj. rw Z2Nat.id; [apply Z.mod_pos_bound; lia|].
        rw Nat2Z.inj_mod Nat2Z.inj_add !Z2Nat.id; lia. }
      rewrite Nat.Div0.add_mod_idemp_l.
      case_decide as Hd.
      - rewrite lookup_app_l ?length_drop // lookup_drop in Hi. split; [done|]. f_equal. lia.
      - rewrite lookup_app_r ?length_drop in Hi; [lia|].
        apply lookup_take_Some in Hi as [Hi ?]. split; [done|].
        rewrite (_ : Z.to_nat (tw_current (w_wheel w)) + k + i =
          Z.to_nat (tw_current (w_wheel w)) + (i - (length R - k)) + 1 * n); [lia|].
        by rewrite Nat.Div0.mod_add. }
    by apply H7.
  - intros x it Hx. destruct (H8 _ _ Hx) as [Hc|?]; [left|by right].
    rewrite -(take_drop k R) concat_app in Hc. rw concat_app.
    rewrite !elem_of_app in Hc |- *. tauto.
Qed.

(** How many slots an update at [now] passes. *)
Definition ticks (t : TimingWheel) (now : Z) : nat :=
  Z.to_nat (Z.min (u32 (now - tw_last_update t) / tw_precision t) (tw_slot_size t)).

Lemma UpdateWheel_ok w R now :
  wheel_rep w R → (0 ≤ now < 2 ^ 32)%Z →
  (tw_precision (w_wheel w) ≤ u32 (now - tw_last_update (w_wheel w)))%Z →
  let k := ticks (w_wheel w) now in
  wp (UpdateWheel call now) w (λ r w', r = 0%Z ∧
    wheel_rep w' (drop k R ++ replicate k []) ∧ tw_last_update (w_wheel w') = now ∧
    tw_precision (w_wheel w') = tw_precision (w_wheel w) ∧
    tw_slot_size (w_wheel w') = tw_slot_size (w_wheel w) ∧
    same_info (w_items w) (w_items w') ∧
    w_client w' = fire cb (w_items w) (concat (take k R)) (w_client w)).
Proof.
  intros Hw Hnow Hint k. subst k. rw /ticks.
  pose proof (wr_size _ _ Hw). pose proof (wr_current _ _ Hw). pose proof (wr_length _ _ Hw).
  pose proof (wr_precision _ _ Hw).
  set (q := (u32 (now - tw_last_update (w_wheel w)) / tw_precision (w_wheel w))%Z).
  set (k := Z.to_nat (Z.min q (tw_slot_size (w_wheel w)))).
  assert (0 ≤ q)%Z.
  { apply Z.div_pos; [|lia]. pose proof (u32_range (now - tw_last_update (w_wheel w))). lia. }
  assert (k ≤ length R) by lia.
  rw /UpdateWheel. apply wp_bind, wp_gets. rewrite (proj2 (Z.ltb_ge _ _)) //.
  apply wp_bind, wp_udiv; [lia|]. apply wp_bind. fold q. fold k.
  eapply wp_mono; [by apply (update_rounds_ok w R k 0)|].
  intros r w1 (-> & Hw1 & (sl & Ht1) & Hi1 & Hc1). cbn [Nat.add take app] in *.
  apply wp_bind, wp_gets, wp_bind, wp_umod; [rw Ht1 /=; lia|].
  rewrite u32_small; [rw Ht1 /=; lia|]. apply wp_bind, wp_modify, wp_ret.
  split_and!; [done| |done|by rw /= Ht1|by rw /= Ht1|done|done].
  rewrite take_0 app_nil_l in Hw1. pose proof (rep_rotate _ _ k now Hw1) as Hrot. cbn in Hrot.
  rewrite drop_app_length' ?length_replicate // take_app_length' ?length_replicate // in Hrot.
  rewrite Ht1 in Hrot |- *. apply Hrot; [|done]. rw length_app length_replicate length_drop. lia.
Qed.
End ops.

(** *** [RegisterTimer] and [UnRegisterTimer] *)

(** The item before the rest of a list. *)
Definition before (prev : ptr) (l : list loc) : ptr :=
  match last l with Some y => Some y | None => prev end.

Lemma before_cons prev y l : before prev (y :: l) = before (Some y) l.
Proof.
  rw /before. destruct l as [|z l]; [done|]. rw last_cons_cons.
  destruct (last (z :: l)) eqn:E; [done|]. by apply last_None in E.
Qed.

Lemma links_at h s prev l1 x l2 :
  links h s prev (l1 ++ x :: l2) →
  ∃ it, h !! x = Some it ∧ wi_pre it = before prev l1 ∧ wi_next it = head l2 ∧ wi_slot it = s.
Proof.
  revert prev. induction l1 as [|y l1 IH]; intros prev; cbn; [by intros [? _]|].
  intros [_ Hl]. destruct (IH _ Hl) as (it & Hx & Hpre & ?). exists it. split; [done|].
  split; [|done]. by rw Hpre before_cons.
Qed.

Lemma wheel_links_remove h h' s prev l1 x l2 :
  links h s prev (l1 ++ x :: l2) → NoDup (l1 ++ x :: l2) →
  (∀ y, y ∈ l1 ++ l2 → Some y ≠ last l1 → Some y ≠ head l2 → h' !! y = h !! y) →
  (∀ y, last l1 = Some y → h' !! y = set_next (head l2) <$> h !! y) →
  (∀ y, head l2 = Some y → h' !! y = set_pre (before prev l1) <$> h !! y) →
  links h' s prev (l1 ++ l2).
Proof.
  revert prev. induction l1 as [|y l1 IH]; intros prev Hl Hnd Hsame Hlast Hhead; cbn in Hl, Hnd |- *.
  - destruct Hl as [_ Hl]. destruct l2 as [|z l2]; [done|]. cbn in Hl |- *.
    destruct Hl as [(it & Hz & ? & ? & ?) Hl]. split.
    + eexists. rw Hhead // Hz. by split_and!.
    + eapply links_frame; [|done]. intros w Hw. apply Hsame; [by right|done|].
      intros [= ->]. apply NoDup_cons in Hnd as [_ Hnd]. by apply NoDup_cons in Hnd as [? _].
  - destruct Hl as [(it & Hy & Hpre & Hnext & Hs) Hl]. apply NoDup_cons in Hnd as [Hnin Hnd].
    destruct l1 as [|z l1].
    + split.
      * eexists. rw Hlast // Hy. by split_and!.
      * apply (IH (Some y)); [done|done| | |done].
        -- intros w Hw _ Hne. apply Hsame; [by right| |done]. intros [= ->]. set_solver.
        -- done.
    + split.
      * exists it. split; [|done]. rw Hsame //; [by left|..].
        -- rw last_cons_cons. intros Heq. apply Hnin. symmetry in Heq.
           apply last_Some_elem_of in Heq. set_solver.
        -- intros Heq. apply Hnin. symmetry in Heq. apply head_Some_elem_of in Heq. set_solver.
      * rewrite last_cons_cons in Hlast. apply (IH (Some y)); [done|done| |done|].
        -- intros w Hw ??. apply Hsame; [by right|by rw last_cons_cons|done].
        -- intros w Hw. by rw Hhead // before_cons.
Qed.

Section ops2.
Context {U : Type}.
Implicit Types (w : world U) (R : list (list loc)).

(** The number of slots between the current one and that of a new timer. *)
Definition delay (t : TimingWheel) (now timeout : Z) : Z :=
  (u32 (u32 now + Z.max timeout (tw_precision t) - tw_last_update t - tw_precision t) / tw_precision t)%Z.

Lemma wp_slot_set_raw w s p Q :
  s < length (tw_slot (w_wheel w)) →
  Q tt (World (set_slots (<[s := p]> (tw_slot (w_wheel w))) (w_wheel w)) (w_items w) (w_client w)) →
  wp (slot_set (Z.of_nat s) p) w Q.
Proof.
  intros Hs HQ. destruct (lookup_lt_is_Some_2 _ _ Hs) as [q Hq].
  rw /slot_set. apply wp_bind. rw /wp /slot_at. rewrite (proj2 (Z.ltb_ge _ _)); [lia|].
  rw Nat2Z.id Hq. done.
Qed.

Lemma wp_slot_set_Z w s p Q :
  (0 ≤ s)%Z → Z.to_nat s < length (tw_slot (w_wheel w)) →
  Q tt (World (set_slots (<[Z.to_nat s := p]> (tw_slot (w_wheel w))) (w_wheel w)) (w_items w) (w_client w)) →
  wp (slot_set s p) w Q.
Proof. intros Hs Hl HQ. rewrite -(Z2Nat.id s) //. by apply wp_slot_set_raw. Qed.

Lemma Add_ok w R i l x it :
  wheel_rep w R → R !! i = Some l → w_items w !! x = Some it → free_item it → x ∉ concat R →
  wp (Add (Z.of_nat (slot_index (w_wheel w) i)) (Some x)) w (λ _ w',
    wheel_rep w' (<[i := x :: l]> R) ∧ (∃ sl, w_wheel w' = set_slots sl (w_wheel w)) ∧
    w_client w' = w_client w ∧ same_info (w_items w) (w_items w')).
Proof.
  intros Hw Hi Hx (Hpre & Hnext & _) Hfresh. rewrite elem_of_concat in Hfresh.
  assert (∀ j k, R !! j = Some k → x ∉ k) as Hnew by (intros j k ? ?; apply Hfresh; eauto).
  destruct (wr_lists _ _ Hw _ _ Hi) as (_ & Hl & Hnd).
  assert (x ∉ l) by by eapply Hnew.
  set (s := slot_index (w_wheel w) i).
  set (h' := match l with
             | [] => <[x := Item NULL NULL (wi_ud it) (wi_callback it) (Z.of_nat s)]> (w_items w)
             | y :: _ => <[x := Item NULL (Some y) (wi_ud it) (wi_callback it) (Z.of_nat s)]>
                           (alter (set_pre (Some x)) y (w_items w))
             end).
  eapply (wp_mono _ _ (λ _ w', w' = World (set_slots (<[s := Some x]> (tw_slot (w_wheel w))) (w_wheel w))
    h' (w_client w))).
  - destruct w as [t h c]. cbn [w_items w_wheel w_client] in *.
    assert (s < length (tw_slot t)) as Hs.
    { pose proof (slot_index_lt t i ltac:(pose proof (wr_size _ _ Hw); cbn in *; lia)).
      pose proof (wr_slots _ _ Hw). pose proof (wr_length _ _ Hw). cbn in *. subst s. lia. }
    rw /Add. apply wp_bind. eapply (wp_slot_at (World t h c)); [done..|]. subst h'. rw /on_items.
    destruct l as [|z l]; cbn [head hd_error] in *.
    + repeat (wp_step; cbn [w_items w_wheel w_client] in * ).
      eapply wp_slot_set_raw; [done|]. repeat (wp_step; cbn [w_items w_wheel w_client] in * ).
      rewrite !insert_insert_eq. done.
    + destruct Hl as [(iz & Hz & _) _]. assert (z ≠ x) by set_solver.
      rewrite (alter_is_insert _ _ _ _ Hz).
      repeat (wp_step; cbn [w_items w_wheel w_client] in * ).
      eapply wp_slot_set_raw; [done|]. repeat (wp_step; cbn [w_items w_wheel w_client] in * ).
      rewrite !insert_insert_eq /set_slot /set_next /= Hpre. done.
  - intros _ w' ->. split_and!; [|by eexists|done|].
    + eapply (rep_replace w _ R i l (x :: l)); try done.
      * cbn. intros y Hy Hy'. rewrite not_elem_of_cons in Hy'. destruct Hy'. subst h'.
        destruct l as [|z l]; rw lookup_insert_ne //. rw lookup_alter_ne //. set_solver.
      * cbn. subst h'. destruct l as [|z l].
        { split; [|done]. eexists. by rw lookup_insert_eq. }
        destruct Hl as [(iz & Hz & ? & ? & ?) Hl]. split.
        { eexists. by rw lookup_insert_eq. }
        split.
        { exists (set_pre (Some x) iz). rw lookup_insert_ne; [set_solver|].
          rw lookup_alter_eq Hz. by split_and!. }
        eapply links_frame; [|done]. apply NoDup_cons in Hnd as [? _].
        intros y Hy. rw lookup_insert_ne; [set_solver|]. rw lookup_alter_ne //. by intros ->.
      * by constructor.
      * intros y [->|?]%elem_of_cons ?; [done|done].
      * intros y iy _ Hy []. by right.
    + subst h'. cbn. destruct l as [|z l].
      * by eapply same_info_insert.
      * destruct Hl as [(iz & Hz & ? & ? & ?) Hl]. eapply same_info_insert; [|rw lookup_alter_ne; [set_solver|done]|done].
        rw (alter_is_insert _ _ _ _ Hz). by eapply same_info_insert.
Qed.

Lemma RegisterTimer_ok w R now timeout x it :
  wheel_rep w R → w_items w !! x = Some it → free_item it → x ∉ concat R →
  let n := delay (w_wheel w) now timeout in
  wp (RegisterTimer now (Some x) timeout) w (λ r w',
    if (tw_slot_size (w_wheel w) <=? n)%Z then r = (-1)%Z ∧ w' = w
    else r = 0%Z ∧ (∃ l, R !! Z.to_nat n = Some l ∧ wheel_rep w' (<[Z.to_nat n := x :: l]> R)) ∧
      (∃ sl, w_wheel w' = set_slots sl (w_wheel w)) ∧
      w_client w' = w_client w ∧ same_info (w_items w) (w_items w')).
Proof.
  intros Hw Hx Hfree Hfresh n. pose proof (wr_size _ _ Hw). pose proof (wr_precision _ _ Hw).
  pose proof (wr_length _ _ Hw). pose proof (wr_current _ _ Hw).
  assert (0 ≤ n < 2 ^ 32)%Z as Hn.
  { subst n. rw /delay. pose proof (u32_range (u32 now + Z.max timeout (tw_precision (w_wheel w)) -
      tw_last_update (w_wheel w) - tw_precision (w_wheel w))). nia. }
  rw /RegisterTimer. apply wp_bind, wp_gets.
  rw (_ : (if (timeout <? tw_precision (w_wheel w))%Z then tw_precision (w_wheel w) else timeout) =
    Z.max timeout (tw_precision (w_wheel w))).
  { destruct (Z.ltb_spec timeout (tw_precision (w_wheel w))); lia. }
  apply wp_bind, wp_udiv; [lia|]. fold (delay (w_wheel w) now timeout). fold n.
  assert (u32 (i32 n) = n) as ->.
  { rw /i32 /u32. lia. }
  destruct (Z.leb_spec (tw_slot_size (w_wheel w)) n) as [Hge|Hlt]; [by apply wp_ret|].
  rw (i32_small n); [lia|]. apply wp_bind, wp_umod; [lia|]. rw u32_small; [lia|].
  rw -{1}(Z2Nat.id n) -?slot_index_Z; [lia..|].
  destruct (lookup_lt_is_Some_2 R (Z.to_nat n)) as [l Hl]; [lia|].
  apply wp_bind. eapply wp_mono; [by eapply Add_ok|]. intros _ w' (Hw' & Ht & Hc & Hi).
  apply wp_ret. eauto 10.
Qed.

(** The items after [x] is taken out from between [p] and [q]. *)
Definition unlinked (h : gmap loc WheelItem) (p q : ptr) (x : loc) (it : WheelItem) : gmap loc WheelItem :=
  let h := match p with Some y => alter (set_next q) y h | None => h end in
  let h := match q with Some z => alter (set_pre p) z h | None => h end in
  <[x := Item NULL NULL (wi_ud it) (wi_callback it) (-1)]> h.

Lemma unlinked_ne h p q x it y :
  y ≠ x → p ≠ Some y → q ≠ Some y → unlinked h p q x it !! y = h !! y.
Proof.
  intros Hx Hp Hq. rw /unlinked lookup_insert_ne //.
  destruct p, q; rewrite ?lookup_alter_ne //; congruence.
Qed.
Lemma unlinked_before h q x it y :
  y ≠ x → q ≠ Some y → unlinked h (Some y) q x it !! y = set_next q <$> h !! y.
Proof.
  intros Hx Hq. rw /unlinked lookup_insert_ne //.
  destruct q; [rewrite lookup_alter_ne; [congruence|]|]; apply lookup_alter_eq.
Qed.
Lemma unlinked_after h p x it z :
  z ≠ x → p ≠ Some z → unlinked h p (Some z) x it !! z = set_pre p <$> h !! z.
Proof.
  intros Hx Hp. rw /unlinked lookup_insert_ne // lookup_alter_eq.
  destruct p; rewrite ?lookup_alter_ne //; congruence.
Qed.

Lemma wp_unlink w p q x it Q :
  w_items w !! x = Some it → wi_pre it = p → wi_next it = q →
  (0 ≤ wi_slot it < tw_slot_size (w_wheel w))%Z →
  Z.to_nat (wi_slot it) < length (tw_slot (w_wheel w)) →
  (∀ y, p = Some y → y ≠ x ∧ is_Some (w_items w !! y)) →
  (∀ z, q = Some z → z ≠ x ∧ p ≠ Some z ∧ is_Some (w_items w !! z)) →
  Q tt (World (match p with
               | Some _ => w_wheel w
               | None => set_slots (<[Z.to_nat (wi_slot it) := q]> (tw_slot (w_wheel w))) (w_wheel w)
               end) (unlinked (w_items w) p q x it) (w_client w)) →
  wp (UnRegisterTimer (Some x)) w Q.
Proof.
  intros Hx Hp Hq Hs Hlen Hy Hz HQ. destruct w as [t h c]. cbn [w_items w_wheel w_client] in *.
  rw /UnRegisterTimer /wheel /on_items. repeat (wp_step; cbn [w_items w_wheel w_client] in * ).
  rewrite (proj2 (orb_false_iff _ _)).
  { split; [apply Z.ltb_ge; lia|apply Z.leb_gt; lia]. }
  rewrite Hp Hq. rewrite /unlinked in HQ.
  destruct p as [y|]; [destruct (Hy y eq_refl) as (Hyx & ny & Hny); rewrite (alter_is_insert _ _ _ _ Hny) in HQ|];
    (destruct q as [z|]; [destruct (Hz z eq_refl) as (Hzx & Hyz & nz & Hnz); rewrite (alter_is_insert _ _ z nz) in HQ|]);
    try (assert (z ≠ y) by congruence; by rewrite lookup_insert_ne);
    try (assert (z ≠ y) by congruence); try done;
    repeat first [wp_step; cbn [w_items w_wheel w_client] in *
                 |eapply wp_slot_set_Z; [lia|done|]; cbn [w_items w_wheel w_client] in * ];
    rewrite !insert_insert_eq; exact HQ.
Qed.

Lemma UnRegisterTimer_ok w R i l1 x l2 :
  wheel_rep w R → R !! i = Some (l1 ++ x :: l2) →
  wp (UnRegisterTimer (Some x)) w (λ _ w',
    wheel_rep w' (<[i := l1 ++ l2]> R) ∧ (∃ sl, w_wheel w' = set_slots sl (w_wheel w)) ∧
    w_client w' = w_client w ∧ same_info (w_items w) (w_items w')).
Proof.
  intros Hw Hi. destruct (wr_lists _ _ Hw _ _ Hi) as (Hslot & Hl & Hnd).
  destruct (links_at _ _ _ _ _ _ Hl) as (it & Hx & Hpre & Hnext & Hs).
  pose proof (wr_size _ _ Hw). pose proof (wr_length _ _ Hw). pose proof (wr_slots _ _ Hw).
  pose proof (slot_index_lt (w_wheel w) i ltac:(lia)) as Hlt.
  assert (∀ y, y ∈ l1 ++ l2 → y ≠ x ∧ is_Some (w_items w !! y)) as Hin.
  { intros y Hy. split.
    - intros ->. apply NoDup_app in Hnd as (_ & Hd & Hnd). apply NoDup_cons in Hnd as [Hnd _].
      apply elem_of_app in Hy as [Hy|Hy]; [apply (Hd x Hy); by left|done].
    - destruct (links_slot _ _ _ _ y Hl) as (iy & ? & _); [set_solver|by eexists]. }
  eapply (wp_unlink w (before NULL l1) (head l2)); [done..|rw Hs; lia|rw Hs; lia| | |].
  - intros y Hy. apply Hin, elem_of_app. left. rewrite /before in Hy.
    destruct (last l1) eqn:E; [|done]. injection Hy as <-. by apply last_Some_elem_of in E.
  - intros z Hz. apply head_Some_elem_of in Hz as Hz'. destruct (Hin z) as [??]; [set_solver|].
    split_and!; [done| |done]. rw /before. destruct (last l1) eqn:E; [|done].
    apply last_Some_elem_of in E. intros [= ->]. apply NoDup_app in Hnd as (_ & Hd & _).
    apply (Hd z E). by right.
  - assert (before NULL l1 = last l1) as Hlast by (rw /before; by destruct (last l1)).
    assert (∀ y, last l1 = Some y → y ∈ l1) as Hl1 by (intros y; apply last_Some_elem_of).
    assert (∀ z, head l2 = Some z → z ∈ l2) as Hl2 by (intros z; apply head_Some_elem_of).
    assert (NoDup (l1 ++ l2) ∧ ∀ y, y ∈ l1 → y ∈ l2 → False) as [Hnd' Hdisj].
    { pose proof Hnd as Hnd'. rewrite NoDup_app NoDup_cons in Hnd'. destruct Hnd' as (?&Hd&?&?).
      split; [|set_solver]. rw NoDup_app. split_and!; set_solver. }
    split_and!; cbn; [| |done|].
    + eapply (rep_replace w _ R i _ (l1 ++ l2)); try done; cbn.
      * rewrite Hlast Hs Nat2Z.id. destruct l1 as [|y l1]; [done|].
        rewrite last_cons. destruct (last l1); cbn; symmetry; (rewrite list_insert_id; [done|by destruct (w_wheel w)]).
      * intros y Hy Hy'. rewrite Hlast. rewrite !elem_of_app elem_of_cons in Hy, Hy'.
        apply unlinked_ne; [tauto|intros E; apply Hl1 in E; tauto|intros E; apply Hl2 in E; tauto].
      * eapply (wheel_links_remove (w_items w)); [done|done| | |].
        -- intros y Hy Hy1 Hy2. rewrite Hlast. apply unlinked_ne; [by apply Hin|congruence..].
        -- intros y Hy. rewrite Hlast Hy. apply unlinked_before; [apply Hin|].
           ++ apply elem_of_app; left; auto.
           ++ intros E. by apply (Hdisj y); auto.
        -- intros z Hz. rewrite Hlast Hz. apply unlinked_after; [apply Hin|].
           ++ apply elem_of_app; right; auto.
           ++ intros E. by apply (Hdisj z); auto.
      * set_solver.
      * intros y iy Hy Hy1 Hy2. assert (y = x) as -> by set_solver.
        rewrite /unlinked lookup_insert_eq in Hy. injection Hy as <-. by split_and!; [..|left].
    + destruct (before NULL l1); [exists (tw_slot (w_wheel w)); by destruct (w_wheel w)|by eexists].
    + intros y. destruct (decide (y = x)) as [->|Hyx]; [by rewrite /unlinked lookup_insert_eq Hx|].
      rewrite Hlast. destruct (decide (last l1 = Some y)) as [E|E].
      { rewrite E unlinked_before //; [|by destruct (w_items w !! y)].
        intros E'. by apply (Hdisj y); auto. }
      destruct (decide (head l2 = Some y)) as [E'|E']; [|by rw unlinked_ne].
      rewrite E' unlinked_after //. by destruct (w_items w !! y).
Qed.
End ops2.

(** ** The ring as an abstract timer queue *)

Inductive event :=
  | ERegister (x : loc) (now timeout : Z)
  | EUnregister (x : loc)
  | EUpdate (now : Z).

(** The items of every slot from the current one on, and the last update. *)
Record ring := Ring {
  r_slots : list (list loc);
  r_last : Z;
}.

Section spec.
Context (p size : Z).

Definition spec_delay (r : ring) (now timeout : Z) : Z :=
  (u32 (u32 now + Z.max timeout p - r_last r - p) / p)%Z.
Definition spec_ticks (r : ring) (now : Z) : nat :=
  Z.to_nat (Z.min (u32 (now - r_last r) / p) size).

(** The result, the ring afterwards and the items that fire, in order. *)
Definition spec (e : event) (r : ring) : Z * ring * list loc :=
  match e with
  | ERegister x now timeout =>
      let n := spec_delay r now timeout in
      if (size <=? n)%Z then ((-1)%Z, r, [])
      else (0%Z, Ring (alter (cons x) (Z.to_nat n) (r_slots r)) (r_last r), [])
  | EUnregister x => (0%Z, Ring (filter (λ y, y ≠ x) <$> r_slots r) (r_last r), [])
  | EUpdate now =>
      if (u32 (now - r_last r) <? p)%Z then ((-1)%Z, r, [])
      else
        let k := spec_ticks r now in
        (0%Z, Ring (drop k (r_slots r) ++ replicate k []) now, concat (take k (r_slots r)))
  end.

Fixpoint spec_run (es : list event) (r : ring) : list Z * ring * list loc :=
  match es with
  | [] => ([], r, [])
  | e :: es =>
      let '(z, r, l) := spec e r in
      let '(zs, r, l') := spec_run es r in
      (z :: zs, r, l ++ l')
  end.

(** A timer is registered only while it is not in the wheel, and unregistered
    only while it is. *)
Definition event_ok (items : gset loc) (r : ring) (e : event) : Prop :=
  match e with
  | ERegister x _ _ => x ∈ items ∧ x ∉ concat (r_slots r)
  | EUnregister x => x ∈ concat (r_slots r)
  | EUpdate now => (0 ≤ now < 2 ^ 32)%Z
  end.
Fixpoint events_ok (items : gset loc) (es : list event) (r : ring) : Prop :=
  match es with
  | [] => True
  | e :: es => event_ok items r e ∧ events_ok items es (spec e r).1.2
  end.
End spec.

Section refinement.
Context {U : Type} (call : nat → Z → M (world U) ()) (cb : nat → Z → U → U).
Implicit Types (w : world U).

Definition exec (e : event) : M (world U) Z :=
  match e with
  | ERegister x now timeout => RegisterTimer now (Some x) timeout
  | EUnregister x => UnRegisterTimer (Some x);; mret 0%Z
  | EUpdate now => UpdateWheel call now
  end.
Fixpoint run (es : list event) : M (world U) (list Z) :=
  match es with
  | [] => mret []
  | e :: es => r ← exec e; rs ← run es; mret (r :: rs)
  end.

(** The wheel of [w] is that of [r]. *)
Definition is_ring (p size : Z) (w : world U) (r : ring) : Prop :=
  wheel_rep w (r_slots r) ∧ tw_last_update (w_wheel w) = r_last r ∧
  tw_precision (w_wheel w) = p ∧ tw_slot_size (w_wheel w) = size.

Lemma filter_ne_id (x : loc) (l : list loc) : x ∉ l → filter (λ y, y ≠ x) l = l.
Proof.
  induction l as [|y l IH]; intros Hx; [done|]. rewrite not_elem_of_cons in Hx.
  destruct Hx. rw filter_cons_True //. by rw IH.
Qed.

Lemma alter_insert_list (f : list loc → list loc) (R : list (list loc)) i l :
  R !! i = Some l → alter f i R = <[i := f l]> R.
Proof.
  intros Hi. apply list_eq. intros j. destruct (decide (i = j)) as [<-|].
  - pose proof (lookup_lt_Some _ _ _ Hi). by rw list_lookup_alter_eq list_lookup_insert_eq // Hi.
  - by rw list_lookup_alter_ne // list_lookup_insert_ne.
Qed.

Lemma spec_remove w R i l1 x l2 :
  wheel_rep w R → R !! i = Some (l1 ++ x :: l2) →
  <[i := l1 ++ l2]> R = (λ l, filter (λ y, y ≠ x) l) <$> R.
Proof.
  intros Hw Hi. apply list_eq. intros j. rw list_lookup_fmap.
  destruct (decide (i = j)) as [<-|Hij].
  - pose proof (lookup_lt_Some _ _ _ Hi). rw list_lookup_insert_eq // Hi /=. f_equal.
    destruct (wr_lists _ _ Hw _ _ Hi) as (_ & _ & Hnd).
    apply NoDup_app in Hnd as (_ & Hd & Hnd). apply NoDup_cons in Hnd as [Hx _].
    rw filter_app filter_cons_False; [by intros []|]. rw !filter_ne_id //.
    intros Hx'. apply (Hd x Hx'). by left.
  - rw list_lookup_insert_ne //. destruct (R !! j) as [l|] eqn:Hj; [|done]. cbn. f_equal.
    symmetry. apply filter_ne_id. intros Hx. apply Hij.
    eapply (rep_disjoint w R i j _ _ x); [done..| |done]. set_solver.
Qed.

Context (Hcall : calls_client call cb).

Lemma wheel_exec_ok p size w r e :
  is_ring p size w r → event_ok (dom (w_items w)) r e →
  wp (exec e) w (λ z w', z = (spec p size e r).1.1 ∧ is_ring p size w' (spec p size e r).1.2 ∧
    same_info (w_items w) (w_items w') ∧
    w_client w' = fire cb (w_items w) (spec p size e r).2 (w_client w)).
Proof.
  intros (Hw & Hlast & <- & <-) He. destruct e as [x now timeout|x|now]; cbn [exec spec].
  - destruct He as [[it Hx]%elem_of_dom Hfresh].
    destruct (wr_free _ _ Hw _ _ Hx) as [?|Hfree]; [done|].
    eapply wp_mono; [by apply (RegisterTimer_ok w (r_slots r) now timeout x it)|].
    intros z w'. rewrite /delay /spec_delay Hlast.
    destruct (Z.leb_spec (tw_slot_size (w_wheel w))
      (u32 (u32 now + Z.max timeout (tw_precision (w_wheel w)) - r_last r - tw_precision (w_wheel w)) /
       tw_precision (w_wheel w))%Z).
    + by intros [-> ->].
    + intros (-> & (l & Hl & Hw') & (sl & Ht) & Hc & Hi). cbn. rewrite /is_ring Ht. cbn.
      split_and!; try done. by rewrite (alter_insert_list _ _ _ _ Hl).
  - apply elem_of_concat in He as (i & l & Hi & Hx).
    apply list_elem_of_split in Hx as (l1 & l2 & ->).
    apply wp_bind. eapply wp_mono; [by eapply UnRegisterTimer_ok|].
    intros _ w' (Hw' & (sl & Ht) & Hc & Hinfo). apply wp_ret.
    rewrite /is_ring Ht. cbn. split_and!; try done. by erewrite <- spec_remove.
  - pose proof (wr_precision _ _ Hw) as Hp. rewrite -Hlast.
    destruct (Z.ltb_spec (u32 (now - tw_last_update (w_wheel w))) (tw_precision (w_wheel w))) as [Hlt|Hge].
    + rw /UpdateWheel. apply wp_bind, wp_gets. by rewrite (proj2 (Z.ltb_lt _ _)).
    + eapply wp_mono; [by apply (UpdateWheel_ok call cb Hcall)|].
      intros z w' (-> & Hw' & Hl' & Hp' & Hs' & Hi' & Hc').
      rewrite /is_ring Hl' Hp' Hs'. rewrite /spec_ticks -Hlast. by split_and!.
Qed.
End refinement.

(** ** Properties *)

(** C21.  The wheel is a ring of timer queues.  Any sequence of registrations of
    timers that are not in the wheel, unregistrations of timers that are, and
    updates at any times runs without a fault and returns what the same calls
    return on a ring of lists: a timer goes to the front of the list as many
    slots ahead as its delay says, or is refused when that is beyond the ring;
    an update empties the slots it passes, and the callbacks of exactly their
    timers are called, slot by slot and the last registered first; and the links,
    slot numbers and heads agree with the ring afterwards. *)
Theorem wheel_refines_ring {U} (call : nat → Z → M (world U) ()) cb (w : world U) p size r es :
  calls_client call cb → is_ring p size w r → events_ok p size (dom (w_items w)) es r →
  ∃ w', run call es w = Ok ((spec_run p size es r).1.1, w') ∧
    is_ring p size w' (spec_run p size es r).1.2 ∧ same_info (w_items w) (w_items w') ∧
    w_client w' = fire cb (w_items w) (spec_run p size es r).2 (w_client w).
Proof.
  intros Hcall. revert w r. induction es as [|e es IH]; intros w r Hw Hes.
  { exists w. by split_and!. }
  destruct Hes as [He Hes].
  destruct (wp_ok _ _ _ (wheel_exec_ok call cb Hcall p size w r e Hw He)) as (z & w1 & Hrun & -> & Hw1 & Hi1 & Hc1).
  assert (dom (w_items w1) = dom (w_items w)) as Hdom.
  { apply set_eq. intros x. rw !elem_of_dom. specialize (Hi1 x).
    destruct (w_items w1 !! x), (w_items w !! x); try done; split; by intros []. }
  rewrite -Hdom in Hes. destruct (IH w1 _ Hw1 Hes) as (w2 & Hrun2 & Hw2 & Hi2 & Hc2).
  exists w2. cbn [run spec_run]. destruct (spec p size e r) as [[z r1] l]. cbn [fst snd] in *.
  destruct (spec_run p size es r1) as [[zs r2] l']. cbn [fst snd] in *.
  split_and!; [by rewrite /mbind /M_bind Hrun Hrun2|done|by etrans|].
  rw Hc2 Hc1 (fire_info cb _ _ _ _ Hi1) /fire foldl_app. done.
Qed.

(** *** When a timer fires *)

(** The timer [x] is [i] slots ahead. *)
Definition reaches (r : ring) (x : loc) (i : nat) : Prop := ∃ l, r_slots r !! i = Some l ∧ x ∈ l.

Lemma spec_update_early p size r i x t deadline :
  (0 < p)%Z → (0 < size)%Z → length (r_slots r) = Z.to_nat size →
  reaches r x i → (0 ≤ r_last r ≤ t)%Z → (t ≤ deadline < 2 ^ 32)%Z →
  (deadline - r_last r < p * (Z.of_nat i + 1))%Z →
  ∃ j, reaches (spec p size (EUpdate t) r).1.2 x j ∧
    (deadline - r_last (spec p size (EUpdate t) r).1.2 < p * (Z.of_nat j + 1))%Z.
Proof.
  intros Hp Hsize Hlen (l & Hl & Hx) Hlast Ht Hdl. cbn [spec].
  rewrite u32_small; [lia|].
  destruct (Z.ltb_spec (t - r_last r) p) as [Hlt|Hge]; [by exists i; split; [exists l|]|].
  pose proof (Z.div_mod (t - r_last r) p ltac:(lia)). pose proof (Z.mod_pos_bound (t - r_last r) p Hp).
  set (q := ((t - r_last r) / p)%Z) in *.
  assert (0 ≤ q ≤ Z.of_nat i)%Z as Hq by nia.
  pose proof (lookup_lt_Some _ _ _ Hl).
  assert (spec_ticks p size r t = Z.to_nat q) as Hk.
  { rw /spec_ticks u32_small; [lia|]. fold q. f_equal. lia. }
  rewrite Hk. exists (i - Z.to_nat q). cbn [fst snd r_slots r_last]. split.
  - exists l. split; [|done]. rewrite lookup_app_l ?length_drop; [lia|].
    rewrite lookup_drop. by rewrite (_ : Z.to_nat q + (i - Z.to_nat q) = i); [lia|].
  - rewrite Nat2Z.inj_sub; [lia|]. rewrite Z2Nat.id; [lia|]. nia.
Qed.

Lemma updates_early p size r i x ts deadline :
  (0 < p)%Z → (0 < size)%Z → length (r_slots r) = Z.to_nat size →
  reaches r x i → StronglySorted Z.le (r_last r :: ts) → (0 ≤ r_last r)%Z →
  Forall (λ t, t ≤ deadline)%Z ts → (deadline < 2 ^ 32)%Z →
  (deadline - r_last r < p * (Z.of_nat i + 1))%Z →
  ∃ j, reaches (spec_run p size (EUpdate <$> ts) r).1.2 x j.
Proof.
  intros Hp Hsize. revert r i. induction ts as [|t ts IH]; intros r i Hlen Hx Hs Hlast Hts Hdl Hi; [by exists i|].
  apply Forall_cons in Hts as [Ht Hts]. apply StronglySorted_inv in Hs as [Hs Hle].
  apply Forall_cons in Hle as [Hle _].
  destruct (spec_update_early p size r i x t deadline) as (j & Hj & Hdj); [done..|lia|done|].
  cbn [fmap list_fmap spec_run]. set (r1 := (spec p size (EUpdate t) r).1.2) in *.
  assert (length (r_slots r1) = Z.to_nat size ∧ (r_last r1 = t ∨ r_last r1 = r_last r)) as [Hlen1 Hl1].
  { subst r1. cbn [spec]. destruct (_ <? _)%Z; cbn; [by auto|].
    split; [|by left]. rw length_app length_drop length_replicate.
    assert (spec_ticks p size r t ≤ Z.to_nat size) by (rw /spec_ticks; lia). lia. }
  destruct (IH r1 j) as [k Hk]; try done.
  - destruct Hl1 as [-> | ->]; [done|].
    apply SSorted_cons; [by inversion Hs|].
    inversion Hs as [|? ? ? Hall]; subst. eapply Forall_impl; [exact Hall|]. cbn. lia.
  - destruct Hl1; lia.
  - exists k. destruct (spec p size (EUpdate t) r) as [[z r2] l] eqn:E. cbn in r1. subst r1. cbn [fst snd] in *.
    destruct (spec_run p size (EUpdate <$> ts) r2) as [[zs r3] l']. done.
Qed.

Lemma updates_ok p size items ts r :
  Forall (λ t, 0 ≤ t < 2 ^ 32)%Z ts → events_ok p size items (EUpdate <$> ts) r.
Proof. intros Hrange. revert r. induction Hrange as [|t ts Ht _ IH]; intros r; [done|by split]. Qed.


(** ** A concrete wheel *)

(** A client that logs the arguments of the callbacks. *)
Definition log_call (f : nat) (ud : Z) : M (world (list Z)) () :=
  modify (λ w, World (w_wheel w) (w_items w) (w_client w ++ [ud])).
Definition log_cb (f : nat) (ud : Z) (u : list Z) : list Z := u ++ [ud].
Lemma log_calls : calls_client log_call log_cb.
Proof. by intros f ud w. Qed.

(** Five slots of 10 milliseconds, at time 1000, and two items. *)
Definition sample_wheel (junk : nat → ptr) : world (list Z) :=
  World (Wheel 10 5 1000 0 (junk <$> seq 0 5))
    {[ 1%positive := Item NULL NULL 101 (Some 0) (-1); 2%positive := Item NULL NULL 102 (Some 0) (-1) ]} [].

Lemma sample_wheel_ring : is_ring 10 5 (sample_wheel (λ _, NULL)) (Ring (replicate 5 []) 1000).
Proof.
  split_and!; [|done..]. split; try done; try (cbn; lia).
  - intros i l Hl. apply lookup_replicate in Hl as [-> Hi].
    split_and!; [|done|constructor]. by do 5 (destruct i as [|i]; [done|]); lia.
  - intros x it Hx. right.
    destruct (decide (x = 1%positive)) as [->|]; [injection Hx as <-; by split_and!; [..|left]|].
    destruct (decide (x = 2%positive)) as [->|]; [injection Hx as <-; by split_and!; [..|left]|].
    cbn in Hx. by rewrite !lookup_insert_ne in Hx.
Qed.

Lemma wheel_refines_ring_witness :
  ∃ w', run log_call [ERegister 1 1000 10; ERegister 2 1005 30; EUnregister 1; ERegister 1 1005 10;
      EUpdate 1009; EUpdate 1012; ERegister 1 1012 100] (sample_wheel (λ _, NULL))
    = Ok ([0; 0; 0; 0; -1; 0; -1]%Z, w') ∧
    is_ring 10 5 w' (Ring [[]; [2%positive]; []; []; []] 1012) ∧
    same_info (w_items (sample_wheel (λ _, NULL))) (w_items w') ∧
    w_client w' = fire log_cb (w_items (sample_wheel (λ _, NULL))) [1%positive] [].
Proof.
  apply (wheel_refines_ring log_call log_cb (sample_wheel (λ _, NULL)) 10 5 (Ring (replicate 5 []) 1000)
    [ERegister 1 1000 10; ERegister 2 1005 30; EUnregister 1; ERegister 1 1005 10;
     EUpdate 1009; EUpdate 1012; ERegister 1 1012 100]).
  - apply log_calls.
  - apply sample_wheel_ring.
  - repeat split; vm_compute; first [done|set_solver].
Defined.


(** ** What the code does besides *)

(** [Active] leaves slot 0 in the items it fires instead of -1, so unregistering
    a timer that has fired empties slot 0 of the timers registered there. *)
Lemma unregister_fired_drops_slot_0 :
  ∃ w1 w2, run log_call [ERegister 1 1000 10; EUpdate 1010; ERegister 2 1010 50] (sample_wheel (λ _, NULL))
      = Ok ([0; 0; 0]%Z, w1) ∧ tw_slot (w_wheel w1) !! 0 = Some (Some 2%positive) ∧
    UnRegisterTimer (Some 1%positive) w1 = Ok (tt, w2) ∧ tw_slot (w_wheel w2) !! 0 = Some NULL.
Proof. eexists _, _. split_and!; vm_compute; reflexivity. Qed.

(** The slots of a new wheel are not initialised: with anything but zeros in
    the memory, the first registration in a slot writes through its contents. *)
Lemma slots_uninitialised :
  RegisterTimer 1000 (Some 1%positive) 10 (sample_wheel (λ _, Some 9%positive)) = Fault Dangling.
Proof. vm_compute. reflexivity. Qed.

(** The remainder of an update is lost: with updates every 19 milliseconds a
    timer of 30 milliseconds has not fired after 38, but after 57. *)
Lemma updates_drop_remainder :
  (∃ w1, run log_call [ERegister 1 1000 30; EUpdate 1019; EUpdate 1038] (sample_wheel (λ _, NULL))
     = Ok ([0; 0; 0]%Z, w1) ∧ w_client w1 = []) ∧
  (∃ w1, run log_call [ERegister 1 1000 30; EUpdate 1019; EUpdate 1038; EUpdate 1057] (sample_wheel (λ _, NULL))
     = Ok ([0; 0; 0; 0]%Z, w1) ∧ w_client w1 = [101%Z]).
Proof. split; eexists; split; vm_compute; reflexivity. Qed.
