(* ===== verification/Net.v ===== *)
(** * Sockets and the event engine

    [src/src/HandleMgr.c], [src/src/Socket.c], [src/src/Engine.c],
    [src/src/epoll.c], [src/src/KendyNet.c], [src/src/SocketWrapper.c].

    A socket keeps a queue of read requests and one of write requests.  The
    engine keeps the queue of the active sockets, those with a request that the
    kernel may be able to serve; its loop serves them until the queue is empty
    and then waits for the edge-triggered events of the kernel.  Sockets,
    engines and requests are objects of stores of their own, and their list
    nodes live in the store [nexts] of [LinkList].

    The kernel is a parameter: a record of system calls that act on a state [U]
    of memory, files and clients.  The callbacks of a socket are a parameter as
    well, on the whole state. *)
From S2P Require Import Prelude LinkList.

(** ** Data *)

(** [struct iovec]: the buffer and the offset the address points to, and the length. *)
Record iovec := Iovec { iov_base : ptr * Z; iov_len : Z }.

(** [io_iovec] points to an array of the store [w_iovs]. *)
Record st_io := StIo {
  io_iovec : ptr;
  iovec_count : Z;
  err_code : Z;
}.

Record socket := Socket {
  s_status : Z;
  s_engine : ptr;
  isactived : Z;
  readable : Z;
  writeable : Z;
  s_fd : Z;
  s_handle : Z;
  pending_send : link_list;
  pending_recv : link_list;
  OnRead : option nat;
  OnWrite : option nat;
}.

(** The four function fields always hold the functions of [epoll.c]. *)
Record engine := Engine {
  e_status : Z;
  poller_fd : Z;
  e_events : list (ptr * Z);
  actived : link_list;
}.

Definition MAX_ENGINE : Z := 1.
Definition MAX_SOCKET : Z := 4096.

(** The pools hold the first [current_socket_count] and [current_engine_count]
    entries of the C arrays. *)
Record world (U : Type) := World {
  w_sockets : gmap loc socket;
  w_engines : gmap loc engine;
  w_nexts : nexts;
  w_ios : gmap loc st_io;
  w_iovs : gmap loc (list iovec);
  socket_pool : list loc;
  engine_pool : list loc;
  recv_count : Z;
  w_mem : U;
}.
Arguments World {U}.
Arguments w_sockets {U}.
Arguments w_engines {U}.
Arguments w_nexts {U}.
Arguments w_ios {U}.
Arguments w_iovs {U}.
Arguments socket_pool {U}.
Arguments engine_pool {U}.
Arguments recv_count {U}.
Arguments w_mem {U}.

Record sockaddr_in := SockAddr { sin_family : Z; sin_port : Z; sin_addr : Z }.

(** The values of the Linux headers. *)
Definition EINTR : Z := 4.
Definition EAGAIN : Z := 11.
Definition EPROTO : Z := 71.
Definition ECONNABORTED : Z := 103.
Definition EPOLLIN : Z := 1.
Definition EPOLLOUT : Z := 4.
Definition EPOLLET : Z := 2 ^ 31.
Definition EPOLL_CTL_ADD : Z := 1.
Definition EPOLL_CTL_DEL : Z := 2.
Definition INET : Z := 2.
Definition STREAM : Z := 1.
Definition TCP : Z := 6.
Definition O_NONBLOCK : Z := 2048.

(** The system calls; where the code looks at [errno] it is a second result. *)
Record kernel (U : Type) := Kernel {
  k_socket : Z → Z → Z → M U Z;
  k_close : Z → M U Z;
  k_connect : Z → sockaddr_in → M U Z;
  k_bind : Z → sockaddr_in → M U Z;
  k_listen : Z → Z → M U Z;
  k_accept : Z → M U (Z * Z);
  k_nodelay : Z → M U Z;
  k_getfl : Z → M U Z;
  k_setfl : Z → Z → M U Z;
  k_getsockname : Z → M U (Z * sockaddr_in);
  k_getpeername : Z → M U (Z * sockaddr_in);
  k_epoll_create : Z → M U (Z * Z);
  k_epoll_ctl : Z → Z → Z → ptr → Z → M U (Z * Z);
  k_epoll_wait : Z → Z → Z → M U (Z * Z * list (ptr * Z));
  k_readv : Z → list iovec → M U (Z * Z);
  k_writev : Z → list iovec → M U (Z * Z);
  k_gettimeofday : M U (Z * Z);
  (* the value of an IPv4 address and its text, when there is one *)
  inet_pton : list Z → option Z;
  inet_ntop : Z → Z → option (list Z);
}.
Arguments k_socket {U}.
Arguments k_close {U}.
Arguments k_connect {U}.
Arguments k_bind {U}.
Arguments k_listen {U}.
Arguments k_accept {U}.
Arguments k_nodelay {U}.
Arguments k_getfl {U}.
Arguments k_setfl {U}.
Arguments k_getsockname {U}.
Arguments k_getpeername {U}.
Arguments k_epoll_create {U}.
Arguments k_epoll_ctl {U}.
Arguments k_epoll_wait {U}.
Arguments k_readv {U}.
Arguments k_writev {U}.
Arguments k_gettimeofday {U}.
Arguments inet_pton {U}.
Arguments inet_ntop {U}.

(** *** Field updates *)

Definition set_status (v : Z) (s : socket) : socket :=
  Socket v (s_engine s) (isactived s) (readable s) (writeable s) (s_fd s) (s_handle s)
    (pending_send s) (pending_recv s) (OnRead s) (OnWrite s).
Definition set_engine (e : ptr) (s : socket) : socket :=
  Socket (s_status s) e (isactived s) (readable s) (writeable s) (s_fd s) (s_handle s)
    (pending_send s) (pending_recv s) (OnRead s) (OnWrite s).
Definition set_isactived (v : Z) (s : socket) : socket :=
  Socket (s_status s) (s_engine s) v (readable s) (writeable s) (s_fd s) (s_handle s)
    (pending_send s) (pending_recv s) (OnRead s) (OnWrite s).
Definition set_readable (v : Z) (s : socket) : socket :=
  Socket (s_status s) (s_engine s) (isactived s) v (writeable s) (s_fd s) (s_handle s)
    (pending_send s) (pending_recv s) (OnRead s) (OnWrite s).
Definition set_writeable (v : Z) (s : socket) : socket :=
  Socket (s_status s) (s_engine s) (isactived s) (readable s) v (s_fd s) (s_handle s)
    (pending_send s) (pending_recv s) (OnRead s) (OnWrite s).
Definition set_fd (v : Z) (s : socket) : socket :=
  Socket (s_status s) (s_engine s) (isactived s) (readable s) (writeable s) v (s_handle s)
    (pending_send s) (pending_recv s) (OnRead s) (OnWrite s).
Definition set_handle (v : Z) (s : socket) : socket :=
  Socket (s_status s) (s_engine s) (isactived s) (readable s) (writeable s) (s_fd s) v
    (pending_send s) (pending_recv s) (OnRead s) (OnWrite s).
Definition set_send (l : link_list) (s : socket) : socket :=
  Socket (s_status s) (s_engine s) (isactived s) (readable s) (writeable s) (s_fd s) (s_handle s)
    l (pending_recv s) (OnRead s) (OnWrite s).
Definition set_recv (l : link_list) (s : socket) : socket :=
  Socket (s_status s) (s_engine s) (isactived s) (readable s) (writeable s) (s_fd s) (s_handle s)
    (pending_send s) l (OnRead s) (OnWrite s).
Definition set_callbacks (r w : option nat) (s : socket) : socket :=
  Socket (s_status s) (s_engine s) (isactived s) (readable s) (writeable s) (s_fd s) (s_handle s)
    (pending_send s) (pending_recv s) r w.
Definition set_estatus (v : Z) (e : engine) : engine :=
  Engine v (poller_fd e) (e_events e) (actived e).
Definition set_poller (v : Z) (e : engine) : engine :=
  Engine (e_status e) v (e_events e) (actived e).
Definition set_events (l : list (ptr * Z)) (e : engine) : engine :=
  Engine (e_status e) (poller_fd e) l (actived e).
Definition set_actived (l : link_list) (e : engine) : engine :=
  Engine (e_status e) (poller_fd e) (e_events e) l.
Definition set_err (v : Z) (io : st_io) : st_io := StIo (io_iovec io) (iovec_count io) v.

Section net.
Context {U : Type}.
Abbreviation W := (M (world U)).

Definition on_sockets {A} (m : M (gmap loc socket) A) : W A :=
  zoom w_sockets (λ h w, World h (w_engines w) (w_nexts w) (w_ios w) (w_iovs w) (socket_pool w)
    (engine_pool w) (recv_count w) (w_mem w)) m.
Definition on_engines {A} (m : M (gmap loc engine) A) : W A :=
  zoom w_engines (λ h w, World (w_sockets w) h (w_nexts w) (w_ios w) (w_iovs w) (socket_pool w)
    (engine_pool w) (recv_count w) (w_mem w)) m.
Definition on_nexts {A} (m : M nexts A) : W A :=
  zoom w_nexts (λ h w, World (w_sockets w) (w_engines w) h (w_ios w) (w_iovs w) (socket_pool w)
    (engine_pool w) (recv_count w) (w_mem w)) m.
Definition on_ios {A} (m : M (gmap loc st_io) A) : W A :=
  zoom w_ios (λ h w, World (w_sockets w) (w_engines w) (w_nexts w) h (w_iovs w) (socket_pool w)
    (engine_pool w) (recv_count w) (w_mem w)) m.
Definition on_iovs {A} (m : M (gmap loc (list iovec)) A) : W A :=
  zoom w_iovs (λ h w, World (w_sockets w) (w_engines w) (w_nexts w) (w_ios w) h (socket_pool w)
    (engine_pool w) (recv_count w) (w_mem w)) m.
Definition on_mem {A} (m : M U A) : W A :=
  zoom w_mem (λ u w, World (w_sockets w) (w_engines w) (w_nexts w) (w_ios w) (w_iovs w) (socket_pool w)
    (engine_pool w) (recv_count w) u) m.
Definition set_socket_pool (l : list loc) (w : world U) : world U :=
  World (w_sockets w) (w_engines w) (w_nexts w) (w_ios w) (w_iovs w) l (engine_pool w)
    (recv_count w) (w_mem w).
Definition set_engine_pool (l : list loc) (w : world U) : world U :=
  World (w_sockets w) (w_engines w) (w_nexts w) (w_ios w) (w_iovs w) (socket_pool w) l
    (recv_count w) (w_mem w).
Definition count_recv (w : world U) : world U :=
  World (w_sockets w) (w_engines w) (w_nexts w) (w_ios w) (w_iovs w) (socket_pool w) (engine_pool w)
    (u64 (recv_count w + 1)) (w_mem w).

Definition sock (s : ptr) : W socket := on_sockets (hload s).
Definition sock_set (s : ptr) (f : socket → socket) : W () := on_sockets (hmodify s f).
Definition eng (e : ptr) : W engine := on_engines (hload e).
Definition eng_set (e : ptr) (f : engine → engine) : W () := on_engines (hmodify e f).

(** [(list_node* )p] for a push: the node of an object; NULL is dereferenced. *)
Definition node (p : ptr) : W loc := match p with Some l => mret l | None => fail NullDeref end.

Definition push_actived (e s : ptr) : W () :=
  e' ← eng e; n ← node s; l ← on_nexts (link_list_push_back (actived e') n);
  eng_set e (set_actived l).
Definition push_send (s io : ptr) : W () :=
  s' ← sock s; n ← node io; l ← on_nexts (link_list_push_back (pending_send s') n);
  sock_set s (set_send l).
Definition push_recv (s io : ptr) : W () :=
  s' ← sock s; n ← node io; l ← on_nexts (link_list_push_back (pending_recv s') n);
  sock_set s (set_recv l).
Definition requeue_send (s io : ptr) : W () :=
  s' ← sock s; n ← node io; l ← on_nexts (link_list_push_front (pending_send s') n);
  sock_set s (set_send l).
Definition requeue_recv (s io : ptr) : W () :=
  s' ← sock s; n ← node io; l ← on_nexts (link_list_push_front (pending_recv s') n);
  sock_set s (set_recv l).
Definition pop_actived (e : ptr) : W ptr :=
  e' ← eng e; '(p, l) ← on_nexts (link_list_pop (actived e')); eng_set e (set_actived l);; mret p.
Definition pop_send (s : ptr) : W ptr :=
  s' ← sock s; '(p, l) ← on_nexts (link_list_pop (pending_send s')); sock_set s (set_send l);; mret p.
Definition pop_recv (s : ptr) : W ptr :=
  s' ← sock s; '(p, l) ← on_nexts (link_list_pop (pending_recv s')); sock_set s (set_recv l);; mret p.

(** The system calls and the callbacks: what a call of the function [f] with the
    bytes transferred and the request does. *)
Context (K : kernel U) (call : nat → Z → ptr → W ()).
(** What [malloc] returns: the content of fresh memory. *)
Context (junk_next : ptr) (junk_socket : socket) (junk_engine : engine).
(** Fuel for the loops that wait for the outside world. *)
Context (fuel : nat).

(** ** Handles ([HandleMgr.c])

    The two mutexes make each of these operations a single step. *)

(** A socket is also a list node, so its address is fresh in both stores. *)
Definition create_socket : W ptr :=
  w ← get;
  let l := fresh (dom (w_sockets w) ∪ dom (w_nexts w)) in
  on_nexts (modify (insert l junk_next));;
  on_sockets (modify (insert l (set_send create_link_list (set_recv create_link_list
    (set_status 0 (set_engine NULL (set_isactived 0 junk_socket)))))));;
  mret (Some l).

Definition create_engine : W ptr :=
  l ← on_engines (halloc (set_estatus 0 (set_actived create_link_list junk_engine)));
  mret (Some l).

(** [socket_pool\[handle\]], for a handle below the count. *)
Definition pool_at (pool : list loc) (handle : Z) : ptr :=
  if (0 <=? handle)%Z then pool !! Z.to_nat handle else NULL.

Definition GetSocketByHandle (handle : Z) : W ptr :=
  w ← get;
  match pool_at (socket_pool w) handle with
  | Some l => s ← sock (Some l); mret (if (s_status s =? 0)%Z then NULL else Some l)
  | None => mret NULL
  end.

Definition GetEngineByHandle (handle : Z) : W ptr :=
  w ← get;
  match pool_at (engine_pool w) handle with
  | Some l => e ← eng (Some l); mret (if (e_status e =? 0)%Z then NULL else Some l)
  | None => mret NULL
  end.

(** The loop over the entries of the pool from [i] on: the first free one is
    taken.  The result is the final [i]. *)
Fixpoint take_free_socket (pool : list loc) (i : Z) : W Z :=
  match pool with
  | [] => mret i
  | l :: pool =>
      s ← sock (Some l);
      if (s_status s =? 0)%Z then sock_set (Some l) (set_status 1);; mret i
      else take_free_socket pool (i + 1)%Z
  end.

Definition NewSocketWrapper : W Z :=
  w ← get;
  let pool := socket_pool w in
  let count := Z.of_nat (length pool) in
  i ← take_free_socket pool 0;
  count' ← (if (i =? count)%Z && (count <? MAX_SOCKET)%Z then
              p ← create_socket;
              match p with
              | Some l =>
                  modify (set_socket_pool (pool ++ [l]));;
                  sock_set (Some l) (set_status 1);;
                  sock_set (Some l) (set_handle count);;
                  mret (count + 1)%Z
              | None => mret count
              end
            else mret count);
  mret (if (i <? count')%Z then i else -1)%Z.

Fixpoint take_free_engine (pool : list loc) (i : Z) : W Z :=
  match pool with
  | [] => mret i
  | l :: pool =>
      e ← eng (Some l);
      if (e_status e =? 0)%Z then eng_set (Some l) (set_estatus 1);; mret i
      else take_free_engine pool (i + 1)%Z
  end.

Definition NewEngine : W Z :=
  w ← get;
  let pool := engine_pool w in
  let count := Z.of_nat (length pool) in
  i ← take_free_engine pool 0;
  count' ← (if (i =? count)%Z && (count <? MAX_ENGINE)%Z then
              p ← create_engine;
              match p with
              | Some l =>
                  modify (set_engine_pool (pool ++ [l]));;
                  eng_set (Some l) (set_estatus 1);;
                  mret (count + 1)%Z
              | None => mret count
              end
            else mret count);
  mret (if (i <? count')%Z then i else -1)%Z.

Definition ReleaseEngine (handle : Z) : W () :=
  w ← get;
  match pool_at (engine_pool w) handle with
  | Some l =>
      e ← eng (Some l);
      if (e_status e =? 0)%Z then mret tt else eng_set (Some l) (set_estatus 0)
  | None => mret tt
  end.
Definition CloseEngine (handle : Z) : W () := ReleaseEngine handle.

(** ** The poller ([epoll.c]) *)

(** The call is repeated while it is interrupted. *)
Definition TEMP_FAILURE_RETRY {A} (m : M U (Z * Z * A)) : W (Z * Z * A) :=
  loop fuel (λ _ : (),
    r ← on_mem m;
    let '(res, errno, _) := r in
    mret (if (res =? -1)%Z && (errno =? EINTR)%Z then inl tt else inr r)) tt.
Definition RETRY (m : M U (Z * Z)) : W (Z * Z) :=
  fst <$> TEMP_FAILURE_RETRY ((λ r, (r, tt)) <$> m).

Definition epoll_init (e : ptr) : W Z :=
  assert_ (bool_decide (e ≠ NULL));;
  '(fd, _) ← RETRY (k_epoll_create K MAX_SOCKET);
  eng_set e (set_poller fd);;
  mret (if (0 <=? fd)%Z then 0 else -1)%Z.

Definition epoll_register (e s : ptr) : W Z :=
  assert_ (bool_decide (e ≠ NULL));; assert_ (bool_decide (s ≠ NULL));;
  e' ← eng e; s' ← sock s;
  '(ret, _) ← RETRY (k_epoll_ctl K (poller_fd e') EPOLL_CTL_ADD (s_fd s') s
                       (Z.lor EPOLLIN (Z.lor EPOLLOUT EPOLLET)));
  mret ret.

(** The event of a removal is ignored, and not initialised. *)
Definition epoll_unregister (e s : ptr) : W Z :=
  assert_ (bool_decide (e ≠ NULL));; assert_ (bool_decide (s ≠ NULL));;
  e' ← eng e; s' ← sock s;
  '(ret, _) ← RETRY (k_epoll_ctl K (poller_fd e') EPOLL_CTL_DEL (s_fd s') NULL 0);
  mret ret.

Definition RemoveBinding (e s : ptr) : W Z :=
  match e with Some _ => epoll_unregister e s | None => mret (-1)%Z end.

Definition ReleaseSocketWrapper (handle : Z) : W Z :=
  w ← get;
  match pool_at (socket_pool w) handle with
  | Some l =>
      s ← sock (Some l);
      if (s_status s =? 0)%Z then mret (-1)%Z
      else
        RemoveBinding (s_engine s) (Some l);;
        on_mem (k_close K (s_fd s));;
        sock_set (Some l) (set_status 0);;
        mret 0%Z
  | None => mret (-1)%Z
  end.

Definition CreateEngine : W Z :=
  engine ← NewEngine;
  if (0 <=? engine)%Z then
    e ← GetEngineByHandle engine;
    r ← epoll_init e;
    if negb (r =? 0)%Z then CloseEngine engine;; mret (-1)%Z
    else
      eng_set e (set_events (replicate (Z.to_nat MAX_SOCKET) (NULL, 0%Z)));;
      eng_set e (λ e, set_actived (link_list_clear (actived e)) e);;
      mret engine
  else mret engine.

(** ** Requests ([Socket.c], [KendyNet.c]) *)

(** The iovecs of a request, as [readv] and [writev] see them. *)
Definition io_vectors (io : ptr) : W (list iovec) :=
  r ← on_ios (hload io);
  a ← on_iovs (hload (io_iovec r));
  if (Z.to_nat (iovec_count r) <=? length a)%nat then mret (take (Z.to_nat (iovec_count r)) a)
  else fail OutOfBounds.

Definition on_read_active (s : ptr) : W () :=
  sock_set s (set_readable 1);;
  s' ← sock s;
  if (isactived s' =? 0)%Z && negb (link_list_is_empty (pending_recv s')) then
    sock_set s (set_isactived 1);;
    push_actived (s_engine s') s
  else mret tt.

Definition on_write_active (s : ptr) : W () :=
  sock_set s (set_writeable 1);;
  s' ← sock s;
  if (isactived s' =? 0)%Z && negb (link_list_is_empty (pending_send s')) then
    sock_set s (set_isactived 1);;
    push_actived (s_engine s') s
  else mret tt.

(** The results are the return value, [*bytes_transfer] and [*err_code]. *)
Definition raw_recv (s io : ptr) : W (Z * Z * Z) :=
  modify count_recv;;
  s' ← sock s; iov ← io_vectors io;
  '(r, errno) ← RETRY (k_readv K (s_fd s') iov);
  let bytes_transfer := i32 r in
  if (bytes_transfer <? 0)%Z then
    (if (errno =? EAGAIN)%Z then
       sock_set s (set_readable 0);;
       requeue_recv s io
     else mret tt);;
    mret (-1, bytes_transfer, errno)%Z
  else mret ((if bytes_transfer =? 0 then 0 else bytes_transfer), bytes_transfer, 0)%Z.

Definition raw_send (s io : ptr) : W (Z * Z * Z) :=
  s' ← sock s; iov ← io_vectors io;
  '(r, errno) ← RETRY (k_writev K (s_fd s') iov);
  let bytes_transfer := i32 r in
  if (bytes_transfer <? 0)%Z then
    (if (errno =? EAGAIN)%Z then
       sock_set s (set_writeable 0);;
       requeue_send s io
     else mret tt);;
    mret (-1, bytes_transfer, errno)%Z
  else mret ((if bytes_transfer =? 0 then 0 else bytes_transfer), bytes_transfer, 0)%Z.

(** A call through a function field. *)
Definition callback (f : option nat) (bytes : Z) (io : ptr) : W () :=
  match f with Some f => call f bytes io | None => fail NullDeref end.

Definition _recv (s : ptr) : W Z :=
  assert_ (bool_decide (s ≠ NULL));;
  s' ← sock s;
  if (readable s' =? 0)%Z then mret (-1)%Z
  else
    io ← pop_recv s;
    match io with
    | None => mret (-1)%Z
    | Some _ =>
        '(ret, bytes, err) ← raw_recv s io;
        on_ios (hmodify io (set_err err));;
        (if (0 <=? ret)%Z || negb (err =? EAGAIN)%Z then
           s' ← sock s; callback (OnRead s') bytes io
         else mret tt);;
        mret ret
    end.

Definition _send (s : ptr) : W Z :=
  assert_ (bool_decide (s ≠ NULL));;
  s' ← sock s;
  if (writeable s' =? 0)%Z then mret (-1)%Z
  else
    io ← pop_send s;
    match io with
    | None => mret (-1)%Z
    | Some _ =>
        '(ret, bytes, err) ← raw_send s io;
        on_ios (hmodify io (set_err err));;
        (if (0 <=? ret)%Z || negb (err =? EAGAIN)%Z then
           s' ← sock s; callback (OnWrite s') bytes io
         else mret tt);;
        mret ret
    end.

Definition Process (s : ptr) : W bool :=
  re ← _recv s;
  se ← _send s;
  mret ((0 <? re)%Z && (0 <? se)%Z).

(** The results are the return value and [*err_code]. *)
Definition WSASend (handle : Z) (io : ptr) (now : bool) : W (Z * Z) :=
  assert_ (bool_decide (io ≠ NULL));;
  s ← GetSocketByHandle handle;
  match s with
  | None => mret (-1, 0)%Z
  | Some _ =>
      if now then
        '(ret, _, err) ← raw_send s io; mret (ret, err)
      else
        push_send s io;;
        s' ← sock s;
        (if bool_decide (s_engine s' ≠ NULL) && negb (writeable s' =? 0)%Z
              && (isactived s' =? 0)%Z then
           sock_set s (set_isactived 1);;
           push_actived (s_engine s') s
         else mret tt);;
        mret (-1, EAGAIN)%Z
  end.

Definition WSARecv (handle : Z) (io : ptr) (now : bool) : W (Z * Z) :=
  assert_ (bool_decide (io ≠ NULL));;
  s ← GetSocketByHandle handle;
  match s with
  | None => mret (-1, 0)%Z
  | Some _ =>
      if now then
        '(ret, _, err) ← raw_recv s io; mret (ret, err)
      else
        push_recv s io;;
        s' ← sock s;
        (if bool_decide (s_engine s' ≠ NULL) && negb (readable s' =? 0)%Z
              && (isactived s' =? 0)%Z then
           sock_set s (set_isactived 1);;
           push_actived (s_engine s') s
         else mret tt);;
        mret (-1, EAGAIN)%Z
  end.

Definition Bind2Engine (e s : Z) (_OnRead _OnWrite : option nat) : W Z :=
  engine ← GetEngineByHandle e;
  sock_ ← GetSocketByHandle s;
  match engine, sock_ with
  | Some _, Some _ =>
      sock_set sock_ (λ s, set_callbacks _OnRead (OnWrite s) s);;
      sock_set sock_ (λ s, set_callbacks (OnRead s) _OnWrite s);;
      r ← epoll_register engine sock_;
      if (r =? 0)%Z then sock_set sock_ (set_engine engine);; mret 0%Z
      else mret (-1)%Z
  | _, _ => mret (-1)%Z
  end.

(** ** The loop ([epoll.c]) *)

(** [SysTime.h] *)
Definition GetSystemMs : W Z :=
  '(sec, usec) ← on_mem (k_gettimeofday K); mret (i32 (sec * 1000 + usec / 1000)).

(** The body of the inner loop, which serves one active socket. *)
Definition serve_body (n : ptr) (_ : ()) : W (() + ()) :=
  e ← eng n;
  if link_list_is_empty (actived e) then mret (inr tt)
  else
    s ← pop_actived n;
    sock_set s (set_isactived 0);;
    again ← Process s;
    s' ← sock s;
    (if again && (isactived s' =? 0)%Z then
       sock_set s (set_isactived 1);;
       push_actived n s
     else mret tt);;
    mret (inl tt).

Definition has_flag (events flag : Z) : bool := negb (Z.land events flag =? 0)%Z.

(** The loop over the events that [epoll_wait] has filled in. *)
Fixpoint dispatch (evs : list (ptr * Z)) : W () :=
  match evs with
  | [] => mret tt
  | (s, events) :: evs =>
      (match s with
       | Some _ =>
           (if has_flag events EPOLLIN then on_read_active s else mret tt);;
           (if has_flag events EPOLLOUT then on_write_active s else mret tt)
       | None => mret tt
       end);;
      dispatch evs
  end.

(** One round of the outer loop: [inr] is the return value. *)
Definition loop_round (n : ptr) (_timeout : Z) (tick : Z) : W (Z + Z) :=
  loop fuel (serve_body n) tt;;
  let ms := u32 (_timeout - tick) in
  e ← eng n;
  '(nfds, _, evs) ← TEMP_FAILURE_RETRY (k_epoll_wait K (poller_fd e) MAX_SOCKET (i32 ms));
  let nfds := i32 nfds in
  if (nfds <? 0)%Z then mret (inr (-1)%Z)
  else
    eng_set n (λ e, set_events (evs ++ drop (length evs) (e_events e)) e);;
    dispatch (take (Z.to_nat nfds) evs);;
    tick ← GetSystemMs;
    let tick := u32 tick in
    if (tick <? _timeout)%Z then mret (inl tick) else mret (inr 0%Z).

Definition epoll_loop (n : ptr) (timeout : Z) : W Z :=
  assert_ (bool_decide (n ≠ NULL));;
  tick ← GetSystemMs;
  let tick := u32 tick in
  let _timeout := u32 (tick + timeout) in
  loop fuel (loop_round n _timeout) tick.

Definition EngineRun (engine timeout : Z) : W Z :=
  e ← GetEngineByHandle engine;
  match e with None => mret (-1)%Z | Some _ => epoll_loop e timeout end.

(** ** Socket wrappers ([SocketWrapper.c]) *)

Definition InitSocket (handle fd : Z) : W () :=
  s ← GetSocketByHandle handle;
  sock_set s (set_fd fd);;
  sock_set s (λ s, set_send (link_list_clear (pending_send s)) s);;
  sock_set s (λ s, set_recv (link_list_clear (pending_recv s)) s);;
  sock_set s (λ s, set_readable 0 (set_writeable 0 s));;
  sock_set s (set_engine NULL);;
  sock_set s (set_isactived 0);;
  on_nexts (hstore s NULL).

Definition OpenSocket (family type protocol : Z) : W Z :=
  sockfd ← on_mem (k_socket K family type protocol);
  if (sockfd <? 0)%Z then mret (-1)%Z
  else
    h ← NewSocketWrapper;
    if (h <? 0)%Z then on_mem (k_close K sockfd);; mret (-1)%Z
    else InitSocket h sockfd;; mret h.

Definition CloseSocket (handle : Z) : W Z :=
  s ← GetSocketByHandle handle;
  match s with
  | Some _ => s' ← sock s; on_mem (k_close K (s_fd s'))
  | None => mret (-1)%Z
  end.

Definition ReleaseSocket (handle : Z) : W Z := ReleaseSocketWrapper handle.

Definition Connect (handle : Z) (servaddr : sockaddr_in) : W Z :=
  s ← GetSocketByHandle handle;
  match s with
  | Some _ =>
      s' ← sock s;
      r ← on_mem (k_connect K (s_fd s') servaddr);
      mret (if (r <? 0)%Z then -1 else 0)%Z
  | None => mret (-1)%Z
  end.

(** The byte swap of a 16-bit value on a little-endian machine. *)
Definition htons (v : Z) : Z := u16 (Z.lor (Z.shiftl v 8) (Z.shiftr v 8)).

(** [inet_pton] returns 0 and stores nothing for a text that is no address; a
    negative result would mean an unknown family. *)
Definition store_addr (ip : list Z) (a : sockaddr_in) : sockaddr_in :=
  match inet_pton K ip with
  | Some v => SockAddr (sin_family a) (sin_port a) v
  | None => a
  end.

(** The [while(1)] loop of [Tcp_Connect]. *)
Definition connect_body (handle : Z) (a : sockaddr_in) (retry : bool) (_ : ()) : W (() + bool) :=
  r ← Connect handle a;
  if (r =? 0)%Z then mret (inr true)
  else if retry then mret (inl tt) else mret (inr false).

(** [servaddr] is an output as well. *)
Definition Tcp_Connect (ip : option (list Z)) (port : Z) (servaddr : sockaddr_in) (retry : bool) :
    W (Z * sockaddr_in) :=
  match ip with
  | None => mret ((-1)%Z, servaddr)
  | Some ip =>
      let a := store_addr ip (SockAddr INET (htons port) 0) in
      h ← OpenSocket INET STREAM TCP;
      if (h =? 0)%Z then mret ((-1)%Z, a)
      else
        ok ← loop fuel (connect_body h a retry) tt;
        if ok : bool then mret (h, a) else CloseSocket h;; mret ((-1)%Z, a)
  end.

Definition Bind (handle : Z) (myaddr : sockaddr_in) : W Z :=
  s ← GetSocketByHandle handle;
  match s with
  | Some _ =>
      s' ← sock s;
      r ← on_mem (k_bind K (s_fd s') myaddr);
      mret (if (r <? 0)%Z then -1 else 0)%Z
  | None => mret (-1)%Z
  end.

Definition Listen (handle backlog : Z) : W Z :=
  s ← GetSocketByHandle handle;
  match s with
  | Some _ =>
      s' ← sock s;
      r ← on_mem (k_listen K (s_fd s') backlog);
      mret (if (r <? 0)%Z then -1 else 0)%Z
  | None => mret (-1)%Z
  end.

Definition Tcp_Listen (ip : option (list Z)) (port : Z) (servaddr : sockaddr_in) (backlog : Z) :
    W (Z * sockaddr_in) :=
  h ← OpenSocket INET STREAM TCP;
  if (h <? 0)%Z then mret ((-1)%Z, servaddr)
  else
    let a := SockAddr INET 0 0 in
    let a := match ip with Some ip => store_addr ip a | None => a end in
    let a := SockAddr (sin_family a) (htons port) (sin_addr a) in
    r ← Bind h a;
    if (r <? 0)%Z then CloseSocket h;; mret ((-1)%Z, a)
    else
      r ← Listen h backlog;
      if (r =? 0)%Z then mret (h, a) else CloseSocket h;; mret ((-1)%Z, a).

(** The [again] loop of [Accept]: the new descriptor, or nothing. *)
Definition accept_body (fd : Z) (_ : ()) : W (() + option Z) :=
  '(n, errno) ← on_mem (k_accept K fd);
  if (n <? 0)%Z then
    if (errno =? EPROTO)%Z || (errno =? ECONNABORTED)%Z then mret (inl tt) else mret (inr None)
  else mret (inr (Some n)).

Definition Accept (handle : Z) : W Z :=
  s ← GetSocketByHandle handle;
  match s with
  | Some _ =>
      s' ← sock s;
      n ← loop fuel (accept_body (s_fd s')) tt;
      match n with
      | None => mret (-1)%Z
      | Some n =>
          newsock ← NewSocketWrapper;
          if (newsock <? 0)%Z then on_mem (k_close K n);; mret (-1)%Z
          else InitSocket newsock n;; mret newsock
      end
  | None => mret (-1)%Z
  end.

(** The results are the return value, the text written to [buf] and [*port];
    [buf] is [None] for NULL, and [inet_ntop] is given room for 15 bytes. *)
Definition addr_text (a : sockaddr_in) : Z * list Z * Z :=
  match inet_ntop K (sin_addr a) 15 with
  | None => (-1, [], 0)%Z
  | Some text => (0%Z, text, htons (sin_port a))
  end.

Definition getLocalAddrPort (handle : Z) (buf : bool) : W (Z * list Z * Z) :=
  s ← GetSocketByHandle handle;
  match s with
  | Some _ =>
      if negb buf then mret (-1, [], 0)%Z
      else
        s' ← sock s;
        '(ret, a) ← on_mem (k_getsockname K (s_fd s'));
        if negb (ret =? 0)%Z then mret (-1, [], 0)%Z else mret (addr_text a)
  | None => mret (-1, [], 0)%Z
  end.

Definition getRemoteAddrPort (handle : Z) (buf : bool) : W (Z * list Z * Z) :=
  s ← GetSocketByHandle handle;
  match s with
  | Some _ =>
      if negb buf then mret (-1, [], 0)%Z
      else
        s' ← sock s;
        '(ret, a) ← on_mem (k_getpeername K (s_fd s'));
        if negb (ret =? 0)%Z then mret (-1, [], 0)%Z else mret (addr_text a)
  | None => mret (-1, [], 0)%Z
  end.

Definition setNonblock (handle : Z) : W Z :=
  s ← GetSocketByHandle handle;
  match s with
  | Some _ =>
      s' ← sock s;
      r ← on_mem (k_nodelay K (s_fd s'));
      if negb (r =? 0)%Z then mret (-1)%Z
      else
        fd_flags ← on_mem (k_getfl K (s_fd s'));
        r ← on_mem (k_setfl K (s_fd s') (Z.lor fd_flags O_NONBLOCK));
        mret (if (r =? -1)%Z then -1 else 0)%Z
  | None => mret (-1)%Z
  end.
End net.

(** ** The queues

    Every queue of the system: the active sockets of an engine, and the pending
    requests of a socket. *)

Inductive qid := QAct (e : loc) | QRecv (s : loc) | QSend (s : loc).

#[export] Instance qid_eq_dec : EqDecision qid.
Proof. solve_decision. Defined.

Definition queue_of {U} (w : world U) (q : qid) : option link_list :=
  match q with
  | QAct e => actived <$> w_engines w !! e
  | QRecv s => pending_recv <$> w_sockets w !! s
  | QSend s => pending_send <$> w_sockets w !! s
  end.

Abbreviation queues := (qid → list loc).

(** The iovecs of a request are in its array. *)
Definition io_ok {U} (w : world U) (io : loc) : Prop :=
  ∃ r a arr, w_ios w !! io = Some r ∧ io_iovec r = Some a ∧ w_iovs w !! a = Some arr ∧
    Z.to_nat (iovec_count r) ≤ length arr.

(** What may be in a queue. *)
Definition queueable {U} (w : world U) (q : qid) (x : loc) : Prop :=
  match q with QAct _ => is_Some (w_sockets w !! x) | _ => io_ok w x end.

(** The queues hold the sequences [Q], every object is in at most one queue,
    and the node of an object in no queue is unlinked. *)
Record core {U} (w : world U) (Q : queues) : Prop := {
  co_rep : ∀ q l, queue_of w q = Some l → ll_rep (w_nexts w) l (Q q);
  co_none : ∀ q, queue_of w q = None → Q q = [];
  co_one : ∀ q1 q2 x, x ∈ Q q1 → x ∈ Q q2 → q1 = q2;
  co_elem : ∀ q x, x ∈ Q q → queueable w q x;
  co_free : ∀ x, is_Some (w_sockets w !! x) ∨ is_Some (w_ios w !! x) → (∀ q, x ∉ Q q) →
    w_nexts w !! x = Some NULL;
  co_apart : ∀ x, is_Some (w_sockets w !! x) → w_ios w !! x = None;
  co_room : (Z.of_nat (size (w_nexts w)) < 2 ^ 31 - 1)%Z;
}.

(** A socket is in the queue of its engine exactly when [isactived] says so, and
    a socket that is bound to an engine has callbacks. *)
Record activity {U} (w : world U) (Q : queues) : Prop := {
  ac_in : ∀ e x, x ∈ Q (QAct e) → ∃ s, w_sockets w !! x = Some s ∧ isactived s ≠ 0%Z ∧
    s_engine s = Some e;
  ac_out : ∀ x s, w_sockets w !! x = Some s → isactived s ≠ 0%Z →
    ∃ e, s_engine s = Some e ∧ x ∈ Q (QAct e);
  ac_engine : ∀ x s e, w_sockets w !! x = Some s → s_engine s = Some e → is_Some (w_engines w !! e);
  ac_handlers : ∀ x s e, w_sockets w !! x = Some s → s_engine s = Some e →
    is_Some (OnRead s) ∧ is_Some (OnWrite s);
}.

(** Everything but the queues: the objects and their other fields. *)
Definition qless (s : socket) : Z * ptr * Z * Z * Z * Z * Z * option nat * option nat :=
  (s_status s, s_engine s, isactived s, readable s, writeable s, s_fd s, s_handle s, OnRead s, OnWrite s).
Definition qless_engine (e : engine) : Z * Z * list (ptr * Z) := (e_status e, poller_fd e, e_events e).
Record only_queues {U} (w w' : world U) : Prop := {
  oq_sockets : ∀ s, qless <$> w_sockets w' !! s = qless <$> w_sockets w !! s;
  oq_engines : ∀ e, qless_engine <$> w_engines w' !! e = qless_engine <$> w_engines w !! e;
  oq_ios : w_ios w' = w_ios w;
  oq_iovs : w_iovs w' = w_iovs w;
  oq_pools : socket_pool w' = socket_pool w ∧ engine_pool w' = engine_pool w;
  oq_mem : w_mem w' = w_mem w;
}.

(** The queue [q] now holds [xs]. *)
Definition upd (Q : queues) (q : qid) (xs : list loc) : queues :=
  λ q', if decide (q' = q) then xs else Q q'.
Lemma upd_eq Q q xs : upd Q q xs q = xs.
Proof. by rw /upd decide_True. Qed.
Lemma upd_ne Q q q' xs : q' ≠ q → upd Q q xs q' = Q q'.
Proof. intros. by rw /upd decide_False. Qed.

(** The operations push and pop on the queue [q], as functions of its struct. *)
Definition queue_set {U} (q : qid) (l : link_list) (w : world U) : world U :=
  match q with
  | QAct e => World (w_sockets w) (alter (set_actived l) e (w_engines w)) (w_nexts w) (w_ios w) (w_iovs w)
      (socket_pool w) (engine_pool w) (recv_count w) (w_mem w)
  | QRecv s => World (alter (set_recv l) s (w_sockets w)) (w_engines w) (w_nexts w) (w_ios w) (w_iovs w)
      (socket_pool w) (engine_pool w) (recv_count w) (w_mem w)
  | QSend s => World (alter (set_send l) s (w_sockets w)) (w_engines w) (w_nexts w) (w_ios w) (w_iovs w)
      (socket_pool w) (engine_pool w) (recv_count w) (w_mem w)
  end.
Definition set_nexts {U} (N : nexts) (w : world U) : world U :=
  World (w_sockets w) (w_engines w) N (w_ios w) (w_iovs w) (socket_pool w)
    (engine_pool w) (recv_count w) (w_mem w).

Section queues.
Context {U : Type}.
Implicit Types (w : world U) (Q : queues) (q : qid).
Abbreviation W := (M (world U)).

(** Pushing and popping, with the queue struct read and written back. *)
Definition qpush (push : link_list → loc → M nexts link_list) q (n : loc) : W () := λ w,
  match queue_of w q with
  | None => Fault Dangling
  | Some l => match push l n (w_nexts w) with
              | Ok (l', N') => Ok (tt, queue_set q l' (set_nexts N' w))
              | Fault e => Fault e
              end
  end.
Definition qpop q : W ptr := λ w,
  match queue_of w q with
  | None => Fault Dangling
  | Some l => match link_list_pop l (w_nexts w) with
              | Ok (p, l', N') => Ok (p, queue_set q l' (set_nexts N' w))
              | Fault e => Fault e
              end
  end.

Ltac queue_op :=
  intros; rw /push_actived /push_recv /push_send /requeue_recv /requeue_send /pop_actived /pop_recv
    /pop_send /qpush /qpop /sock /eng /sock_set /eng_set /mbind /M_bind /on_sockets /on_engines
    /on_nexts /zoom /hload /queue_of /=;
  lazymatch goal with
  | |- context [match ?h !! ?l with _ => _ end] =>
      let H := fresh in destruct (h !! l) eqn:H; simpl; [|done];
      let r := lazymatch goal with
        | |- context [link_list_push_back ?a ?b ?c] => constr:(link_list_push_back a b c)
        | |- context [link_list_push_front ?a ?b ?c] => constr:(link_list_push_front a b c)
        | |- context [link_list_pop ?a ?b] => constr:(link_list_pop a b)
        end in
      destruct r as [[x ?]|?]; simpl; [|done]; try (destruct x as [? ?]; simpl);
      rw ?H (alter_is_insert _ _ _ _ H) //
  end.

Lemma push_actived_q e s w : push_actived (Some e) (Some s) w = qpush link_list_push_back (QAct e) s w.
Proof. queue_op. Qed.
Lemma push_recv_q s io w : push_recv (Some s) (Some io) w = qpush link_list_push_back (QRecv s) io w.
Proof. queue_op. Qed.
Lemma push_send_q s io w : push_send (Some s) (Some io) w = qpush link_list_push_back (QSend s) io w.
Proof. queue_op. Qed.
Lemma requeue_recv_q s io w :
  requeue_recv (Some s) (Some io) w = qpush link_list_push_front (QRecv s) io w.
Proof. queue_op. Qed.
Lemma requeue_send_q s io w :
  requeue_send (Some s) (Some io) w = qpush link_list_push_front (QSend s) io w.
Proof. queue_op. Qed.
Lemma pop_actived_q e w : pop_actived (Some e) w = qpop (QAct e) w.
Proof. queue_op. Qed.
Lemma pop_recv_q s w : pop_recv (Some s) w = qpop (QRecv s) w.
Proof. queue_op. Qed.
Lemma pop_send_q s w : pop_send (Some s) w = qpop (QSend s) w.
Proof. queue_op. Qed.
End queues.

Section queue_ops.
Context {U : Type}.
Implicit Types (w : world U) (Q : queues) (q : qid).

Lemma only_queues_refl w : only_queues w w.
Proof. by split. Qed.
Lemma only_queues_trans w1 w2 w3 : only_queues w1 w2 → only_queues w2 w3 → only_queues w1 w3.
Proof. intros [] []. split; intros; try (by etrans); naive_solver congruence. Qed.

Lemma queue_set_only w q l N : only_queues w (queue_set q l (set_nexts N w)).
Proof.
  destruct q as [e|s|s]; split; simpl; try done; intros i; rw lookup_alter; case_decide; try done;
    subst; by destruct (_ !! _).
Qed.

Lemma oq_dom w w' x : only_queues w w' → is_Some (w_sockets w' !! x) ↔ is_Some (w_sockets w !! x).
Proof. intros H. pose proof (oq_sockets _ _ H x) as Hx. by destruct (w_sockets w' !! x), (w_sockets w !! x). Qed.

Lemma oq_socket w w' x s : only_queues w w' → w_sockets w !! x = Some s →
  ∃ s', w_sockets w' !! x = Some s' ∧ qless s' = qless s.
Proof.
  intros H Hx. pose proof (oq_sockets _ _ H x) as Hs. rw Hx in Hs.
  destruct (w_sockets w' !! x) as [s'|]; [|done]. exists s'. split; [done|]. by apply (inj Some).
Qed.
Lemma oq_socket' w w' x s' : only_queues w w' → w_sockets w' !! x = Some s' →
  ∃ s, w_sockets w !! x = Some s ∧ qless s' = qless s.
Proof.
  intros H Hx. pose proof (oq_sockets _ _ H x) as Hs. rw Hx in Hs.
  destruct (w_sockets w !! x) as [s|]; [|done]. exists s. split; [done|]. by apply (inj Some).
Qed.

Lemma oq_io_ok w w' x : only_queues w w' → io_ok w x → io_ok w' x.
Proof. intros H. by rw /io_ok (oq_ios _ _ H) (oq_iovs _ _ H). Qed.
Lemma oq_queueable w w' q x : only_queues w w' → queueable w q x → queueable w' q x.
Proof. intros H. destruct q; simpl; [by apply oq_dom|by apply oq_io_ok..]. Qed.

Lemma queue_set_eq w q l N l0 : queue_of w q = Some l0 →
  queue_of (queue_set q l (set_nexts N w)) q = Some l.
Proof. destruct q; simpl; rw lookup_alter_eq; by destruct (_ !! _). Qed.
Lemma queue_set_ne w q q' l N : q' ≠ q → queue_of (queue_set q l (set_nexts N w)) q' = queue_of w q'.
Proof.
  intros Hne. destruct q as [x|x|x], q' as [y|y|y]; simpl; try done;
    try (rw lookup_alter_ne; [congruence|done]);
    rw lookup_alter; case_decide; try done; subst; by destruct (_ !! _).
Qed.
Lemma queue_set_nexts w q l N : w_nexts (queue_set q l (set_nexts N w)) = N.
Proof. by destruct q. Qed.

Lemma nexts_frame_size ns (N N' : nexts) : nexts_frame ns N N' → size N' = size N.
Proof. intros [Hd _]. by rw -!(size_dom (D := gset loc)) Hd. Qed.

Lemma core_room w Q q l : core w Q → queue_of w q = Some l → ll_room (Q q).
Proof.
  intros Hc Hq. pose proof (co_rep _ _ Hc _ _ Hq) as Hl. pose proof (co_room _ _ Hc).
  enough (length (Q q) ≤ size (w_nexts w)) by (rw /ll_room; lia).
  rw -(size_dom (D := gset loc)) -(size_list_to_set (C := gset loc) (Q q)); [by eapply ll_rep_NoDup|].
  apply subseteq_size. intros x Hx%elem_of_list_to_set. apply elem_of_dom. by eapply ll_rep_dom.
Qed.

(** Replacing the sequence of one queue by one that has lost or gained
    unlinked nodes only. *)
Lemma core_set w Q q l xs N ns : core w Q → is_Some (queue_of w q) →
  ll_rep N l xs → nexts_frame ns (w_nexts w) N →
  (∀ x, x ∈ ns → ∀ q', q' ≠ q → x ∉ Q q') → (∀ x, x ∈ xs → queueable w q x) →
  (∀ x, x ∈ xs → x ∈ ns) → (∀ x, x ∈ ns → x ∉ xs → N !! x = Some NULL) → (∀ x, x ∈ Q q → x ∈ ns) →
  core (queue_set q l (set_nexts N w)) (upd Q q xs).
Proof.
  intros Hc [l0 Hq] Hrep Hfr Hns Hel Hxs Hfree Hold. pose proof (queue_set_only w q l N) as Hoq.
  split.
  - intros q' l' Hl'. rw queue_set_nexts. destruct (decide (q' = q)) as [->|Hne].
    + rw upd_eq. rw (queue_set_eq _ _ _ _ _ Hq) in Hl'. by simplify_eq.
    + rw queue_set_ne // in Hl'. rw upd_ne //. eapply ll_rep_frame; [done| |by apply (co_rep _ _ Hc)].
      intros x Hx Hin. by eapply (Hns x Hin q').
  - intros q' Hl'. destruct (decide (q' = q)) as [->|Hne].
    + by rw (queue_set_eq _ _ _ _ _ Hq) in Hl'.
    + rw queue_set_ne // in Hl'. rw upd_ne //. by apply (co_none _ _ Hc).
  - intros q1 q2 x. rw /upd.
    destruct (decide (q1 = q)) as [->|N1], (decide (q2 = q)) as [->|N2]; intros H1 H2; try done.
    + by destruct (Hns x (Hxs x H1) q2 N2).
    + by destruct (Hns x (Hxs x H2) q1 N1).
    + by eapply (co_one _ _ Hc).
  - intros q' x. rw /upd. case_decide; subst; intros Hx; (eapply oq_queueable; [done|]); [by apply Hel|].
    by apply (co_elem _ _ Hc).
  - intros x Hd Hx. rw queue_set_nexts.
    assert (x ∉ xs) as Hnx by (specialize (Hx q); by rw upd_eq in Hx).
    destruct (decide (x ∈ ns)) as [Hin|Hin]; [by apply Hfree|].
    rw (proj2 Hfr x Hin). apply (co_free _ _ Hc).
    + destruct Hd as [Hd|Hd]; [left; by apply (oq_dom _ _ _ Hoq)|right]. by rw (oq_ios _ _ Hoq) in Hd.
    + intros q'. destruct (decide (q' = q)) as [->|Hne]; [intros ?; apply Hin; auto|].
      specialize (Hx q'). by rw upd_ne in Hx.
  - intros x Hx%(oq_dom _ _ _ Hoq). rw (oq_ios _ _ Hoq). by apply (co_apart _ _ Hc).
  - rw queue_set_nexts (nexts_frame_size _ _ _ Hfr). apply (co_room _ _ Hc).
Qed.

(** How a push extends a queue. *)
Definition pushes (push : link_list → loc → M nexts link_list) (put : list loc → loc → list loc) : Prop :=
  ∀ N l xs n, ll_rep N l xs → N !! n = Some NULL → n ∉ xs → ll_room xs →
    wp (push l n) N (λ l' N', ll_rep N' l' (put xs n) ∧ nexts_frame (n :: xs) N N') ∧
    (∀ x, x ∈ put xs n ↔ x ∈ n :: xs).

Lemma push_back_pushes : pushes link_list_push_back (λ xs n, xs ++ [n]).
Proof. intros N l xs n ????. split; [by apply ll_push_back_ok|set_solver]. Qed.
Lemma push_front_pushes : pushes link_list_push_front (λ xs n, n :: xs).
Proof.
  intros N l xs n ????. split; [|done]. eapply wp_mono; [by apply ll_push_front_ok|]. cbv beta.
  intros l' N' (? & ? & HN). split; [done|]. split; [done|]. intros m Hm. apply HN. set_solver.
Qed.

Lemma qpush_ok push put q n w Q : pushes push put → core w Q → is_Some (queue_of w q) →
  (∀ q', n ∉ Q q') → queueable w q n →
  wp (qpush push q n) w (λ _ w', only_queues w w' ∧ core w' (upd Q q (put (Q q) n))).
Proof.
  intros Hp Hc [l Hq] Hn Hel. rw /wp /qpush Hq.
  assert (Hnull : w_nexts w !! n = Some NULL).
  { apply (co_free _ _ Hc); [|done]. destruct q; simpl in Hel; [by left|right..];
      by destruct Hel as (? & ? & ? & -> & _). }
  destruct (Hp _ _ _ n (co_rep _ _ Hc _ _ Hq) Hnull (Hn q) (core_room _ _ _ _ Hc Hq)) as [Hwp Hput].
  apply wp_ok in Hwp as (l' & N' & -> & Hrep & Hfr). split; [apply queue_set_only|].
  eapply core_set; try done.
  - intros x [->|Hx]%elem_of_cons q' Hne; [done|]. intros Hx'. by apply Hne, (co_one _ _ Hc q' q x).
  - intros x [->|Hx]%Hput%elem_of_cons; [done|by apply (co_elem _ _ Hc)].
  - intros x Hx. by apply Hput.
  - intros x Hx Hx'. by apply Hput in Hx.
  - intros x Hx. by right.
Qed.

Lemma qpop_ok q w Q : core w Q → is_Some (queue_of w q) →
  wp (qpop q) w (λ p w', p = head (Q q) ∧ only_queues w w' ∧ core w' (upd Q q (tail (Q q)))).
Proof.
  intros Hc [l Hq]. rw /wp /qpop Hq. pose proof (core_room _ _ _ _ Hc Hq) as Hroom. rw /ll_room in Hroom.
  pose proof (co_rep _ _ Hc _ _ Hq) as Hrep0.
  destruct (wp_ok _ _ _ (ll_pop_ok _ _ _ Hrep0 ltac:(lia))) as ([p l'] & N' & -> & Hp & Hrep & Hfr & Hnull).
  split; [done|]. split; [apply queue_set_only|]. simpl in *.
  eapply core_set; try done.
  - intros x Hx q' Hne Hx'. by apply Hne, (co_one _ _ Hc q' q x).
  - intros x Hx. apply (co_elem _ _ Hc). destruct (Q q); [done|by right].
  - intros x Hx. destruct (Q q); [done|by right].
  - intros x Hx Hx'. destruct (Q q) as [|y r]; [by apply not_elem_of_nil in Hx|].
    apply elem_of_cons in Hx as [->|Hx]; [by apply Hnull|done].
Qed.
End queue_ops.

(** ** The two directions

    Receiving and sending are the same code on different fields; [true] is the
    receiving direction.  The definitions of this section are equal to the two
    copies of the source, and the proofs are done once for both. *)

Definition dqueue (d : bool) (s : loc) : qid := if d then QRecv s else QSend s.
Definition flag (d : bool) (s : socket) : Z := if d then readable s else writeable s.
Definition set_flag (d : bool) (v : Z) (s : socket) : socket :=
  if d then set_readable v s else set_writeable v s.
Definition handler (d : bool) (s : socket) : option nat := if d then OnRead s else OnWrite s.
Definition pending (d : bool) (s : socket) : link_list := if d then pending_recv s else pending_send s.

Section directions.
Context {U : Type} (K : kernel U) (call : nat → Z → ptr → M (world U) ()) (fuel : nat).
Abbreviation W := (M (world U)).

Definition dpush (d : bool) : ptr → ptr → W () := if d then push_recv else push_send.
Definition drequeue (d : bool) : ptr → ptr → W () := if d then requeue_recv else requeue_send.
Definition dpop (d : bool) : ptr → W ptr := if d then pop_recv else pop_send.
Definition dsyscall (d : bool) (fd : Z) (iov : list iovec) : M U (Z * Z) :=
  if d then k_readv K fd iov else k_writev K fd iov.

Definition activate (e s : ptr) : W () :=
  sock_set s (set_isactived 1);; push_actived e s.

Definition on_active (d : bool) (s : ptr) : W () :=
  sock_set s (set_flag d 1);;
  s' ← sock s;
  if (isactived s' =? 0)%Z && negb (link_list_is_empty (pending d s')) then
    activate (s_engine s') s
  else mret tt.

Definition raw (d : bool) (s io : ptr) : W (Z * Z * Z) :=
  (if d then modify count_recv else mret tt);;
  s' ← sock s; iov ← io_vectors io;
  '(r, errno) ← RETRY fuel (dsyscall d (s_fd s') iov);
  let bytes_transfer := i32 r in
  if (bytes_transfer <? 0)%Z then
    (if (errno =? EAGAIN)%Z then
       sock_set s (set_flag d 0);;
       drequeue d s io
     else mret tt);;
    mret (-1, bytes_transfer, errno)%Z
  else mret ((if bytes_transfer =? 0 then 0 else bytes_transfer), bytes_transfer, 0)%Z.

Definition transfer (d : bool) (s : ptr) : W Z :=
  assert_ (bool_decide (s ≠ NULL));;
  s' ← sock s;
  if (flag d s' =? 0)%Z then mret (-1)%Z
  else
    io ← dpop d s;
    match io with
    | None => mret (-1)%Z
    | Some _ =>
        '(ret, bytes, err) ← raw d s io;
        on_ios (hmodify io (set_err err));;
        (if (0 <=? ret)%Z || negb (err =? EAGAIN)%Z then
           s' ← sock s; callback call (handler d s') bytes io
         else mret tt);;
        mret ret
    end.

Definition WSA (d : bool) (handle : Z) (io : ptr) (now : bool) : W (Z * Z) :=
  assert_ (bool_decide (io ≠ NULL));;
  s ← GetSocketByHandle handle;
  match s with
  | None => mret (-1, 0)%Z
  | Some _ =>
      if now then
        '(ret, _, err) ← raw d s io; mret (ret, err)
      else
        dpush d s io;;
        s' ← sock s;
        (if bool_decide (s_engine s' ≠ NULL) && negb (flag d s' =? 0)%Z && (isactived s' =? 0)%Z then
           activate (s_engine s') s
         else mret tt);;
        mret (-1, EAGAIN)%Z
  end.

Lemma on_read_active_dir s : on_read_active s = on_active true s.
Proof. reflexivity. Qed.
Lemma on_write_active_dir s : on_write_active s = on_active false s.
Proof. reflexivity. Qed.
Lemma raw_recv_dir s io : raw_recv K fuel s io = raw true s io.
Proof. reflexivity. Qed.
Lemma raw_send_dir s io : raw_send K fuel s io = raw false s io.
Proof. reflexivity. Qed.
Lemma _recv_dir s : _recv K call fuel s = transfer true s.
Proof. reflexivity. Qed.
Lemma _send_dir s : _send K call fuel s = transfer false s.
Proof. reflexivity. Qed.
Lemma WSARecv_dir h io now : WSARecv K fuel h io now = WSA true h io now.
Proof. reflexivity. Qed.
Lemma WSASend_dir h io now : WSASend K fuel h io now = WSA false h io now.
Proof. reflexivity. Qed.
End directions.

(** ** No request is forgotten *)

(** The socket [s] of an engine has a request that the kernel could serve, but
    is not in the queue of its engine: as the events are edge-triggered, nothing
    would ever serve it. *)
Definition unserved {U} (w : world U) (Q : queues) (d : bool) (s : loc) : Prop :=
  ∃ sk, w_sockets w !! s = Some sk ∧ s_engine sk ≠ NULL ∧ isactived sk = 0%Z ∧
    flag d sk ≠ 0%Z ∧ Q (dqueue d s) ≠ [].

(** What the operations and the callbacks guarantee: they leave no request
    unserved that was not, and do not queue more behind one that is. *)
Record evolves {U} (w : world U) (Q : queues) (w' : world U) (Q' : queues) : Prop := {
  ev_unserved : ∀ d s, unserved w' Q' d s → unserved w Q d s ∧
    length (Q' (dqueue d s)) ≤ length (Q (dqueue d s));
  ev_sockets : ∀ s sk, w_sockets w !! s = Some sk → ∃ sk', w_sockets w' !! s = Some sk' ∧
    s_engine sk' = s_engine sk;
  ev_engines : ∀ e, is_Some (w_engines w !! e) → is_Some (w_engines w' !! e);
}.

Definition upd_sock {U} (s : loc) (f : socket → socket) (w : world U) : world U :=
  World (alter f s (w_sockets w)) (w_engines w) (w_nexts w) (w_ios w) (w_iovs w) (socket_pool w)
    (engine_pool w) (recv_count w) (w_mem w).

Section wake.
Context {U : Type}.
Implicit Types (w : world U) (Q : queues) (d : bool).

Lemma evolves_refl w Q : evolves w Q w Q.
Proof. split; eauto. Qed.
Lemma evolves_trans w1 Q1 w2 Q2 w3 Q3 : evolves w1 Q1 w2 Q2 → evolves w2 Q2 w3 Q3 → evolves w1 Q1 w3 Q3.
Proof.
  intros [A1 B1 C1] [A2 B2 C2]. split.
  - intros d s (H2 & ?)%A2. destruct (A1 d s H2). split; [done|]. by etrans.
  - intros s sk (sk2 & (sk3 & ? & ?)%B2 & ?)%B1. exists sk3. split; [done|congruence].
  - auto.
Qed.

Lemma wp_sock s sk w (R : socket → world U → Prop) : w_sockets w !! s = Some sk → R sk w →
  wp (sock (Some s)) w R.
Proof. intros Hs HR. rw /sock /on_sockets. wp_step. wp_step. by destruct w. Qed.
Lemma wp_sock_set s f w (R : () → world U → Prop) : is_Some (w_sockets w !! s) → R tt (upd_sock s f w) →
  wp (sock_set (Some s) f) w R.
Proof.
  intros [sk Hs] HR. rw /sock_set /on_sockets. wp_step. eapply wp_hmodify; [done|].
  by rw /upd_sock (alter_is_insert _ _ _ _ Hs) in HR.
Qed.

Lemma upd_sock_eq s f w sk : w_sockets w !! s = Some sk → w_sockets (upd_sock s f w) !! s = Some (f sk).
Proof. intros Hs. by rw /upd_sock /= lookup_alter_eq Hs. Qed.
Lemma upd_sock_ne s t f w : t ≠ s → w_sockets (upd_sock s f w) !! t = w_sockets w !! t.
Proof. intros. by rw /upd_sock /= lookup_alter_ne. Qed.

(** Updates of the other fields do not concern the queues. *)
Lemma upd_sock_core s f w Q :
  (∀ sk, pending_send (f sk) = pending_send sk ∧ pending_recv (f sk) = pending_recv sk) →
  core w Q → core (upd_sock s f w) Q.
Proof.
  intros Hf [A B C D E F G].
  assert (Hq : ∀ q, queue_of (upd_sock s f w) q = queue_of w q).
  { intros [e|t|t]; simpl; try done; rw lookup_alter; case_decide; try done; subst;
      destruct (w_sockets w !! t) as [sk|]; simpl; try done; destruct (Hf sk) as [H1 H2]; by rw ?H1 ?H2. }
  assert (Hd : ∀ x, is_Some (w_sockets (upd_sock s f w) !! x) ↔ is_Some (w_sockets w !! x)).
  { intros x. simpl. rw lookup_alter. case_decide; [|done]. subst. by destruct (_ !! _). }
  split; try done.
  - intros q l. rw Hq. apply A.
  - intros q. rw Hq. apply B.
  - intros [e|t|t] x Hx; [apply Hd; by apply (D (QAct e))|by eapply (D (QRecv t))|by eapply (D (QSend t))].
  - intros x. rw Hd. apply E.
  - intros x. rw Hd. apply F.
Qed.

Lemma upd_sock_activity s f w Q :
  (∀ sk, isactived (f sk) = isactived sk ∧ s_engine (f sk) = s_engine sk ∧
     OnRead (f sk) = OnRead sk ∧ OnWrite (f sk) = OnWrite sk) →
  activity w Q → activity (upd_sock s f w) Q.
Proof.
  intros Hf [A B C D].
  assert (Hl : ∀ x sk', w_sockets (upd_sock s f w) !! x = Some sk' → ∃ sk, w_sockets w !! x = Some sk ∧
    isactived sk' = isactived sk ∧ s_engine sk' = s_engine sk ∧ OnRead sk' = OnRead sk ∧ OnWrite sk' = OnWrite sk).
  { intros x sk'. simpl. rw lookup_alter. case_decide; [|by eauto 10]. subst.
    destruct (w_sockets w !! x) as [sk|]; [|done]. intros [= <-]. exists sk. split; [done|]. apply Hf. }
  split.
  - intros e x (sk & Hx & Ha & He)%A. destruct (Hf sk) as (F1 & F2 & _). simpl. rw lookup_alter.
    case_decide; [subst|by exists sk]. exists (f sk). rw Hx F1 F2 //.
  - intros x sk' (sk & Hx & -> & -> & _)%Hl. by apply B.
  - intros x sk' e (sk & Hx & _ & -> & _)%Hl. by eapply C.
  - intros x sk' e (sk & Hx & _ & -> & -> & ->)%Hl. by eapply D.
Qed.

Lemma activity_oq w w' Q Q' : only_queues w w' → (∀ e, Q' (QAct e) = Q (QAct e)) → activity w Q →
  activity w' Q'.
Proof.
  intros H HQ [A B C D]. split.
  - intros e x. rw HQ. intros (sk & Hx & ? & ?)%A. destruct (oq_socket _ _ _ _ H Hx) as (sk' & ? & Hs).
    injection Hs as. exists sk'. split; [done|]. split; congruence.
  - intros x sk' Hx Ha. destruct (oq_socket' _ _ _ _ H Hx) as (sk & Hx' & Hs). injection Hs as.
    destruct (B x sk Hx') as (e & ? & ?); [congruence|]. exists e. rw HQ. split; [congruence|done].
  - intros x sk' e Hx He. destruct (oq_socket' _ _ _ _ H Hx) as (sk & Hx' & Hs). injection Hs as.
    destruct (C x sk e Hx') as [? Hen]; [congruence|]. pose proof (oq_engines _ _ H e) as Hee. rw Hen in Hee.
    by destruct (w_engines w' !! e).
  - intros x sk' e Hx He. destruct (oq_socket' _ _ _ _ H Hx) as (sk & Hx' & Hs). injection Hs as.
    destruct (D x sk e Hx') as [? ?]; [congruence|]. by split; congruence.
Qed.

(** The sockets that an operation has changed are active, or have as many
    requests as before, or no flag. *)
Lemma evolves_intro w Q w' Q' :
  (∀ t, w_sockets w !! t = None → w_sockets w' !! t = None) →
  (∀ t sk, w_sockets w !! t = Some sk → ∃ sk', w_sockets w' !! t = Some sk' ∧ s_engine sk' = s_engine sk ∧
     (s_engine sk = NULL ∨ isactived sk' ≠ 0%Z ∨ isactived sk = 0%Z ∧
      ∀ d, flag d sk' = 0%Z ∨ Q' (dqueue d t) = [] ∨
        flag d sk' = flag d sk ∧ Q' (dqueue d t) = Q (dqueue d t))) →
  (∀ e, is_Some (w_engines w !! e) → is_Some (w_engines w' !! e)) → evolves w Q w' Q'.
Proof.
  intros Hnone Hsome He. split; [|naive_solver|done].
  intros d s (sk' & Hs' & Hb & Ha & Hf & HQ). destruct (w_sockets w !! s) as [sk|] eqn:Hs;
    [|by rw Hnone in Hs'].
  destruct (Hsome s sk Hs) as (sk2 & Hs2 & Heng & Hcase). simplify_eq.
  destruct Hcase as [|[|[Ha' Hd]]]; [congruence|done|].
  destruct (Hd d) as [|[|[Hfd HQd]]]; [done..|]. rw HQd in HQ *. split; [|lia].
  exists sk. split_and!; try done; congruence.
Qed.
End wake.

Section ops.
Context {U : Type} (K : kernel U) (call : nat → Z → ptr → M (world U) ()) (fuel : nat).
Implicit Types (w : world U) (Q : queues) (d : bool).

Definition set_mem (u : U) (w : world U) : world U :=
  World (w_sockets w) (w_engines w) (w_nexts w) (w_ios w) (w_iovs w) (socket_pool w)
    (engine_pool w) (recv_count w) u.

Definition idle (Q : queues) (x : loc) : Prop := ∀ q, x ∉ Q q.

(** Pushes and pops of the two directions. *)
Lemma wp_dpush d s io w Q (R : () → world U → Prop) : core w Q → is_Some (w_sockets w !! s) →
  idle Q io → io_ok w io →
  (∀ w', only_queues w w' → core w' (upd Q (dqueue d s) (Q (dqueue d s) ++ [io])) → R tt w') →
  wp (dpush d (Some s) (Some io)) w R.
Proof.
  intros Hc [sk Hs] Hidle Hio HR.
  enough (wp (qpush link_list_push_back (dqueue d s) io) w R) as Hwp.
  { destruct d; rw /wp /= ?push_recv_q ?push_send_q; apply Hwp. }
  eapply wp_mono; [eapply (qpush_ok link_list_push_back _ (dqueue d s) io w Q push_back_pushes)|]; try done.
  - destruct d; by rw /= Hs.
  - by destruct d.
  - intros [] w' [? ?]. by apply HR.
Qed.
Lemma wp_drequeue d s io w Q (R : () → world U → Prop) : core w Q → is_Some (w_sockets w !! s) →
  idle Q io → io_ok w io →
  (∀ w', only_queues w w' → core w' (upd Q (dqueue d s) (io :: Q (dqueue d s))) → R tt w') →
  wp (drequeue d (Some s) (Some io)) w R.
Proof.
  intros Hc [sk Hs] Hidle Hio HR.
  enough (wp (qpush link_list_push_front (dqueue d s) io) w R) as Hwp.
  { destruct d; rw /wp /= ?requeue_recv_q ?requeue_send_q; apply Hwp. }
  eapply wp_mono; [eapply (qpush_ok link_list_push_front _ (dqueue d s) io w Q push_front_pushes)|]; try done.
  - destruct d; by rw /= Hs.
  - by destruct d.
  - intros [] w' [? ?]. by apply HR.
Qed.
Lemma wp_dpop d s w Q (R : ptr → world U → Prop) : core w Q → is_Some (w_sockets w !! s) →
  (∀ w', only_queues w w' → core w' (upd Q (dqueue d s) (tail (Q (dqueue d s)))) →
     R (head (Q (dqueue d s))) w') →
  wp (dpop d (Some s)) w R.
Proof.
  intros Hc [sk Hs] HR.
  enough (wp (qpop (dqueue d s)) w R) as Hwp.
  { destruct d; rw /wp /= ?pop_recv_q ?pop_send_q; apply Hwp. }
  eapply wp_mono; [eapply qpop_ok; [done|]|].
  - destruct d; by rw /= Hs.
  - intros p w' (-> & ? & ?). by apply HR.
Qed.

Lemma set_flag_pending d v sk :
  pending_send (set_flag d v sk) = pending_send sk ∧ pending_recv (set_flag d v sk) = pending_recv sk.
Proof. by destruct d. Qed.
Lemma set_flag_rest d v sk : isactived (set_flag d v sk) = isactived sk ∧
  s_engine (set_flag d v sk) = s_engine sk ∧ OnRead (set_flag d v sk) = OnRead sk ∧
  OnWrite (set_flag d v sk) = OnWrite sk.
Proof. by destruct d. Qed.

(** What the socket [s] looks like after an operation that changed it with [f]
    and then changed queues only. *)
Lemma after_upd s f w w' t : only_queues (upd_sock s f w) w' →
  (∀ sk, w_sockets w !! t = Some sk → ∃ sk', w_sockets w' !! t = Some sk' ∧
     qless sk' = qless (if decide (t = s) then f sk else sk)) ∧
  (w_sockets w !! t = None → w_sockets w' !! t = None).
Proof.
  intros H. pose proof (oq_sockets _ _ H t) as Hl. simpl in Hl. rw lookup_alter in Hl. split.
  - intros sk Ht. destruct (decide (t = s)) as [->|Hne].
    + rw decide_True // Ht in Hl. destruct (w_sockets w' !! s) as [sk'|]; [|done]. exists sk'. split; [done|].
      by apply (inj Some) in Hl.
    + rw decide_False // Ht in Hl. destruct (w_sockets w' !! t) as [sk'|]; [|done]. exists sk'. split; [done|].
      by apply (inj Some) in Hl.
  - intros Ht. case_decide; subst; rw Ht in Hl; by destruct (w_sockets w' !! _).
Qed.

Lemma io_not_socket w x : (∀ y, is_Some (w_sockets w !! y) → w_ios w !! y = None) →
  io_ok w x → w_sockets w !! x = None.
Proof.
  intros Hap (r & a & arr & Hx & _). destruct (w_sockets w !! x) as [sk|] eqn:Hs; [|done].
  by rw (Hap x) in Hx.
Qed.

(** An inactive socket is in no queue. *)
Lemma inactive_idle s sk w Q : core w Q → activity w Q → w_sockets w !! s = Some sk →
  isactived sk = 0%Z → idle Q s.
Proof.
  intros Hc Ha Hs Hi [e|t|t] Hq.
  - destruct (ac_in _ _ Ha _ _ Hq) as (sk' & ? & ? & ?). by simplify_eq.
  - pose proof (co_elem _ _ Hc _ _ Hq) as Hio. by rw (io_not_socket w s (co_apart _ _ Hc) Hio) in Hs.
  - pose proof (co_elem _ _ Hc _ _ Hq) as Hio. by rw (io_not_socket w s (co_apart _ _ Hc) Hio) in Hs.
Qed.

(** Marking a socket and putting it in the queue of its engine. *)
Lemma activity_put e s sk w w' Q : activity w Q → w_sockets w !! s = Some sk → isactived sk = 0%Z →
  s_engine sk = Some e →
  only_queues (upd_sock s (set_isactived 1) w) w' →
  activity w' (upd Q (QAct e) (Q (QAct e) ++ [s])).
Proof.
  intros Ha Hs Hi He Hoq.
  assert (Hat : ∀ t skt', w_sockets w' !! t = Some skt' → ∃ skt, w_sockets w !! t = Some skt ∧
    qless skt' = qless (if decide (t = s) then set_isactived 1 skt else skt)).
  { intros t skt' Ht. destruct (after_upd _ _ _ _ t Hoq) as [H1 H2].
    destruct (w_sockets w !! t) as [skt|]; [|by rw H2 in Ht].
    destruct (H1 skt eq_refl) as (sk' & Hsk' & Hq). rw Ht in Hsk'. injection Hsk' as <-. by exists skt. }
  split.
  - intros e' x Hx. destruct (decide (x = s)) as [->|Hne].
    + destruct (proj1 (after_upd _ _ _ _ s Hoq) sk Hs) as (sk' & Hs' & Hq). rw decide_True // in Hq.
      injection Hq as. exists sk'. split_and!; [done|congruence|].
      assert (e' = e) as ->; [|congruence]. rw /upd in Hx. case_decide; [congruence|].
      destruct (ac_in _ _ Ha _ _ Hx) as (? & ? & _ & ?). simplify_eq.
    + assert (x ∈ Q (QAct e')) as Hx'.
      { rw /upd in Hx. case_decide; [|done]. simplify_eq. apply elem_of_app in Hx as [?|Hx]; [done|].
        by apply list_elem_of_singleton in Hx. }
      destruct (ac_in _ _ Ha _ _ Hx') as (skx & Hskx & ? & ?).
      destruct (proj1 (after_upd _ _ _ _ x Hoq) skx Hskx) as (sk' & Hs' & Hq). rw decide_False // in Hq.
      injection Hq as. exists sk'. split_and!; [done|congruence..].
  - intros x sk' (skx & Hx & Hq)%Hat Hact. case_decide as Hxs.
    + rw Hxs Hs in Hx. injection Hx as <-. injection Hq as. rw Hxs. exists e. split; [congruence|]. rw upd_eq. set_solver.
    + injection Hq as. destruct (ac_out _ _ Ha x skx Hx) as (e' & ? & Hin); [congruence|].
      exists e'. split; [congruence|]. rw /upd. case_decide; [simplify_eq; set_solver|done].
  - intros x sk' e' (skx & Hx & Hq)%Hat He'. apply (oq_engines _ _ ) with (e := e') in Hoq as Hen.
    destruct (ac_engine _ _ Ha x skx e' Hx) as [en Hen']; [case_decide; injection Hq as; congruence|].
    rw /= Hen' in Hen. by destruct (w_engines w' !! e').
  - intros x sk' e' (skx & Hx & Hq)%Hat He'.
    destruct (ac_handlers _ _ Ha x skx e' Hx) as [??]; case_decide; injection Hq as; try congruence;
      split; congruence.
Qed.

Lemma wp_activate e s sk w Q (R : () → world U → Prop) : core w Q → activity w Q →
  w_sockets w !! s = Some sk → isactived sk = 0%Z → s_engine sk = Some e →
  (∀ w', only_queues (upd_sock s (set_isactived 1) w) w' →
     core w' (upd Q (QAct e) (Q (QAct e) ++ [s])) → activity w' (upd Q (QAct e) (Q (QAct e) ++ [s])) →
     R tt w') →
  wp (activate (Some e) (Some s)) w R.
Proof.
  intros Hc Ha Hs Hi He HR. rw /activate. wp_step. apply wp_sock_set; [done|].
  assert (Hc1 : core (upd_sock s (set_isactived 1) w) Q) by by apply upd_sock_core.
  enough (wp (qpush link_list_push_back (QAct e) s) (upd_sock s (set_isactived 1) w) R) as Hwp.
  { rw /wp push_actived_q. apply Hwp. }
  destruct (ac_engine _ _ Ha _ _ _ Hs He) as [en Hen].
  eapply wp_mono; [eapply (qpush_ok link_list_push_back _ (QAct e) s _ Q push_back_pushes Hc1)|].
  - by rw /= Hen.
  - exact (inactive_idle s sk w Q Hc Ha Hs Hi).
  - by rw /= lookup_alter_eq Hs.
  - intros [] w' [Hoq Hc']. apply HR; [done..|]. exact (activity_put e s sk w w' Q Ha Hs Hi He Hoq).
Qed.

(** *** Posting a request *)

Lemma wp_GetSocketByHandle h s sk w (R : ptr → world U → Prop) :
  pool_at (socket_pool w) h = Some s → w_sockets w !! s = Some sk → s_status sk ≠ 0%Z →
  R (Some s) w → wp (GetSocketByHandle h) w R.
Proof.
  intros Hp Hs Hst HR. rw /GetSocketByHandle. wp_step. wp_step. rw Hp. wp_step.
  eapply wp_sock; [done|]. wp_step. by rw (proj2 (Z.eqb_neq _ _) Hst).
Qed.

(** The queues after an activation of the socket [s] that is [sk]. *)
Definition activated (Q : queues) (s : loc) (sk : socket) : queues :=
  match s_engine sk with
  | Some e => upd Q (QAct e) (Q (QAct e) ++ [s])
  | None => Q
  end.

(** The queues after a request is posted: it is the last of its queue, and the
    socket becomes the last of its engine's queue when the kernel has said that
    it is ready and it is not there yet. *)
Definition posted (Q : queues) (d : bool) (s : loc) (sk : socket) (io : loc) : queues :=
  let Q1 := upd Q (dqueue d s) (Q (dqueue d s) ++ [io]) in
  if bool_decide (s_engine sk ≠ NULL) && negb (flag d sk =? 0)%Z && (isactived sk =? 0)%Z
  then activated Q1 s sk else Q1.

Lemma dqueue_inj d d' s s' : dqueue d s = dqueue d' s' ↔ d = d' ∧ s = s'.
Proof. destruct d, d'; simpl; naive_solver. Qed.
Lemma dqueue_act d s e : dqueue d s ≠ QAct e.
Proof. by destruct d. Qed.
Lemma qless_flag d sk sk' : qless sk' = qless sk → flag d sk' = flag d sk.
Proof. intros Hq. injection Hq as. by destruct d. Qed.
Lemma activated_dqueue Q s sk d t : activated Q s sk (dqueue d t) = Q (dqueue d t).
Proof. rw /activated. destruct (s_engine sk); [|done]. by rw upd_ne; [apply dqueue_act|]. Qed.

(** The state of the sockets after an operation that only moved queues, or
    that activated [s] and then moved queues. *)
Lemma evolves_oq w w' Q Q' : only_queues w w' →
  (∀ t sk d, w_sockets w !! t = Some sk →
     s_engine sk = NULL ∨ isactived sk ≠ 0%Z ∨ flag d sk = 0%Z ∨ Q' (dqueue d t) = [] ∨
     Q' (dqueue d t) = Q (dqueue d t)) →
  evolves w Q w' Q'.
Proof.
  intros Hoq HQ. apply evolves_intro.
  - intros t Ht. pose proof (oq_sockets _ _ Hoq t) as H. rw Ht in H. by destruct (w_sockets w' !! t).
  - intros t sk Ht. destruct (oq_socket _ _ _ _ Hoq Ht) as (sk' & Ht' & Hq). exists sk'. split; [done|].
    assert (Hf : ∀ d, flag d sk' = flag d sk) by (intros; by apply qless_flag).
    injection Hq as. split; [congruence|].
    destruct (decide (s_engine sk = NULL)); [by left|]. right.
    destruct (decide (isactived sk = 0%Z)); [right|left; congruence]. split; [done|].
    intros d. rw (Hf d). destruct (HQ t sk d Ht) as [?|[?|[?|[?|?]]]]; [done|done|auto..].
  - intros e He. pose proof (oq_engines _ _ Hoq e) as H. by destruct (w_engines w' !! e), (w_engines w !! e).
Qed.

Lemma evolves_activate s sk w w1 w' Q Q' : w_sockets w !! s = Some sk → only_queues w w1 →
  only_queues (upd_sock s (set_isactived 1) w1) w' →
  (∀ t d, t ≠ s → Q' (dqueue d t) = Q (dqueue d t)) →
  evolves w Q w' Q'.
Proof.
  intros Hs Hoq1 Hoq HQ. apply evolves_intro.
  - intros t Ht. apply (after_upd _ _ _ _ t Hoq). pose proof (oq_sockets _ _ Hoq1 t) as H. rw Ht in H.
    by destruct (w_sockets w1 !! t).
  - intros t skt Ht. destruct (oq_socket _ _ _ _ Hoq1 Ht) as (sk1 & Ht1 & Hq1).
    destruct (proj1 (after_upd _ _ _ _ t Hoq) sk1 Ht1) as (sk' & Ht' & Hq).
    pose proof (λ d, qless_flag d _ _ Hq1) as Hf1. injection Hq1 as _ He1 Hi1 _ _ _ _ _ _.
    exists sk'. split; [done|]. case_decide as Hts.
    + injection Hq as _ He2 Hi2 _ _ _ _ _ _. split; [simpl in *; congruence|]. right. left. by rw Hi2.
    + pose proof (λ d, qless_flag d _ _ Hq) as Hf.
      injection Hq as _ He2 Hi2 _ _ _ _ _ _. split; [congruence|]. right.
      destruct (decide (isactived skt = 0%Z)); [right|left; congruence]. split; [done|].
      intros d. right. right. split; [by rw Hf|]. by apply HQ.
  - intros e He. pose proof (oq_engines _ _ Hoq e) as H. pose proof (oq_engines _ _ Hoq1 e) as H1. simpl in H.
    by destruct (w_engines w' !! e), (w_engines w !! e), (w_engines w1 !! e).
Qed.

Lemma WSA_post_ok d h s sk io w Q : core w Q → activity w Q →
  pool_at (socket_pool w) h = Some s → w_sockets w !! s = Some sk → s_status sk ≠ 0%Z →
  io_ok w io → idle Q io →
  wp (WSA K fuel d h (Some io) false) w (λ r w', r = (-1, EAGAIN)%Z ∧
    core w' (posted Q d s sk io) ∧ activity w' (posted Q d s sk io) ∧
    evolves w Q w' (posted Q d s sk io) ∧ w_mem w' = w_mem w).
Proof.
  intros Hc Ha Hp Hs Hst Hio Hidle. rw /WSA. wp_step. wp_step; [done|]. wp_step.
  eapply wp_GetSocketByHandle; [done..|]. cbn match. wp_step.
  eapply wp_dpush; [done|by rw Hs|done..|]. intros w1 Hoq1 Hc1. set (Q1 := upd Q _ _) in *.
  destruct (oq_socket _ _ _ _ Hoq1 Hs) as (sk1 & Hs1 & Hq1).
  wp_step. eapply wp_sock; [done|]. rw (qless_flag d _ _ Hq1).
  injection Hq1 as _ He1 Hi1 _ _ _ _ _ _. rw He1 Hi1 /posted. fold Q1.
  assert (Ha1 : activity w1 Q1).
  { eapply activity_oq; [done| |done]. intros e. rw /Q1 upd_ne //. by intros ?%eq_sym%dqueue_act. }
  assert (HQ1 : ∀ d' t, (d', t) ≠ (d, s) → Q1 (dqueue d' t) = Q (dqueue d' t)).
  { intros d' t Hne. rw /Q1 upd_ne //. intros [-> ->]%dqueue_inj. by apply Hne. }
  assert (Hstay : s_engine sk = NULL ∨ flag d sk = 0%Z ∨ isactived sk ≠ 0%Z → evolves w Q w1 Q1).
  { intros Hor. apply evolves_oq; [done|]. intros t skt d' Ht.
    destruct (decide ((d', t) = (d, s))) as [[= -> ->]|]; [|auto 6].
    assert (skt = sk) as -> by congruence. naive_solver. }
  case_bool_decide as He; simpl.
  2:{ do 3 wp_step. split_and!; try done; [|by rw (oq_mem _ _ Hoq1)].
      apply Hstay. left. by destruct (s_engine sk). }
  destruct (Z.eqb_spec (flag d sk) 0) as [Hf|Hf]; simpl.
  { do 3 wp_step. split_and!; try done; [auto|by rw (oq_mem _ _ Hoq1)]. }
  destruct (Z.eqb_spec (isactived sk) 0) as [Hi|Hi]; simpl.
  2:{ do 3 wp_step. split_and!; try done; [auto|by rw (oq_mem _ _ Hoq1)]. }
  destruct (s_engine sk) as [e|] eqn:Hse; [|done]. wp_step.
  eapply wp_activate; [done..|congruence|done|]. intros w2 Hoq2 Hc2 Ha2. wp_step.
  rw /activated Hse. split_and!; try done.
  - eapply evolves_activate; [exact Hs|done|done|]. intros t d' Hne.
    rw upd_ne; [apply dqueue_act|]. apply HQ1. by intros [= _ ->].
  - by rw (oq_mem _ _ Hoq2) (oq_mem _ _ Hoq1).
Qed.

(** *** Kernel events *)

Lemma upd_sock_comp s f g w : upd_sock s g (upd_sock s f w) = upd_sock s (g ∘ f) w.
Proof. rw /upd_sock /=. f_equal. apply map_eq. intros i. destruct (decide (i = s)) as [->|]; [rw !lookup_alter_eq; by destruct (_ !! _)|by rw !lookup_alter_ne]. Qed.

Lemma evolves_upd s f w w' Q Q' : only_queues (upd_sock s f w) w' →
  (∀ sk, s_engine (f sk) = s_engine sk) →
  (∀ t d, t ≠ s → Q' (dqueue d t) = Q (dqueue d t)) →
  (∀ sk, w_sockets w !! s = Some sk → isactived (f sk) ≠ 0%Z ∨ isactived sk = 0%Z ∧
     ∀ d, flag d (f sk) = 0%Z ∨ Q' (dqueue d s) = [] ∨
       flag d (f sk) = flag d sk ∧ Q' (dqueue d s) = Q (dqueue d s)) →
  evolves w Q w' Q'.
Proof.
  intros Hoq Hf HQ Hs. apply evolves_intro.
  - intros t Ht. by apply (after_upd _ _ _ _ t Hoq).
  - intros t sk Ht. destruct (proj1 (after_upd _ _ _ _ t Hoq) sk Ht) as (sk' & Ht' & Hq).
    exists sk'. split; [done|]. pose proof (λ d, qless_flag d _ _ Hq) as Hfl.
    case_decide as Hts.
    + rw Hts in Ht *. injection Hq as _ He Hi _ _ _ _ _ _. rw He Hf Hi. split; [done|]. right.
      setoid_rewrite Hfl. by apply Hs.
    + injection Hq as _ He Hi _ _ _ _ _ _. rw He Hi. split; [done|]. right.
      destruct (decide (isactived sk = 0%Z)); [right|by left]. split; [done|].
      intros d. right. right. rw Hfl. split; [done|]. by apply HQ.
  - intros e He. pose proof (oq_engines _ _ Hoq e) as H. simpl in H.
    by destruct (w_engines w' !! e), (w_engines w !! e).
Qed.

(** The queues after the kernel has said that [s] is ready. *)
Definition woken (Q : queues) (d : bool) (s : loc) (sk : socket) : queues :=
  if (isactived sk =? 0)%Z && negb (bool_decide (Q (dqueue d s) = [])) then activated Q s sk else Q.

Lemma pending_rep d s sk w Q : core w Q → w_sockets w !! s = Some sk →
  ll_rep (w_nexts w) (pending d sk) (Q (dqueue d s)).
Proof. intros Hc Hs. apply (co_rep _ _ Hc). destruct d; by rw /= Hs. Qed.

Lemma on_active_ok d s sk w Q : core w Q → activity w Q →
  w_sockets w !! s = Some sk → s_engine sk ≠ NULL →
  wp (on_active d (Some s)) w (λ _ w', core w' (woken Q d s sk) ∧ activity w' (woken Q d s sk) ∧
    evolves w Q w' (woken Q d s sk) ∧ w_mem w' = w_mem w).
Proof.
  intros Hc Ha Hs He. rw /on_active. wp_step. apply wp_sock_set; [by rw Hs|]. wp_step.
  set (w1 := upd_sock s _ w).
  assert (Hs1 : w_sockets w1 !! s = Some (set_flag d 1 sk)) by by apply upd_sock_eq.
  assert (Hc1 : core w1 Q) by (apply upd_sock_core; [apply set_flag_pending|done]).
  assert (Ha1 : activity w1 Q) by (apply upd_sock_activity; [apply set_flag_rest|done]).
  eapply wp_sock; [done|]. destruct (set_flag_rest d 1 sk) as (-> & -> & _).
  rw (_ : pending d (set_flag d 1 sk) = pending d sk); [by destruct d|].
  rw (ll_rep_is_empty _ _ _ (pending_rep d s sk w Q Hc Hs)) /woken.
  assert (Hstay : isactived sk ≠ 0%Z ∨ Q (dqueue d s) = [] → evolves w Q w1 Q).
  { intros Hor. eapply (evolves_upd s (set_flag d 1)); [apply only_queues_refl| |done|].
    - intros. apply set_flag_rest.
    - intros sk0 Hsk0. assert (sk0 = sk) as -> by congruence.
      destruct (set_flag_rest d 1 sk) as (-> & _ & _).
      destruct (decide (isactived sk = 0%Z)) as [Hi|]; [|by left]. right. split; [done|].
      destruct Hor as [|Hor]; [done|]. intros d'. destruct (decide (d' = d)) as [->|Hd]; [auto|].
      right. right. split; [|done]. by destruct d, d'. }
  destruct (Z.eqb_spec (isactived sk) 0) as [Hi|Hi]; simpl; [|wp_step; split_and!; auto].
  case_bool_decide as HQ; simpl; [wp_step; split_and!; auto|].
  destruct (s_engine sk) as [e|] eqn:Hse; [|done].
  eapply (wp_activate e s (set_flag d 1 sk)); [done..|by destruct d|by destruct d|].
  intros w2 Hoq2 Hc2 Ha2. rw /activated Hse. split_and!; try done.
  - rw /w1 upd_sock_comp in Hoq2. eapply (evolves_upd s _ w); [exact Hoq2| | |].
    + intros. simpl. apply set_flag_rest.
    + intros t d' ?. rw upd_ne //. apply dqueue_act.
    + intros sk0 _. by left.
  - by rw (oq_mem _ _ Hoq2).
Qed.

(** *** System calls and callbacks *)

(** A system call returns within the fuel of the retries and changes only the
    memory of the process. *)
Definition kernel_returns : Prop := ∀ d fd iov w, ∃ r errno u,
  RETRY fuel (dsyscall K d fd iov) w = Ok ((r, errno), set_mem u w).

(** A callback keeps the queues in order and leaves no request unserved. *)
Definition good_call : Prop := ∀ f bytes io w Q, core w Q → activity w Q → io_ok w io → idle Q io →
  wp (call f bytes (Some io)) w (λ _ w', ∃ Q', core w' Q' ∧ activity w' Q' ∧ evolves w Q w' Q').

(** The parts of the state other than memory. *)
Definition outer w := (w_sockets w, w_engines w, w_nexts w, w_ios w, w_iovs w, socket_pool w, engine_pool w).

Lemma outer_core w w' Q : outer w' = outer w → core w Q → core w' Q.
Proof.
  intros [= Es Ee En Ei Ev _ _] [A B C D E F G]. split; try done.
  - intros [?|?|?] l; simpl; rw ?Ee ?Es En; [apply (A (QAct _))|apply (A (QRecv _))|apply (A (QSend _))].
  - intros [?|?|?]; simpl; rw ?Ee ?Es; [apply (B (QAct _))|apply (B (QRecv _))|apply (B (QSend _))].
  - intros [?|?|?] x; rw /= /io_ok ?Ei ?Es ?Ev; [apply (D (QAct _))|apply (D (QRecv _))|apply (D (QSend _))].
  - rw Es Ei En. apply E.
  - rw Es Ei. apply F.
  - by rw En.
Qed.
Lemma outer_activity w w' Q : outer w' = outer w → activity w Q → activity w' Q.
Proof. intros [= Es Ee _ _ _ _ _] [A B C D]. split; rw ?Es ?Ee; done. Qed.
Lemma outer_only_queues w w' w2 : outer w' = outer w → only_queues w' w2 →
  ∀ t, (∀ sk, w_sockets w !! t = Some sk → ∃ sk', w_sockets w2 !! t = Some sk' ∧ qless sk' = qless sk).
Proof. intros [= Es _ _ _ _ _ _] Hoq t sk Ht. rw -Es in Ht. by eapply oq_socket. Qed.
Lemma outer_evolves w w' Q : outer w' = outer w → evolves w Q w' Q.
Proof.
  intros [= Es Ee _ _ _ _ _]. apply evolves_intro; rw ?Es ?Ee; [done| |done].
  intros t sk Ht. exists sk. split; [done|]. split; [done|]. right.
  destruct (decide (isactived sk = 0%Z)); auto 10.
Qed.

Lemma wp_io_vectors io w (R : list iovec → world U → Prop) : io_ok w io →
  (∀ iov, R iov w) → wp (io_vectors (Some io)) w R.
Proof.
  intros (r & a & arr & Hr & Ha & Harr & Hlen) HR. rw /io_vectors /on_ios /on_iovs.
  wp_step. wp_step. wp_step. rw Ha. wp_step. wp_step. wp_step.
  rw (proj2 (Nat.leb_le _ _) Hlen). wp_step. by destruct w.
Qed.

Lemma wp_raw d s io sk w Q (R : Z * Z * Z → world U → Prop) : kernel_returns → core w Q →
  w_sockets w !! s = Some sk → io_ok w io → idle Q io →
  (∀ w1 ret bytes err, outer w1 = outer w → (0 ≤ ret ∨ err ≠ EAGAIN)%Z → R (ret, bytes, err) w1) →
  (∀ w1 w2 bytes, outer w1 = outer w → only_queues (upd_sock s (set_flag d 0) w1) w2 →
     core w2 (upd Q (dqueue d s) (io :: Q (dqueue d s))) → R ((-1)%Z, bytes, EAGAIN) w2) →
  wp (raw K fuel d (Some s) (Some io)) w R.
Proof.
  intros HK Hc Hs Hio Hidle HR1 HR2. rw /raw. wp_step.
  assert (wp (if d then modify count_recv else mret tt) w (λ _ w1, outer w1 = outer w)) as Hw1.
  { by destruct d. }
  eapply wp_mono; [exact Hw1|]. intros [] w1 Hw. pose proof Hw as [= Es Ee En Ei Ev _ _].
  wp_step. eapply wp_sock; [by rw Es|]. wp_step.
  apply wp_io_vectors; [by rw /io_ok Ei Ev|]. intros iov. wp_step.
  destruct (HK d (s_fd sk) iov w1) as (r & errno & u & Hr). eapply ok_wp; [exact Hr|]. cbn beta match.
  assert (Hw2 : outer (set_mem u w1) = outer w) by done.
  destruct (Z.ltb_spec (i32 r) 0) as [Hneg|Hpos].
  2:{ wp_step. apply HR1; [done|]. left. destruct (Z.eqb_spec (i32 r) 0); lia. }
  wp_step. destruct (Z.eqb_spec errno EAGAIN) as [->|Herr].
  2:{ do 2 wp_step. apply HR1; [done|]. by right. }
  wp_step. apply wp_sock_set; [by rw /= Es Hs|].
  eapply (wp_drequeue d s io).
  - apply upd_sock_core; [apply set_flag_pending|]. by eapply outer_core.
  - rw (upd_sock_eq _ _ _ sk); [by rw /= Es|done].
  - done.
  - by rw /io_ok /= Ei Ev.
  - intros w2 Hoq2 Hc2. wp_step. by eapply HR2.
Qed.

Definition upd_io (io : loc) (f : st_io → st_io) w : world U :=
  World (w_sockets w) (w_engines w) (w_nexts w) (alter f io (w_ios w)) (w_iovs w) (socket_pool w)
    (engine_pool w) (recv_count w) (w_mem w).

Lemma wp_set_err io err w (R : () → world U → Prop) : io_ok w io →
  R tt (upd_io io (set_err err) w) → wp (on_ios (hmodify (Some io) (set_err err))) w R.
Proof.
  intros (r & a & arr & Hr & _) HR. rw /on_ios. wp_step. eapply wp_hmodify; [done|].
  by rw /upd_io (alter_is_insert _ _ _ _ Hr) in HR.
Qed.

Lemma upd_io_ok io err w x : io_ok w x → io_ok (upd_io io (set_err err) w) x.
Proof.
  intros (r & a & arr & Hr & Ha & Harr & Hl). destruct (decide (x = io)) as [->|Hne].
  - exists (set_err err r), a, arr. by rw /= lookup_alter_eq Hr.
  - exists r, a, arr. by rw /= lookup_alter_ne.
Qed.

Lemma upd_io_core io err w Q : core w Q → core (upd_io io (set_err err) w) Q.
Proof.
  intros [A B C D E F G].
  assert (Hd : ∀ x, is_Some (w_ios (upd_io io (set_err err) w) !! x) ↔ is_Some (w_ios w !! x)).
  { intros x. simpl. rw lookup_alter. case_decide; [|done]. subst. by destruct (_ !! _). }
  split; try done.
  - intros [e|t|t] x Hx; [by apply (D (QAct e))|apply upd_io_ok; by eapply (D (QRecv t))|
      apply upd_io_ok; by eapply (D (QSend t))].
  - intros x. rw Hd. apply E.
  - intros x Hx. apply F in Hx. simpl. rw lookup_alter. case_decide; [|done]. subst. by rw Hx.
Qed.
Lemma upd_io_activity io err w Q : activity w Q → activity (upd_io io (set_err err) w) Q.
Proof. intros [A B C D]. by split. Qed.
Lemma upd_io_evolves io err w Q : evolves w Q (upd_io io (set_err err) w) Q.
Proof. split; [done|by eauto|done]. Qed.

(** *** Serving a socket *)

(** What remains of [transfer] after the system call. *)
Definition finish (d : bool) (s io : ptr) (ret bytes err : Z) : M (world U) Z :=
  on_ios (hmodify io (set_err err));;
  (if (0 <=? ret)%Z || negb (err =? EAGAIN)%Z then
     s' ← sock s; callback call (handler d s') bytes io
   else mret tt);;
  mret ret.

(** The result of serving the direction [d] of [s]. *)
Definition served d s w Q w' : Prop := ∃ Q', core w' Q' ∧ activity w' Q' ∧ evolves w Q w' Q' ∧
  ¬ unserved w' Q' d s.

Lemma served_trans d s w Q w1 Q1 w' : evolves w Q w1 Q1 → served d s w1 Q1 w' → served d s w Q w'.
Proof. intros He (Q' & ? & ? & He' & ?). exists Q'. split_and!; try done. by eapply evolves_trans. Qed.

(** The request has been served, or has failed: the callback is called. *)
Lemma finish_callback d s sk io w Q ret bytes err : good_call → core w Q → activity w Q →
  w_sockets w !! s = Some sk → s_engine sk ≠ NULL → ¬ unserved w Q d s → io_ok w io → idle Q io →
  (0 ≤ ret ∨ err ≠ EAGAIN)%Z →
  wp (finish d (Some s) (Some io) ret bytes err) w (λ _ w', served d s w Q w').
Proof.
  intros Hcall Hc Ha Hs He HQ Hio Hidle Hor. rw /finish. wp_step. apply wp_set_err; [done|].
  assert ((0 <=? ret)%Z || negb (err =? EAGAIN)%Z = true) as ->.
  { destruct (Z.leb_spec 0 ret); [done|]. destruct (Z.eqb_spec err EAGAIN); [lia|done]. }
  do 2 wp_step. eapply wp_sock; [done|].
  assert (is_Some (handler d sk)) as [f Hh].
  { destruct (s_engine sk) as [e|] eqn:Hen; [|congruence].
    destruct (ac_handlers _ _ Ha s sk e Hs Hen). by destruct d. }
  rw Hh /callback. eapply wp_mono;
    [eapply Hcall; [by apply upd_io_core|by apply upd_io_activity|by apply upd_io_ok|done]|]. cbv beta.
  intros [] w4 (Q4 & Hc4 & Ha4 & He4). wp_step. exists Q4. split_and!; [done..| |].
  - eapply evolves_trans; [by apply upd_io_evolves|exact He4].
  - intros Hu. apply HQ. by destruct (ev_unserved _ _ _ _ He4 _ _ Hu).
Qed.

(** The kernel was not ready: the request is first in its queue again. *)
Lemma finish_again d s sk io w w' Q bytes : core w' (upd Q (dqueue d s) (io :: Q (dqueue d s))) → activity w Q →
  w_sockets w !! s = Some sk → io_ok w io → only_queues (upd_sock s (set_flag d 0) w) w' →
  wp (finish d (Some s) (Some io) (-1)%Z bytes EAGAIN) w' (λ _ w2, served d s w Q w2).
Proof.
  intros Hc' Ha Hs Hio Hoq. set (Q' := upd Q _ _) in *. rw /finish. wp_step.
  destruct (proj1 (after_upd s (set_flag d 0) w w' s Hoq) sk Hs) as (sk' & Hs' & Hq).
  rw decide_True // in Hq.
  apply wp_set_err; [by rw /io_ok (oq_ios _ _ Hoq) (oq_iovs _ _ Hoq)|].
  wp_step. apply wp_ret. wp_step. exists Q'. split_and!.
  - by apply upd_io_core.
  - apply upd_io_activity. eapply activity_oq; [exact Hoq| |].
    + intros e. rw /Q' upd_ne //. by intros ?%eq_sym%dqueue_act.
    + apply upd_sock_activity; [apply set_flag_rest|done].
  - eapply evolves_trans; [|apply upd_io_evolves].
    eapply (evolves_upd s (set_flag d 0)); [done|intros; apply set_flag_rest| |].
    + intros t d' Hne. rw /Q' upd_ne //. by intros [_ ?]%dqueue_inj.
    + intros sk2 _. destruct (set_flag_rest d 0 sk2) as (-> & _ & _).
      destruct (decide (isactived sk2 = 0%Z)); [right|by left]. split; [done|]. intros d'.
      destruct (decide (d' = d)) as [->|Hd]; [left; by destruct d|]. right. right. split; [by destruct d, d'|].
      rw /Q' upd_ne //. by intros [? _]%dqueue_inj.
  - intros (sk2 & Hs2 & _ & _ & Hfl & _). simpl in Hs2. rw Hs' in Hs2. injection Hs2 as <-. apply Hfl.
    rw (qless_flag d _ _ Hq). by destruct d.
Qed.

(** One direction of the service of a socket that has at most one request in
    that direction, unless it is active: no request is left unserved. *)
Lemma transfer_ok d s sk w Q : kernel_returns → good_call → core w Q → activity w Q →
  w_sockets w !! s = Some sk → s_engine sk ≠ NULL → (unserved w Q d s → length (Q (dqueue d s)) ≤ 1) →
  wp (transfer K call fuel d (Some s)) w (λ _ w', served d s w Q w').
Proof.
  intros HK Hcall Hc Ha Hs He Hlen. rw /transfer. wp_step. wp_step; [done|]. wp_step.
  eapply wp_sock; [done|]. destruct (Z.eqb_spec (flag d sk) 0) as [Hf|Hf].
  { wp_step. exists Q. split_and!; [done..|apply evolves_refl|].
    intros (sk' & Hs' & _ & _ & Hfl & _). by simplify_eq. }
  wp_step. eapply wp_dpop; [done|by rw Hs|]. intros w1 Hoq1.
  set (Q1 := upd Q _ _). intros Hc1.
  assert (HQ1 : Q1 (dqueue d s) = tail (Q (dqueue d s))) by apply upd_eq.
  assert (HQ1' : ∀ q, q ≠ dqueue d s → Q1 q = Q q) by (intros; by apply upd_ne).
  clearbody Q1.
  assert (Ha1 : activity w1 Q1).
  { eapply activity_oq; [done| |done]. intros e. apply HQ1'. by intros ?%eq_sym%dqueue_act. }
  destruct (oq_socket _ _ _ _ Hoq1 Hs) as (sk1 & Hs1 & Hq1).
  assert (Hcase : unserved w Q d s ∧ tail (Q (dqueue d s)) = [] ∨
    isactived sk ≠ 0%Z ∨ Q (dqueue d s) = []).
  { destruct (decide (isactived sk = 0%Z)); [|auto]. destruct (decide (Q (dqueue d s) = [])); [auto|].
    left. assert (unserved w Q d s) as Hu by by exists sk. split; [done|]. specialize (Hlen Hu).
    destruct (Q (dqueue d s)) as [|? [|]]; simpl in *; [done..|lia]. }
  assert (He1 : evolves w Q w1 Q1).
  { apply evolves_oq; [done|]. intros t skt d' Ht. right.
    destruct (decide (dqueue d' t = dqueue d s)) as [Hd|Hd]; [|do 3 right; by apply HQ1'].
    rw Hd HQ1. apply dqueue_inj in Hd as [-> ->]. assert (skt = sk) as -> by congruence.
    destruct Hcase as [[_ ->]|[?| ->]]; auto. }
  assert (Hu1 : ¬ unserved w1 Q1 d s).
  { intros (sk' & Hs' & _ & Hi' & _ & Hne). rw HQ1 in Hne. rw Hs1 in Hs'. injection Hs' as <-.
    injection Hq1 as _ _ Hi _ _ _ _ _ _. destruct Hcase as [[_ ?]|[?|Hnil]]; [done|congruence|].
    by rw Hnil in Hne. }
  destruct (Q (dqueue d s)) as [|io rest] eqn:HQ; simpl.
  { wp_step. by exists Q1. }
  assert (Hidle : idle Q1 io).
  { intros q Hin. destruct (decide (q = dqueue d s)) as [->|Hne].
    - pose proof (ll_rep_NoDup _ _ _ (pending_rep d s sk w Q Hc Hs)) as Hnd. rw HQ in Hnd. rw HQ1 in Hin.
      by apply NoDup_cons in Hnd as [? _].
    - rw HQ1' // in Hin. apply Hne. eapply (co_one _ _ Hc); [done|]. rw HQ. by left. }
  assert (Hio : io_ok w1 io).
  { eapply oq_io_ok; [done|]. pose proof (co_elem _ _ Hc (dqueue d s) io) as H. rw HQ in H.
    destruct d; apply H; by left. }
  wp_step. eapply (wp_raw d s io sk1 w1 Q1); [done..| |].
  - intros w2 ret bytes err Hw2 Hor. cbn beta match.
    assert (He2 : s_engine sk1 ≠ NULL) by (injection Hq1 as _ -> _ _ _ _ _ _ _; done).
    eapply wp_mono; [eapply (finish_callback d s sk1 io w2 Q1)|]; try done.
    + by eapply outer_core.
    + by eapply outer_activity.
    + by injection Hw2 as -> _ _ _ _ _ _.
    + intros (sk' & Hs' & Hu'). apply Hu1. exists sk'. split; [|done]. by injection Hw2 as <- _ _ _ _ _ _.
    + rw /io_ok. by injection Hw2 as _ _ _ -> -> _ _.
    + intros ? w3 H3. eapply served_trans; [exact He1|].
      eapply served_trans; [by apply (outer_evolves w1 w2)|done].
  - intros w2 w3 bytes Hw2 Hoq3 Hc3. cbn beta match.
    eapply wp_mono; [eapply (finish_again d s sk1 io w2 w3 Q1)|]; try done.
    + by eapply outer_activity.
    + by injection Hw2 as -> _ _ _ _ _ _.
    + rw /io_ok. by injection Hw2 as _ _ _ -> -> _ _.
    + intros ? w4 H4. eapply served_trans; [exact He1|].
      eapply served_trans; [by apply (outer_evolves w1 w2)|done].
Qed.

Definition all_served w Q : Prop := ∀ d s, ¬ unserved w Q d s.

Lemma evolves_all w Q w' Q' : evolves w Q w' Q' → all_served w Q → all_served w' Q'.
Proof. intros He Ha d s Hu. apply (Ha d s). by apply (ev_unserved _ _ _ _ He). Qed.

(** Serving both directions of a socket: no request of [s] is left unserved,
    and no other one is forgotten. *)
Lemma Process_ok s sk w Q : kernel_returns → good_call → core w Q → activity w Q →
  w_sockets w !! s = Some sk → s_engine sk ≠ NULL → (∀ d, length (Q (dqueue d s)) ≤ 1) →
  (∀ d t, t ≠ s → ¬ unserved w Q d t) →
  wp (Process K call fuel (Some s)) w (λ _ w', ∃ Q' sk', core w' Q' ∧ activity w' Q' ∧ all_served w' Q' ∧
    w_sockets w' !! s = Some sk' ∧ s_engine sk' = s_engine sk ∧
    (∀ e, is_Some (w_engines w !! e) → is_Some (w_engines w' !! e))).
Proof.
  intros HK Hcall Hc Ha Hs He Hlen Hother. rw /Process _recv_dir _send_dir. wp_step.
  eapply wp_mono; [by eapply (transfer_ok true)|]. intros re w1 (Q1 & Hc1 & Ha1 & He1 & Hu1). wp_step.
  destruct (ev_sockets _ _ _ _ He1 _ _ Hs) as (sk1 & Hs1 & Heng1).
  assert (Hl : unserved w1 Q1 false s → length (Q1 (dqueue false s)) ≤ 1).
  { intros Hu. destruct (ev_unserved _ _ _ _ He1 _ _ Hu). by etrans. }
  eapply wp_mono; [eapply (transfer_ok false s sk1 w1 Q1); try done; congruence|].
  intros se w2 (Q2 & Hc2 & Ha2 & He2 & Hu2). wp_step.
  destruct (ev_sockets _ _ _ _ He2 _ _ Hs1) as (sk2 & Hs2 & Heng2).
  exists Q2, sk2. split_and!; try done; [|congruence|].
  - intros d t Hu. destruct (ev_unserved _ _ _ _ He2 _ _ Hu) as [Hu' _].
    destruct (decide (t = s)) as [->|Hne].
    + destruct d; [done|]. by destruct Hu2.
    + destruct (ev_unserved _ _ _ _ He1 _ _ Hu') as [Hu'' _]. by eapply Hother.
  - intros e ?. by apply (ev_engines _ _ _ _ He2), (ev_engines _ _ _ _ He1).
Qed.

Lemma wp_pop_actived n w Q (R : ptr → world U → Prop) : core w Q → is_Some (w_engines w !! n) →
  (∀ w', only_queues w w' → core w' (upd Q (QAct n) (tail (Q (QAct n)))) → R (head (Q (QAct n))) w') →
  wp (pop_actived (Some n)) w R.
Proof.
  intros Hc [en Hn] HR. enough (wp (qpop (QAct n)) w R) as Hwp by (rw /wp pop_actived_q; apply Hwp).
  eapply wp_mono; [eapply (qpop_ok (QAct n) w Q); [done|rw /= Hn; by eexists]|]. intros p w' (-> & ? & ?). by apply HR.
Qed.

Lemma wp_eng n en w (R : engine → world U → Prop) : w_engines w !! n = Some en → R en w →
  wp (eng (Some n)) w R.
Proof. intros Hs HR. rw /eng /on_engines. wp_step. wp_step. by destruct w. Qed.

Lemma upd_sock_lookup s f w x :
  w_sockets (upd_sock s f w) !! x = (λ sk, if decide (x = s) then f sk else sk) <$> w_sockets w !! x.
Proof.
  rw /=. destruct (decide (x = s)) as [->|]; [by rw lookup_alter_eq|rw lookup_alter_ne //].
  by destruct (_ !! x).
Qed.

(** A socket that has been popped and whose flag has been cleared. *)
Lemma activity_take n s rest w w' Q : core w Q → activity w Q → Q (QAct n) = s :: rest →
  only_queues w w' → core w' (upd Q (QAct n) rest) →
  activity (upd_sock s (set_isactived 0) w') (upd Q (QAct n) rest).
Proof.
  intros Hc Ha HQ Hoq Hc'.
  assert (s ∉ rest) as Hnin.
  { assert (∃ l, queue_of w (QAct n) = Some l) as [l Hl].
    { destruct (queue_of w (QAct n)) eqn:Hq; [eauto|]. by rw (co_none _ _ Hc _ Hq) in HQ. }
    pose proof (ll_rep_NoDup _ _ _ (co_rep _ _ Hc _ _ Hl)) as Hnd. rw HQ in Hnd.
    by apply NoDup_cons in Hnd as [? _]. }
  assert (Hin : ∀ e x, x ∈ upd Q (QAct n) rest (QAct e) → x ∈ Q (QAct e) ∧ x ≠ s).
  { intros e x. rw /upd. case_decide as Hen; intros Hx.
    - injection Hen as ->. rw HQ. split; [by right|]. by intros ->.
    - split; [done|]. intros ->. apply Hen. eapply (co_one _ _ Hc); [done|]. rw HQ. by left. }
  split.
  - intros e x [Hx Hne]%Hin. destruct (ac_in _ _ Ha _ _ Hx) as (sk & Hs & ? & ?).
    destruct (oq_socket _ _ _ _ Hoq Hs) as (sk' & Hs' & Hq). injection Hq as.
    exists sk'. rw upd_sock_ne //. split_and!; [done|congruence..].
  - intros x sk' Hx Hact. destruct (decide (x = s)) as [->|Hne].
    + destruct (w_sockets w' !! s) as [sk0|] eqn:Hs0; [|by rw /= lookup_alter_eq Hs0 in Hx].
      rw (upd_sock_eq _ _ _ _ Hs0) in Hx. by injection Hx as <-.
    + rw upd_sock_ne // in Hx. destruct (oq_socket' _ _ _ _ Hoq Hx) as (sk & Hs & Hq). injection Hq as.
      destruct (ac_out _ _ Ha x sk Hs) as (e & ? & Hxe); [congruence|]. exists e. split; [congruence|].
      rw /upd. case_decide as Hen; [|done]. injection Hen as ->. rw HQ in Hxe.
      by apply elem_of_cons in Hxe as [->|].
  - intros x sk' e Hx He. rw upd_sock_lookup in Hx.
    destruct (w_sockets w' !! x) as [skx|] eqn:Hx'; [|done].
    destruct (oq_socket' _ _ _ _ Hoq Hx') as (sk & Hs & Hq). injection Hq as.
    destruct (ac_engine _ _ Ha x sk e Hs) as [en Hen].
    { injection Hx as <-. case_decide; simpl in *; congruence. }
    pose proof (oq_engines _ _ Hoq e) as Hee. rw Hen in Hee. simpl. by destruct (w_engines w' !! e).
  - intros x sk' e Hx He. rw upd_sock_lookup in Hx.
    destruct (w_sockets w' !! x) as [skx|] eqn:Hx'; [|done].
    destruct (oq_socket' _ _ _ _ Hoq Hx') as (sk & Hs & Hq). injection Hq as.
    destruct (ac_handlers _ _ Ha x sk e Hs); injection Hx as <-; case_decide; simpl in *;
      try split; congruence.
Qed.

(** One iteration of the engine's inner loop. *)
Lemma serve_body_ok n s rest w Q : kernel_returns → good_call → core w Q → activity w Q → all_served w Q →
  Q (QAct n) = s :: rest → (∀ d, length (Q (dqueue d s)) ≤ 1) →
  wp (serve_body K call fuel (Some n) tt) w (λ r w', r = inl tt ∧
    ∃ Q', core w' Q' ∧ activity w' Q' ∧ all_served w' Q').
Proof.
  intros HK Hcall Hc Ha Hall HQ Hlen.
  destruct (ac_in _ _ Ha n s) as (sk & Hs & Hact & Heng); [rw HQ; by left|].
  destruct (ac_engine _ _ Ha _ _ _ Hs Heng) as [en Hen].
  rw /serve_body. wp_step. eapply wp_eng; [done|].
  rw (ll_rep_is_empty (w_nexts w) _ (s :: rest)); [rw -HQ; apply (co_rep _ _ Hc); by rw /= Hen|].
  rw bool_decide_false //. wp_step.
  eapply (wp_pop_actived n w Q); [done|by rw Hen|]. rw HQ. simpl. intros w1 Hoq1 Hc1.
  wp_step. apply wp_sock_set; [by apply (oq_dom _ _ _ Hoq1); rw /= Hs|].
  set (Q1 := upd Q _ _) in *. set (w2 := upd_sock s _ w1).
  assert (Hc2 : core w2 Q1) by by apply upd_sock_core.
  assert (Ha2 : activity w2 Q1) by by eapply activity_take.
  destruct (oq_socket _ _ _ _ Hoq1 Hs) as (sk1 & Hs1 & Hq1).
  assert (Hs2 : w_sockets w2 !! s = Some (set_isactived 0 sk1)) by by apply upd_sock_eq.
  assert (Heng1 : s_engine sk1 = Some n) by (injection Hq1 as _ -> _ _ _ _ _ _ _; done).
  assert (Hqd : ∀ d t, Q1 (dqueue d t) = Q (dqueue d t)) by (intros; apply upd_ne, dqueue_act).
  wp_step. eapply wp_mono; [eapply (Process_ok s _ w2 Q1 HK Hcall Hc2 Ha2 Hs2)|].
  - by rw /= Heng1.
  - intros d. by rw Hqd.
  - intros d t Hne (skt & Ht & H1 & H2 & H3 & H4). rw /w2 upd_sock_ne // in Ht. rw Hqd in H4.
    destruct (oq_socket' _ _ _ _ Hoq1 Ht) as (skt' & Ht' & Hq). pose proof (qless_flag d _ _ Hq) as Hf.
    injection Hq as. apply (Hall d t). exists skt'. split_and!; [done|congruence..|done].
  - intros again w3 (Q3 & sk3 & Hc3 & Ha3 & Hall3 & Hs3 & Heng3 & Hengs). wp_step.
    eapply wp_sock; [done|]. wp_step.
    destruct (again && (isactived sk3 =? 0)%Z) eqn:Hag; [|do 2 wp_step; split; [done|by exists Q3]].
    apply andb_prop in Hag as [_ Hi%Z.eqb_eq].
    eapply (wp_activate n s sk3 w3 Q3); [done..|by rw Heng3|]. intros w4 Hoq4 Hc4 Ha4. wp_step.
    split; [done|]. exists (upd Q3 (QAct n) (Q3 (QAct n) ++ [s])). split_and!; [done..|].
    eapply evolves_all; [|done]. eapply (evolves_activate s sk3 w3 w3); [done|apply only_queues_refl|done|].
    intros t d Hne. apply upd_ne, dqueue_act.
Qed.
End ops.

(** ** The engine as a step relation *)

(** What happens to the engine: a client posts a request, the kernel reports
    that a socket is ready, the loop serves the first active socket. *)
Inductive event :=
  | EvRecv (handle : Z) (io : loc)
  | EvSend (handle : Z) (io : loc)
  | EvReadable (s : loc)
  | EvWriteable (s : loc)
  | EvServe (n : loc).

Section steps.
Context {U : Type} (K : kernel U) (call : nat → Z → ptr → M (world U) ()) (fuel : nat).
Implicit Types (w : world U) (Q : queues).

Definition run_event (e : event) : M (world U) () :=
  match e with
  | EvRecv h io => WSARecv K fuel h (Some io) false;; mret tt
  | EvSend h io => WSASend K fuel h (Some io) false;; mret tt
  | EvReadable s => on_read_active (Some s)
  | EvWriteable s => on_write_active (Some s)
  | EvServe n => serve_body K call fuel (Some n) tt;; mret tt
  end.

(** A request is posted on an open socket and is not queued already. *)
Definition may_post w (h : Z) (io : loc) : Prop :=
  (∃ s sk, pool_at (socket_pool w) h = Some s ∧ w_sockets w !! s = Some sk ∧ s_status sk ≠ 0%Z) ∧
  io_ok w io ∧ ∀ Q, core w Q → idle Q io.

(** The kernel reports sockets that are registered with an engine, and the
    socket that is served has at most one request in each direction. *)
Definition may_happen w (e : event) : Prop :=
  match e with
  | EvRecv h io | EvSend h io => may_post w h io
  | EvReadable s | EvWriteable s => ∃ sk, w_sockets w !! s = Some sk ∧ s_engine sk ≠ NULL
  | EvServe n => ∀ Q, core w Q → ∃ s rest, Q (QAct n) = s :: rest ∧ ∀ d, length (Q (dqueue d s)) ≤ 1
  end.

Inductive net_step w w' : Prop :=
  net_step_intro e (_ : may_happen w e) (_ : run_event e w = Ok (tt, w')).

(** The queues are in order and no request is forgotten. *)
Definition healthy w : Prop := ∃ Q, core w Q ∧ activity w Q ∧ all_served w Q.

Lemma post_healthy d h io w : healthy w → may_post w h io →
  wp (WSA K fuel d h (Some io) false;; mret tt) w (λ _ w', healthy w').
Proof.
  intros (Q & Hc & Ha & Hall) ((s & sk & Hp & Hs & Hst) & Hio & Hidle). wp_step.
  eapply wp_mono; [eapply WSA_post_ok; try done; auto|]. cbv beta.
  intros r w' (_ & ? & ? & Hev & _). wp_step. exists (posted Q d s sk io). split_and!; try done.
  by eapply evolves_all.
Qed.
Lemma ready_healthy d s w : healthy w → (∃ sk, w_sockets w !! s = Some sk ∧ s_engine sk ≠ NULL) →
  wp (on_active d (Some s)) w (λ _ w', healthy w').
Proof.
  intros (Q & Hc & Ha & Hall) (sk & Hs & He).
  eapply wp_mono; [by eapply on_active_ok|]. cbv beta.
  intros [] w' (? & ? & Hev & _). exists (woken Q d s sk). split_and!; try done. by eapply evolves_all.
Qed.

Lemma run_event_healthy e w : kernel_returns K fuel → good_call call → healthy w → may_happen w e →
  wp (run_event e) w (λ _ w', healthy w').
Proof.
  intros HK Hcall Hw He. destruct e as [h io|h io|s|s|n]; simpl in He |- *.
  - rw WSARecv_dir. by apply post_healthy.
  - rw WSASend_dir. by apply post_healthy.
  - rw on_read_active_dir. by apply ready_healthy.
  - rw on_write_active_dir. by apply ready_healthy.
  - destruct Hw as (Q & Hc & Ha & Hall). destruct (He Q Hc) as (s & rest & HQ & Hlen). wp_step.
    eapply wp_mono; [by eapply serve_body_ok|]. cbv beta.
    intros r w' (_ & Q' & ?). wp_step. by exists Q'.
Qed.
End steps.

(** C23: requests are not forgotten.  Whatever requests are posted, sockets
    become ready and active sockets are served, in any order, as long as a
    socket has at most one request in each direction when it is served: every
    queue stays a well-formed list, a socket is in the queue of its engine
    exactly when its flag says so, and a socket whose kernel flag allows one of
    its requests to be served is in that queue.  No step faults. *)
Theorem no_request_forgotten {U} (K : kernel U) call fuel (w w' : world U) :
  kernel_returns K fuel → good_call call → healthy w → rtc (net_step K call fuel) w w' →
  healthy w' ∧ ∀ e, may_happen w' e → ∃ w'', run_event K call fuel e w' = Ok (tt, w'') ∧ healthy w''.
Proof.
  intros HK Hcall Hw Hsteps.
  assert (Hstep : ∀ e w, healthy w → may_happen w e →
    ∃ w'', run_event K call fuel e w = Ok (tt, w'') ∧ healthy w'').
  { intros e w1 H1 He. destruct (wp_ok _ _ _ (run_event_healthy K call fuel e w1 HK Hcall H1 He))
      as ([] & w2 & ? & ?). by exists w2. }
  assert (healthy w') as Hw'; [|by auto].
  induction Hsteps as [w|w1 w2 w3 [e He Hrun] _ IH]; [done|]. apply IH.
  destruct (Hstep e w1 Hw He) as (w'' & Hrun' & ?). rw Hrun in Hrun'. by injection Hrun' as <-.
Qed.

(** ** Handles *)

Section handles.
Context {U : Type} (junk_next : ptr) (junk_socket : socket).
Implicit Types (w : world U).

(** The socket of a handle is open. *)
Definition open_handle w (h : Z) : Prop :=
  ∃ l sk, pool_at (socket_pool w) h = Some l ∧ w_sockets w !! l = Some sk ∧ s_status sk ≠ 0%Z.

Record pool_ok w : Prop := {
  po_nodup : NoDup (socket_pool w);
  po_sockets : ∀ l, l ∈ socket_pool w → is_Some (w_sockets w !! l);
  po_max : (Z.of_nat (length (socket_pool w)) ≤ MAX_SOCKET)%Z;
}.

Definition busy w (l : loc) : Prop := ∃ sk, w_sockets w !! l = Some sk ∧ s_status sk ≠ 0%Z.

Lemma take_free_socket_ok pool i w : (∀ l, l ∈ pool → is_Some (w_sockets w !! l)) →
  wp (take_free_socket pool i) w (λ r w',
    (r = (i + Z.of_nat (length pool))%Z ∧ w' = w ∧ ∀ l, l ∈ pool → busy w l) ∨
    ∃ k l sk, pool !! k = Some l ∧ r = (i + Z.of_nat k)%Z ∧ w_sockets w !! l = Some sk ∧
      s_status sk = 0%Z ∧ w' = upd_sock l (set_status 1) w ∧ ∀ l', l' ∈ take k pool → busy w l').
Proof.
  revert i. induction pool as [|l pool IH]; intros i Hpool; simpl.
  - wp_step. left. split; [lia|]. split; [done|]. by intros ? ?%not_elem_of_nil.
  - destruct (Hpool l ltac:(left)) as [sk Hs]. wp_step. eapply wp_sock; [done|].
    destruct (Z.eqb_spec (s_status sk) 0) as [Hst|Hst].
    + wp_step. apply wp_sock_set; [by rw Hs|]. wp_step. right. exists 0, l, sk.
      split_and!; try done; [lia|]. by intros ? ?%not_elem_of_nil.
    + eapply wp_mono; [apply IH; intros; apply Hpool; by right|]. cbv beta.
      assert (busy w l) as Hl by by exists sk.
      intros r w' [(-> & -> & Hb)|(k & l' & sk' & Hk & -> & Hs' & Hst' & -> & Hb)].
      * left. split; [lia|]. split; [done|]. intros x [->|?]%elem_of_cons; auto.
      * right. exists (S k), l', sk'. split_and!; try done; [lia|].
        intros x [->|?]%elem_of_cons; auto.
Qed.

Lemma pool_at_lt (pool : list loc) h l : pool_at pool h = Some l →
  (0 ≤ h < Z.of_nat (length pool))%Z ∧ pool !! Z.to_nat h = Some l.
Proof.
  rw /pool_at. destruct (Z.leb_spec 0 h); [|done]. intros Hl. split; [|done].
  apply lookup_lt_Some in Hl. lia.
Qed.
Lemma pool_at_nat (pool : list loc) k : pool_at pool (Z.of_nat k) = pool !! k.
Proof. rw /pool_at Nat2Z.id. by destruct (Z.leb_spec 0 (Z.of_nat k)); [|lia]. Qed.

Lemma busy_open w k l : socket_pool w !! k = Some l → busy w l → open_handle w (Z.of_nat k).
Proof. intros Hk (sk & ? & ?). exists l, sk. by rw pool_at_nat. Qed.

(** The state after [NewSocketWrapper] has created a socket. *)
Lemma wp_create_socket w (R : ptr → world U → Prop) :
  (∀ l s w', w_sockets w !! l = None → w_sockets w' = <[l := s]> (w_sockets w) →
     socket_pool w' = socket_pool w → R (Some l) w') →
  wp (create_socket junk_next junk_socket) w R.
Proof.
  intros HR. rw /create_socket /on_nexts /on_sockets. do 8 wp_step.
  eapply HR; [|done..]. apply not_elem_of_dom. pose proof (is_fresh (dom (w_sockets w) ∪ dom (w_nexts w))).
  set_solver.
Qed.

Lemma open_upd_status w l h : pool_ok w → is_Some (w_sockets w !! l) →
  open_handle (upd_sock l (set_status 1) w) h ↔ open_handle w h ∨ pool_at (socket_pool w) h = Some l.
Proof.
  intros Hok [sk Hl]. rw /open_handle. split.
  - intros (l' & sk' & Hp & Hs & Hst). destruct (decide (l' = l)) as [->|Hne]; [by right|left].
    rw upd_sock_ne // in Hs. by exists l', sk'.
  - intros [(l' & sk' & Hp & Hs & Hst)|Hp].
    + destruct (decide (l' = l)) as [->|Hne].
      * exists l, (set_status 1 sk). rw (upd_sock_eq _ _ _ _ Hl). done.
      * exists l', sk'. by rw upd_sock_ne.
    + exists l, (set_status 1 sk). rw (upd_sock_eq _ _ _ _ Hl). done.
Qed.

(** What [NewSocketWrapper] does to the handles: when it returns -1 all
    handles are open and nothing has changed, and else it opens the least handle
    that was not open. *)
Definition takes_least w (h : Z) w' : Prop :=
  (h = (-1)%Z ∧ w' = w ∧ ∀ i, (0 ≤ i < MAX_SOCKET)%Z → open_handle w i) ∨
  (0 ≤ h < MAX_SOCKET)%Z ∧ (∀ i, (0 ≤ i < h)%Z → open_handle w i) ∧ ¬ open_handle w h ∧
  ∀ i, open_handle w' i ↔ i = h ∨ open_handle w i.

Lemma reuse_takes_least w k l sk : pool_ok w → socket_pool w !! k = Some l →
  w_sockets w !! l = Some sk → s_status sk = 0%Z → (∀ l', l' ∈ take k (socket_pool w) → busy w l') →
  takes_least w (Z.of_nat k) (upd_sock l (set_status 1) w).
Proof.
  intros Hok Hk Hs Hst Hb. pose proof (lookup_lt_Some _ _ _ Hk) as Hlt. pose proof (po_max _ Hok).
  right. split_and!; [lia..| | |].
  - intros i Hi. destruct (lookup_lt_is_Some_2 (socket_pool w) (Z.to_nat i)) as [l' Hl']; [lia|].
    rw (_ : i = Z.of_nat (Z.to_nat i)); [lia|]. apply (busy_open _ _ _ Hl'). apply Hb.
    apply list_elem_of_lookup. exists (Z.to_nat i). rw lookup_take_lt //. lia.
  - intros (l' & sk' & Hp & Hs' & Hst'). rw pool_at_nat in Hp. congruence.
  - intros i. rw open_upd_status //. split; [|intros [->|?]; [right; by rw pool_at_nat|by left]].
    intros [?|[Hi Hp]%pool_at_lt]; [by right|left].
    pose proof (NoDup_lookup _ _ _ _ (po_nodup _ Hok) Hp Hk). lia.
Qed.

Lemma create_takes_least w w' w2 l s : pool_ok w → (∀ x, x ∈ socket_pool w → busy w x) →
  (Z.of_nat (length (socket_pool w)) < MAX_SOCKET)%Z →
  w_sockets w !! l = None → w_sockets w' = <[l := s]> (w_sockets w) →
  socket_pool w' = socket_pool w →
  w2 = upd_sock l (set_handle (Z.of_nat (length (socket_pool w))))
         (upd_sock l (set_status 1) (set_socket_pool (socket_pool w ++ [l]) w')) →
  takes_least w (Z.of_nat (length (socket_pool w))) w2.
Proof.
  intros Hok Hb Hlen Hl Hs Hp ->. right. set (pool := socket_pool w) in *.
  assert (Hat : ∀ i l', pool_at (pool ++ [l]) i = Some l' ↔
    (i = Z.of_nat (length pool) ∧ l' = l) ∨ pool_at pool i = Some l').
  { intros i l'. rw /pool_at. destruct (Z.leb_spec 0 i); [|split; [done|intros [[-> _]|?]; [lia|done]]].
    rw lookup_snoc_Some. split.
    - intros [[??]|[? <-]]; [by right|left; split; [lia|done]].
    - intros [[-> ->]|Hx]; [right; split; [lia|done]|left; split; [by eapply lookup_lt_Some|done]]. }
  split_and!; [lia..| | |].
  - intros i Hi. destruct (lookup_lt_is_Some_2 pool (Z.to_nat i)) as [l' Hl']; [lia|].
    rw (_ : i = Z.of_nat (Z.to_nat i)); [lia|]. apply (busy_open _ _ _ Hl'), Hb.
    by eapply list_elem_of_lookup_2.
  - intros (l' & sk' & [? _]%pool_at_lt & _). unfold pool in *. lia.
  - intros i. rw /open_handle /= Hs. split.
    + intros (l' & sk' & [[-> ->]|Hp']%Hat & Hs' & Hst); [by left|right]. exists l', sk'. split; [done|].
      assert (l' ≠ l).
      { intros ->. apply pool_at_lt in Hp' as [_ Hin%list_elem_of_lookup_2]. destruct (Hb l Hin) as (? & ? & _).
        congruence. }
      by rw !lookup_alter_ne // lookup_insert_ne // in Hs'.
    + intros [->|(l' & sk' & Hp' & Hs' & Hst)].
      * exists l. eexists. rw !lookup_alter_eq lookup_insert_eq /=. split; [apply Hat; by left|done].
      * exists l', sk'. split; [apply Hat; by right|]. assert (l' ≠ l) by congruence.
        by rw !lookup_alter_ne // lookup_insert_ne.
Qed.
End handles.

(** C24: [NewSocketWrapper] hands out the least handle that is not open and
    opens exactly that one; it returns -1, changing nothing, only when all
    [MAX_SOCKET] handles are open.  So no two open sockets share a handle. *)
Theorem NewSocketWrapper_takes_least {U} junk_next junk_socket (w : world U) : pool_ok w →
  ∃ h w', NewSocketWrapper junk_next junk_socket w = Ok (h, w') ∧ takes_least w h w'.
Proof.
  intros Hok. apply wp_ok. rw /NewSocketWrapper. do 3 wp_step. cbn zeta.
  eapply wp_mono; [apply take_free_socket_ok, (po_sockets _ Hok)|]. cbv beta.
  intros i w1 [(-> & -> & Hb)|(k & l & sk & Hk & -> & Hs & Hst & -> & Hb)]; wp_step.
  - rw Z.add_0_l Z.eqb_refl. destruct (Z.ltb_spec (Z.of_nat (length (socket_pool w))) MAX_SOCKET) as [Hlt|Hge].
    + simpl. wp_step. apply wp_create_socket. intros l s w' Hl Hs Hp. cbn match. wp_step. wp_step. wp_step.
      apply wp_sock_set; [by rw /= Hs lookup_insert_eq|]. wp_step.
      apply wp_sock_set; [by rw /= lookup_alter_eq Hs lookup_insert_eq|]. do 2 wp_step.
      rw (proj2 (Z.ltb_lt _ _)); [lia|]. by eapply create_takes_least.
    + simpl. do 2 wp_step. rw Z.ltb_irrefl. left. split_and!; [done..|]. intros i Hi.
      destruct (lookup_lt_is_Some_2 (socket_pool w) (Z.to_nat i)) as [l' Hl']; [lia|].
      rw (_ : i = Z.of_nat (Z.to_nat i)); [lia|]. apply (busy_open _ _ _ Hl'), Hb.
      by eapply list_elem_of_lookup_2.
  - pose proof (lookup_lt_Some _ _ _ Hk). rw (proj2 (Z.eqb_neq _ _)); [lia|]. simpl. do 2 wp_step.
    rw (proj2 (Z.ltb_lt _ _)); [lia|]. rw Z.add_0_l. by eapply reuse_takes_least.
Qed.

(** ** Examples *)

Definition fresh_socket (status : Z) (e : ptr) : socket :=
  Socket status e 0 1 0 3 0 create_link_list create_link_list (Some 0) (Some 0).

(** Two sockets, of which the second is free. *)
Definition two_sockets : world () :=
  World {[1%positive := fresh_socket 1 NULL; 2%positive := fresh_socket 0 NULL]} ∅ ∅ ∅ ∅
    [1%positive; 2%positive] [] 0 tt.

Lemma NewSocketWrapper_takes_least_witness : ∃ h w',
  NewSocketWrapper NULL (fresh_socket 0 NULL) two_sockets = Ok (h, w') ∧ takes_least two_sockets h w'.
Proof.
  apply (NewSocketWrapper_takes_least NULL (fresh_socket 0 NULL) two_sockets). split.
  - apply (bool_decide_unpack _). by vm_compute.
  - intros l Hl. repeat (apply elem_of_cons in Hl as [->|Hl]; [by eexists; vm_compute|]).
    by apply not_elem_of_nil in Hl.
  - by vm_compute.
Defined.

(** A kernel whose reads and writes transfer five bytes. *)
Definition five_bytes : kernel () :=
  Kernel () (λ _ _ _, mret 3%Z) (λ _, mret 0%Z) (λ _ _, mret 0%Z) (λ _ _, mret 0%Z) (λ _ _, mret 0%Z)
    (λ _, mret (4%Z, 0%Z)) (λ _, mret 0%Z) (λ _, mret 0%Z) (λ _ _, mret 0%Z)
    (λ _, mret (0%Z, SockAddr 2 80 1)) (λ _, mret (0%Z, SockAddr 2 80 1))
    (λ _, mret (5%Z, 0%Z)) (λ _ _ _ _ _, mret (0%Z, 0%Z)) (λ _ _ _, mret (0%Z, 0%Z, []))
    (λ _ _, mret (5%Z, 0%Z)) (λ _ _, mret (5%Z, 0%Z)) (mret (0%Z, 0%Z)) (λ _, None) (λ _ _, None).

Definition no_call (f : nat) (bytes : Z) (io : ptr) : M (world ()) () := mret tt.

(** A readable socket bound to an engine, and two requests that are not posted. *)
Definition bound_socket : world () :=
  World {[1%positive := fresh_socket 1 (Some 2%positive)]} {[2%positive := Engine 1 7 [] create_link_list]}
    {[1%positive := NULL; 3%positive := NULL; 4%positive := NULL]}
    {[3%positive := StIo (Some 5%positive) 1 0; 4%positive := StIo (Some 5%positive) 1 0]}
    {[5%positive := [Iovec (NULL, 0%Z) 10]]} [1%positive] [2%positive] 0 tt.

(** The state that a run ends in. *)
Definition state_after {U} (m : M (world U) ()) (w : world U) : world U :=
  match m w with Ok (_, w') => w' | Fault _ => w end.

Lemma bound_socket_queues q l : queue_of bound_socket q = Some l → l = create_link_list.
Proof.
  destruct q as [x|x|x]; simpl; destruct (_ !! x) as [y|] eqn:Hy; try done;
    apply lookup_singleton_Some in Hy as [<- <-]; by intros [= <-].
Qed.

Lemma bound_socket_empty Q q : core bound_socket Q → Q q = [].
Proof.
  intros Hc. destruct (queue_of bound_socket q) as [l|] eqn:Hq; [|by apply (co_none _ _ Hc)].
  pose proof (ll_rep_size _ _ _ (co_rep _ _ Hc _ _ Hq)) as Hs. rw (bound_socket_queues _ _ Hq) in Hs.
  by destruct (Q q).
Qed.

Lemma bound_socket_healthy : healthy bound_socket.
Proof.
  exists (λ _, []). split; [|split].
  - split; try done.
    + intros q l Hq. rw (bound_socket_queues _ _ Hq). apply ll_rep_nil.
    + intros ??? Hx. by apply not_elem_of_nil in Hx.
    + intros ?? Hx. by apply not_elem_of_nil in Hx.
    + intros x [[y Hy]|[y Hy]] _; simpl in *.
      * by apply lookup_singleton_Some in Hy as [<- _].
      * apply lookup_insert_Some in Hy as [[<- _]|[_ Hy]]; [done|].
        by apply lookup_singleton_Some in Hy as [<- _].
    + intros x [y Hy]. simpl in *. by apply lookup_singleton_Some in Hy as [<- _].
  - split; try done.
    + intros e x Hx. by apply not_elem_of_nil in Hx.
    + intros x s Hx. simpl in Hx. by apply lookup_singleton_Some in Hx as [_ <-].
    + intros x s e Hx. simpl in Hx. apply lookup_singleton_Some in Hx as [_ <-]. by intros [= <-].
    + intros x s e Hx. simpl in Hx. by apply lookup_singleton_Some in Hx as [_ <-].
  - by intros d s (? & _ & _ & _ & _ & ?).
Qed.

Lemma five_bytes_returns : kernel_returns five_bytes 1.
Proof. intros d fd iov w. exists 5%Z, 0%Z, tt. by destruct d, w as [????????[]]. Qed.

Lemma no_call_good : good_call no_call.
Proof. intros f bytes io w Q Hc Ha _ _. rw /no_call. wp_step. exists Q. split_and!; [done..|apply evolves_refl]. Qed.

Lemma post_3 : may_post bound_socket 0 3%positive.
Proof.
  split; [|split].
  - exists 1%positive, (fresh_socket 1 (Some 2%positive)). by vm_compute.
  - exists (StIo (Some 5%positive) 1 0), 5%positive, [Iovec (NULL, 0%Z) 10]. by vm_compute.
  - intros Q Hc q. rw (bound_socket_empty _ _ Hc). apply not_elem_of_nil.
Qed.

Lemma no_request_forgotten_witness :
  let w' := state_after (run_event five_bytes no_call 1 (EvRecv 0 3%positive)) bound_socket in
  healthy w' ∧ ∀ e, may_happen w' e → ∃ w'', run_event five_bytes no_call 1 e w' = Ok (tt, w'') ∧ healthy w''.
Proof.
  apply (no_request_forgotten five_bytes no_call 1 bound_socket).
  - exact five_bytes_returns.
  - exact no_call_good.
  - exact bound_socket_healthy.
  - apply rtc_once. exists (EvRecv 0 3%positive); [exact post_3|]. by vm_compute.
Defined.

(** A second request in the same direction is forgotten.  [Process] asks for
    the socket to be served again only when both directions have transferred
    something, so after the first of two read requests is served the socket is
    in no queue although it is readable and a request is pending. *)
Lemma second_request_forgotten :
  let w := state_after (run_event five_bytes no_call 1 (EvRecv 0 3%positive)) bound_socket in
  let w := state_after (run_event five_bytes no_call 1 (EvRecv 0 4%positive)) w in
  let w := state_after (run_event five_bytes no_call 1 (EvServe 2%positive)) w in
  (actived <$> w_engines w !! 2%positive) = Some create_link_list ∧
  ((λ s, (isactived s, readable s, ll_head (pending_recv s))) <$> w_sockets w !! 1%positive) =
  Some (0%Z, 1%Z, Some 4%positive).
Proof. by vm_compute. Qed.
