(* ===== verification/Connection.v ===== *)
(** * Connections ([src/src/Connection.c], [src/include/Connection.h])

    A connection receives a byte stream into a chain of buffers, cuts it into
    packets and hands them to a callback; and it sends a queue of packets.  The
    requests of the two directions are [st_io] objects of the engine [Net]:
    [RecvFinish] and [SendFinish] are the callbacks that the engine calls when a
    request has been served, and they go on by calling [WSARecv] and [WSASend].

    The memory on which the kernel of [Net] acts is [cmem]: the buffers, the
    connections and their overlapped contexts, the packets that wait to be
    sent, and a client. *)
From S2P Require Import Prelude LinkList Buffer WPacket RPacket Net.

(** ** Data *)

Definition BUFFER_SIZE : Z := 65536.
Definition MAX_WBAF : Z := 1024.

(** [struct OVERLAPCONTEXT] but for its first field, the [st_io] at the same
    address. *)
Record OVERLAPCONTEXT := Overlap { isUsed : Z; ov_c : ptr }.

(** The arrays and the contexts are part of the C struct: the fields hold their
    addresses. *)
Record connection := Connection {
  c_socket : Z;
  wsendbuf : loc;
  wrecvbuf : loc;
  send_overlap : loc;
  recv_overlap : loc;
  unpack_size : Z;
  unpack_pos : Z;
  next_recv_pos : Z;
  next_recv_buf : ptr;
  unpack_buf : ptr;
  send_list : link_list;
  _process_packet : option nat;
  _on_disconnect : option nat;
  c_mt : bool;
  c_raw : bool;
  is_close : Z;
}.

Record cmem (A : Type) := CMem {
  m_bufs : bufs;
  m_conns : gmap loc connection;
  m_overlaps : gmap loc OVERLAPCONTEXT;
  m_packets : gmap loc wpacket;
  packet_send : Z;
  m_client : A;
}.
Arguments CMem {A}.
Arguments m_bufs {A}.
Arguments m_conns {A}.
Arguments m_overlaps {A}.
Arguments m_packets {A}.
Arguments packet_send {A}.
Arguments m_client {A}.

(** *** Field updates *)

Definition set_unpack_size (v : Z) (c : connection) : connection :=
  Connection (c_socket c) (wsendbuf c) (wrecvbuf c) (send_overlap c) (recv_overlap c) v
    (unpack_pos c) (next_recv_pos c) (next_recv_buf c) (unpack_buf c) (send_list c)
    (_process_packet c) (_on_disconnect c) (c_mt c) (c_raw c) (is_close c).
Definition set_unpack_pos (v : Z) (c : connection) : connection :=
  Connection (c_socket c) (wsendbuf c) (wrecvbuf c) (send_overlap c) (recv_overlap c) (unpack_size c)
    v (next_recv_pos c) (next_recv_buf c) (unpack_buf c) (send_list c)
    (_process_packet c) (_on_disconnect c) (c_mt c) (c_raw c) (is_close c).
Definition set_next_recv_pos (v : Z) (c : connection) : connection :=
  Connection (c_socket c) (wsendbuf c) (wrecvbuf c) (send_overlap c) (recv_overlap c) (unpack_size c)
    (unpack_pos c) v (next_recv_buf c) (unpack_buf c) (send_list c)
    (_process_packet c) (_on_disconnect c) (c_mt c) (c_raw c) (is_close c).
Definition set_next_recv_buf (v : ptr) (c : connection) : connection :=
  Connection (c_socket c) (wsendbuf c) (wrecvbuf c) (send_overlap c) (recv_overlap c) (unpack_size c)
    (unpack_pos c) (next_recv_pos c) v (unpack_buf c) (send_list c)
    (_process_packet c) (_on_disconnect c) (c_mt c) (c_raw c) (is_close c).
Definition set_unpack_buf (v : ptr) (c : connection) : connection :=
  Connection (c_socket c) (wsendbuf c) (wrecvbuf c) (send_overlap c) (recv_overlap c) (unpack_size c)
    (unpack_pos c) (next_recv_pos c) (next_recv_buf c) v (send_list c)
    (_process_packet c) (_on_disconnect c) (c_mt c) (c_raw c) (is_close c).
Definition set_send_list (v : link_list) (c : connection) : connection :=
  Connection (c_socket c) (wsendbuf c) (wrecvbuf c) (send_overlap c) (recv_overlap c) (unpack_size c)
    (unpack_pos c) (next_recv_pos c) (next_recv_buf c) (unpack_buf c) v
    (_process_packet c) (_on_disconnect c) (c_mt c) (c_raw c) (is_close c).

Definition set_isUsed (v : Z) (o : OVERLAPCONTEXT) : OVERLAPCONTEXT := Overlap v (ov_c o).
Definition set_finish (f : option nat) (w : wpacket) : wpacket :=
  WPacket (w_len w) (w_buf w) (w_writebuf w) (w_wpos w) (w_factor w) (w_begin_pos w) (data_size w)
    (w_raw w) (w_mt w) f.
Definition set_unsent (b : ptr) (pos size : Z) (w : wpacket) : wpacket :=
  WPacket (w_len w) b (w_writebuf w) (w_wpos w) (w_factor w) pos size
    (w_raw w) (w_mt w) (_packet_send_finish w).

Section connection.
Context {A : Type}.
Abbreviation W := (M (world (cmem A))).

Definition on_bufs {B} (m : M bufs B) : W B :=
  on_mem (zoom m_bufs (λ h u, CMem h (m_conns u) (m_overlaps u) (m_packets u) (packet_send u) (m_client u)) m).
Definition on_conns {B} (m : M (gmap loc connection) B) : W B :=
  on_mem (zoom m_conns (λ h u, CMem (m_bufs u) h (m_overlaps u) (m_packets u) (packet_send u) (m_client u)) m).
Definition on_overlaps {B} (m : M (gmap loc OVERLAPCONTEXT) B) : W B :=
  on_mem (zoom m_overlaps (λ h u, CMem (m_bufs u) (m_conns u) h (m_packets u) (packet_send u) (m_client u)) m).
Definition on_packets {B} (m : M (gmap loc wpacket) B) : W B :=
  on_mem (zoom m_packets (λ h u, CMem (m_bufs u) (m_conns u) (m_overlaps u) h (packet_send u) (m_client u)) m).
Definition count_packet : W () :=
  on_mem (modify (λ u, CMem (m_bufs u) (m_conns u) (m_overlaps u) (m_packets u) (u32 (packet_send u + 1))
    (m_client u))).

Definition conn (c : ptr) : W connection := on_conns (hload c).
Definition conn_set (c : ptr) (f : connection → connection) : W () := on_conns (hmodify c f).
Definition io_set_used (io : loc) (v : Z) : W () := on_overlaps (hmodify (Some io) (set_isUsed v)).
Definition io_used (io : loc) : W Z := o ← on_overlaps (hload (Some io)); mret (isUsed o).

(** The engine's kernel and its fuel; the callbacks of the client: what it does
    with a packet, a closed connection and a packet that has been sent; and the
    content of the memory of [err_code] before it is set. *)
Context (K : kernel (cmem A)) (fuel : nat).
Context (process : nat → ptr → rpacket → W ()).
Context (disconnect : nat → ptr → Z → W ()).
Context (send_finish : nat → ptr → ptr → W ()).

(** ** Receiving *)

(** The first statements of the loop body of [update_next_recv_pos]: how much
    goes into the current buffer. *)
Definition recv_chunk (b : buffer) (pos bytestransfer : Z) : Z :=
  let size := u32 (capacity b - pos) in
  if (u32 bytestransfer <? size)%Z then u32 bytestransfer else size.

Definition update_recv_body (c : ptr) (bytestransfer : Z) : W (Z + ()) :=
  if (bytestransfer =? 0)%Z then mret (inr tt)
  else
    c' ← conn c;
    b ← on_bufs (hload (next_recv_buf c'));
    let size := recv_chunk b (next_recv_pos c') bytestransfer in
    on_bufs (hmodify (next_recv_buf c') (λ b, with_bsize (u32 (b_size b + size)) b));;
    let pos := u32 (next_recv_pos c' + size) in
    conn_set c (set_next_recv_pos pos);;
    let bytestransfer := i32 (bytestransfer - size) in
    (if (capacity b <=? pos)%Z then
       (match b_next b with
        | Some _ => mret tt
        | None =>
            nb ← on_bufs (buffer_create_and_acquire (c_mt c') NULL BUFFER_SIZE);
            on_bufs (hmodify (next_recv_buf c') (with_next nb))
        end);;
       b ← on_bufs (hload (next_recv_buf c'));
       p ← on_bufs (buffer_acquire (next_recv_buf c') (b_next b));
       conn_set c (set_next_recv_buf p);;
       conn_set c (set_next_recv_pos 0)
     else mret tt);;
    mret (inl bytestransfer).

Definition update_next_recv_pos (c : ptr) (bytestransfer : Z) : W () :=
  loop (S (Z.to_nat (u32 bytestransfer))) (update_recv_body c) bytestransfer.

(** [assert(c->unpack_buf->next)] and the move to the next buffer, which both
    branches of [unpack] do at the end of a buffer. *)
Definition unpack_next (c : ptr) : W () :=
  c' ← conn c;
  b ← on_bufs (hload (unpack_buf c'));
  if (capacity b <=? unpack_pos c')%Z then
    assert_ (bool_decide (b_next b ≠ NULL));;
    conn_set c (set_unpack_pos 0);;
    p ← on_bufs (buffer_acquire (unpack_buf c') (b_next b));
    conn_set c (set_unpack_buf p)
  else mret tt.

(** The loop [while(pk_total_size)] that moves past a packet. *)
Definition skip_body (c : ptr) (pk_total_size : Z) : W (Z + ()) :=
  if (pk_total_size =? 0)%Z then mret (inr tt)
  else
    c' ← conn c;
    b ← on_bufs (hload (unpack_buf c'));
    let size := u32 (b_size b - unpack_pos c') in
    let size := if (size <? pk_total_size)%Z then size else pk_total_size in
    conn_set c (λ c, set_unpack_pos (u32 (unpack_pos c + size)) c);;
    let pk_total_size := u32 (pk_total_size - size) in
    conn_set c (λ c, set_unpack_size (u32 (unpack_size c - size)) c);;
    unpack_next c;;
    mret (inl pk_total_size).

(** The call of the client's callback. *)
Definition deliver (c : ptr) (r : rpacket) : W () :=
  c' ← conn c;
  match _process_packet c' with Some f => process f c r | None => fail NullDeref end.

(** One round of the loop of [unpack]; [pk_len] keeps its value from the round
    before when the length cannot be read. *)
Definition unpack_body (c : ptr) (pk_len : Z) : W (Z + ()) :=
  c' ← conn c;
  if negb (c_raw c') then
    if (unpack_size c' <=? 4)%Z then mret (inr tt)
    else
      n ← on_bufs (gets size);
      '(_, bs) ← on_bufs (buffer_read (2 + n) (unpack_buf c') (unpack_pos c') 4);
      let pk_len := le (bs ++ drop (length bs) (le_bytes 4 pk_len)) in
      let pk_total_size := u32 (pk_len + 4) in
      if (unpack_size c' <? pk_total_size)%Z then mret (inr tt)
      else
        r ← on_bufs (rpacket_create (c_mt c') (unpack_buf c') (unpack_pos c') pk_len (c_raw c'));
        loop (2 + n + Z.to_nat pk_total_size) (skip_body c) pk_total_size;;
        deliver c r;;
        mret (inl pk_len)
  else
    b ← on_bufs (hload (unpack_buf c'));
    let pk_len := u32 (b_size b - unpack_pos c') in
    if (pk_len =? 0)%Z then mret (inr tt)
    else
      r ← on_bufs (rpacket_create (c_mt c') (unpack_buf c') (unpack_pos c') pk_len (c_raw c'));
      conn_set c (λ c, set_unpack_pos (u32 (unpack_pos c + pk_len)) c);;
      conn_set c (λ c, set_unpack_size (u32 (unpack_size c - pk_len)) c);;
      unpack_next c;;
      deliver c r;;
      mret (inl pk_len).

(** Every round but the last consumes a byte. *)
Definition unpack (c : ptr) : W () :=
  c' ← conn c;
  loop (2 + Z.to_nat (unpack_size c')) (unpack_body c) 0%Z.

(** [arr\[i\] = v], in an array of a fixed size. *)
Definition iov_set (arr : loc) (i : Z) (v : iovec) : W () :=
  l ← on_iovs (hload (Some arr));
  if ((0 <=? i) && (i <? Z.of_nat (length l)))%Z
  then on_iovs (hstore (Some arr) (<[Z.to_nat i := v]> l))
  else fail OutOfBounds.

(** The loop that sets up the next read: the locals are the buffer, the
    position, the size wanted and the index. *)
Definition window_body (c : ptr) (x : ptr * Z * Z * Z) : W ((ptr * Z * Z * Z) + Z) :=
  let '(buf, pos, recv_size, i) := x in
  if (recv_size =? 0)%Z then mret (inr i)
  else
    c' ← conn c;
    b ← on_bufs (hload buf);
    let free_buffer_size := u32 (capacity b - pos) in
    let free_buffer_size := if (free_buffer_size <? recv_size)%Z then free_buffer_size else recv_size in
    iov_set (wrecvbuf c') i (Iovec (buf, pos) free_buffer_size);;
    let recv_size := u32 (recv_size - free_buffer_size) in
    let pos := u32 (pos + free_buffer_size) in
    if negb (recv_size =? 0)%Z && (capacity b <=? pos)%Z then
      (match b_next b with
       | Some _ => mret tt
       | None =>
           nb ← on_bufs (buffer_create_and_acquire (c_mt c') NULL BUFFER_SIZE);
           on_bufs (hmodify buf (with_next nb))
       end);;
      b ← on_bufs (hload buf);
      mret (inl (b_next b, 0%Z, recv_size, (i + 1)%Z))
    else mret (inl (buf, pos, recv_size, (i + 1)%Z)).

Definition set_request (io arr : loc) (n : Z) : W () :=
  on_ios (hmodify (Some io) (λ r, StIo (Some arr) n (err_code r))).

(** One round of [while(bytestransfer > 0)] in [RecvFinish]: the locals are
    [bytestransfer] and [err_code]. *)
Definition recv_body (c : ptr) (x : Z * Z) : W ((Z * Z) + (Z * Z)) :=
  let '(bytestransfer, err) := x in
  if (0 <? bytestransfer)%Z then
    update_next_recv_pos c bytestransfer;;
    conn_set c (λ c, set_unpack_size (u32 (unpack_size c + bytestransfer)) c);;
    unpack c;;
    c' ← conn c;
    i ← loop 4 (window_body c) (next_recv_buf c', next_recv_pos c', BUFFER_SIZE, 0%Z);
    io_set_used (recv_overlap c') 1;;
    set_request (recv_overlap c') (wrecvbuf c') i;;
    r ← WSARecv K fuel (c_socket c') (Some (recv_overlap c')) true;
    mret (inl r)
  else mret (inr x).

(** A disconnected or failed transfer: the direction [io] is not used any
    more, and when the other one is not either the client is told. *)
Definition close_direction (c : ptr) (io other : loc) : W () :=
  io_set_used io 0;;
  u ← io_used other;
  if (u =? 0)%Z then
    c' ← conn c;
    if (is_close c' =? 1)%Z then fail Exited
    else match _on_disconnect c' with
         | Some f => disconnect f c (-1)
         | None => fail NullDeref
         end
  else mret tt.

(** The loop [for(;;)] of [RecvFinish]. *)
Definition recv_loop_body (c : ptr) (x : Z * Z) : W ((Z * Z) + ()) :=
  let '(bytestransfer, err) := x in
  if (bytestransfer =? 0)%Z || (bytestransfer <? 0)%Z && negb (err =? EAGAIN)%Z then
    c' ← conn c;
    close_direction c (recv_overlap c') (send_overlap c');;
    mret (inr tt)
  else if (bytestransfer <? 0)%Z then mret (inr tt)
  else
    x ← loop fuel (recv_body c) x;
    mret (inl x).

Definition RecvFinish (bytestransfer : Z) (io : ptr) : W () :=
  o ← on_overlaps (hload io);
  r ← on_ios (hload io);
  loop fuel (recv_loop_body (ov_c o)) (bytestransfer, err_code r).

(** ** Sending *)

(** The loop of [prepare_send] over the buffers of a packet: the locals are the
    buffer, the position, the bytes left and the index. *)
Definition prepare_buf_body (arr : loc) (x : ptr * Z * Z * Z) : W ((ptr * Z * Z * Z) + Z) :=
  let '(b, pos, buffer_size, i) := x in
  if (i <? MAX_WBAF)%Z && bool_decide (b ≠ NULL) && negb (buffer_size =? 0)%Z then
    b' ← on_bufs (hload b);
    let size := u32 (b_size b' - pos) in
    let size := if (buffer_size <? size)%Z then buffer_size else size in
    iov_set arr i (Iovec (b, pos) size);;
    mret (inl (b_next b', 0%Z, u32 (buffer_size - size), (i + 1)%Z))
  else mret (inr i).

(** The loop over the packets of the list, linked by their nodes. *)
Definition prepare_body (arr : loc) (x : ptr * Z) : W ((ptr * Z) + Z) :=
  let '(w, i) := x in
  match w with
  | Some l =>
      if (i <? MAX_WBAF)%Z then
        w' ← on_packets (hload w);
        i ← loop (S (Z.to_nat MAX_WBAF)) (prepare_buf_body arr)
              (w_buf w', w_begin_pos w', data_size w', i);
        next ← on_nexts (hload w);
        mret (inl (next, i))
      else mret (inr i)
  | None => mret (inr i)
  end.

(** The list is walked once, so the number of nodes is enough. *)
Definition prepare_send (c : ptr) : W ptr :=
  c' ← conn c;
  n ← on_nexts (gets size);
  i ← loop (2 + n) (prepare_body (wsendbuf c')) (link_list_head (send_list c'), 0%Z);
  if (i =? 0)%Z then mret NULL
  else
    set_request (send_overlap c') (wsendbuf c') i;;
    mret (Some (send_overlap c')).

Definition pop_packet (c : ptr) : W ptr :=
  c' ← conn c; '(p, l) ← on_nexts (link_list_pop (send_list c')); conn_set c (set_send_list l);; mret p.
Definition push_packet (c w : ptr) : W () :=
  c' ← conn c; n ← node w; l ← on_nexts (link_list_push_back (send_list c') n);
  conn_set c (set_send_list l).
Definition push_packet_front (c w : ptr) : W () :=
  c' ← conn c; n ← node w; l ← on_nexts (link_list_push_front (send_list c') n);
  conn_set c (set_send_list l).

(** [wpacket_destroy(&w)] with the release of the packet itself. *)
Definition destroy_packet (w : ptr) : W () :=
  w' ← on_packets (hload w);
  on_bufs (wpacket_destroy w');;
  on_packets (hfree w).

(** The loop that moves [begin_pos] of a packet that was sent in part. *)
Definition partial_body (w : ptr) (bytestransfer : Z) : W (Z + ()) :=
  if (bytestransfer =? 0)%Z then mret (inr tt)
  else
    w' ← on_packets (hload w);
    b ← on_bufs (hload (w_buf w'));
    let size := u32 (b_size b - w_begin_pos w') in
    let size := if (u32 bytestransfer <? size)%Z then u32 bytestransfer else size in
    let bytestransfer := i32 (bytestransfer - size) in
    let pos := u32 (w_begin_pos w' + size) in
    let left := u32 (data_size w' - size) in
    (if (b_size b <=? pos)%Z then
       on_packets (hmodify w (set_unsent (w_buf w') 0 left));;
       p ← on_bufs (buffer_acquire (w_buf w') (b_next b));
       on_packets (hmodify w (set_unsent p 0 left))
     else on_packets (hmodify w (set_unsent (w_buf w') pos left)));;
    mret (inl bytestransfer).

(** One round of [update_send_list]. *)
Definition update_send_body (c : ptr) (bytestransfer : Z) : W (Z + ()) :=
  if (bytestransfer =? 0)%Z then mret (inr tt)
  else
    w ← pop_packet c;
    assert_ (bool_decide (w ≠ NULL));;
    w' ← on_packets (hload w);
    if (data_size w' <=? u32 bytestransfer)%Z then
      (match _packet_send_finish w' with
       | Some f => send_finish f c w
       | None => destroy_packet w
       end);;
      count_packet;;
      mret (inl (i32 (bytestransfer - data_size w')))
    else
      n ← on_bufs (gets size);
      loop (2 + n + Z.to_nat (u32 bytestransfer)) (partial_body w) bytestransfer;;
      push_packet_front c w;;
      mret (inl 0%Z).

Definition update_send_list (c : ptr) (bytestransfer : Z) : W () :=
  n ← on_nexts (gets size);
  loop (2 + n) (update_send_body c) bytestransfer.

Definition connection_push_packet (c w : ptr) (callback : option nat) : W () :=
  match w with
  | Some _ =>
      on_packets (hmodify w (set_finish callback));;
      push_packet c w
  | None => mret tt
  end.

(** There is no return value when a request is under way. *)
Definition connection_send (c w : ptr) (callback : option nat) : W (option Z) :=
  connection_push_packet c w callback;;
  c' ← conn c;
  u ← io_used (send_overlap c');
  if (u =? 0)%Z then
    io_set_used (send_overlap c') 1;;
    O ← prepare_send c;
    '(r, _) ← WSASend K fuel (c_socket c') O false;
    mret (Some r)
  else mret None.

(** One round of [while(bytestransfer > 0)] in [SendFinish]; [inr None] is the
    return in the middle of the loop. *)
Definition send_body (c : ptr) (x : Z * Z) : W ((Z * Z) + option (Z * Z)) :=
  let '(bytestransfer, err) := x in
  if (0 <? bytestransfer)%Z then
    update_send_list c bytestransfer;;
    io ← prepare_send c;
    c' ← conn c;
    match io with
    | None => io_set_used (send_overlap c') 0;; mret (inr None)
    | Some _ => r ← WSASend K fuel (c_socket c') io true; mret (inl r)
    end
  else mret (inr (Some x)).

(** The loop [for(;;)] of [SendFinish]. *)
Definition send_loop_body (c : ptr) (x : Z * Z) : W ((Z * Z) + ()) :=
  let '(bytestransfer, err) := x in
  if (bytestransfer =? 0)%Z || (bytestransfer <? 0)%Z && negb (err =? EAGAIN)%Z then
    c' ← conn c;
    close_direction c (send_overlap c') (recv_overlap c');;
    mret (inr tt)
  else if (bytestransfer <? 0)%Z then mret (inr tt)
  else
    x ← loop fuel (send_body c) x;
    match x with
    | Some x => mret (inl x)
    | None => mret (inr tt)
    end.

Definition SendFinish (bytestransfer : Z) (io : ptr) : W () :=
  o ← on_overlaps (hload io);
  r ← on_ios (hload io);
  loop fuel (send_loop_body (ov_c o)) (bytestransfer, err_code r).

(** ** Life cycle *)

(** [calloc] of the struct: a request at a fresh address that is no other list
    node's. *)
Definition new_request (c : ptr) : W loc :=
  w ← get;
  let l := fresh (dom (w_nexts w) ∪ dom (w_ios w) ∪ dom (w_sockets w) ∪ dom (m_overlaps (w_mem w))) in
  on_nexts (modify (insert l NULL));;
  on_ios (modify (insert l (StIo NULL 0 0)));;
  on_overlaps (modify (insert l (Overlap 0 c)));;
  mret l.

Definition connection_create (s : Z) (is_raw mt : bool) (process disconnect : option nat) : W ptr :=
  w ← get;
  let c := fresh (dom (m_conns (w_mem w))) in
  sendbuf ← on_iovs (halloc (replicate (Z.to_nat MAX_WBAF) (Iovec (NULL, 0%Z) 0)));
  recvbuf ← on_iovs (halloc (replicate 2 (Iovec (NULL, 0%Z) 0)));
  send_io ← new_request (Some c);
  recv_io ← new_request (Some c);
  on_conns (modify (insert c (Connection s sendbuf recvbuf send_io recv_io 0 0 0 NULL NULL
    create_link_list process disconnect mt is_raw 0)));;
  mret (Some c).

(** The loop that destroys the packets that were not sent. *)
Definition drain_body (c : ptr) (_ : ()) : W (() + ()) :=
  w ← pop_packet c;
  match w with
  | Some _ => destroy_packet w;; mret (inl tt)
  | None => mret (inr tt)
  end.

Definition free_request (io arr : loc) : W () :=
  on_nexts (hfree (Some io));; on_ios (hfree (Some io));; on_overlaps (hfree (Some io));;
  on_iovs (hfree (Some arr)).

(** The pointer to the connection is set to NULL by the caller's [c] when the
    result is 0. *)
Definition connection_destroy (c : ptr) : W Z :=
  c' ← conn c;
  r ← io_used (recv_overlap c');
  s ← io_used (send_overlap c');
  if (r =? 0)%Z && (s =? 0)%Z then
    n ← on_nexts (gets size);
    loop (2 + n) (drain_body c) tt;;
    on_bufs (buffer_release (unpack_buf c'));;
    on_bufs (buffer_release (next_recv_buf c'));;
    free_request (send_overlap c') (wsendbuf c');;
    free_request (recv_overlap c') (wrecvbuf c');;
    on_conns (hfree c);;
    mret 0%Z
  else mret (-1)%Z.

Definition connection_start_recv (c : ptr) : W Z :=
  c' ← conn c;
  match unpack_buf c' with
  | Some _ => mret (-1)%Z
  | None =>
      b ← on_bufs (buffer_create_and_acquire (c_mt c') NULL BUFFER_SIZE);
      conn_set c (set_unpack_buf b);;
      nb ← on_bufs (buffer_acquire NULL b);
      conn_set c (set_next_recv_buf nb);;
      conn_set c (λ c, set_next_recv_pos 0 (set_unpack_pos 0 (set_unpack_size 0 c)));;
      iov_set (wrecvbuf c') 0 (Iovec (nb, 0%Z) BUFFER_SIZE);;
      set_request (recv_overlap c') (wrecvbuf c') 1;;
      io_set_used (recv_overlap c') 1;;
      '(r, _) ← WSARecv K fuel (c_socket c') (Some (recv_overlap c')) false;
      mret r
  end.

Definition connection_active_close (c : ptr) : W () :=
  c' ← conn c;
  CloseSocket K (c_socket c');;
  io_set_used (recv_overlap c') 0;;
  io_set_used (send_overlap c') 0;;
  match _on_disconnect c' with
  | Some f => disconnect f c (-2)
  | None => mret tt
  end.
End connection.
