(* ===== verification/Unpack.v ===== *)
(** * Unpacking ([src/src/Connection.c])

    The receive buffers of a connection as a view of the heap ([recv_rep]), the
    reference parser [parse] of a byte stream, and the theorem that [unpack]
    delivers the packets that the parser cuts off. *)
From S2P Require Import Prelude LinkList Buffer WPacket RPacket Net Connection.

(** ** The receive buffers *)

(** [B] bytes per buffer, in the units of lists. *)
Definition B : nat := Z.to_nat BUFFER_SIZE.
Lemma B_Z : Z.of_nat B = BUFFER_SIZE.
Proof. done. Qed.
Lemma BUFFER_SIZE_pos : (4 < BUFFER_SIZE < 2 ^ 30)%Z.
Proof. done. Qed.
Lemma BUFFER_SIZE_value : BUFFER_SIZE = 65536%Z.
Proof. done. Qed.
#[global] Opaque B BUFFER_SIZE.

(** The bytes of memory of the buffers [ls], valid or not. *)
Definition raw_bytes (h : bufs) (ls : list loc) : list Z :=
  concat ((λ l, from_option buf [] (h !! l)) <$> ls).

Definition whole (b : buffer) : Prop := buf_wf b ∧ capacity b = BUFFER_SIZE.

(** The buffers [dn ++ pre ++ cur :: post] are a chain: [dn] are those that
    unpacking has left, and that a packet still refers to; unpacking is in the
    first of [pre ++ [cur]], receiving in [cur].  The bytes that are received
    and not unpacked are [data].  A buffer [l] has between [need l] and [most l]
    references. *)
Record rview (h : bufs) (c : connection) (dn pre : list loc) (cur : loc) (post : list loc)
    (data : list Z) (need most : loc → Z) : Prop := {
  rv_chain : chain h (head (dn ++ pre ++ cur :: post)) (dn ++ pre ++ cur :: post) NULL;
  rv_nodup : NoDup (dn ++ pre ++ cur :: post);
  rv_unpack : unpack_buf c = head (pre ++ cur :: post);
  rv_cur : next_recv_buf c = Some cur;
  rv_whole : ∀ l, l ∈ dn ++ pre ++ cur :: post → ∃ b, h !! l = Some b ∧ whole b ∧
    (need l ≤ rc b < most l)%Z;
  rv_full : ∀ l, l ∈ dn ++ pre → ∃ b, h !! l = Some b ∧ b_size b = BUFFER_SIZE;
  rv_pos : (∃ b, h !! cur = Some b ∧ b_size b = next_recv_pos c) ∧ (0 ≤ next_recv_pos c < BUFFER_SIZE)%Z;
  rv_post : ∀ l, l ∈ post → ∃ b, h !! l = Some b ∧ b_size b = 0%Z;
  rv_upos : (0 ≤ unpack_pos c < BUFFER_SIZE)%Z ∧ (pre = [] → unpack_pos c ≤ next_recv_pos c)%Z;
  rv_data : drop (Z.to_nat (unpack_pos c)) (content h (pre ++ cur :: post)) = data;
}.

(** The references that the connection itself holds: every buffer of the chain
    has one from its predecessor or from [unpack_buf], and the current one has
    one from [next_recv_buf]. *)
Definition own (cur l : loc) : Z := (if decide (l = cur) then 2 else 1)%Z.
Definition LIMIT : Z := 2 ^ 30.

(** The connection at rest.  Others hold fewer than [LIMIT] references; the
    first buffer may still have the one of its predecessor. *)
Definition at_most (c : connection) (cur l : loc) : Z :=
  (own cur l + LIMIT + (if decide (unpack_buf c = Some l) then 1 else 0))%Z.
Definition recv_rep (h : bufs) (c : connection) (pre : list loc) (cur : loc) (post : list loc)
    (data : list Z) : Prop :=
  rview h c [] pre cur post data (own cur) (at_most c cur).

(** The connection while the packet [r] that begins in the buffer [l1] is
    delivered: the packet has two references to [l1], and every buffer after it
    the one of its predecessor. *)
Definition own_during (c : connection) (l1 cur l : loc) : Z :=
  ((if decide (l = l1) then 2 else 1) + (if decide (unpack_buf c = Some l) then 1 else 0) +
  (if decide (l = cur) then 1 else 0))%Z.
Definition most_during (c : connection) (l1 cur l : loc) : Z :=
  (own_during c l1 cur l + LIMIT + (if decide (l = l1) then 1 else 0))%Z.
Definition recv_during (h : bufs) (c : connection) (dn pre : list loc) (cur : loc) (post : list loc)
    (data : list Z) (l1 : loc) : Prop :=
  rview h c dn pre cur post data (own_during c l1 cur) (most_during c l1 cur) ∧
  head (dn ++ pre ++ cur :: post) = Some l1.

Section view.
Implicit Types (h : bufs) (c : connection) (dn pre post : list loc) (cur : loc).

Lemma wf_whole b : whole b → (0 ≤ b_size b ≤ BUFFER_SIZE)%Z ∧ length (buf b) = B.
Proof. intros [(? & ? & ->) Hc]. by rw Hc in H *. Qed.

Lemma rview_chain_wf h c dn pre cur post data need most :
  rview h c dn pre cur post data need most → chain_wf h (dn ++ pre ++ cur :: post).
Proof. intros Hv l Hl. destruct (rv_whole _ _ _ _ _ _ _ _ _ Hv l Hl) as (b & ? & [? _] & _). eauto. Qed.

Lemma head_app_cons {T} (l1 : list T) x l2 : ∃ y, head (l1 ++ x :: l2) = Some y ∧ y ∈ l1 ++ [x].
Proof. destruct l1 as [|y l1]; simpl; [exists x|exists y]; set_solver. Qed.

(** The chain from the unpacking position on. *)
Lemma rview_tail h c dn pre cur post data need most : rview h c dn pre cur post data need most →
  chain h (unpack_buf c) (pre ++ cur :: post) NULL ∧ NoDup (pre ++ cur :: post) ∧
  chain_wf h (pre ++ cur :: post).
Proof.
  intros Hv. pose proof (rv_chain _ _ _ _ _ _ _ _ _ Hv) as Hc. split_and!.
  - rw (rv_unpack _ _ _ _ _ _ _ _ _ Hv). apply chain_app in Hc as (r & _ & Hc).
    enough (r = head (pre ++ cur :: post)) as <- by done.
    destruct (pre ++ cur :: post) eqn:E; [by destruct pre|]. by destruct Hc as [-> _].
  - pose proof (rv_nodup _ _ _ _ _ _ _ _ _ Hv) as Hn. by apply NoDup_app in Hn as (_ & _ & ?).
  - intros l Hl. eapply rview_chain_wf; [done|]. set_solver.
Qed.

(** The buffer in which unpacking is. *)
Lemma rview_head h c dn pre cur post data need most : rview h c dn pre cur post data need most →
  ∃ l ls b, pre ++ cur :: post = l :: ls ∧ unpack_buf c = Some l ∧ h !! l = Some b ∧ whole b ∧
    (need l ≤ rc b < most l)%Z ∧ (unpack_pos c ≤ b_size b)%Z ∧
    (b_size b = BUFFER_SIZE ∨ pre = [] ∧ l = cur ∧ ls = post).
Proof.
  intros Hv. destruct (rv_upos _ _ _ _ _ _ _ _ _ Hv) as [Hu1 Hu2].
  destruct (rv_pos _ _ _ _ _ _ _ _ _ Hv) as [(bc & Hbc & Hsz) Hp].
  pose proof (rv_unpack _ _ _ _ _ _ _ _ _ Hv) as Hub. destruct pre as [|l pre]; simpl in *.
  - destruct (rv_whole _ _ _ _ _ _ _ _ _ Hv cur) as (b & Hb & Hw & Hrc); [set_solver|].
    assert (bc = b) as -> by congruence. exists cur, post, b. split_and!; try done; [lia..| |by right]. rw Hsz. by apply Hu2.
  - destruct (rv_whole _ _ _ _ _ _ _ _ _ Hv l) as (b & Hb & Hw & Hrc); [set_solver|].
    destruct (rv_full _ _ _ _ _ _ _ _ _ Hv l) as (b' & Hb' & Hs); [set_solver|].
    assert (b' = b) as -> by congruence. exists l, (pre ++ cur :: post), b. split_and!; try done; [lia..|by left].
Qed.
End view.

(** ** Unpacking

    [cw w c h c'] is the state [w] with the buffers [h] and the connection [c']
    at [c]. *)

Section cw.
Context {A : Type}.
Implicit Types (w : world (cmem A)) (c : loc).

Definition cw w c (h : bufs) (k : connection) : world (cmem A) :=
  let u := w_mem w in
  set_mem (CMem h (<[c := k]> (m_conns u)) (m_overlaps u) (m_packets u) (packet_send u) (m_client u)) w.

Lemma wp_bufs {B} (m : M bufs B) w c h k (R : B → world (cmem A) → Prop) :
  wp m h (λ a h', R a (cw w c h' k)) → wp (on_bufs m) (cw w c h k) R.
Proof. intros Hm. rw /on_bufs /on_mem. do 2 wp_step. exact Hm. Qed.

Lemma wp_conn w c h k (R : connection → world (cmem A) → Prop) :
  R k (cw w c h k) → wp (conn (Some c)) (cw w c h k) R.
Proof. intros HR. rw /conn /on_conns /on_mem. do 2 wp_step. eapply wp_hload; [apply lookup_insert_eq|done]. Qed.

Lemma wp_conn_set w c h k f (R : () → world (cmem A) → Prop) :
  R tt (cw w c h (f k)) → wp (conn_set (Some c) f) (cw w c h k) R.
Proof.
  intros HR. rw /conn_set /on_conns /on_mem. do 2 wp_step.
  eapply wp_hmodify; [apply lookup_insert_eq|]. cbn. rw insert_insert_eq. exact HR.
Qed.
End cw.

(** [wp_go] for the operations of a connection. *)
Ltac cn_step :=
  cbn beta match;
  lazymatch goal with
  | |- wp (conn (Some _)) (cw _ _ _ _) _ => apply wp_conn
  | |- wp (conn_set (Some _) _) (cw _ _ _ _) _ => apply wp_conn_set
  | |- wp (on_bufs _) (cw _ _ _ _) _ => apply wp_bufs
  | _ => wp_step
  end.

(** The reference parser: the payloads of the frames that [bs] holds, and the
    bytes that are left.  A frame is cut off only when more bytes than a length
    field are there. *)
Fixpoint frames (fuel : nat) (bs : list Z) : list (list Z) * list Z :=
  match fuel with
  | O => ([], bs)
  | S fuel =>
      if (length bs <=? 4)%nat then ([], bs)
      else
        let n := Z.to_nat (le (take 4 bs)) in
        if (length bs <? 4 + n)%nat then ([], bs)
        else
          let '(ps, rest) := frames fuel (drop (4 + n) bs) in
          (take n (drop 4 bs) :: ps, rest)
  end.
Definition parse (bs : list Z) : list (list Z) * list Z := frames (S (length bs)) bs.

(** The length fields that are met from position [pos] of a buffer on: they lie
    in one buffer, and are not so large that 32 bits overflow. *)
Fixpoint headers_ok (fuel : nat) (pos : Z) (bs : list Z) : Prop :=
  match fuel with
  | O => True
  | S fuel =>
      (4 < length bs)%nat → (pos + 4 ≤ BUFFER_SIZE)%Z ∧ (le (take 4 bs) + 36 < 2 ^ 32)%Z ∧
        let n := Z.to_nat (le (take 4 bs)) in
        ((4 + n ≤ length bs)%nat → headers_ok fuel ((pos + 4 + le (take 4 bs)) mod BUFFER_SIZE) (drop (4 + n) bs))
  end.

Section unpack.
Implicit Types (h : bufs) (c : connection) (dn pre post : list loc) (cur l : loc).

(** A byte string. *)
Definition bytes (bs : list Z) : Prop := Forall (λ b, 0 ≤ b < 2 ^ 8)%Z bs.

Lemma le_bound bs : bytes bs → (0 ≤ le bs < 2 ^ (8 * Z.of_nat (length bs)))%Z.
Proof.
  induction 1 as [|b bs Hb _ IH]; [done|]. cbn [le length].
  rw (_ : 8 * Z.of_nat (S (length bs)) = 8 + 8 * Z.of_nat (length bs))%Z; [lia|].
  rw Z.pow_add_r; [lia..|]. lia.
Qed.

(** Reading a length field. *)
Lemma read_header h c dn pre cur post data need most : rview h c dn pre cur post data need most →
  4 ≤ length data →
  buffer_read (2 + size h) (unpack_buf c) (unpack_pos c) 4 h = Ok ((0%Z, take 4 data), h).
Proof.
  intros Hv Hlen. destruct (rview_tail _ _ _ _ _ _ _ _ _ Hv) as (Hc & Hnd & Hwf).
  destruct (rview_head _ _ _ _ _ _ _ _ _ Hv) as (l & ls & b & Hls & Hub & Hb & Hw & Hrc & Hle & Hfull).
  pose proof (chain_length _ _ _ _ Hc Hnd) as Hsz.
  rw /buffer_read (buffer_read_loop _ h _ (pre ++ cur :: post)) //.
  - destruct (rv_upos _ _ _ _ _ _ _ _ _ Hv). lia.
  - lia.
  - rw Hub. intros l' [= <-]. by exists b.
  - by rw Hub.
  - rw (rv_data _ _ _ _ _ _ _ _ _ Hv) decide_True; [by rw (_ : Z.to_nat 4 = 4)|]. done.
Qed.

(** What a view needs of the store. *)
Lemma rview_hbody h h' c dn pre cur post data need most need' most' :
  rview h c dn pre cur post data need most → hbody h h' →
  (∀ l b, l ∈ dn ++ pre ++ cur :: post → h !! l = Some b → (need l ≤ rc b < most l)%Z →
     ∃ b', h' !! l = Some b' ∧ (need' l ≤ rc b' < most' l)%Z) →
  rview h' c dn pre cur post data need' most'.
Proof.
  intros [C1 C2 C3 C4 C5 C6 C7 C8 C9 C10] Hb Hrc.
  assert (Hsz : ∀ l b, h !! l = Some b → ∃ b', h' !! l = Some b' ∧ b_size b' = b_size b ∧
    (whole b → whole b')).
  { intros l b Hl. destruct (hbody_lookup _ _ _ _ Hb Hl) as (b' & Hl' & [= Hc Hs _ Hbuf]).
    exists b'. by rw /whole /buf_wf Hc Hs Hbuf. }
  split; try done.
  - by eapply hbody_chain.
  - intros l Hl. destruct (C5 l Hl) as (b & Hlb & Hw & Hr). destruct (Hsz _ _ Hlb) as (b' & Hlb' & _ & Hw').
    destruct (Hrc l b Hl Hlb Hr) as (b2 & Hlb2 & Hr'). exists b'. split_and!; [done|auto|..]; congruence || naive_solver congruence.
  - intros l Hl. destruct (C6 l Hl) as (b & Hlb & Hs). destruct (Hsz _ _ Hlb) as (b' & ? & Hs' & _).
    exists b'. split; [done|congruence].
  - destruct C7 as [(b & Hlb & Hs) ?]. destruct (Hsz _ _ Hlb) as (b' & ? & Hs' & _).
    split; [|done]. exists b'. split; [done|congruence].
  - intros l Hl. destruct (C8 l Hl) as (b & Hlb & Hs). destruct (Hsz _ _ Hlb) as (b' & ? & Hs' & _).
    exists b'. split; [done|congruence].
  - by rw (hbody_content h h' _ Hb).
Qed.

(** The content of buffers that are empty. *)
Lemma content_empty h ls : (∀ l, l ∈ ls → ∃ b, h !! l = Some b ∧ b_size b = 0%Z) → content h ls = [].
Proof.
  induction ls as [|l ls IH]; intros Hls; [done|].
  destruct (Hls l ltac:(left)) as (b & Hb & Hs). rw (content_cons _ _ _ _ Hb) /bdata Hs IH //.
  intros l' ?. apply Hls. by right.
Qed.

(** The bytes ahead in the buffer where unpacking is. *)
Lemma rview_ahead h c dn pre cur post data need most l ls b :
  rview h c dn pre cur post data need most → pre ++ cur :: post = l :: ls → h !! l = Some b →
  data = drop (Z.to_nat (unpack_pos c)) (bdata b) ++ content h ls ∧
  length (drop (Z.to_nat (unpack_pos c)) (bdata b)) = Z.to_nat (b_size b - unpack_pos c) ∧
  (pre = [] → content h ls = []).
Proof.
  intros Hv Hls Hb. destruct (rview_head _ _ _ _ _ _ _ _ _ Hv) as (l' & ls' & b' & Hls' & Hub & Hb' & Hw & _ & Hle & _).
  rw Hls in Hls'. injection Hls' as <- <-. assert (b' = b) as -> by congruence.
  destruct (rv_upos _ _ _ _ _ _ _ _ _ Hv) as [? _]. pose proof (length_bdata b (proj1 Hw)).
  split_and!.
  - rw -(rv_data _ _ _ _ _ _ _ _ _ Hv) Hls (content_cons _ _ _ _ Hb) drop_app_le //. lia.
  - rw length_drop. lia.
  - intros ->. injection Hls as <- <-. apply content_empty. apply (rv_post _ _ _ _ _ _ _ _ _ Hv).
Qed.

(** Unpacking goes on in the same buffer. *)
Lemma rview_stay h c dn pre cur post data need most (n : nat) :
  rview h c dn pre cur post data need most → n ≤ length data →
  (unpack_pos c + Z.of_nat n < BUFFER_SIZE)%Z →
  (∀ l, unpack_buf c = Some l → ∀ b, h !! l = Some b → unpack_pos c + Z.of_nat n ≤ b_size b)%Z →
  rview h (set_unpack_pos (unpack_pos c + Z.of_nat n) c) dn pre cur post (drop n data) need most.
Proof.
  intros Hv Hn Hpos Hsz. destruct (rview_head _ _ _ _ _ _ _ _ _ Hv) as (l & ls & b & Hls & Hub & Hb & _ & _ & _ & Hor).
  destruct Hv as [C1 C2 C3 C4 C5 C6 C7 C8 [C9 C9'] C10]. split; try done.
  - simpl. split; [lia|]. intros ->. injection Hls as <- <-.
    destruct C7 as [(b' & Hb' & <-) _]. assert (b' = b) as -> by congruence. by apply (Hsz cur).
  - simpl. rw Z2Nat.inj_add; [lia..|]. by rw -drop_drop C10 Nat2Z.id.
Qed.

(** Unpacking moves to the next buffer. *)
Lemma rview_move h c dn l pre cur post data need most (n : nat) :
  rview h c dn (l :: pre) cur post data need most →
  (unpack_pos c + Z.of_nat n = BUFFER_SIZE)%Z →
  rview h (set_unpack_buf (head (pre ++ cur :: post)) (set_unpack_pos 0 c)) (dn ++ [l]) pre cur post
    (drop n data) need most.
Proof.
  intros Hv Hn. pose proof BUFFER_SIZE_pos.
  destruct (rview_head _ _ _ _ _ _ _ _ _ Hv) as (l' & ls & b & Hls & Hub & Hb & Hw & _ & _ & Hor).
  injection Hls as <- <-. destruct Hor as [Hfull|[? _]]; [|done].
  destruct (rview_ahead _ _ _ _ _ _ _ _ _ l _ b Hv eq_refl Hb) as (Hd & Hl & _).
  destruct Hv as [C1 C2 C3 C4 C5 C6 C7 C8 [C9 C9'] C10]. split; try done.
  - by rw -app_assoc.
  - by rw -app_assoc.
  - by rw -app_assoc.
  - by rw -app_assoc.
  - simpl. destruct C7 as [_ ?]. split; lia.
  - simpl. rw drop_0 Hd drop_app_length' //. lia.
Qed.

Lemma rview_weaken h c dn pre cur post data need most need' most' :
  rview h c dn pre cur post data need most →
  (∀ l, l ∈ dn ++ pre ++ cur :: post → need' l ≤ need l ∧ most l ≤ most' l)%Z →
  rview h c dn pre cur post data need' most'.
Proof.
  intros Hv Hle. eapply rview_hbody; [done|done|]. intros l b Hl Hb ?. exists b. split; [done|].
  specialize (Hle l Hl). lia.
Qed.

(** The size field is of no concern. *)
Lemma rview_size h c dn pre cur post data need most s :
  rview h c dn pre cur post data need most → rview h (set_unpack_size s c) dn pre cur post data need most.
Proof. by intros []. Qed.

(** Creating a packet takes two references to the current buffer. *)
Lemma rpacket_create_view h c pre cur post data mt pos len :
  recv_rep h c pre cur post data →
  wp (rpacket_create mt (unpack_buf c) pos len false) h (λ r h', ∃ l1,
    recv_during h' c [] pre cur post data l1 ∧ hbody h h' ∧ unpack_buf c = Some l1 ∧
    r = RPacket len (u32 (pos + 4)) len 0 pos NULL (Some l1) (Some l1) false mt).
Proof.
  intros Hv. destruct (rview_head _ _ _ _ _ _ _ _ _ Hv) as (l & ls & b & Hls & Hub & Hb & _ & Hrc & _ & _).
  assert (1 ≤ rc b < 2 ^ 31 - 10)%Z as Hrc'.
  { rw /at_most /own /LIMIT in Hrc. repeat case_decide; lia. }
  rw Hub /rpacket_create.
  wp_step. eapply wp_buffer_acquire_null; [done|lia|]. wp_step.
  eapply wp_buffer_acquire_null; [apply lookup_insert_eq|rw rc_ref_add; lia|]. wp_step.
  rw insert_insert_eq. set (b2 := ref_add 1 (ref_add 1 b)).
  assert (Hbody : hbody h (<[l := b2]> h)).
  { intros l'. rw lookup_insert. case_decide; [subst; by rw Hb|done]. }
  exists l. split_and!; [|done|done|done]. split; [|simpl; by rw Hls].
  eapply rview_hbody; [done|done|]. intros l' b' Hl' Hb' Hr. rw /most_during /own_during.
  rw /own /at_most /own in Hr. rw Hub in Hr *. destruct (decide (l' = l)) as [->|Hne].
  - exists b2. rw lookup_insert_eq. split; [done|]. assert (b' = b) as -> by congruence.
    rw /b2 !rc_ref_add. repeat case_decide; try done; lia.
  - exists b'. rw lookup_insert_ne //. split; [done|]. repeat case_decide; try congruence; lia.
Qed.

(** What unpacking does not change. *)
Definition same_rest (c c' : connection) : Prop :=
  c' = set_unpack_buf (unpack_buf c') (set_unpack_pos (unpack_pos c') (set_unpack_size (unpack_size c') c)).
#[export] Instance same_rest_preorder : PreOrder same_rest.
Proof. split; [by intros []|]. rw /same_rest. intros c1 c2 c3 -> ->. done. Qed.

(** Moving the unpacking reference to the next buffer; the packet keeps the
    buffer that is left alive. *)
Lemma acquire_next h c dn l pre cur post data l1 :
  recv_during h c dn (l :: pre) cur post data l1 →
  ∃ l2, head (pre ++ cur :: post) = Some l2 ∧ (∃ b, h !! l = Some b ∧ b_next b = Some l2) ∧
  ∀ R : ptr → bufs → Prop, (∀ h', hbody h h' →
     (∀ c' data', rview h c' (dn ++ [l]) pre cur post data' (own_during c l1 cur) (most_during c l1 cur) →
        unpack_buf c' = Some l2 → recv_during h' c' (dn ++ [l]) pre cur post data' l1) →
     R (Some l2) h') →
  wp (buffer_acquire (Some l) (Some l2)) h R.
Proof.
  intros [Hv Hhd]. pose proof (rv_chain _ _ _ _ _ _ _ _ _ Hv) as Hc. apply chain_app in Hc as (p & _ & Hc).
  destruct Hc as (-> & b & Hb & Hc). destruct (pre ++ cur :: post) as [|l2 ls] eqn:Hls; [by destruct pre|].
  destruct Hc as (Hn & b2 & Hb2 & _). exists l2. split; [done|]. split; [by exists b|]. intros R HR.
  assert (Hnd : NoDup (dn ++ l :: l2 :: ls)) by (pose proof (rv_nodup _ _ _ _ _ _ _ _ _ Hv) as H; by rw /= Hls in H).
  apply NoDup_app in Hnd as (_ & Hdis & [Hl Hnd]%NoDup_cons).
  assert (l ≠ l2) as Hne by (intros ->; apply Hl; left).
  assert (l ≠ cur) as Hnc.
  { intros ->. apply Hl. rw -Hls. set_solver. }
  destruct (rv_whole _ _ _ _ _ _ _ _ _ Hv l) as (b' & Hb' & _ & Hr); [set_solver|].
  destruct (rv_whole _ _ _ _ _ _ _ _ _ Hv l2) as (b2' & Hb2' & _ & Hr2); [rw /= Hls; set_solver|].
  simplify_eq. pose proof (rv_unpack _ _ _ _ _ _ _ _ _ Hv) as Hub. simpl in Hub.
  assert (l2 ≠ l1) as Hl1.
  { intros ->. destruct dn as [|d dn]; simpl in Hhd; [congruence|]. injection Hhd as ->.
    eapply (Hdis l1); [left|]. right. left. }
  rw /own_during /most_during /own_during Hub /LIMIT in Hr Hr2.
  eapply (wp_buffer_acquire_move l l2 b b2); [done..| | |].
  - repeat case_decide; try congruence; lia.
  - repeat case_decide; try congruence; lia.
  - apply HR.
    { etrans; [by apply (hbody_insert h l2 b2 1)|]. apply hbody_insert. by rw lookup_insert_ne. }
    intros c' data' Hv' Hub'. split.
    2:{ rw -app_assoc /= Hls. rw /= Hls in Hhd. exact Hhd. }
    eapply rview_hbody; [exact Hv'| |].
    { etrans; [by apply (hbody_insert h l2 b2 1)|]. apply hbody_insert. by rw lookup_insert_ne. }
    intros x bx _ Hx Hrx. rw /own_during /most_during /own_during Hub' /LIMIT.
    rw /own_during /most_during /own_during Hub /LIMIT in Hrx.
    destruct (decide (x = l)) as [->|Hxl]; [|destruct (decide (x = l2)) as [->|Hxl2]].
    + exists (ref_add (-1) b). rw lookup_insert_eq. split; [done|]. assert (bx = b) as -> by congruence.
      rw rc_ref_add. repeat case_decide; try congruence; lia.
    + exists (ref_add 1 b2). rw lookup_insert_ne // lookup_insert_eq. split; [done|].
      assert (bx = b2) as -> by congruence. rw rc_ref_add. repeat case_decide; try congruence; lia.
    + exists bx. rw !lookup_insert_ne //. split; [done|]. repeat case_decide; try congruence; lia.
Qed.

(** One round of the loop past a packet: it uses up the bytes of the buffer or
    of the packet. *)
Lemma skip_round {A} (w : world (cmem A)) (C : loc) h c dn pre cur post data l1 (n : nat) :
  recv_during h c dn pre cur post data l1 → 0 < n ≤ length data →
  (Z.of_nat (length data) < 2 ^ 31)%Z → unpack_size c = Z.of_nat (length data) →
  wp (skip_body (Some C) (Z.of_nat n)) (cw w C h c) (λ r s, ∃ (m : nat) h' c' dn' pre',
    r = inl (Z.of_nat (n - m)) ∧ s = cw w C h' c' ∧ m ≤ n ∧
    recv_during h' c' dn' pre' cur post (drop m data) l1 ∧ hbody h h' ∧
    unpack_size c' = Z.of_nat (length (drop m data)) ∧
    unpack_pos c' = ((unpack_pos c + Z.of_nat m) mod BUFFER_SIZE)%Z ∧ same_rest c c' ∧
    length pre' ≤ length pre ∧ (n - m = 0 ∨ length pre' < length pre)).
Proof.
  intros [Hv Hhd] Hn Hlen Hus. pose proof BUFFER_SIZE_pos.
  destruct (rview_head _ _ _ _ _ _ _ _ _ Hv) as (l & ls & b & Hls & Hub & Hb & Hw & _ & Hle & Hor).
  destruct (rview_ahead _ _ _ _ _ _ _ _ _ l ls b Hv Hls Hb) as (Hd & Hla & Hnil).
  destruct (wf_whole _ Hw) as [Hs _]. pose proof (proj2 Hw) as Hcap.
  destruct (proj1 (rv_upos _ _ _ _ _ _ _ _ _ Hv)) as [Hu0 HuB].
  rw /skip_body. rw (proj2 (Z.eqb_neq _ _)); [lia|]. do 2 cn_step. cn_step. cn_step. rw Hub. wp_step.
  do 2 cn_step. rw (u32_small (b_size b - unpack_pos c)); [lia|].
  set (a := Z.to_nat (b_size b - unpack_pos c)) in *.
  rw (_ : b_size b - unpack_pos c = Z.of_nat a)%Z; [lia|].
  (* the bytes taken in this round *)
  set (m := min a n). assert ((if (Z.of_nat a <? Z.of_nat n)%Z then Z.of_nat a else Z.of_nat n) = Z.of_nat m) as ->.
  { destruct (Z.ltb_spec (Z.of_nat a) (Z.of_nat n)); lia. }
  do 3 cn_step. cbn zeta.
  rw (u32_small (unpack_pos c + Z.of_nat m)); [lia|].
  rw (u32_small (Z.of_nat n - Z.of_nat m)); [lia|]. simpl. rw Hus (u32_small (Z.of_nat (length data) - _)); [lia|].
  rw (_ : Z.of_nat (length data) - Z.of_nat m = Z.of_nat (length (drop m data)))%Z; [rw length_drop; lia|].
  set (c1 := set_unpack_size _ _).
  rw /unpack_next. cn_step. cn_step. do 2 cn_step. simpl. rw Hub. wp_step. rw Hcap.
  assert (Hinl : inl (Z.of_nat n - Z.of_nat m)%Z = inl (Z.of_nat (n - m)) :> Z + ()) by (f_equal; lia).
  destruct (Z.leb_spec BUFFER_SIZE (unpack_pos c + Z.of_nat m)) as [Hend|Hstay].
  - (* the end of the buffer *)
    destruct Hor as [Hfull|(-> & -> & ->)].
    2:{ destruct (rv_pos _ _ _ _ _ _ _ _ _ Hv) as [(b' & Hb' & Hbs) ?].
        assert (b' = b) as -> by congruence. lia. }
    destruct pre as [|l' pre].
    { injection Hls as <- _. destruct (rv_pos _ _ _ _ _ _ _ _ _ Hv) as [(b' & Hb' & Hbs) ?].
      assert (b' = b) as -> by congruence. lia. }
    injection Hls as <- Hls. destruct (acquire_next h c dn l' pre cur post data l1) as (l2 & Hl2 & (b' & Hb' & Hnx) & Hacq);
      [done|]. assert (b' = b) as -> by congruence. rw Hnx.
    cn_step. cn_step; [done|]. do 2 cn_step. cn_step. cn_step.
    apply Hacq. intros h' Hbody Hrep. cn_step. cn_step. rw Hinl.
    set (c2 := set_unpack_buf _ _).
    exists m, h', c2, (dn ++ [l']), pre. split_and!; try done; [lia| | | |].
    + apply Hrep; [|done].
      change c2 with (set_unpack_size (unpack_size c1) (set_unpack_buf (Some l2) (set_unpack_pos 0 c))).
      apply rview_size. rw -Hl2. eapply rview_move; [done|lia].
    + simpl. rw (_ : unpack_pos c + Z.of_nat m = BUFFER_SIZE)%Z; [lia|]. by rw Z.mod_same; [lia|].
    + simpl. lia.
    + right. simpl. lia.
  - do 2 cn_step. rw Hinl. exists m, h, c1, dn, pre. split_and!; try done; [lia| | |].
    + split; [|done]. apply rview_size. apply rview_stay; [done|lia|done|].
      intros l' Hl' b' Hb'. simplify_eq. lia.
    + simpl. rw Z.mod_small; lia.
    + left. destruct (decide (n ≤ a)); [lia|]. exfalso. destruct Hor as [Hfull|(-> & -> & ->)]; [lia|].
      rw (Hnil eq_refl) app_nil_r in Hd. rw -Hd in Hla. lia.
Qed.

Lemma skip_ok {A} (w : world (cmem A)) (C : loc) h c dn pre cur post data l1 (n fuel : nat) :
  recv_during h c dn pre cur post data l1 → n ≤ length data →
  (Z.of_nat (length data) < 2 ^ 31)%Z → unpack_size c = Z.of_nat (length data) →
  n + length pre < fuel →
  wp (loop fuel (skip_body (Some C)) (Z.of_nat n)) (cw w C h c) (λ _ s, ∃ h' c' dn' pre',
    s = cw w C h' c' ∧ recv_during h' c' dn' pre' cur post (drop n data) l1 ∧ hbody h h' ∧
    unpack_size c' = Z.of_nat (length (drop n data)) ∧
    unpack_pos c' = ((unpack_pos c + Z.of_nat n) mod BUFFER_SIZE)%Z ∧ same_rest c c').
Proof.
  intros Hr Hn Hlen Hus Hfuel. pose proof BUFFER_SIZE_pos as HB.
  set (I := λ (k : nat) (left : Z) (s : world (cmem A)), ∃ (m : nat) h' c' dn' pre',
    left = Z.of_nat (n - m) ∧ m ≤ n ∧ k = n - m + length pre' ∧ s = cw w C h' c' ∧
    recv_during h' c' dn' pre' cur post (drop m data) l1 ∧ hbody h h' ∧
    unpack_size c' = Z.of_nat (length (drop m data)) ∧
    unpack_pos c' = ((unpack_pos c + Z.of_nat m) mod BUFFER_SIZE)%Z ∧ same_rest c c').
  apply (wp_loop I _ _ (n + length pre)); [| |done].
  2:{ exists 0, h, c, dn, pre. rw Nat.sub_0_r Z.add_0_r Z.mod_small; [|by split_and!; try done; lia].
      by destruct Hr as [[_ _ _ _ _ _ _ _ [? _] _] _]. }
  intros k left s (m & h1 & c1 & dn1 & pre1 & -> & Hm & -> & -> & Hr1 & Hb1 & Hus1 & Hup1 & Hsr1).
  destruct (decide (m = n)) as [->|Hne].
  { rw /skip_body Nat.sub_diag (Z.eqb_refl 0). wp_step. by exists h1, c1, dn1, pre1. }
  eapply wp_mono; [apply (skip_round w C h1 c1 dn1 pre1 cur post (drop m data) l1 (n - m)); try done|].
  - rw length_drop. lia.
  - rw length_drop. lia.
  - intros r s (m' & h2 & c2 & dn2 & pre2 & -> & -> & Hm' & Hr2 & Hb2 & Hus2 & Hup2 & Hsr2 & Hshort & Hprog).
    rw drop_drop in Hr2 Hus2. exists (n - m - m' + length pre2). split; [lia|].
    exists (m + m'), h2, c2, dn2, pre2. rw (_ : n - (m + m') = n - m - m'); [lia|].
    split_and!; try done; [lia|by etrans| |by etrans].
    rw Hup2 Hup1 Z.add_mod_idemp_l; [lia|]. f_equal. lia.
Qed.
End unpack.

(** *** The callback of the client

    The client is given a packet that it may read and keep; what matters here
    is that it leaves the connection and its buffers as it should, and that it
    sees the payload. *)

(** The packet [r] is to be read, from the buffer [l] on, and its payload is
    [payload]. *)
Definition fresh_packet (h : bufs) (r : rpacket) (l : loc) (ls : list loc) (payload : list Z) : Prop :=
  rp_rep h r l ls payload ∧ r_raw r = false ∧ r_len r = Z.of_nat (length payload) ∧
  r_buf r = Some l ∧ binbuf r = NULL.

Section client.
Context {A : Type} (process : nat → ptr → rpacket → M (world (cmem A)) ()).
(** What the client has seen, and a relation that all its steps keep. *)
Context (log : A → list (list Z)) (keeps : relation (world (cmem A))) `{!PreOrder keeps}.

(** The callback logs the payload, and gives the connection back with at most
    the references of packets dropped. *)
Definition good_process : Prop := ∀ f w C h c dn pre cur post data l1 r ls payload,
  _process_packet c = Some f →
  recv_during h c dn pre cur post data l1 → dn ++ pre ++ cur :: post = l1 :: ls →
  fresh_packet h r l1 ls payload →
  wp (process f (Some C) r) (cw w C h c) (λ _ s, ∃ w' h', s = cw w' C h' c ∧
    recv_rep h' c pre cur post data ∧ log (m_client (w_mem w')) = log (m_client (w_mem w)) ++ [payload] ∧
    keeps w w').

Lemma parse_step n bs : frames (S n) bs =
  if (length bs <=? 4)%nat then ([], bs)
  else
    let k := Z.to_nat (le (take 4 bs)) in
    if (length bs <? 4 + k)%nat then ([], bs)
    else let '(ps, rest) := frames n (drop (4 + k) bs) in (take k (drop 4 bs) :: ps, rest).
Proof. done. Qed.

(** What one round of [unpack] does with the bytes [data]. *)
Definition unpack_result (w : world (cmem A)) C cur post (data : list Z) (r : Z + ()) (s : world (cmem A)) 
    (c : connection) : Prop :=
  ∃ w' h' c' pre' data', s = cw w' C h' c' ∧ recv_rep h' c' pre' cur post data' ∧
    unpack_size c' = Z.of_nat (length data') ∧ same_rest c c' ∧ keeps w w' ∧
    let k := Z.to_nat (le (take 4 data)) in
    if (length data <=? 4)%nat || (length data <? 4 + k)%nat
    then r = inr tt ∧ data' = data ∧ unpack_pos c' = unpack_pos c ∧
         log (m_client (w_mem w')) = log (m_client (w_mem w))
    else (∃ k', r = inl k') ∧ data' = drop (4 + k) data ∧
         unpack_pos c' = ((unpack_pos c + 4 + Z.of_nat k) mod BUFFER_SIZE)%Z ∧
         log (m_client (w_mem w')) = log (m_client (w_mem w)) ++ [take k (drop 4 data)].

(** The packet that [rpacket_create] returns can be read, also after the loop
    that moves past it. *)
Lemma fresh_packet_ok h h2 c c2 dn2 pre pre2 cur post data data2 l1 mt (k : nat) :
  recv_rep h c pre cur post data → unpack_buf c = Some l1 →
  recv_during h2 c2 dn2 pre2 cur post data2 l1 → hbody h h2 →
  4 + k ≤ length data → (unpack_pos c + 4 ≤ BUFFER_SIZE)%Z → (Z.of_nat k + 36 < 2 ^ 32)%Z →
  ∃ ls, dn2 ++ pre2 ++ cur :: post = l1 :: ls ∧
  fresh_packet h2 (RPacket (Z.of_nat k) (u32 (unpack_pos c + 4)) (Z.of_nat k) 0 (unpack_pos c) NULL
    (Some l1) (Some l1) false mt) l1 ls (take k (drop 4 data)).
Proof.
  intros Hv Hub [Hv2 Hhd] Hbody Hk Hpos Hk32. pose proof BUFFER_SIZE_pos.
  destruct (rview_tail _ _ _ _ _ _ _ _ _ Hv) as (Hc & Hnd & Hwf).
  destruct (rview_head _ _ _ _ _ _ _ _ _ Hv) as (l & ls & b & Hls & Hub' & Hb & Hw & _ & Hle & Hor).
  assert (l = l1) as -> by congruence. rw Hub in Hc.
  pose proof (rv_chain _ _ _ _ _ _ _ _ _ Hv2) as Hc2. rw Hhd in Hc2.
  assert (dn2 ++ pre2 ++ cur :: post = l1 :: ls) as Heq.
  { rw -Hls. eapply chain_det; [exact Hc2|]. by eapply hbody_chain. }
  exists ls. split; [done|].
  destruct (rview_ahead _ _ _ _ _ _ _ _ _ l1 ls b Hv Hls Hb) as (Hd & Hla & Hnil).
  destruct (proj1 (rv_upos _ _ _ _ _ _ _ _ _ Hv)) as [Hu0 HuB].
  destruct (hbody_lookup _ _ _ _ Hbody Hb) as (b2 & Hb2 & Hbb). injection Hbb as Hcap Hsz _ Hbuf.
  assert (Hrefs : ∀ x, x ∈ l1 :: ls → ∃ bx, h2 !! x = Some bx ∧
    ((if decide (x = l1) then 2 else 1) ≤ rc bx < 2 ^ 31 - 1)%Z).
  { intros x Hx. rw -Heq in Hx. destruct (rv_whole _ _ _ _ _ _ _ _ _ Hv2 x Hx) as (bx & Hbx & _ & Hr).
    exists bx. split; [done|]. rw /most_during /own_during /LIMIT in Hr. repeat case_decide; lia. }
  assert (Hpos4 : (unpack_pos c + 4 ≤ b_size b)%Z).
  { destruct Hor as [->|(-> & -> & ->)]; [done|]. rw (Hnil eq_refl) app_nil_r in Hd.
    apply (f_equal length) in Hd. rw Hla in Hd. lia. }
  split; [|split_and!; simpl; try done; rw length_take length_drop; lia].
  split; cbn [readbuf rpos data_remain r_len].
  - done.
  - by rw -Heq.
  - rw -Heq. apply (rv_nodup _ _ _ _ _ _ _ _ _ Hv2).
  - rw -Heq. by eapply rview_chain_wf.
  - destruct (Hrefs l1 ltac:(left)) as (bx & Hbx & Hr). rw decide_True // in Hr. exists bx.
    assert (bx = b2) as -> by congruence. rw u32_small; [lia|]. rw Hsz. split_and!; [done|lia..].
  - intros x Hx. destruct (Hrefs x ltac:(by right)) as (bx & ? & Hr). exists bx. split; [done|].
    case_decide; lia.
  - rw length_take length_drop. lia.
  - exists (drop k (drop 4 data)). rw take_drop u32_small; [lia|]. rw (hbody_content h h2 _ Hbody) -Hls.
    rw -(rv_data _ _ _ _ _ _ _ _ _ Hv) drop_drop. f_equal. lia.
  - done.
  - rw length_take length_drop. lia.
Qed.

Context (Hprocess : good_process).

Lemma unpack_round w C h c f pre cur post data pk :
  recv_rep h c pre cur post data → c_raw c = false → _process_packet c = Some f →
  unpack_size c = Z.of_nat (length data) → (Z.of_nat (length data) < 2 ^ 31)%Z → bytes data →
  (4 < length data → (unpack_pos c + 4 ≤ BUFFER_SIZE)%Z ∧ (le (take 4 data) + 36 < 2 ^ 32)%Z) →
  wp (unpack_body process (Some C) pk) (cw w C h c) (λ r s, unpack_result w C cur post data r s c).
Proof.
  intros Hv Hraw Hf Hus Hlen Hbytes Hhdr. rw /unpack_body. do 2 cn_step. rw Hraw. cbn [negb].
  rw Hus. destruct (Z.leb_spec (Z.of_nat (length data)) 4) as [H4|H4].
  { wp_step. exists w, h, c, pre, data. split_and!; try done. rw (proj2 (Nat.leb_le _ _)); [lia|]. done. }
  destruct (Hhdr ltac:(lia)) as [Hpos Hle].
  pose proof (le_bound (take 4 data) ltac:(by apply Forall_take)) as Hle0.
  do 2 cn_step. cn_step. do 2 cn_step.
  eapply ok_wp; [eapply read_header; [exact Hv|lia]|]. cbn beta match.
  assert (length (take 4 data) = 4) as Hl4 by (rw length_take; lia). rw Hl4.
  rw (drop_ge (le_bytes 4 pk) 4); [by rw length_le_bytes|]. rw app_nil_r.
  set (k := Z.to_nat (le (take 4 data))). rw (_ : le (take 4 data) = Z.of_nat k); [lia|].
  rw (u32_small (Z.of_nat k + 4)); [lia|].
  destruct (Z.ltb_spec (Z.of_nat (length data)) (Z.of_nat k + 4)) as [Hshort|Hfull].
  { wp_step. exists w, h, c, pre, data. split_and!; try done.
    cbv zeta. fold k. rw (proj2 (Nat.ltb_lt (length data) (4 + k))); [lia|]. rw orb_true_r. done. }
  do 2 cn_step. eapply wp_mono; [by apply rpacket_create_view|].
  intros r h1 (l1 & Hd1 & Hb1 & Hub & ->). cn_step.
  destruct (rview_tail _ _ _ _ _ _ _ _ _ Hv) as (Hc & Hnd & _).
  pose proof (chain_length _ _ _ _ Hc Hnd) as Hsz. rw length_app in Hsz.
  rw (_ : Z.of_nat k + 4 = Z.of_nat (4 + k))%Z; [lia|].
  eapply wp_mono; [eapply (skip_ok w C h1 c [] pre cur post data l1 (4 + k)); try done; lia|].
  intros [] s (h2 & c2 & dn2 & pre2 & -> & Hd2 & Hb2 & Hus2 & Hup2 & Hsr2). cn_step.
  destruct (fresh_packet_ok h h2 c c2 dn2 pre pre2 cur post data (drop (4 + k) data) l1 (c_mt c) k)
    as (ls & Hls & Hfresh); try done; [by etrans|lia..|].
  rw /deliver. do 2 cn_step.
  assert (_process_packet c2 = Some f) as Hf2 by by rw Hsr2. rw Hf2.
  eapply wp_mono; [by eapply Hprocess|]. intros [] s (w' & h3 & -> & Hv3 & Hlog & Hkeep). wp_step.
  exists w', h3, c2, pre2, (drop (4 + k) data). split_and!; try done.
  cbv zeta. fold k. rw (proj2 (Nat.leb_gt _ _)); [lia|]. rw (proj2 (Nat.ltb_ge (length data) (4 + k))); [lia|]. cbn [orb].
  split_and!; [by eexists|done| |done]. rw Hup2. f_equal. lia.
Qed.

Lemma frames_more n m bs : length bs < n → length bs < m → frames n bs = frames m bs.
Proof.
  revert m bs. induction n as [|n IH]; intros m bs Hn Hm; [lia|]. destruct m as [|m]; [lia|].
  rw !parse_step. destruct (Nat.leb_spec (length bs) 4); [done|]. cbv zeta.
  destruct (Nat.ltb_spec (length bs) (4 + Z.to_nat (le (take 4 bs)))); [done|].
  by rw (IH m); [rw length_drop; lia..|].
Qed.

Lemma parse_short bs : (length bs <=? 4)%nat || (length bs <? 4 + Z.to_nat (le (take 4 bs)))%nat = true →
  parse bs = ([], bs).
Proof. rw /parse parse_step. destruct (length bs <=? 4)%nat; [done|]. cbn [orb]. by intros ->. Qed.

Lemma parse_frame bs : let k := Z.to_nat (le (take 4 bs)) in
  (length bs <=? 4)%nat || (length bs <? 4 + k)%nat = false →
  parse bs = (take k (drop 4 bs) :: (parse (drop (4 + k) bs)).1, (parse (drop (4 + k) bs)).2).
Proof.
  intros k Hk. apply orb_false_elim in Hk as [H4 Hk]. rw {1}/parse parse_step H4. cbv zeta. rw Hk.
  apply Nat.leb_gt in H4. fold k. rw (frames_more _ (S (length (drop (4 + k) bs)))); [rw length_drop; lia|lia|].
  rw -/(parse _). by destruct (parse _).
Qed.

Lemma parse_rest_le bs : length (parse bs).2 ≤ length bs.
Proof.
  remember (length bs) as n eqn:Hn. revert bs Hn. induction n as [n IH] using lt_wf_ind. intros bs ->.
  destruct ((length bs <=? 4)%nat || (length bs <? 4 + Z.to_nat (le (take 4 bs)))%nat) eqn:Hc.
  { by rw (parse_short _ Hc). }
  rw (parse_frame _ Hc) /=. apply orb_false_elim in Hc as [H4 _]. apply Nat.leb_gt in H4.
  set (m := S (S (S (S _)))). etrans; [eapply (IH (length (drop m bs))); [|done]|]; rw length_drop; lia.
Qed.

Lemma headers_ok_less n m pos bs : m ≤ n → headers_ok n pos bs → headers_ok m pos bs.
Proof.
  revert m pos bs. induction n as [|n IH]; intros m pos bs Hm; destruct m as [|m]; [done|lia|done|].
  intros H Hl. destruct (H Hl) as (? & ? & Hnext). split_and!; [done..|].
  intros k Hk. eapply IH; [|by apply Hnext]. lia.
Qed.

(** [unpack] delivers the packets that the reference parser cuts off, in
    order, and leaves the bytes that it leaves. *)
Lemma unpack_ok w C h c f pre cur post data :
  recv_rep h c pre cur post data → c_raw c = false → _process_packet c = Some f →
  unpack_size c = Z.of_nat (length data) → (Z.of_nat (length data) < 2 ^ 31)%Z → bytes data →
  headers_ok (S (length data)) (unpack_pos c) data →
  wp (unpack process (Some C)) (cw w C h c) (λ _ s, ∃ w' h' c' pre', s = cw w' C h' c' ∧
    recv_rep h' c' pre' cur post (parse data).2 ∧ same_rest c c' ∧ keeps w w' ∧
    unpack_size c' = Z.of_nat (length (parse data).2) ∧
    unpack_pos c' = ((unpack_pos c + Z.of_nat (length data - length (parse data).2)) mod BUFFER_SIZE)%Z ∧
    log (m_client (w_mem w')) = log (m_client (w_mem w)) ++ (parse data).1).
Proof.
  intros Hv Hraw Hf Hus Hlen Hbytes Hhdr. pose proof BUFFER_SIZE_pos as HB.
  rw /unpack. do 2 cn_step. rw Hus Nat2Z.id.
  set (I := λ (n : nat) (pk : Z) (s : world (cmem A)), ∃ w1 h1 c1 pre1 data1 ps, n = length data1 ∧
    s = cw w1 C h1 c1 ∧ recv_rep h1 c1 pre1 cur post data1 ∧ same_rest c c1 ∧ keeps w w1 ∧
    unpack_size c1 = Z.of_nat (length data1) ∧ length data1 ≤ length data ∧ bytes data1 ∧
    unpack_pos c1 = ((unpack_pos c + Z.of_nat (length data - length data1)) mod BUFFER_SIZE)%Z ∧
    headers_ok (S (length data1)) (unpack_pos c1) data1 ∧
    log (m_client (w_mem w1)) = log (m_client (w_mem w)) ++ ps ∧
    parse data = (ps ++ (parse data1).1, (parse data1).2)).
  apply (wp_loop I _ _ (length data)); [| |lia].
  2:{ exists w, h, c, pre, data, []. rw Nat.sub_diag Z.add_0_r Z.mod_small;
        [apply (rv_upos _ _ _ _ _ _ _ _ _ Hv)|]. rw app_nil_r. split_and!; try done. by destruct (parse data). }
  intros n pk s (w1 & h1 & c1 & pre1 & data1 & ps & -> & -> & Hv1 & Hsr1 & Hk1 & Hus1 & Hl1 & Hby1 & Hup1 & Hh1 & Hlog1 & Hp1).
  eapply wp_mono; [apply (unpack_round w1 C h1 c1 f pre1 cur post data1 pk); try done|].
  - by rw Hsr1.
  - by rw Hsr1.
  - lia.
  - intros H4. by destruct (Hh1 H4) as (? & ? & _).
  - intros r s (w2 & h2 & c2 & pre2 & data2 & -> & Hv2 & Hus2 & Hsr2 & Hk2 & Hcase). cbv zeta in Hcase.
    destruct (_ || _) eqn:Hc in Hcase.
    + destruct Hcase as (-> & -> & Hup2 & Hlog2). rw (parse_short _ Hc) /= in Hp1. rw app_nil_r in Hp1.
      exists w2, h2, c2, pre2. rw Hp1 /=. split_and!; try done; [by etrans|by etrans|congruence|congruence].
    + destruct Hcase as ([k' ->] & -> & Hup2 & Hlog2). set (k := Z.to_nat (le (take 4 data1))) in *.
      rw (parse_frame _ Hc) /= in Hp1. fold k in Hp1.
      apply orb_false_elim in Hc as [H4%Nat.leb_gt Hk%Nat.ltb_ge]. fold k in Hk.
      exists (length (drop (4 + k) data1)). split; [rw length_drop; lia|].
      exists w2, h2, c2, pre2, (drop (4 + k) data1), (ps ++ [take k (drop 4 data1)]).
      destruct (Hh1 H4) as (_ & Hle & Hnext).
      pose proof (le_bound (take 4 data1) ltac:(by apply Forall_take)) as Hle0.
      split_and!; try done.
      * by etrans.
      * by etrans.
      * rw length_drop. lia.
      * by apply Forall_drop.
      * rw Hup2 Hup1 -Z.add_assoc Z.add_mod_idemp_l; [lia|]. f_equal. rw length_drop. lia.
      * cbv zeta in Hnext. specialize (Hnext Hk). fold k in Hnext. rw Hup2. 
        rw (_ : Z.of_nat k = le (take 4 data1)); [lia|]. eapply headers_ok_less; [|exact Hnext].
        rw length_drop. lia.
      * by rw Hlog2 Hlog1 app_assoc.
      * rw Hp1. by rw -app_assoc.
Qed.
End client.
