(* ===== verification/Sink.v ===== *)
(** * A client ([src/include/Connection.h])

    The callback of a connection is the client's.  Here is one that reads the
    payload of every packet and destroys the packet, and the proof that it keeps
    the contract [good_process] under which [unpack] is correct: destroying a
    packet gives back the buffers that unpacking has left. *)
From S2P Require Import Prelude LinkList Buffer WPacket RPacket Net Connection Unpack.

(** The references that the connection and the chain hold. *)
Definition base (c : connection) (cur l : loc) : Z :=
  (1 + (if decide (unpack_buf c = Some l) then 1 else 0) + (if decide (l = cur) then 1 else 0))%Z.

Section leave.
Implicit Types (h : bufs) (c : connection) (dn pre post ls : list loc) (cur l : loc).

(** A view of what follows the buffers that unpacking has left. *)
Lemma rview_leave h h' c dn pre cur post data need most need' most' :
  rview h c dn pre cur post data need most →
  (∀ l b, l ∈ pre ++ cur :: post → h !! l = Some b → (need l ≤ rc b < most l)%Z →
     ∃ b', h' !! l = Some b' ∧ bbody b' = bbody b ∧ (need' l ≤ rc b' < most' l)%Z) →
  rview h' c [] pre cur post data need' most'.
Proof.
  intros Hv Hl. pose proof (rview_tail _ _ _ _ _ _ _ _ _ Hv) as (Hc & Hnd & _).
  destruct Hv as [C1 C2 C3 C4 C5 C6 C7 C8 C9 C10].
  assert (Hin : ∀ l, l ∈ pre ++ cur :: post → ∃ b b', h !! l = Some b ∧ h' !! l = Some b' ∧
    whole b ∧ bbody b' = bbody b ∧ (need' l ≤ rc b' < most' l)%Z).
  { intros l Hin. destruct (C5 l) as (b & Hb & Hw & Hr); [by apply elem_of_app; right|].
    destruct (Hl l b Hin Hb Hr) as (b' & ? & ? & ?). by exists b, b'. }
  assert (Hsz : ∀ l b, l ∈ pre ++ cur :: post → h !! l = Some b → ∃ b', h' !! l = Some b' ∧ b_size b' = b_size b).
  { intros l b Hx Hb. destruct (Hin l Hx) as (b0 & b' & Hb0 & Hb' & _ & [= _ Hs _ _] & _).
    exists b'. split; [done|]. congruence. }
  split; try done; simpl.
  - rw C3 in Hc. eapply chain_ext; [|exact Hc]. intros l Hx.
    destruct (Hin l Hx) as (b & b' & -> & -> & _ & [= _ _ Hn _] & _). by rw /= Hn.
  - intros l Hx. destruct (Hin l Hx) as (b & b' & _ & Hb' & [[? [? Hbl]] Hcap] & [= E1 E2 E3 E4] & Hr).
    exists b'. split; [done|]. split; [|done]. by rw /whole /buf_wf E1 E2 E4.
  - intros l Hx. destruct (C6 l) as (b & Hb & Hs); [by apply elem_of_app; right|].
    destruct (Hsz l b) as (b' & ? & Hs'); [apply elem_of_app; by left|done|]. exists b'. by rw Hs'.
  - destruct C7 as [(b & Hb & Hs) ?]. split; [|done].
    destruct (Hsz cur b) as (b' & ? & Hs'); [apply elem_of_app; right; left|done|]. exists b'. by rw Hs'.
  - intros l Hx. destruct (C8 l Hx) as (b & Hb & Hs).
    destruct (Hsz l b) as (b' & ? & Hs'); [apply elem_of_app; right; by right|done|]. exists b'. by rw Hs'.
  - rw -C10. f_equal. apply content_ext. intros l Hx.
    destruct (Hin l Hx) as (b & b' & -> & -> & _ & [= _ Es _ Eb] & _). by rw /= /bdata Es Eb.
Qed.

(** The buffers of a list up to the first that others refer to. *)
Lemma first_shared h ls : (∀ l, l ∈ ls → ∃ b, h !! l = Some b ∧ (1 ≤ rc b)%Z) →
  ∃ ls1 ls2, ls = ls1 ++ ls2 ∧ (∀ l, l ∈ ls1 → rc <$> h !! l = Some 1%Z) ∧
    match ls2 with [] => True | l :: _ => ∃ b, h !! l = Some b ∧ (2 ≤ rc b)%Z end.
Proof.
  induction ls as [|l ls IH]; intros Hls.
  { exists [], []. split_and!; [done|by intros ? ?%not_elem_of_nil|done]. }
  destruct (Hls l ltac:(left)) as (b & Hb & Hr). destruct (decide (rc b = 1%Z)) as [H1|H1].
  - destruct IH as (ls1 & ls2 & -> & Hone & Hsh); [intros l' ?; apply Hls; by right|].
    exists (l :: ls1), ls2. split_and!; [done| |done]. intros l' [->|?]%elem_of_cons; [|by apply Hone].
    by rw Hb /= H1.
  - exists [], (l :: ls). split_and!; [done|by intros ? ?%not_elem_of_nil|]. exists b. split; [done|lia].
Qed.

(** Releasing the first buffer of a chain gives back buffers up to one that
    others refer to, which is before [q] or at [q]. *)
Lemma release_upto fuel h p ls q : chain h p ls (Some q) → NoDup ls → q ∉ ls →
  (∀ l, l ∈ ls → ∃ b, h !! l = Some b ∧ (1 ≤ rc b < 2 ^ 31)%Z) → shared h (Some q) → length ls < fuel →
  wp (release fuel p) h (λ _ h', (∀ l, l ∉ ls → l ≠ q → h' !! l = h !! l) ∧
    ∃ d, (d = -1 ∨ d = 0 ∧ ls ≠ [])%Z ∧ h' !! q = ref_add d <$> h !! q).
Proof.
  intros Hc Hnd Hq Hrc Hsh Hf.
  destruct (first_shared h ls) as (ls1 & ls2 & -> & Hone & Htwo).
  { intros l Hl. destruct (Hrc l Hl) as (b & ? & ?). exists b. split; [done|lia]. }
  apply chain_app in Hc as (r & Hc1 & Hc2). apply NoDup_app in Hnd as (Hnd1 & Hdis & _).
  rw length_app in Hf. rw elem_of_app in Hq. assert (q ∉ ls1) as Hq1 by tauto.
  assert (Hr : ∃ x, r = Some x ∧ x ∉ ls1 ∧ shared h (Some x) ∧ (x = q ∨ x ∈ ls2)).
  { destruct ls2 as [|x ls2]; simpl in Hc2.
    - exists q. split_and!; try done. by left.
    - destruct Hc2 as [-> _]. exists x. split; [done|]. split; [intros Hx; by apply (Hdis x Hx); left|].
      split; [|right; left]. destruct Htwo as (b & Hb & H2). exists b. split; [done|].
      destruct (Hrc x) as (b' & Hb' & ?); [apply elem_of_app; right; left|]. assert (b' = b) as -> by congruence. lia. }
  destruct Hr as (x & -> & Hx & Hshx & Hxq).
  eapply (release_chain _ _ ls1 (Some x)); [done|done|done|done|by intros ? [= <-]|lia|].
  assert (Hd : ∀ l, l ∉ ls1 → foldr delete (add_ref (-1) (Some x) h) ls1 !! l =
    if decide (l = x) then ref_add (-1) <$> h !! l else h !! l).
  { intros l Hl. rw lookup_foldr_delete_not_elem_of // /= lookup_alter. 
    repeat case_decide; congruence. }
  split.
  - intros l [??]%not_elem_of_app Hlq. rw Hd //. rw decide_False //.
    intros ->. by destruct Hxq.
  - rw Hd //. case_decide; [by exists (-1)%Z; auto|]. exists 0%Z. split.
    { right. split; [done|]. intros [-> ->]%app_eq_nil. destruct Hxq as [->|?%not_elem_of_nil]; done. }
    destruct (h !! q) as [b|] eqn:Hb; [|done]. simpl. f_equal. rw /ref_add Z.add_0_r. by destruct b as [[]].
Qed.
End leave.

Section destroy.
Implicit Types (h : bufs) (c : connection) (dn pre post ls : list loc) (cur l : loc).

(** Between the two releases: the packet has one reference to [l1] left. *)
Definition most_after (c : connection) (l1 cur l : loc) : Z :=
  (base c cur l + LIMIT + (if decide (l = l1) then 1 else 0))%Z.

Lemma release_first h c dn pre cur post data l1 : recv_during h c dn pre cur post data l1 →
  wp (buffer_release (Some l1)) h (λ _ h',
    rview h' c dn pre cur post data (base c cur) (most_after c l1 cur)).
Proof.
  intros [Hv Hhd].
  assert (Hin : l1 ∈ dn ++ pre ++ cur :: post).
  { destruct (dn ++ pre ++ cur :: post); [done|]. injection Hhd as ->. left. }
  destruct (rv_whole _ _ _ _ _ _ _ _ _ Hv l1 Hin) as (b & Hb & _ & Hr).
  rw /most_during /own_during /LIMIT in Hr. rw /buffer_release. do 2 wp_step.
  eapply release_shared; [exists b; split; [done|]; repeat case_decide; try congruence; lia|lia|].
  rw /add_ref (alter_is_insert _ _ _ _ Hb). eapply rview_hbody; [done|by apply hbody_insert|].
  intros l b' _ Hb' Hr'. rw /most_during /own_during in Hr'. rw lookup_insert. destruct (decide (l1 = l)) as [Hl|Hl].
  - subst l. exists (ref_add (-1) b). split; [done|]. rw rc_ref_add. assert (b' = b) as -> by congruence.
    rw /base /most_after /base. repeat case_decide; try congruence; lia.
  - exists b'. split; [done|]. rw /base /most_after /base. repeat case_decide; try congruence; lia.
Qed.

Lemma release_second h c dn pre cur post data l1 :
  rview h c dn pre cur post data (base c cur) (most_after c l1 cur) →
  head (dn ++ pre ++ cur :: post) = Some l1 →
  wp (buffer_release (Some l1)) h (λ _ h', recv_rep h' c pre cur post data).
Proof.
  intros Hv Hhd. destruct (rview_head _ _ _ _ _ _ _ _ _ Hv) as (u & ls & bu & Hls & Hub & Hbu & _ & Hru & _).
  pose proof (rv_nodup _ _ _ _ _ _ _ _ _ Hv) as Hnd. apply NoDup_app in Hnd as (Hnd & Hdis & _).
  assert (Hu : u ∈ pre ++ cur :: post) by (rw Hls; left).
  assert (Hudn : u ∉ dn) by (intros Hx; by apply (Hdis u Hx)).
  assert (Hchain : chain h (Some l1) dn (Some u)).
  { pose proof (rv_chain _ _ _ _ _ _ _ _ _ Hv) as Hc. rw Hhd in Hc. apply chain_app in Hc as (r & Hc & Hc2).
    rw Hls in Hc2. by destruct Hc2 as [-> _]. }
  assert (Hrc : ∀ l, l ∈ dn ++ pre ++ cur :: post → ∃ b, h !! l = Some b ∧ (base c cur l ≤ rc b < most_after c l1 cur l)%Z).
  { intros l Hl. destruct (rv_whole _ _ _ _ _ _ _ _ _ Hv l Hl) as (b & ? & _ & ?). by exists b. }
  rw /buffer_release. do 2 wp_step. eapply wp_mono.
  { eapply (release_upto _ h (Some l1) dn u); [done|done|done| | |].
    - intros l Hl. destruct (Hrc l) as (b & Hb & Hr); [apply elem_of_app; by left|]. exists b. split; [done|].
      rw /most_after /base /LIMIT in Hr. repeat case_decide; lia.
    - exists bu. split; [done|]. rw /most_after /base /LIMIT in Hru. repeat case_decide; congruence || lia.
    - pose proof (chain_length _ _ _ _ Hchain Hnd). lia. }
  intros [] h' (Hsame & d & Hd & Hq).
  assert (dn = [] ∨ l1 ≠ u) as Hor.
  { destruct dn as [|x dn]; [by left|right]. injection Hhd as ->. intros ->. apply Hudn. left. } eapply rview_leave; [exact Hv|].
  intros l b Hl Hb Hr. rw /own /at_most /own. rw /most_after /base in Hr.
  assert (Hl1 : l = l1 → l = u).
  { intros ->. destruct dn as [|x dn]; [by rw /= Hls in Hhd; injection Hhd as ->|].
    injection Hhd as ->. exfalso. by apply (Hdis l1 ltac:(left)). }
  destruct (decide (l = u)) as [->|Hne].
  - rw Hq Hb /=. exists (ref_add d b). split_and!; [done|done| |]; rw rc_ref_add; destruct Hd as [->|[-> Hdn]];
      repeat case_decide; try congruence; try (destruct Hor; congruence); lia.
  - exists b. rw Hsame //; [intros Hx; by apply (Hdis l Hx)|]. split_and!; [done|done| |];
      repeat case_decide; try congruence; try tauto; lia.
Qed.

(** Destroying the packet that is delivered brings the connection to rest. *)
Lemma destroy_gives_back h c dn pre cur post data l1 r :
  recv_during h c dn pre cur post data l1 →
  r_buf r = Some l1 → readbuf r = Some l1 → binbuf r = NULL →
  wp (rpacket_destroy r) h (λ _ h', recv_rep h' c pre cur post data).
Proof.
  intros Hd Hb Hrb Hbin. rw /rpacket_destroy Hb Hrb Hbin. wp_step.
  eapply wp_mono; [by apply release_first|]. intros [] h1 Hv1. wp_step.
  eapply wp_mono; [eapply release_second; [exact Hv1|apply Hd]|]. intros [] h2 Hv2. 
  rw /buffer_release. by do 2 wp_step.
Qed.
End destroy.

(** ** The sink *)

Section sink.
Context {A : Type} (append : list Z → A → A).
Implicit Types (w : world (cmem A)).

Definition on_client {B} (m : M A B) : M (world (cmem A)) B :=
  on_mem (zoom m_client (λ a u, CMem (m_bufs u) (m_conns u) (m_overlaps u) (m_packets u) (packet_send u) a) m).

(** The callback: it reads the payload, logs it and destroys the packet. *)
Definition sink (f : nat) (c : ptr) (r : rpacket) : M (world (cmem A)) () :=
  n ← on_bufs (gets size);
  '(_, bs) ← on_bufs (buffer_read (2 + n) (readbuf r) (rpos r) (data_remain r));
  on_client (modify (append bs));;
  on_bufs (rpacket_destroy r).

Context (log : A → list (list Z)) (keeps : relation (world (cmem A))).
Context (Hlog : ∀ bs a, log (append bs a) = log a ++ [bs]).

Definition with_client (f : A → A) w : world (cmem A) :=
  let u := w_mem w in
  set_mem (CMem (m_bufs u) (m_conns u) (m_overlaps u) (m_packets u) (packet_send u) (f (m_client u))) w.

Context (Hkeeps : ∀ w bs, keeps w (with_client (append bs) w)).

Lemma sink_good : good_process sink log keeps.
Proof.
  intros f w C h c dn pre cur post data l1 r ls payload _ Hd Hls (Hrep & _ & _ & Hbuf & Hbin).
  rw /sink. wp_step. apply wp_bufs. wp_step. wp_step. apply wp_bufs.
  assert (Hread : buffer_read (2 + size h) (readbuf r) (rpos r) (data_remain r) h = Ok ((0%Z, payload), h)).
  { rw (rr_cur _ _ _ _ _ Hrep) (rr_remain _ _ _ _ _ Hrep). destruct (rr_ref _ _ _ _ _ Hrep) as (b & Hb & _ & Hpos).
    destruct (rr_data _ _ _ _ _ Hrep) as [tail Ht]. destruct (rr_len _ _ _ _ _ Hrep) as [Hl1 Hl2].
    pose proof (chain_length _ _ _ _ (rr_chain _ _ _ _ _ Hrep) (rr_nodup _ _ _ _ _ Hrep)) as Hsz.
    rw /buffer_read (buffer_read_loop _ h _ (l1 :: ls)).
    - exact (rr_chain _ _ _ _ _ Hrep).
    - exact (rr_wf _ _ _ _ _ Hrep).
    - lia.
    - lia.
    - lia.
    - intros l [= <-]. exists b. split; [done|lia].
    - done.
    - rw Ht decide_True; [rw length_app; lia|]. by rw Nat2Z.id take_app_length. }
  eapply ok_wp; [exact Hread|]. cbn beta match. wp_step. rw /on_client /on_mem. do 3 wp_step.
  lazymatch goal with |- wp _ ?s _ => change s with (cw (with_client (append payload) w) C h c) end.
  apply wp_bufs. eapply wp_mono; [eapply destroy_gives_back; [exact Hd|exact Hbuf|exact (rr_cur _ _ _ _ _ Hrep)|exact Hbin]|].
  intros [] h' Hv'. exists (with_client (append payload) w), h'. split_and!; try done. apply Hlog.
Qed.
End sink.
