(* ===== verification/Receive.v ===== *)
(** * Receiving ([src/src/Connection.c])

    What the kernel writes behind the receive position is taken in, unpacked and
    delivered, and the next window for the kernel is set up: [RecvFinish]
    delivers the packets of the byte stream, however the kernel cuts it. *)
From S2P Require Import Prelude LinkList Buffer WPacket RPacket Net Connection Unpack Sink.

(** ** The receive position *)

Section receive.
Implicit Types (h : bufs) (c : connection) (pre post : list loc) (cur l : loc).

(** The memory behind the receive position starts with [bs]: what the kernel
    has written there. *)
Definition staged h c cur post (bs : list Z) : Prop :=
  ∃ b, h !! cur = Some b ∧
    take (length bs) (drop (Z.to_nat (next_recv_pos c)) (buf b) ++ raw_bytes h post) = bs.

Lemma rview_cur h c pre cur post data need most : rview h c [] pre cur post data need most →
  ∃ b, h !! cur = Some b ∧ whole b ∧ b_size b = next_recv_pos c ∧ (need cur ≤ rc b < most cur)%Z.
Proof.
  intros Hv. destruct (rv_whole _ _ _ _ _ _ _ _ _ Hv cur) as (b & Hb & Hw & Hr); [set_solver|].
  destruct (rv_pos _ _ _ _ _ _ _ _ _ Hv) as [(b' & Hb' & Hs) _].
  assert (b' = b) as -> by congruence. exists b. split_and!; try done; lia.
Qed.

Lemma raw_bytes_cons h l ls b : h !! l = Some b → raw_bytes h (l :: ls) = buf b ++ raw_bytes h ls.
Proof. intros Hl. by rw /raw_bytes /= Hl. Qed.
Lemma raw_bytes_ext h h' ls : (∀ l, l ∈ ls → buf <$> h' !! l = buf <$> h !! l) →
  raw_bytes h' ls = raw_bytes h ls.
Proof.
  intros Hext. rw /raw_bytes. f_equal. apply list_fmap_ext. intros i l Hl.
  pose proof (Hext l ltac:(by eapply list_elem_of_lookup_2)) as H.
  destruct (h' !! l), (h !! l); simpl in *; congruence.
Qed.

(** The buffers before the current one, and the content when it grows. *)
Lemma content_grow h c pre cur post data need most b (n : nat) :
  rview h c [] pre cur post data need most → h !! cur = Some b →
  (next_recv_pos c + Z.of_nat n ≤ BUFFER_SIZE)%Z →
  let h' := <[cur := with_bsize (next_recv_pos c + Z.of_nat n) b]> h in
  drop (Z.to_nat (unpack_pos c)) (content h' (pre ++ cur :: post)) =
  data ++ take n (drop (Z.to_nat (next_recv_pos c)) (buf b)).
Proof.
  intros Hv Hb Hn h'. destruct (rview_cur _ _ _ _ _ _ _ _ Hv) as (b' & Hb' & Hw & Hs & _).
  assert (b' = b) as -> by congruence. pose proof (rview_tail _ _ _ _ _ _ _ _ _ Hv) as (_ & Hnd & _).
  pose proof (rv_nodup _ _ _ _ _ _ _ _ _ Hv) as Hnd'. destruct (wf_whole _ Hw) as [? Hl].
  assert (Hpost : content h post = []) by apply content_empty, (rv_post _ _ _ _ _ _ _ _ _ Hv).
  pose proof (rv_data _ _ _ _ _ _ _ _ _ Hv) as Hd.
  rw content_app (content_cons _ _ _ _ Hb) Hpost app_nil_r in Hd.
  rw /h' content_insert // Hpost app_nil_r {1}/bdata /=.
  rw Z2Nat.inj_add; [lia..|]. rw Nat2Z.id -take_take_drop. 
  rw (_ : take (Z.to_nat (next_recv_pos c)) (buf b) = bdata b); [by rw /bdata Hs|].
  rw app_assoc drop_app_le; [|by rw Hd].
  destruct (rview_head _ _ _ _ _ _ _ _ _ Hv) as (l & ls & bl & Hls & Hub & Hbl & Hwl & _ & Hle & _).
  rw length_app. pose proof (length_bdata bl (proj1 Hwl)). destruct (rv_upos _ _ _ _ _ _ _ _ _ Hv) as [? Hu].
  destruct pre as [|l' pre].
  - rw (length_bdata b (proj1 Hw)). specialize (Hu eq_refl). simpl. lia.
  - injection Hls as <- _. rw (content_cons _ _ _ _ Hbl) length_app. lia.
Qed.

(** Receiving in the same buffer. *)
Lemma rview_grow h c pre cur post data b (n : nat) :
  recv_rep h c pre cur post data → h !! cur = Some b →
  (next_recv_pos c + Z.of_nat n < BUFFER_SIZE)%Z →
  recv_rep (<[cur := with_bsize (next_recv_pos c + Z.of_nat n) b]> h)
    (set_next_recv_pos (next_recv_pos c + Z.of_nat n) c) pre cur post
    (data ++ take n (drop (Z.to_nat (next_recv_pos c)) (buf b))).
Proof.
  intros Hv Hb Hn. pose proof (content_grow _ _ _ _ _ _ _ _ b n Hv Hb ltac:(lia)) as Hd. cbv zeta in Hd.
  destruct (rview_cur _ _ _ _ _ _ _ _ Hv) as (b' & Hb' & Hw & Hs & _). assert (b' = b) as -> by congruence.
  destruct (wf_whole _ Hw) as [? Hl].
  destruct Hv as [C1 C2 C3 C4 C5 C6 C7 C8 [C9 C9'] C10]. set (b2 := with_bsize _ b).
  assert (Hother : ∀ l, l ≠ cur → <[cur := b2]> h !! l = h !! l) by (intros; by rw lookup_insert_ne).
  simpl in *. pose proof C2 as (_ & Hpre & [Hpost _]%NoDup_cons)%NoDup_app.
  split; try done; simpl.
  - eapply chain_ext; [|exact C1]. intros l _. rw lookup_insert. case_decide; [subst; by rw Hb|done].
  - intros l Hin. destruct (C5 l Hin) as (bl & Hbl & [Hwf Hcap] & Hr).
    destruct (decide (l = cur)) as [->|Hne]; [|exists bl; by rw Hother].
    assert (bl = b) as -> by congruence. exists b2. rw lookup_insert_eq. split; [done|]. split; [|done]. split; [|done].
    destruct Hwf as (? & ? & ?). split; simpl; [rw Hcap; lia|done].
  - intros l Hin. rw Hother; [|by apply C6]. intros ->. by apply (Hpre cur Hin); left.
  - split; [|lia]. exists b2. by rw lookup_insert_eq.
  - intros l Hin. rw Hother; [by intros ->|]. by apply C8.
  - split; [done|]. intros Hp. specialize (C9' Hp). lia.
Qed.

(** A new buffer at the end of the chain. *)
Definition new_buffer (m : bool) : buffer :=
  Buffer (Refbase 1 m) BUFFER_SIZE 0 NULL (replicate (Z.to_nat BUFFER_SIZE) 0%Z).
Definition extended h cur (b : buffer) l2 m : bufs :=
  <[cur := with_next (Some l2) b]> (<[l2 := new_buffer m]> h).

Lemma last_next h p ls cur b : chain h p (ls ++ [cur]) NULL → h !! cur = Some b → b_next b = NULL.
Proof.
  intros (r & _ & -> & b' & Hb' & Hn)%chain_app Hb. simpl in Hn. congruence.
Qed.

Lemma whole_new m : whole (new_buffer m).
Proof.
  pose proof BUFFER_SIZE_pos. split; [|done]. split; simpl; [lia|]. split; [lia|]. by rw length_replicate.
Qed.

Lemma rview_extend h c pre cur data b l2 m :
  recv_rep h c pre cur [] data → h !! cur = Some b → h !! l2 = None →
  recv_rep (extended h cur b l2 m) c pre cur [l2] data.
Proof.
  intros Hv Hb Hl2. pose proof (rview_tail _ _ _ _ _ _ _ _ _ Hv) as (_ & Hnd & _).
  assert (Hin : ∀ l, l ∈ pre ++ [cur] → l ≠ l2).
  { intros l Hl ->. destruct (rv_whole _ _ _ _ _ _ _ _ _ Hv l2 Hl) as (? & ? & _). congruence. }
  assert (cur ≠ l2) as Hne by (apply Hin; set_solver).
  set (h' := extended h cur b l2 m).
  assert (Hcur : h' !! cur = Some (with_next (Some l2) b)) by apply lookup_insert_eq.
  assert (Hnew : h' !! l2 = Some (new_buffer m)) by (rw /h' /extended lookup_insert_ne // lookup_insert_eq //).
  assert (Hother : ∀ l, l ≠ cur → l ≠ l2 → h' !! l = h !! l).
  { intros l ??. by rw /h' /extended !lookup_insert_ne. }
  destruct Hv as [C1 C2 C3 C4 C5 C6 C7 C8 C9 C10]. simpl in *.
  pose proof C2 as (_ & Hpre & _)%NoDup_app.
  split; try done; simpl.
  - rw (_ : pre ++ [cur; l2] = (pre ++ [cur]) ++ [l2]); [by rw -app_assoc|].
    rw chain_app. exists (Some l2). split.
    + rw (_ : head ((pre ++ [cur]) ++ [l2]) = head (pre ++ [cur])); [by destruct pre|].
      apply chain_app in C1 as (r & Hr & -> & b' & Hb' & _). apply chain_app. exists (Some cur). split.
      * eapply chain_ext; [|exact Hr]. intros l Hl. rw Hother //; [intros ->; by apply (Hpre cur Hl); left|].
        apply Hin. set_solver.
      * split; [done|]. by exists (with_next (Some l2) b).
    + split; [done|]. exists (new_buffer m). by split.
  - rw (_ : pre ++ [cur; l2] = (pre ++ [cur]) ++ [l2]); [by rw -app_assoc|].
    apply NoDup_app. split; [done|]. split; [|by apply NoDup_singleton].
    intros l Hl. rw list_elem_of_singleton. by apply Hin.
  - by destruct pre.
  - intros l Hl. assert (l ∈ pre ++ [cur] ∨ l = l2) as [Hl'| ->] by set_solver.
    + destruct (C5 l Hl') as (bl & Hbl & Hw & Hr). destruct (decide (l = cur)) as [->|Hne'].
      * assert (bl = b) as -> by congruence. exists (with_next (Some l2) b). done.
      * exists bl. rw Hother //. by apply Hin.
    + exists (new_buffer m). split; [done|]. split; [apply whole_new|].
      rw /at_most /own decide_False //. change (rc (new_buffer m)) with 1%Z. rw /LIMIT. case_decide; lia.
  - intros l Hl. rw Hother; [intros ->; by apply (Hpre cur Hl); left|apply Hin; set_solver|by apply C6].
  - destruct C7 as [(b' & Hb' & Hs) ?]. split; [|done]. exists (with_next (Some l2) b).
    split; [done|]. rw -Hs. assert (b' = b) as -> by congruence. done.
  - intros l Hl%list_elem_of_singleton. subst l. by exists (new_buffer m).
  - rw -C10 (_ : pre ++ [cur; l2] = (pre ++ [cur]) ++ [l2]); [by rw -app_assoc|].
    rw content_app (content_cons _ _ _ _ Hnew) content_nil app_nil_r (_ : bdata (new_buffer m) = []) // app_nil_r.
    f_equal. apply content_ext. intros l Hl. destruct (decide (l = cur)) as [->|Hne'].
    + by rw Hcur Hb.
    + rw Hother //. by apply Hin.
Qed.

(** The step from a full buffer to the next one: the size is set, and the
    reference of [next_recv_buf] moves. *)
Lemma rview_next h c pre cur l2 post data b b2 (n : nat) :
  recv_rep h c pre cur (l2 :: post) data → h !! cur = Some b → h !! l2 = Some b2 →
  (next_recv_pos c + Z.of_nat n = BUFFER_SIZE)%Z →
  recv_rep (<[cur := ref_add (-1) (with_bsize BUFFER_SIZE b)]> (<[l2 := ref_add 1 b2]> h))
    (set_next_recv_pos 0 (set_next_recv_buf (Some l2) c)) (pre ++ [cur]) l2 post
    (data ++ take n (drop (Z.to_nat (next_recv_pos c)) (buf b))).
Proof.
  intros Hv Hb Hb2 Hn. pose proof BUFFER_SIZE_pos.
  pose proof (content_grow _ _ _ _ _ _ _ _ b n Hv Hb ltac:(lia)) as Hd. cbv zeta in Hd. rw Hn in Hd.
  destruct (rview_cur _ _ _ _ _ _ _ _ Hv) as (b' & Hb' & Hw & Hs & Hr). assert (b' = b) as -> by congruence.
  set (h' := <[cur := _]> _). pose proof (rv_nodup _ _ _ _ _ _ _ _ _ Hv) as Hnd. simpl in Hnd.
  pose proof Hnd as (_ & Hpre & [Hc [Hl2 _]%NoDup_cons]%NoDup_cons)%NoDup_app.
  assert (cur ≠ l2) as Hne by (intros ->; apply Hc; left).
  set (b' := ref_add (-1) (with_bsize BUFFER_SIZE b)) in *.
  assert (Hcur : h' !! cur = Some b') by apply lookup_insert_eq.
  assert (Hnew : h' !! l2 = Some (ref_add 1 b2)) by (rw /h' lookup_insert_ne // lookup_insert_eq //).
  assert (Hother : ∀ l, l ≠ cur → l ≠ l2 → h' !! l = h !! l) by (intros; by rw /h' !lookup_insert_ne).
  assert (Happ : (pre ++ [cur]) ++ l2 :: post = pre ++ cur :: l2 :: post) by by rw -app_assoc.
  destruct Hv as [C1 C2 C3 C4 C5 C6 C7 C8 [C9 C9'] C10]. simpl in *.
  destruct (C8 l2 ltac:(left)) as (b2' & Hb2' & Hs2). assert (b2' = b2) as -> by congruence.
  destruct (C5 l2 ltac:(set_solver)) as (b2' & Hb2'' & Hw2 & Hr2). assert (b2' = b2) as -> by congruence.
  split; simpl; try done; rw ?Happ.
  - eapply chain_ext; [|exact C1]. intros l _. destruct (decide (l = cur)) as [->|]; [by rw Hcur Hb|].
    destruct (decide (l = l2)) as [->|]; [by rw Hnew Hb2|by rw Hother].
  - done.
  - done.
  - intros l Hl. destruct (C5 l Hl) as (bl & Hbl & Hwl & Hrl). rw /at_most /own in Hrl.
    destruct (decide (l = cur)) as [->|]; [|destruct (decide (l = l2)) as [->|]].
    + exists b'. split; [done|]. assert (bl = b) as -> by congruence. split.
      * split; [|apply Hwl]. destruct Hwl as [(? & ? & ?) Hcap]. split; simpl; [rw Hcap; lia|done].
      * rw /at_most /own rc_ref_add. simpl. change (rc (with_bsize BUFFER_SIZE b)) with (rc b).
        repeat case_decide; try congruence; lia.
    + exists (ref_add 1 b2). split; [done|]. split; [exact Hw2|]. assert (bl = b2) as -> by congruence.
      rw /at_most /own rc_ref_add. simpl. repeat case_decide; try congruence; lia.
    + exists bl. rw Hother //. split; [done|]. split; [done|]. rw /at_most /own. simpl.
      repeat case_decide; try congruence; lia.
  - intros l Hl. assert (l ∈ pre ∨ l = cur) as [Hl'| ->] by set_solver.
    + rw Hother; [intros ->; by apply (Hpre cur Hl'); left| |by apply C6].
      intros ->. eapply (Hpre l2 Hl'). right. left.
    + by exists b'.
  - split; [|lia]. exists (ref_add 1 b2). done.
  - intros l Hl. rw Hother; [intros ->; apply Hc; by right|by intros ->|]. apply C8. by right.
  - split; [done|]. by destruct pre.
  - rw -Hd. f_equal. apply content_ext. intros l Hl. rw lookup_insert. case_decide as Hlc.
    + subst l. rw Hcur. done.
    + destruct (decide (l = l2)) as [->|]; [by rw Hnew Hb2|by rw Hother].
Qed.

(** What receiving does not change. *)
Definition recv_moved (c c' : connection) : Prop :=
  c' = set_next_recv_pos (next_recv_pos c') (set_next_recv_buf (next_recv_buf c') c).
#[local] Instance recv_moved_preorder : PreOrder recv_moved.
Proof. split; [by intros []|]. rw /recv_moved. intros c1 c2 c3 -> ->. done. Qed.

Lemma staged_nil h c pre cur post data need most : rview h c [] pre cur post data need most →
  staged h c cur post [].
Proof. intros Hv. destruct (rview_cur _ _ _ _ _ _ _ _ Hv) as (b & Hb & _). by exists b. Qed.

(** The staged bytes, cut at the end of the current buffer. *)
Lemma staged_split h c pre cur post data b bs : recv_rep h c pre cur post data →
  h !! cur = Some b → staged h c cur post bs →
  let n := min (length bs) (Z.to_nat (BUFFER_SIZE - next_recv_pos c)) in
  take n (drop (Z.to_nat (next_recv_pos c)) (buf b)) = take n bs ∧
  take (length bs - n) (drop n (drop (Z.to_nat (next_recv_pos c)) (buf b)) ++ raw_bytes h post) = drop n bs.
Proof.
  intros Hv Hb (b' & Hb' & Hs) n. assert (b' = b) as -> by congruence.
  destruct (rview_cur _ _ _ _ _ _ _ _ Hv) as (b' & Hb2 & Hw & _). assert (b' = b) as -> by congruence.
  destruct (wf_whole _ Hw) as [_ Hl]. destruct (proj2 (rv_pos _ _ _ _ _ _ _ _ _ Hv)).
  assert (HB := B_Z). set (m := drop _ (buf b)) in *.
  assert (Hm : length m = Z.to_nat (BUFFER_SIZE - next_recv_pos c)) by (rw length_drop; lia).
  split.
  - rw -Hs take_take take_app_le; [lia|]. f_equal. lia.
  - rw -{2}Hs skipn_firstn_comm drop_app_le; [lia|]. done.
Qed.

(** The next buffer of the chain. *)
Lemma rview_link h c pre cur post data need most b : rview h c [] pre cur post data need most →
  h !! cur = Some b → b_next b = head post.
Proof.
  intros Hv Hb. pose proof (rv_chain _ _ _ _ _ _ _ _ _ Hv) as Hc.
  simpl in Hc. apply chain_app in Hc as (r & _ & -> & b' & Hb' & Hc). assert (b' = b) as -> by congruence.
  by destruct post; simpl in Hc; [|destruct Hc].
Qed.

(** The end of a buffer: [next_recv_buf] moves on. *)
Lemma next_buffer {A} (w : world (cmem A)) C h c pre cur l2 post data b b2 (n : nat)
    (R : () → world (cmem A) → Prop) :
  recv_rep h c pre cur (l2 :: post) data → h !! cur = Some b → h !! l2 = Some b2 →
  R tt (cw w C (<[cur := ref_add (-1) (with_bsize BUFFER_SIZE b)]> (<[l2 := ref_add 1 b2]> h))
    (set_next_recv_pos 0 (set_next_recv_buf (Some l2) c))) →
  wp (b ← on_bufs (hload (Some cur));
      p ← on_bufs (buffer_acquire (Some cur) (b_next b));
      conn_set (Some C) (set_next_recv_buf p);;
      conn_set (Some C) (set_next_recv_pos 0))
    (cw w C (<[cur := with_bsize BUFFER_SIZE b]> h) (set_next_recv_pos BUFFER_SIZE c)) R.
Proof.
  intros Hv Hb Hb2 HR. pose proof (rview_link _ _ _ _ _ _ _ _ _ Hv Hb) as Hn. simpl in Hn.
  assert (cur ≠ l2) as Hne.
  { intros <-. pose proof (rv_nodup _ _ _ _ _ _ _ _ _ Hv) as Hnd. simpl in Hnd.
    apply NoDup_app in Hnd as (_ & _ & [Hc _]%NoDup_cons). apply Hc. left. }
  destruct (rv_whole _ _ _ _ _ _ _ _ _ Hv cur) as (b' & Hb' & _ & Hr); [set_solver|].
  destruct (rv_whole _ _ _ _ _ _ _ _ _ Hv l2) as (b2' & Hb2' & _ & Hr2); [set_solver|].
  assert (b' = b) as -> by congruence. assert (b2' = b2) as -> by congruence.
  rw /at_most /own /LIMIT in Hr Hr2.
  do 2 cn_step. eapply wp_hload; [apply lookup_insert_eq|]. cbn beta. rw (_ : b_next (with_bsize _ b) = Some l2) //.
  do 2 cn_step. eapply (wp_buffer_acquire_move cur l2 (with_bsize BUFFER_SIZE b) b2).
  - apply lookup_insert_eq.
  - by rw lookup_insert_ne.
  - done.
  - change (rc (with_bsize BUFFER_SIZE b)) with (rc b). repeat case_decide; try congruence; lia.
  - repeat case_decide; try congruence; lia.
  - cn_step. cn_step. cn_step. rw (insert_insert_ne _ l2 cur) // insert_insert_eq. exact HR.
Qed.

(** What a round of [update_next_recv_pos] does: some of the staged bytes are
    taken in. *)
Definition taken_in {A} (w : world (cmem A)) C c data bs (r : Z + ()) (s : world (cmem A)) : Prop :=
  ∃ (n : nat) h' c' pre' cur' post', n < length bs ∧ r = inl (Z.of_nat n) ∧ s = cw w C h' c' ∧
    recv_rep h' c' pre' cur' post' (data ++ take (length bs - n) bs) ∧ recv_moved c c' ∧
    staged h' c' cur' post' (drop (length bs - n) bs).

Lemma taken_next {A} (w : world (cmem A)) C h c pre cur l2 post data b bs (n : nat) :
  recv_rep h c pre cur (l2 :: post) data → h !! cur = Some b →
  (next_recv_pos c + Z.of_nat n = BUFFER_SIZE)%Z → 0 < n ≤ length bs →
  take n (drop (Z.to_nat (next_recv_pos c)) (buf b)) = take n bs →
  take (length bs - n) (raw_bytes h (l2 :: post)) = drop n bs →
  wp (b ← on_bufs (hload (Some cur));
      p ← on_bufs (buffer_acquire (Some cur) (b_next b));
      conn_set (Some C) (set_next_recv_buf p);;
      conn_set (Some C) (set_next_recv_pos 0))
    (cw w C (<[cur := with_bsize BUFFER_SIZE b]> h) (set_next_recv_pos BUFFER_SIZE c))
    (λ _, taken_in w C c data bs (inl (Z.of_nat (length bs - n)))).
Proof.
  intros Hv Hb Hn Hlen Ht Hd.
  destruct (rv_whole _ _ _ _ _ _ _ _ _ Hv l2) as (b2 & Hb2 & _); [set_solver|].
  eapply next_buffer; [done..|]. pose proof (rview_next _ _ _ _ _ _ _ _ _ n Hv Hb Hb2 Hn) as Hv'.
  pose proof (rv_nodup _ _ _ _ _ _ _ _ _ Hv) as Hnd. simpl in Hnd.
  apply NoDup_app in Hnd as (_ & _ & [Hc [Hl2 _]%NoDup_cons]%NoDup_cons).
  exists (length bs - n). do 5 eexists. rw (_ : length bs - (length bs - n) = n); [lia|].
  split_and!; [lia|done|done| |done|].
  - rw -Ht. exact Hv'.
  - exists (ref_add 1 b2). rw lookup_insert_ne; [intros ->; apply Hc; left|]. rw lookup_insert_eq. split; [done|].
    rw length_drop -Hd. f_equal. rw (raw_bytes_cons _ _ _ _ Hb2). f_equal.
    apply raw_bytes_ext. intros l Hl. assert (l ≠ cur ∧ l ≠ l2) as [??].
    { split; intros ->; [apply Hc; by right|done]. }
    by rw !lookup_insert_ne.
Qed.

(** The connection of a new buffer at the end of the chain is made after the
    size of the last one is set. *)
Lemma extended_size h cur b l2 m n : cur ≠ l2 →
  <[cur := with_bsize n (with_next (Some l2) b)]> (extended h cur b l2 m) =
  <[cur := with_next (Some l2) (with_bsize n b)]> (<[l2 := new_buffer m]> (<[cur := with_bsize n b]> h)).
Proof.
  intros Hne. rw /extended insert_insert_eq. rw (insert_insert_ne _ l2 cur) // insert_insert_eq.
  done.
Qed.

Lemma update_round {A} (w : world (cmem A)) C h c pre cur post data bs :
  recv_rep h c pre cur post data → staged h c cur post bs →
  0 < length bs → (Z.of_nat (length bs) < 2 ^ 31)%Z →
  wp (update_recv_body (Some C) (Z.of_nat (length bs))) (cw w C h c) (taken_in w C c data bs).
Proof.
  intros Hv Hst Hlen Hlen'. pose proof BUFFER_SIZE_pos. pose proof Hst as (b & Hb & _).
  pose proof (staged_split _ _ _ _ _ _ b bs Hv Hb Hst) as [Ht Hd].
  set (n := min _ _) in *.
  destruct (rview_cur _ _ _ _ _ _ _ _ Hv) as (b' & Hb' & Hw & Hs & Hr). assert (b' = b) as -> by congruence.
  destruct (proj2 (rv_pos _ _ _ _ _ _ _ _ _ Hv)) as [Hp0 HpB]. pose proof (proj2 Hw) as Hcap.
  pose proof (rv_cur _ _ _ _ _ _ _ _ _ Hv) as Hcb. destruct (wf_whole _ Hw) as [_ Hlb]. assert (HB := B_Z).
  rw /update_recv_body. rw (proj2 (Z.eqb_neq _ _)); [lia|]. do 2 cn_step. rw Hcb.
  cn_step. cn_step. wp_step. cbv zeta.
  rw (_ : recv_chunk b (next_recv_pos c) (Z.of_nat (length bs)) = Z.of_nat n).
  { rw /recv_chunk Hcap u32_small; [lia|]. rw u32_small; [lia|]. case_match eqn:E; lia. }
  do 2 cn_step. wp_step. do 2 cn_step. rw Hs (u32_small (next_recv_pos c + Z.of_nat n)); [lia|].
  rw (_ : i32 (Z.of_nat (length bs) - Z.of_nat n) = Z.of_nat (length bs - n)); [rw i32_small; lia|].
  rw Hcap. destruct (Z.leb_spec BUFFER_SIZE (next_recv_pos c + Z.of_nat n)) as [Hend|Hstay].
  2:{ do 2 cn_step. cn_step. exists (length bs - n). 
      pose proof (rview_grow _ _ _ _ _ _ _ n Hv Hb Hstay) as Hg.
      assert (n = length bs) as Hn by lia.
      do 5 eexists. split_and!; [lia|done|done| |done|].
      - rw (_ : length bs - (length bs - n) = n); [lia|]. rw -Ht. exact Hg.
      - rw drop_ge; [lia|]. by eapply staged_nil. }
  assert (next_recv_pos c + Z.of_nat n = BUFFER_SIZE)%Z as Hfull by lia. rw Hfull.
  rw (rview_link _ _ _ _ _ _ _ _ _ Hv Hb). rw (drop_ge _ n) in Hd; [rw length_drop; lia|]. simpl in Hd.
  destruct post as [|l2 post]; simpl.
  - (* a new buffer *)
    do 4 cn_step. apply wp_buffer_create_and_acquire; [lia..|]. intros l2 Hl2.
    assert (cur ≠ l2) as Hne by (intros ->; by rw lookup_insert_eq in Hl2).
    rw lookup_insert_ne in Hl2; [exact Hne|]. apply wp_bufs.
    eapply wp_hmodify; [rw lookup_insert_ne; [congruence|apply lookup_insert_eq]|].
    change (Buffer _ _ _ _ _) with (new_buffer (c_mt c)). rw -extended_size; [exact Hne|].
    eapply wp_mono; [apply (taken_next _ _ _ _ pre cur l2 [] data _ bs n)|].
    + by apply rview_extend.
    + apply lookup_insert_eq.
    + done.
    + lia.
    + done.
    + rw take_nil in Hd. rw -Hd. apply (f_equal length) in Hd. rw length_drop /= in Hd. by rw -Hd.
    + intros [] s' Hs'. by wp_step.
  - do 3 cn_step. cbn beta. eapply wp_mono; [apply (taken_next _ _ _ _ pre cur l2 post data b bs n);
      [exact Hv|exact Hb|exact Hfull|lia|exact Ht|exact Hd]|].
    intros [] s' Hs'. by wp_step.
Qed.

(** [update_next_recv_pos] takes in the bytes that the kernel has written. *)
Lemma update_ok {A} (w : world (cmem A)) C h c pre cur post data bs :
  recv_rep h c pre cur post data → staged h c cur post bs → (Z.of_nat (length bs) < 2 ^ 31)%Z →
  wp (update_next_recv_pos (Some C) (Z.of_nat (length bs))) (cw w C h c) (λ _ s, ∃ h' c' pre' cur' post',
    s = cw w C h' c' ∧ recv_rep h' c' pre' cur' post' (data ++ bs) ∧ recv_moved c c').
Proof.
  intros Hv Hst Hlen. rw /update_next_recv_pos u32_small; [lia|]. rw Nat2Z.id.
  apply (wp_loop (λ (n : nat) x s, ∃ h' c' pre' cur' post', x = Z.of_nat n ∧ n ≤ length bs ∧ s = cw w C h' c' ∧
    recv_rep h' c' pre' cur' post' (data ++ take (length bs - n) bs) ∧ recv_moved c c' ∧
    staged h' c' cur' post' (drop (length bs - n) bs)) _ _ (length bs)); [| |lia].
  2:{ exists h, c, pre, cur, post. rw Nat.sub_diag drop_0 app_nil_r. split_and!; done. }
  intros n x s (h1 & c1 & pre1 & cur1 & post1 & -> & Hn & -> & Hv1 & Hm1 & Hst1).
  destruct n as [|n].
  { rw /update_recv_body (Z.eqb_refl 0). wp_step. exists h1, c1, pre1, cur1, post1. split_and!; [done| |done].
    by rw Nat.sub_0_r firstn_all in Hv1. }
  assert (Hl : length (drop (length bs - S n) bs) = S n) by (rw length_drop; lia).
  pose proof (update_round w C _ _ _ _ _ _ _ Hv1 Hst1) as Hr. rw Hl in Hr.
  eapply wp_mono; [apply Hr; lia|]. intros r s (m & h2 & c2 & pre2 & cur2 & post2 & Hlt & -> & -> & Hv2 & Hm2 & Hst2).
  rw Hl in Hlt. rw -app_assoc Hl take_take_drop in Hv2. rw Hl drop_drop in Hst2.
  assert (Hk : length bs - S n + (S n - m) = length bs - m) by lia. rw Hk in Hv2 Hst2.
  exists m. split; [lia|]. exists h2, c2, pre2, cur2, post2. split_and!; try done; [lia|by etrans].
Qed.
End receive.

(** ** The window for the kernel *)

Definition with_iovs {U} (v : gmap loc (list iovec)) (w : world U) : world U :=
  World (w_sockets w) (w_engines w) (w_nexts w) (w_ios w) v (socket_pool w) (engine_pool w)
    (recv_count w) (w_mem w).
Definition with_ios {U} (v : gmap loc st_io) (w : world U) : world U :=
  World (w_sockets w) (w_engines w) (w_nexts w) v (w_iovs w) (socket_pool w) (engine_pool w)
    (recv_count w) (w_mem w).
Definition with_overlaps {A} (v : gmap loc OVERLAPCONTEXT) (w : world (cmem A)) : world (cmem A) :=
  let u := w_mem w in
  set_mem (CMem (m_bufs u) (m_conns u) v (m_packets u) (packet_send u) (m_client u)) w.

(** The memory that the next read may fill: the rest of the current buffer, and
    as much of the next one as makes up [BUFFER_SIZE] bytes. *)
Definition window (cur : loc) (post : list loc) (pos : Z) : list iovec :=
  Iovec (Some cur, pos) (BUFFER_SIZE - pos) ::
  (if (pos =? 0)%Z then [] else [Iovec (head post, 0%Z) pos]).

(** What [readv] does with the bytes that it delivers. *)
Fixpoint scatter (iovs : list iovec) (bs : list Z) : M bufs () :=
  match iovs with
  | [] => mret tt
  | v :: iovs =>
      let n := Z.to_nat (iov_len v) in
      buf_write (fst (iov_base v)) (snd (iov_base v)) (take n bs);;
      scatter iovs (drop n bs)
  end.

Section window.
Context {A : Type}.
Implicit Types (w : world (cmem A)) (h : bufs) (k : connection) (pre post : list loc) (C cur : loc).

Lemma wp_iovs {B} (m : M (gmap loc (list iovec)) B) w C h k (R : B → world (cmem A) → Prop) :
  wp m (w_iovs w) (λ a v, R a (cw (with_iovs v w) C h k)) → wp (on_iovs m) (cw w C h k) R.
Proof. intros Hm. rw /on_iovs. wp_step. exact Hm. Qed.

Lemma wp_ios {B} (m : M (gmap loc st_io) B) w C h k (R : B → world (cmem A) → Prop) :
  wp m (w_ios w) (λ a v, R a (cw (with_ios v w) C h k)) → wp (on_ios m) (cw w C h k) R.
Proof. intros Hm. rw /on_ios. wp_step. exact Hm. Qed.

Lemma wp_overlaps {B} (m : M (gmap loc OVERLAPCONTEXT) B) w C h k (R : B → world (cmem A) → Prop) :
  wp m (m_overlaps (w_mem w)) (λ a v, R a (cw (with_overlaps v w) C h k)) → wp (on_overlaps m) (cw w C h k) R.
Proof. intros Hm. rw /on_overlaps /on_mem. do 2 wp_step. exact Hm. Qed.

(** A store into the array of iovecs. *)
Lemma wp_iov_set w C h k arr l (i : nat) v (R : () → world (cmem A) → Prop) :
  w_iovs w !! arr = Some l → i < length l →
  R tt (cw (with_iovs (<[arr := <[i := v]> l]> (w_iovs w)) w) C h k) →
  wp (iov_set arr (Z.of_nat i) v) (cw w C h k) R.
Proof.
  intros Hl Hi HR. rw /iov_set. wp_step. apply wp_iovs. wp_step.
  rw (_ : (0 <=? Z.of_nat i)%Z && (Z.of_nat i <? Z.of_nat (length l))%Z = true).
  { apply andb_true_intro. split; [apply Z.leb_le|apply Z.ltb_lt]; lia. }
  apply wp_iovs. eapply wp_hstore; [done|]. by rw Nat2Z.id.
Qed.

(** The loop ends when nothing is wanted. *)
Lemma window_end w C h k fuel buf pos z i (R : Z → world (cmem A) → Prop) :
  z = 0%Z → 0 < fuel → R i (cw w C h k) →
  wp (loop fuel (window_body (Some C)) (buf, pos, z, i)) (cw w C h k) R.
Proof. intros -> Hf HR. destruct fuel as [|fuel]; [lia|]. simpl. wp_step. rw /window_body. by do 2 wp_step. Qed.

(** The buffer after the current one: it is there, or it is made. *)
Lemma window_next w C h k pre cur post data b {X} (f : buffer → M (world (cmem A)) X)
    (R : X → world (cmem A) → Prop) :
  recv_rep h k pre cur post data → h !! cur = Some b →
  (∀ h' post' l2 b, recv_rep h' k pre cur (l2 :: post') data → h' !! cur = Some b → b_next b = Some l2 →
     wp (f b) (cw w C h' k) R) →
  wp ((match b_next b with
       | Some _ => mret tt
       | None =>
           nb ← on_bufs (buffer_create_and_acquire (c_mt k) NULL BUFFER_SIZE);
           on_bufs (hmodify (Some cur) (with_next nb))
       end);;
      b ← on_bufs (hload (Some cur));
      f b) (cw w C h k) R.
Proof.
  intros Hv Hb HR. pose proof BUFFER_SIZE_pos as HB. rw (rview_link _ _ _ _ _ _ _ _ _ Hv Hb). destruct post as [|l2 post]; cbn [head].
  - do 3 cn_step. apply wp_buffer_create_and_acquire; [lia..|]. intros l2 Hl2. 
    assert (l2 ≠ cur) as Hne by congruence.
    apply wp_bufs. eapply wp_hmodify; [rw lookup_insert_ne; [exact Hne|exact Hb]|].
    cn_step. apply wp_bufs. eapply wp_hload; [apply lookup_insert_eq|].
    eapply (HR _ [] l2); [apply (rview_extend h k pre cur data b l2 (c_mt k) Hv Hb Hl2)|apply lookup_insert_eq|].
    reflexivity.
  - do 4 cn_step. wp_step. apply (HR h post l2 b); [exact Hv|exact Hb|].
    exact (rview_link _ _ _ _ _ _ _ _ _ Hv Hb).
Qed.

(** The loop of [RecvFinish] that sets up the next read. *)
Lemma window_ok w C h k pre cur post data arr :
  recv_rep h k pre cur post data → w_iovs w !! wrecvbuf k = Some arr → length arr = 2 →
  wp (loop 4 (window_body (Some C)) (next_recv_buf k, next_recv_pos k, BUFFER_SIZE, 0%Z)) (cw w C h k)
    (λ i s, ∃ h' post' arr', s = cw (with_iovs (<[wrecvbuf k := arr']> (w_iovs w)) w) C h' k ∧
      recv_rep h' k pre cur post' data ∧ length arr' = 2 ∧ (next_recv_pos k ≠ 0%Z → post' ≠ []) ∧
      i = Z.of_nat (length (window cur post' (next_recv_pos k))) ∧
      take (Z.to_nat i) arr' = window cur post' (next_recv_pos k)).
Proof.
  intros Hv Harr Hlen. pose proof BUFFER_SIZE_pos as HB. destruct (rview_cur _ _ _ _ _ _ _ _ Hv) as (b & Hb & Hw & _).
  destruct (proj2 (rv_pos _ _ _ _ _ _ _ _ _ Hv)) as [Hp0 HpB]. set (pos := next_recv_pos k) in *.
  destruct arr as [|a0 [|a1 [|]]]; try done.
  rw (rv_cur _ _ _ _ _ _ _ _ _ Hv). rw loop_S. wp_step. rw {1}/window_body (proj2 (Z.eqb_neq _ _)); [lia|].
  do 2 cn_step. do 2 cn_step. wp_step. rw (proj2 Hw) (u32_small (BUFFER_SIZE - pos)); [lia|].
  rw (_ : (if (BUFFER_SIZE - pos <? BUFFER_SIZE)%Z then BUFFER_SIZE - pos else BUFFER_SIZE)%Z = BUFFER_SIZE - pos)%Z.
  { destruct (Z.ltb_spec (BUFFER_SIZE - pos) BUFFER_SIZE); lia. }
  wp_step. apply (wp_iov_set w C h k (wrecvbuf k) [a0; a1] 0); [done|simpl; lia|].
  cbv zeta. rw (u32_small (BUFFER_SIZE - _)); [lia|]. rw (u32_small (pos + _)); [lia|].
  rw (_ : BUFFER_SIZE - (BUFFER_SIZE - pos) = pos)%Z; [lia|]. rw (_ : pos + (BUFFER_SIZE - pos) = BUFFER_SIZE)%Z; [lia|].
  rw Z.leb_refl andb_true_r. simpl (<[0 := _]> _).
  destruct (Z.eqb_spec pos 0) as [Hz|Hz]; cbn [negb].
  - wp_step. cbn beta match. apply window_end; [exact Hz|lia|].
    exists h, post, [Iovec (Some cur, pos) (BUFFER_SIZE - pos); a1]. split_and!; try done.
    all: by rw /window (proj2 (Z.eqb_eq _ _) Hz).
  - eapply window_next; [exact Hv|exact Hb|]. intros h' post' l2 b' Hv' Hb' Hn. wp_step. rw Hn.
    rw loop_S. wp_step. rw {1}/window_body (proj2 (Z.eqb_neq _ _) Hz). do 2 cn_step. do 2 cn_step.
    destruct (rv_whole _ _ _ _ _ _ _ _ _ Hv' l2) as (b2 & Hb2 & Hw2 & _); [set_solver|].
    eapply wp_hload; [exact Hb2|]. cbv zeta. rw (proj2 Hw2) Z.sub_0_r (u32_small BUFFER_SIZE); [lia|].
    rw (_ : (if (BUFFER_SIZE <? pos)%Z then BUFFER_SIZE else pos) = pos).
    { destruct (Z.ltb_spec BUFFER_SIZE pos); lia. }
    wp_step. eapply (wp_iov_set _ C h' k (wrecvbuf k) _ 1); [apply lookup_insert_eq|simpl; lia|].
    rw Z.sub_diag (_ : negb (u32 0 =? 0)%Z = false) //. simpl ((_ && _)). cbv match. wp_step. cbn beta match.
    apply window_end; [done|lia|].
    exists h', (l2 :: post'), [Iovec (Some cur, pos) (BUFFER_SIZE - pos); Iovec (Some l2, 0%Z) pos].
    split_and!; try done; [by rw /= insert_insert_eq|..].
    all: rw /window (proj2 (Z.eqb_neq _ _) Hz) //.
Qed.
End window.

(** ** What the kernel writes *)

Section scatter.
Implicit Types (h : bufs) (k : connection) (pre post : list loc) (cur : loc).

(** A view does not see bytes that are not valid. *)
Lemma rview_shape h h' k dn pre cur post data need most :
  rview h k dn pre cur post data need most → hshape h h' →
  (∀ l b b', l ∈ dn ++ pre ++ cur :: post → h !! l = Some b → h' !! l = Some b' →
     b_size b' = b_size b ∧ bdata b' = bdata b) →
  rview h' k dn pre cur post data need most.
Proof.
  intros [C1 C2 C3 C4 C5 C6 C7 C8 C9 C10] Hsh Hd.
  assert (Hl : ∀ l b, l ∈ dn ++ pre ++ cur :: post → h !! l = Some b → ∃ b', h' !! l = Some b' ∧
    bshape b' = bshape b ∧ b_size b' = b_size b ∧ bdata b' = bdata b).
  { intros l b Hin Hb. destruct (hshape_lookup _ _ _ _ Hsh Hb) as (b' & Hb' & Hs). exists b'.
    destruct (Hd l b b' Hin Hb Hb'). by split_and!. }
  split; try done.
  - by eapply hshape_chain.
  - intros l Hin. destruct (C5 l Hin) as (b & Hb & [[? [? Hlen]] Hcap] & Hr).
    destruct (Hl l b Hin Hb) as (b' & Hb' & [= _ Href Hc Hbl] & Hs & _). exists b'. split; [done|].
    by rw /whole /buf_wf /rc Href Hc Hs Hbl.
  - intros l Hin. destruct (C6 l Hin) as (b & Hb & Hs).
    destruct (Hl l b ltac:(rw !elem_of_app elem_of_cons; rw ?elem_of_app ?elem_of_cons in Hin; tauto) Hb) as (b' & Hb' & _ & Hs' & _). exists b'. by rw Hs'.
  - destruct C7 as [(b & Hb & Hs) ?]. split; [|done].
    destruct (Hl cur b ltac:(rw !elem_of_app elem_of_cons; tauto) Hb) as (b' & Hb' & _ & Hs' & _). exists b'. by rw Hs'.
  - intros l Hin. destruct (C8 l Hin) as (b & Hb & Hs).
    destruct (Hl l b ltac:(rw !elem_of_app elem_of_cons; rw ?elem_of_app ?elem_of_cons in Hin; tauto) Hb) as (b' & Hb' & _ & Hs' & _). exists b'. by rw Hs'.
  - rw -C10. f_equal. apply content_ext. intros l Hin.
    destruct (C5 l ltac:(rw !elem_of_app elem_of_cons; rw ?elem_of_app ?elem_of_cons in Hin; tauto)) as (b & Hb & _).
    destruct (Hl l b ltac:(rw !elem_of_app elem_of_cons; rw ?elem_of_app ?elem_of_cons in Hin; tauto) Hb) as (b' & Hb' & _ & _ & He). by rw Hb Hb' /= He.
Qed.

(** A write at or behind the size of a buffer. *)
Lemma rview_write h k dn pre cur post data need most l b pos bs :
  rview h k dn pre cur post data need most → h !! l = Some b →
  (Z.to_nat (b_size b) ≤ pos)%nat → pos + length bs ≤ length (buf b) →
  rview (<[l := with_bytes (splice pos bs (buf b)) b]> h) k dn pre cur post data need most.
Proof.
  intros Hv Hb Hpos Hlen. eapply rview_shape; [done| |].
  - apply (hshape_insert _ _ b); [done|]. by rw /bshape /= length_splice.
  - intros l' b1 b2 _ Hb1. rw lookup_insert. case_decide; [|by rw Hb1; intros [= <-]].
    subst l'. intros [= <-]. assert (b1 = b) as -> by congruence. split; [done|].
    rw /bdata /=. rw /splice take_app_le; [rw length_take; lia|]. rw take_take. f_equal. lia.
Qed.

Lemma drop_splice {T} off (bs l : list T) : off ≤ length l →
  drop off (splice off bs l) = bs ++ drop (off + length bs) l.
Proof. intros. rw /splice drop_app_length' //. rw length_take. lia. Qed.

(** The bytes that [readv] delivers into the window are staged. *)
Lemma scatter_staged h k pre cur post data bs :
  recv_rep h k pre cur post data → (next_recv_pos k ≠ 0%Z → post ≠ []) →
  (Z.of_nat (length bs) ≤ BUFFER_SIZE)%Z →
  wp (scatter (window cur post (next_recv_pos k)) bs) h (λ _ h',
    recv_rep h' k pre cur post data ∧ staged h' k cur post bs).
Proof.
  intros Hv Hpost Hlen. pose proof BUFFER_SIZE_pos as HB. pose proof B_Z as HBZ.
  destruct (rview_cur _ _ _ _ _ _ _ _ Hv) as (b & Hb & Hw & Hs & _). destruct (wf_whole _ Hw) as [_ Hlb].
  destruct (proj2 (rv_pos _ _ _ _ _ _ _ _ _ Hv)) as [Hp0 HpB]. set (pos := next_recv_pos k) in *.
  rw /window. cbn [scatter iov_len iov_base fst snd]. set (n := Z.to_nat (BUFFER_SIZE - pos)).
  wp_step. eapply wp_buf_write; [exact Hb|rw length_take; lia|].
  set (b' := with_bytes _ b). set (h1 := <[cur := b']> h).
  assert (Hv1 : recv_rep h1 k pre cur post data).
  { apply rview_write; [done|done|lia|]. rw length_take. lia. }
  assert (Hd1 : drop (Z.to_nat pos) (buf b') = take n bs ++ drop (Z.to_nat pos + length (take n bs)) (buf b)).
  { apply drop_splice. lia. }
  destruct (Z.eqb_spec pos 0) as [Hz|Hz]; cbn [scatter].
  - wp_step. split; [done|]. exists b'. split; [apply lookup_insert_eq|]. fold pos. rw Hd1.
    rw (take_ge bs n); [lia|]. rw -app_assoc take_app_length. reflexivity.
  - destruct post as [|l2 post]; [by destruct (Hpost Hz)|]. cbn [head iov_len iov_base fst snd].
    destruct (rv_whole _ _ _ _ _ _ _ _ _ Hv1 l2) as (b2 & Hb2 & Hw2 & _); [rw /= elem_of_app !elem_of_cons; tauto|].
    destruct (rv_post _ _ _ _ _ _ _ _ _ Hv1 l2) as (b2' & Hb2' & Hs2); [left|].
    assert (b2' = b2) as -> by congruence. destruct (wf_whole _ Hw2) as [_ Hlb2].
    pose proof (rv_nodup _ _ _ _ _ _ _ _ _ Hv) as Hnd. simpl in Hnd.
    apply NoDup_app in Hnd as (_ & _ & [Hc _]%NoDup_cons).
    assert (cur ≠ l2) as Hne by (intros ->; apply Hc; left).
    wp_step. eapply wp_buf_write; [exact Hb2|rw length_take length_drop; lia|]. wp_step. split.
    + apply rview_write; [done|done|lia|]. rw length_take length_drop. lia.
    + exists b'. split; [rw lookup_insert_ne; [exact (not_eq_sym Hne)|apply lookup_insert_eq]|]. fold pos.
      rw Hd1 (raw_bytes_cons _ _ _ _ (lookup_insert_eq _ _ _)). cbn [buf with_bytes].
      set (tl := raw_bytes _ post). rw (take_ge (drop n bs)); [rw length_drop; lia|].
      change (Z.to_nat 0) with 0. rw /splice take_0 app_nil_l.
      destruct (decide (length bs ≤ n)) as [Hle|Hgt].
      * rw (take_ge bs n); [exact Hle|]. rw -app_assoc take_app_length. reflexivity.
      * rw (drop_ge (buf b)); [rw length_take; lia|]. rw app_nil_r -(app_assoc (drop n bs)) (app_assoc (take n bs)) take_drop take_app_length.
        reflexivity.
Qed.
End scatter.

(** ** The stream in pieces *)

Section pieces.
Implicit Types xs ys bs : list Z.

Lemma frame_app xs ys : let k := Z.to_nat (le (take 4 xs)) in 4 < length xs → 4 + k ≤ length xs →
  take 4 (xs ++ ys) = take 4 xs ∧ take k (drop 4 (xs ++ ys)) = take k (drop 4 xs) ∧
  drop (4 + k) (xs ++ ys) = drop (4 + k) xs ++ ys.
Proof.
  intros k H4 Hk. split_and!.
  - rw take_app_le //. lia.
  - rw drop_app_le; [lia|]. rw take_app_le //. rw length_drop. lia.
  - by rw drop_app_le.
Qed.

Lemma no_frame bs : (length bs <=? 4)%nat || (length bs <? 4 + Z.to_nat (le (take 4 bs)))%nat = false →
  4 < length bs ∧ 4 + Z.to_nat (le (take 4 bs)) ≤ length bs.
Proof. intros [H1 H2]%orb_false_elim. apply Nat.leb_gt in H1. apply Nat.ltb_ge in H2. done. Qed.

(** What is left of the first piece is parsed again with the second one. *)
Lemma parse_app xs ys : parse (xs ++ ys) =
  ((parse xs).1 ++ (parse ((parse xs).2 ++ ys)).1, (parse ((parse xs).2 ++ ys)).2).
Proof.
  remember (length xs) as n eqn:Hn. revert xs Hn. induction n as [n IH] using lt_wf_ind. intros xs ->.
  destruct ((length xs <=? 4)%nat || (length xs <? 4 + Z.to_nat (le (take 4 xs)))%nat) eqn:Hc.
  { rw (parse_short _ Hc) /=. by destruct (parse (xs ++ ys)). }
  destruct (no_frame _ Hc) as [H4 Hk]. destruct (frame_app xs ys H4 Hk) as (Ht & Hp & Hd).
  rw (parse_frame xs Hc) (parse_frame (xs ++ ys)).
  { rw Ht length_app. apply orb_false_intro; [apply Nat.leb_gt|apply Nat.ltb_ge]; lia. }
  rw Ht Hp Hd. cbn [fst snd]. rw (IH (length (drop (4 + Z.to_nat (le (take 4 xs))) xs))); [rw length_drop; lia|done|done].
Qed.

(** What is left is the end of the bytes, and holds no packet. *)
Lemma parse_suffix xs : ∃ pre, xs = pre ++ (parse xs).2.
Proof.
  remember (length xs) as n eqn:Hn. revert xs Hn. induction n as [n IH] using lt_wf_ind. intros xs ->.
  destruct ((length xs <=? 4)%nat || (length xs <? 4 + Z.to_nat (le (take 4 xs)))%nat) eqn:Hc.
  { rw (parse_short _ Hc) /=. by exists []. }
  destruct (no_frame _ Hc) as [H4 Hk]. rw (parse_frame xs Hc). cbn [snd].
  set (m := 4 + _) in *. destruct (IH (length (drop m xs)) ltac:(rw length_drop; lia) (drop m xs)) as [pre Hpre]; [done|].
  exists (take m xs ++ pre). by rw -app_assoc -Hpre take_drop.
Qed.

Lemma parse_rest xs : parse (parse xs).2 = ([], (parse xs).2).
Proof.
  pose proof (parse_app xs []) as H. rw !app_nil_r in H. destruct (parse xs) as [p r]. cbn [fst snd] in *.
  destruct (parse r) as [p' r']. cbn [fst snd] in H. injection H as H1 H2. subst r'. f_equal.
  apply (app_inv_head p). by rw app_nil_r.
Qed.

Lemma headers_ok_more n m pos bs : length bs < n → length bs < m → headers_ok n pos bs → headers_ok m pos bs.
Proof.
  revert m pos bs. induction n as [|n IH]; intros m pos bs Hn Hm; [lia|]. destruct m as [|m]; [lia|].
  intros H Hl. destruct (H Hl) as (? & ? & Hnext). split_and!; [done..|]. intros k Hk.
  apply IH; [rw length_drop; lia..|]. by apply Hnext.
Qed.

(** The length fields of the stream are those of its pieces. *)
Lemma headers_ok_app xs ys pos : (0 ≤ pos < BUFFER_SIZE)%Z → bytes xs →
  headers_ok (S (length (xs ++ ys))) pos (xs ++ ys) →
  let r := (parse xs).2 in
  headers_ok (S (length xs)) pos xs ∧
  headers_ok (S (length (r ++ ys))) ((pos + Z.of_nat (length xs - length r)) mod BUFFER_SIZE) (r ++ ys).
Proof.
  remember (length xs) as n eqn:Hn. revert xs pos Hn. induction n as [n IH] using lt_wf_ind.
  intros xs pos -> Hpos Hby H r.
  destruct ((length xs <=? 4)%nat || (length xs <? 4 + Z.to_nat (le (take 4 xs)))%nat) eqn:Hc.
  - rw /r (parse_short _ Hc). cbn [snd]. split; [|by rw Nat.sub_diag Z.add_0_r Z.mod_small].
    intros H4. destruct (H ltac:(rw length_app; lia)) as (? & ? & _). rw take_app_le in H1; [lia|].
    split_and!; [done..|]. intros k Hk. exfalso. apply orb_true_iff in Hc as [?%Nat.leb_le|?%Nat.ltb_lt]; lia.
  - destruct (no_frame _ Hc) as [H4 Hk]. destruct (frame_app xs ys H4 Hk) as (Ht & _ & Hd).
    destruct (H ltac:(rw length_app; lia)) as (Hp4 & H36 & Hnext). cbv zeta in Hnext. rw Ht in Hp4 H36 Hnext.
    pose proof (le_bound (take 4 xs) ltac:(by apply Forall_take)) as Hle.
    set (k := Z.to_nat (le (take 4 xs))) in *. rw Hd in Hnext. specialize (Hnext ltac:(rw length_app; lia)).
    assert (Hlen : length (drop (4 + k) xs) = length xs - (4 + k)) by rw length_drop //.
    destruct (IH (length (drop (4 + k) xs)) ltac:(lia) (drop (4 + k) xs) ((pos + 4 + le (take 4 xs)) mod BUFFER_SIZE)%Z)
      as [IH1 IH2]; [done|apply Z.mod_pos_bound; lia|by apply Forall_drop| |].
    { eapply headers_ok_more; [| |exact Hnext]; rw !length_app Hlen; lia. }
    pose proof (parse_rest_le (drop (4 + k) xs)) as Hrest.
    rw /r (parse_frame _ Hc). cbn [snd]. fold k. split.
    + intros _. split_and!; [done..|]. intros k' _. eapply headers_ok_more; [| |exact IH1]; rw Hlen; lia.
    + cbv zeta in IH2. rw Z.add_mod_idemp_l in IH2; [lia|]. 
      rw (_ : pos + Z.of_nat (length xs - length (parse (drop (4 + k) xs)).2) =
        pos + 4 + le (take 4 xs) + Z.of_nat (length (drop (4 + k) xs) - length (parse (drop (4 + k) xs)).2))%Z; [lia|].
      exact IH2.
Qed.
End pieces.

(** ** A chunk of bytes *)

(** What receiving and unpacking leave of a connection. *)
Definition same_conn (k k' : connection) : Prop :=
  k' = set_unpack_buf (unpack_buf k') (set_unpack_pos (unpack_pos k') (set_unpack_size (unpack_size k')
    (set_next_recv_pos (next_recv_pos k') (set_next_recv_buf (next_recv_buf k') k)))).
#[export] Instance same_conn_preorder : PreOrder same_conn.
Proof. split; [by intros []|]. rw /same_conn. intros c1 c2 c3 -> ->. done. Qed.

Lemma same_conn_fields k k' : same_conn k k' →
  c_socket k' = c_socket k ∧ wrecvbuf k' = wrecvbuf k ∧ recv_overlap k' = recv_overlap k ∧
  _process_packet k' = _process_packet k ∧ c_raw k' = c_raw k.
Proof. intros ->. done. Qed.

Lemma rview_pos_ok h k dn pre cur post data need most : rview h k dn pre cur post data need most →
  (0 ≤ unpack_pos k < BUFFER_SIZE)%Z.
Proof. intros Hv. apply (rv_upos _ _ _ _ _ _ _ _ _ Hv). Qed.

Section chunk.
Context {A : Type} (process : nat → ptr → rpacket → M (world (cmem A)) ()).
Context (log : A → list (list Z)) (keeps : relation (world (cmem A))) `{!PreOrder keeps}.
Context (Hprocess : good_process process log keeps).
Implicit Types (w : world (cmem A)) (h : bufs) (k : connection) (pre post : list loc) (C cur : loc).

(** The first part of a round of [RecvFinish]: the bytes are taken in and
    unpacked. *)
Definition take_in (C : loc) (n : Z) : M (world (cmem A)) () :=
  update_next_recv_pos (Some C) n;;
  conn_set (Some C) (λ c, set_unpack_size (u32 (unpack_size c + n)) c);;
  unpack process (Some C).

(** The connection [k] with [data] received and not unpacked, in the state [s]. *)
Definition holds C k (data : list Z) w h pre cur post (s : world (cmem A)) : Prop :=
  s = cw w C h k ∧ recv_rep h k pre cur post data ∧ unpack_size k = Z.of_nat (length data).

Lemma take_in_ok w C h k f pre cur post data bs s : holds C k data w h pre cur post s →
  staged h k cur post bs → c_raw k = false → _process_packet k = Some f →
  (Z.of_nat (length (data ++ bs)) < 2 ^ 31)%Z → bytes (data ++ bs) →
  headers_ok (S (length (data ++ bs))) (unpack_pos k) (data ++ bs) →
  wp (take_in C (Z.of_nat (length bs))) s (λ _ s, ∃ w' h' k' pre' cur' post',
    let rest := (parse (data ++ bs)).2 in
    holds C k' rest w' h' pre' cur' post' s ∧ same_conn k k' ∧ keeps w w' ∧
    unpack_pos k' = ((unpack_pos k + Z.of_nat (length (data ++ bs) - length rest)) mod BUFFER_SIZE)%Z ∧
    log (m_client (w_mem w')) = log (m_client (w_mem w)) ++ (parse (data ++ bs)).1).
Proof.
  intros (-> & Hv & Hus) Hst Hraw Hf Hlen Hby Hh. rw length_app in Hlen. rw /take_in. wp_step.
  eapply wp_mono; [apply (update_ok w C h k pre cur post data bs Hv Hst); lia|].
  intros [] s (h1 & k1 & pre1 & cur1 & post1 & -> & Hv1 & Hm). rw /recv_moved in Hm. do 2 cn_step.
  assert (unpack_size k1 = unpack_size k) as -> by by rw Hm. rw Hus (u32_small (_ + _)); [lia|].
  set (k2 := set_unpack_size _ k1).
  eapply wp_mono.
  - eapply (unpack_ok process log keeps Hprocess w C h1 k2 f pre1 cur1 post1 (data ++ bs)).
    + by apply rview_size.
    + by rw /k2 Hm.
    + by rw /k2 Hm.
    + rw length_app. simpl. lia.
    + rw length_app. lia.
    + done.
    + by rw /k2 Hm.
  - intros [] s (w' & h' & k' & pre' & -> & Hv' & Hsr & Hk & Hus' & Hup & Hlog).
    exists w', h', k', pre', cur1, post1. split_and!; try done.
    + rw /same_conn Hsr /k2 Hm. done.
    + rw Hup. rw /k2 Hm. done.
Qed.
End chunk.

(** ** The read at the kernel *)

(** How much fits into a window. *)
Definition space (iovs : list iovec) : Z := foldr (λ v n, iov_len v + n)%Z 0%Z iovs.

Section kernel.
Context {A : Type} (K : kernel (cmem A)) (fuel : nat).
Context (log wire : A → list (list Z)).
Implicit Types (w : world (cmem A)) (h : bufs) (k : connection) (pre post xs : list loc) (C S cur : loc) (sk : socket).

(** The law of [readv] on the connection's socket: the peer's bytes come in
    chunks, [wire] are those to come; a chunk fills the iovecs in order.  When
    there is none the call would block. *)
Definition reads_wire : Prop := ∀ fd iovs u,
  match wire (m_client u) with
  | [] => k_readv K fd iovs u = Ok ((-1)%Z, EAGAIN, u)
  | bs :: rest => ∀ h', (Z.of_nat (length bs) ≤ space iovs)%Z → scatter iovs bs (m_bufs u) = Ok (tt, h') →
      ∃ a, wire a = rest ∧ log a = log (m_client u) ∧
        k_readv K fd iovs u = Ok (Z.of_nat (length bs), 0%Z,
          CMem h' (m_conns u) (m_overlaps u) (m_packets u) (packet_send u) a)
  end.

(** The connection's handle stands for the socket [sk] at [S], the queue of
    which holds the requests [xs]; the connection's own request is not queued. *)
Record listening w k S sk xs : Prop := {
  li_pool : pool_at (socket_pool w) (c_socket k) = Some S;
  li_sock : w_sockets w !! S = Some sk;
  li_open : s_status sk ≠ 0%Z;
  li_io : is_Some (w_ios w !! recv_overlap k);
  li_arr : ∃ arr, w_iovs w !! wrecvbuf k = Some arr ∧ length arr = 2;
  li_over : is_Some (m_overlaps (w_mem w) !! recv_overlap k);
  li_queue : ll_rep (w_nexts w) (pending_recv sk) xs;
  li_node : w_nexts w !! recv_overlap k = Some NULL;
  li_notin : recv_overlap k ∉ xs;
  li_room : ll_room xs;
}.

(** The request asks for the window, and is marked as used. *)
Definition asks w k cur post : Prop :=
  let win := window cur post (next_recv_pos k) in
  (∃ arr e, w_ios w !! recv_overlap k = Some (StIo (Some (wrecvbuf k)) (Z.of_nat (length win)) e) ∧
    w_iovs w !! wrecvbuf k = Some arr ∧ take (length win) arr = win ∧ length win ≤ length arr) ∧
  ∃ o, m_overlaps (w_mem w) !! recv_overlap k = Some o ∧ isUsed o = 1%Z.

(** The request is at the front of the queue of the socket, which is not
    readable any more. *)
Definition waits w k S xs : Prop :=
  ∃ sk, w_sockets w !! S = Some sk ∧ readable sk = 0%Z ∧
    ll_rep (w_nexts w) (pending_recv sk) (recv_overlap k :: xs).

Lemma wp_RETRY m w r e u (R : Z * Z → world (cmem A) → Prop) : 0 < fuel →
  m (w_mem w) = Ok (r, e, u) → (r ≠ -1 ∨ e ≠ EINTR)%Z → R (r, e) (set_mem u w) → wp (RETRY fuel m) w R.
Proof.
  intros Hf Hm Hr HR. destruct fuel as [|f]; [lia|]. rw /RETRY /TEMP_FAILURE_RETRY. apply wp_fmap.
  rw loop_S. wp_step. wp_step. rw /on_mem. wp_step. apply wp_fmap.
  eapply ok_wp; [exact Hm|]. wp_step.
  rw (_ : (r =? -1)%Z && (e =? EINTR)%Z = false).
  { apply andb_false_iff. destruct Hr; [left|right]; by apply Z.eqb_neq. }
  by wp_step.
Qed.

Lemma space_window cur post pos : (0 ≤ pos < BUFFER_SIZE)%Z → space (window cur post pos) = BUFFER_SIZE.
Proof. intros Hp. rw /window /space. destruct (Z.eqb_spec pos 0); simpl; lia. Qed.

(** The rest of the call after [readv]. *)
Definition read_end (S io : loc) (r errno : Z) : M (world (cmem A)) (Z * Z * Z) :=
  let bytes_transfer := i32 r in
  if (bytes_transfer <? 0)%Z then
    (if (errno =? EAGAIN)%Z then
       sock_set (Some S) (set_readable 0);;
       requeue_recv (Some S) (Some io)
     else mret tt);;
    mret (-1, bytes_transfer, errno)%Z
  else mret ((if bytes_transfer =? 0 then 0 else bytes_transfer), bytes_transfer, 0)%Z.

Lemma WSARecv_read w C h k S sk xs cur post r e u (R : Z * Z → world (cmem A) → Prop) : 0 < fuel →
  listening w k S sk xs → asks w k cur post →
  k_readv K (s_fd sk) (window cur post (next_recv_pos k)) (w_mem (cw w C h k)) = Ok (r, e, u) →
  (r ≠ -1 ∨ e ≠ EINTR)%Z →
  wp (read_end S (recv_overlap k) r e) (set_mem u (count_recv w)) (λ x, R (fst (fst x), snd x)) →
  wp (WSARecv K fuel (c_socket k) (Some (recv_overlap k)) true) (cw w C h k) R.
Proof.
  intros Hf Hl [(arr & e' & Hio & Harr & Hwin & Hlen) _] Hk Hre HR.
  set (win := window cur post (next_recv_pos k)) in *.
  rw /WSARecv. wp_step. wp_step; [done|].
  wp_step. rw /GetSocketByHandle. do 2 wp_step. rw (li_pool _ _ _ _ _ Hl). wp_step.
  eapply wp_sock; [exact (li_sock _ _ _ _ _ Hl)|]. wp_step.
  rw (proj2 (Z.eqb_neq _ _) (li_open _ _ _ _ _ Hl)). cbn match. rw /raw_recv. do 3 wp_step.
  wp_step. eapply wp_sock; [exact (li_sock _ _ _ _ _ Hl)|]. wp_step.
  rw /io_vectors. wp_step. change (count_recv (cw w C h k)) with (cw (count_recv w) C h k).
  apply wp_ios. eapply wp_hload; [exact Hio|]. wp_step. apply wp_iovs. eapply wp_hload; [exact Harr|].
  cbn [iovec_count]. rw Nat2Z.id (proj2 (Nat.leb_le _ _) Hlen) Hwin. wp_step. wp_step.
  eapply wp_RETRY; [done|exact Hk|done|]. cbn beta match.
  eapply wp_mono; [exact HR|]. intros [[ret bytes] err] s Hs. wp_step. exact Hs.
Qed.

(** The next chunk is there. *)
Lemma WSARecv_chunk w C h k S sk xs pre cur post data bs rest : reads_wire → 0 < fuel →
  listening w k S sk xs → asks w k cur post →
  recv_rep h k pre cur post data → (next_recv_pos k ≠ 0%Z → post ≠ []) →
  wire (m_client (w_mem w)) = bs :: rest → (Z.of_nat (length bs) ≤ BUFFER_SIZE)%Z →
  wp (WSARecv K fuel (c_socket k) (Some (recv_overlap k)) true) (cw w C h k) (λ r s, ∃ w' h',
    r = (Z.of_nat (length bs), 0%Z) ∧ s = cw w' C h' k ∧ recv_rep h' k pre cur post data ∧
    staged h' k cur post bs ∧ listening w' k S sk xs ∧ asks w' k cur post ∧
    wire (m_client (w_mem w')) = rest ∧ log (m_client (w_mem w')) = log (m_client (w_mem w))).
Proof.
  intros HK Hf Hl Hasks Hv Hpost Hw Hbs. pose proof BUFFER_SIZE_pos.
  set (win := window cur post (next_recv_pos k)) in *.
  destruct (wp_ok _ _ _ (scatter_staged h k pre cur post data bs Hv Hpost Hbs)) as ([] & h' & Hsc & Hv' & Hst).
  pose proof (HK (s_fd sk) win (w_mem (cw w C h k))) as Hread. cbn [w_mem cw set_mem m_client] in Hread. rw Hw in Hread.
  destruct (Hread h') as (a & Ha & Hlog & Hk); [|exact Hsc|].
  { rw /win space_window; [exact (proj2 (rv_pos _ _ _ _ _ _ _ _ _ Hv))|done]. }
  eapply WSARecv_read; [done|exact Hl|exact Hasks|exact Hk|left; lia|]. rw /read_end.
  rw i32_small; [lia|]. rw (proj2 (Z.ltb_ge _ _)); [lia|]. cbv zeta. wp_step.
  exists (set_mem (CMem (m_bufs (w_mem w)) (m_conns (w_mem w)) (m_overlaps (w_mem w)) (m_packets (w_mem w))
    (packet_send (w_mem w)) a) (count_recv w)), h'. split_and!; try done.
  - destruct (Z.eqb_spec (Z.of_nat (length bs)) 0) as [->|]; done.
  - destruct Hl. by split.
Qed.

(** No chunk is there. *)
Lemma WSARecv_blocks w C h k S sk xs cur post : reads_wire → 0 < fuel →
  listening w k S sk xs → asks w k cur post → wire (m_client (w_mem w)) = [] →
  wp (WSARecv K fuel (c_socket k) (Some (recv_overlap k)) true) (cw w C h k) (λ r s, ∃ w',
    r = ((-1)%Z, EAGAIN) ∧ s = cw w' C h k ∧ waits w' k S xs ∧ asks w' k cur post ∧ w_mem w' = w_mem w).
Proof.
  intros HK Hf Hl Hasks Hw.
  set (win := window cur post (next_recv_pos k)) in *.
  pose proof (HK (s_fd sk) win (w_mem (cw w C h k))) as Hk. cbn [w_mem cw set_mem m_client] in Hk. rw Hw in Hk.
  eapply WSARecv_read; [done|exact Hl|exact Hasks|exact Hk|by right|]. rw /read_end.
  rw i32_small; [lia|]. cbv zeta. change (-1 <? 0)%Z with true. cbv match. wp_step. rw Z.eqb_refl. wp_step.
  apply wp_sock_set; [eexists; exact (li_sock _ _ _ _ _ Hl)|]. rw /requeue_recv. wp_step.
  eapply wp_sock; [rw lookup_alter_eq (li_sock _ _ _ _ _ Hl); reflexivity|]. wp_step. simpl node. wp_step.
  wp_step. rw /on_nexts. wp_step. eapply wp_mono.
  { apply (ll_push_front_ok _ _ xs); [exact (li_queue _ _ _ _ _ Hl)|exact (li_node _ _ _ _ _ Hl)|
      exact (li_notin _ _ _ _ _ Hl)|exact (li_room _ _ _ _ _ Hl)]. }
  intros l' N' [Hl' _]. cbn beta. apply wp_sock_set; [rw lookup_alter_eq (li_sock _ _ _ _ _ Hl); by eexists|].
  wp_step. set (sks := alter (set_recv l') S (alter (set_readable 0) S (w_sockets w))).
  exists (World sks (w_engines w) N' (w_ios w) (w_iovs w) (socket_pool w) (engine_pool w)
    (recv_count (count_recv w)) (w_mem w)). split_and!; try done.
  - exists (set_recv l' (set_readable 0 sk)). rw /= /sks !lookup_alter_eq (li_sock _ _ _ _ _ Hl). done.
Qed.
End kernel.

(** ** [RecvFinish] *)

Lemma wp_take_in {A X} process C n (f : M (world (cmem A)) X) s (Q : X → world (cmem A) → Prop) :
  wp (take_in process C n) s (λ _ s', wp f s' Q) →
  wp (update_next_recv_pos (Some C) n;;
      conn_set (Some C) (λ c, set_unpack_size (u32 (unpack_size c + n)) c);;
      unpack process (Some C);;
      f) s Q.
Proof.
  rw /take_in /wp /mbind /M_bind. destruct (update_next_recv_pos _ _ s) as [[_ s1]|]; [|done].
  destruct (conn_set _ _ s1) as [[_ s2]|]; [|done]. by destruct (unpack _ _ s2) as [[_ s3]|].
Qed.

Section finish.
Context {A : Type} (K : kernel (cmem A)) (fuel : nat).
Context (process : nat → ptr → rpacket → M (world (cmem A)) ()).
Context (disconnect : nat → ptr → Z → M (world (cmem A)) ()).
Context (log wire : A → list (list Z)).
Implicit Types (w : world (cmem A)) (h : bufs) (k : connection) (pre post xs : list loc) (C S cur : loc) (sk : socket).

(** What a client leaves alone that reads its packets: the sockets, the
    requests, and the bytes to come. *)
Definition quiet w w' : Prop :=
  (w_sockets w', socket_pool w', w_nexts w', w_ios w', w_iovs w') =
  (w_sockets w, socket_pool w, w_nexts w, w_ios w, w_iovs w) ∧
  m_overlaps (w_mem w') = m_overlaps (w_mem w) ∧ wire (m_client (w_mem w')) = wire (m_client (w_mem w)).
#[export] Instance quiet_preorder : PreOrder quiet.
Proof.
  split; [done|]. intros w1 w2 w3 (E1 & F1 & G1) (E2 & F2 & G2). split_and!; by etrans.
Qed.

Lemma listening_quiet w w' k k' S sk xs : quiet w w' → same_conn k k' →
  listening w k S sk xs → listening w' k' S sk xs.
Proof.
  intros ([= Es Ep En Ei Ev] & Eo & _) (Hs & Hr & Ho & _)%same_conn_fields [].
  split; rw ?Es ?Ep ?En ?Ei ?Ev ?Eo ?Hs ?Hr ?Ho; done.
Qed.

(** The second part of a round: the request is set up for the next window. *)
Lemma arm_ok w C h k pre cur post data S sk xs {X} (f : M (world (cmem A)) X) (R : X → world (cmem A) → Prop) :
  recv_rep h k pre cur post data → listening w k S sk xs →
  (∀ w' h' post', recv_rep h' k pre cur post' data → (next_recv_pos k ≠ 0%Z → post' ≠ []) →
     listening w' k S sk xs → asks w' k cur post' → m_client (w_mem w') = m_client (w_mem w) →
     wp f (cw w' C h' k) R) →
  wp (i ← loop 4 (window_body (Some C)) (next_recv_buf k, next_recv_pos k, BUFFER_SIZE, 0%Z);
      io_set_used (recv_overlap k) 1;;
      set_request (recv_overlap k) (wrecvbuf k) i;;
      f) (cw w C h k) R.
Proof.
  intros Hv Hl HR. destruct (li_arr _ _ _ _ _ Hl) as (arr & Harr & Hlen).
  destruct (li_over _ _ _ _ _ Hl) as [o Ho]. destruct (li_io _ _ _ _ _ Hl) as [r Hr].
  wp_step. eapply wp_mono; [by eapply window_ok|].
  intros i s (h' & post' & arr' & -> & Hv' & Hlen' & Hpost & -> & Hwin). rw Nat2Z.id in Hwin.
  wp_step. rw /io_set_used. apply wp_overlaps. eapply wp_hmodify; [exact Ho|].
  wp_step. rw /set_request. apply wp_ios. eapply wp_hmodify; [exact Hr|].
  apply (HR _ h' post' Hv' Hpost).
  - destruct Hl. split; try done; simpl; rw lookup_insert_eq; by eexists.
  - split.
    + exists arr', (err_code r). cbn [w_ios w_iovs with_ios with_iovs with_overlaps set_mem].
      rw !lookup_insert_eq. split_and!; try done. rw -{1}Hwin length_take. lia.
    + exists (set_isUsed 1 o). simpl. by rw lookup_insert_eq.
  - done.
Qed.

Context (HK : reads_wire K log wire) (Hfuel : 0 < fuel) (Hprocess : good_process process log quiet).

(** What a stretch of the stream is: bytes, shorter than 2 GB, the length
    fields of which are where [unpack] can read them. *)
Definition readable_stream (pos : Z) (bs : list Z) : Prop :=
  bytes bs ∧ (Z.of_nat (length bs) < 2 ^ 31)%Z ∧ headers_ok (S (length bs)) pos bs.

(** The state after a read: the next chunk is staged, or the request waits. *)
Definition next_read w h k cur post S sk xs (chunks : list (list Z)) (x : Z * Z) : Prop :=
  match chunks with
  | [] => x = ((-1)%Z, EAGAIN) ∧ waits w k S xs ∧ wire (m_client (w_mem w)) = []
  | bs :: chunks => x = (Z.of_nat (length bs), 0%Z) ∧ staged h k cur post bs ∧ listening w k S sk xs ∧
      wire (m_client (w_mem w)) = chunks
  end.

Lemma read_ok w C h k pre cur post data S sk xs : recv_rep h k pre cur post data →
  (next_recv_pos k ≠ 0%Z → post ≠ []) → listening w k S sk xs → asks w k cur post →
  Forall (λ bs, 0 < length bs ∧ (Z.of_nat (length bs) ≤ BUFFER_SIZE)%Z) (wire (m_client (w_mem w))) →
  wp (WSARecv K fuel (c_socket k) (Some (recv_overlap k)) true) (cw w C h k) (λ x s, ∃ w' h',
    s = cw w' C h' k ∧ recv_rep h' k pre cur post data ∧ asks w' k cur post ∧
    next_read w' h' k cur post S sk xs (wire (m_client (w_mem w))) x ∧
    log (m_client (w_mem w')) = log (m_client (w_mem w))).
Proof.
  intros Hv Hpost Hl Ha Hch. destruct (wire (m_client (w_mem w))) as [|bs chunks] eqn:Hw.
  - eapply wp_mono; [by eapply (WSARecv_blocks K fuel log wire)|].
    intros x s (w' & -> & -> & Hwt & Ha' & Hm). exists w', h. rw /next_read Hm. by split_and!.
  - apply Forall_cons in Hch as [[_ Hbs] _].
    eapply wp_mono; [by eapply (WSARecv_chunk K fuel log wire)|].
    intros x s (w' & h' & -> & -> & Hv' & Hst & Hl' & Ha' & Hw' & Hlog). exists w', h'. by split_and!.
Qed.

(** One round of the inner loop of [RecvFinish]. *)
Lemma round_ok w C h k f pre cur post data bs e s S sk xs : holds C k data w h pre cur post s →
  staged h k cur post bs → listening w k S sk xs → c_raw k = false → _process_packet k = Some f →
  0 < length bs → readable_stream (unpack_pos k) (data ++ bs) →
  Forall (λ bs, 0 < length bs ∧ (Z.of_nat (length bs) ≤ BUFFER_SIZE)%Z) (wire (m_client (w_mem w))) →
  wp (recv_body K fuel process (Some C) (Z.of_nat (length bs), e)) s (λ r s', ∃ x w' h' k' pre' cur' post',
    let rest := (parse (data ++ bs)).2 in
    r = inl x ∧ holds C k' rest w' h' pre' cur' post' s' ∧ same_conn k k' ∧ asks w' k' cur' post' ∧
    next_read w' h' k' cur' post' S sk xs (wire (m_client (w_mem w))) x ∧
    unpack_pos k' = ((unpack_pos k + Z.of_nat (length (data ++ bs) - length rest)) mod BUFFER_SIZE)%Z ∧
    log (m_client (w_mem w')) = log (m_client (w_mem w)) ++ (parse (data ++ bs)).1).
Proof.
  intros Hs Hst Hl Hraw Hf Hlen (Hby & Hlim & Hh) Hch. rw /recv_body (proj2 (Z.ltb_lt _ _)); [lia|].
  apply wp_take_in. eapply wp_mono.
  { exact (take_in_ok process log quiet Hprocess w C h k f pre cur post data bs s Hs Hst Hraw Hf Hlim Hby Hh). }
  intros [] s1 (w1 & h1 & k1 & pre1 & cur1 & post1 & (-> & Hv1 & Hus1) & Hsc & Hq & Hup & Hlog). do 2 cn_step.
  eapply arm_ok; [exact Hv1|eapply listening_quiet; [exact Hq|exact Hsc|exact Hl]|].
  intros w2 h2 post2 Hv2 Hpost2 Hl2 Ha2 Hm2. rw -(proj2 (proj2 Hq)) -Hm2 in Hch *.
  wp_step. eapply wp_mono; [eapply read_ok; [exact Hv2|exact Hpost2|exact Hl2|exact Ha2|exact Hch]|].
  intros x s3 (w3 & h3 & -> & Hv3 & Ha3 & Hn3 & Hlog3). wp_step.
  exists x, w3, h3, k1, pre1, cur1, post2. cbv zeta. rw -Hlog -Hm2 Hlog3. split_and!; try done.
Qed.

(** The stream splits where the parser has got to. *)
Lemma readable_split pos (xs ys : list Z) : (0 ≤ pos < BUFFER_SIZE)%Z → readable_stream pos (xs ++ ys) →
  let r := (parse xs).2 in
  readable_stream pos xs ∧
  readable_stream ((pos + Z.of_nat (length xs - length r)) mod BUFFER_SIZE) (r ++ ys).
Proof.
  intros Hpos (Hby & Hlen & Hh) r. apply Forall_app in Hby as [Hx Hy].
  destruct (headers_ok_app xs ys pos Hpos Hx Hh) as [Hh1 Hh2]. rw length_app in Hlen.
  pose proof (parse_rest_le xs). split; split_and!; try done; [lia| |].
  - apply Forall_app. split; [|done]. destruct (parse_suffix xs) as [pre Hpre]. rw Hpre in Hx. by apply Forall_app in Hx as [_ ?].
  - rw length_app. unfold r. lia.
Qed.

(** The stages of the inner loop: [bs] is to be taken in next, or the request
    waits and all the stream has been taken in. *)
Definition stage (w0 : world (cmem A)) C k0 S sk xs (all : list Z) (n : nat) (x : Z * Z) (s : world (cmem A)) : Prop :=
  ∃ w h k pre cur post data ps, holds C k data w h pre cur post s ∧ same_conn k0 k ∧
    log (m_client (w_mem w)) = log (m_client (w_mem w0)) ++ ps ∧
    ((n = 0 ∧ x = ((-1)%Z, EAGAIN) ∧ waits w k S xs ∧ asks w k cur post ∧
      wire (m_client (w_mem w)) = [] ∧ parse all = (ps, data)) ∨
     ∃ bs e, let left := data ++ bs ++ concat (wire (m_client (w_mem w))) in
       n = Datatypes.S (length (wire (m_client (w_mem w)))) ∧ x = (Z.of_nat (length bs), e) ∧
       staged h k cur post bs ∧ listening w k S sk xs ∧ 0 < length bs ∧
       Forall (λ bs, 0 < length bs ∧ (Z.of_nat (length bs) ≤ BUFFER_SIZE)%Z) (wire (m_client (w_mem w))) ∧
       readable_stream (unpack_pos k) left ∧ parse all = (ps ++ (parse left).1, (parse left).2)).

Lemma stage_step w0 C k0 f S sk xs all n x s : c_raw k0 = false → _process_packet k0 = Some f →
  stage w0 C k0 S sk xs all (Datatypes.S n) x s →
  wp (recv_body K fuel process (Some C) x) s (λ r s', ∃ x', r = inl x' ∧ stage w0 C k0 S sk xs all n x' s').
Proof.
  intros Hraw Hf (w & h & k & pre & cur & post & data & ps & Hs & Hsc & Hlog & [(? & _)|Hst]); [done|].
  destruct Hst as (bs & e & [= Hn] & -> & Hst & Hl & Hlen & Hch & Hrd & Hall).
  destruct (same_conn_fields _ _ Hsc) as (_ & _ & _ & Hpr & Hr).
  pose proof (rview_pos_ok _ _ _ _ _ _ _ _ _ (proj1 (proj2 Hs))) as Hpos.
  rw app_assoc in Hrd Hall. destruct (readable_split _ _ _ Hpos Hrd) as [Hrd1 Hrd2].
  eapply wp_mono; [eapply (round_ok w C h k f pre cur post data bs e s S sk xs); try done; congruence|].
  intros r s' (x' & w' & h' & k' & pre' & cur' & post' & -> & Hs' & Hsc' & Ha & Hnext & Hup & Hlog').
  exists x'. split; [done|]. exists w', h', k', pre', cur', post', (parse (data ++ bs)).2, (ps ++ (parse (data ++ bs)).1).
  split; [done|]. split; [by etrans|]. split; [by rw Hlog' Hlog app_assoc|].
  rw parse_app in Hall. cbn [fst snd] in Hall. rw app_assoc in Hall. rw -Hup in Hrd2.
  destruct (wire (m_client (w_mem w))) as [|bs' chunks]; simpl in Hnext.
  - left. destruct Hnext as (-> & Hw & Hnil). simpl in Hall. rw app_nil_r parse_rest /= app_nil_r in Hall.
    by split_and!.
  - right. destruct Hnext as (-> & Hst' & Hl' & Hw'). apply Forall_cons in Hch as [[? ?] Hch].
    exists bs', 0%Z. rw Hw'. simpl in Hrd2, Hall. by split_and!.
Qed.

Lemma stage_loop w0 C k0 f S sk xs all n x s : c_raw k0 = false → _process_packet k0 = Some f →
  stage w0 C k0 S sk xs all n x s → n < fuel →
  wp (loop fuel (recv_body K fuel process (Some C)) x) s (λ x' s', stage w0 C k0 S sk xs all 0 x' s').
Proof.
  intros Hraw Hf Hst Hn. apply (wp_loop (stage w0 C k0 S sk xs all) _ _ n); [|done|done].
  clear n x s Hst Hn. intros n x s Hst. destruct n as [|n].
  - pose proof Hst as (w & h & k & pre & cur & post & data & ps & _ & _ & _ & [(_ & -> & _)|Hst']).
    + rw /recv_body. change (0 <? -1)%Z with false. by wp_step.
    + by destruct Hst' as (bs & e & ? & _).
  - eapply wp_mono; [by eapply stage_step|]. intros r s' (x' & -> & Hst'). exists n. split; [lia|done].
Qed.

End finish.

(** ** An instance *)

(** The check of the length fields. *)
Fixpoint headers_okb (fuel : nat) (pos : Z) (bs : list Z) : bool :=
  match fuel with
  | O => true
  | S fuel =>
      let n := Z.to_nat (le (take 4 bs)) in
      (length bs <=? 4)%nat ||
      ((pos + 4 <=? BUFFER_SIZE)%Z && (le (take 4 bs) + 36 <? 2 ^ 32)%Z &&
       ((length bs <? 4 + n)%nat ||
        headers_okb fuel ((pos + 4 + le (take 4 bs)) mod BUFFER_SIZE) (drop (4 + n) bs)))
  end.

Lemma headers_okb_ok fuel pos bs : headers_okb fuel pos bs = true → headers_ok fuel pos bs.
Proof.
  revert pos bs. induction fuel as [|fuel IH]; intros pos bs; [done|].
  cbn [headers_okb headers_ok]. intros Hb Hlen. rw (proj2 (Nat.leb_gt _ _) Hlen) /= in Hb.
  apply andb_true_iff in Hb as [[Hp%Z.leb_le Hl%Z.ltb_lt]%andb_true_iff Hr]. split_and!; [done..|].
  intros Hn. apply IH. apply orb_true_iff in Hr as [Hr%Nat.ltb_lt|Hr]; [lia|done].
Qed.

(** A client that has seen packets, and the chunks that the peer has sent. *)
Definition client : Type := list (list Z) * list (list Z).
Definition seen (bs : list Z) (a : client) : client := (fst a ++ [bs], snd a).

(** A kernel with nothing but a peer. *)
Definition peer_readv (fd : Z) (iovs : list iovec) : M (cmem client) (Z * Z) := λ u,
  match snd (m_client u) with
  | [] => Ok (((-1)%Z, EAGAIN), u)
  | bs :: rest =>
      match scatter iovs bs (m_bufs u) with
      | Ok (_, h) => Ok ((Z.of_nat (length bs), 0%Z),
          CMem h (m_conns u) (m_overlaps u) (m_packets u) (packet_send u) (fst (m_client u), rest))
      | Fault e => Fault e
      end
  end.
Definition peer_kernel : kernel (cmem client) :=
  Kernel _ (λ _ _ _, mret (-1)%Z) (λ _, mret 0%Z) (λ _ _, mret (-1)%Z) (λ _ _, mret (-1)%Z) (λ _ _, mret (-1)%Z)
    (λ _, mret (-1, EAGAIN)%Z) (λ _, mret 0%Z) (λ _, mret 0%Z) (λ _ _, mret 0%Z)
    (λ _, mret (0%Z, SockAddr 0 0 0)) (λ _, mret (0%Z, SockAddr 0 0 0)) (λ _, mret (-1, 0)%Z)
    (λ _ _ _ _ _, mret (-1, 0)%Z) (λ _ _ _, mret (0, 0, [])%Z) peer_readv (λ _ _, mret (-1, EAGAIN)%Z)
    (mret (0, 0)%Z) (λ _, None) (λ _ _, None).

Lemma peer_reads : reads_wire peer_kernel fst snd.
Proof.
  intros fd iovs u. destruct (snd (m_client u)) as [|bs rest] eqn:Hw.
  - by rw /= /peer_readv Hw.
  - intros h' _ Hs. exists (fst (m_client u), rest). by rw /= /peer_readv Hw Hs.
Qed.

(** The first chunk is in the buffer; two more follow.  A packet of two bytes is
    cut in the middle, and there is a packet without a payload at the end. *)
Definition chunk1 : list Z := [2; 0; 0; 0; 10]%Z.
Definition chunks : list (list Z) := [[11; 1; 0; 0; 0]; [42; 0; 0; 0; 0]]%Z.
Definition conn1 : connection :=
  Connection 0 2 1 8 7 0 0 0 (Some 1%positive) (Some 1%positive) create_link_list (Some 0) None false false 0.
Definition bufs1 : bufs :=
  {[1%positive := Buffer (Refbase 2 false) BUFFER_SIZE 0 NULL (chunk1 ++ replicate (B - length chunk1) 0%Z)]}.
Definition sock1 : socket :=
  Socket 1 (Some 3%positive) 0 1 1 9 0 create_link_list create_link_list (Some 0) (Some 1).
Definition world1 : world (cmem client) :=
  World {[5%positive := sock1]} ∅ {[7%positive := NULL]} {[7%positive := StIo (Some 1%positive) 1 0]}
    {[1%positive := [Iovec (Some 1%positive, 0%Z) 65536; Iovec (NULL, 0%Z) 0]]} [5%positive] [] 0
    (CMem bufs1 ∅ {[7%positive := Overlap 1 (Some 4%positive)]} ∅ 0 ([], chunks)).

Lemma bufs1_rep : recv_rep bufs1 conn1 [] 1%positive [] [].
Proof.
  pose proof BUFFER_SIZE_pos as HB. pose proof B_Z as HBZ. 
  set (b := Buffer (Refbase 2 false) BUFFER_SIZE 0 NULL (chunk1 ++ replicate (B - length chunk1) 0%Z)).
  assert (Hb : bufs1 !! 1%positive = Some b) by apply lookup_singleton_eq.
  split.
  - split; [reflexivity|]. exists b. split; [exact Hb|reflexivity].
  - apply NoDup_singleton.
  - reflexivity.
  - reflexivity.
  - intros l ->%list_elem_of_singleton. exists b. split; [exact Hb|]. split.
    + split; [|reflexivity]. split; cbn [b_size capacity b]; [lia|]. split; [lia|].
      cbn [buf b]. rw length_app length_replicate BUFFER_SIZE_value. rw BUFFER_SIZE_value in HBZ.
      change (length chunk1) with 5. lia.
    + change (rc b) with 2%Z. rw /own /at_most /own /LIMIT. repeat case_decide; lia.
  - intros l Hl%not_elem_of_nil. destruct Hl.
  - split; [exists b; split; [exact Hb|reflexivity]|]. cbn [next_recv_pos conn1]. lia.
  - intros l Hl%not_elem_of_nil. destruct Hl.
  - split; cbn [unpack_pos next_recv_pos conn1]; lia.
  - rw /content. cbn [app fmap list_fmap]. rw Hb. reflexivity.
Qed.

Definition state1 : world (cmem client) := cw world1 4%positive bufs1 conn1.
Definition stream1 : list Z := chunk1 ++ concat chunks.

Lemma state1_listening : listening world1 conn1 5%positive sock1 [].
Proof.
  split; try done.
  - by eexists.
  - by apply not_elem_of_nil.
Qed.

Lemma state1_staged : staged bufs1 conn1 1%positive [] chunk1.
Proof.
  eexists. split; [apply lookup_singleton_eq|]. cbn [buf next_recv_pos conn1]. 
  change (Z.to_nat 0) with 0. rw drop_0 -app_assoc take_app_length. reflexivity.
Qed.

Lemma stream1_readable : readable_stream 0 stream1.
Proof.
  split; [|split; [done|]].
  - rw /bytes. apply (bool_decide_unpack _). by vm_compute.
  - apply headers_okb_ok. rw /headers_okb. by vm_compute.
Qed.


(** ** Frames *)

(** A packet on the wire: its length and its payload, as [wpacket_create] and
    [wpacket_write] lay them out. *)
Definition frame (p : list Z) : list Z := le_bytes 4 (Z.of_nat (length p)) ++ p.

Lemma parse_frames ps tail : Forall (λ p, 0 < length p ∧ (Z.of_nat (length p) < 2 ^ 32)%Z) ps →
  parse (concat (frame <$> ps) ++ tail) = (ps ++ (parse tail).1, (parse tail).2).
Proof.
  induction 1 as [|p ps [Hp Hlen] _ IH]; [simpl; by destruct (parse tail)|].
  cbn [fmap list_fmap concat]. fold (fmap (M := list) frame). rw -app_assoc. set (r := concat _ ++ tail) in *.
  assert (Ht : take 4 (frame p ++ r) = le_bytes 4 (Z.of_nat (length p))).
  { rw /frame -app_assoc take_app_length' //. }
  assert (Hn : Z.to_nat (le (take 4 (frame p ++ r))) = length p) by (rw Ht le_le_bytes; lia).
  assert (Hf : length (frame p) = 4 + length p) by by rw /frame length_app length_le_bytes.
  rw (parse_frame (frame p ++ r)).
  { rw Hn length_app Hf. apply orb_false_intro; [apply Nat.leb_gt|apply Nat.ltb_ge]; lia. }
  rw Hn (_ : drop (4 + length p) (frame p ++ r) = r); [apply drop_app_length'; lia|].
  rw /frame -app_assoc drop_app_length'; [by rw length_le_bytes|]. by rw take_app_length IH.
Qed.

Section frames.
Context {A : Type} (process : nat → ptr → rpacket → M (world (cmem A)) ()).
Context (log : A → list (list Z)) (keeps : relation (world (cmem A))) `{!PreOrder keeps}.
Context (Hprocess : good_process process log keeps).

End frames.

(** Two packets in a buffer. *)
Definition packets2 : list (list Z) := [[7; 8; 9]; [5]]%Z.
Definition bufs2 : bufs :=
  {[1%positive := Buffer (Refbase 2 false) BUFFER_SIZE 12 NULL
      (concat (frame <$> packets2) ++ replicate (B - 12) 0%Z)]}.
Definition conn2 : connection := set_next_recv_pos 12 (set_unpack_size 12 conn1).

Lemma bufs2_rep : recv_rep bufs2 conn2 [] 1%positive [] (concat (frame <$> packets2)).
Proof.
  pose proof bufs1_rep as H1. assert (HB := BUFFER_SIZE_value).
  set (b := Buffer (Refbase 2 false) BUFFER_SIZE 12 NULL (concat (frame <$> packets2) ++ replicate (B - 12) 0%Z)).
  assert (Hb : bufs2 !! 1%positive = Some b) by apply lookup_singleton_eq.
  assert (Hlen : length (concat (frame <$> packets2)) = 12) by by vm_compute.
  split.
  - split; [reflexivity|]. exists b. split; [exact Hb|reflexivity].
  - apply NoDup_singleton.
  - reflexivity.
  - reflexivity.
  - intros l ->%list_elem_of_singleton. exists b. split; [exact Hb|]. split.
    + split; [|reflexivity]. split; cbn [b_size capacity b]; [lia|]. split; [lia|].
      cbn [buf b]. pose proof B_Z. rw length_app length_replicate Hlen HB. lia.
    + change (rc b) with 2%Z. rw /own /at_most /own /LIMIT. repeat case_decide; lia.
  - intros l Hl%not_elem_of_nil. destruct Hl.
  - split; [exists b; split; [exact Hb|reflexivity]|]. cbn [next_recv_pos conn2 set_next_recv_pos]. lia.
  - intros l Hl%not_elem_of_nil. destruct Hl.
  - split; cbn [unpack_pos next_recv_pos conn2 conn1 set_next_recv_pos set_unpack_size]; lia.
  - rw /content. cbn [app fmap list_fmap]. rw Hb. cbn [from_option concat]. rw app_nil_r.
    change (Z.to_nat (unpack_pos conn2)) with 0. rw drop_0 /bdata. cbn [b_size buf b].
    rw (_ : Z.to_nat 12 = length (concat (frame <$> packets2))); [by rw Hlen|]. rw take_app_length. reflexivity.
Qed.

