(* ===== verification/Threads.v ===== *)
(** * Threads

    The files [Sync], [SpinLock] and [BlockQueue] model code that several
    threads run at once.  A thread has a local state [L], which says where in
    the code it is; [exec t l s] lists what its next atomic action may do to it
    and to the shared state, and is empty when the thread is blocked or has
    ended.  The memory is sequentially consistent. *)
From S2P Require Import Prelude.

Section threads.
Context {S L : Type} (exec : loc → L → S → list (L * S)).
Implicit Types (T : gmap loc L) (s : S).

Definition system : Type := S * gmap loc L.

(** Any thread may take the next step. *)
Inductive step : relation system :=
  | step_thread t l s l' s' T :
      T !! t = Some l → (l', s') ∈ exec t l s → step (s, T) (s', <[t := l']> T).

(** A schedule names the thread of every step, and which of its actions it is. *)
Definition sched_step (x : loc * nat) (c : system) : option system :=
  match snd c !! fst x with
  | Some l =>
      match exec (fst x) l (fst c) !! snd x with
      | Some (l', s') => Some (s', <[fst x := l']> (snd c))
      | None => None
      end
  | None => None
  end.
Fixpoint schedule (xs : list (loc * nat)) (c : system) : option system :=
  match xs with
  | [] => Some c
  | x :: xs => match sched_step x c with Some c' => schedule xs c' | None => None end
  end.

Lemma schedule_steps xs c c' : schedule xs c = Some c' → rtc step c c'.
Proof.
  revert c. induction xs as [|[t i] xs IH]; intros [s T]; simpl; [by intros [= ->]|].
  rw /sched_step /=. destruct (T !! t) as [l|] eqn:Ht; [|done].
  destruct (exec t l s !! i) as [[l' s']|] eqn:Hi; [|done]. intros H. eapply rtc_l; [|by apply IH].
  econstructor; [done|]. by eapply list_elem_of_lookup_2.
Qed.

(** An invariant is shown for the step of one thread. *)
Lemma invariant_rtc (I : S → gmap loc L → Prop) :
  (∀ t l s l' s' T, I s T → T !! t = Some l → (l', s') ∈ exec t l s → I s' (<[t := l']> T)) →
  ∀ s T s' T', I s T → rtc step (s, T) (s', T') → I s' T'.
Proof.
  intros Hstep. enough (H : ∀ c c', rtc step c c' → I (fst c) (snd c) → I (fst c') (snd c')).
  { intros s T s' T' HI Hr. by apply (H _ _ Hr). }
  induction 1 as [c|c1 c2 c3 H12 _ IH]; [done|]. intros HI. apply IH. destruct H12. by eapply Hstep.
Qed.

(** A property of every thread that the others keep. *)
Lemma insert_forall (P : loc → L → Prop) T t l' :
  P t l' → (∀ t' l, t' ≠ t → T !! t' = Some l → P t' l) →
  ∀ t' l, <[t := l']> T !! t' = Some l → P t' l.
Proof.
  intros Hl HT t' l. rw lookup_insert. case_decide; [intros [= <-]; by subst|by apply HT].
Qed.

(** The threads with a property, counted. *)
Definition count (P : L → bool) T : nat := size (filter (λ x, P (snd x) = true) T).

Lemma count_fresh P T t l : T !! t = None →
  count P (<[t := l]> T) = count P T + (if P l then 1 else 0).
Proof.
  intros Ht. rw /count. destruct (P l) eqn:Hl.
  - rw map_filter_insert_True // map_size_insert_None; [|lia].
    apply map_lookup_filter_None. by left.
  - rw map_filter_insert_False; [by rw /= Hl|]. rw delete_id; [done|lia].
Qed.

Lemma count_insert P T t l l' : T !! t = Some l →
  count P (<[t := l']> T) + (if P l then 1 else 0) = count P T + (if P l' then 1 else 0).
Proof.
  intros Ht. pose proof (lookup_delete_eq T t) as Hd.
  pose proof (count_fresh P (delete t T) t l Hd) as H1. pose proof (count_fresh P (delete t T) t l' Hd) as H2.
  rw !insert_delete_eq in H1 H2. rw insert_id // in H1. lia.
Qed.

Lemma count_pos P T t l : T !! t = Some l → P l = true → 0 < count P T.
Proof.
  intros Ht Hl. pose proof (count_fresh P (delete t T) t l (lookup_delete_eq T t)) as H.
  rw insert_delete_eq insert_id // Hl in H. lia.
Qed.

Lemma count_zero P T t l : count P T = 0 → T !! t = Some l → P l = false.
Proof. intros H0 Ht. destruct (P l) eqn:Hl; [|done]. pose proof (count_pos P T t l Ht Hl). lia. Qed.

Lemma count_some P T : 0 < count P T → ∃ t l, T !! t = Some l ∧ P l = true.
Proof.
  rw /count. intros Hn. destruct (map_choose (filter (λ x, P (snd x) = true) T)) as (t & l & Hl).
  { intros He. rw He map_size_empty in Hn. lia. }
  apply map_lookup_filter_Some in Hl as [? ?]. by exists t, l.
Qed.
End threads.
