(* ===== verification/Sync.v ===== *)
(** * Mutexes, condition variables and the barrier ([src/src/sync.c])

    The mutex and the condition variable are those of POSIX threads; what the
    code relies on is modelled as atomic operations.  The barrier is built from
    them, and is modelled action by action. *)
From S2P Require Import Prelude Threads.

(** ** Mutexes *)

(** A recursive mutex ([PTHREAD_MUTEX_RECURSIVE_NP]): its owner and how often
    it has been locked. *)
Record mutex := Mutex { m_owner : ptr; m_count : Z }.

Definition mutex_create : mutex := Mutex NULL 0.

(** [None]: the thread is blocked. *)
Definition mutex_lock (t : loc) (m : mutex) : option mutex :=
  match m_owner m with
  | None => Some (Mutex (Some t) 1)
  | Some o => if decide (o = t) then Some (Mutex (Some t) (m_count m + 1)) else None
  end.

(** The result is that of [pthread_mutex_trylock]; 16 is [EBUSY]. *)
Definition mutex_try_lock (t : loc) (m : mutex) : Z * mutex :=
  match mutex_lock t m with Some m => (0%Z, m) | None => (16%Z, m) end.

(** A thread that is not the owner gets an error, which the callers ignore. *)
Definition mutex_unlock (t : loc) (m : mutex) : mutex :=
  if decide (m_owner m = Some t)
  then if (m_count m =? 1)%Z then Mutex NULL 0 else Mutex (Some t) (m_count m - 1)
  else m.

(** ** Condition variables *)

(** The threads that wait and have not been woken. *)
Definition condition : Type := gset loc.
Definition condition_create : condition := ∅.

(** [pthread_cond_wait] gives the mutex back and waits in one action. *)
Definition condition_wait (t : loc) (c : condition) (m : mutex) : condition * mutex :=
  ({[t]} ∪ c, mutex_unlock t m).

(** Any one of the waiting threads is woken, if there is one. *)
Definition condition_signal (c : condition) : list condition :=
  if decide (c = ∅) then [∅] else (λ t, c ∖ {[t]}) <$> elements c.
Definition condition_broadcast (c : condition) : condition := ∅.

(** The deadline, in seconds and nanoseconds, that [condition_timedwait] hands
    to [pthread_cond_timedwait]. *)
Definition condition_timedwait (sec usec ms : Z) : Z * Z := ((sec + 5)%Z, (usec * 1000)%Z).

(** ** Mutual exclusion *)

(** The threads that are [inside] hold the mutex: there is at most one. *)
Definition guarded {L} (inside : L → bool) (m : mutex) (T : gmap loc L) : Prop :=
  (m = mutex_create ∧ ∀ t l, T !! t = Some l → inside l = false) ∨
  (∃ t l, m = Mutex (Some t) 1 ∧ T !! t = Some l ∧ inside l = true ∧
     ∀ t' l', T !! t' = Some l' → inside l' = true → t' = t).

Section guarded.
Context {L : Type} (inside : L → bool).
Implicit Types (T : gmap loc L) (m : mutex).

Lemma guarded_stay m T t l l' : guarded inside m T → T !! t = Some l → inside l' = inside l →
  guarded inside m (<[t := l']> T).
Proof.
  intros [(-> & H)|(t0 & l0 & -> & Ht0 & Hl0 & H)] Ht Hl; [left|right].
  - split; [done|]. apply insert_forall; [rw Hl; by apply (H t)|]. intros; by eapply H.
  - exists t0. destruct (decide (t0 = t)) as [->|Hne].
    + exists l'. rw lookup_insert_eq. assert (l0 = l) as -> by congruence. split_and!; try done; [by rw Hl|].
      intros t' l1. rw lookup_insert. case_decide; [done|]. apply H.
    + exists l0. rw lookup_insert_ne //. split_and!; try done.
      intros t' l1. rw lookup_insert. case_decide; [|apply H]. intros [= <-] Hi. subst t'. rw Hl in Hi. by apply (H t l).
Qed.

Lemma guarded_lock m m' T t l l' : guarded inside m T → T !! t = Some l → inside l = false → inside l' = true →
  mutex_lock t m = Some m' → guarded inside m' (<[t := l']> T).
Proof.
  intros [(-> & H)|(t0 & l0 & -> & Ht0 & Hl0 & H)] Ht Hl Hl' Hm.
  - injection Hm as <-. right. exists t, l'. rw lookup_insert_eq. split_and!; try done.
    intros t' l1. rw lookup_insert. case_decide; [done|]. intros H1 H2. by rw (H _ _ H1) in H2.
  - rw /mutex_lock /= in Hm. case_decide; [|done]. subst t0. congruence.
Qed.

Lemma guarded_owner m T t l : guarded inside m T → T !! t = Some l → inside l = true → m = Mutex (Some t) 1.
Proof.
  intros [(-> & H)|(t0 & l0 & -> & Ht0 & Hl0 & H)] Ht Hl.
  - by rw (H _ _ Ht) in Hl.
  - by rw (H _ _ Ht Hl).
Qed.

Lemma guarded_unlock m T t l l' : guarded inside m T → T !! t = Some l → inside l = true → inside l' = false →
  guarded inside (mutex_unlock t m) (<[t := l']> T).
Proof.
  intros Hg Ht Hl Hl'. pose proof (guarded_owner _ _ _ _ Hg Ht Hl) as ->.
  destruct Hg as [(? & _)|(t0 & l0 & [= <-] & _ & _ & H)]; [done|]. left.
  rw /mutex_unlock decide_True //. split; [done|]. apply insert_forall; [done|].
  intros t' l1 Hne H1. destruct (inside l1) eqn:Hi; [|done]. by destruct Hne; eapply H.
Qed.

Lemma guarded_one m T t1 l1 t2 l2 : guarded inside m T → T !! t1 = Some l1 → T !! t2 = Some l2 →
  inside l1 = true → inside l2 = true → t1 = t2.
Proof.
  intros Hg H1 H2 Hi1 Hi2. pose proof (guarded_owner _ _ _ _ Hg H1 Hi1) as E.
  rw (guarded_owner _ _ _ _ Hg H2 Hi2) in E. by injection E.
Qed.

(** A thread that wants the mutex gets it, or another one is inside. *)
Lemma guarded_free m T t : guarded inside m T →
  (∃ m', mutex_lock t m = Some m') ∨ ∃ t' l', T !! t' = Some l' ∧ inside l' = true.
Proof. intros [(-> & H)|(t0 & l0 & -> & Ht0 & Hl0 & H)]; [left; by eexists|right; by exists t0, l0]. Qed.
End guarded.

Lemma mutex_unlock_owner t : mutex_unlock t (Mutex (Some t) 1) = mutex_create.
Proof. by rw /mutex_unlock decide_True. Qed.

(** ** The barrier *)

Record barrior := Barrior { b_cond : condition; b_mtx : mutex; wait_count : Z }.

Definition barrior_create (waitcount : Z) : barrior := Barrior condition_create mutex_create waitcount.

Definition set_wait_count (n : Z) (b : barrior) : barrior := Barrior (b_cond b) (b_mtx b) n.

(** Where a thread is in [barrior_wait]. *)
Inductive barrior_pc :=
  | BLock        (* mutex_lock *)
  | BDec         (* --wait_count *)
  | BTest        (* 0 == wait_count *)
  | BBroadcast   (* condition_broadcast *)
  | BLoop        (* while(wait_count > 0) *)
  | BWait        (* condition_wait *)
  | BSleep       (* in condition_wait *)
  | BUnlock      (* mutex_unlock *)
  | BDone.       (* returned *)
#[export] Instance barrior_pc_eq_dec : EqDecision barrior_pc.
Proof. solve_decision. Defined.

Section spurious_wakeups.
(** Whether a thread may be woken without a signal. *)
Context (spurious : bool).

Definition barrior_wait (t : loc) (p : barrior_pc) (b : barrior) : list (barrior_pc * barrior) :=
  match p with
  | BLock =>
      match mutex_lock t (b_mtx b) with
      | Some m => [(BDec, Barrior (b_cond b) m (wait_count b))]
      | None => []
      end
  | BDec => [(BTest, set_wait_count (i32 (wait_count b - 1)) b)]
  | BTest => [((if (0 =? wait_count b)%Z then BBroadcast else BLoop), b)]
  | BBroadcast => [(BUnlock, Barrior (condition_broadcast (b_cond b)) (b_mtx b) (wait_count b))]
  | BLoop => [((if (0 <? wait_count b)%Z then BWait else BUnlock), b)]
  | BWait =>
      let '(c, m) := condition_wait t (b_cond b) (b_mtx b) in
      [(BSleep, Barrior c m (wait_count b))]
  | BSleep =>
      if decide (t ∈ b_cond b) then
        if spurious then [(BSleep, Barrior (b_cond b ∖ {[t]}) (b_mtx b) (wait_count b))] else []
      else
        match mutex_lock t (b_mtx b) with
        | Some m => [(BLoop, Barrior (b_cond b) m (wait_count b))]
        | None => []
        end
  | BUnlock => [(BDone, Barrior (b_cond b) (mutex_unlock t (b_mtx b)) (wait_count b))]
  | BDone => []
  end.
End spurious_wakeups.

(** *** What the barrier promises *)

Definition b_inside (p : barrior_pc) : bool :=
  match p with BLock | BSleep | BDone => false | _ => true end.
(** The threads that have not been counted yet, and those that are let go. *)
Definition late (p : barrior_pc) : bool := match p with BLock | BDec => true | _ => false end.
Definition passed (p : barrior_pc) : bool := match p with BBroadcast | BUnlock | BDone => true | _ => false end.

Record barrior_inv (b : barrior) (T : gmap loc barrior_pc) : Prop := {
  bi_mtx : guarded b_inside (b_mtx b) T;
  bi_count : wait_count b = Z.of_nat (count late T);
  bi_room : (Z.of_nat (count late T) < 2 ^ 31)%Z;
  bi_passed : ∀ t p, T !! t = Some p → passed p = true → count late T = 0;
  bi_wait : ∀ t, T !! t = Some BWait → 0 < count late T;
  bi_cond : ∀ t, t ∈ b_cond b → T !! t = Some BSleep;
  bi_open : count late T = 0 → b_cond b = ∅ ∨ ∃ t, T !! t = Some BTest ∨ T !! t = Some BBroadcast;
}.

Section barrior_proof.
Implicit Types (T : gmap loc barrior_pc) (b : barrior).

(** The step of a thread that is counted already, and that does not touch the
    count. *)
Lemma barrior_inv_step b T t p p' c' m' : barrior_inv b T → T !! t = Some p → late p' = late p →
  guarded b_inside m' (<[t := p']> T) →
  (passed p' = true → count late T = 0) → (p' = BWait → 0 < count late T) →
  (∀ x, x ∈ c' → <[t := p']> T !! x = Some BSleep) →
  (count late T = 0 → c' = ∅ ∨ ∃ x, <[t := p']> T !! x = Some BTest ∨ <[t := p']> T !! x = Some BBroadcast) →
  barrior_inv (Barrior c' m' (wait_count b)) (<[t := p']> T).
Proof.
  intros [A B C D E F G] Ht Hl Hg Hpa Hw Hc Ho. pose proof (count_insert late T t p p' Ht) as Hn.
  rw Hl in Hn. assert (count late (<[t := p']> T) = count late T) as Hn' by (destruct (late p); lia).
  split; rw ?Hn'; try done.
  - apply (insert_forall (λ _ p, passed p = true → count late T = 0)); [done|]. intros t' l _. apply D.
  - intros t'. rw lookup_insert. case_decide; [by intros [= ->]; apply Hw|]. apply E.
Qed.

(** A thread other than [t] is at the place where the waiting threads are about
    to be woken. *)
Lemma open_other b T t p p' : barrior_inv b T → T !! t = Some p → p ≠ BTest → p ≠ BBroadcast →
  count late T = 0 → b_cond b = ∅ ∨ ∃ x, <[t := p']> T !! x = Some BTest ∨ <[t := p']> T !! x = Some BBroadcast.
Proof.
  intros Hi Ht H1 H2 H0. destruct (bi_open _ _ Hi H0) as [?|(x & Hx)]; [by left|right].
  exists x. rw !lookup_insert_ne //; intros ->; destruct Hx; congruence.
Qed.

Lemma cond_other b T t p p' : barrior_inv b T → T !! t = Some p → p ≠ BSleep →
  ∀ x, x ∈ b_cond b → <[t := p']> T !! x = Some BSleep.
Proof.
  intros Hi Ht Hp x Hx. pose proof (bi_cond _ _ Hi x Hx). rw lookup_insert_ne //. congruence.
Qed.

Lemma barrior_preserved spurious t p b p' b' T : barrior_inv b T → T !! t = Some p →
  (p', b') ∈ barrior_wait spurious t p b → barrior_inv b' (<[t := p']> T).
Proof.
  intros Hi Ht Hex. pose proof Hi as [A B C D E F G]. destruct p; simpl in Hex.
  - destruct (mutex_lock t (b_mtx b)) as [m'|] eqn:Hm; [|by apply not_elem_of_nil in Hex].
    apply list_elem_of_singleton in Hex as [= -> ->].
    eapply barrior_inv_step; [done|done|done|by eapply guarded_lock|done|done|by eapply cond_other|by eapply open_other].
  - apply list_elem_of_singleton in Hex as [= -> ->].
    pose proof (count_insert late T t BDec BTest Ht) as Hn. pose proof (count_pos late T t _ Ht eq_refl). simpl in Hn.
    split; simpl.
    + by eapply guarded_stay.
    + rw B i32_small; lia.
    + lia.
    + intros t' l'. rw lookup_insert. case_decide; [by intros [= <-]|]. intros Hl Hp. specialize (D _ _ Hl Hp). lia.
    + intros t'. rw lookup_insert. case_decide; [done|]. intros Hw. exfalso.
      by pose proof (guarded_one _ _ _ _ _ _ _ A Ht Hw eq_refl eq_refl).
    + by eapply cond_other.
    + intros _. right. exists t. left. apply lookup_insert_eq.
  - apply list_elem_of_singleton in Hex as [= -> ->]. rw B. destruct b as [c m n]. simpl in *.
    destruct (Z.eqb_spec 0 (Z.of_nat (count late T))) as [H0|H0].
    + eapply (barrior_inv_step (Barrior c m n)); [done|done|done|by eapply guarded_stay|simpl; lia|done| |].
      * by eapply (cond_other (Barrior c m n)).
      * intros _. right. exists t. right. apply lookup_insert_eq.
    + eapply (barrior_inv_step (Barrior c m n)); [done|done|done|by eapply guarded_stay|done|done| |lia].
      by eapply (cond_other (Barrior c m n)).
  - apply list_elem_of_singleton in Hex as [= -> ->].
    eapply barrior_inv_step; [done|done|done|by eapply guarded_stay|by intros _; eapply D|done| |by left].
    intros x Hx. by apply not_elem_of_empty in Hx.
  - apply list_elem_of_singleton in Hex as [= -> ->]. rw B. destruct b as [c m n]. simpl in *.
    destruct (Z.ltb_spec 0 (Z.of_nat (count late T))) as [H0|H0].
    + eapply (barrior_inv_step (Barrior c m n)); [done|done|done|by eapply guarded_stay|done|simpl; lia| |lia].
      by eapply (cond_other (Barrior c m n)).
    + eapply (barrior_inv_step (Barrior c m n)); [done|done|done|by eapply guarded_stay|simpl; lia|done| |].
      * by eapply (cond_other (Barrior c m n)).
      * by eapply (open_other (Barrior c m n)).
  - apply list_elem_of_singleton in Hex as [= -> ->]. specialize (E _ Ht).
    eapply barrior_inv_step; [done|done|done|by eapply guarded_unlock|done|done| |lia].
    intros x [->%elem_of_singleton|Hx]%elem_of_union; [apply lookup_insert_eq|]. by eapply cond_other.
  - destruct (decide (t ∈ b_cond b)) as [Hin|Hin].
    + destruct spurious; [|by apply not_elem_of_nil in Hex]. apply list_elem_of_singleton in Hex as [= -> ->].
      eapply barrior_inv_step; [done|done|done|by eapply guarded_stay|done|done| |].
      * intros x [Hx Hne]%elem_of_difference. rw lookup_insert_ne; [by intros ->; apply Hne, elem_of_singleton|by apply F].
      * intros H0. destruct (open_other b T t BSleep BSleep Hi Ht) as [He|?]; [done..| |by right].
        left. rw He. set_solver.
    + destruct (mutex_lock t (b_mtx b)) as [m'|] eqn:Hm; [|by apply not_elem_of_nil in Hex].
      apply list_elem_of_singleton in Hex as [= -> ->].
      eapply barrior_inv_step; [done|done|done|by eapply guarded_lock|done|done| |by eapply open_other].
      intros x Hx. rw lookup_insert_ne; [by intros ->|by apply F].
  - apply list_elem_of_singleton in Hex as [= -> ->].
    eapply barrior_inv_step; [done|done|done|by eapply guarded_unlock|by intros _; eapply D|done|by eapply cond_other|by eapply open_other].
  - by apply not_elem_of_nil in Hex.
Qed.

Lemma barrior_inv_init T : (∀ t p, T !! t = Some p → p = BLock) → (Z.of_nat (size T) < 2 ^ 31)%Z →
  barrior_inv (barrior_create (Z.of_nat (size T))) T.
Proof.
  intros HT Hsz.
  assert (Hc : count late T = size T).
  { rw /count. f_equal. apply map_filter_id. intros t p Hp. by rw /= (HT _ _ Hp). }
  split; rw ?Hc; simpl.
  - left. split; [done|]. intros t p Hp. by rw (HT _ _ Hp).
  - done.
  - done.
  - intros t p Hp. by rw (HT _ _ Hp).
  - intros t Hp. by apply HT in Hp.
  - intros t Ht. by apply not_elem_of_empty in Ht.
  - by left.
Qed.

(** In a state with the invariant a thread can go on unless all have returned. *)
Lemma barrior_progress b T : barrior_inv b T →
  (∀ t p, T !! t = Some p → p = BDone) ∨ ∃ t p x, T !! t = Some p ∧ x ∈ barrior_wait false t p b.
Proof.
  intros [A B C D E F G].
  assert (Hin : ∀ t p, T !! t = Some p → b_inside p = true → ∃ x, x ∈ barrior_wait false t p b).
  { intros t p _ Hp. destruct p; try done; simpl; eexists; left. }
  destruct A as [(Hm & Hout)|(t & p & _ & Ht & Hp & _)].
  2:{ right. destruct (Hin t p Ht Hp) as [x Hx]. by exists t, p, x. }
  assert (Hlock : ∀ t, mutex_lock t (b_mtx b) = Some (Mutex (Some t) 1)) by (intros t; by rw Hm).
  destruct (decide (0 < count late T)) as [Hpos|Hzero].
  - right. destruct (count_some _ _ Hpos) as (t & p & Ht & Hp). specialize (Hout _ _ Ht).
    exists t, p. destruct p; try done. simpl. rw Hlock. eexists. split; [done|left].
  - assert (Hcond : b_cond b = ∅).
    { destruct G as [?|(t & [Ht|Ht])]; [lia|done|..]; by apply Hout in Ht. }
    destruct (decide (map_Forall (λ _ p, p = BDone) T)) as [Hall|Hno]; [left; intros t p; apply Hall|].
    right. apply map_not_Forall in Hno as (t & p & Ht & Hp); [|apply _].
    exists t, p. specialize (Hout _ _ Ht). destruct p; try done; simpl.
    + rw Hlock. eexists. split; [done|left].
    + destruct (decide (t ∈ b_cond b)) as [Hx|_]; [by rw Hcond in Hx; apply not_elem_of_empty in Hx|].
      rw Hlock. eexists. split; [done|left].
Qed.
End barrior_proof.

(** C27: the barrier holds the threads back until all are there, and then lets
    all of them go.  When as many threads call [barrior_wait] as the barrier was
    made for, under every schedule and with spurious wake-ups: when one thread
    has returned all have arrived; and as long as one has not returned some
    thread can go on without a spurious wake-up, so no wake-up is lost. *)
Theorem barrior_holds_and_opens spurious (T0 T : gmap loc barrior_pc) b :
  (∀ t p, T0 !! t = Some p → p = BLock) → (Z.of_nat (size T0) < 2 ^ 31)%Z →
  rtc (step (barrior_wait spurious)) (barrior_create (Z.of_nat (size T0)), T0) (b, T) →
  (∀ t, T !! t = Some BDone → ∀ t' p', T !! t' = Some p' → late p' = false) ∧
  ((∀ t p, T !! t = Some p → p = BDone) ∨ ∃ t p x, T !! t = Some p ∧ x ∈ barrior_wait false t p b).
Proof.
  intros HT Hsz Hsteps. assert (Hi : barrior_inv b T).
  { eapply (invariant_rtc _ barrior_inv); [|by apply barrior_inv_init|exact Hsteps].
    intros t l s l' s' T1 HI Hl Hx. by eapply barrior_preserved. }
  split; [|by apply barrior_progress].
  intros t Ht t' p' Hp'. eapply (count_zero _ T); [exact (bi_passed _ _ Hi t BDone Ht eq_refl)|exact Hp'].
Qed.

(** Two threads, of which the first one waits. *)
Definition two_threads : gmap loc barrior_pc := {[1%positive := BLock; 2%positive := BLock]}.
Definition one_waits : list (loc * nat) := replicate 5 (1%positive, 0).

Lemma barrior_holds_and_opens_witness : ∃ b T,
  schedule (barrior_wait true) one_waits (barrior_create 2, two_threads) = Some (b, T) ∧
  T !! 1%positive = Some BSleep ∧
  ((∀ t p, T !! t = Some p → p = BDone) ∨ ∃ t p x, T !! t = Some p ∧ x ∈ barrior_wait false t p b).
Proof.
  assert (∃ b T, schedule (barrior_wait true) one_waits (barrior_create 2, two_threads) = Some (b, T) ∧
    T !! 1%positive = Some BSleep) as (b & T & Hs & Hsleep).
  { eexists _, _. split; by vm_compute. }
  exists b, T. split; [exact Hs|]. split; [exact Hsleep|].
  apply (barrior_holds_and_opens true two_threads T b).
  - intros t p. rw /two_threads lookup_insert. case_decide; [by intros [= <-]|].
    rw lookup_singleton. case_decide; [by intros [= <-]|done].
  - by vm_compute.
  - eapply schedule_steps. exact Hs.
Defined.

(** The barrier works once: when all have been let go, the next thread that
    waits does not wait. *)
Lemma barrior_not_reusable :
  (λ c, (wait_count (fst c), snd c !! 3%positive)) <$>
    schedule (barrior_wait false) (replicate 5 (1%positive, 0) ++ replicate 5 (3%positive, 0))
      (barrior_create 1, {[1%positive := BLock; 3%positive := BLock]}) = Some ((-1)%Z, Some BDone).
Proof. by vm_compute. Qed.
