(* ===== verification/SpinLock.v ===== *)
(** * The spin lock ([src/src/spinlock.c])

    A recursive lock that spins on its [owner] field, and that falls back to a
    mutex when it has spun [count] times.  Every access to a shared field is an
    atomic action of its own; the pauses between two tries have no effect.  Each
    thread runs a program of calls. *)
From S2P Require Import Prelude Threads Sync.

(** ** The code *)

Record spinlock := Spinlock {
  owner : ptr;
  lock_count : Z;
  sp_mtx : mutex;
  lock_by_mtx : Z;
}.

Definition spin_create : spinlock := Spinlock NULL 0 mutex_create 0.

Definition set_owner (o : ptr) (l : spinlock) : spinlock :=
  Spinlock o (lock_count l) (sp_mtx l) (lock_by_mtx l).
Definition set_count (n : Z) (l : spinlock) : spinlock :=
  Spinlock (owner l) n (sp_mtx l) (lock_by_mtx l).
Definition set_mtx (m : mutex) (l : spinlock) : spinlock :=
  Spinlock (owner l) (lock_count l) m (lock_by_mtx l).
Definition set_by_mtx (v : Z) (l : spinlock) : spinlock :=
  Spinlock (owner l) (lock_count l) (sp_mtx l) v.

(** [COMPARE_AND_SWAP(&l->owner, 0, tid) == 0] *)
Definition cas_owner (t : loc) (l : spinlock) : bool * spinlock :=
  if decide (owner l = NULL) then (true, set_owner (Some t) l) else (false, l).

Inductive call := SpinLock (count : Z) | SpinUnlock.

(** Where a thread is; [v] is a value it has read. *)
Inductive spin_pc :=
  | Outside                     (* between two calls *)
  | LEntry (count : Z)          (* tid == l->owner *)
  | LAgain | LAgainSt (v : Z)   (* ++l->lock_count of the owner *)
  | LSpin | LCas                (* the loop for count == 0 *)
  | LCount | LCountSt (v : Z)   (* ++l->lock_count *)
  | LByMtx                      (* l->lock_by_mtx = 0 *)
  | LTry (count : Z)            (* while((count--) > 0) *)
  | LTrySpin (count : Z) | LTryCas (count : Z)
  | LMutex                      (* mutex_lock *)
  | LSetByMtx                   (* l->lock_by_mtx = 1 *)
  | LTryCount | LTryCountSt (v : Z)
  | LReturn
  | UEntry                      (* tid == l->owner *)
  | UCount | UCountSt (v : Z)   (* --l->lock_count *)
  | UTest                       (* l->lock_count == 0 *)
  | UByMtx                      (* l->lock_by_mtx *)
  | UClear                      (* l->lock_by_mtx = 0 *)
  | UMutex                      (* mutex_unlock *)
  | UOwner                      (* l->owner = 0 *)
  | UReturn (r : Z).

(** A thread, the calls it still makes, and how often it holds the lock: that
    goes up when [spin_lock] returns and down when [spin_unlock] is called. *)
Record thread := Thread { pc : spin_pc; prog : list call; depth : Z }.

Definition at_pc (p : spin_pc) (th : thread) : thread := Thread p (prog th) (depth th).

(** The next action of [spin_lock]. *)
Definition spin_lock (t : loc) (p : spin_pc) (l : spinlock) : list (spin_pc * spinlock) :=
  match p with
  | LEntry count =>
      [((if decide (owner l = Some t) then LAgain else if (count =? 0)%Z then LSpin else LTry count), l)]
  | LAgain => [(LAgainSt (lock_count l), l)]
  | LAgainSt v => [(LReturn, set_count (i32 (v + 1)) l)]
  | LSpin => [((if decide (owner l = NULL) then LCas else LSpin), l)]
  | LCas => let '(ok, l) := cas_owner t l in [((if ok : bool then LCount else LSpin), l)]
  | LCount => [(LCountSt (lock_count l), l)]
  | LCountSt v => [(LByMtx, set_count (i32 (v + 1)) l)]
  | LByMtx => [(LReturn, set_by_mtx 0 l)]
  | LTry count => [((if (0 <? count)%Z then LTrySpin (i32 (count - 1)) else LMutex), l)]
  | LTrySpin count => [((if decide (owner l = NULL) then LTryCas count else LTry count), l)]
  | LTryCas count => let '(ok, l) := cas_owner t l in [((if ok : bool then LTryCount else LTry count), l)]
  | LMutex => match mutex_lock t (sp_mtx l) with Some m => [(LSetByMtx, set_mtx m l)] | None => [] end
  | LSetByMtx => [(LTryCount, set_by_mtx 1 l)]
  | LTryCount => [(LTryCountSt (lock_count l), l)]
  | LTryCountSt v => [(LReturn, set_count (i32 (v + 1)) l)]
  | _ => []
  end.

(** The next action of [spin_unlock]. *)
Definition spin_unlock (t : loc) (p : spin_pc) (l : spinlock) : list (spin_pc * spinlock) :=
  match p with
  | UEntry => [((if decide (owner l = Some t) then UCount else UReturn (-1)), l)]
  | UCount => [(UCountSt (lock_count l), l)]
  | UCountSt v => [(UTest, set_count (i32 (v - 1)) l)]
  | UTest => [((if (lock_count l =? 0)%Z then UByMtx else UReturn 0), l)]
  | UByMtx => [((if (lock_by_mtx l =? 0)%Z then UOwner else UClear), l)]
  | UClear => [(UMutex, set_by_mtx 0 l)]
  | UMutex => [(UReturn 0, set_mtx (mutex_unlock t (sp_mtx l)) l)]
  | UOwner => [(UReturn 0, set_owner NULL l)]
  | _ => []
  end.

(** The next action of a thread: it calls, goes on in a call, or returns. *)
Definition spin_exec (t : loc) (th : thread) (l : spinlock) : list (thread * spinlock) :=
  match pc th with
  | Outside =>
      match prog th with
      | [] => []
      | SpinLock count :: r => [(Thread (LEntry count) r (depth th), l)]
      | SpinUnlock :: r => [(Thread UEntry r (depth th - 1), l)]
      end
  | LReturn => [(Thread Outside (prog th) (depth th + 1), l)]
  | UReturn _ => [(at_pc Outside th, l)]
  | p => prod_map (λ p, at_pc p th) id <$> (spin_lock t p l ++ spin_unlock t p l)
  end.

(** ** Mutual exclusion *)

(** A program that only spins, that unlocks what it has locked, and that does
    not nest [2^31] deep. *)
Fixpoint well_nested (d : Z) (prog : list call) : bool :=
  match prog with
  | [] => true
  | SpinLock count :: r => (count =? 0)%Z && (d <? 2 ^ 31 - 1)%Z && well_nested (d + 1) r
  | SpinUnlock :: r => (0 <? d)%Z && well_nested (d - 1) r
  end.

(** The lock count that a thread at [p] relies on, when it holds the lock. *)
Definition needs (p : spin_pc) (d : Z) : option Z :=
  match p with
  | Outside | LEntry _ | UReturn _ => if (0 <? d)%Z then Some d else None
  | LAgain | LAgainSt _ => Some d
  | LCount | LCountSt _ => Some 0%Z
  | LByMtx => Some 1%Z
  | LReturn | UEntry | UCount | UCountSt _ => Some (d + 1)%Z
  | UTest => Some d
  | UByMtx | UOwner => Some 0%Z
  | _ => None
  end.

(** What else holds at [p]. *)
Definition pc_ok (p : spin_pc) (d : Z) : bool :=
  match p with
  | LEntry count => (count =? 0)%Z
  | LAgain => (0 <? d)%Z
  | LAgainSt v => (0 <? d)%Z && (v =? d)%Z
  | LSpin | LCas | LCount | LByMtx => (d =? 0)%Z
  | LCountSt v => (d =? 0)%Z && (v =? 0)%Z
  | UCountSt v => (v =? d + 1)%Z
  | UByMtx | UOwner => (d =? 0)%Z
  | UReturn r => (r =? 0)%Z
  | LTry _ | LTrySpin _ | LTryCas _ | LMutex | LSetByMtx | LTryCount | LTryCountSt _ | UClear | UMutex => false
  | _ => true
  end.

(** The depth once a call of [spin_lock] that is under way has returned. *)
Definition due (p : spin_pc) (d : Z) : Z :=
  match p with
  | Outside | UEntry | UCount | UCountSt _ | UTest | UByMtx | UClear | UMutex | UOwner | UReturn _ => d
  | _ => (d + 1)%Z
  end.

Record thread_ok (l : spinlock) (t : loc) (th : thread) : Prop := {
  to_pc : pc_ok (pc th) (depth th) = true;
  to_depth : (0 ≤ depth th ∧ due (pc th) (depth th) < 2 ^ 31)%Z;
  to_prog : well_nested (due (pc th) (depth th)) (prog th) = true;
  to_holds : match needs (pc th) (depth th) with
             | Some n => owner l = Some t ∧ lock_count l = n
             | None => owner l ≠ Some t
             end;
}.

Definition spin_inv (l : spinlock) (T : gmap loc thread) : Prop :=
  lock_by_mtx l = 0%Z ∧ (owner l = NULL → lock_count l = 0%Z) ∧
  ∀ t th, T !! t = Some th → thread_ok l t th.

Lemma thread_ok_other l l' t t' th : thread_ok l t' th → t ≠ t' →
  (l' = l ∨ (owner l = Some t ∨ owner l = NULL) ∧ (owner l' = Some t ∨ owner l' = NULL)) →
  thread_ok l' t' th.
Proof.
  intros [A B C D] Hne [->|[Ho Ho']]; [done|]. split; try done. 
  destruct (needs _ _); [exfalso; destruct D, Ho; congruence|]. destruct Ho'; congruence.
Qed.

Ltac spin_tests :=
  repeat match goal with
  | H : andb _ _ = true |- _ => apply andb_true_iff in H as [? ?]
  | H : (_ <? _)%Z = true |- _ => apply Z.ltb_lt in H
  | H : (_ =? _)%Z = true |- _ => apply Z.eqb_eq in H
  | H : _ ∧ _ |- _ => destruct H
  | H : context [(?a <? ?b)%Z] |- _ => destruct (Z.ltb_spec a b)
  | |- context [(?a <? ?b)%Z] => destruct (Z.ltb_spec a b)
  | |- context [(?a =? ?b)%Z] => destruct (Z.eqb_spec a b)
  | |- context [decide (?a = ?b)] => destruct (decide (a = b))
  end.

(** One action of a thread on its own. *)
Lemma spin_exec_ok t th l th' l' : thread_ok l t th → lock_by_mtx l = 0%Z → (owner l = NULL → lock_count l = 0%Z) →
  (th', l') ∈ spin_exec t th l →
  thread_ok l' t th' ∧ lock_by_mtx l' = 0%Z ∧ (owner l' = NULL → lock_count l' = 0%Z) ∧
  (l' = l ∨ (owner l = Some t ∨ owner l = NULL) ∧ (owner l' = Some t ∨ owner l' = NULL)).
Proof.
  destruct th as [p r d]. intros [A B C D] Hm H0 Hex. rw /spin_exec in Hex. simpl in *.
  destruct p; simpl in *; try done.
  1: destruct r as [|[count|] r]; [by apply not_elem_of_nil in Hex|..].
  all: try (apply list_elem_of_singleton in Hex as [= -> ->]). 
  all: try (rw /cas_owner in Hex; destruct (decide (owner l = NULL)); apply list_elem_of_singleton in Hex as [= -> ->]).
  all: simpl in *; spin_tests; simpl in *.
  all: split_and!; try done; try (split; simpl; split_and?; spin_tests).
  all: try lia; try congruence; try (by left); try (right; split; by (left + right)).
  all: try (split; [assumption|lia]). 
  all: lazymatch goal with |- lock_count _ = _ => by apply H0 | _ => rw i32_small; lia end.
Qed.

Lemma spin_inv_step t th l th' l' T : spin_inv l T → T !! t = Some th → (th', l') ∈ spin_exec t th l →
  spin_inv l' (<[t := th']> T).
Proof.
  intros (Hm & H0 & HT) Ht Hex.
  destruct (spin_exec_ok _ _ _ _ _ (HT _ _ Ht) Hm H0 Hex) as (Hok & Hm' & H0' & Hor).
  split; [done|]. split; [done|]. apply insert_forall; [done|]. intros t' th1 Hne H1.
  eapply (thread_ok_other l l' t); [by apply HT|done|done].
Qed.

Lemma spin_inv_init T : (∀ t th, T !! t = Some th → pc th = Outside ∧ depth th = 0%Z ∧ well_nested 0 (prog th) = true) →
  spin_inv spin_create T.
Proof.
  intros HT. split; [done|]. split; [done|]. intros t th Ht. destruct (HT _ _ Ht) as (Hp & Hd & Hw).
  destruct th as [p r d]. simpl in *. subst. by split.
Qed.

(** C28: the spin lock excludes.  When all threads lock with [count] 0 and
    unlock what they have locked, nested as they like, then under every
    schedule: two threads that hold the lock at the same time are the same; the
    lock's count is the depth of the holder; and no [spin_unlock] fails. *)
Theorem spin_lock_excludes (T0 T : gmap loc thread) l :
  (∀ t th, T0 !! t = Some th → pc th = Outside ∧ depth th = 0%Z ∧ well_nested 0 (prog th) = true) →
  rtc (step spin_exec) (spin_create, T0) (l, T) →
  (∀ t1 th1 t2 th2, T !! t1 = Some th1 → T !! t2 = Some th2 →
     pc th1 = Outside → (0 < depth th1)%Z → pc th2 = Outside → (0 < depth th2)%Z → t1 = t2) ∧
  (∀ t th, T !! t = Some th → pc th = Outside → (0 < depth th)%Z → lock_count l = depth th) ∧
  (∀ t th r, T !! t = Some th → pc th = UReturn r → r = 0%Z).
Proof.
  intros HT Hsteps. assert (Hi : spin_inv l T).
  { eapply (invariant_rtc _ spin_inv); [|by apply spin_inv_init|exact Hsteps].
    intros t th s th' s' T1 HI Ht Hx. by eapply spin_inv_step. }
  destruct Hi as (_ & _ & Hok).
  assert (Hin : ∀ t th, T !! t = Some th → pc th = Outside → (0 < depth th)%Z →
    owner l = Some t ∧ lock_count l = depth th).
  { intros t th Ht Hp Hd. destruct (Hok _ _ Ht) as [_ _ _ D]. rw Hp /= in D.
    by rw (proj2 (Z.ltb_lt _ _) Hd) in D. }
  split_and!.
  - intros t1 th1 t2 th2 H1 H2 P1 D1 P2 D2. destruct (Hin _ _ H1 P1 D1), (Hin _ _ H2 P2 D2). congruence.
  - intros t th Ht Hp Hd. by apply (Hin _ _ Ht).
  - intros t th r Ht Hp. destruct (Hok _ _ Ht) as [A _ _ _]. rw Hp /= in A. by apply Z.eqb_eq in A.
Qed.

(** Two threads that lock, one of them twice. *)
Definition lockers : gmap loc thread :=
  {[1%positive := Thread Outside [SpinLock 0; SpinLock 0; SpinUnlock; SpinUnlock] 0;
    2%positive := Thread Outside [SpinLock 0; SpinUnlock] 0]}.
(** The first thread locks while the second one is about to. *)
Definition lockers_run : list (loc * nat) :=
  replicate 3 (2%positive, 0) ++ replicate 8 (1%positive, 0) ++ replicate 3 (2%positive, 0).

Lemma spin_lock_excludes_witness : ∃ l T,
  schedule spin_exec lockers_run (spin_create, lockers) = Some (l, T) ∧
  (depth <$> T !! 1%positive) = Some 1%Z ∧
  ∀ t th, T !! t = Some th → pc th = Outside → (0 < depth th)%Z → lock_count l = depth th.
Proof.
  assert (∃ l T, schedule spin_exec lockers_run (spin_create, lockers) = Some (l, T) ∧
    (depth <$> T !! 1%positive) = Some 1%Z) as (l & T & Hs & Hd).
  { eexists _, _. split; by vm_compute. }
  exists l, T. split; [exact Hs|]. split; [exact Hd|].
  apply (spin_lock_excludes lockers T l).
  - intros t th. rw /lockers lookup_insert. case_decide; [intros [= <-]; split_and!; by vm_compute|].
    rw lookup_singleton. case_decide; [intros [= <-]; split_and!; by vm_compute|done].
  - eapply schedule_steps. exact Hs.
Defined.

(** With a bound on the tries there is no exclusion: the mutex of the fallback
    does not keep out a thread that holds the lock by its owner field.  Here
    both threads hold the lock; and the [spin_unlock] of the second one, which is
    not the owner, returns -1 and leaves the mutex locked. *)
Definition bounded : gmap loc thread :=
  {[1%positive := Thread Outside [SpinLock 1] 0; 2%positive := Thread Outside [SpinLock 1; SpinUnlock] 0]}.

Lemma fallback_does_not_exclude :
  (λ c, ((λ th, (pc th, depth th)) <$> snd c !! 1%positive, (λ th, (pc th, depth th)) <$> snd c !! 2%positive)) <$>
    schedule spin_exec (replicate 8 (1%positive, 0) ++ replicate 10 (2%positive, 0)) (spin_create, bounded) =
  Some (Some (Outside, 1%Z), Some (Outside, 1%Z)) ∧
  (λ c, (pc <$> snd c !! 2%positive, sp_mtx (fst c))) <$>
    schedule spin_exec (replicate 8 (1%positive, 0) ++ replicate 12 (2%positive, 0)) (spin_create, bounded) =
  Some (Some (UReturn (-1)), Mutex (Some 2%positive) 1).
Proof. split; by vm_compute. Qed.
