(* ===== verification/BlockQueue.v ===== *)
(** * The blocking queue ([src/src/link_list.c], second half)

    A [link_list] with a mutex and a condition variable, for producers and
    consumers in different threads.  Every thread runs a program of calls; what
    it does under the mutex is split into atomic actions as well.  [sh_hist] is
    not part of the code: it records the effects on the list, in order. *)
From S2P Require Import Prelude LinkList Threads Sync.

(** ** The code *)

Record block_queue := BlockQueue {
  bq_l : link_list;
  bq_mtx : mutex;
  bq_cond : condition;
  force_wakeup : Z;
}.

Definition create_block_queue : block_queue := BlockQueue create_link_list mutex_create condition_create 0.

Definition POP_SUCCESS : Z := 0.
Definition POP_TIMEOUT : Z := 1.
Definition POP_FORCE_WAKE_UP : Z := 2.

Inductive event := Pushed (t n : loc) | Popped (t : loc) (n : ptr) | Cleared.

Record shared := Shared { sh_q : block_queue; sh_nexts : nexts; sh_hist : list event }.

Definition set_mtx (m : mutex) (s : shared) : shared :=
  Shared (BlockQueue (bq_l (sh_q s)) m (bq_cond (sh_q s)) (force_wakeup (sh_q s))) (sh_nexts s) (sh_hist s).
Definition set_cond (c : condition) (s : shared) : shared :=
  Shared (BlockQueue (bq_l (sh_q s)) (bq_mtx (sh_q s)) c (force_wakeup (sh_q s))) (sh_nexts s) (sh_hist s).
Definition set_force (v : Z) (s : shared) : shared :=
  Shared (BlockQueue (bq_l (sh_q s)) (bq_mtx (sh_q s)) (bq_cond (sh_q s)) v) (sh_nexts s) (sh_hist s).
(** A change of the list, which is recorded. *)
Definition set_list (l : link_list) (N : nexts) (e : event) (s : shared) : shared :=
  Shared (BlockQueue l (bq_mtx (sh_q s)) (bq_cond (sh_q s)) (force_wakeup (sh_q s))) N (sh_hist s ++ [e]).

Inductive call := Push (n : loc) | Pop (ms : Z) | ForceWakeup | Clear.

(** Where a thread is; the names of the locals are those of the code. *)
Inductive bq_pc :=
  | Outside
  | PLock (n : loc) | PEmpty (n : loc) | PPush (n : loc) (isEmpty : bool) | PUnlock (isEmpty : bool)
  | Signal                               (* condition_signal, the last action of push and force_wakeup *)
  | QLock (ms : Z)
  | QTest (ms : Z)                       (* while(LINK_LIST_IS_EMPTY(bq->l)) *)
  | QWait (ms : Z) | QSleep (ms : Z)     (* condition_wait or condition_timedwait *)
  | QTimeout                             (* condition_timedwait has timed out *)
  | QForce (ms : Z) | QUnforce           (* if(bq->force_wakeup) *)
  | QPop                                 (* LINK_LIST_POP *)
  | QUnlock (ret_code : Z) (n : ptr) | QReturn (ret_code : Z) (n : ptr)
  | FLock | FSet | FUnlock
  | CLock | CClear | CUnlock
  | Crashed.                             (* a fault *)

Record thread := Thread { pc : bq_pc; prog : list call; results : list (Z * ptr) }.

(** [mutex_lock] and [mutex_unlock], and then [p]. *)
Definition lock_then (t : loc) (p : bq_pc) (s : shared) : list (bq_pc * shared) :=
  match mutex_lock t (bq_mtx (sh_q s)) with Some m => [(p, set_mtx m s)] | None => [] end.
Definition unlock_then (t : loc) (p : bq_pc) (s : shared) : list (bq_pc * shared) :=
  [(p, set_mtx (mutex_unlock t (bq_mtx (sh_q s))) s)].

Definition block_queue_push (t : loc) (p : bq_pc) (s : shared) : list (bq_pc * shared) :=
  match p with
  | PLock n => lock_then t (PEmpty n) s
  | PEmpty n => [(PPush n (link_list_is_empty (bq_l (sh_q s))), s)]
  | PPush n isEmpty =>
      match link_list_push_back (bq_l (sh_q s)) n (sh_nexts s) with
      | Ok (l, N) => [(PUnlock isEmpty, set_list l N (Pushed t n) s)]
      | Fault _ => [(Crashed, s)]
      end
  | PUnlock isEmpty => unlock_then t (if isEmpty then Signal else Outside) s
  | Signal => (λ c, (Outside, set_cond c s)) <$> condition_signal (bq_cond (sh_q s))
  | _ => []
  end.

Section spurious_wakeups.
(** Whether a thread may be woken without a signal. *)
Context (spurious : bool).

Definition block_queue_pop (t : loc) (p : bq_pc) (s : shared) : list (bq_pc * shared) :=
  match p with
  | QLock ms => lock_then t (QTest ms) s
  | QTest ms =>
      [((if link_list_is_empty (bq_l (sh_q s)) then if (ms =? 0)%Z then QPop else QWait ms else QPop), s)]
  | QWait ms =>
      let '(c, m) := condition_wait t (bq_cond (sh_q s)) (bq_mtx (sh_q s)) in
      [(QSleep ms, set_cond c (set_mtx m s))]
  | QSleep ms =>
      let woken := set_cond (bq_cond (sh_q s) ∖ {[t]}) s in
      if decide (t ∈ bq_cond (sh_q s)) then
        (if spurious then [(QSleep ms, woken)] else []) ++ (if (0 <? ms)%Z then [(QTimeout, woken)] else [])
      else lock_then t (QForce ms) s
  | QTimeout => lock_then t (QUnlock POP_TIMEOUT NULL) s
  | QForce ms => [((if (force_wakeup (sh_q s) =? 0)%Z then QTest ms else QUnforce), s)]
  | QUnforce => [(QUnlock POP_FORCE_WAKE_UP NULL, set_force 0 s)]
  | QPop =>
      match link_list_pop (bq_l (sh_q s)) (sh_nexts s) with
      | Ok ((n, l), N) => [(QUnlock POP_SUCCESS n, set_list l N (Popped t n) s)]
      | Fault _ => [(Crashed, s)]
      end
  | QUnlock ret_code n => unlock_then t (QReturn ret_code n) s
  | _ => []
  end.

Definition block_queue_force_wakeup (t : loc) (p : bq_pc) (s : shared) : list (bq_pc * shared) :=
  match p with
  | FLock => lock_then t FSet s
  | FSet => [(FUnlock, set_force 1 s)]
  | FUnlock => unlock_then t Signal s
  | _ => []
  end.

(** The nodes of the list that is emptied keep their links. *)
Definition block_queue_clear (t : loc) (p : bq_pc) (s : shared) : list (bq_pc * shared) :=
  match p with
  | CLock => lock_then t CClear s
  | CClear => [(CUnlock, set_list (link_list_clear (bq_l (sh_q s))) (sh_nexts s) Cleared s)]
  | CUnlock => unlock_then t Outside s
  | _ => []
  end.

(** It does not lock. *)
Definition block_queue_is_empty (s : shared) : bool := link_list_is_empty (bq_l (sh_q s)).

Definition enter (c : call) : bq_pc :=
  match c with Push n => PLock n | Pop ms => QLock ms | ForceWakeup => FLock | Clear => CLock end.

Definition at_pc (p : bq_pc) (th : thread) : thread := Thread p (prog th) (results th).

Definition bq_exec (t : loc) (th : thread) (s : shared) : list (thread * shared) :=
  match pc th with
  | Outside =>
      match prog th with
      | [] => []
      | c :: r => [(Thread (enter c) r (results th), s)]
      end
  | QReturn ret_code n => [(Thread Outside (prog th) (results th ++ [(ret_code, n)]), s)]
  | p =>
      prod_map (λ p, at_pc p th) id <$>
        (block_queue_push t p s ++ block_queue_pop t p s ++ block_queue_force_wakeup t p s ++
         block_queue_clear t p s)
  end.
End spurious_wakeups.

(** ** The abstract queue *)

(** What the recorded effects make of a queue of nodes, [None] when they are not
    effects of a queue. *)
Definition replay1 (e : event) (xs : list loc) : option (list loc) :=
  match e with
  | Pushed _ n => Some (xs ++ [n])
  | Popped _ n => if decide (n = head xs) then Some (tail xs) else None
  | Cleared => Some []
  end.
Fixpoint replay (es : list event) (xs : list loc) : option (list loc) :=
  match es with
  | [] => Some xs
  | e :: es => match replay1 e xs with Some xs => replay es xs | None => None end
  end.

Lemma replay_snoc es e xs : replay (es ++ [e]) xs = match replay es xs with Some ys => replay1 e ys | None => None end.
Proof.
  revert xs. induction es as [|e' es IH]; intros xs; simpl; [by destruct (replay1 e xs)|].
  by destruct (replay1 e' xs).
Qed.

(** The nodes that a thread has popped. *)
Definition popped_by (t : loc) (es : list event) : list (Z * ptr) :=
  omap (λ e, match e with
             | Popped t' n => if decide (t' = t) then Some (POP_SUCCESS, n) else None
             | _ => None
             end) es.

Lemma popped_by_app t es fs : popped_by t (es ++ fs) = popped_by t es ++ popped_by t fs.
Proof. apply omap_app. Qed.

(** The nodes that a thread has pushed. *)
Definition pushed_by (t : loc) (es : list event) : list loc :=
  omap (λ e, match e with Pushed t' n => if decide (t' = t) then Some n else None | _ => None end) es.
Lemma pushed_by_app t es fs : pushed_by t (es ++ fs) = pushed_by t es ++ pushed_by t fs.
Proof. apply omap_app. Qed.

(** ** The invariant *)

(** [M] are the nodes there are, and [W] is what each thread pushes in all. *)

Definition inside (th : thread) : bool :=
  match pc th with
  | PEmpty _ | PPush _ _ | PUnlock _ | QTest _ | QWait _ | QForce _ | QUnforce | QPop | QUnlock _ _
  | FSet | FUnlock | CClear | CUnlock => true
  | _ => false
  end.

(** The nodes that a thread has still to push. *)
Definition pc_node (p : bq_pc) : list loc :=
  match p with PLock n | PEmpty n | PPush n _ => [n] | _ => [] end.
Definition to_push (th : thread) : list loc :=
  pc_node (pc th) ++ omap (λ c, match c with Push n => Some n | _ => None end) (prog th).

(** The pop that a thread has not recorded yet. *)
Definition pc_result (p : bq_pc) : list (Z * ptr) :=
  match p with QUnlock r n | QReturn r n => if (r =? POP_SUCCESS)%Z then [(r, n)] else [] | _ => [] end.
Definition has_popped (th : thread) : list (Z * ptr) :=
  filter (λ x, x.1 = POP_SUCCESS) (results th) ++ pc_result (pc th).

(** What a thread has found out about the list. *)
Definition pc_fact (xs : list loc) (p : bq_pc) : Prop :=
  match p with
  | PPush _ e => e = bool_decide (xs = [])
  | QWait _ => xs = []
  | Crashed => False
  | _ => True
  end.

Record bq_inv (M : gset loc) (W : loc → list loc) (s : shared) (T : gmap loc thread) (xs : list loc) : Prop := {
  qi_mtx : guarded inside (bq_mtx (sh_q s)) T;
  qi_hist : replay (sh_hist s) [] = Some xs;
  qi_rep : ll_rep (sh_nexts s) (bq_l (sh_q s)) xs;
  qi_nodes : ∀ x, x ∈ xs → x ∈ M;
  qi_push : ∀ t th, T !! t = Some th → NoDup (to_push th) ∧
    ∀ n, n ∈ to_push th → sh_nexts s !! n = Some NULL ∧ n ∉ xs ∧ n ∈ M;
  qi_once : ∀ t1 th1 t2 th2 n, T !! t1 = Some th1 → T !! t2 = Some th2 → n ∈ to_push th1 → n ∈ to_push th2 → t1 = t2;
  qi_fact : ∀ t th, T !! t = Some th → pc_fact xs (pc th);
  qi_sent : ∀ t th, T !! t = Some th → pushed_by t (sh_hist s) ++ to_push th = W t;
  qi_res : ∀ t th, T !! t = Some th → has_popped th = popped_by t (sh_hist s);
}.

Section bq_proof.
Context (M : gset loc) (W : loc → list loc) (HM : (Z.of_nat (size M) < 2 ^ 31 - 1)%Z).
Implicit Types (s : shared) (T : gmap loc thread) (th : thread) (xs : list loc).

Lemma bq_room s T xs : bq_inv M W s T xs → ll_room xs.
Proof.
  intros Hi. pose proof (ll_rep_NoDup _ _ _ (qi_rep _ _ _ _ _ Hi)) as Hnd.
  assert (length xs ≤ size M); [|rw /ll_room; lia].
  rw -(size_list_to_set (C := gset loc) xs Hnd). apply subseteq_size.
  intros x Hx%elem_of_list_to_set. by apply (qi_nodes _ _ _ _ _ Hi).
Qed.

(** A thread that is not inside has found out nothing. *)
Lemma fact_outside th xs ys : pc_fact xs (pc th) → inside th = false → pc_fact ys (pc th).
Proof. rw /inside. by destruct (pc th). Qed.

Lemma to_push_insert T t th th' : T !! t = Some th → (∀ n, n ∈ to_push th' → n ∈ to_push th) →
  (∀ t1 th1 t2 th2 n, T !! t1 = Some th1 → T !! t2 = Some th2 → n ∈ to_push th1 → n ∈ to_push th2 → t1 = t2) →
  ∀ t1 th1 t2 th2 n, <[t := th']> T !! t1 = Some th1 → <[t := th']> T !! t2 = Some th2 →
    n ∈ to_push th1 → n ∈ to_push th2 → t1 = t2.
Proof.
  intros Ht Hsub Honce t1 th1 t2 th2 n. rw !lookup_insert. 
  destruct (decide (t = t1)) as [<-|], (decide (t = t2)) as [<-|]; [done|..].
  - intros [= <-] H2 Hn1 Hn2. eapply Honce; [exact Ht|exact H2|by apply Hsub|done].
  - intros H1 [= <-] Hn1 Hn2. eapply Honce; [exact H1|exact Ht|done|by apply Hsub].
  - apply Honce.
Qed.

(** A step that leaves the list alone. *)
Lemma bq_inv_quiet s s' T t th th' xs : bq_inv M W s T xs → T !! t = Some th →
  bq_l (sh_q s') = bq_l (sh_q s) → sh_nexts s' = sh_nexts s → sh_hist s' = sh_hist s →
  guarded inside (bq_mtx (sh_q s')) (<[t := th']> T) →
  to_push th' = to_push th → pc_fact xs (pc th') → has_popped th' = has_popped th →
  bq_inv M W s' (<[t := th']> T) xs.
Proof.
  intros [A B C D E F G J H] Ht El En Eh Hg Hp Hf Hr. split; rw ?El ?En ?Eh; try done.
  - apply (insert_forall (λ _ th, NoDup (to_push th) ∧ ∀ n, n ∈ to_push th → sh_nexts s !! n = Some NULL ∧ n ∉ xs ∧ n ∈ M)).
    { rw Hp. by apply (E t). }
    intros t' l _. apply E.
  - eapply to_push_insert; [exact Ht| |exact F]. intros n. by rw Hp.
  - apply (insert_forall (λ _ th, pc_fact xs (pc th))); [done|]. intros t' l _. apply G.
  - apply (insert_forall (λ t th, pushed_by t (sh_hist s) ++ to_push th = W t)); [rw Hp; by apply J|]. intros t' l _. apply J.
  - apply (insert_forall (λ t th, has_popped th = popped_by t (sh_hist s))); [rw Hr; by apply H|]. intros t' l _. apply H.
Qed.

(** A step on the list, by the thread that is inside. *)
Lemma bq_inv_list s T t th th' xs l N e ys : bq_inv M W s T xs → T !! t = Some th →
  inside th = true → inside th' = true → replay1 e xs = Some ys → ll_rep N l ys →
  (∀ x, x ∈ ys → x ∈ M) → NoDup (to_push th') → (∀ n, n ∈ to_push th' → n ∈ to_push th) →
  (∀ t1 th1 n, <[t := th']> T !! t1 = Some th1 → n ∈ to_push th1 → N !! n = sh_nexts s !! n ∧ n ∉ ys) →
  pc_fact ys (pc th') → has_popped th' = popped_by t (sh_hist s ++ [e]) →
  pushed_by t (sh_hist s ++ [e]) ++ to_push th' = W t →
  (∀ t1, t1 ≠ t → popped_by t1 [e] = [] ∧ pushed_by t1 [e] = []) →
  bq_inv M W (set_list l N e s) (<[t := th']> T) ys.
Proof.
  intros [A B C D E F G J H] Ht Hi Hi' He Hl HM' Hnd Hsub Hn Hf Hr Hw Hother. split; simpl; try done.
  - eapply guarded_stay; [exact A|exact Ht|congruence].
  - by rw replay_snoc B.
  - intros t1 th1 H1. split.
    + revert H1. rw lookup_insert. case_decide; [by intros [= <-]|]. intros H1. by apply (E t1).
    + intros n Hin. destruct (Hn _ _ _ H1 Hin) as [-> ?].
      assert (∃ t2 th2, T !! t2 = Some th2 ∧ n ∈ to_push th2) as (t2 & th2 & H2 & Hin2).
      { revert H1. rw lookup_insert. case_decide; [intros [= <-]; exists t, th; auto|intros ?; by exists t1, th1]. }
      destruct (proj2 (E _ _ H2) n Hin2) as (? & _ & ?). by split_and!.
  - by eapply to_push_insert.
  - apply insert_forall; [done|]. intros t1 th1 Hne H1. eapply fact_outside; [by apply (G t1)|].
    destruct (inside th1) eqn:Hin; [|done]. destruct Hne. by eapply (guarded_one inside _ T t1 th1 t th).
  - apply (insert_forall (λ t th, pushed_by t (sh_hist s ++ [e]) ++ to_push th = W t)); [done|].
    intros t1 th1 Hne H1. rw pushed_by_app (proj2 (Hother _ Hne)) // app_nil_r. by apply J.
  - apply (insert_forall (λ t th, has_popped th = popped_by t (sh_hist s ++ [e]))); [done|].
    intros t1 th1 Hne H1. rw popped_by_app (proj1 (Hother _ Hne)) // app_nil_r. by apply H.
Qed.
Lemma lock_then_ok s s' T t th p p' xs : bq_inv M W s T xs → T !! t = Some th →
  (p', s') ∈ lock_then t p s → inside th = false → inside (at_pc p th) = true →
  to_push (at_pc p th) = to_push th → pc_fact xs p → has_popped (at_pc p th) = has_popped th →
  bq_inv M W s' (<[t := at_pc p' th]> T) xs.
Proof.
  intros Hi Ht Hin Hi1 Hi2 Hp Hf Hr. rw /lock_then in Hin.
  destruct (mutex_lock t (bq_mtx (sh_q s))) as [m|] eqn:Hm; [|by apply not_elem_of_nil in Hin].
  apply list_elem_of_singleton in Hin as [= -> ->].
  eapply bq_inv_quiet; try done. eapply guarded_lock; [by apply Hi|done..].
Qed.

Lemma unlock_then_ok s s' T t th p p' xs : bq_inv M W s T xs → T !! t = Some th →
  (p', s') ∈ unlock_then t p s → inside th = true → inside (at_pc p th) = false →
  to_push (at_pc p th) = to_push th → pc_fact xs p → has_popped (at_pc p th) = has_popped th →
  bq_inv M W s' (<[t := at_pc p' th]> T) xs.
Proof.
  intros Hi Ht Hin Hi1 Hi2 Hp Hf Hr. apply list_elem_of_singleton in Hin as [= -> ->].
  eapply bq_inv_quiet; try done. eapply guarded_unlock; [by apply Hi|done..].
Qed.

(** The thread stays inside, or outside, and the list is as it was. *)
Lemma bq_move s s' T t th p xs : bq_inv M W s T xs → T !! t = Some th →
  bq_l (sh_q s') = bq_l (sh_q s) → sh_nexts s' = sh_nexts s → sh_hist s' = sh_hist s →
  bq_mtx (sh_q s') = bq_mtx (sh_q s) → inside (at_pc p th) = inside th →
  to_push (at_pc p th) = to_push th → pc_fact xs p → has_popped (at_pc p th) = has_popped th →
  bq_inv M W s' (<[t := at_pc p th]> T) xs.
Proof.
  intros Hi Ht El En Eh Em Hin Hp Hf Hr. eapply bq_inv_quiet; try done.
  rw Em. eapply guarded_stay; [by apply Hi|done..].
Qed.

Lemma bq_push_list s T t n e r rs xs : bq_inv M W s T xs → T !! t = Some (Thread (PPush n e) r rs) →
  ∃ l N, link_list_push_back (bq_l (sh_q s)) n (sh_nexts s) = Ok (l, N) ∧
    bq_inv M W (set_list l N (Pushed t n) s) (<[t := Thread (PUnlock e) r rs]> T) (xs ++ [n]).
Proof.
  intros Hi Ht. pose proof Hi as [A B C D E F G J H]. destruct (E _ _ Ht) as [Hnd Hn].
  destruct (Hn n) as (Hnn & Hnx & HnM); [by left|]. apply NoDup_cons in Hnd as [Hnr Hnd].
  destruct (wp_ok _ _ _ (ll_push_back_ok _ _ _ n C Hnn Hnx (bq_room _ _ _ Hi))) as (l & N & Hpush & Hl & _ & Hfr).
  exists l, N. split; [exact Hpush|].
  assert (Hother : ∀ t1 th1 m, <[t := Thread (PUnlock e) r rs]> T !! t1 = Some th1 → m ∈ to_push th1 → m ∉ xs ∧ m ≠ n).
  { intros t1 th1 m. rw lookup_insert. case_decide as Hc.
    - intros [= <-] Hm. split; [|intros ->; by apply Hnr]. apply (Hn m). by right.
    - intros H1 Hm. split; [by apply (E _ _ H1)|]. intros ->. destruct Hc. eapply (F t _ t1); [exact Ht|exact H1|by left|done]. }
  eapply (bq_inv_list _ _ _ (Thread (PPush n e) r rs)); try done.
  - intros x [?| ->%list_elem_of_singleton]%elem_of_app; auto.
  - intros m Hm. by right.
  - intros t1 th1 m H1 Hm. destruct (Hother _ _ _ H1 Hm) as [Hx Hne].
    split; [apply Hfr|]; [rw elem_of_cons|rw elem_of_app list_elem_of_singleton]; naive_solver.
  - rw popped_by_app /= app_nil_r. by apply (H _ _ Ht).
  - rw -(J _ _ Ht) pushed_by_app /pushed_by /= decide_True // -assoc //.
  - intros t1 Hne. rw /pushed_by /=. by case_decide.
Qed.

Lemma bq_pop_list s T t r rs xs : bq_inv M W s T xs → T !! t = Some (Thread QPop r rs) →
  ∃ n l N, link_list_pop (bq_l (sh_q s)) (sh_nexts s) = Ok ((n, l), N) ∧
    bq_inv M W (set_list l N (Popped t n) s) (<[t := Thread (QUnlock POP_SUCCESS n) r rs]> T) (tail xs).
Proof.
  intros Hi Ht. pose proof Hi as [A B C D E F G J H].
  destruct (wp_ok _ _ _ (ll_pop_ok (sh_nexts s) (bq_l (sh_q s)) xs C ltac:(pose proof (bq_room _ _ _ Hi); rw /ll_room in H0; lia)))
    as ([n l] & N & Hpop & Hhd & Hl & (_ & Hfr) & _).
  exists n, l, N. split; [exact Hpop|]. simpl in Hhd, Hl.
  assert (Htail : ∀ x, x ∈ tail xs → x ∈ xs) by (destruct xs; [done|by right]).
  eapply (bq_inv_list _ _ _ (Thread QPop r rs)); try done.
  - simpl. by rw decide_True.
  - auto.
  - by apply (E _ _ Ht).
  - intros t1 th1 m H1 Hm. assert (Hx : m ∉ xs); [|split; [by apply Hfr|auto]].
    revert H1. rw lookup_insert. case_decide; [intros [= <-]; by apply (E _ _ Ht)|intros H1; by apply (E _ _ H1)].
  - rw popped_by_app -(H _ _ Ht) /has_popped /= app_nil_r /popped_by /= decide_True //.
  - rw pushed_by_app /= app_nil_r. by apply (J _ _ Ht).
  - intros t1 Hne. rw /popped_by /=. by case_decide.
Qed.

Lemma bq_clear_list s T t r rs xs : bq_inv M W s T xs → T !! t = Some (Thread CClear r rs) →
  bq_inv M W (set_list (link_list_clear (bq_l (sh_q s))) (sh_nexts s) Cleared s) (<[t := Thread CUnlock r rs]> T) [].
Proof.
  intros Hi Ht. pose proof Hi as [A B C D E F G J H].
  eapply (bq_inv_list _ _ _ (Thread CClear r rs)); try done.
  - intros x Hx. by apply not_elem_of_nil in Hx.
  - by apply (E _ _ Ht).
  - intros t1 th1 m _ _. split; [done|apply not_elem_of_nil].
  - rw popped_by_app /= app_nil_r. by apply (H _ _ Ht).
  - rw pushed_by_app /= app_nil_r. by apply (J _ _ Ht).
Qed.

Lemma has_popped_return r n p rs :
  has_popped (Thread Outside p (rs ++ [(r, n)])) = has_popped (Thread (QReturn r n) p rs).
Proof.
  rw /has_popped /= app_nil_r filter_app filter_cons filter_nil /=.
  rw Z.eqb_compare. by case_decide as Hr; [rw Hr|]; destruct (Z.compare_spec r POP_SUCCESS).
Qed.

(** One action keeps the invariant. *)
Lemma bq_preserved spurious t th s th' s' T xs : bq_inv M W s T xs → T !! t = Some th →
  (th', s') ∈ bq_exec spurious t th s → ∃ ys, bq_inv M W s' (<[t := th']> T) ys.
Proof.
  destruct th as [p r rs]. intros Hi Ht Hex.
  assert (Hquiet : bq_inv M W s' (<[t := th']> T) xs → ∃ ys, bq_inv M W s' (<[t := th']> T) ys) by (by exists xs).
  pose proof (λ p' s1, bq_move s s1 T t (Thread p r rs) p' xs Hi Ht) as Hmove.
  pose proof (λ p', unlock_then_ok s _ T t (Thread p r rs) p' p' xs Hi Ht (list_elem_of_here _ _)) as Hunlock.
  rw /at_pc /= in Hmove. rw /at_pc /= in Hunlock.
  rw /bq_exec /= in Hex. destruct p; simpl in Hex;
    try (rw ?app_nil_r in Hex; apply list_elem_of_fmap in Hex as ([p' s1] & [= -> ->] & Hex));
    try (by apply not_elem_of_nil in Hex).
  all: try (apply Hquiet; eapply lock_then_ok; [exact Hi|exact Ht|exact Hex|reflexivity..]; exact I).
  all: try (apply list_elem_of_singleton in Hex as [= -> ->]; apply Hquiet;
    first [apply Hmove; [reflexivity..|exact I|reflexivity]|apply Hunlock; [reflexivity..|exact I|reflexivity]]).
  - destruct r as [|c r]; [by apply not_elem_of_nil in Hex|].
    apply list_elem_of_singleton in Hex as [= -> ->]. apply Hquiet.
    eapply bq_inv_quiet; [exact Hi|exact Ht|reflexivity..| | | |by destruct c].
    + eapply guarded_stay; [by apply Hi|exact Ht|by destruct c].
    + by destruct c.
    + by destruct c.
  - apply list_elem_of_singleton in Hex as [= -> ->]. apply Hquiet, Hmove; [reflexivity..| |reflexivity].
    apply (ll_rep_is_empty (sh_nexts s)), Hi.
  - destruct (bq_push_list _ _ _ _ _ _ _ _ Hi Ht) as (l & N & Hpush & Hi'). rw Hpush in Hex.
    apply list_elem_of_singleton in Hex as [= -> ->]. by exists (xs ++ [n]).
  - apply list_elem_of_singleton in Hex as [= -> ->]. apply Hquiet, Hunlock; by destruct isEmpty.
  - rw /= in Hex. apply list_elem_of_fmap in Hex as (c & [= -> ->] & _).
    apply Hquiet, Hmove; [reflexivity..|exact I|reflexivity].
  - apply list_elem_of_singleton in Hex as [= -> ->]. apply Hquiet, Hmove; try reflexivity.
    all: pose proof (ll_rep_is_empty _ _ _ (qi_rep _ _ _ _ _ Hi)) as He; destruct (link_list_is_empty _); [|reflexivity].
    all: destruct (ms =? 0)%Z; try reflexivity; symmetry in He; by apply bool_decide_eq_true in He.
  - apply list_elem_of_singleton in Hex as [= -> ->]. apply Hquiet.
    eapply bq_inv_quiet; [exact Hi|exact Ht|reflexivity..| |reflexivity|exact I|reflexivity].
    eapply guarded_unlock; [by apply Hi|exact Ht|reflexivity..].
  - case_decide as Hc; [|apply Hquiet; eapply lock_then_ok; [exact Hi|exact Ht|exact Hex|reflexivity..]; exact I].
    apply elem_of_app in Hex as [Hex|Hex].
    all: lazymatch type of Hex with _ ∈ (if ?b then _ else _) => destruct b end; [|by apply not_elem_of_nil in Hex].
    all: apply list_elem_of_singleton in Hex as [= -> ->]; apply Hquiet, Hmove; [reflexivity..|exact I|reflexivity].
  - apply list_elem_of_singleton in Hex as [= -> ->]. apply Hquiet, Hmove; try reflexivity; by case_match.
  - destruct (bq_pop_list _ _ _ _ _ _ Hi Ht) as (n & l & N & Hpop & Hi'). rw Hpop in Hex.
    apply list_elem_of_singleton in Hex as [= -> ->]. by exists (tail xs).
  - apply list_elem_of_singleton in Hex as [= -> ->]. apply Hquiet.
    eapply bq_inv_quiet; [exact Hi|exact Ht|reflexivity..| |reflexivity|exact I|].
    + eapply guarded_stay; [by apply Hi|exact Ht|done].
    + apply has_popped_return.
  - apply list_elem_of_singleton in Hex as [= -> ->]. exists []. by eapply bq_clear_list.
Qed.
End bq_proof.

(** Threads that have not started: every node is pushed by one call, and it is
    in no list. *)
Definition programs_ok (M : gset loc) (N : nexts) (T : gmap loc thread) : Prop :=
  (∀ t th, T !! t = Some th → pc th = Outside ∧ results th = [] ∧ NoDup (to_push th) ∧
     ∀ n, n ∈ to_push th → N !! n = Some NULL ∧ n ∈ M) ∧
  (∀ t1 th1 t2 th2 n, T !! t1 = Some th1 → T !! t2 = Some th2 → n ∈ to_push th1 → n ∈ to_push th2 → t1 = t2).

Definition pushes_of (T : gmap loc thread) (t : loc) : list loc :=
  match T !! t with Some th => to_push th | None => [] end.

Lemma bq_inv_init M N T : programs_ok M N T →
  bq_inv M (pushes_of T) (Shared create_block_queue N []) T [].
Proof.
  intros [HT Honce]. split; try done; simpl.
  - left. split; [done|]. intros t th Ht. rw /inside. by rw (proj1 (HT _ _ Ht)).
  - intros x Hx. by apply not_elem_of_nil in Hx.
  - intros t th Ht. destruct (HT _ _ Ht) as (_ & _ & ? & H). split; [done|]. intros n Hn.
    destruct (H n Hn). split_and!; [done|apply not_elem_of_nil|done].
  - intros t th Ht. by rw (proj1 (HT _ _ Ht)).
  - intros t th Ht. by rw /pushes_of Ht.
  - intros t th Ht. destruct (HT _ _ Ht) as (Hp & Hr & _). by rw /has_popped Hp Hr.
Qed.

Lemma bq_reachable spurious M N T0 s T : (Z.of_nat (size M) < 2 ^ 31 - 1)%Z → programs_ok M N T0 →
  rtc (step (bq_exec spurious)) (Shared create_block_queue N [], T0) (s, T) →
  ∃ xs, bq_inv M (pushes_of T0) s T xs.
Proof.
  intros HM H0. apply (invariant_rtc _ (λ s T, ∃ xs, bq_inv M (pushes_of T0) s T xs)).
  - intros t th s1 th' s' T1 [xs Hi] Ht Hex. by eapply bq_preserved.
  - exists []. by apply bq_inv_init.
Qed.

(** C29: the blocking queue is a linearizable FIFO queue.  Whatever the threads
    do, under every schedule and with spurious wake-ups and timeouts, no access
    faults; the recorded effects are a history of a FIFO queue, and replaying it
    gives what the list holds; every thread has pushed a prefix of what its
    program pushes, in order and each node once; and the nodes that its pops
    have returned are those that it took out of the queue. *)
Theorem block_queue_linearizable spurious (M : gset loc) N (T0 T : gmap loc thread) s :
  (Z.of_nat (size M) < 2 ^ 31 - 1)%Z → programs_ok M N T0 →
  rtc (step (bq_exec spurious)) (Shared create_block_queue N [], T0) (s, T) →
  (∃ xs, replay (sh_hist s) [] = Some xs ∧ ll_rep (sh_nexts s) (bq_l (sh_q s)) xs ∧ NoDup xs) ∧
  ∀ t th, T !! t = Some th → pc th ≠ Crashed ∧
    pushed_by t (sh_hist s) ++ to_push th = pushes_of T0 t ∧ has_popped th = popped_by t (sh_hist s).
Proof.
  intros HM H0 Hsteps. destruct (bq_reachable _ _ _ _ _ _ HM H0 Hsteps) as [xs Hi]. split.
  - exists xs. split_and!; try apply Hi. by eapply ll_rep_NoDup, Hi.
  - intros t th Ht. split_and!; try by apply Hi.
    intros Hc. pose proof (qi_fact _ _ _ _ _ Hi _ _ Ht) as Hf. by rw Hc in Hf.
Qed.

(** A consumer that waits, and a producer. *)
Definition one_each : gmap loc thread :=
  {[1%positive := Thread Outside [Pop (-1); Pop 0] []; 2%positive := Thread Outside [Push 7; Push 8] []]}.
Definition two_nodes : nexts := {[7%positive := NULL; 8%positive := NULL]}.
(** The consumer goes to sleep, is woken by the first push, and pops. *)
Definition one_each_run : list (loc * nat) :=
  replicate 4 (1%positive, 0) ++ replicate 6 (2%positive, 0) ++ replicate 6 (1%positive, 0).

Lemma one_each_cases t th : one_each !! t = Some th →
  (t = 1%positive ∧ th = Thread Outside [Pop (-1); Pop 0] []) ∨ (t = 2%positive ∧ th = Thread Outside [Push 7; Push 8] []).
Proof.
  rw /one_each lookup_insert. case_decide; [intros [= <-]; auto|].
  rw lookup_singleton. case_decide; [intros [= <-]; auto|done].
Qed.

Lemma one_each_ok : programs_ok {[7%positive; 8%positive]} two_nodes one_each.
Proof.
  split.
  - intros t th [(-> & ->)|(-> & ->)]%one_each_cases; (split; [done|]; split; [done|]; split).
    + apply NoDup_nil_2.
    + intros n Hn. by apply not_elem_of_nil in Hn.
    + apply (bool_decide_unpack (NoDup [7%positive; 8%positive])). by vm_compute.
    + intros n Hn. repeat (apply elem_of_cons in Hn as [->|Hn]; [split; [by vm_compute|set_solver]|]).
      by apply not_elem_of_nil in Hn.
  - intros t1 th1 t2 th2 n [(-> & ->)|(-> & ->)]%one_each_cases [(-> & ->)|(-> & ->)]%one_each_cases H1 H2; try done.
    + by apply not_elem_of_nil in H1.
    + by apply not_elem_of_nil in H2.
Qed.

Lemma block_queue_linearizable_witness : ∃ s T xs,
  schedule (bq_exec true) one_each_run (Shared create_block_queue two_nodes [], one_each) = Some (s, T) ∧
  (results <$> T !! 1%positive) = Some [(POP_SUCCESS, Some 7%positive)] ∧
  replay (sh_hist s) [] = Some xs ∧ ll_rep (sh_nexts s) (bq_l (sh_q s)) xs.
Proof.
  assert (∃ s T, schedule (bq_exec true) one_each_run (Shared create_block_queue two_nodes [], one_each) = Some (s, T) ∧
    (results <$> T !! 1%positive) = Some [(POP_SUCCESS, Some 7%positive)]) as (s & T & Hs & Hr).
  { eexists _, _. split; by vm_compute. }
  destruct (block_queue_linearizable true {[7%positive; 8%positive]} two_nodes one_each T s) as [(xs & Hx & Hl & _) _].
  - by vm_compute.
  - apply one_each_ok.
  - eapply schedule_steps. exact Hs.
  - exists s, T, xs. split; [exact Hs|]. split; [exact Hr|]. split; [exact Hx|exact Hl].
Defined.

(** ** Wake-ups *)

Definition is_pop (c : call) : bool := match c with Pop _ => true | _ => false end.
Definition popping (p : bq_pc) : bool :=
  match p with
  | QLock _ | QTest _ | QWait _ | QSleep _ | QTimeout | QForce _ | QUnforce | QPop | QUnlock _ _ | QReturn _ _ => true
  | _ => false
  end.
Definition consumer (th : thread) : bool := popping (pc th) || existsb is_pop (prog th).

(** The thread is about to signal. *)
Definition wakes (p : bq_pc) : bool := match p with PUnlock true | Signal => true | _ => false end.

(** Only [c] pops; when it sleeps although the list is not empty, a signal is on
    its way. *)
Record wake_inv (c : loc) (s : shared) (T : gmap loc thread) : Prop := {
  wi_one : ∀ t th, T !! t = Some th → consumer th = true → t = c;
  wi_cond : ∀ t, t ∈ bq_cond (sh_q s) → t = c ∧ ∃ th ms, T !! t = Some th ∧ pc th = QSleep ms;
  wi_pend : c ∈ bq_cond (sh_q s) → block_queue_is_empty s = false → ∃ t th, T !! t = Some th ∧ wakes (pc th) = true;
}.

Section wake.
Context (c : loc).

(** The step of a thread that does not go to sleep. *)
Lemma wake_inv_step s s' T t th th' : wake_inv c s T → T !! t = Some th →
  (consumer th' = true → consumer th = true) →
  (∀ x, x ∈ bq_cond (sh_q s') → x ∈ bq_cond (sh_q s)) →
  (t ∈ bq_cond (sh_q s') → pc th' = pc th) →
  (c ∈ bq_cond (sh_q s') → block_queue_is_empty s' = false → wakes (pc th') = true ∨ block_queue_is_empty s = false ∧ wakes (pc th) = false) →
  wake_inv c s' (<[t := th']> T).
Proof.
  intros [A B C] Ht Hc Hsub Ht' Hp. split.
  - apply (insert_forall (λ t th, consumer th = true → t = c)); [intros H; eapply A; [exact Ht|by apply Hc]|].
    intros t' l _. apply A.
  - intros x Hx. destruct (B x (Hsub x Hx)) as (-> & th1 & ms & H1 & H2). split; [done|].
    destruct (decide (t = c)) as [->|Hne]; [|exists th1, ms; by rw lookup_insert_ne].
    exists th', ms. rw lookup_insert_eq Ht' //. assert (th = th1) as -> by congruence. done.
  - intros Hx He. destruct (Hp Hx He) as [Hw|[He' Hw]]; [exists t, th'; by rw lookup_insert_eq|].
    destruct (C (Hsub _ Hx) He') as (t1 & th1 & H1 & H2). exists t1, th1. rw lookup_insert_ne //. congruence.
Qed.


(** A step that leaves the list and the condition variable alone. *)
Lemma wake_inv_move s s' T t th th' : wake_inv c s T → T !! t = Some th →
  (consumer th' = true → consumer th = true) →
  bq_l (sh_q s') = bq_l (sh_q s) → bq_cond (sh_q s') = bq_cond (sh_q s) →
  (t ∈ bq_cond (sh_q s) → pc th' = pc th) → (wakes (pc th) = true → wakes (pc th') = true) →
  wake_inv c s' (<[t := th']> T).
Proof.
  intros Hi Ht Hc El Ec Hp Hw. eapply wake_inv_step; rw ?Ec; try done.
  rw /block_queue_is_empty El. intros _ He. destruct (wakes (pc th)); [left; by apply Hw|by right].
Qed.

(** A thread with another [pc] does not sleep. *)
Lemma not_asleep s T t th : wake_inv c s T → T !! t = Some th → (∀ ms, pc th ≠ QSleep ms) →
  t ∉ bq_cond (sh_q s).
Proof.
  intros Hi Ht Hp Hin. destruct (wi_cond _ _ _ Hi t Hin) as (_ & th1 & ms & H1 & H2).
  apply (Hp ms). congruence.
Qed.

Lemma lock_then_elem t p s p' s' : (p', s') ∈ lock_then t p s → p' = p ∧ ∃ m, s' = set_mtx m s.
Proof.
  rw /lock_then. destruct (mutex_lock _ _) as [m|]; [|by intros ?%not_elem_of_nil].
  intros [= -> ->]%list_elem_of_singleton. by eauto.
Qed.

Lemma wake_preserved M W spurious t th s th' s' T xs : (Z.of_nat (size M) < 2 ^ 31 - 1)%Z → bq_inv M W s T xs → wake_inv c s T → T !! t = Some th →
  (th', s') ∈ bq_exec spurious t th s → wake_inv c s' (<[t := th']> T).
Proof.
  destruct th as [p r rs]. intros HM Hb Hi Ht Hex.
  pose proof (λ th' s1, wake_inv_move s s1 T t _ th' Hi Ht) as Hmove.
  pose proof (not_asleep _ _ _ _ Hi Ht) as Hns. simpl in Hns.
  rw /bq_exec /= in Hex. destruct p; simpl in Hex;
    try (rw ?app_nil_r in Hex; apply list_elem_of_fmap in Hex as ([p' s1] & [= -> ->] & Hex));
    try (by apply not_elem_of_nil in Hex);
    try (apply lock_then_elem in Hex as (-> & m & ->));
    try (apply list_elem_of_singleton in Hex as [= -> ->]);
    try (apply Hmove; [trivial|reflexivity|reflexivity|by intros []%Hns|by trivial]).
  - destruct r as [|cl r]; [by apply not_elem_of_nil in Hex|]. apply list_elem_of_singleton in Hex as [= -> ->].
    apply Hmove; [by destruct cl|reflexivity|reflexivity|by intros []%Hns|done].
  - pose proof (qi_fact _ _ _ _ _ Hb _ _ Ht) as Hf. simpl in Hf.
    destruct (bq_push_list M W ltac:(assumption) _ _ _ _ _ _ _ _ Hb Ht) as (l & N & Hpush & _). rw Hpush in Hex.
    apply list_elem_of_singleton in Hex as [= -> ->].
    eapply wake_inv_step; [exact Hi|exact Ht|trivial|trivial|by intros []%Hns|].
    intros _ _. simpl. destruct isEmpty; [by left|right; split; [|done]].
    rw /block_queue_is_empty (ll_rep_is_empty _ _ _ (qi_rep _ _ _ _ _ Hb)). by symmetry.
  - apply Hmove; [by destruct isEmpty|reflexivity|reflexivity|by intros []%Hns|by destruct isEmpty].
  - apply list_elem_of_fmap in Hex as (c' & [= -> ->] & Hc').
    assert (Hempty : ∀ x, x ∉ c').
    { intros x Hx. rw /condition_signal in Hc'. case_decide as He.
      - apply list_elem_of_singleton in Hc' as ->. by apply not_elem_of_empty in Hx.
      - apply list_elem_of_fmap in Hc' as (y & -> & Hy%elem_of_elements). apply elem_of_difference in Hx as [Hx Hne].
        apply Hne, elem_of_singleton. rw (proj1 (wi_cond _ _ _ Hi _ Hx)). by rw (proj1 (wi_cond _ _ _ Hi _ Hy)). }
    eapply wake_inv_step; [exact Hi|exact Ht|trivial|..]; simpl; intros; exfalso; by eapply Hempty.
  - pose proof (qi_fact _ _ _ _ _ Hb _ _ Ht) as Hf. simpl in Hf.
    pose proof (wi_one _ _ _ Hi _ _ Ht eq_refl) as ->. split; simpl.
    + apply (insert_forall (λ t th, consumer th = true → t = c)); [done|]. intros t' l _. apply Hi.
    + intros x [->%elem_of_singleton|Hx]%elem_of_union.
      * split; [done|]. eexists _, ms. by rw lookup_insert_eq.
      * destruct (wi_cond _ _ _ Hi x Hx) as (-> & _). split; [done|]. eexists _, ms. by rw lookup_insert_eq.
    + rw /block_queue_is_empty /= (ll_rep_is_empty _ _ _ (qi_rep _ _ _ _ _ Hb)) Hf. done.
  - case_decide as Hc.
    + assert (Hgo : ∀ th', consumer th' = true → wake_inv c (set_cond (bq_cond (sh_q s) ∖ {[t]}) s) (<[t := th']> T)).
      { intros th' _. pose proof (wi_one _ _ _ Hi _ _ Ht eq_refl) as Hone.
        eapply wake_inv_step; [exact Hi|exact Ht|done|..]; simpl.
        - intros x Hx. by apply elem_of_difference in Hx as [? _].
        - intros Hx. apply elem_of_difference in Hx as [_ []]. by apply elem_of_singleton.
        - intros Hx. apply elem_of_difference in Hx as [_ []]. by apply elem_of_singleton. }
      apply elem_of_app in Hex as [Hex|Hex].
      all: lazymatch type of Hex with _ ∈ (if ?b then _ else _) => destruct b end; [|by apply not_elem_of_nil in Hex].
      all: apply list_elem_of_singleton in Hex as [= -> ->]; by apply Hgo.
    + apply lock_then_elem in Hex as (-> & m & ->). apply Hmove; [trivial|reflexivity|reflexivity|by intros ?|done].
  - destruct (bq_pop_list M W ltac:(assumption) _ _ _ _ _ _ Hb Ht) as (n & l & N & Hpop & _). rw Hpop in Hex.
    apply list_elem_of_singleton in Hex as [= -> ->].
    pose proof (wi_one _ _ _ Hi _ _ Ht eq_refl) as ->.
    eapply wake_inv_step; [exact Hi|exact Ht|done|trivial|by intros []%Hns|]. by intros []%Hns.
  - eapply wake_inv_step; [exact Hi|exact Ht|trivial|trivial|by intros []%Hns|done].
Qed.

Lemma wake_inv_init N T : (∀ t th, T !! t = Some th → consumer th = true → t = c) →
  wake_inv c (Shared create_block_queue N []) T.
Proof. intros HT. split; [done|..]; simpl; intros ?; [|intros _]; by intros ?%not_elem_of_empty || done. Qed.
End wake.

(** A thread that can go on, without a spurious wake-up. *)
Definition can_step (s : shared) (T : gmap loc thread) : Prop :=
  ∃ t th x, T !! t = Some th ∧ x ∈ bq_exec false t th s.

Lemma some_elem {A} (xs : list A) : xs ≠ [] → ∃ x, x ∈ xs.
Proof. destruct xs as [|x xs]; [done|]. exists x. left. Qed.

Lemma inside_steps s t th : inside th = true → ∃ x, x ∈ bq_exec false t th s.
Proof.
  intros Hin. apply some_elem. destruct th as [p r rs]. rw /inside /= in Hin.
  destruct p; try discriminate Hin; rw /bq_exec /=; repeat case_match; done.
Qed.

Lemma signals_steps s t th : wakes (pc th) = true → ∃ x, x ∈ bq_exec false t th s.
Proof.
  intros Hw. apply some_elem. destruct th as [p r rs]. rw /= in Hw. destruct p; try discriminate Hw; [done|].
  rw /bq_exec /= /condition_signal. case_decide as Hc; [done|].
  destruct (elements (bq_cond (sh_q s))) eqn:He; [|done]. by apply elements_empty_inv, leibniz_equiv in He.
Qed.

(** When the mutex is free, a thread is through, asleep, or can go on. *)
Lemma free_steps s t th : bq_mtx (sh_q s) = mutex_create → pc th ≠ Crashed →
  (pc th = Outside ∧ prog th = []) ∨ (t ∈ bq_cond (sh_q s) ∧ ∃ ms, pc th = QSleep ms) ∨ ∃ x, x ∈ bq_exec false t th s.
Proof.
  intros Hm Hc. destruct (inside th) eqn:Hin; [right; right; by apply inside_steps|].
  destruct (wakes (pc th)) eqn:Hw; [right; right; by apply signals_steps|].
  assert (Hlock : ∀ p, lock_then t p s = [(p, set_mtx (Mutex (Some t) 1) s)]) by (intros p; by rw /lock_then Hm).
  destruct th as [p r rs]. rw /inside /= in Hin. simpl in *.
  destruct p; try done; rw /bq_exec /= ?Hlock.
  1: destruct r; [by left|].
  all: try (right; right; eexists; by left).
  destruct (decide (t ∈ bq_cond (sh_q s))); [by right; left; eauto|].
  right. right. eexists. by left.
Qed.

(** C30: with a single consumer no wake-up is lost.  When only the thread [c]
    pops, under every schedule: as long as not all calls have returned some
    thread can go on, without a spurious wake-up, unless the queue is empty and
    [c] is the one that has not returned, asleep in [block_queue_pop].  So a
    consumer never sleeps on while there is something to pop. *)
Theorem no_wakeup_lost spurious (M : gset loc) N (T0 T : gmap loc thread) s c :
  (Z.of_nat (size M) < 2 ^ 31 - 1)%Z → programs_ok M N T0 →
  (∀ t th, T0 !! t = Some th → consumer th = true → t = c) →
  rtc (step (bq_exec spurious)) (Shared create_block_queue N [], T0) (s, T) →
  can_step s T ∨
  ∀ t th, T !! t = Some th → (pc th = Outside ∧ prog th = []) ∨
    (t = c ∧ (∃ ms, pc th = QSleep ms) ∧ block_queue_is_empty s = true).
Proof.
  intros HM H0 Hone Hsteps.
  assert ((∃ xs, bq_inv M (pushes_of T0) s T xs) ∧ wake_inv c s T) as [[xs Hb] Hw].
  { revert Hsteps. apply (invariant_rtc _ (λ s T, (∃ xs, bq_inv M (pushes_of T0) s T xs) ∧ wake_inv c s T)).
    - intros t th s1 th' s' T1 [[xs Hi] Hw] Ht Hex. split; [by eapply bq_preserved|by eapply wake_preserved].
    - split; [exists []; by apply bq_inv_init|by apply wake_inv_init]. }
  destruct (qi_mtx _ _ _ _ _ Hb) as [(Hm & _)|(t & th & _ & Ht & Hth & _)].
  2:{ left. destruct (inside_steps s t th Hth) as [x Hx]. by exists t, th, x. }
  destruct (decide (c ∈ bq_cond (sh_q s) ∧ block_queue_is_empty s = false)) as [[Hc He]|Hno].
  { left. destruct (wi_pend _ _ _ Hw Hc He) as (t & th & Ht & Hth).
    destruct (signals_steps s t th Hth) as [x Hx]. by exists t, th, x. }
  destruct (decide (map_Forall (λ t th, bq_exec false t th s = []) T)) as [Hall|Hex].
  2:{ left. apply map_not_Forall in Hex as (t & th & Ht & Hx); [|apply _].
      apply some_elem in Hx as [x Hx]. by exists t, th, x. }
  right. intros t th Ht. pose proof (qi_fact _ _ _ _ _ Hb _ _ Ht) as Hf.
  destruct (free_steps s t th Hm) as [?|[[Hc Hms]|[x Hx]]]; [by intros E; rw E in Hf|by left|right|].
  - destruct (wi_cond _ _ _ Hw t Hc) as [-> _]. split; [done|]. split; [done|].
    destruct (block_queue_is_empty s) eqn:He; [done|]. by destruct Hno.
  - rw (Hall _ _ Ht) in Hx. by apply not_elem_of_nil in Hx.
Qed.

Lemma no_wakeup_lost_witness : ∃ s T,
  schedule (bq_exec false) (replicate 4 (1%positive, 0) ++ replicate 4 (2%positive, 0))
    (Shared create_block_queue two_nodes [], one_each) = Some (s, T) ∧
  (pc <$> T !! 1%positive) = Some (QSleep (-1)) ∧ block_queue_is_empty s = false ∧
  (can_step s T ∨ ∀ t th, T !! t = Some th → (pc th = Outside ∧ prog th = []) ∨
    (t = 1%positive ∧ (∃ ms, pc th = QSleep ms) ∧ block_queue_is_empty s = true)).
Proof.
  assert (∃ s T, schedule (bq_exec false) (replicate 4 (1%positive, 0) ++ replicate 4 (2%positive, 0))
    (Shared create_block_queue two_nodes [], one_each) = Some (s, T) ∧
    (pc <$> T !! 1%positive) = Some (QSleep (-1)) ∧ block_queue_is_empty s = false) as (s & T & Hs & Hr & He).
  { eexists _, _. split_and!; by vm_compute. }
  exists s, T. split; [exact Hs|]. split; [exact Hr|]. split; [exact He|].
  apply (no_wakeup_lost false {[7%positive; 8%positive]} two_nodes one_each T s).
  - by vm_compute.
  - apply one_each_ok.
  - intros t th [(-> & ->)|(-> & ->)]%one_each_cases; [reflexivity|discriminate].
  - eapply schedule_steps. exact Hs.
Defined.

(** With two consumers a wake-up can be lost: the second push finds the list not
    empty, because the consumer that the first one has woken has not run yet,
    and does not signal.  The second consumer sleeps on although there is a node,
    and nobody can go on. *)
Definition two_consumers : gmap loc thread :=
  {[1%positive := Thread Outside [Pop (-1)] []; 2%positive := Thread Outside [Pop (-1)] [];
    3%positive := Thread Outside [Push 7; Push 8] []]}.

Definition lost_run : list (loc * nat) :=
  replicate 4 (1%positive, 0) ++ replicate 4 (2%positive, 0) ++ replicate 5 (3%positive, 0) ++ (3%positive, 1) :: replicate 5 (3%positive, 0) ++ replicate 6 (1%positive, 0).

Lemma two_consumers_lose_wakeup :
  (λ c, (block_queue_is_empty (fst c), pc <$> snd c !! 2%positive, results <$> snd c !! 1%positive,
         omap (λ t, th ← snd c !! t; head (bq_exec false t th (fst c))) [1%positive; 2%positive; 3%positive])) <$>
    schedule (bq_exec false) lost_run (Shared create_block_queue two_nodes [], two_consumers) =
  Some (false, Some (QSleep (-1)), Some [(POP_SUCCESS, Some 7%positive)], []).
Proof. by vm_compute. Qed.

(** A [force_wakeup] that finds no thread asleep is not seen by the next pop,
    which tests the flag only after it has waited. *)
Lemma force_wakeup_before_pop :
  (λ c, (force_wakeup (sh_q (fst c)), pc <$> snd c !! 1%positive, (λ th, bq_exec false 1%positive th (fst c)) <$> snd c !! 1%positive)) <$>
    schedule (bq_exec false) (replicate 5 (2%positive, 0) ++ replicate 4 (1%positive, 0))
      (Shared create_block_queue ∅ [],
       {[1%positive := Thread Outside [Pop (-1)] []; 2%positive := Thread Outside [ForceWakeup] []]}) =
  Some (1%Z, Some (QSleep (-1)), Some []).
Proof. by vm_compute. Qed.

(** The nodes of a list that [block_queue_clear] has emptied keep their links, so
    a later push of such a node is ignored. *)
Lemma push_after_clear :
  (λ c, (replay (sh_hist (fst c)) [], block_queue_is_empty (fst c))) <$>
    schedule (bq_exec false) (replicate 20 (1%positive, 0))
      (Shared create_block_queue two_nodes [],
       {[1%positive := Thread Outside [Push 7; Push 8; Clear; Push 7] []]}) =
  Some (Some [7%positive], true).
Proof. by vm_compute. Qed.
