(* ===== verification/BlockAlloc.v ===== *)
(** * The block allocator ([src/src/block_obj_allocator.c])

    Blocks of one size are cut out of chunks of a megabyte.  The free blocks of a
    chunk are linked through their first words; a [free_list] holds such a chain.
    A thread allocates from the free lists of its [thread_allocator] and gives
    full ones back to the central allocator.

    A block is named by its chunk and its offset.  The lists of [free_list]s and
    of [thread_allocator]s are [link_list]s through the first fields of these
    structs.  A call is one step: with [mtx] the lock makes the accesses to the
    central list atomic, and the rest of a call is private to its thread. *)
From S2P Require Import Prelude LinkList WPacket.

#[local] Open Scope Z_scope.

(** ** The code *)

Abbreviation block := (loc * Z)%type.

Record free_list := FreeList {
  fl_size : Z;
  init_size : Z;
  fl_head : option block;
  fl_tail : option block;
  mem : loc;
}.

Record thread_allocator := ThreadAllocator {
  ta_free_list : link_list;
  _recover : link_list;
  free_size : Z;
  collect_factor : Z;
}.

Record block_obj_allocator := BlockObjAllocator {
  t_key : gmap loc loc;           (* the value of the key in each thread *)
  ba_free_list : link_list;
  mtx : bool;                     (* whether there is a lock *)
  _thread_allocators : link_list;
  obj_size : Z;
}.

(** The memory: the [next] fields of the structs, the structs, the chunks, and
    the first words of the blocks of the chunks. *)
Record heap := Heap {
  h_nexts : nexts;
  h_fl : gmap loc free_list;
  h_ta : gmap loc thread_allocator;
  h_chunks : gset loc;
  h_links : gmap block (option block);
  h_ba : block_obj_allocator;
}.

Definition set_nexts (v : nexts) (h : heap) : heap := Heap v (h_fl h) (h_ta h) (h_chunks h) (h_links h) (h_ba h).
Definition set_fl (v : gmap loc free_list) (h : heap) : heap :=
  Heap (h_nexts h) v (h_ta h) (h_chunks h) (h_links h) (h_ba h).
Definition set_ta (v : gmap loc thread_allocator) (h : heap) : heap :=
  Heap (h_nexts h) (h_fl h) v (h_chunks h) (h_links h) (h_ba h).
Definition set_chunks (v : gset loc) (h : heap) : heap := Heap (h_nexts h) (h_fl h) (h_ta h) v (h_links h) (h_ba h).
Definition set_links (v : gmap block (option block)) (h : heap) : heap :=
  Heap (h_nexts h) (h_fl h) (h_ta h) (h_chunks h) v (h_ba h).
Definition set_ba (v : block_obj_allocator) (h : heap) : heap :=
  Heap (h_nexts h) (h_fl h) (h_ta h) (h_chunks h) (h_links h) v.

Definition on_nexts {A} : M nexts A → M heap A := zoom h_nexts set_nexts.
Definition on_fl {A} : M (gmap loc free_list) A → M heap A := zoom h_fl set_fl.
Definition on_ta {A} : M (gmap loc thread_allocator) A → M heap A := zoom h_ta set_ta.

Definition set_key (v : gmap loc loc) (b : block_obj_allocator) : block_obj_allocator :=
  BlockObjAllocator v (ba_free_list b) (mtx b) (_thread_allocators b) (obj_size b).
Definition set_central (v : link_list) (b : block_obj_allocator) : block_obj_allocator :=
  BlockObjAllocator (t_key b) v (mtx b) (_thread_allocators b) (obj_size b).
Definition set_threads (v : link_list) (b : block_obj_allocator) : block_obj_allocator :=
  BlockObjAllocator (t_key b) (ba_free_list b) (mtx b) v (obj_size b).
Definition ta_set_free_list (v : link_list) (a : thread_allocator) : thread_allocator :=
  ThreadAllocator v (_recover a) (free_size a) (collect_factor a).
Definition ta_set_recover (v : link_list) (a : thread_allocator) : thread_allocator :=
  ThreadAllocator (ta_free_list a) v (free_size a) (collect_factor a).
Definition ta_set_free_size (v : Z) (a : thread_allocator) : thread_allocator :=
  ThreadAllocator (ta_free_list a) (_recover a) v (collect_factor a).

(** The first word of a block. *)
Definition load_link (p : block) : M heap (option block) := λ h,
  match h_links h !! p with Some q => Ok (q, h) | None => Fault Dangling end.
Definition store_link (p : block) (q : option block) : M heap () := λ h,
  match h_links h !! p with Some _ => Ok (tt, set_links (<[p := q]> (h_links h)) h) | None => Fault Dangling end.

(** *** Free lists *)

Definition free_list_get (f : loc) : M heap block :=
  fl ← on_fl (hload (Some f));
  match fl_head fl with
  | None => fail NullDeref
  | Some ptr =>
      next ← load_link ptr;
      let tail := match next with None => None | Some _ => fl_tail fl end in
      on_fl (hstore (Some f) (FreeList (u32 (fl_size fl - 1)) (init_size fl) next tail (mem fl)));;
      mret ptr
  end.

Definition free_list_put (f : loc) (ptr : block) : M heap () :=
  fl ← on_fl (hload (Some f));
  store_link ptr None;;
  match fl_tail fl with
  | Some t =>
      store_link t (Some ptr);;
      on_fl (hstore (Some f) (FreeList (u32 (fl_size fl + 1)) (init_size fl) (fl_head fl) (Some ptr) (mem fl)))
  | None =>
      on_fl (hstore (Some f) (FreeList (u32 (fl_size fl + 1)) (init_size fl) (Some ptr) (Some ptr) (mem fl)))
  end.

Definition DEFAULT_BLOCK_SIZE : Z := 1024 * 1024.

(** [calloc] of a [free_list], of a [thread_allocator], and of a chunk of [n]
    blocks of [size] bytes. *)
Definition alloc_free_list : M heap loc :=
  h ← get;
  let f := fresh (dom (h_nexts h)) in
  put (set_nexts (<[f := NULL]> (h_nexts h)) (set_fl (<[f := FreeList 0 0 None None 1%positive]> (h_fl h)) h));;
  mret f.
Definition alloc_thread_allocator : M heap loc :=
  h ← get;
  let a := fresh (dom (h_nexts h)) in
  put (set_nexts (<[a := NULL]> (h_nexts h))
         (set_ta (<[a := ThreadAllocator create_link_list create_link_list 0 0]> (h_ta h)) h));;
  mret a.
Definition chunk_blocks (m : loc) (n : nat) (size : Z) : list block :=
  (λ i, (m, Z.of_nat i * size)) <$> seq 0 n.
Definition alloc_chunk (n : nat) (size : Z) : M heap loc :=
  h ← get;
  let m := fresh (h_chunks h) in
  put (set_chunks ({[m]} ∪ h_chunks h)
         (set_links (list_to_map ((λ p, (p, None)) <$> chunk_blocks m n size) ∪ h_links h) h));;
  mret m.

(** The loop over the blocks that are left, from the [i]-th on. *)
Fixpoint put_blocks (n : nat) (f m : loc) (i size : Z) : M heap () :=
  match n with
  | O => mret tt
  | S n => free_list_put f (m, i * size);; put_blocks n f m (i + 1) size
  end.

Definition creat_new_freelist (size : Z) : M heap loc :=
  if size =? 0 then fail DivByZero
  else
    let n := u32 (DEFAULT_BLOCK_SIZE / size) in
    f ← alloc_free_list;
    m ← alloc_chunk (Z.to_nat n) size;
    on_fl (hmodify (Some f) (λ fl, FreeList n n (fl_head fl) (fl_tail fl) m));;
    put_blocks (Z.to_nat n) f m 0 size;;
    on_fl (hmodify (Some f) (λ fl, FreeList n (init_size fl) (fl_head fl) (fl_tail fl) (mem fl)));;
    mret f.

(** *** The central allocator *)

Definition pop_central : M heap ptr :=
  h ← get;
  r ← on_nexts (link_list_pop (ba_free_list (h_ba h)));
  modify (λ h, set_ba (set_central (snd r) (h_ba h)) h);;
  mret (fst r).

Definition central_get_freelist : M heap loc :=
  f ← pop_central;
  match f with
  | Some f => mret f
  | None => h ← get; creat_new_freelist (obj_size (h_ba h))
  end.

Definition give_back_to_central (f : loc) : M heap () :=
  h ← get;
  l ← on_nexts (link_list_push_back (ba_free_list (h_ba h)) f);
  modify (λ h, set_ba (set_central l (h_ba h)) h).

(** *** Thread allocators *)

(** [LINK_LIST_PUSH_BACK] to, and [link_list_pop] from, a list of [a]. *)
Definition push_free (a : loc) (f : loc) : M heap () :=
  ta ← on_ta (hload (Some a));
  l ← on_nexts (link_list_push_back (ta_free_list ta) f);
  on_ta (hmodify (Some a) (ta_set_free_list l)).
Definition push_recover (a : loc) (f : loc) : M heap () :=
  ta ← on_ta (hload (Some a));
  l ← on_nexts (link_list_push_back (_recover ta) f);
  on_ta (hmodify (Some a) (ta_set_recover l)).
Definition pop_free (a : loc) : M heap ptr :=
  ta ← on_ta (hload (Some a));
  r ← on_nexts (link_list_pop (ta_free_list ta));
  on_ta (hmodify (Some a) (ta_set_free_list (snd r)));;
  mret (fst r).
Definition pop_recover (a : loc) : M heap ptr :=
  ta ← on_ta (hload (Some a));
  r ← on_nexts (link_list_pop (_recover ta));
  on_ta (hmodify (Some a) (ta_set_recover (snd r)));;
  mret (fst r).
Definition add_free_size (a : loc) (n : Z) : M heap () :=
  on_ta (hmodify (Some a) (λ ta, ta_set_free_size (u32 (free_size ta + n)) ta)).

(** The free list that [thread_allocator_alloc] takes a block from. *)
Definition pick_free_list (a : loc) : M heap loc :=
  ta ← on_ta (hload (Some a));
  if free_size ta =? 0 then
    f ← central_get_freelist;
    push_free a f;;
    fl ← on_fl (hload (Some f));
    add_free_size a (fl_size fl);;
    mret f
  else
    match link_list_head (ta_free_list ta) with
    | Some f => mret f
    | None =>
        f ← pop_recover a;
        match f with
        | Some f => push_free a f;; mret f
        | None => fail NullDeref
        end
    end.

Definition thread_allocator_alloc (a : loc) : M heap block :=
  f ← pick_free_list a;
  ptr ← free_list_get f;
  add_free_size a (-1);;
  fl ← on_fl (hload (Some f));
  (if fl_size fl =? 0 then pop_free a;; push_recover a f else mret tt);;
  mret ptr.

(** The free list at the head of [_recover] is full. *)
Definition retire (a f : loc) (fl : free_list) : M heap () :=
  pop_recover a;;
  ta ← on_ta (hload (Some a));
  if collect_factor ta <=? free_size ta then
    give_back_to_central f;; add_free_size a (- fl_size fl)
  else push_free a f.

Definition thread_allocator_dealloc (a : loc) (ptr : block) : M heap () :=
  ta ← on_ta (hload (Some a));
  match link_list_head (_recover ta) with
  | Some f =>
      free_list_put f ptr;;
      add_free_size a 1;;
      fl ← on_fl (hload (Some f));
      if fl_size fl =? init_size fl then retire a f fl else mret tt
  | None =>
      match link_list_head (ta_free_list ta) with
      | None => fail AssertFailed
      | Some f => free_list_put f ptr;; add_free_size a 1
      end
  end.

Definition create_thread_allocator : M heap loc :=
  a ← alloc_thread_allocator;
  h ← get;
  if obj_size (h_ba h) =? 0 then fail DivByZero
  else
    on_ta (hmodify (Some a) (λ ta, ThreadAllocator (ta_free_list ta) (_recover ta) (free_size ta)
                                     (u32 (DEFAULT_BLOCK_SIZE * 2 / obj_size (h_ba h)))));;
    l ← on_nexts (link_list_push_back (_thread_allocators (h_ba h)) a);
    modify (λ h, set_ba (set_threads l (h_ba h)) h);;
    mret a.

(** *** The allocator interface, called by the thread [t] *)

(** [pthread_getspecific] with a lock, and the only thread allocator without. *)
Definition own_allocator (t : loc) (b : block_obj_allocator) : ptr :=
  if mtx b then t_key b !! t else link_list_head (_thread_allocators b).

Definition block_obj_al_alloc (t : loc) : M heap block :=
  h ← get;
  a ← match own_allocator t (h_ba h) with
      | Some a => mret a
      | None =>
          a ← create_thread_allocator;
          (if mtx (h_ba h) then modify (λ h, set_ba (set_key (<[t := a]> (t_key (h_ba h))) (h_ba h)) h) else mret tt);;
          mret a
      end;
  thread_allocator_alloc a.

Definition block_obj_al_dealloc (t : loc) (ptr : block) : M heap () :=
  h ← get;
  match own_allocator t (h_ba h) with
  | Some a => thread_allocator_dealloc a ptr
  | None => fail AssertFailed
  end.

(** [free] of a chunk. *)
Definition free_chunk (m : loc) : M heap () :=
  h ← get;
  if decide (m ∈ h_chunks h) then
    put (set_chunks (h_chunks h ∖ {[m]}) (set_links (filter (λ x, x.1.1 ≠ m) (h_links h)) h))
  else fail BadFree.

(** [free] of a struct that starts with a [list_node]. *)
Definition release_body (l : ptr) : M heap (ptr + ()) :=
  match l with
  | None => mret (inr tt)
  | Some f =>
      next ← on_nexts (hload (Some f));
      fl ← on_fl (hload (Some f));
      free_chunk (mem fl);;
      on_fl (hfree (Some f));; on_nexts (hfree (Some f));;
      mret (inl next)
  end.
Definition release_freelist (flist : link_list) : M heap () :=
  h ← get;
  loop (S (size (h_fl h))) release_body (link_list_head flist).

Definition destroy_thread_allocator (a : loc) : M heap () :=
  ta ← on_ta (hload (Some a));
  release_freelist (ta_free_list ta);;
  release_freelist (_recover ta);;
  on_ta (hfree (Some a));; on_nexts (hfree (Some a)).

Definition destroy_threads_body (l : ptr) : M heap (ptr + ()) :=
  match l with
  | None => mret (inr tt)
  | Some a =>
      next ← on_nexts (hload (Some a));
      destroy_thread_allocator a;;
      mret (inl next)
  end.

(** The allocator itself is gone afterwards. *)
Definition destroy_block_obj_al : M heap () :=
  h ← get;
  loop (S (size (h_ta h))) destroy_threads_body (link_list_head (_thread_allocators (h_ba h)));;
  release_freelist (ba_free_list (h_ba h)).

(** [1 << k] is an [int]. *)
Definition create_block_obj_allocator (mt : bool) (size : Z) : heap :=
  let size := if size <? 8 then 8 else size in
  let k := GetK size in
  Heap ∅ ∅ ∅ ∅ ∅ (BlockObjAllocator ∅ create_link_list mt create_link_list (u32 (i32 (Z.shiftl 1 k)))).

(** ** Chains of free blocks *)

(** Every block of [bs] holds the address of the next one. *)
Definition bchain (K : gmap block (option block)) (bs : list block) : Prop :=
  ∀ i p, bs !! i = Some p → K !! p = Some (bs !! S i).

Section bchain.
Implicit Types (K : gmap block (option block)) (bs : list block) (p : block).

Lemma bchain_nil K : bchain K [].
Proof. intros i p. by rw lookup_nil. Qed.

Lemma bchain_frame K K' bs : bchain K bs → (∀ p, p ∈ bs → K' !! p = K !! p) → bchain K' bs.
Proof. intros H HK i p Hi. rw HK; [by eapply list_elem_of_lookup_2|by apply H]. Qed.

Lemma bchain_cons K p bs : bchain K (p :: bs) → K !! p = Some (head bs) ∧ bchain K bs.
Proof.
  intros H. split; [|intros i q Hi; by apply (H (S i))].
  rw (H 0%nat p) //= head_lookup //.
Qed.

Lemma bchain_snoc K bs p : bchain K bs → p ∉ bs → is_Some (K !! p) →
  bchain (match last bs with Some t => <[t := Some p]> (<[p := None]> K) | None => <[p := None]> K end) (bs ++ [p]).
Proof.
  intros H Hp HK. destruct bs as [|t bs _] using rev_ind; simpl.
  - intros [|i] q; simpl; [|by rw lookup_nil]. intros [= <-]. by rw lookup_insert_eq.
  - rw last_snoc. assert (Hnt : p ≠ t) by (intros ->; apply Hp, elem_of_app; right; left).
    intros i q Hi. destruct (decide (i < length (bs ++ [t]))%nat) as [Hlt|Hge].
    + rw lookup_app_l // in Hi. assert (q ≠ p) by (intros ->; apply Hp; by eapply list_elem_of_lookup_2).
      destruct (decide (q = t)) as [->|Hqt].
      * rw lookup_insert_eq. f_equal. symmetry. 
        destruct (decide (i < length bs)%nat) as [Hl|Hl].
        -- rw lookup_app_l // in Hi. pose proof (H i t) as Hi'. rw lookup_app_l // in Hi'. specialize (Hi' Hi).
           pose proof (H (length bs) t ltac:(by rw list_lookup_middle)) as Hend. rw Hi' in Hend. injection Hend as He.
           rw (lookup_ge_None_2 (bs ++ [t]) (S (length bs))) in He; [rw length_app /=; lia|].
           apply lookup_ge_None in He. rw length_app /= in He. lia.
        -- rw length_app /= in Hlt. rw lookup_app_r; rw length_app /=; [lia|].
           by replace (S i - (length bs + 1))%nat with 0%nat by lia.
      * rw !lookup_insert_ne //. rw (H i q Hi). f_equal.
        destruct (decide (S i < length (bs ++ [t]))%nat); [by rw (lookup_app_l (bs ++ [t]))|].
        assert (i = length bs) as -> by (rw length_app /= in Hlt; rw length_app /= in n; lia).
        rw list_lookup_middle // in Hi. congruence.
    + rw lookup_app_r in Hi; [lia|]. destruct (i - length (bs ++ [t]))%nat as [|k] eqn:Hk; simpl in Hi; [|by rw lookup_nil in Hi].
      injection Hi as <-. rw lookup_insert_ne; [done|]. rw lookup_insert_eq. f_equal. symmetry.
      apply lookup_ge_None_2. rw !length_app /=. rw length_app /= in Hk. rw length_app /= in Hge. lia.
Qed.
End bchain.

Lemma concat_perm {A} (ls1 ls2 : list (list A)) : ls1 ≡ₚ ls2 → concat ls1 ≡ₚ concat ls2.
Proof.
  induction 1 as [|l ls1 ls2 _ IH|l1 l2 ls|ls1 ls2 ls3 _ IH1 _ IH2]; simpl.
  - done.
  - by rw IH.
  - by rw !app_assoc (Permutation_app_comm l1).
  - by rw IH1.
Qed.

Lemma elem_of_concat_list {A} (x : A) ls : x ∈ concat ls ↔ ∃ l, l ∈ ls ∧ x ∈ l.
Proof. setoid_rewrite list_elem_of_In. apply in_concat. Qed.

(** ** The pool of free lists *)

(** A free list and the blocks that it holds. *)
Abbreviation fblocks := (loc * list block)%type.

Section pool.
(** The blocks of a chunk, and how far apart they are. *)
Context (n0 : nat) (osz : Z) (a : loc).
Implicit Types (h : heap) (f : loc) (bs : list block) (X F R C all : list fblocks).

Record fl_rep h (x : fblocks) : Prop := {
  fr_fl : ∃ m, h_fl h !! fst x = Some (FreeList (Z.of_nat (length (snd x))) (Z.of_nat n0) (head (snd x)) (last (snd x)) m) ∧
    m ∈ h_chunks h;
  fr_chain : bchain (h_links h) (snd x);
  fr_dom : ∀ p, p ∈ snd x → p ∈ dom (h_links h);
}.

(** The free lists there are: all different, with different blocks. *)
Record pool h all : Prop := {
  po_lists : NoDup (fst <$> all);
  po_rep : Forall (fl_rep h) all;
  po_blocks : NoDup (concat (snd <$> all));
  po_self : a ∉ (fst <$> all);
  po_room : Z.of_nat (length all) < 2 ^ 31 - 1;
}.

#[export] Instance pool_perm h : Proper ((≡ₚ) ==> impl) (pool h).
Proof.
  intros l1 l2 Hl [A B C D E]. split.
  - by rw -Hl.
  - by rw -Hl.
  - by rw -(concat_perm _ _ (fmap_Permutation snd _ _ Hl)).
  - by rw -Hl.
  - by rw -Hl.
Qed.

(** [X] are the free lists that are in no list; [F] and [R] are those of the
    thread allocator [a], and [C] those of the central one. *)
Record rep h (fs cf : Z) X F R C : Prop := {
  re_pool : pool h (X ++ F ++ R ++ C);
  re_ta : ∃ ta, h_ta h !! a = Some ta ∧ free_size ta = fs ∧ collect_factor ta = cf ∧
    ll_rep (h_nexts h) (ta_free_list ta) (fst <$> F) ∧ ll_rep (h_nexts h) (_recover ta) (fst <$> R);
  re_central : ll_rep (h_nexts h) (ba_free_list (h_ba h)) (fst <$> C);
  re_threads : ll_rep (h_nexts h) (_thread_allocators (h_ba h)) [a];
  re_float : ∀ f, f ∈ (fst <$> X) → h_nexts h !! f = Some NULL;
}.
(** What the steps on the lists leave alone. *)
Definition same_blocks h h' : Prop :=
  h_fl h' = h_fl h ∧ h_chunks h' = h_chunks h ∧ h_links h' = h_links h ∧ obj_size (h_ba h') = obj_size (h_ba h) ∧
  mtx (h_ba h') = mtx (h_ba h).

Lemma pool_same h h' all : same_blocks h h' → pool h all → pool h' all.
Proof.
  intros (Hf & Hc & Hl & _) [A B C D E]. split; try done. eapply Forall_impl; [exact B|].
  intros x [F1 F2 F3]. split; by rw ?Hf ?Hc ?Hl.
Qed.

Lemma pool_apart h X F R C : pool h (X ++ F ++ R ++ C) → ∀ f,
  (f ∈ X.*1 → f ∉ F.*1 ∧ f ∉ R.*1 ∧ f ∉ C.*1 ∧ f ≠ a) ∧ (f ∈ F.*1 → f ∉ R.*1 ∧ f ∉ C.*1 ∧ f ≠ a) ∧
  (f ∈ R.*1 → f ∉ C.*1 ∧ f ≠ a) ∧ (f ∈ C.*1 → f ≠ a).
Proof.
  intros [Hnd _ _ Ha _] f. rw !fmap_app in Hnd. rw !fmap_app in Ha.
  apply NoDup_app in Hnd as (_ & H1 & (_ & H2 & (_ & H3 & _)%NoDup_app)%NoDup_app).
  specialize (H1 f). specialize (H2 f). specialize (H3 f). rw !elem_of_app in H1. rw elem_of_app in H2.
  rw !elem_of_app in Ha. split_and!; intros Hf; split_and?; try tauto; intros ->; tauto.
Qed.

(** The steps on one list, in terms of what happens to its nodes. *)
Lemma ll_frame_other N N' ns l xs : nexts_frame ns N N' → ll_rep N l xs → (∀ x, x ∈ xs → x ∉ ns) → ll_rep N' l xs.
Proof. intros Hf Hl Hx. eapply ll_rep_frame; [exact Hf| |exact Hl]. intros x H1 H2. by apply (Hx x). Qed.

Lemma room_fst (xs : list fblocks) : Z.of_nat (length xs) < 2 ^ 31 - 1 → ll_room (fst <$> xs).
Proof. rw /ll_room length_fmap. done. Qed.

Section moves.
Context (h : heap) (fs cf : Z) (X F R C : list fblocks) (x : fblocks).

Lemma float_frame N' ns : nexts_frame ns (h_nexts h) N' → (∀ f, f ∈ X.*1 → f ∉ ns) →
  (∀ f, f ∈ X.*1 → h_nexts h !! f = Some NULL) → ∀ f, f ∈ X.*1 → N' !! f = Some NULL.
Proof. intros [_ Hf] Hx Hn f Hin. rw Hf; [by apply Hx|by apply Hn]. Qed.

Lemma pop_free_ok : rep h fs cf X (x :: F) R C →
  wp (pop_free a) h (λ r h', r = Some (fst x) ∧ rep h' fs cf (x :: X) F R C ∧ same_blocks h h').
Proof.
  intros [Hp (ta & Ht & Hfs & Hcf & HF & HR) HC HT HX]. pose proof (pool_apart _ _ _ _ _ Hp) as Hap.
  rw /pop_free. wp_step. apply wp_zoom. eapply wp_hload; [exact Ht|]. 
  wp_step. apply wp_zoom. eapply wp_mono; [apply (ll_pop_ok _ _ _ HF)|].
  { rw length_fmap. pose proof (po_room _ _ Hp) as Hr. rw !length_app in Hr. lia. }
  intros [r l] N' (Hr & Hl & Hfr & Hx). simpl in Hr, Hl. wp_step. apply wp_zoom. eapply wp_hmodify; [exact Ht|].
  wp_step. split; [done|]. split; [|done]. split; simpl.
  - apply (pool_same h); [done|]. by rw -(Permutation_middle X (F ++ R ++ C) x) in Hp.
  - eexists. rw lookup_insert_eq. split; [done|]. simpl. split_and!; try done.
    eapply ll_frame_other; [exact Hfr|done|]. intros y Hy HyF. by apply (Hap y) in HyF as [].
  - eapply ll_frame_other; [exact Hfr|done|]. intros y Hy HyF. by apply (Hap y) in HyF as (_ & ? & _).
  - eapply ll_frame_other; [exact Hfr|done|]. intros y ->%list_elem_of_singleton HyF. by apply (Hap a) in HyF as (_ & _ & ?).
  - intros f [->|Hf]%elem_of_cons; [by apply Hx|]. eapply float_frame; [exact Hfr| |exact HX|exact Hf].
    intros f' Hf'. by apply (Hap f').
Qed.

Lemma pop_recover_ok : rep h fs cf X F (x :: R) C →
  wp (pop_recover a) h (λ r h', r = Some (fst x) ∧ rep h' fs cf (x :: X) F R C ∧ same_blocks h h').
Proof.
  intros [Hp (ta & Ht & Hfs & Hcf & HF & HR) HC HT HX]. pose proof (pool_apart _ _ _ _ _ Hp) as Hap.
  rw /pop_recover. wp_step. apply wp_zoom. eapply wp_hload; [exact Ht|].
  wp_step. apply wp_zoom. eapply wp_mono; [apply (ll_pop_ok _ _ _ HR)|].
  { rw length_fmap. pose proof (po_room _ _ Hp) as Hr. rw !length_app in Hr. lia. }
  intros [r l] N' (Hr & Hl & Hfr & Hx). simpl in Hr, Hl. wp_step. apply wp_zoom. eapply wp_hmodify; [exact Ht|].
  wp_step. split; [done|]. split; [|done]. split; simpl.
  - apply (pool_same h); [done|]. rw (app_assoc X F) -(Permutation_middle (X ++ F) (R ++ C) x) -(app_assoc X F) in Hp. exact Hp.
  - eexists. rw lookup_insert_eq. split; [done|]. simpl. split_and!; try done.
    eapply ll_frame_other; [exact Hfr|done|]. intros y Hy HyR. by apply (Hap y) in Hy as [].
  - eapply ll_frame_other; [exact Hfr|done|]. intros y Hy HyR. by apply (Hap y) in HyR as [].
  - eapply ll_frame_other; [exact Hfr|done|]. intros y ->%list_elem_of_singleton HyR. by apply (Hap a) in HyR as (_ & ?).
  - intros f [->|Hf]%elem_of_cons; [by apply Hx|]. eapply float_frame; [exact Hfr| |exact HX|exact Hf].
    intros f' Hf'. by apply (Hap f') in Hf' as (_ & ? & _).
Qed.

Lemma pop_central_ok : rep h fs cf X F R (x :: C) →
  wp pop_central h (λ r h', r = Some (fst x) ∧ rep h' fs cf (x :: X) F R C ∧ same_blocks h h').
Proof.
  intros [Hp (ta & Ht & Hfs & Hcf & HF & HR) HC HT HX]. pose proof (pool_apart _ _ _ _ _ Hp) as Hap.
  rw /pop_central. wp_step. wp_step. wp_step. apply wp_zoom. eapply wp_mono; [apply (ll_pop_ok _ _ _ HC)|].
  { rw length_fmap. pose proof (po_room _ _ Hp) as Hr. rw !length_app in Hr. lia. }
  intros [r l] N' (Hr & Hl & Hfr & Hx). simpl in Hr, Hl. wp_step. wp_step. wp_step.
  split; [done|]. split; [|done]. split; simpl.
  - apply (pool_same h); [done|]. rw (app_assoc F R) (app_assoc X) -(Permutation_middle (X ++ F ++ R) C x) in Hp.
    by rw -(app_assoc X) -(app_assoc F) in Hp.
  - exists ta. split_and!; try done; eapply ll_frame_other; try done; intros y Hy HyC; by apply (Hap y) in Hy as (? & ? & ?) || by apply (Hap y) in Hy as (? & ?).
  - done.
  - eapply ll_frame_other; [exact Hfr|done|]. intros y ->%list_elem_of_singleton HyC. by apply (Hap a) in HyC.
  - intros f [->|Hf]%elem_of_cons; [by apply Hx|]. eapply float_frame; [exact Hfr| |exact HX|exact Hf].
    intros f' Hf'. by apply (Hap f') in Hf' as (_ & _ & ? & _).
Qed.

Lemma push_free_ok : rep h fs cf (x :: X) F R C →
  wp (push_free a (fst x)) h (λ _ h', rep h' fs cf X (F ++ [x]) R C ∧ same_blocks h h').
Proof.
  intros [Hp (ta & Ht & Hfs & Hcf & HF & HR) HC HT HX]. pose proof (pool_apart _ (x :: X) _ _ _ Hp) as Hap.
  destruct (proj1 (Hap (fst x)) ltac:(by left)) as (HxF & HxR & HxC & Hxa).
  pose proof (po_room _ _ Hp) as Hroom. rw /= !length_app in Hroom.
  rw /push_free. wp_step. apply wp_zoom. eapply wp_hload; [exact Ht|].
  wp_step. apply wp_zoom. eapply wp_mono; [apply (ll_push_back_ok _ _ _ (fst x) HF)|].
  { apply HX. by left. } { done. } { apply room_fst. lia. }
  intros l N' (Hl & Hfr). rw -(fmap_app fst F [x]) in Hl. apply wp_zoom. eapply wp_hmodify; [exact Ht|]. split; [|done].
  pose proof (po_lists _ _ Hp) as Hnd. change (NoDup (fst x :: (fst <$> (X ++ F ++ R ++ C)))) in Hnd. apply NoDup_cons in Hnd as [Hnew _]. rw !fmap_app in Hnew.
  split; simpl.
  - apply (pool_same h); [done|]. simpl in Hp. rw (Permutation_middle X (F ++ R ++ C) x) (Permutation_middle F (R ++ C) x) in Hp.
    by rw -(app_assoc F [x]).
  - eexists. rw lookup_insert_eq. split; [done|]. simpl. split_and!; try done.
    eapply ll_frame_other; [exact Hfr|done|]. intros y Hy [->|HyF]%elem_of_cons; [done|]. by apply (Hap y) in HyF as [].
  - eapply ll_frame_other; [exact Hfr|done|]. intros y Hy [->|HyF]%elem_of_cons; [done|]. by apply (Hap y) in HyF as (_ & ? & _).
  - eapply ll_frame_other; [exact Hfr|done|]. intros y ->%list_elem_of_singleton [E|HyF]%elem_of_cons; [done|].
    by apply (Hap a) in HyF as (_ & _ & ?).
  - intros f Hf. destruct Hfr as [_ Hfr]. rw Hfr; [|apply HX; by right].
    intros [->|HfF]%elem_of_cons; [apply Hnew, elem_of_app; by left|]. by destruct (proj1 (Hap f) ltac:(by right)).
Qed.

Lemma push_recover_ok : rep h fs cf (x :: X) F R C →
  wp (push_recover a (fst x)) h (λ _ h', rep h' fs cf X F (R ++ [x]) C ∧ same_blocks h h').
Proof.
  intros [Hp (ta & Ht & Hfs & Hcf & HF & HR) HC HT HX]. pose proof (pool_apart _ (x :: X) _ _ _ Hp) as Hap.
  destruct (proj1 (Hap (fst x)) ltac:(by left)) as (HxF & HxR & HxC & Hxa).
  pose proof (po_room _ _ Hp) as Hroom. rw /= !length_app in Hroom.
  rw /push_recover. wp_step. apply wp_zoom. eapply wp_hload; [exact Ht|].
  wp_step. apply wp_zoom. eapply wp_mono; [apply (ll_push_back_ok _ _ _ (fst x) HR)|].
  { apply HX. by left. } { done. } { apply room_fst. lia. }
  intros l N' (Hl & Hfr). rw -(fmap_app fst R [x]) in Hl. apply wp_zoom. eapply wp_hmodify; [exact Ht|]. split; [|done].
  pose proof (po_lists _ _ Hp) as Hnd. change (NoDup (fst x :: (fst <$> (X ++ F ++ R ++ C)))) in Hnd. apply NoDup_cons in Hnd as [Hnew _]. rw !fmap_app in Hnew.
  split; simpl.
  - apply (pool_same h); [done|]. simpl in Hp. rw (Permutation_middle X (F ++ R ++ C) x) (Permutation_middle F (R ++ C) x) (Permutation_middle R C x) in Hp.
    by rw -(app_assoc R [x]).
  - eexists. rw lookup_insert_eq. split; [done|]. simpl. split_and!; try done.
    eapply ll_frame_other; [exact Hfr|done|]. intros y Hy [->|HyR]%elem_of_cons; [done|]. by apply (Hap y) in Hy as [].
  - eapply ll_frame_other; [exact Hfr|done|]. intros y Hy [->|HyR]%elem_of_cons; [done|]. by apply (Hap y) in HyR as [].
  - eapply ll_frame_other; [exact Hfr|done|]. intros y ->%list_elem_of_singleton [E|HyR]%elem_of_cons; [done|].
    by apply (Hap a) in HyR as (_ & ?).
  - intros f Hf. destruct Hfr as [_ Hfr]. rw Hfr; [|apply HX; by right].
    intros [->|HfR]%elem_of_cons; [apply Hnew, elem_of_app; by left|]. by destruct (proj1 (Hap f) ltac:(by right)) as (_ & ? & _).
Qed.

Lemma give_back_ok : rep h fs cf (x :: X) F R C →
  wp (give_back_to_central (fst x)) h (λ _ h', rep h' fs cf X F R (C ++ [x]) ∧ same_blocks h h').
Proof.
  intros [Hp (ta & Ht & Hfs & Hcf & HF & HR) HC HT HX]. pose proof (pool_apart _ (x :: X) _ _ _ Hp) as Hap.
  destruct (proj1 (Hap (fst x)) ltac:(by left)) as (HxF & HxR & HxC & Hxa).
  pose proof (po_room _ _ Hp) as Hroom. rw /= !length_app in Hroom.
  rw /give_back_to_central. wp_step. wp_step. wp_step. apply wp_zoom. eapply wp_mono; [apply (ll_push_back_ok _ _ _ (fst x) HC)|].
  { apply HX. by left. } { done. } { apply room_fst. lia. }
  intros l N' (Hl & Hfr). rw -(fmap_app fst C [x]) in Hl. wp_step. split; [|done].
  pose proof (po_lists _ _ Hp) as Hnd. change (NoDup (fst x :: (fst <$> (X ++ F ++ R ++ C)))) in Hnd. apply NoDup_cons in Hnd as [Hnew _]. rw !fmap_app in Hnew.
  split; simpl.
  - apply (pool_same h); [done|]. simpl in Hp. by rw (Permutation_cons_append (X ++ F ++ R ++ C) x) -!(app_assoc _ _ [x]) in Hp.
  - exists ta. split_and!; try done; eapply ll_frame_other; try done; intros y Hy [->|HyC]%elem_of_cons; try done;
      by apply (Hap y) in Hy as (? & ? & ?) || by apply (Hap y) in Hy as (? & ?).
  - exact Hl.
  - eapply ll_frame_other; [exact Hfr|done|]. intros y ->%list_elem_of_singleton [E|HyC]%elem_of_cons; [done|].
    by apply (Hap a) in HyC.
  - intros f Hf. destruct Hfr as [_ Hfr]. rw Hfr; [|apply HX; by right].
    intros [->|HfC]%elem_of_cons; [apply Hnew, elem_of_app; by left|]. by destruct (proj1 (Hap f) ltac:(by right)) as (_ & _ & ? & _).
Qed.
End moves.

(** A block is taken from, or put into, a free list: the lists that the structs
    are in stay as they are. *)
Definition same_lists h h' : Prop :=
  h_nexts h' = h_nexts h ∧ h_ta h' = h_ta h ∧ h_ba h' = h_ba h ∧ h_chunks h' = h_chunks h ∧
  dom (h_links h') = dom (h_links h).

Lemma rep_same h h' fs cf X F R C F' R' : same_lists h h' → rep h fs cf X F R C →
  F'.*1 = F.*1 → R'.*1 = R.*1 → pool h' (X ++ F' ++ R' ++ C) → rep h' fs cf X F' R' C.
Proof.
  intros (EN & ET & EB & _ & _) [Hp Ht HC HT HX] EF ER Hp'.
  split; [exact Hp'|rw ET EN EF ER; exact Ht|rw EN EB; exact HC|rw EN EB; exact HT|rw EN; exact HX].
Qed.

(** The other free lists, when one of them changes. *)
Lemma fl_rep_other h h' f (all : list fblocks) : Forall (fl_rep h) all → f ∉ all.*1 →
  (∀ f', f' ≠ f → h_fl h' !! f' = h_fl h !! f') → h_chunks h' = h_chunks h → dom (h_links h') = dom (h_links h) →
  (∀ p, p ∈ concat all.*2 → h_links h' !! p = h_links h !! p) → Forall (fl_rep h') all.
Proof.
  intros Hall Hf Hfl Hch Hdom Hlinks. apply Forall_forall. intros x Hx.
  destruct (proj1 (Forall_forall _ _) Hall x Hx) as [A B D]. split.
  - rw Hfl; [intros <-; by apply Hf, list_elem_of_fmap_2|]. by rw Hch.
  - eapply bchain_frame; [exact B|]. intros p Hp. apply Hlinks. apply elem_of_concat_list.
    exists (snd x). split; [by apply list_elem_of_fmap_2|done].
  - intros p Hp. rw Hdom. by apply D.
Qed.

Lemma free_list_get_ok h f p bs rest : pool h ((f, p :: bs) :: rest) → Z.of_nat (length (p :: bs)) < 2 ^ 32 →
  wp (free_list_get f) h (λ r h', r = p ∧ pool h' ((f, bs) :: rest) ∧ same_lists h h' ∧ h_links h' = h_links h).
Proof.
  intros Hp Hlen. pose proof Hp as [A B D E G]. apply Forall_cons in B as [[(m & Hf & Hm) Hch Hdom] Hrest].
  apply NoDup_cons in A as [Hnew A]. simpl in Hf, Hch, Hdom.
  destruct (bchain_cons _ _ _ Hch) as [Hnext Hch'].
  rw /free_list_get. wp_step. apply wp_zoom. eapply wp_hload; [exact Hf|]. simpl.
  wp_step. eapply ok_wp; [by rw /load_link Hnext|]. wp_step. apply wp_zoom. eapply wp_hstore; [exact Hf|].
  wp_step. split; [done|]. split; [|done]. split; try done.
  - by apply NoDup_cons.
  - apply Forall_cons. split.
    + split; simpl; [|done|intros q Hq; apply Hdom; by right].
      exists m. rw lookup_insert_eq. split; [|done]. do 2 f_equal.
      * rw u32_small; simpl in Hlen; lia.
      * by destruct bs.
    + eapply (fl_rep_other h); [exact Hrest|exact Hnew| |done..]. intros f' Hne. by rw /= lookup_insert_ne.
  - simpl in D. by apply NoDup_cons in D as [_ D].
Qed.

(** The first words when [p] has been put after the blocks [bs]. *)
Definition put_link (bs : list block) (p : block) (K : gmap block (option block)) : gmap block (option block) :=
  match last bs with Some t => <[t := Some p]> (<[p := None]> K) | None => <[p := None]> K end.

Lemma put_link_dom bs p K : p ∈ dom K → (∀ q, q ∈ bs → q ∈ dom K) → dom (put_link bs p K) = dom K.
Proof.
  intros Hp Hbs. rw /put_link. destruct (last bs) as [t|] eqn:Hl; rw ?dom_insert_L; [|set_solver].
  assert (t ∈ dom K) by (apply Hbs; by apply last_Some_elem_of). set_solver.
Qed.

Lemma put_link_other bs p K q : q ≠ p → q ∉ bs → put_link bs p K !! q = K !! q.
Proof.
  intros Hp Hq. rw /put_link. destruct (last bs) as [t|] eqn:Hl; rw ?lookup_insert_ne //.
  intros <-. apply Hq. by apply last_Some_elem_of.
Qed.

Lemma free_list_put_runs h f p bs sz n m : h_fl h !! f = Some (FreeList sz n (head bs) (last bs) m) →
  p ∈ dom (h_links h) → (∀ q, q ∈ bs → q ∈ dom (h_links h)) → p ∉ bs →
  free_list_put f p h =
  Ok (tt, set_fl (<[f := FreeList (u32 (sz + 1)) n (head (bs ++ [p])) (last (bs ++ [p])) m]> (h_fl h))
            (set_links (put_link bs p (h_links h)) h)).
Proof.
  intros Hf Hpd Hdom Hpb. apply elem_of_dom in Hpd as [q Hq].
  rw /free_list_put /mbind /M_bind /= {1}/on_fl /zoom /hload Hf /= {1}/store_link Hq /put_link.
  destruct bs as [|t bs _] using rev_ind; simpl.
  - by rw /on_fl /zoom /hstore /hmodify /= Hf.
  - rw !last_snoc. assert (t ≠ p) by (intros ->; apply Hpb, elem_of_app; right; left).
    assert (is_Some (h_links h !! t)) as [q' Hq'] by (apply elem_of_dom, Hdom, elem_of_app; right; left).
    rw /store_link /= lookup_insert_ne // Hq' /on_fl /zoom /hstore /hmodify /= Hf. by destruct bs.
Qed.

Lemma free_list_put_ok h f p bs rest : pool h ((f, bs) :: rest) → p ∉ concat (bs :: rest.*2) → p ∈ dom (h_links h) →
  Z.of_nat (length bs) + 1 < 2 ^ 32 →
  wp (free_list_put f p) h (λ _ h', pool h' ((f, bs ++ [p]) :: rest) ∧ same_lists h h').
Proof.
  intros Hp Hnp Hpd Hlen. pose proof Hp as [A B D E G]. apply Forall_cons in B as [[(m & Hf & Hm) Hch Hdom] Hrest].
  apply NoDup_cons in A as [Hnew A]. simpl in Hf, Hch, Hdom, D, Hnp.
  rw elem_of_app in Hnp. assert (Hpb : p ∉ bs) by tauto.
  apply NoDup_app in D as (Dbs & Dx & Drest).
  pose proof (put_link_dom bs p (h_links h) Hpd Hdom) as HK.
  eapply ok_wp; [by eapply free_list_put_runs|]. split; [|by split_and!].
  split; try done; simpl.
  - by apply NoDup_cons.
  - apply Forall_cons. split.
    + split; simpl.
      * exists m. rw lookup_insert_eq. split; [|done]. do 2 f_equal. rw u32_small; [lia|]. rw length_app /=. lia.
      * apply bchain_snoc; [done..|]. by apply elem_of_dom.
      * intros q [Hq| ->%list_elem_of_singleton]%elem_of_app; rw HK; [by apply Hdom|done].
    + eapply (fl_rep_other h); [exact Hrest|exact Hnew| |done|done|].
      * intros f' Hne. by rw /= lookup_insert_ne.
      * intros q Hq. apply put_link_other; [intros ->; tauto|]. intros Hq'. by apply (Dx q).
  - apply NoDup_app. split_and!; [|intros q [Hq| ->%list_elem_of_singleton]%elem_of_app; auto|done].
    apply NoDup_app. split_and!; [done| |apply NoDup_singleton]. intros q Hq ->%list_elem_of_singleton. done.
Qed.

(** ** A new chunk *)

Definition blocks_from (m : loc) (k n : nat) (size : Z) : list block := (λ i, (m, Z.of_nat i * size)) <$> seq k n.

Lemma blocks_from_NoDup m k n size : 0 < size → NoDup (blocks_from m k n size).
Proof. intros Hs. apply NoDup_fmap_2_strong, NoDup_seq. intros i j _ _ [= He]. nia. Qed.

Lemma elem_of_blocks_from m k n size p :
  p ∈ blocks_from m k n size ↔ ∃ i, p = (m, Z.of_nat i * size) ∧ (k ≤ i < k + n)%nat.
Proof. rw /blocks_from list_elem_of_fmap. setoid_rewrite elem_of_seq. done. Qed.

Lemma put_blocks_runs f m n k size bs h sz n' m' : 0 < size →
  h_fl h !! f = Some (FreeList sz n' (head bs) (last bs) m') → bchain (h_links h) bs →
  (∀ p, p ∈ bs ++ blocks_from m k n size → p ∈ dom (h_links h)) → NoDup (bs ++ blocks_from m k n size) →
  ∃ sz' K, put_blocks n f m (Z.of_nat k) size h =
    Ok (tt, set_fl (<[f := FreeList sz' n' (head (bs ++ blocks_from m k n size)) (last (bs ++ blocks_from m k n size)) m']> (h_fl h))
              (set_links K h)) ∧
    bchain K (bs ++ blocks_from m k n size) ∧ dom K = dom (h_links h) ∧
    ∀ p, p ∉ bs ++ blocks_from m k n size → K !! p = h_links h !! p.
Proof.
  intros Hs. revert k bs h sz. induction n as [|n IH]; intros k bs h sz Hf Hch Hdom Hnd; simpl.
  { rw /blocks_from /= app_nil_r. exists sz, (h_links h). rw insert_id //. split; [|done]. by destruct h. }
  set (p := (m, Z.of_nat k * size)). change (blocks_from m k (S n) size) with ([p] ++ blocks_from m (S k) n size) in *.
  rw app_assoc in Hnd. rw app_assoc in Hdom. rw app_assoc.
  pose proof (proj1 (NoDup_app _ _) Hnd) as (Hnd1 & _ & _). apply NoDup_app in Hnd1 as (_ & Hpb & _).
  assert (Hp : p ∉ bs) by (intros Hin; apply (Hpb p Hin); left).
  assert (Hpd : p ∈ dom (h_links h)) by (apply Hdom; rw !elem_of_app; left; right; left).
  assert (Hbs : ∀ q, q ∈ bs → q ∈ dom (h_links h)) by (intros q Hq; apply Hdom; rw !elem_of_app; auto).
  set (h' := set_fl (<[f := FreeList (u32 (sz + 1)) n' (head (bs ++ [p])) (last (bs ++ [p])) m']> (h_fl h))
               (set_links (put_link bs p (h_links h)) h)).
  pose proof (put_link_dom bs p (h_links h) Hpd Hbs) as Hd.
  destruct (IH (S k) (bs ++ [p]) h' (u32 (sz + 1))) as (sz' & K & Hrun & Hch' & HdomK & HK).
  - by rw /= lookup_insert_eq.
  - apply bchain_snoc; [done..|]. by apply elem_of_dom.
  - intros q Hq. rw /= Hd. by apply Hdom.
  - done.
  - exists sz', K. rw /mbind /M_bind (free_list_put_runs _ _ _ _ _ _ _ Hf) //. fold h'.
    rw (_ : Z.of_nat k + 1 = Z.of_nat (S k)); [lia|]. rw Hrun /= insert_insert_eq. split; [done|]. split; [exact Hch'|].
    split; [by etransitivity; [exact HdomK|exact Hd]|].
    intros q Hq. rw HK //=. apply put_link_other; [intros ->|intros Hq']; apply Hq; rw !elem_of_app; [left; right; left|auto].
Qed.
Lemma ll_rep_fresh N l xs f v : ll_rep N l xs → N !! f = None → ll_rep (<[f := v]> N) l xs.
Proof.
  intros Hl Hf. pose proof (ll_rep_dom _ _ _ f Hl) as Hd. destruct Hl as [A B C]. split; [done| |done].
  apply lseg_insert_ne; [|done]. intros Hin. destruct (Hd Hin). congruence.
Qed.

(** Every block is in a chunk. *)
Definition placed h : Prop :=
  ∀ p, p ∈ dom (h_links h) → fst p ∈ h_chunks h ∧ ∃ i, snd p = Z.of_nat i * osz ∧ (i < n0)%nat.

(** The links of a chunk that has been added. *)
Definition add_chunk (m : loc) h : gmap block (option block) :=
  list_to_map ((λ p, (p, None)) <$> chunk_blocks m n0 osz) ∪ h_links h.

Lemma chunk_blocks_from m : chunk_blocks m n0 osz = blocks_from m 0 n0 osz.
Proof. done. Qed.

Lemma add_chunk_dom m h : dom (add_chunk m h) = list_to_set (blocks_from m 0 n0 osz) ∪ dom (h_links h).
Proof.
  rw /add_chunk dom_union_L dom_list_to_map_L chunk_blocks_from. do 2 f_equal.
  rw -list_fmap_compose. apply list_fmap_id.
Qed.

Lemma add_chunk_old m h p : fst p ≠ m → add_chunk m h !! p = h_links h !! p.
Proof.
  intros Hp. rw /add_chunk lookup_union_r //. apply not_elem_of_list_to_map_1.
  rw -list_fmap_compose list_fmap_id. intros (i & -> & _)%elem_of_blocks_from. done.
Qed.

Context (Hosz : 8 ≤ osz ≤ DEFAULT_BLOCK_SIZE) (Hn0 : n0 = Z.to_nat (DEFAULT_BLOCK_SIZE / osz)).

Lemma n0_bounds : 1 ≤ Z.of_nat n0 ≤ 131072 ∧ Z.of_nat n0 * osz ≤ DEFAULT_BLOCK_SIZE ∧
  Z.of_nat n0 = DEFAULT_BLOCK_SIZE / osz.
Proof.
  pose proof Hosz as Ho. rw /DEFAULT_BLOCK_SIZE in Ho. rw Hn0 /DEFAULT_BLOCK_SIZE.
  assert (1 ≤ 1024 * 1024 / osz) by (apply Z.div_le_lower_bound; lia).
  assert (1024 * 1024 / osz ≤ 131072) by (apply Z.div_le_upper_bound; lia).
  pose proof (Z.mul_div_le (1024 * 1024) osz). lia.
Qed.

Lemma creat_new_freelist_runs h (f := fresh (dom (h_nexts h))) (m := fresh (h_chunks h)) :
  ∃ K, creat_new_freelist osz h =
    Ok (f, Heap (<[f := NULL]> (h_nexts h))
             (<[f := FreeList (Z.of_nat n0) (Z.of_nat n0) (head (blocks_from m 0 n0 osz)) (last (blocks_from m 0 n0 osz)) m]> (h_fl h))
             (h_ta h) ({[m]} ∪ h_chunks h) K (h_ba h)) ∧
    bchain K (blocks_from m 0 n0 osz) ∧ dom K = dom (add_chunk m h) ∧
    ∀ p, p ∉ blocks_from m 0 n0 osz → K !! p = add_chunk m h !! p.
Proof.
  pose proof n0_bounds as Hb.
  assert (Hn : u32 (DEFAULT_BLOCK_SIZE / osz) = Z.of_nat n0) by (rw u32_small; lia).
  set (h3 := Heap (<[f := NULL]> (h_nexts h)) (<[f := FreeList (Z.of_nat n0) (Z.of_nat n0) None None m]> (h_fl h)) (h_ta h)
               ({[m]} ∪ h_chunks h) (add_chunk m h) (h_ba h)).
  destruct (put_blocks_runs f m n0 0 osz [] h3 (Z.of_nat n0) (Z.of_nat n0) m) as (sz & K & Hrun & Hch & HdK & HK).
  { lia. } { by rw /= lookup_insert_eq. } { apply bchain_nil. }
  { intros p Hpb. rw /= add_chunk_dom elem_of_union elem_of_list_to_set. by left. }
  { apply blocks_from_NoDup. lia. }
  exists K. split_and!; try done.
  rw /creat_new_freelist. destruct (Z.eqb_spec osz 0); [lia|].
  rw /mbind /M_bind /alloc_free_list /alloc_chunk /mbind /M_bind /= Hn Nat2Z.id. fold f m.
  rw /on_fl /zoom /hmodify /= lookup_insert_eq insert_insert_eq /=.
  rw -/(add_chunk m h). change 0 with (Z.of_nat 0). rw Hrun /= !insert_insert_eq lookup_insert_eq /=.
  do 2 f_equal. rw /set_fl /set_links /= !insert_insert_eq. reflexivity.
Qed.

(** A free list that is made anew is in no list yet. *)
Lemma creat_new_freelist_ok h fs cf F R C : rep h fs cf [] F R C → placed h →
  Z.of_nat (length (F ++ R ++ C)) + 1 < 2 ^ 31 - 1 →
  wp (creat_new_freelist osz) h (λ f h', ∃ m, m ∉ h_chunks h ∧ rep h' fs cf [(f, blocks_from m 0 n0 osz)] F R C ∧
    h_chunks h' = {[m]} ∪ h_chunks h ∧ dom (h_links h') = list_to_set (blocks_from m 0 n0 osz) ∪ dom (h_links h) ∧
    h_ba h' = h_ba h).
Proof.
  intros [Hp (ta & Ht & Hfs & Hcf & HF & HR) HC HT _] Hpl Hroom. pose proof n0_bounds as Hb.
  destruct (creat_new_freelist_runs h) as (K & Hrun & Hch & HdK & HK).
  set (f := fresh (dom (h_nexts h))) in *. set (m := fresh (h_chunks h)) in *.
  assert (Hf : h_nexts h !! f = None) by apply not_elem_of_dom, is_fresh.
  assert (Hm : m ∉ h_chunks h) by apply is_fresh.
  set (bs := blocks_from m 0 n0 osz) in *.
  assert (Hfresh : ∀ l xs, ll_rep (h_nexts h) l xs → f ∉ xs).
  { intros l xs Hl Hin. destruct (ll_rep_dom _ _ _ f Hl Hin). congruence. }
  assert (Hnot : f ∉ (F ++ R ++ C).*1) by (rw !fmap_app !elem_of_app; intros [?|[?|?]]; [by apply (Hfresh _ _ HF)|by apply (Hfresh _ _ HR)|by apply (Hfresh _ _ HC)]).
  assert (Hfa : a ≠ f). { intros E. apply (Hfresh _ _ HT). rw E. left. }
  assert (Hold : ∀ p, p ∈ dom (h_links h) → p ∉ bs ∧ K !! p = h_links h !! p).
  { intros p [Hpc _]%Hpl. assert (Hpm : fst p ≠ m) by (intros E; apply Hm; by rw -E).
    assert (p ∉ bs) by (intros (i & -> & _)%elem_of_blocks_from; done). split; [done|].
    rw HK //=. by apply add_chunk_old. }
  rw add_chunk_dom in HdK.
  destruct Hp as [A B D E G]. simpl in A, B, D, E.
  eapply ok_wp; [exact Hrun|]. exists m. split; [exact Hm|]. split; [|by split_and!]. split; simpl.
  - split; simpl.
    + by apply NoDup_cons.
    + apply Forall_cons. split.
      * split; simpl; [|exact Hch|].
        -- exists m. rw lookup_insert_eq /bs /blocks_from length_fmap length_seq. split; [done|]. set_solver.
        -- intros p Hpb. rw HdK elem_of_union elem_of_list_to_set. by left.
      * apply Forall_forall. intros x Hx. destruct (proj1 (Forall_forall _ _) B x Hx) as [(m' & Hfl & Hm') Hc Hd].
        assert (fst x ≠ f) by (intros <-; by apply Hnot, list_elem_of_fmap_2). split; simpl.
        -- exists m'. rw lookup_insert_ne //. split; [done|]. set_solver.
        -- eapply bchain_frame; [exact Hc|]. intros p Hpx. by apply Hold, Hd.
        -- intros p Hpx. rw HdK elem_of_union. right. by apply Hd.
    + apply NoDup_app. split_and!; [apply blocks_from_NoDup; lia| |done].
      intros p Hpb (l & (x & -> & Hx)%list_elem_of_fmap & Hpx)%elem_of_concat_list.
      destruct (Hold p) as [? _]; [|done]. by eapply (fr_dom _ _ (proj1 (Forall_forall _ _) B x Hx)).
    + by apply not_elem_of_cons.
    + lia.
  - exists ta. split_and!; try done; by apply ll_rep_fresh.
  - by apply ll_rep_fresh.
  - by apply ll_rep_fresh.
  - intros f' ->%list_elem_of_singleton. by rw lookup_insert_eq.
Qed.
Lemma add_free_size_ok h fs cf X F R C n : rep h fs cf X F R C →
  wp (add_free_size a n) h (λ _ h', rep h' (u32 (fs + n)) cf X F R C ∧ same_blocks h h' ∧ h_links h' = h_links h).
Proof.
  intros [Hp (ta & Ht & <- & Hcf & HF & HR) HC HT HX]. rw /add_free_size. apply wp_zoom.
  eapply wp_hmodify; [exact Ht|]. split; [|done]. split; [by apply (pool_same h)| |exact HC|exact HT|exact HX].
  eexists. split; [apply lookup_insert_eq|]. done.
Qed.

(** ** What a free list looks like in each list *)

Definition held (ls : list fblocks) : list block := concat ls.*2.
Definition full (x : fblocks) : Prop := length (snd x) = n0.

#[export] Instance held_perm : Proper ((≡ₚ) ==> (≡ₚ)) held.
Proof. intros ls1 ls2 H. by apply concat_perm, fmap_Permutation. Qed.

Record shape F R C : Prop := {
  sh_some : Forall (λ x, snd x ≠ []) F;
  sh_fit : Forall (λ x, length (snd x) ≤ n0)%nat F;
  sh_full : Forall full (tail F);
  sh_lent : Forall (λ x, length (snd x) < n0)%nat R;
  sh_empty : Forall (λ x, snd x = []) (tail R);
  sh_central : Forall full C;
}.

Lemma held_app ls1 ls2 : held (ls1 ++ ls2) = held ls1 ++ held ls2.
Proof. by rw /held fmap_app concat_app. Qed.
Lemma held_full ls : Forall full ls → length (held ls) = (n0 * length ls)%nat.
Proof. induction 1 as [|x ls Hx _ IH]; [simpl; lia|]. rw /held /= length_app. rw /held in IH. rw IH Hx. lia. Qed.
Lemma held_empty ls : Forall (λ x, snd x = []) ls → held ls = [].
Proof. induction 1 as [|x ls Hx _ IH]; [done|]. rw /held /= Hx. exact IH. Qed.

(** The invariant between two calls: [live] are the blocks that the clients
    have. *)
Record al_inv h (live : gset block) F R C : Prop := {
  ai_rep : ∃ cf, rep h (Z.of_nat (length (held (F ++ R)))) cf [] F R C;
  ai_ba : obj_size (h_ba h) = osz ∧ mtx (h_ba h) = false;
  ai_placed : placed h;
  ai_shape : shape F R C;
  ai_dom : dom (h_links h) = live ∪ list_to_set (held (F ++ R ++ C));
  ai_live : ∀ p, p ∈ live → p ∉ held (F ++ R ++ C);
  ai_count : (size live + length (held (F ++ R)) = n0 * length (F ++ R))%nat;
  ai_bound : Z.of_nat (size (dom (h_links h))) < 2 ^ 31 - 2;
}.

Lemma al_sizes h live F R C : al_inv h live F R C →
  (size (dom (h_links h)) = size live + length (held (F ++ R)) + n0 * length C)%nat ∧
  Z.of_nat (length (F ++ R ++ C)) < 2 ^ 31 - 2.
Proof.
  intros Hi. destruct (ai_rep _ _ _ _ _ Hi) as [cf Hr]. pose proof (po_blocks _ _ (re_pool _ _ _ _ _ _ _ Hr)) as Hnd.
  change (NoDup (held (F ++ R ++ C))) in Hnd. pose proof n0_bounds as Hb.
  assert (Hs : (size (dom (h_links h)) = size live + length (held (F ++ R)) + n0 * length C)%nat).
  { rw (ai_dom _ _ _ _ _ Hi) size_union; [|rw size_list_to_set // app_assoc held_app length_app].
    - intros p Hp Hq%elem_of_list_to_set. by apply (ai_live _ _ _ _ _ Hi p).
    - rw (held_full C); [apply Hi|lia]. }
  split; [exact Hs|]. pose proof (ai_bound _ _ _ _ _ Hi) as Hbd. rw Hs (ai_count _ _ _ _ _ Hi) in Hbd.
  rw app_assoc length_app. nia.
Qed.

Lemma shape_pos F R C : shape F R C → F ≠ [] → (0 < length (held F))%nat.
Proof.
  intros Hs HF. destruct F as [|x F]; [done|]. pose proof (sh_some _ _ _ Hs) as Hx.
  apply Forall_cons in Hx as [Hx _]. rw /held /= length_app. destruct (snd x); [done|simpl; lia].
Qed.

(** *** Choosing a free list *)

(** The free list that is picked comes first, and has a block. *)
Definition picked h (live : gset block) (f : loc) h' : Prop :=
  ∃ p bs F R C, al_inv h' live ((f, p :: bs) :: F) R C.

Lemma al_inv_move h h' live F R C F' R' C' cf :
  al_inv h live F R C → same_blocks h h' → F ++ R ++ C ≡ₚ F' ++ R' ++ C' → shape F' R' C' →
  rep h' (Z.of_nat (length (held (F' ++ R')))) cf [] F' R' C' →
  (size live + length (held (F' ++ R')) = n0 * length (F' ++ R'))%nat →
  al_inv h' live F' R' C'.
Proof.
  intros Hi (Ef & Ec & El & Eo & Em) Hperm Hs Hr Hcount. 
  assert (Hheld : held (F ++ R ++ C) ≡ₚ held (F' ++ R' ++ C')).
  { by rw Hperm. }
  split; try done.
  - by exists cf.
  - rw Eo Em. apply Hi.
  - rw /placed El Ec. apply Hi.
  - rw El (ai_dom _ _ _ _ _ Hi). f_equal. by rw Hheld.
  - intros p Hp. rw -Hheld. by apply Hi.
  - rw El. apply Hi.
Qed.
Lemma load_ta_ok h fs cf X F R C : rep h fs cf X F R C →
  wp (on_ta (hload (Some a))) h (λ ta h', h' = h ∧ free_size ta = fs ∧ collect_factor ta = cf ∧
    link_list_head (ta_free_list ta) = head F.*1 ∧ link_list_head (_recover ta) = head R.*1).
Proof.
  intros [_ (ta & Ht & Hfs & Hcf & HF & HR) _ _ _]. apply wp_zoom. eapply wp_hload; [exact Ht|].
  split; [by destruct h|]. split_and!; [done|done|by apply (ll_rep_head (h_nexts h))|by apply (ll_rep_head (h_nexts h))].
Qed.

Lemma load_fl_ok h all f bs : pool h all → (f, bs) ∈ all →
  wp (on_fl (hload (Some f))) h (λ fl h', h' = h ∧ fl_size fl = Z.of_nat (length bs) ∧ init_size fl = Z.of_nat n0).
Proof.
  intros Hp Hin. destruct (proj1 (Forall_forall _ _) (po_rep _ _ Hp) _ Hin) as [(m & Hf & _) _ _].
  apply wp_zoom. eapply wp_hload; [exact Hf|]. split; [by destruct h|done].
Qed.

Lemma pop_central_empty h fs cf X F R : rep h fs cf X F R [] →
  wp pop_central h (λ r h', r = NULL ∧ rep h' fs cf X F R [] ∧ same_blocks h h').
Proof.
  intros [Hp (ta & Ht & Hfs & Hcf & HF & HR) HC HT HX]. rw /pop_central. wp_step. wp_step. wp_step. apply wp_zoom.
  rw /link_list_pop (ll_rep_empty_size _ _ _ HC) bool_decide_true //. wp_step. wp_step. wp_step.
  split; [done|]. split; [|done]. split; [by apply (pool_same h)|by exists ta|exact HC|exact HT|exact HX].
Qed.

(** A free list from the central allocator: the next one, or a new one when all
    blocks there are have been handed out. *)
Lemma central_get_ok h live R C : al_inv h live [] R C → held R = [] →
  Z.of_nat (size live + n0) < 2 ^ 31 - 2 →
  wp central_get_freelist h (λ f h', ∃ bs C' cf, rep h' 0 cf [(f, bs)] [] R C' ∧ length bs = n0 ∧ Forall full C' ∧
    obj_size (h_ba h') = osz ∧ mtx (h_ba h') = false ∧ placed h' ∧
    dom (h_links h') = live ∪ list_to_set (held ((f, bs) :: R ++ C')) ∧
    (∀ p, p ∈ live → p ∉ held ((f, bs) :: R ++ C')) ∧ Z.of_nat (size (dom (h_links h'))) < 2 ^ 31 - 2).
Proof.
  intros Hi HR Hroom. destruct (al_sizes _ _ _ _ _ Hi) as [Hsz Hlen]. pose proof n0_bounds as Hb.
  destruct Hi as [[cf Hr] [Ho Hm] Hpl Hs Hdom Hlive Hc Hbd]. simpl in *. rw HR /= in Hr, Hsz, Hc.
  rw /central_get_freelist. wp_step. destruct C as [|x C].
  - eapply wp_mono; [by apply pop_central_empty|]. intros r h1 (-> & Hr1 & Ef & Ec & El & Eo & Em). 
    wp_step. wp_step. rw Eo Ho. eapply wp_mono.
    + eapply creat_new_freelist_ok; [exact Hr1| |rw /= app_nil_r; rw app_nil_r in Hlen; lia]. by rw /placed Ec El.
    + intros f h2 (m & Hnew & Hr2 & Hch & Hd & Hba). rw El in Hd. rw Ec in Hch. rw app_nil_r in Hdom, Hlive.
      rw HR in Hdom. 
      assert (Hbs : length (blocks_from m 0 n0 osz) = n0) by (rw /blocks_from length_fmap length_seq //).
      exists (blocks_from m 0 n0 osz), [], cf. rw app_nil_r. split; [exact Hr2|]. split; [exact Hbs|]. split; [done|].
      rw Hba Eo Em. split; [done|]. split; [done|]. split_and!.
      * intros p. rw Hd Hch !elem_of_union elem_of_list_to_set. 
        intros [(i & -> & Hlt)%elem_of_blocks_from|[Hp1 Hp2]%Hpl]; [|by split; [right|]].
        split; [by left; apply elem_of_singleton|]. exists i. split; [done|lia].
      * rw Hd Hdom /held /= -/(held R) HR app_nil_r. set_solver.
      * intros p Hp. rw /held /= -/(held R) HR app_nil_r. intros (i & -> & _)%elem_of_blocks_from.
        apply Hnew. rw Ec. apply (Hpl (m, Z.of_nat i * osz)). rw Hdom. set_solver.
      * rw Hd. eapply Z.le_lt_trans; [|exact Hroom].
        rw Hdom /= union_empty_r_L size_union_alt size_list_to_set; [apply blocks_from_NoDup; lia|].
        pose proof (subseteq_size (live ∖ list_to_set (blocks_from m 0 n0 osz)) live ltac:(set_solver)). lia.
  - eapply wp_mono; [by apply pop_central_ok|]. intros r h1 (-> & Hr1 & Ef & Ec & El & Eo & Em).
    wp_step. pose proof (sh_central _ _ _ Hs) as HC. apply Forall_cons in HC as [Hx HC].
    destruct x as [f bs]. exists bs, C, cf. 
    assert (Hperm : held (R ++ (f, bs) :: C) ≡ₚ held ((f, bs) :: R ++ C)).
    { by rw Permutation_middle. }
    split_and!; try done; try congruence.
    + by rw /placed Ec El.
    + rw El Hdom. f_equal. by rw Hperm.
    + intros p Hp. rw -Hperm. by apply Hlive.
Qed.
Lemma pick_free_list_ok h live F R C : al_inv h live F R C → Z.of_nat (size live + n0) < 2 ^ 31 - 2 →
  wp (pick_free_list a) h (picked h live).
Proof.
  intros Hi Hroom. pose proof n0_bounds as Hb. destruct (al_sizes _ _ _ _ _ Hi) as [Hsz _].
  pose proof (ai_bound _ _ _ _ _ Hi) as Hbd. rw Hsz in Hbd.
  destruct (ai_rep _ _ _ _ _ Hi) as [cf Hr]. pose proof (ai_shape _ _ _ _ _ Hi) as Hs.
  rw /pick_free_list. wp_step. eapply wp_mono; [by eapply load_ta_ok|].
  intros ta h' (-> & Hfs & _ & HhF & HhR). rw Hfs HhF. destruct (Z.eqb_spec (Z.of_nat (length (held (F ++ R)))) 0) as [H0|H0].
  - assert (F = []) as ->.
    { destruct F as [|x F]; [done|]. pose proof (shape_pos _ _ _ Hs ltac:(done)). rw held_app length_app in H0. lia. }
    assert (HR : held R = []) by (destruct (held R) eqn:E; [done|simpl in H0; rw E in H0; simpl in H0; lia]).
    wp_step. eapply wp_mono; [by eapply central_get_ok|].
    intros f h1 (bs & C' & cf' & Hr1 & Hbs & HC' & Ho & Hm & Hpl & Hdom & Hlive & Hbd1).
    wp_step. eapply wp_mono; [by apply (push_free_ok _ _ _ _ _ _ _ (f, bs) Hr1)|].
    intros _ h2 (Hr2 & Ef & Ec & El & Eo & Em). wp_step.
    eapply wp_mono; [eapply (load_fl_ok _ _ f bs (re_pool _ _ _ _ _ _ _ Hr2)); by left|].
    intros fl h' (-> & Hfl & _). wp_step. eapply wp_mono; [by eapply add_free_size_ok|].
    intros _ h3 (Hr3 & (Ef3 & Ec3 & El3 & Eo3 & Em3) & _). wp_step.
    destruct bs as [|p bs]; [simpl in Hbs; lia|]. exists p, bs, [], R, C'.
    assert (Hh : held ([(f, p :: bs)] ++ R) = p :: bs) by (rw held_app HR app_nil_r /held /= app_nil_r //).
    split.
    + exists cf'. rw Hh. rw Hfl u32_small in Hr3; [lia|]. exact Hr3.
    + by rw Eo3 Em3 Eo Em.
    + by rw /placed El3 El Ec3 Ec.
    + split; try apply Hs; try done; apply Forall_singleton; simpl; [done|]. simpl in Hbs. lia.
    + by rw El3 El.
    + exact Hlive.
    + rw Hh. pose proof (ai_count _ _ _ _ _ Hi) as Hc. rw /= HR in Hc. simpl in *. nia.
    + by rw El3 El.
  - destruct F as [|[f bs] F].
    + destruct R as [|[f bs] R]; [done|]. simpl. wp_step. eapply wp_mono; [by apply (pop_recover_ok _ _ _ _ _ _ _ (f, bs) Hr)|].
      intros r h1 (-> & Hr1 & HB1). wp_step. eapply wp_mono; [by apply (push_free_ok _ _ _ _ _ _ _ (f, bs) Hr1)|].
      intros _ h2 (Hr2 & HB2). wp_step.
      pose proof (sh_empty _ _ _ Hs) as He. simpl in He.
      assert (bs ≠ []). { intros ->. rw /held /= -/(held R) held_empty in H0; done. }
      destruct bs as [|p bs]; [done|]. exists p, bs, [], R, C.
      pose proof (sh_lent _ _ _ Hs) as Hl. apply Forall_cons in Hl as [Hl1 Hl].
      assert (HB : same_blocks h h2) by (destruct HB1 as (?&?&?&?&?), HB2 as (?&?&?&?&?); split_and!; congruence).
      eapply (al_inv_move h h2); [exact Hi|exact HB|done| |exact Hr2|apply Hi].
      split; simpl; try done.
      * by apply Forall_singleton.
      * apply Forall_singleton. simpl in *. lia.
      * by destruct R; [|apply Forall_cons in He as []].
      * apply Hs.
    + simpl. wp_step. pose proof (sh_some _ _ _ Hs) as Hx. apply Forall_cons in Hx as [Hx _].
      destruct bs as [|p bs]; [done|]. by exists p, bs, F, R, C.
Qed.
(** What stays when the blocks are dealt out anew. *)
Definition same_memory h h' : Prop :=
  h_chunks h' = h_chunks h ∧ dom (h_links h') = dom (h_links h) ∧ obj_size (h_ba h') = obj_size (h_ba h) ∧
  mtx (h_ba h') = mtx (h_ba h).

Lemma same_memory_trans h1 h2 h3 : same_memory h1 h2 → same_memory h2 h3 → same_memory h1 h3.
Proof. intros (?&?&?&?) (?&?&?&?). split_and!; congruence. Qed.
Lemma same_blocks_memory h h' : same_blocks h h' → same_memory h h'.
Proof. intros (_&?&E&?&?). split_and!; try done. by rw E. Qed.
Lemma same_lists_memory h h' : same_lists h h' → same_memory h h'.
Proof. intros (_&_&E&?&?). split_and!; try done; by rw E. Qed.

Lemma al_inv_change h h' live live' cf F R C F' R' C' : al_inv h live F R C → same_memory h h' →
  rep h' (Z.of_nat (length (held (F' ++ R')))) cf [] F' R' C' → shape F' R' C' →
  (∀ p, p ∈ live' ∨ p ∈ held (F' ++ R' ++ C') ↔ p ∈ live ∨ p ∈ held (F ++ R ++ C)) →
  (∀ p, p ∈ live' → p ∉ held (F' ++ R' ++ C')) →
  (size live' + length (held (F' ++ R')) = n0 * length (F' ++ R'))%nat →
  al_inv h' live' F' R' C'.
Proof.
  intros Hi (Ec & El & Eo & Em) Hr Hs Hset Hdisj Hc. split; try done.
  - by exists cf.
  - rw Eo Em. apply Hi.
  - rw /placed El Ec. apply Hi.
  - rw El (ai_dom _ _ _ _ _ Hi). apply set_eq. intros p. rw !elem_of_union !elem_of_list_to_set. by rw Hset.
  - rw El. apply Hi.
Qed.

(** *** Taking a block *)

(** The block of a free list that is picked is handed out. *)
Lemma take_block h live f p bs F R C F' R' h' cf :
  al_inv h live ((f, p :: bs) :: F) R C → same_memory h h' →
  F' ++ R' ≡ₚ (f, bs) :: F ++ R → shape F' R' C →
  rep h' (Z.of_nat (length (held (F' ++ R')))) cf [] F' R' C →
  p ∉ live ∧ al_inv h' ({[p]} ∪ live) F' R' C.
Proof.
  intros Hi Hsame Hperm Hs Hr. destruct (ai_rep _ _ _ _ _ Hi) as [cf0 Hr0].
  pose proof (po_blocks _ _ (re_pool _ _ _ _ _ _ _ Hr0)) as Hnd. change (NoDup (p :: bs ++ held (F ++ R ++ C))) in Hnd.
  apply NoDup_cons in Hnd as [Hp _].
  assert (Hpl : p ∉ live) by (intros Hin; apply (ai_live _ _ _ _ _ Hi p Hin); left).
  split; [exact Hpl|].
  assert (Hheld : held (F' ++ R' ++ C) ≡ₚ bs ++ held (F ++ R ++ C)).
  { rw app_assoc held_app Hperm. change (held ((f, bs) :: F ++ R)) with (bs ++ held (F ++ R)).
    by rw !held_app -!app_assoc. }
  eapply al_inv_change; [exact Hi|exact Hsame|exact Hr|exact Hs|..].
  - intros q. rw Hheld elem_of_union elem_of_singleton. change (held (((f, p :: bs) :: F) ++ R ++ C)) with (p :: bs ++ held (F ++ R ++ C)).
    rw elem_of_cons. tauto.
  - intros q [->%elem_of_singleton|Hq]%elem_of_union; rw Hheld; [done|]. intros Hin. apply (ai_live _ _ _ _ _ Hi q Hq). by right.
  - pose proof (ai_count _ _ _ _ _ Hi) as Hc. rw Hperm size_union; [set_solver|]. rw size_singleton.
    change (held (((f, p :: bs) :: F) ++ R)) with (p :: bs ++ held (F ++ R)) in Hc.
    change (held ((f, bs) :: F ++ R)) with (bs ++ held (F ++ R)). simpl in Hc |- *. lia.
Qed.

Lemma thread_allocator_alloc_ok h live F R C : al_inv h live F R C → Z.of_nat (size live + n0) < 2 ^ 31 - 2 →
  wp (thread_allocator_alloc a) h (λ p h', p ∉ live ∧ (∃ m i, p = (m, Z.of_nat i * osz) ∧ (i < n0)%nat) ∧
    ∃ F R C, al_inv h' ({[p]} ∪ live) F R C).
Proof.
  intros Hi Hroom. pose proof n0_bounds as Hb.
  rw /thread_allocator_alloc. wp_step. eapply wp_mono; [by eapply pick_free_list_ok|].
  clear Hi F R C. intros f h1 (p & bs & F & R & C & Hi).
  pose proof (ai_shape _ _ _ _ _ Hi) as Hs. destruct (ai_rep _ _ _ _ _ Hi) as [cf Hr].
  pose proof (sh_fit _ _ _ Hs) as Hfit. apply Forall_cons in Hfit as [Hfit1 Hfit]. simpl in Hfit1.
  destruct (al_sizes _ _ _ _ _ Hi) as [Hsz _]. pose proof (ai_bound _ _ _ _ _ Hi) as Hbd. rw Hsz in Hbd.
  assert (Hplace : ∃ m i, p = (m, Z.of_nat i * osz) ∧ (i < n0)%nat).
  { destruct (ai_placed _ _ _ _ _ Hi p) as [_ (i & E & ?)].
    - apply (fr_dom _ (f, p :: bs)); [|by left].
      apply (proj1 (Forall_forall _ _) (po_rep _ _ (re_pool _ _ _ _ _ _ _ Hr))). by left.
    - destruct p as [m o]. simpl in E. subst o. by exists m, i. }
  wp_step. eapply wp_mono; [apply (free_list_get_ok _ _ _ _ _ (re_pool _ _ _ _ _ _ _ Hr)); simpl in *; lia|].
  intros r h2 (-> & Hp2 & Hsame2 & El2).
  assert (Hr2 : rep h2 (Z.of_nat (length (held (((f, p :: bs) :: F) ++ R)))) cf [] ((f, bs) :: F) R C).
  { by eapply rep_same; [exact Hsame2|exact Hr|..]. }
  wp_step. eapply wp_mono; [by eapply add_free_size_ok|]. intros _ h3 (Hr3 & HB3 & El3).
  assert (Hsame3 : same_memory h1 h3).
  { eapply same_memory_trans; [by apply same_lists_memory|by apply same_blocks_memory]. }
  rw (_ : u32 _ = Z.of_nat (length (held (((f, bs) :: F) ++ R)))) in Hr3.
  { rw u32_small /held /= !length_app; rw /held /= !length_app in Hbd; lia. }
  wp_step. eapply wp_mono; [eapply (load_fl_ok _ _ f bs (re_pool _ _ _ _ _ _ _ Hr3)); by left|].
  intros fl h' (-> & Hfl & _). rw Hfl. wp_step. destruct (Z.eqb_spec (Z.of_nat (length bs)) 0) as [H0|H0].
  - destruct bs as [|? ?]; [|simpl in H0; lia].
    wp_step. eapply wp_mono; [by apply (pop_free_ok _ _ _ _ _ _ _ (f, []) Hr3)|]. intros _ h4 (_ & Hr4 & HB4).
    eapply wp_mono; [by apply (push_recover_ok _ _ _ _ _ _ _ (f, []) Hr4)|]. intros _ h5 (Hr5 & HB5). wp_step.
    assert (Hperm : F ++ R ++ [(f, [])] ≡ₚ (f, []) :: F ++ R).
    { by rw (Permutation_cons_append (F ++ R)) app_assoc. }
    destruct (take_block h1 live f p [] F R C F (R ++ [(f, [])]) h5 cf) as [Hpl Hi'].
    + exact Hi.
    + do 2 (eapply same_memory_trans; [|by apply same_blocks_memory]). exact Hsame3.
    + exact Hperm.
    + destruct Hs as [S1 S2 S3 S4 S5 S6]. simpl in *. apply Forall_cons in S1 as [_ S1]. split; try done.
      * destruct F as [|y F]; [done|]. apply Forall_cons in S3 as [_ S3]. exact S3.
      * apply Forall_app. split; [exact S4|]. apply Forall_singleton. simpl. lia.
      * destruct R as [|y R]; [done|]. simpl. apply Forall_app. split; [exact S5|]. by apply Forall_singleton.
    + rw Hperm. exact Hr5.
    + split; [exact Hpl|]. split; [exact Hplace|]. by eexists _, _, _.
  - wp_step. wp_step. destruct (take_block h1 live f p bs F R C ((f, bs) :: F) R h3 cf) as [Hpl Hi'].
    + exact Hi.
    + exact Hsame3.
    + done.
    + destruct Hs as [S1 S2 S3 S4 S5 S6]. apply Forall_cons in S1 as [_ S1]. apply Forall_cons in S2 as [_ S2]. split; try done.
      * apply Forall_cons. split; [|done]. simpl. by destruct bs.
      * apply Forall_cons. split; [|done]. simpl. lia.
    + exact Hr3.
    + split; [exact Hpl|]. split; [exact Hplace|]. by eexists _, _, _.
Qed.
(** *** Giving a block back *)

Lemma give_block h live p F R C F' R' C' h' cf : al_inv h live F R C → p ∈ live → same_memory h h' →
  held (F' ++ R' ++ C') ≡ₚ p :: held (F ++ R ++ C) → shape F' R' C' →
  rep h' (Z.of_nat (length (held (F' ++ R')))) cf [] F' R' C' →
  (length (held (F' ++ R')) + n0 * length (F ++ R) = S (length (held (F ++ R))) + n0 * length (F' ++ R'))%nat →
  al_inv h' (live ∖ {[p]}) F' R' C'.
Proof.
  intros Hi Hp Hsame Hperm Hs Hr Hlen. pose proof (ai_count _ _ _ _ _ Hi) as Hc.
  assert (Hsz : size (live ∖ {[p]}) = (size live - 1)%nat) by (rw size_difference ?size_singleton //; set_solver).
  assert (size live ≠ 0)%nat by (intros E%size_empty_inv; set_solver).
  eapply al_inv_change; [exact Hi|exact Hsame|exact Hr|exact Hs|..].
  - intros q. rw Hperm elem_of_cons elem_of_difference elem_of_singleton. destruct (decide (q = p)) as [->|]; tauto.
  - intros q Hq. rw Hperm. apply elem_of_difference in Hq as [Hq Hne].
    intros [->|Hin]%elem_of_cons; [by apply Hne, elem_of_singleton|]. by apply (ai_live _ _ _ _ _ Hi q).
  - lia.
Qed.

Lemma thread_allocator_dealloc_ok h live p F R C : al_inv h live F R C → p ∈ live →
  wp (thread_allocator_dealloc a p) h (λ _ h', ∃ F R C, al_inv h' (live ∖ {[p]}) F R C).
Proof.
  intros Hi Hp. pose proof n0_bounds as Hb. pose proof (ai_shape _ _ _ _ _ Hi) as Hs.
  destruct (ai_rep _ _ _ _ _ Hi) as [cf Hr]. pose proof (re_pool _ _ _ _ _ _ _ Hr) as Hpool. simpl in Hpool.
  destruct (al_sizes _ _ _ _ _ Hi) as [Hsz _]. pose proof (ai_bound _ _ _ _ _ Hi) as Hbd. rw Hsz in Hbd.
  assert (Hpd : p ∈ dom (h_links h)) by (rw (ai_dom _ _ _ _ _ Hi); set_solver).
  pose proof (ai_live _ _ _ _ _ Hi p Hp) as Hph. pose proof (ai_count _ _ _ _ _ Hi) as Hc.
  assert (size live ≠ 0)%nat by (intros E%size_empty_inv; set_solver).
  rw /thread_allocator_dealloc. wp_step. eapply wp_mono; [by eapply load_ta_ok|].
  intros ta h' (-> & _ & _ & HhF & HhR). rw HhF HhR. destruct R as [|[f bs] R]; simpl.
  - (* no free list has lent a block, but the first one *)
    destruct F as [|[f bs] F]; [simpl in Hc; lia|]. simpl.
    assert (Hfs : 0 ≤ Z.of_nat (length (held (((f, bs) :: F) ++ []))) + 1 < 2 ^ 32) by lia.
    pose proof (sh_full _ _ _ Hs) as Hfull. simpl in Hfull.
    assert (Hbs : (length bs < n0)%nat).
    { rw app_nil_r in Hc. change (held ((f, bs) :: F)) with (bs ++ held F) in Hc. rw length_app (held_full F Hfull) /= in Hc. nia. }
    wp_step. eapply wp_mono; [apply (free_list_put_ok _ _ _ _ _ Hpool); [exact Hph|exact Hpd|lia]|].
    intros _ h1 (Hp1 & Hsame1).
    assert (Hr1 : rep h1 (Z.of_nat (length (held (((f, bs) :: F) ++ [])))) cf [] ((f, bs ++ [p]) :: F) [] C).
    { by eapply rep_same; [exact Hsame1|exact Hr|..]. }
    eapply wp_mono; [by eapply add_free_size_ok|]. intros _ h2 (Hr2 & HB2 & _).
    assert (Hheld : ∀ X, held (((f, bs ++ [p]) :: F) ++ X) ≡ₚ p :: held (((f, bs) :: F) ++ X)).
    { intros X. change (held (((f, bs ++ [p]) :: F) ++ X)) with ((bs ++ [p]) ++ held (F ++ X)). by rw -Permutation_cons_append. }
    eexists _, [], C. eapply give_block; [exact Hi|exact Hp| |apply (Hheld C)| | |].
    + eapply same_memory_trans; [by apply same_lists_memory|by apply same_blocks_memory].
    + destruct Hs as [S1 S2 S3 S4 S5 S6]. apply Forall_cons in S1 as [_ S1]. apply Forall_cons in S2 as [_ S2].
      split; try done; apply Forall_cons; split; try done; simpl; [by destruct bs|rw length_app /=; lia].
    + rw (Hheld []) /=. rw u32_small // in Hr2. rw Nat2Z.inj_succ -Z.add_1_r. exact Hr2.
    + rw (Hheld []) /=. lia.
  - destruct Hs as [S1 S2 S3 S4 S5 S6] eqn:HS. clear HS. simpl in S5. apply Forall_cons in S4 as [Hbs S4]. simpl in Hbs.
    assert (Hperm : (f, bs) :: F ++ R ++ C ≡ₚ F ++ ((f, bs) :: R) ++ C) by apply Permutation_middle.
    rw -Hperm in Hph. rw -Hperm in Hpool.
    wp_step. eapply wp_mono; [apply (free_list_put_ok _ _ _ _ _ Hpool); [exact Hph|exact Hpd|lia]|].
    intros _ h1 (Hp1 & Hsame1).
    assert (Hr1 : rep h1 (Z.of_nat (length (held (F ++ (f, bs) :: R)))) cf [] F ((f, bs ++ [p]) :: R) C).
    { eapply rep_same; [exact Hsame1|exact Hr|done..|]. by rw (Permutation_middle F (R ++ C)) in Hp1. }
    wp_step. eapply wp_mono; [by eapply add_free_size_ok|]. intros _ h2 (Hr2 & HB2 & _).
    assert (Hmem : same_memory h h2).
    { eapply same_memory_trans; [by apply same_lists_memory|by apply same_blocks_memory]. }
    assert (Hheld : ∀ X, held (F ++ ((f, bs ++ [p]) :: R) ++ X) ≡ₚ p :: held (F ++ ((f, bs) :: R) ++ X)).
    { intros X. rw -!(Permutation_middle F (R ++ X)).
      change (held ((f, bs ++ [p]) :: F ++ R ++ X)) with ((bs ++ [p]) ++ held (F ++ R ++ X)).
      by rw -Permutation_cons_append. }
    pose proof (Hheld []) as Hheld0. rw !app_nil_r in Hheld0.
    rw u32_small in Hr2; [lia|].
    rw (_ : Z.of_nat _ + 1 = Z.of_nat (length (held (F ++ (f, bs ++ [p]) :: R)))) in Hr2; [rw Hheld0 /=; lia|].
    wp_step. eapply wp_mono; [eapply (load_fl_ok _ _ f (bs ++ [p]) (re_pool _ _ _ _ _ _ _ Hr2))|].
    { rw /= elem_of_app. right. left. }
    intros fl h' (-> & Hfl & Hinit). rw Hfl Hinit. 
    destruct (Z.eqb_spec (Z.of_nat (length (bs ++ [p]))) (Z.of_nat n0)) as [Hfull|Hnot].
    2:{ wp_step. eexists F, _, C. eapply give_block; [exact Hi|exact Hp|exact Hmem|apply (Hheld C)| |exact Hr2|].
        - split; try done. apply Forall_cons. split; [|done]. simpl. rw length_app /= in Hnot |- *. lia.
        - rw Hheld0 /= !length_app /=. lia. }
    assert (Hn : length (bs ++ [p]) = n0) by lia. rw /retire.
    wp_step. eapply wp_mono; [by apply (pop_recover_ok _ _ _ _ _ _ _ (f, bs ++ [p]) Hr2)|]. intros _ h3 (_ & Hr3 & HB3).
    wp_step. eapply wp_mono; [by eapply load_ta_ok|]. intros ta' h' (-> & _ & _ & _).
    assert (Hsh : ∀ x, full x → Forall (λ x, snd x ≠ []) [x] ∧ Forall (λ x, length (snd x) ≤ n0)%nat [x]).
    { intros x Hx. rw /full in Hx. split; apply Forall_singleton; [intros E; rw E in Hx; simpl in Hx|]; lia. }
    destruct (Hsh (f, bs ++ [p]) Hn) as [HshA HshB].
    assert (HR : Forall (λ x, snd x = []) (tail R)) by (by destruct R; [|apply Forall_cons in S5 as []]).
    destruct (Z.leb_spec (collect_factor ta') (free_size ta')) as [_|_].
    + wp_step. eapply wp_mono; [by apply (give_back_ok _ _ _ _ _ _ _ (f, bs ++ [p]) Hr3)|]. intros _ h4 (Hr4 & HB4).
      eapply wp_mono; [by eapply add_free_size_ok|]. intros _ h5 (Hr5 & HB5 & _).
      assert (Hh2 : held (F ++ (f, bs ++ [p]) :: R) ≡ₚ (bs ++ [p]) ++ held (F ++ R)) by (by rw -Permutation_middle).
      assert (Hlen : length (held (F ++ (f, bs ++ [p]) :: R)) = (n0 + length (held (F ++ R)))%nat) by (rw Hh2 length_app; lia).
      exists F, R, (C ++ [(f, bs ++ [p])]). eapply give_block; [exact Hi|exact Hp| | | | |].
      * do 3 (eapply same_memory_trans; [|by apply same_blocks_memory]). exact Hmem.
      * rw -(Hheld C). apply held_perm. rw !app_assoc -Permutation_cons_append -!app_assoc. apply Permutation_middle.
      * split; try done. apply Forall_app. split; [done|]. by apply Forall_singleton.
      * rw (_ : u32 _ = Z.of_nat (length (held (F ++ R)))) in Hr5; [|exact Hr5].
        pose proof (Permutation_length Hheld0) as Hl0. simpl in Hl0. rw Hfl Hlen u32_small; lia.
      * rw Hheld0 /= in Hlen. rw !length_app /=. rw length_app /= in Hn. lia.
    + eapply wp_mono; [by apply (push_free_ok _ _ _ _ _ _ _ (f, bs ++ [p]) Hr3)|]. intros _ h4 (Hr4 & HB4).
      assert (Hpm : (F ++ [(f, bs ++ [p])]) ++ R = F ++ (f, bs ++ [p]) :: R) by (by rw -app_assoc).
      exists (F ++ [(f, bs ++ [p])]), R, C. eapply give_block; [exact Hi|exact Hp| | | | |].
      * do 2 (eapply same_memory_trans; [|by apply same_blocks_memory]). exact Hmem.
      * rw -(Hheld C) -app_assoc. done.
      * split; try done; try (by apply Forall_app).
        destruct F as [|y F]; [done|]. simpl. apply Forall_app. split; [done|]. by apply Forall_singleton.
      * rw Hpm. exact Hr4.
      * rw Hpm Hheld0 /= !length_app /=. lia.
Qed.

(** A client writes to a block that it has. *)
Lemma store_link_ok h live p v F R C : al_inv h live F R C → p ∈ live →
  wp (store_link p v) h (λ _ h', al_inv h' live F R C).
Proof.
  intros Hi Hp. assert (Hpd : p ∈ dom (h_links h)) by (rw (ai_dom _ _ _ _ _ Hi); set_solver).
  pose proof (ai_live _ _ _ _ _ Hi p Hp) as Hph. apply elem_of_dom in Hpd as [q Hq].
  eapply ok_wp; [by rw /store_link Hq|].
  assert (Hdom : dom (<[p := v]> (h_links h)) = dom (h_links h)) by (apply dom_insert_lookup_L; by eexists).
  destruct (ai_rep _ _ _ _ _ Hi) as [cf [[A B D E G] Ht HC HT HX]].
  eapply (al_inv_change h); [exact Hi|by split_and!| |apply Hi|done|apply Hi|apply Hi].
  split; [|exact Ht|exact HC|exact HT|exact HX]. split; try done.
  apply Forall_forall. intros x Hx. destruct (proj1 (Forall_forall _ _) B x Hx) as [F1 F2 F3]. split; [done| |by rw /= Hdom].
  eapply bchain_frame; [exact F2|]. intros r Hr. rw /= lookup_insert_ne //. intros <-. apply Hph, elem_of_concat_list.
  exists (snd x). split; [by apply list_elem_of_fmap_2|done].
Qed.
End pool.

(** ** A client of the allocator *)

Section client.
Context (t : loc).

(** A client that has the blocks [ps]: it allocates, frees one of them, or
    writes to the first word of one of them. *)
Inductive op := Alloc | Dealloc (k : nat) | Write (k : nat) (v : option block).

Definition client_step (o : op) (ps : list block) : M heap (list block) :=
  match o with
  | Alloc => p ← block_obj_al_alloc t; mret (ps ++ [p])
  | Dealloc k =>
      match ps !! k with
      | Some p => block_obj_al_dealloc t p;; mret (delete k ps)
      | None => mret ps
      end
  | Write k v =>
      match ps !! k with
      | Some p => store_link p v;; mret ps
      | None => mret ps
      end
  end.
Fixpoint client (os : list op) (ps : list block) : M heap (list block) :=
  match os with
  | [] => mret ps
  | o :: os => ps ← client_step o ps; client os ps
  end.
End client.

(** *** The size of a block *)

Lemma GetK_loop_log2 fuel s k : 1 ≤ s → s < 2 ^ Z.of_nat fuel → 0 ≤ k → k + Z.of_nat fuel < 256 →
  GetK_loop fuel s k = k + Z.log2 s.
Proof.
  revert s k. induction fuel as [|fuel IH]; intros s k Hs Hlt Hk Hb; [simpl in Hlt; lia|].
  cbn [GetK_loop]. destruct (Z.ltb_spec 1 s) as [H1|H1].
  - pose proof (Z.log2_shiftr s 1 ltac:(lia)) as Hlog. pose proof (Z.log2_pos s H1) as Hpos.
    rw Nat2Z.inj_succ Z.pow_succ_r in Hlt; [lia|].
    assert (Hs1 : 1 ≤ Z.shiftr s 1 < 2 ^ Z.of_nat fuel).
    { rw Z.shiftr_div_pow2 // Z.pow_1_r. split; [apply Z.div_le_lower_bound|apply Z.div_lt_upper_bound]; lia. }
    rw (u8_small (k + 1)); [lia|]. rw IH; lia.
  - rw (_ : s = 1); [lia|]. simpl. lia.
Qed.

Lemma pow2_land s : 1 ≤ s → Z.land s (s - 1) = 0 → s = 2 ^ Z.log2 s.
Proof.
  intros Hs Hland. pose proof (Z.log2_spec s ltac:(lia)) as [Hlo Hhi]. pose proof (Z.log2_nonneg s) as Hk.
  destruct (Z.eq_dec s (2 ^ Z.log2 s)) as [|Hne]; [done|exfalso].
  assert (Hlog : Z.log2 (s - 1) = Z.log2 s) by (apply Z.log2_unique; lia).
  assert (Hbit : Z.testbit (Z.land s (s - 1)) (Z.log2 s) = true).
  { rw Z.land_spec Z.bit_log2; [lia|]. rw -Hlog Z.bit_log2; [lia|]. done. }
  by rw Hland Z.bits_0 in Hbit.
Qed.

(** [1 << GetK(size)] is the least power of two that is not smaller. *)
Lemma GetK_pow2 s : 1 ≤ s ≤ 2 ^ 20 → 0 ≤ GetK s ≤ 20 ∧ s ≤ 2 ^ GetK s.
Proof.
  intros Hs. rw /GetK /is_pow_of_2. rw (u32_small (s - 1)); [lia|].
  destruct (Z.eqb_spec (Z.land s (s - 1)) 0) as [H0|H0].
  - rw GetK_loop_log2; [lia..|]. pose proof (pow2_land s ltac:(lia) H0) as Hp. rw Z.add_0_l.
    pose proof (Z.log2_le_mono s (2 ^ 20) ltac:(lia)) as Hm. rw Z.log2_pow2 in Hm; [lia|].
    pose proof (Z.log2_nonneg s). lia.
  - assert (Hs20 : s < 2 ^ 20).
    { destruct (Z.eq_dec s (2 ^ 20)) as [->|]; [|lia]. by destruct H0. }
    rw u32_small Z.shiftl_mul_pow2 //; [lia|]. rw GetK_loop_log2; [lia..|]. rw Z.add_0_l Z.mul_comm Z.log2_double; [lia|].
    pose proof (Z.log2_spec s ltac:(lia)) as [Hlo Hhi]. pose proof (Z.log2_nonneg s).
    pose proof (Z.log2_lt_pow2 s 20 ltac:(lia)) as Hl. apply Hl in Hs20. lia.
Qed.

(** *** The client's run *)

Section session.
Context (osz : Z) (Hosz : 8 ≤ osz ≤ DEFAULT_BLOCK_SIZE).
Implicit Types (h : heap) (live : gset block) (ps : list block).

Definition per_chunk : nat := Z.to_nat (DEFAULT_BLOCK_SIZE / osz).

(** Before the first call there is no thread allocator. *)
Definition new_heap : heap :=
  Heap ∅ ∅ ∅ ∅ ∅ (BlockObjAllocator ∅ create_link_list false create_link_list osz).
Definition ready h (live : gset block) : Prop :=
  (h = new_heap ∧ live = ∅) ∨ ∃ a F R C, al_inv per_chunk osz a h live F R C.

Lemma create_thread_allocator_ok : wp create_thread_allocator new_heap (λ a h, al_inv per_chunk osz a h ∅ [] [] []).
Proof.
  rw /create_thread_allocator. wp_step. rw /alloc_thread_allocator. wp_step. wp_step. cbn zeta. cbn [h_nexts new_heap].
  set (a := fresh (dom (∅ : nexts))). wp_step. wp_step. wp_step. wp_step. wp_step. cbn [h_ba obj_size set_nexts set_ta new_heap].
  destruct (Z.eqb_spec osz 0); [lia|]. wp_step. apply wp_zoom. eapply wp_hmodify; [apply lookup_insert_eq|].
  wp_step. apply wp_zoom. cbn [h_nexts]. eapply wp_mono.
  { apply (ll_push_back_ok _ create_link_list [] a); [done|simpl; by rw lookup_insert_eq|by apply not_elem_of_nil|done]. }
  intros l N (Hl & Hfr). wp_step. wp_step. wp_step. simpl.
  split; simpl; try done. eexists. split; simpl; try done.
  - split; simpl; try done; try apply NoDup_nil_2. apply not_elem_of_nil.
  - eexists. rw lookup_insert_eq. by split_and!.
  - intros f Hf. by apply not_elem_of_nil in Hf.
Qed.

Lemma block_obj_al_alloc_ok t h live : ready h live → Z.of_nat (size live + per_chunk) < 2 ^ 31 - 2 →
  wp (block_obj_al_alloc t) h (λ p h', p ∉ live ∧ ready h' ({[p]} ∪ live)).
Proof.
  intros Hready Hroom. rw /block_obj_al_alloc. wp_step. wp_step.
  assert (Hgo : ∀ a h live F R C, al_inv per_chunk osz a h live F R C → Z.of_nat (size live + per_chunk) < 2 ^ 31 - 2 →
    wp (thread_allocator_alloc a) h (λ p h', p ∉ live ∧ ready h' ({[p]} ∪ live))).
  { intros a h1 live1 F R C Hi Hroom1. eapply wp_mono; [by eapply thread_allocator_alloc_ok|].
    intros p h2 (Hp & _ & F' & R' & C' & Hi'). split; [done|]. right. by eexists _, _, _, _. }
  destruct Hready as [[-> ->]|(a & F & R & C & Hi)].
  - change (own_allocator t (h_ba new_heap)) with NULL. change (mtx (h_ba new_heap)) with false.
    wp_step. wp_step. eapply wp_mono; [apply create_thread_allocator_ok|].
    intros a h1 Hi. wp_step. wp_step. wp_step. eapply Hgo; [exact Hi|exact Hroom].
  - pose proof (ai_ba _ _ _ _ _ _ _ _ Hi) as [_ Hm]. destruct (ai_rep _ _ _ _ _ _ _ _ Hi) as [cf Hr].
    rw /own_allocator Hm. pose proof (ll_rep_head _ _ _ (re_threads _ _ _ _ _ _ _ _ _ Hr)) as ->. simpl.
    wp_step. wp_step. by eapply Hgo.
Qed.

Lemma block_obj_al_dealloc_ok t h live p : ready h live → p ∈ live →
  wp (block_obj_al_dealloc t p) h (λ _ h', ready h' (live ∖ {[p]})).
Proof.
  intros [[-> ->]|(a & F & R & C & Hi)] Hp; [by apply not_elem_of_empty in Hp|].
  rw /block_obj_al_dealloc. wp_step. wp_step.
  pose proof (ai_ba _ _ _ _ _ _ _ _ Hi) as [_ Hm]. destruct (ai_rep _ _ _ _ _ _ _ _ Hi) as [cf Hr].
  rw /own_allocator Hm. pose proof (ll_rep_head _ _ _ (re_threads _ _ _ _ _ _ _ _ _ Hr)) as ->. simpl.
  eapply wp_mono; [by eapply thread_allocator_dealloc_ok|]. intros _ h1 (F' & R' & C' & Hi'). right. by eexists _, _, _, _.
Qed.

(** The blocks that the client has are different, and are live. *)
Definition client_inv (ps : list block) h : Prop := NoDup ps ∧ ready h (list_to_set ps).

Lemma client_step_ok t o ps h : client_inv ps h → Z.of_nat (length ps + per_chunk) < 2 ^ 31 - 2 →
  wp (client_step t o ps) h (λ ps' h', client_inv ps' h' ∧ (length ps' ≤ S (length ps))%nat).
Proof.
  intros [Hnd Hr] Hroom. destruct o as [|k|k v]; simpl.
  - wp_step. eapply wp_mono; [apply block_obj_al_alloc_ok; [exact Hr|by rw size_list_to_set]|].
    intros p h1 [Hp Hr1]. wp_step. split; [|rw length_app /=; lia]. split.
    + apply NoDup_app. split_and!; [done| |apply NoDup_singleton]. intros q Hq ->%list_elem_of_singleton.
      by apply Hp, elem_of_list_to_set.
    + rw (_ : list_to_set (ps ++ [p]) = {[p]} ∪ list_to_set ps); [|exact Hr1]. rw list_to_set_app_L /=. set_solver.
  - destruct (ps !! k) as [p|] eqn:Hk; [|wp_step; split; [done|lia]]. 
    wp_step. eapply wp_mono; [apply block_obj_al_dealloc_ok; [exact Hr|]|].
    { apply elem_of_list_to_set. by eapply list_elem_of_lookup_2. }
    intros [] h1 Hr1. wp_step. rw length_delete; [by eexists|]. split; [|lia].
    pose proof (delete_Permutation ps k p Hk) as Hperm. pose proof Hnd as Hnd'. rw Hperm in Hnd'. apply NoDup_cons in Hnd' as [Hp Hnd'].
    split; [done|]. rw (_ : list_to_set (delete k ps) = list_to_set ps ∖ {[p]}); [|exact Hr1].
    rw {2}Hperm /=. set_solver.
  - destruct (ps !! k) as [p|] eqn:Hk; [|wp_step; split; [done|lia]].
    wp_step. assert (Hp : p ∈ (list_to_set ps : gset block)) by (apply elem_of_list_to_set; by eapply list_elem_of_lookup_2).
    destruct Hr as [[-> E]|(a & F & R & C & Hi)]; [rw E in Hp; by apply not_elem_of_empty in Hp|].
    eapply wp_mono; [by eapply store_link_ok|]. intros [] h1 Hi1. wp_step. split; [|lia]. split; [done|].
    right. by eexists _, _, _, _.
Qed.

Lemma client_ok t os ps h : client_inv ps h → Z.of_nat (length ps + length os + per_chunk) < 2 ^ 31 - 2 →
  wp (client t os ps) h client_inv.
Proof.
  revert ps h. induction os as [|o os IH]; intros ps h Hi Hroom; simpl; [by wp_step|].
  wp_step. simpl in Hroom. eapply wp_mono; [apply client_step_ok; [exact Hi|lia]|].
  intros ps' h' [Hi' Hlen]. apply IH; [done|lia].
Qed.

Lemma client_inv_placed ps h p : client_inv ps h → p ∈ ps →
  fst p ∈ h_chunks h ∧ ∃ i, snd p = Z.of_nat i * osz ∧ 0 ≤ snd p ∧ snd p + osz ≤ DEFAULT_BLOCK_SIZE.
Proof.
  intros [_ [[_ E]|(a & F & R & C & Hi)]] Hp%(elem_of_list_to_set (C := gset block)).
  { rw E in Hp. by apply not_elem_of_empty in Hp. }
  destruct (ai_placed _ _ _ _ _ _ _ _ Hi p) as [Hc (i & Ei & Hlt)].
  { rw (ai_dom _ _ _ _ _ _ _ _ Hi). apply elem_of_union. by left. }
  split; [done|]. exists i. split; [done|]. destruct (n0_bounds per_chunk osz Hosz eq_refl) as (_ & Hb & _). rw Ei. nia.
Qed.
End session.

(** C31: blocks that are handed out at the same time do not overlap.  However a
    client without threads allocates, frees what it has and overwrites it, no
    call faults; the blocks that it has are always different, each lies in a
    chunk at a multiple of the block size, which is at least the size asked for,
    and does not reach past the end of the chunk. *)
Theorem blocks_never_overlap t (size : Z) (os : list op) :
  1 ≤ size ≤ DEFAULT_BLOCK_SIZE → Z.of_nat (length os) < 2 ^ 30 →
  ∃ ps h, client t os [] (create_block_obj_allocator false size) = Ok (ps, h) ∧ NoDup ps ∧
    size ≤ obj_size (h_ba (create_block_obj_allocator false size)) ∧
    ∀ p, p ∈ ps → fst p ∈ h_chunks h ∧
      ∃ i, snd p = Z.of_nat i * obj_size (h_ba (create_block_obj_allocator false size)) ∧
        snd p + obj_size (h_ba (create_block_obj_allocator false size)) ≤ DEFAULT_BLOCK_SIZE.
Proof.
  intros Hsize Hos. rw /DEFAULT_BLOCK_SIZE in Hsize.
  set (s := if size <? 8 then 8 else size).
  assert (Hs : 8 ≤ s ≤ 2 ^ 20 ∧ size ≤ s) by (rw /s; destruct (Z.ltb_spec size 8); lia).
  destruct (GetK_pow2 s ltac:(lia)) as [Hk Hsk].
  assert (Hpow : 2 ^ GetK s ≤ 2 ^ 20) by (apply Z.pow_le_mono_r; lia).
  assert (Ho : u32 (i32 (Z.shiftl 1 (GetK s))) = 2 ^ GetK s).
  { rw Z.shiftl_mul_pow2 ?Z.mul_1_l; [lia|]. rw i32_small ?u32_small; lia. }
  assert (E : create_block_obj_allocator false size = new_heap (2 ^ GetK s)).
  { rw /create_block_obj_allocator -/s Ho. done. }
  assert (Hosz : 8 ≤ 2 ^ GetK s ≤ DEFAULT_BLOCK_SIZE) by (rw /DEFAULT_BLOCK_SIZE; lia).
  rw E. simpl.
  destruct (wp_ok _ _ _ (client_ok (2 ^ GetK s) Hosz t os [] (new_heap (2 ^ GetK s)) ltac:(split; [apply NoDup_nil_2|by left])
    ltac:(destruct (n0_bounds (per_chunk (2 ^ GetK s)) _ Hosz eq_refl); simpl; lia))) as (ps & h & Hrun & Hi).
  exists ps, h. split; [exact Hrun|]. split; [apply Hi|]. split; [lia|].
  intros p Hp. destruct (client_inv_placed _ Hosz _ _ _ Hi Hp) as (Hc & i & Ei & _ & Hend).
  split; [done|]. by exists i.
Qed.

(** Two blocks to a chunk: three are allocated, the first one is freed, and two
    more are allocated. *)
Definition few_blocks : list op := [Alloc; Write 0 (Some (1%positive, 0)); Alloc; Alloc; Dealloc 0; Alloc; Alloc].

Lemma blocks_never_overlap_witness : ∃ ps h,
  client 1 few_blocks [] (create_block_obj_allocator false 300000) = Ok (ps, h) ∧ length ps = 4%nat ∧ NoDup ps.
Proof.
  destruct (blocks_never_overlap 1 300000 few_blocks) as (ps & h & Hrun & Hnd & _).
  - split; [lia|]. by vm_compute.
  - by vm_compute.
  - exists ps, h. split; [exact Hrun|]. split; [|exact Hnd].
    assert (Hlen : match client 1 few_blocks [] (create_block_obj_allocator false 300000) with
                   | Ok (ps, _) => length ps = 4%nat | Fault _ => False end) by (by vm_compute).
    by rw Hrun in Hlen.
Defined.

(** With threads a block must be freed by the thread that has allocated it: a
    thread that has not allocated anything has no thread allocator. *)
Lemma dealloc_by_other_thread :
  (p ← block_obj_al_alloc 1; block_obj_al_dealloc 2 p) (create_block_obj_allocator true 300000) = Fault AssertFailed.
Proof. by vm_compute. Qed.

(** A chunk has no block when the size is larger than a chunk. *)
Lemma too_large_block : block_obj_al_alloc 1 (create_block_obj_allocator false 1048577) = Fault NullDeref.
Proof. by vm_compute. Qed.

(** At the end of this run everything is freed. *)
Example destroy_frees_few_blocks :
  match (client 1 few_blocks [] ;; destroy_block_obj_al) (create_block_obj_allocator false 300000) with
  | Ok (_, h) => bool_decide (h_nexts h = ∅ ∧ h_fl h = ∅ ∧ h_ta h = ∅ ∧ h_chunks h = ∅ ∧ h_links h = ∅)
  | Fault _ => false
  end = true.
Proof. by vm_compute. Qed.
