(* ===== verification/Vector.v ===== *)
(** * Vectors ([src/src/vector.c])

    A growing array of values of [val_size] bytes.  The blocks of bytes are the
    store; [calloc] always succeeds.  [realloc] is the C library's, and what it
    does is a parameter: it extends the block where it is, moves it, or fails.
    The struct is passed by value and returned. *)
From S2P Require Import Prelude.

#[local] Open Scope Z_scope.

(** ** The code *)

Record vector := Vector {
  v_size : Z;
  capability : Z;
  val_size : Z;
  vbuf : ptr;
}.

Abbreviation bytes := (gmap loc (list Z)).

(** [memcpy] from and to a block. *)
Definition mem_read (p : ptr) (off n : Z) : M bytes (list Z) :=
  if n =? 0 then mret []
  else
    bs ← hload p;
    if off + n <=? Z.of_nat (length bs) then mret (slice (Z.to_nat off) (Z.to_nat n) bs) else fail OutOfBounds.
Definition mem_write (p : ptr) (off : Z) (cs : list Z) : M bytes () :=
  if decide (cs = []) then mret tt
  else
    bs ← hload p;
    if off + Z.of_nat (length cs) <=? Z.of_nat (length bs)
    then hstore p (splice (Z.to_nat off) cs bs) else fail OutOfBounds.

(** [ALLOC(0,n)] *)
Definition mem_calloc (n : Z) : M bytes loc := halloc (replicate (Z.to_nat n) 0).

(** What [realloc] may do with a block. *)
Inductive realloc_choice := InPlace | Moved | Failed.

Section vector.
Context (choice : loc → Z → realloc_choice).
(** What a byte holds that [realloc] has added. *)
Context (junk : Z).

(** The first bytes are kept; [realloc(p,0)] frees [p]. *)
Definition mem_realloc (p : ptr) (n : Z) : M bytes ptr :=
  match p with
  | None => l ← halloc (replicate (Z.to_nat n) junk); mret (Some l)
  | Some l =>
      if n =? 0 then hfree p;; mret NULL
      else
        bs ← hload p;
        match choice l n with
        | InPlace => hstore p (resize (Z.to_nat n) junk bs);; mret p
        | Moved => l' ← halloc (resize (Z.to_nat n) junk bs); hfree p;; mret (Some l')
        | Failed => mret NULL
        end
  end.

(** [realloc], and [ALLOC] when it fails. *)
Definition grow (p : ptr) (n : Z) : M bytes ptr :=
  buf ← mem_realloc p n;
  match buf with
  | Some _ => mret buf
  | None => l ← mem_calloc n; mret (Some l)
  end.

(** A block of [n] bytes for the one at [p], of which [k] bytes are kept. *)
Definition regrow (p : ptr) (n k : Z) : M bytes ptr :=
  buf ← grow p n;
  (if decide (buf = p) then mret tt
   else
     bs ← mem_read p 0 k;
     mem_write buf 0 bs;;
     hfree p);;
  mret buf.

Definition vector_create (vs reserve_size : Z) : M bytes vector :=
  if reserve_size =? 0 then mret (Vector reserve_size reserve_size vs NULL)
  else
    buf ← mem_calloc (u32 (vs * reserve_size));
    mret (Vector reserve_size reserve_size vs (Some buf)).

Definition vector_copy_create (v : vector) : M bytes vector :=
  match vbuf v with
  | None => vector_create (val_size v) 0
  | Some _ =>
      buf ← mem_calloc (u32 (capability v * val_size v));
      bs ← mem_read (vbuf v) 0 (u32 (val_size v * v_size v));
      mem_write (Some buf) 0 bs;;
      mret (Vector (v_size v) (capability v) (val_size v) (Some buf))
  end.

Definition vector_clear (v : vector) : vector := Vector 0 (capability v) (val_size v) (vbuf v).

Definition vector_copy (v other : vector) : M bytes vector :=
  match vbuf other with
  | None => mret v
  | Some _ =>
      if val_size v =? val_size other then
        v ← (if capability v <? capability other then
               buf ← grow (vbuf v) (u32 (capability other * val_size other));
               (if decide (buf = vbuf v) then mret tt else hfree (vbuf v));;
               mret (Vector (v_size v) (capability other) (val_size v) buf)
             else mret v);
        bs ← mem_read (vbuf other) 0 (u32 (v_size other * val_size other));
        mem_write (vbuf v) 0 bs;;
        mret (Vector (v_size other) (capability v) (val_size v) (vbuf v))
      else mret v
  end.

Definition vector_destroy (v : vector) : M bytes () := hfree (vbuf v).

Definition vector_reserve (v : vector) (reserve_size : Z) : M bytes vector :=
  if reserve_size <? capability v then
    mret (Vector (if reserve_size <? v_size v then reserve_size else v_size v) reserve_size (val_size v) (vbuf v))
  else
    buf ← regrow (vbuf v) (u32 (val_size v * reserve_size)) (u32 (val_size v * v_size v));
    mret (Vector (v_size v) reserve_size (val_size v) buf).

(** The offset of an element; the index expression is unsigned. *)
Definition vector_get_addr_by_idx (v : vector) (idx : Z) : Z := u32 (val_size v * idx).

Definition vector_size (v : vector) : Z := v_size v.
Definition vector_capability (v : vector) : Z := capability v.
Definition vector_to_array (v : vector) : ptr := vbuf v.

Definition vector_push_back (v : vector) (val : list Z) : M bytes vector :=
  v ← (if v_size v =? capability v then
         let cap := if 0 <? capability v then u32 (2 * capability v) else 32 in
         buf ← regrow (vbuf v) (u32 (cap * val_size v)) (u32 (val_size v * capability v));
         mret (Vector (v_size v) cap (val_size v) buf)
       else mret v);
  mem_write (vbuf v) (vector_get_addr_by_idx v (v_size v)) val;;
  mret (Vector (u32 (v_size v + 1)) (capability v) (val_size v) (vbuf v)).

(** [None]: [val] is left as it is. *)
Definition vector_get (v : vector) (idx : Z) : M bytes (option (list Z)) :=
  match vbuf v with
  | Some _ =>
      if idx <? capability v then
        bs ← mem_read (vbuf v) (vector_get_addr_by_idx v idx) (val_size v); mret (Some bs)
      else mret None
  | None => mret None
  end.

Definition vector_set (v : vector) (idx : Z) (val : list Z) : M bytes () :=
  match vbuf v with
  | Some _ =>
      if idx <? capability v then mem_write (vbuf v) (vector_get_addr_by_idx v idx) val else mret tt
  | None => mret tt
  end.
End vector.

(** ** The list that a vector holds *)

(** [xs] are the values of [v]. *)
Record vec_rep (h : bytes) (v : vector) (xs : list (list Z)) : Prop := {
  vr_val : 0 < val_size v;
  vr_size : v_size v = Z.of_nat (length xs);
  vr_fits : v_size v ≤ capability v ∧ capability v * val_size v < 2 ^ 32;
  vr_len : Forall (λ x, length x = Z.to_nat (val_size v)) xs;
  vr_buf : match vbuf v with
           | None => capability v = 0
           | Some l => ∃ bs, h !! l = Some bs ∧ capability v * val_size v ≤ Z.of_nat (length bs) ∧
               take (length (concat xs)) bs = concat xs
           end;
}.

(** The blocks that do not belong to [v] stay. *)
Definition others (v v' : vector) (h h' : bytes) : Prop :=
  ∀ l, is_Some (h !! l) → vbuf v ≠ Some l → h' !! l = h !! l ∧ vbuf v' ≠ Some l.

Lemma concat_length {n} (xs : list (list Z)) : Forall (λ x, length x = n) xs → length (concat xs) = (length xs * n)%nat.
Proof. induction 1 as [|x xs Hx _ IH]; simpl; [done|]. rw length_app Hx IH. lia. Qed.

Lemma mem_read_ok h l bs off n : h !! l = Some bs → 0 ≤ off → 0 ≤ n → off + n ≤ Z.of_nat (length bs) →
  wp (mem_read (Some l) off n) h (λ r h', r = slice (Z.to_nat off) (Z.to_nat n) bs ∧ h' = h).
Proof.
  intros Hl Hoff Hn Hb. rw /mem_read. destruct (Z.eqb_spec n 0) as [->|]; [by wp_step|].
  wp_step. eapply wp_hload; [exact Hl|]. destruct (Z.leb_spec (off + n) (Z.of_nat (length bs))); [by wp_step|lia].
Qed.

Lemma mem_write_ok h l bs off cs : h !! l = Some bs → 0 ≤ off → off + Z.of_nat (length cs) ≤ Z.of_nat (length bs) →
  wp (mem_write (Some l) off cs) h (λ _ h', h' = <[l := splice (Z.to_nat off) cs bs]> h).
Proof.
  intros Hl Hoff Hb. rw /mem_write. case_decide as Hcs.
  - wp_step. subst cs. rw /splice /= Nat.add_0_r take_drop insert_id //.
  - wp_step. eapply wp_hload; [exact Hl|].
    destruct (Z.leb_spec (off + Z.of_nat (length cs)) (Z.of_nat (length bs))); [|lia]. eapply wp_hstore; [exact Hl|done].
Qed.

Section vector_proof.
(** [realloc] does not move blocks. *)
Context (choice : loc → Z → realloc_choice) (junk : Z) (stays : ∀ l n, choice l n ≠ Moved).
Implicit Types (h : bytes) (v : vector) (x : list Z) (xs : list (list Z)).

Lemma vec_bytes h v xs : vec_rep h v xs → length (concat xs) = Z.to_nat (v_size v * val_size v) ∧
  v_size v * val_size v ≤ capability v * val_size v.
Proof.
  intros [A B C D _]. rw (concat_length _ D) B. split; [|nia]. rw Z2Nat.inj_mul; [lia..|]. by rw Nat2Z.id.
Qed.

Lemma grow_ok h p n : 0 < n → (∀ l, p = Some l → is_Some (h !! l)) →
  wp (grow choice junk p n) h (λ p' h', ∃ l bs, p' = Some l ∧ h' = <[l := bs]> h ∧ length bs = Z.to_nat n ∧
    ((p = Some l ∧ ∃ bs0, h !! l = Some bs0 ∧ bs = resize (Z.to_nat n) junk bs0) ∨ h !! l = None)).
Proof.
  intros Hn Hp. rw /grow. destruct p as [l|]; simpl.
  - destruct (Hp l eq_refl) as [bs Hl]. wp_step. destruct (Z.eqb_spec n 0); [lia|].
    wp_step. eapply wp_hload; [exact Hl|]. destruct (choice l n) eqn:Hc; [|by destruct (stays l n)|].
    + wp_step. eapply wp_hstore; [exact Hl|]. wp_step. wp_step. exists l, (resize (Z.to_nat n) junk bs).
      rw length_resize. split_and!; try done. left. split; [done|]. by exists bs.
    + wp_step. rw /mem_calloc. wp_step. apply wp_halloc. intros l' Hl'. wp_step.
      exists l', (replicate (Z.to_nat n) 0). rw length_replicate. split_and!; try done. by right.
  - wp_step. wp_step. apply wp_halloc. intros l' Hl'. wp_step. wp_step.
    exists l', (replicate (Z.to_nat n) junk). rw length_replicate. split_and!; try done. by right.
Qed.

(** The bytes of the values are among the [k] that are kept. *)
Lemma regrow_ok h v xs n k : vec_rep h v xs → 0 < n → capability v * val_size v ≤ n →
  v_size v * val_size v ≤ k ≤ capability v * val_size v →
  wp (regrow choice junk (vbuf v) n k) h (λ p' h', ∃ l bs, p' = Some l ∧ h' !! l = Some bs ∧
    length bs = Z.to_nat n ∧ take (length (concat xs)) bs = concat xs ∧
    others v (Vector (v_size v) (capability v) (val_size v) (Some l)) h h').
Proof.
  intros Hv Hn Hcap Hk. destruct (vec_bytes _ _ _ Hv) as [Hlen Hle]. pose proof Hv as [A B C D E].
  rw /regrow. wp_step. eapply wp_mono.
  { apply grow_ok; [exact Hn|]. intros l El. rw El in E. destruct E as (bs & Hl & _). by eexists. }
  intros p' h' (l & bs & -> & -> & Hbs & Hor). destruct (vbuf v) as [l0|] eqn:Hb.
  - destruct E as (bs0 & Hl0 & Hcap0 & Htake). destruct Hor as [([= ->] & bs1 & Hl1 & ->)|Hnew].
    + wp_step. case_decide; [|done]. wp_step. wp_step. exists l, (resize (Z.to_nat n) junk bs0).
      assert (bs1 = bs0) as -> by congruence. rw lookup_insert_eq. split_and!; try done.
      * rw take_resize_le; [rw Hlen; lia|]. rw resize_le; [rw Hlen; lia|]. exact Htake.
      * rw /others /= Hb. intros l' _ Hne. split; [|done]. rw lookup_insert_ne //. congruence.
    + assert (l ≠ l0) by congruence. wp_step. case_decide; [congruence|].
      wp_step. eapply wp_mono; [apply (mem_read_ok _ l0 bs0); [by rw lookup_insert_ne|lia..]|]. intros r h1 (-> & ->).
      assert (Hk' : length (slice (Z.to_nat 0) (Z.to_nat k) bs0) = Z.to_nat k) by (apply length_slice; lia).
      wp_step. eapply wp_mono; [apply (mem_write_ok _ l bs); [by rw lookup_insert_eq|lia|rw Hk'; lia]|]. intros [] h1 ->.
      eapply wp_hfree; [by rw insert_insert_eq lookup_insert_ne|]. wp_step.
      exists l, (splice (Z.to_nat 0) (slice (Z.to_nat 0) (Z.to_nat k) bs0) bs).
      rw insert_insert_eq lookup_delete_ne // lookup_insert_eq length_splice; [rw Hk'; lia|]. split_and!; try done.
      * change (Z.to_nat 0) with 0%nat in *. rw /splice firstn_O app_nil_l take_app_le; [rw Hk'; lia|].
        rw /slice drop_0 take_take Nat.min_l; [lia|done].
      * rw /others /= Hb. intros l' [bs' Hl'] Hne. assert (l ≠ l') by congruence. assert (l0 ≠ l') by congruence.
        split; [by rw lookup_delete_ne // lookup_insert_ne|congruence].
  - destruct Hor as [[? _]|Hnew]; [done|].
    assert (Hxs : concat xs = []). { apply nil_length_inv. rw Hlen. nia. }
    assert (k = 0) as -> by nia.
    wp_step. case_decide; [done|]. wp_step. rw /mem_read Z.eqb_refl. wp_step. wp_step. rw /mem_write. case_decide; [|done]. wp_step.
    eapply ok_wp; [reflexivity|]. wp_step. exists l, bs. rw lookup_insert_eq Hxs. split_and!; try done.
    rw /others /= Hb. intros l' [bs' Hl'] _. assert (l ≠ l') by congruence. split; [by rw lookup_insert_ne|congruence].
Qed.
Lemma concat_take_drop (xs : list (list Z)) n i x : Forall (λ x, length x = n) xs → xs !! i = Some x →
  slice (i * n)%nat n (concat xs) = x.
Proof.
  intros Hall Hi. rw -(take_drop_middle xs i x Hi) concat_app /= /slice.
  assert (Hl : length (concat (take i xs)) = (i * n)%nat).
  { rw (concat_length (n := n)); [by apply Forall_take|]. rw length_take_le //. apply lookup_lt_Some in Hi. lia. }
  rw drop_app_length' // take_app_length' //. symmetry. apply (Forall_lookup_1 _ _ _ _ Hall Hi).
Qed.

Lemma concat_insert (xs : list (list Z)) n i x : Forall (λ x, length x = n) xs → (i < length xs)%nat → length x = n →
  concat (<[i := x]> xs) = splice (i * n)%nat x (concat xs).
Proof.
  intros Hall Hi Hx. destruct (lookup_lt_is_Some_2 xs i ltac:(lia)) as [y Hy].
  pose proof (Forall_lookup_1 _ _ _ _ Hall Hy) as Hyn. simpl in Hyn.
  assert (Hl : length (concat (take i xs)) = (i * n)%nat).
  { rw (concat_length (n := n)); [by apply Forall_take|]. rw length_take_le //. lia. }
  rw insert_take_drop; [lia|]. rw concat_app /= /splice. rw -{3 4}(take_drop_middle xs i y Hy) !concat_app /=.
  rw take_app_length' //. do 2 f_equal. rw drop_app_ge; [lia|]. rw drop_app_ge; [lia|].
  rw Hl Hx Hyn. by replace (i * n + n - i * n - n)%nat with 0%nat by lia.
Qed.

Lemma vector_get_ok h v xs i x : vec_rep h v xs → xs !! i = Some x →
  wp (vector_get v (Z.of_nat i)) h (λ r h', r = Some x ∧ h' = h).
Proof.
  intros Hv Hi. destruct (vec_bytes _ _ _ Hv) as [Hlen Hle]. destruct Hv as [A B C D E].
  pose proof (lookup_lt_Some _ _ _ Hi) as Hlt. rw /vector_get. destruct (vbuf v) as [l|]; [|lia].
  destruct E as (bs & Hl & Hcap & Htake). destruct (Z.ltb_spec (Z.of_nat i) (capability v)); [|lia].
  assert (Hoff : 0 ≤ val_size v * Z.of_nat i ∧ val_size v * Z.of_nat i + val_size v ≤ v_size v * val_size v) by nia.
  rw /vector_get_addr_by_idx u32_small; [lia|]. wp_step.
  eapply wp_mono; [apply (mem_read_ok _ l bs); [done|lia..]|]. intros r h' (-> & ->). wp_step. split; [|done]. f_equal.
  rw -(slice_take _ _ (length (concat xs))); [rw Hlen; lia|]. rw Htake.
  rw Z.mul_comm Z2Nat.inj_mul; [lia..|]. rw Nat2Z.id. by apply concat_take_drop.
Qed.

Lemma vector_set_ok h v xs i x : vec_rep h v xs → (i < length xs)%nat → length x = Z.to_nat (val_size v) →
  wp (vector_set v (Z.of_nat i) x) h (λ _ h', vec_rep h' v (<[i := x]> xs) ∧ others v v h h').
Proof.
  intros Hv Hi Hx. destruct (vec_bytes _ _ _ Hv) as [Hlen Hle]. pose proof Hv as [A B C D E].
  rw /vector_set. destruct (vbuf v) as [l|] eqn:Hb; [|lia].
  destruct E as (bs & Hl & Hcap & Htake). destruct (Z.ltb_spec (Z.of_nat i) (capability v)); [|lia].
  assert (Hoff : 0 ≤ val_size v * Z.of_nat i ∧ val_size v * Z.of_nat i + val_size v ≤ v_size v * val_size v) by nia.
  rw /vector_get_addr_by_idx u32_small; [lia|].
  assert (Hpos : Z.to_nat (val_size v * Z.of_nat i) = (i * Z.to_nat (val_size v))%nat) by lia.
  eapply wp_mono; [apply (mem_write_ok _ l bs); [done|lia|rw Hx; lia]|]. intros [] h' ->. rw Hpos.
  assert (Hc : concat (<[i := x]> xs) = splice (i * Z.to_nat (val_size v))%nat x (concat xs)) by (by apply concat_insert).
  assert (Hend : (i * Z.to_nat (val_size v) + length x ≤ length (concat xs))%nat) by (rw Hlen Hx; lia).
  split.
  - split; [done|by rw length_insert|done|by apply Forall_insert|]. rw Hb. exists (splice (i * Z.to_nat (val_size v))%nat x bs).
    rw lookup_insert_eq length_splice; [lia|]. split; [done|]. split; [done|]. rw Hc length_splice //.
    rw take_splice_all; [done|lia|]. by rw Htake.
  - rw /others Hb. intros l' _ Hne. split; [|done]. rw lookup_insert_ne //. congruence.
Qed.

Lemma others_refl v v' h : vbuf v' = vbuf v → others v v' h h.
Proof. intros E l _. by rw E. Qed.
Lemma others_trans v1 v2 v3 h1 h2 h3 : others v1 v2 h1 h2 → others v2 v3 h2 h3 → others v1 v3 h1 h3.
Proof.
  intros A1 A2 l Hl Hne. destruct (A1 l Hl Hne) as [E1 N1]. rw -E1 in Hl. destruct (A2 l Hl N1) as [E2 N2].
  split; [congruence|done].
Qed.

(** The capacity after a push. *)
Definition pushed_cap (n cap : Z) : Z := if n =? cap then if 0 <? cap then 2 * cap else 32 else cap.

(** The value goes behind the others, in a block with room for it. *)
Lemma store_last h l bs v xs x c : vec_rep h v xs → v_size v < c → c * val_size v < 2 ^ 32 →
  h !! l = Some bs → c * val_size v ≤ Z.of_nat (length bs) → take (length (concat xs)) bs = concat xs →
  length x = Z.to_nat (val_size v) →
  wp (mem_write (Some l) (vector_get_addr_by_idx (Vector (v_size v) c (val_size v) (Some l)) (v_size v)) x) h
    (λ _ h', vec_rep h' (Vector (u32 (v_size v + 1)) c (val_size v) (Some l)) (xs ++ [x]) ∧
       ∀ l', l' ≠ l → h' !! l' = h !! l').
Proof.
  intros Hv Hc Hfit Hl Hbs Htake Hx. destruct (vec_bytes _ _ _ Hv) as [Hlen Hle]. pose proof Hv as [A B C D E].
  rw /vector_get_addr_by_idx /= u32_small; [nia|].
  eapply wp_mono; [apply (mem_write_ok _ l bs); [done|nia|rw Hx; nia]|]. intros [] h' ->. 
  rw (_ : Z.to_nat (val_size v * v_size v) = length (concat xs)); [rw Hlen; f_equal; lia|].
  assert (Hend : (length (concat xs) + length x ≤ length bs)%nat) by (rw Hlen Hx; nia).
  split; [|intros l' Hne; by rw lookup_insert_ne].
  split; simpl.
  - done.
  - rw u32_small; [nia|]. rw length_app /= B. lia.
  - split; [|done]. rw u32_small; nia.
  - apply Forall_app. split; [done|]. by apply Forall_singleton.
  - exists (splice (length (concat xs)) x bs). rw lookup_insert_eq length_splice //. split; [done|]. split; [done|].
    rw concat_app /= app_nil_r length_app take_splice_end // Htake. done.
Qed.

Lemma vector_push_back_ok h v xs x : vec_rep h v xs → length x = Z.to_nat (val_size v) →
  pushed_cap (v_size v) (capability v) * val_size v < 2 ^ 32 →
  wp (vector_push_back choice junk v x) h (λ v' h', vec_rep h' v' (xs ++ [x]) ∧ val_size v' = val_size v ∧
    capability v' = pushed_cap (v_size v) (capability v) ∧ others v v' h h').
Proof.
  intros Hv Hx Hroom. destruct (vec_bytes _ _ _ Hv) as [Hlen Hle]. pose proof Hv as [A B C D E].
  rw /pushed_cap in Hroom. rw /vector_push_back /pushed_cap. destruct (Z.eqb_spec (v_size v) (capability v)) as [Hfull|Hnot].
  - set (cap := if 0 <? capability v then 2 * capability v else 32) in *.
    assert (Hcap : (if 0 <? capability v then u32 (2 * capability v) else 32) = cap ∧ capability v < cap).
    { rw /cap in Hroom |- *. destruct (Z.ltb_spec 0 (capability v)); [|lia]. rw u32_small; nia. }
    destruct Hcap as [-> Hcap]. rw (u32_small (cap * _)); [nia|]. rw (u32_small (val_size v * capability v)); [nia|].
    wp_step. wp_step. eapply wp_mono; [eapply (regrow_ok _ _ _ (cap * val_size v)); [exact Hv|nia..]|].
    intros p' h' (l & bs & -> & Hl & Hbs & Htake & Hoth). wp_step. wp_step. cbn [vbuf v_size capability val_size].
    assert (Hv' : vec_rep h' (Vector (v_size v) (capability v) (val_size v) (Some l)) xs).
    { split; try done. simpl. exists bs. split; [done|]. split; [nia|done]. }
    eapply wp_mono; [eapply (store_last _ l bs (Vector (v_size v) (capability v) (val_size v) (Some l)) xs); try done; simpl; nia|].
    intros [] h2 [Hv2 Hsame]. wp_step. split; [exact Hv2|]. split; [done|]. split; [done|].
    intros l' Hl' Hne. destruct (Hoth l' Hl' Hne) as [E1 N1]. simpl in N1. split; [|done]. rw Hsame; [congruence|done].
  - wp_step. wp_step. destruct (vbuf v) as [l|] eqn:Hb; [|lia].
    destruct E as (bs & Hl & Hbs & Htake). wp_step.
    change (vector_get_addr_by_idx v (v_size v))
      with (vector_get_addr_by_idx (Vector (v_size v) (capability v) (val_size v) (Some l)) (v_size v)).
    eapply wp_mono; [eapply (store_last _ l bs); try done; lia|]. intros [] h2 [Hv2 Hsame]. wp_step.
    split; [exact Hv2|]. split; [done|]. split; [done|].
    intros l' Hl' Hne. rw Hb in Hne. split; [|done]. apply Hsame. congruence.
Qed.

Lemma vec_rep_take h v xs n : vec_rep h v xs → (n ≤ length xs)%nat →
  vec_rep h (Vector (Z.of_nat n) (capability v) (val_size v) (vbuf v)) (take n xs).
Proof.
  intros Hv Hn. destruct (vec_bytes _ _ _ Hv) as [Hlen Hle]. destruct Hv as [A B C D E]. split; simpl.
  - done.
  - rw length_take_le //.
  - lia.
  - by apply Forall_take.
  - destruct (vbuf v) as [l|]; [|done]. destruct E as (bs & Hl & Hbs & Htake). exists bs. split; [done|]. split; [done|].
    assert (Hp : concat (take n xs) `prefix_of` concat xs).
    { exists (concat (drop n xs)). by rw -concat_app take_drop. }
    destruct Hp as [k Hk].
    rw -{2}(take_app_length (concat (take n xs)) k) -Hk -Htake take_take Nat.min_l //. rw Hk length_app. lia.
Qed.

Lemma vector_reserve_ok h v xs n : vec_rep h v xs → 0 < n → n * val_size v < 2 ^ 32 →
  wp (vector_reserve choice junk v n) h (λ v' h', vec_rep h' v' (take (Z.to_nat n) xs) ∧ val_size v' = val_size v ∧
    capability v' = n ∧ others v v' h h').
Proof.
  intros Hv Hn Hroom. destruct (vec_bytes _ _ _ Hv) as [Hlen Hle]. pose proof Hv as [A B C D E].
  rw /vector_reserve. destruct (Z.ltb_spec n (capability v)) as [Hlt|Hge].
  - wp_step. split; [|by split_and!; [..|apply others_refl]].
    assert (Hsz : (if n <? v_size v then n else v_size v) = Z.of_nat (length (take (Z.to_nat n) xs))).
    { rw length_take. destruct (Z.ltb_spec n (v_size v)); lia. }
    destruct (vec_rep_take h v xs (length (take (Z.to_nat n) xs)) Hv ltac:(rw length_take; lia)) as [A' B' C' D' E'].
    rw Hsz. rw (_ : take (length (take (Z.to_nat n) xs)) xs = take (Z.to_nat n) xs) in E', D'; [rw length_take; destruct (decide (Z.to_nat n ≤ length xs)%nat); [by rw Nat.min_l|rw Nat.min_r; [lia|]; by rw !take_ge; [lia..|]]|].
    split; simpl; try done.
    + rw length_take. nia.
    + simpl in E'. destruct (vbuf v) as [l|]; [|lia]. destruct E' as (bs & Hl & Hbs & Htake). exists bs. split; [done|]. split; [nia|done].
  - rw (u32_small (val_size v * n)); [nia|]. rw (u32_small (val_size v * v_size v)); [nia|].
    wp_step. eapply wp_mono; [eapply (regrow_ok _ _ _ (val_size v * n)); [exact Hv|nia..]|].
    intros p' h' (l & bs & -> & Hl & Hbs & Htake & Hoth). wp_step.
    rw take_ge; [lia|]. split; [|by split_and!].
    split; simpl; try done; [lia|]. exists bs. split; [done|]. split; [nia|done].
Qed.
End vector_proof.

(** ** A client of a vector *)

Inductive op :=
  | PushBack (x : list Z) | Get (i : nat) | Set_ (i : nat) (x : list Z) | Reserve (n : Z) | Clear | SizeOf | CapabilityOf.
Inductive out := Done | Value (x : option (list Z)) | Number (n : Z).

Definition impl_step (choice : loc → Z → realloc_choice) (junk : Z) (o : op) (v : vector) : M bytes (out * vector) :=
  match o with
  | PushBack x => v ← vector_push_back choice junk v x; mret (Done, v)
  | Get i => r ← vector_get v (Z.of_nat i); mret (Value r, v)
  | Set_ i x => vector_set v (Z.of_nat i) x;; mret (Done, v)
  | Reserve n => v ← vector_reserve choice junk v n; mret (Done, v)
  | Clear => mret (Done, vector_clear v)
  | SizeOf => mret (Number (vector_size v), v)
  | CapabilityOf => mret (Number (vector_capability v), v)
  end.
Fixpoint impl_run (choice : loc → Z → realloc_choice) (junk : Z) (os : list op) (v : vector) : M bytes (list out * vector) :=
  match os with
  | [] => mret ([], v)
  | o :: os =>
      '(r, v) ← impl_step choice junk o v;
      '(rs, v) ← impl_run choice junk os v;
      mret (r :: rs, v)
  end.

(** The same on a list of values and a capacity. *)
Definition spec_step (o : op) (s : list (list Z) * Z) : out * (list (list Z) * Z) :=
  let '(xs, cap) := s in
  match o with
  | PushBack x => (Done, (xs ++ [x], pushed_cap (Z.of_nat (length xs)) cap))
  | Get i => (Value (xs !! i), s)
  | Set_ i x => (Done, (<[i := x]> xs, cap))
  | Reserve n => (Done, (take (Z.to_nat n) xs, n))
  | Clear => (Done, ([], cap))
  | SizeOf => (Number (Z.of_nat (length xs)), s)
  | CapabilityOf => (Number cap, s)
  end.
Fixpoint spec_run (os : list op) (s : list (list Z) * Z) : list out * (list (list Z) * Z) :=
  match os with
  | [] => ([], s)
  | o :: os => let '(r, s) := spec_step o s in let '(rs, s) := spec_run os s in (r :: rs, s)
  end.

(** Values have the size of the vector's values, an index is that of a value,
    and the bytes of the capacity fit 32 bits. *)
Definition admissible (vs : Z) (o : op) (s : list (list Z) * Z) : Prop :=
  let '(xs, cap) := s in
  match o with
  | PushBack x => length x = Z.to_nat vs ∧ pushed_cap (Z.of_nat (length xs)) cap * vs < 2 ^ 32
  | Get i => (i < length xs)%nat
  | Set_ i x => (i < length xs)%nat ∧ length x = Z.to_nat vs
  | Reserve n => 0 < n ∧ n * vs < 2 ^ 32
  | Clear | SizeOf | CapabilityOf => True
  end.
Fixpoint admissible_run (vs : Z) (os : list op) (s : list (list Z) * Z) : Prop :=
  match os with
  | [] => True
  | o :: os => admissible vs o s ∧ admissible_run vs os (snd (spec_step o s))
  end.

Section refinement.
Context (choice : loc → Z → realloc_choice) (junk : Z) (stays : ∀ l n, choice l n ≠ Moved).

Definition holds (vs : Z) (h : bytes) (v : vector) (s : list (list Z) * Z) : Prop :=
  vec_rep h v (fst s) ∧ val_size v = vs ∧ capability v = snd s.

Lemma step_refines vs o h v s : holds vs h v s → admissible vs o s →
  wp (impl_step choice junk o v) h (λ r h', fst r = fst (spec_step o s) ∧ holds vs h' (snd r) (snd (spec_step o s))).
Proof.
  destruct s as [xs cap]. intros (Hv & <- & Hc) Ha. simpl in Hv, Hc. pose proof (vr_size _ _ _ Hv) as Hsz.
  destruct o as [x|i|i x|n| | |]; simpl in Ha |- *.
  - destruct Ha as [Hx Hroom]. wp_step.
    eapply wp_mono; [eapply (vector_push_back_ok _ _ stays); [exact Hv|exact Hx|by rw Hsz Hc]|].
    intros v' h' (Hv' & Evs & Ecap & _). wp_step. split; [done|]. split; [exact Hv'|]. split; [done|]. by rw Ecap Hsz Hc.
  - destruct (lookup_lt_is_Some_2 _ _ Ha) as [x Hx].
    wp_step. eapply wp_mono; [by eapply vector_get_ok|]. intros r h' [-> ->]. wp_step. split; [by rw /= Hx|done].
  - destruct Ha as [Hi Hx]. wp_step. eapply wp_mono; [by eapply vector_set_ok|]. intros [] h' [Hv' _]. wp_step. done.
  - destruct Ha as [Hn Hroom]. wp_step. eapply wp_mono; [eapply (vector_reserve_ok _ _ stays); [exact Hv|exact Hn|exact Hroom]|].
    intros v' h' (Hv' & Evs & Ecap & _). wp_step. done.
  - wp_step. split; [done|]. split; [|done]. pose proof (vec_rep_take h v xs 0 Hv ltac:(lia)) as H0. exact H0.
  - wp_step. split; [|done]. simpl. rw /vector_size Hsz //.
  - wp_step. split; [|done]. simpl. rw /vector_capability Hc //.
Qed.

Lemma run_refines vs os h v s : holds vs h v s → admissible_run vs os s →
  wp (impl_run choice junk os v) h (λ r h', fst r = fst (spec_run os s) ∧ holds vs h' (snd r) (snd (spec_run os s))).
Proof.
  revert h v s. induction os as [|o os IH]; intros h v s Hh Ha; cbn [impl_run spec_run]; [by wp_step|].
  destruct Ha as [Ha Has]. wp_step. eapply wp_mono; [by apply step_refines|].
  intros [r v'] h' [Er Hh']. simpl in Er, Hh'. destruct (spec_step o s) as [r' s']. simpl in *. subst r'.
  wp_step. eapply wp_mono; [by apply (IH _ _ s')|]. intros [rs v''] h'' [Ers Hh'']. simpl in Ers, Hh''.
  destruct (spec_run os s') as [rs' s'']. simpl in *. subst rs'. by wp_step.
Qed.
End refinement.


(** Two-byte values; the block grows in place, or cannot grow. *)
Definition some_calls : list op :=
  [PushBack [1; 2]; PushBack [3; 4]; Get 1; Set_ 0 [5; 6]; Reserve 40; Get 0; SizeOf; Reserve 1; CapabilityOf; PushBack [7; 8]; Get 1].
Definition no_move (l : loc) (n : Z) : realloc_choice := if n <? 70 then InPlace else Failed.


(** When [realloc] moves the block, the old one is copied and freed once more:
    the 33rd push reads a block that is gone. *)
Lemma push_back_after_move :
  (v ← vector_create 1 0; impl_run (λ _ _, Moved) 0 (replicate 33 (PushBack [7])) v) ∅ = Fault Dangling.
Proof. by vm_compute. Qed.

(** [vector_copy] frees it once more. *)
Lemma copy_after_move :
  (v ← vector_create 1 1; other ← vector_create 1 2; vector_copy (λ _ _, Moved) 0 v other) ∅ = Fault BadFree.
Proof. by vm_compute. Qed.

(** A new vector has as many values as were reserved, and a value that has been
    cleared can still be read: the index is compared with the capacity. *)
Lemma reads_past_size :
  match (v ← vector_create 1 2; v ← vector_push_back (λ _ _, InPlace) 0 v [5];
         r ← vector_get (vector_clear v) 2; mret (vector_size v, r)) ∅ with Ok (r, _) => Some r | Fault _ => None end =
  Some (3, Some [5]).
Proof. by vm_compute. Qed.
