(* ===== verification/KString.v ===== *)
(** * Strings ([src/src/kstring.c])

    A string is a block of characters that a 0 ends, with the size of the block.
    The functions of [string.h] are written out over blocks; a string argument
    that comes from outside is the list of its characters, without the 0.
    [calloc] always succeeds; [realloc] and what it adds to a block are those of
    [Vector]. *)
From S2P Require Import Prelude Vector.

#[local] Open Scope Z_scope.

(** ** [string.h] *)

(** The characters before the first 0. *)
Fixpoint cstr (bs : list Z) : option (list Z) :=
  match bs with
  | [] => None
  | c :: bs => if c =? 0 then Some [] else cons c <$> cstr bs
  end.

(** The characters at [p], from [off] on; the block must have a 0 there. *)
Definition load_cstr (p : ptr) (off : Z) : M bytes (list Z) :=
  bs ← hload p;
  match cstr (drop (Z.to_nat off) bs) with Some cs => mret cs | None => fail OutOfBounds end.
(** The same, but no more than [n]. *)
Fixpoint cstr_n (n : nat) (bs : list Z) : option (list Z) :=
  match n, bs with
  | O, _ => Some []
  | S n, [] => None
  | S n, c :: bs => if c =? 0 then Some [] else cons c <$> cstr_n n bs
  end.
Definition load_cstr_n (p : ptr) (off n : Z) : M bytes (list Z) :=
  bs ← hload p;
  match cstr_n (Z.to_nat n) (drop (Z.to_nat off) bs) with Some cs => mret cs | None => fail OutOfBounds end.
Definition strlen (p : ptr) : M bytes Z := cs ← load_cstr p 0; mret (u32 (Z.of_nat (length cs))).

(** What [strncpy] writes: the characters, and zeros up to [n]. *)
Definition padded (cs : list Z) (n : Z) : list Z := resize (Z.to_nat n) 0 cs.
Definition strncpy (p : ptr) (cs : list Z) (n : Z) : M bytes () := mem_write p 0 (padded cs n).

Definition strcat (p : ptr) (cs : list Z) : M bytes () :=
  ds ← load_cstr p 0;
  mem_write p (Z.of_nat (length ds)) (cs ++ [0]).

(** [strcmp] compares [unsigned char]s. *)
Fixpoint strcmp (l r : list Z) : Z :=
  match l, r with
  | [], [] => 0
  | [], _ :: _ => -1
  | _ :: _, [] => 1
  | c :: l, d :: r => if c =? d then strcmp l r else if c <? d then -1 else 1
  end.

(** [strstr]: how far from the start the first occurrence is. *)
Fixpoint is_prefix (b a : list Z) : bool :=
  match b, a with
  | [], _ => true
  | c :: b, d :: a => (c =? d) && is_prefix b a
  | _ :: _, [] => false
  end.
Fixpoint strstr (a b : list Z) : option Z :=
  if is_prefix b a then Some 0
  else match a with [] => None | _ :: a => Z.succ <$> strstr a b end.

(** ** The code *)

Record string := String_ { buf_size : Z; str : ptr }.

Definition string_create (cs : option (list Z)) : M bytes string :=
  match cs with
  | None => mret (String_ 0 NULL)
  | Some cs =>
      let n := u32 (Z.of_nat (length cs) + 1) in
      p ← mem_calloc n;
      strncpy (Some p) cs n;;
      mret (String_ n (Some p))
  end.

(** [n] characters at the offset [off] of a block. *)
Definition string_create_n (p : ptr) (off n : Z) : M bytes string :=
  match p with
  | None => mret (String_ 0 NULL)
  | Some _ =>
      let sz := u32 (n + 1) in
      q ← mem_calloc sz;
      cs ← load_cstr_n p off n;
      strncpy (Some q) cs n;;
      mem_write (Some q) n [0];;
      mret (String_ sz (Some q))
  end.

Definition string_destroy (s : string) : M bytes () := hfree (str s).

Definition string_size (s : string) : M bytes Z :=
  match str s with None => mret 0 | Some _ => strlen (str s) end.

Definition string_c_str (s : string) : ptr := str s.

Definition string_assign_cstr (a : string) (b : list Z) : M bytes string :=
  len1 ← string_size a;
  let len2 := u32 (Z.of_nat (length b)) in
  a ← (if bool_decide (str a = NULL) || (len1 <? len2) then
         p ← mem_calloc (u32 (len2 + 1));
         mret (String_ (u32 (len2 + 1)) (Some p))
       else mret a);
  strncpy (str a) b (u32 (len2 + 1));;
  mret a.

Definition string_assign (a b : string) : M bytes string :=
  match str b with
  | None => mret a
  | Some _ => cs ← load_cstr (str b) 0; string_assign_cstr a cs
  end.

Section string.
Context (choice : loc → Z → realloc_choice) (junk : Z).

Definition string_cat_cstr (a : string) (b : list Z) : M bytes string :=
  len1 ← string_size a;
  let len2 := u32 (Z.of_nat (length b)) in
  let len3 := u32 (len1 + len2 - 1) in
  match str a with
  | None =>
      p ← mem_calloc (u32 (len2 + 1));
      strncpy (Some p) b (u32 (len2 + 1));;
      mret (String_ (buf_size a) (Some p))
  | Some _ =>
      if len3 <=? buf_size a then
        strcat (str a) b;; mret a
      else
        buf ← mem_realloc choice junk (str a) len3;
        buf ← match buf with
              | Some _ => mret buf
              | None =>
                  l ← mem_calloc len3;
                  cs ← load_cstr_n (str a) 0 (u32 (len1 + 1));
                  strncpy (Some l) cs (u32 (len1 + 1));;
                  mret (Some l)
              end;
        strcat buf b;;
        mret (String_ len3 buf)
  end.

Definition string_cat (a b : string) : M bytes string :=
  match str b with
  | None => mret a
  | Some _ => cs ← load_cstr (str b) 0; string_cat_cstr a cs
  end.

Definition string_find_cstr (a : string) (b : list Z) : M bytes (option Z) :=
  match str a with
  | None => mret None
  | Some _ => cs ← load_cstr (str a) 0; mret (strstr cs b)
  end.
Definition string_find (a b : string) : M bytes (option Z) :=
  match str b with
  | None => mret None
  | Some _ => cs ← load_cstr (str b) 0; string_find_cstr a cs
  end.

Definition string_compare (l r : string) : M bytes Z :=
  cs ← load_cstr (str l) 0; ds ← load_cstr (str r) 0; mret (strcmp cs ds).
End string.

(** [string_split] pushes pointers to new strings; the structs they point to are
    a store of their own. *)
Record heap := Heap { h_bytes : bytes; h_strings : gmap loc string }.
Definition on_bytes {A} : M bytes A → M heap A := zoom h_bytes (λ b h, Heap b (h_strings h)).
Definition on_strings {A} : M (gmap loc string) A → M heap A := zoom h_strings (λ s h, Heap (h_bytes h) s).

Section split.
Context (choice : loc → Z → realloc_choice) (junk : Z).
(** The bytes of a pointer. *)
Context (pointer : loc → list Z).

(** The characters from [b] up to [cur] become a string. *)
Definition push_field (s : ptr) (b cur : Z) (v : vector) : M heap vector :=
  f ← on_bytes (string_create_n s b (cur - b));
  l ← on_strings (halloc f);
  on_bytes (vector_push_back choice junk v (pointer l)).

(** The character at an offset. *)
Definition char_at (s : ptr) (i : Z) : M heap Z :=
  on_bytes (r ← mem_read s i 1; match r with [c] => mret c | _ => fail OutOfBounds end).

(** The locals are [cur], [b] and the vector. *)
Definition split_body (s : ptr) (delimiters : list Z) (x : Z * Z * vector) :
    M heap ((Z * Z * vector) + (Z * Z * vector)) :=
  let '(cur, b, v) := x in
  c ← char_at s cur;
  if c =? 0 then mret (inr (cur, b, v))
  else
    let cur := cur + 1 in
    c ← char_at s cur;
    if bool_decide (c ∈ delimiters) then
      v ← push_field s b cur v;
      mret (inl (cur + 1, cur + 1, v))
    else mret (inl (cur, b, v)).

(** [fuel] bounds the rounds of the loop. *)
Definition string_split (fuel : nat) (s : string) (v : vector) (delimiters : list Z) : M heap vector :=
  match str s with
  | None => mret v
  | Some _ =>
      if decide (delimiters = []) then mret v
      else
        '(cur, b, v) ← loop fuel (split_body (str s) delimiters) (0, 0, v);
        push_field (str s) b cur v
  end.
End split.

(** ** Splitting *)

(** The text that the pieces make: every piece is a field and the character
    after it, which is a delimiter, and the 0 that ends the text for the last. *)
Definition flat (ps : list (list Z * Z)) : list Z := concat ((λ x, fst x ++ [snd x]) <$> ps).

(** The characters of fields are neither 0 nor delimiters. *)
Definition plain (delimiters : list Z) (f : list Z) : Prop := Forall (λ c, c ≠ 0 ∧ c ∉ delimiters) f.

(** Only the last field may be empty. *)
Record piece_ok (delimiters : list Z) (x : list Z * Z) : Prop := {
  pk_plain : plain delimiters (fst x);
  pk_some : fst x ≠ [];
  pk_delim : snd x ∈ delimiters;
}.
Definition pieces_ok (delimiters : list Z) (ps : list (list Z * Z)) (last : list Z) : Prop :=
  Forall (piece_ok delimiters) ps ∧ plain delimiters last.

Lemma flat_app ps qs : flat (ps ++ qs) = flat ps ++ flat qs.
Proof. by rw /flat fmap_app concat_app. Qed.

Lemma cstr_n_prefix f bs : Forall (λ c, c ≠ 0) f → cstr_n (length f) (f ++ bs) = Some f.
Proof.
  induction 1 as [|c f Hc _ IH]; [done|]. simpl. destruct (Z.eqb_spec c 0); [done|]. by rw IH.
Qed.

Lemma cstr_app f bs : Forall (λ c, c ≠ 0) f → cstr (f ++ 0 :: bs) = Some f.
Proof.
  induction 1 as [|c f Hc _ IH]; [done|]. simpl. destruct (Z.eqb_spec c 0); [done|]. by rw IH.
Qed.

Lemma plain_nonzero ds f : plain ds f → Forall (λ c, c ≠ 0) f.
Proof. intros H. eapply Forall_impl; [exact H|]. by intros c [? _]. Qed.

Section split_proof.
Context (choice : loc → Z → realloc_choice) (junk : Z) (stays : ∀ l n, choice l n ≠ Moved).
Context (pointer : loc → list Z) (Hpointer : ∀ l, length (pointer l) = 8%nat).
Implicit Types (h : heap) (v : vector) (f : list Z) (ps : list (list Z * Z)).

(** The struct at [l] is a string with the characters [f], in a block that is
    not the vector's. *)
Definition is_string h v (l : loc) f : Prop :=
  ∃ p, h_strings h !! l = Some (String_ (Z.of_nat (length f) + 1) (Some p)) ∧
    h_bytes h !! p = Some (f ++ [0]) ∧ vbuf v ≠ Some p.

Lemma string_create_n_ok (b : bytes) p bs off f rest : b !! p = Some bs →
  drop off bs = f ++ rest → Forall (λ c, c ≠ 0) f → Z.of_nat (length f) + 1 < 2 ^ 32 →
  wp (string_create_n (Some p) (Z.of_nat off) (Z.of_nat (length f))) b (λ s b', ∃ q, b !! q = None ∧
    s = String_ (Z.of_nat (length f) + 1) (Some q) ∧ b' = <[q := f ++ [0]]> b).
Proof.
  intros Hp Hdrop Hf Hlen. rw /string_create_n u32_small; [lia|]. rw /mem_calloc. wp_step. apply wp_halloc. intros q Hq.
  assert (Hqp : q ≠ p) by congruence.
  wp_step. rw /load_cstr_n. wp_step. eapply wp_hload; [by rw lookup_insert_ne|].
  rw !Nat2Z.id Hdrop cstr_n_prefix //. wp_step.
  wp_step. rw /strncpy /padded Nat2Z.id resize_all. 
  eapply wp_mono; [eapply mem_write_ok; [apply lookup_insert_eq|done|rw length_replicate; lia]|]. intros [] b1 ->.
  wp_step. eapply wp_mono; [eapply mem_write_ok; [apply lookup_insert_eq|lia|rw length_splice !length_replicate /=; lia]|].
  intros [] b2 ->. wp_step. exists q. split; [done|]. split; [done|]. rw !insert_insert_eq. f_equal.
  rw /splice Nat2Z.id /=. 
  rw (_ : Z.to_nat (Z.of_nat (length f) + 1) = length f + 1)%nat; [lia|].
  rw replicate_add drop_app_length' ?length_replicate // take_app_length /= drop_app_ge; [lia|].
  by replace (length f + 1 - length f)%nat with 1%nat by lia.
Qed.

Lemma push_field_ok h v xs p bs off f rest : vec_rep (h_bytes h) v xs → val_size v = 8 →
  Z.of_nat (length xs) < 2 ^ 27 →
  h_bytes h !! p = Some bs → vbuf v ≠ Some p → drop off bs = f ++ rest → Forall (λ c, c ≠ 0) f →
  Z.of_nat (length f) + 1 < 2 ^ 32 →
  wp (push_field choice junk pointer (Some p) (Z.of_nat off) (Z.of_nat (off + length f)) v) h (λ v' h', ∃ l,
    vec_rep (h_bytes h') v' (xs ++ [pointer l]) ∧ val_size v' = 8 ∧ h_strings h !! l = None ∧
    is_string h' v' l f ∧ h_bytes h' !! p = Some bs ∧ vbuf v' ≠ Some p ∧
    ∀ l' f', is_string h v l' f' → is_string h' v' l' f').
Proof.
  intros Hv Hvs Hroom Hp Hvp Hdrop Hf Hlen. destruct h as [b S]. simpl in *.
  rw /push_field. rw (_ : Z.of_nat (off + length f) - Z.of_nat off = Z.of_nat (length f)); [lia|].
  wp_step. apply wp_zoom. eapply wp_mono; [by eapply string_create_n_ok|]. intros s b1 (q & Hq & -> & ->).
  wp_step. apply wp_zoom. apply wp_halloc. intros l Hl. simpl in Hq, Hl |- *.
  assert (Hqp : q ≠ p) by congruence.
  assert (Hvq : vbuf v ≠ Some q).
  { intros E. pose proof (vr_buf _ _ _ Hv) as Hb. rw E in Hb. destruct Hb as (? & ? & _). congruence. }
  assert (Hv1 : vec_rep (<[q := f ++ [0]]> b) v xs).
  { destruct Hv as [A B C D E]. split; try done. revert E. destruct (vbuf v) as [lv|] eqn:Ev; [|done].
    rw lookup_insert_ne //. congruence. }
  apply wp_zoom. eapply wp_mono; [eapply (vector_push_back_ok _ _ stays _ _ _ (pointer l)); [exact Hv1|by rw Hpointer Hvs|]|].
  { rw Hvs. destruct Hv as [A B C D E]. rw Hvs in C. rw /pushed_cap. destruct (Z.eqb_spec (v_size v) (capability v)); [|lia].
    destruct (Z.ltb_spec 0 (capability v)); lia. }
  intros v' b2 (Hv2 & Hvs2 & _ & Hoth). exists l. simpl. 
  assert (Hkeep : ∀ q' bs', <[q := f ++ [0]]> b !! q' = Some bs' → vbuf v ≠ Some q' → b2 !! q' = Some bs' ∧ vbuf v' ≠ Some q').
  { intros q' bs' Hq' Hne. destruct (Hoth q' ltac:(by eexists) Hne) as [-> ?]. done. }
  destruct (Hkeep p bs) as [Hp2 Hvp2]; [by rw lookup_insert_ne|done|].
  destruct (Hkeep q (f ++ [0])) as [Hq2 Hvq2]; [by rw lookup_insert_eq|done|].
  split; [exact Hv2|]. split; [by rw Hvs2|]. split; [done|]. split; [|split; [exact Hp2|split; [exact Hvp2|]]].
  - exists q. simpl. by rw lookup_insert_eq.
  - intros l' f' (q' & Hl' & Hq' & Hne'). simpl in *. assert (q ≠ q') by congruence.
    destruct (Hkeep q' (f' ++ [0])) as [? ?]; [by rw lookup_insert_ne|done|].
    exists q'. simpl. rw lookup_insert_ne; [congruence|]. done.
Qed.

Lemma char_at_ok h p bs i c : h_bytes h !! p = Some bs → bs !! i = Some c →
  wp (char_at (Some p) (Z.of_nat i)) h (λ r h', r = c ∧ h' = h).
Proof.
  intros Hp Hi. pose proof (lookup_lt_Some _ _ _ Hi) as Hlt. destruct h as [b S]. rw /char_at. apply wp_zoom. wp_step.
  eapply wp_mono; [apply (mem_read_ok _ p bs); [exact Hp|lia..]|]. intros r b' [-> ->].
  rw Nat2Z.id /slice (drop_S _ _ _ Hi) /=. by wp_step.
Qed.

Section run.
Context (p : loc) (bs rest : list Z) (delimiters : list Z) (ps : list (list Z * Z)) (last : list Z) (xs : list (list Z)).
Context (Hps : pieces_ok delimiters ps last) (Hzero : 0 ∉ delimiters) (Hbs : bs = flat (ps ++ [(last, 0)]) ++ rest).
Context (Hroom : Z.of_nat (length xs + length ps) < 2 ^ 27) (Hsize : Z.of_nat (length bs) < 2 ^ 32 - 1).

(** Before a round: the fields [done] have been pushed, and [k] characters of
    the next one have been passed. *)
Record split_inv (n : nat) (x : Z * Z * vector) h (done : list (list Z * Z)) f d more (ls : list loc) (k : nat) : Prop := {
  si_pieces : ps ++ [(last, 0)] = done ++ (f, d) :: more;
  si_b : snd (fst x) = Z.of_nat (length (flat done));
  si_cur : fst (fst x) = Z.of_nat (length (flat done) + k);
  si_k : (k ≤ length f)%nat ∧ (k = length f → d = 0);
  si_vec : vec_rep (h_bytes h) (snd x) (xs ++ (pointer <$> ls)) ∧ val_size (snd x) = 8 ∧ vbuf (snd x) ≠ Some p;
  si_text : h_bytes h !! p = Some bs;
  si_strings : Forall2 (is_string h (snd x)) ls done.*1 ∧ NoDup ls;
  si_measure : (n + (length (flat done) + k) = length bs)%nat;
}.

Lemma pieces_cases done f d more : ps ++ [(last, 0)] = done ++ (f, d) :: more →
  (done = ps ∧ f = last ∧ d = 0 ∧ more = []) ∨ (piece_ok delimiters (f, d) ∧ more ≠ [] ∧ (length done < length ps)%nat).
Proof.
  intros E. destruct more as [|y more _] using rev_ind.
  - apply app_inj_tail in E as [-> [= -> ->]]. by left.
  - right. rw app_comm_cons app_assoc in E. apply app_inj_tail in E as [E _]. split; [|split].
    + destruct Hps as [Hall _]. rw E in Hall. apply Forall_app in Hall as [_ Hall]. by apply Forall_cons in Hall as [? _].
    + by destruct more.
    + rw E length_app /=. lia.
Qed.

Lemma text_at done f d more j c : ps ++ [(last, 0)] = done ++ (f, d) :: more → (f ++ [d]) !! j = Some c →
  bs !! (length (flat done) + j)%nat = Some c.
Proof.
  intros E Hj. rw Hbs E flat_app /flat /= -/(flat more) -!app_assoc lookup_app_r; [lia|].
  rw Nat.add_comm Nat.add_sub (app_assoc f [d]) lookup_app_l //. by eapply lookup_lt_Some.
Qed.

Lemma text_from done f d more : ps ++ [(last, 0)] = done ++ (f, d) :: more →
  drop (length (flat done)) bs = f ++ d :: flat more ++ rest.
Proof.
  intros E. rw Hbs E flat_app -app_assoc drop_app_length. by rw /flat /= -!app_assoc.
Qed.

Lemma field_plain done f d more : ps ++ [(last, 0)] = done ++ (f, d) :: more → plain delimiters f.
Proof. intros E. destruct (pieces_cases _ _ _ _ E) as [(_ & -> & _)|([? _ _] & _)]; [apply Hps|done]. Qed.

Lemma field_length done f d more : ps ++ [(last, 0)] = done ++ (f, d) :: more →
  (length (flat done) + length f + 1 ≤ length bs)%nat.
Proof.
  intros E. rw Hbs E flat_app /flat /= !length_app /=. lia.
Qed.

(** The field before [cur] is pushed. *)
Lemma push_next h v done f d more ls : ps ++ [(last, 0)] = done ++ (f, d) :: more →
  vec_rep (h_bytes h) v (xs ++ (pointer <$> ls)) → val_size v = 8 → vbuf v ≠ Some p → h_bytes h !! p = Some bs →
  Forall2 (is_string h v) ls done.*1 → NoDup ls →
  wp (push_field choice junk pointer (Some p) (Z.of_nat (length (flat done))) (Z.of_nat (length (flat done) + length f)) v) h
    (λ v' h', ∃ l, vec_rep (h_bytes h') v' (xs ++ (pointer <$> (ls ++ [l]))) ∧ val_size v' = 8 ∧ vbuf v' ≠ Some p ∧
      h_bytes h' !! p = Some bs ∧ Forall2 (is_string h' v') (ls ++ [l]) (done ++ [(f, d)]).*1 ∧ NoDup (ls ++ [l])).
Proof.
  intros E Hv Hvs Hvp Hp Hstr Hnd. pose proof (field_length _ _ _ _ E) as Hlen. pose proof (Forall2_length _ _ _ Hstr) as Hl.
  rw length_fmap in Hl. 
  assert (Hdone : (length done ≤ length ps)%nat).
  { apply (f_equal length) in E. rw !length_app /= in E. lia. }
  eapply wp_mono; [eapply push_field_ok; [exact Hv|exact Hvs| |exact Hp|exact Hvp|by eapply text_from| |lia]|].
  - rw length_app length_fmap Hl. lia.
  - eapply plain_nonzero, field_plain. exact E.
  - intros v' h' (l & Hv' & Hvs' & Hfresh & Hs & Hp' & Hvp' & Hkeep). exists l.
    rw fmap_app app_assoc. split; [exact Hv'|]. split; [done|]. split; [done|]. split; [done|]. split.
    + rw fmap_app. apply Forall2_app; [|by apply Forall2_cons]. eapply Forall2_impl; [exact Hstr|]. intros. by apply Hkeep.
    + apply NoDup_app. split_and!; [done| |apply NoDup_singleton]. intros l' Hl' ->%list_elem_of_singleton.
      destruct (proj1 (list_elem_of_lookup ls l) Hl') as [i Hi]. destruct (Forall2_lookup_l _ _ _ _ _ Hstr Hi) as (f' & _ & q & Hq & _).
      congruence.
Qed.
Definition split_state (n : nat) (x : Z * Z * vector) h : Prop :=
  ∃ done f d more ls k, split_inv n x h done f d more ls k.
(** After the loop the last field is still to be pushed. *)
Definition split_end (x : Z * Z * vector) h : Prop :=
  ∃ n ls, split_inv n x h ps last 0 [] ls (length last).

Lemma split_round n x h : split_state n x h →
  wp (split_body choice junk pointer (Some p) delimiters x) h (λ r h', match r with
    | inl x' => ∃ n', (n' < n)%nat ∧ split_state n' x' h'
    | inr x' => split_end x' h'
    end).
Proof.
  intros (done & f & d & more & ls & k & Hi). pose proof Hi as [E Hb Hcur [Hk Hkd] (Hv & Hvs & Hvp) Hp [Hstr Hnd] Hn].
  destruct x as [[cur b] v]. simpl in *. subst cur b.
  pose proof (field_plain _ _ _ _ E) as Hpl. pose proof (field_length _ _ _ _ E) as Hlen.
  rw /split_body. destruct (decide (k = length f)) as [->|Hne].
  - specialize (Hkd eq_refl) as ->. 
    wp_step. eapply wp_mono; [eapply char_at_ok; [exact Hp|]|].
    { eapply text_at; [exact E|]. by apply list_lookup_middle. }
    intros c h' [-> ->]. rw Z.eqb_refl. wp_step.
    destruct (pieces_cases _ _ _ _ E) as [(-> & -> & _ & ->)|([_ _ Hd] & _)]; [|done].
    by exists n, ls.
  - assert (Hlt : (k < length f)%nat) by lia. destruct (lookup_lt_is_Some_2 f k Hlt) as [c Hc].
    pose proof (Forall_lookup_1 _ _ _ _ Hpl Hc) as [Hc0 _].
    wp_step. eapply wp_mono; [eapply char_at_ok; [exact Hp|]|].
    { eapply text_at; [exact E|]. by apply lookup_app_l_Some. }
    intros ? h' [-> ->]. destruct (Z.eqb_spec c 0); [done|].
    rw (_ : Z.of_nat (length (flat done) + k) + 1 = Z.of_nat (length (flat done) + S k)); [lia|].
    destruct (decide (S k = length f)) as [Hend|Hin].
    + wp_step. eapply wp_mono; [eapply char_at_ok; [exact Hp|]|].
      { eapply text_at; [exact E|]. rw Hend. by apply list_lookup_middle. }
      intros ? h' [-> ->]. destruct (pieces_cases _ _ _ _ E) as [(-> & -> & -> & ->)|([Hfp Hfn Hd] & Hmore & Hdl)].
      * rw bool_decide_false //. wp_step. exists (n - 1)%nat. split; [lia|].
        exists ps, last, 0, [], ls, (S k). split; try done; simpl; first [lia|split; lia].
      * rw bool_decide_true //. rw Hend. wp_step. eapply wp_mono; [by eapply push_next|].
        intros v' h' (l & Hv' & Hvs' & Hvp' & Hp' & Hstr' & Hnd'). wp_step.
        destruct more as [|[f' d'] more]; [done|]. exists (n - S (length f - k))%nat. split; [lia|].
        assert (Hflat : length (flat (done ++ [(f, d)])) = (length (flat done) + length f + 1)%nat).
        { rw flat_app /flat /= !length_app /=. lia. }
        exists (done ++ [(f, d)]), f', d', more, (ls ++ [l]), 0%nat. split; simpl; rw ?Hflat; try done; try lia.
        -- by rw -app_assoc.
        -- split; [lia|]. intros Hf'. destruct (pieces_cases (done ++ [(f, d)]) f' d' more) as [(_ & _ & ? & _)|([_ Hf'n _] & _)]; [by rw -app_assoc|done|].
           by destruct f'.
    + destruct (lookup_lt_is_Some_2 f (S k) ltac:(lia)) as [c' Hc'].
      pose proof (Forall_lookup_1 _ _ _ _ Hpl Hc') as [_ Hcd].
      wp_step. eapply wp_mono; [eapply char_at_ok; [exact Hp|]|].
      { eapply text_at; [exact E|]. by apply lookup_app_l_Some. }
      intros ? h' [-> ->]. rw bool_decide_false //. wp_step. exists (n - 1)%nat. split; [lia|].
      exists done, f, d, more, ls, (S k). split; try done; simpl; first [lia|split; lia].
Qed.
End run.
End split_proof.


(** [a,bc;] at the commas and semicolons: the last field is empty. *)
Definition sample_text : list Z := [97; 44; 98; 99; 59; 0].
Definition sample_heap : heap := Heap {[1%positive := sample_text]} ∅.
Definition sample_pointer (l : loc) : list Z := le_bytes 8 (Z.pos l).


(** A delimiter at the start of the text, or after another one, is taken for a
    part of a field. *)
Lemma split_misses_empty_fields :
  match string_split (λ _ _, InPlace) 0 sample_pointer 7 (String_ 6 (Some 1%positive)) (Vector 0 0 8 NULL) [44]
          (Heap {[1%positive := [97; 44; 44; 98; 0]]} ∅) with
  | Ok (v, h) => (v_size v, omap (λ x, p ← str (snd x); h_bytes h !! p) (map_to_list (h_strings h)))
  | Fault _ => (0, [])
  end = (2, [[44; 98; 0]; [97; 0]]).
Proof. by vm_compute. Qed.

(** ** Concatenation *)

Section cat.
Context (choice : loc → Z → realloc_choice) (junk : Z).
Implicit Types (b : bytes) (bs cs ds : list Z).

Lemma cstr_length bs cs : cstr bs = Some cs → (length cs < length bs)%nat ∧ take (length cs) bs = cs ∧ Forall (λ c, c ≠ 0) cs.
Proof.
  revert cs. induction bs as [|c bs IH]; intros cs; simpl; [done|].
  destruct (Z.eqb_spec c 0) as [->|Hc]; [intros [= <-]; simpl; split_and!; [lia|done|apply Forall_nil_2]|].
  destruct (cstr bs) as [cs'|]; [|done]. intros [= <-]. destruct (IH cs' eq_refl) as (Hl & Ht & Hf). simpl.
  split_and!; [lia|by f_equal|by apply Forall_cons].
Qed.

Lemma cstr_n_zero cs bs : Forall (λ c, c ≠ 0) cs → cstr_n (S (length cs)) (cs ++ 0 :: bs) = Some cs.
Proof.
  induction 1 as [|c cs Hc _ IH]; [done|].
  change (cstr_n (S (length (c :: cs))) ((c :: cs) ++ 0 :: bs))
    with (if c =? 0 then Some [] else cons c <$> cstr_n (S (length cs)) (cs ++ 0 :: bs)).
  destruct (Z.eqb_spec c 0); [done|]. by rw IH.
Qed.

Lemma cstr_extend bs bs' cs : cstr bs = Some cs → cstr (bs ++ bs') = Some cs.
Proof.
  revert cs. induction bs as [|c bs IH]; intros cs; simpl; [done|]. destruct (c =? 0); [done|].
  destruct (cstr bs) as [cs'|]; [|done]. by rw (IH cs' eq_refl).
Qed.

Lemma load_cstr_run b p bs cs : b !! p = Some bs → cstr bs = Some cs → load_cstr (Some p) 0 b = Ok (cs, b).
Proof. intros Hp Hc. by rw /load_cstr /mbind /M_bind /hload Hp /= drop_0 Hc. Qed.

(** [strcat] faults exactly when the block is too short. *)
Lemma strcat_run b p bs cs ds : b !! p = Some bs → cstr bs = Some cs →
  strcat (Some p) ds b =
  if (length cs + length ds <? length bs)%nat then Ok (tt, <[p := splice (length cs) (ds ++ [0]) bs]> b) else Fault OutOfBounds.
Proof.
  intros Hp Hc. rw /strcat {1}/mbind /M_bind (load_cstr_run _ _ _ _ Hp Hc) /mem_write.
  case_decide as Hnil; [by apply app_eq_nil in Hnil as [_ ?]|]. rw /mbind /M_bind /hload Hp length_app /=.
  destruct (Z.leb_spec (Z.of_nat (length cs) + Z.of_nat (length ds + 1)) (Z.of_nat (length bs))), (Nat.ltb_spec (length cs + length ds) (length bs)); try lia.
  - by rw /hstore /hmodify Hp Nat2Z.id.
  - done.
Qed.

Lemma cstr_splice bs cs ds : cstr bs = Some cs → Forall (λ c, c ≠ 0) ds → (length cs + length ds < length bs)%nat →
  cstr (splice (length cs) (ds ++ [0]) bs) = Some (cs ++ ds).
Proof.
  intros Hc Hds Hlen. destruct (cstr_length _ _ Hc) as (_ & Ht & Hcs). 
  rw /splice Ht -!app_assoc app_assoc /=. apply cstr_app. by apply Forall_app.
Qed.

Lemma strlen_run b p bs cs : b !! p = Some bs → cstr bs = Some cs → Z.of_nat (length cs) < 2 ^ 32 →
  strlen (Some p) b = Ok (Z.of_nat (length cs), b).
Proof. intros Hp Hc Hl. rw /strlen /mbind /M_bind (load_cstr_run _ _ _ _ Hp Hc) u32_small //. lia. Qed.

Lemma bind_run {S A B} (m : M S A) (f : A → M S B) s a s' : m s = Ok (a, s') → (m ≫= f) s = f a s'.
Proof. intros E. by rw /mbind /M_bind E. Qed.
Lemma bind_fault {S A B} (m : M S A) (f : A → M S B) s e : m s = Fault e → (m ≫= f) s = Fault e.
Proof. intros E. by rw /mbind /M_bind E. Qed.

(** [realloc] to a longer block: the text is there, at [p] or elsewhere, or the
    block stays as it is. *)
Lemma realloc_run b p bs n : b !! p = Some bs → (length bs ≤ n)%nat → n ≠ 0%nat →
  (∃ p' b', mem_realloc choice junk (Some p) (Z.of_nat n) b = Ok (Some p', b') ∧
     b' !! p' = Some (bs ++ replicate (n - length bs) junk)) ∨
  mem_realloc choice junk (Some p) (Z.of_nat n) b = Ok (NULL, b).
Proof.
  intros Hp Hlen Hn. rw /mem_realloc. destruct (Z.eqb_spec (Z.of_nat n) 0); [lia|].
  rw (bind_run _ _ b bs b); [by rw /hload Hp|]. rw Nat2Z.id resize_ge //. destruct (choice p (Z.of_nat n)).
  - left. eexists p, _. erewrite bind_run; [|by rw /hstore /hmodify Hp]. split; [reflexivity|apply lookup_insert_eq].
  - left. set (l := fresh (dom b)). assert (b !! l = None) by (apply not_elem_of_dom, is_fresh). assert (l ≠ p) by congruence.
    eexists l, _. erewrite bind_run; [|reflexivity]. erewrite bind_run; [|by rw /hfree lookup_insert_ne // Hp].
    split; [reflexivity|]. by rw lookup_delete_ne // lookup_insert_eq.
  - by right.
Qed.

(** The block that a longer text is put into has two bytes too few. *)
Lemma cat_grown b p bs cs ds n : b !! p = Some bs → cstr bs = Some cs → n = (length cs + length ds - 1)%nat →
  (length bs < n)%nat → Z.of_nat (length cs + length ds) < 2 ^ 31 →
  (buf ← mem_realloc choice junk (Some p) (Z.of_nat n);
   buf ← match buf with
         | Some _ => mret buf
         | None =>
             l ← mem_calloc (Z.of_nat n);
             cs' ← load_cstr_n (Some p) 0 (u32 (Z.of_nat (length cs) + 1));
             strncpy (Some l) cs' (u32 (Z.of_nat (length cs) + 1));;
             mret (Some l)
         end;
   strcat buf ds;; mret (String_ (Z.of_nat n) buf)) b = Fault OutOfBounds.
Proof.
  intros Hp Hc Hn Hlt Hsz. destruct (cstr_length _ _ Hc) as (Hl & Ht & Hf).
  destruct (realloc_run b p bs n Hp ltac:(lia) ltac:(lia)) as [(p' & b' & Hrun & Hp')|Hrun];
    rw (bind_run _ _ _ _ _ Hrun); cbn beta match.
  - rw (bind_run _ _ _ (Some p') b'); [done|]. apply bind_fault.
    rw (strcat_run _ _ _ cs _ Hp'); [by apply cstr_extend|]. rw length_app length_replicate.
    destruct (Nat.ltb_spec (length cs + length ds) (length bs + (n - length bs))); [lia|done].
  - set (l := fresh (dom b)). assert (Hnew : b !! l = None) by (apply not_elem_of_dom, is_fresh). assert (l ≠ p) by congruence.
    assert (Hsplit : ∃ r, bs = cs ++ 0 :: r).
    { clear - Hc. revert cs Hc. induction bs as [|c bs IH]; intros cs; simpl; [done|].
      destruct (Z.eqb_spec c 0) as [->|]; [intros [= <-]; by exists bs|].
      destruct (cstr bs) as [cs'|]; [|done]. intros [= <-]. destruct (IH cs' eq_refl) as [r ->]. by exists r. }
    destruct Hsplit as [r ->].
    set (B := splice 0 (padded cs (Z.of_nat (length cs) + 1)) (replicate n 0)).
    assert (Hpad : padded cs (Z.of_nat (length cs) + 1) = cs ++ [0]).
    { rw /padded resize_ge; [lia|]. by replace (Z.to_nat (Z.of_nat (length cs) + 1) - length cs)%nat with 1%nat by lia. }
    assert (HB : length B = n) by (rw /B length_splice length_replicate //; rw Hpad length_app /=; lia).
    rw length_app /= in Hlt.
    rw (bind_run _ _ _ (Some l) (<[l := B]> b)).
    + rw (bind_run _ _ _ l (<[l := replicate n 0]> b)); [rw /mem_calloc /halloc Nat2Z.id //|].
      rw u32_small; [lia|]. rw (bind_run _ _ _ cs (<[l := replicate n 0]> b)).
      { rw /load_cstr_n. rw (bind_run _ _ _ (cs ++ 0 :: r) (<[l := replicate n 0]> b)); [rw /hload lookup_insert_ne // Hp //|].
        rw drop_0. rw (_ : cstr_n _ _ = Some cs); [|done].
        rw (_ : Z.to_nat (Z.of_nat (length cs) + 1) = S (length cs)); [lia|]. by apply cstr_n_zero. }
      rw (bind_run _ _ _ tt (<[l := B]> b)); [|done].
      rw /strncpy /mem_write. case_decide as Hnil; [by rw Hpad in Hnil; apply app_eq_nil in Hnil as [_ ?]|].
      rw (bind_run _ _ _ (replicate n 0) (<[l := replicate n 0]> b)); [by rw /hload lookup_insert_eq|].
      rw length_replicate {1}Hpad length_app /=. destruct (Z.leb_spec (0 + Z.of_nat (length cs + 1)) (Z.of_nat n)); [|lia].
      rw /hstore /hmodify lookup_insert_eq insert_insert_eq //.
    + apply bind_fault. rw (strcat_run _ _ B cs _); [apply lookup_insert_eq| |].
      { rw /B Hpad /splice /= -app_assoc. by apply cstr_app. }
      rw HB. destruct (Nat.ltb_spec (length cs + length ds) n); [lia|done].
Qed.
End cat.

(** C34: [string_cat_cstr] appends or writes outside the block.  On a string
    whose block has [buf_size] bytes and holds the text [cs]: when the block has
    room for both texts and the 0, the text becomes [cs ++ ds] in the same block;
    otherwise, whatever [realloc] does, the call writes past the end of a
    block. *)
Theorem string_cat_appends_or_overflows (choice : loc → Z → realloc_choice) (junk : Z) (b : bytes) (p : loc)
    (bs cs ds : list Z) (a : string) :
  b !! p = Some bs → a = String_ (Z.of_nat (length bs)) (Some p) → cstr bs = Some cs → Forall (λ c, c ≠ 0) ds →
  (0 < length cs + length ds)%nat → Z.of_nat (length cs + length ds) < 2 ^ 31 →
  if (length cs + length ds <? length bs)%nat
  then ∃ b' bs', string_cat_cstr choice junk a ds b = Ok (a, b') ∧ b' !! p = Some bs' ∧ length bs' = length bs ∧
         cstr bs' = Some (cs ++ ds) ∧ ∀ q, q ≠ p → b' !! q = b !! q
  else string_cat_cstr choice junk a ds b = Fault OutOfBounds.
Proof.
  intros Hp -> Hc Hds Hpos Hsz. destruct (cstr_length _ _ Hc) as (Hl & _ & Hcs).
  assert (Hrun : string_cat_cstr choice junk (String_ (Z.of_nat (length bs)) (Some p)) ds b =
    if (length cs + length ds <? length bs)%nat
    then Ok (String_ (Z.of_nat (length bs)) (Some p), <[p := splice (length cs) (ds ++ [0]) bs]> b)
    else Fault OutOfBounds).
  { rw /string_cat_cstr /string_size. cbn [str buf_size].
    rw (bind_run _ _ _ _ _ (strlen_run _ _ _ _ Hp Hc ltac:(lia))). cbn zeta.
    rw (u32_small (Z.of_nat (length ds))); [lia|]. rw u32_small; [lia|].
    rw (_ : Z.of_nat (length cs) + Z.of_nat (length ds) - 1 = Z.of_nat (length cs + length ds - 1)); [lia|].
    pose proof (strcat_run _ _ _ _ ds Hp Hc) as Hcat.
    destruct (Z.leb_spec (Z.of_nat (length cs + length ds - 1)) (Z.of_nat (length bs))).
    - destruct (Nat.ltb_spec (length cs + length ds) (length bs)).
      + by rw (bind_run _ _ _ _ _ Hcat).
      + by rw (bind_fault _ _ _ _ Hcat).
    - destruct (Nat.ltb_spec (length cs + length ds) (length bs)); [lia|]. eapply cat_grown; try done; lia. }
  rw Hrun. destruct (Nat.ltb_spec (length cs + length ds) (length bs)); [|done].
  eexists _, (splice (length cs) (ds ++ [0]) bs). split; [reflexivity|]. rw lookup_insert_eq length_splice; [rw length_app /=; lia|].
  split; [done|]. split; [done|]. split; [by apply cstr_splice|]. intros q Hq. by rw lookup_insert_ne.
Qed.

(** "ab" in a block of eight bytes, and in one that it fills. *)
Lemma string_cat_appends_or_overflows_witness :
  (∃ b' bs', string_cat_cstr (λ _ _, Moved) 0 (String_ 8 (Some 1%positive)) [99] {[1%positive := [97; 98; 0; 0; 0; 0; 0; 0]]} =
     Ok (String_ 8 (Some 1%positive), b') ∧ b' !! 1%positive = Some bs' ∧ cstr bs' = Some [97; 98; 99]) ∧
  string_cat_cstr (λ _ _, Moved) 0 (String_ 3 (Some 1%positive)) [99] {[1%positive := [97; 98; 0]]} = Fault OutOfBounds.
Proof.
  assert (Hds : Forall (λ c, c ≠ 0) [99]) by (apply Forall_singleton; discriminate).
  split.
  - destruct (string_cat_appends_or_overflows (λ _ _, Moved) 0 {[1%positive := [97; 98; 0; 0; 0; 0; 0; 0]]} 1
      [97; 98; 0; 0; 0; 0; 0; 0] [97; 98] [99] (String_ 8 (Some 1%positive)))
      as (b' & bs' & Hrun & Hp & _ & Hc & _); [by vm_compute|reflexivity|reflexivity|exact Hds|simpl; lia|by vm_compute|].
    exists b', bs'. done.
  - apply (string_cat_appends_or_overflows (λ _ _, Moved) 0 {[1%positive := [97; 98; 0]]} 1
      [97; 98; 0] [97; 98] [99] (String_ 3 (Some 1%positive)));
      [by vm_compute|reflexivity|reflexivity|exact Hds|simpl; lia|by vm_compute].
Defined.
