(* ===== verification/Connector.v ===== *)
(** * The connector: connections that are being established
      ([src/src/Connector.c], [src/include/Connector.h])

    [connector_connect] starts a connection and queues it on the list
    [extern_pending_connect], which it shares with other threads;
    [connector_run] takes these into its own list [_pending_connect], waits with
    [select], and calls every queued connection back: with its handle when its
    descriptor has become writable, with -1 when its time is over or the table
    is full.

    The sockets are those of [Net]; the queued connections are list nodes of the
    connector's own store.  [select], the clock and the callbacks are
    parameters.  What the run observes of them is a list of events, and the main
    theorem justifies every callback by the events before it. *)
From S2P Require Import Prelude LinkList Net.

(** ** Data *)

Record pending_connect := PendingConnect {
  pc_ip : list Z;
  pc_port : Z;
  pc_sock : Z;
  pc_real_fd : Z;
  pc_call_back : nat;
  pc_timeout : Z;
  pc_ud : Z;
}.

(** The lists are structs that only the connector points to. *)
Record connector := Connector {
  c_Set : gset Z;
  _pending_connect : link_list;
  fd_seisize : Z;
  extern_pending_connect : link_list;
}.

(** The node of a queued connection is its address in [cs_nexts]. *)
Record cstate (U : Type) := CState {
  cs_net : world U;
  cs_pcs : gmap loc pending_connect;
  cs_nexts : nexts;
  cs_conns : gmap loc connector;
}.
Arguments CState {U}.
Arguments cs_net {U}.
Arguments cs_pcs {U}.
Arguments cs_nexts {U}.
Arguments cs_conns {U}.

Definition FD_SETSIZE : Z := 1024.

Definition set_Set (v : gset Z) (c : connector) : connector :=
  Connector v (_pending_connect c) (fd_seisize c) (extern_pending_connect c).
Definition set_pending (l : link_list) (c : connector) : connector :=
  Connector (c_Set c) l (fd_seisize c) (extern_pending_connect c).
Definition set_seisize (v : Z) (c : connector) : connector :=
  Connector (c_Set c) (_pending_connect c) v (extern_pending_connect c).
Definition set_extern (l : link_list) (c : connector) : connector :=
  Connector (c_Set c) (_pending_connect c) (fd_seisize c) l.

(** ** Operations *)

Section connector.
Context {U : Type}.
Abbreviation C := (M (cstate U)).

Definition on_net {A} (m : M (world U) A) : C A :=
  zoom cs_net (λ w s, CState w (cs_pcs s) (cs_nexts s) (cs_conns s)) m.
Definition on_pcs {A} (m : M (gmap loc pending_connect) A) : C A :=
  zoom cs_pcs (λ h s, CState (cs_net s) h (cs_nexts s) (cs_conns s)) m.
Definition on_links {A} (m : M nexts A) : C A :=
  zoom cs_nexts (λ h s, CState (cs_net s) (cs_pcs s) h (cs_conns s)) m.
Definition on_conns {A} (m : M (gmap loc connector) A) : C A :=
  zoom cs_conns (λ h s, CState (cs_net s) (cs_pcs s) (cs_nexts s) h) m.

Definition cnr (c : ptr) : C connector := on_conns (hload c).
Definition cnr_set (c : ptr) (f : connector → connector) : C () := on_conns (hmodify c f).
Definition pc_get (p : ptr) : C pending_connect := on_pcs (hload p).

(** [malloc] and [free] of a queued connection, whose first field is its node. *)
Definition pc_alloc (pc : pending_connect) : C loc :=
  s ← get;
  let l := fresh (dom (cs_pcs s) ∪ dom (cs_nexts s)) in
  on_links (modify (insert l NULL));;
  on_pcs (modify (insert l pc));;
  mret l.
Definition pc_free (p : ptr) : C () :=
  match p with
  | None => mret tt
  | Some l => on_pcs (hfree p);; on_links (modify (delete l))
  end.

Definition pc_pop (c : ptr) : C ptr :=
  cn ← cnr c; '(p, l) ← on_links (link_list_pop (_pending_connect cn)); cnr_set c (set_pending l);; mret p.
Definition pc_pop_extern (c : ptr) : C ptr :=
  cn ← cnr c; '(p, l) ← on_links (link_list_pop (extern_pending_connect cn));
  cnr_set c (set_extern l);; mret p.
Definition pc_push (c : ptr) (n : loc) : C () :=
  cn ← cnr c; l ← on_links (link_list_push_back (_pending_connect cn) n); cnr_set c (set_pending l).
Definition pc_push_extern (c : ptr) (n : loc) : C () :=
  cn ← cnr c; l ← on_links (link_list_push_back (extern_pending_connect cn) n);
  cnr_set c (set_extern l).

(** [FD_SET] and [FD_ISSET]: a descriptor past the end of the [fd_set] is an
    access past the end of the array. *)
Definition fd_fits (fd : Z) : bool := ((0 <=? fd) && (fd <? FD_SETSIZE))%Z.
Definition FD_SET (fd : Z) (c : ptr) : C () :=
  if fd_fits fd then cnr_set c (λ cn, set_Set ({[ fd ]} ∪ c_Set cn) cn) else fail OutOfBounds.
Definition FD_ISSET (fd : Z) (c : ptr) : C bool :=
  if fd_fits fd then cn ← cnr c; mret (bool_decide (fd ∈ c_Set cn)) else fail OutOfBounds.
Definition FD_ZERO (c : ptr) : C () := cnr_set c (set_Set ∅).

Context (K : kernel U).
(** [select] on a set of descriptors waited on for writing, with the
    microseconds of the time limit: the result and what is left of the set. *)
Context (k_select : Z → gset Z → Z → M U (Z * gset Z)).
(** A callback: the function, with the handle, the address, the port and [ud]. *)
Context (call : nat → Z → list Z → Z → Z → C ()).
Context (junk_next : ptr) (junk_socket : socket) (junk_addr : Z).
Context (fuel : nat).

Definition connector_create : C ptr :=
  l ← on_conns (halloc (Connector ∅ create_link_list 0 create_link_list));
  mret (Some l).

(** The two loops of [connector_destroy]. *)
Definition free_body (pop : C ptr) (_ : ()) : C (() + ()) :=
  pc ← pop;
  match pc with
  | Some _ => pc_free pc;; mret (inl tt)
  | None => mret (inr tt)
  end.

(** The result is the new value of the caller's pointer. *)
Definition connector_destroy (c : ptr) : C ptr :=
  loop fuel (free_body (pc_pop c)) tt;;
  loop fuel (free_body (pc_pop_extern c)) tt;;
  on_conns (hfree c);;
  mret NULL.

Definition connector_connect (c : ptr) (ip : list Z) (port : Z) (call_back : nat) (ud ms : Z) : C Z :=
  sock ← on_net (OpenSocket K junk_next junk_socket INET STREAM TCP);
  if (sock <? 0)%Z then mret (-1)%Z
  else
    let remote := store_addr K ip (SockAddr INET (htons (u16 port)) junk_addr) in
    nonblock ← (if (0 <? ms)%Z then on_net (setNonblock K sock) else mret 0%Z);
    if negb (nonblock =? 0)%Z then mret (-1)%Z
    else
      r ← on_net (Connect K sock remote);
      if (r =? 0)%Z then call call_back sock ip (i32 port) ud;; mret 0%Z
      else
        s ← on_net (GetSocketByHandle sock);
        now ← on_net (GetSystemMs K);
        s' ← on_net (Net.sock s);
        pc ← pc_alloc (PendingConnect ip port sock (s_fd s') call_back (u32 (now + ms)) ud);
        pc_push_extern c pc;;
        mret 0%Z.

(** [pc->call_back(h,pc->ip,pc->port,pc->ud); free(pc)] *)
Definition pc_finish (p : ptr) (pc : pending_connect) (h : Z) : C () :=
  call (pc_call_back pc) h (pc_ip pc) (i32 (pc_port pc)) (pc_ud pc);;
  pc_free p.

(** The loop that takes over the connections of the local list [_l]. *)
Definition intake_body (c : ptr) (l : link_list) : C (link_list + ()) :=
  '(p, l) ← on_links (link_list_pop l);
  match p with
  | None => mret (inr tt)
  | Some n =>
      cn ← cnr c;
      pc ← pc_get p;
      (if (FD_SETSIZE <=? fd_seisize cn)%Z then pc_finish p pc (-1)
       else
         FD_SET (pc_real_fd pc) c;;
         pc_push c n;;
         cnr_set c (λ cn, set_seisize (u32 (fd_seisize cn + 1)) cn));;
      mret (inl l)
  end.

(** The loop over the connections that [select] has looked at, with the number
    of iterations left. *)
Fixpoint serve_ready (c : ptr) (n : nat) : C () :=
  match n with
  | O => mret tt
  | S n =>
      p ← pc_pop c;
      match p with
      | Some x =>
          pc ← pc_get p;
          ready ← FD_ISSET (pc_real_fd pc) c;
          if ready : bool then
            pc_finish p pc (pc_sock pc);;
            cnr_set c (λ cn, set_seisize (u32 (fd_seisize cn - 1)) cn)
          else pc_push c x
      | None => mret tt
      end;;
      serve_ready c n
  end.

(** The loop over the connections that are left. *)
Fixpoint expire (c : ptr) (tick : Z) (n : nat) : C () :=
  match n with
  | O => mret tt
  | S n =>
      p ← pc_pop c;
      x ← match p with Some x => mret x | None => fail NullDeref end;
      pc ← pc_get p;
      (if (pc_timeout pc <=? tick)%Z then
         pc_finish p pc (-1);;
         cnr_set c (λ cn, set_seisize (u32 (fd_seisize cn - 1)) cn)
       else
         pc_push c x;;
         FD_SET (pc_real_fd pc) c);;
      expire c tick n
  end.

(** [list_size(c->_pending_connect)]: the function of [list.c] on a struct of
    [link_list.c]; the size is the first field of both. *)
Definition pending_size (c : ptr) : C Z := cn ← cnr c; mret (i32 (u32 (ll_size (_pending_connect cn)))).

Definition current_tick : C Z := now ← on_net (GetSystemMs K); mret (u32 now).

(** One round; the locals that live on are [i] and [tick]. *)
Definition run_round (c : ptr) (_timeout : Z) '((i, tick) : Z * Z) : C ((Z * Z) + ()) :=
  let _ms := u32 (_timeout - tick) in
  size ← pending_size c;
  if (size =? 0)%Z then mret (inr tt)
  else
    cn ← cnr c;
    '(total, set) ← on_net (on_mem (k_select 1024 (c_Set cn) (u32 (1000 * _ms))));
    cnr_set c (set_Set set);;
    (if (0 <? total)%Z then serve_ready c (Z.to_nat (size - i)) else mret tt);;
    FD_ZERO c;;
    tick ← current_tick;
    size ← pending_size c;
    expire c tick (Z.to_nat size);;
    tick ← current_tick;
    if (tick <? _timeout)%Z then mret (inl (Z.max 0 size, tick)) else mret (inr tt).

Definition connector_run (c : ptr) (ms : Z) : C () :=
  tick ← current_tick;
  let _timeout := u32 (tick + ms) in
  cn ← cnr c;
  '(l, ext) ← on_links (link_list_swap create_link_list (extern_pending_connect cn));
  cnr_set c (set_extern ext);;
  loop fuel (intake_body c) l;;
  loop fuel (run_round c _timeout) (0, tick)%Z.
End connector.

(** ** What a run of the connector observes *)

Inductive cevent :=
  | EvSelect (watched : gset Z) (total : Z) (set : gset Z)
  | EvClock (tick : Z)
  | EvCall (f : nat) (h : Z) (ip : list Z) (port ud : Z).

Definition is_select (e : cevent) : Prop := match e with EvSelect _ _ _ => True | _ => False end.
Definition is_clock (e : cevent) : Prop := match e with EvClock _ => True | _ => False end.
#[export] Instance is_select_dec e : Decision (is_select e).
Proof. destruct e; simpl; apply _. Defined.
#[export] Instance is_clock_dec e : Decision (is_clock e).
Proof. destruct e; simpl; apply _. Defined.

(** The callback of a connection, with a handle or with -1. *)
Definition call_of (pc : pending_connect) (h : Z) : cevent :=
  EvCall (pc_call_back pc) h (pc_ip pc) (i32 (pc_port pc)) (pc_ud pc).

(** What the last [select] has left in the set, when it has found something. *)
Fixpoint selected (evs : list cevent) (set : gset Z) : gset Z :=
  match evs with
  | [] => set
  | EvSelect _ total s :: evs => selected evs (if (0 <? total)%Z then s else ∅)
  | _ :: evs => selected evs set
  end.

(** ** The abstract connector

    [a_new] are the connections that a run has taken over and not looked at
    yet, [a_table] is the table of the waiting ones, in any order. *)
Record astate := AState {
  a_new : list pending_connect;
  a_table : list pending_connect;
  a_trace : list cevent;
}.

Inductive astep : astate → astate → Prop :=
  | AAdmit pc new table evs :
      (Z.of_nat (length table) < FD_SETSIZE)%Z →
      astep (AState (pc :: new) table evs) (AState new (pc :: table) evs)
  | AReject pc new table evs :
      (FD_SETSIZE ≤ Z.of_nat (length table))%Z →
      astep (AState (pc :: new) table evs) (AState new table (evs ++ [call_of pc (-1)]))
  | ASelect new table evs total set :
      astep (AState new table evs)
        (AState new table (evs ++ [EvSelect (list_to_set (pc_real_fd <$> table)) total set]))
  | AClock new table evs tick :
      astep (AState new table evs) (AState new table (evs ++ [EvClock tick]))
  | AReady pc new table table' evs :
      table ≡ₚ pc :: table' → pc_real_fd pc ∈ selected evs ∅ →
      astep (AState new table evs) (AState new table' (evs ++ [call_of pc (pc_sock pc)]))
  | ALate pc new table table' evs tick :
      table ≡ₚ pc :: table' → EvClock tick ∈ evs → (pc_timeout pc ≤ tick)%Z →
      astep (AState new table evs) (AState new table' (evs ++ [call_of pc (-1)])).

(** ** The representation *)

Section rep.
Context {U : Type}.
Implicit Types (s : cstate U) (c x : loc) (P E L F : list (loc * pending_connect)).

(** The connector at [c] is [cn]: its lists hold the connections [P] and [E];
    a local list [l] holds [L], and the nodes of [F] are in no list. *)
Record held s c (cn : connector) (l : link_list) P E L F : Prop := {
  he_conn : cs_conns s !! c = Some cn;
  he_pending : ll_rep (cs_nexts s) (_pending_connect cn) P.*1;
  he_extern : ll_rep (cs_nexts s) (extern_pending_connect cn) E.*1;
  he_local : ll_rep (cs_nexts s) l L.*1;
  he_free : ∀ x, x ∈ F.*1 → cs_nexts s !! x = Some NULL;
  he_nodup : NoDup (P ++ E ++ L ++ F).*1;
  he_pcs : ∀ x pc, (x, pc) ∈ P ++ E ++ L ++ F →
    cs_pcs s !! x = Some pc ∧ fd_fits (pc_real_fd pc) = true;
  he_size : (Z.of_nat (length P) ≤ FD_SETSIZE)%Z;
}.

(** The counter and the [fd_set] agree with the table. *)
Definition counted (cn : connector) P : Prop := fd_seisize cn = Z.of_nat (length P).
Definition watching (cn : connector) P : Prop := c_Set cn = list_to_set (pc_real_fd <$> P.*2).

(** The table [ps] and the queue [es] of a connector between two calls. *)
Definition connector_rep s c (ps es : list pending_connect) : Prop :=
  ∃ cn P E, held s c cn create_link_list P E [] [] ∧ ps = P.*2 ∧ es = E.*2 ∧
    counted cn P ∧ watching cn P ∧ (Z.of_nat (length es) < 2 ^ 31)%Z.

Definition same_counts (cn cn' : connector) : Prop := c_Set cn' = c_Set cn ∧ fd_seisize cn' = fd_seisize cn.

Lemma held_net s w c cn l P E L F : held s c cn l P E L F →
  held (CState w (cs_pcs s) (cs_nexts s) (cs_conns s)) c cn l P E L F.
Proof. by intros []. Qed.

(** A change of links outside three of the parts of the state. *)
Lemma held_nodup_perm P E L F P' E' L' F' :
  P ++ E ++ L ++ F ≡ₚ P' ++ E' ++ L' ++ F' →
  NoDup (P ++ E ++ L ++ F).*1 → NoDup (P' ++ E' ++ L' ++ F').*1.
Proof. intros Hp. by rw (fmap_Permutation fst _ _ Hp). Qed.

Lemma held_sub P E L F P' E' L' F' (R : loc → pending_connect → Prop) :
  P ++ E ++ L ++ F ≡ₚ P' ++ E' ++ L' ++ F' →
  (∀ x pc, (x, pc) ∈ P ++ E ++ L ++ F → R x pc) →
  (∀ x pc, (x, pc) ∈ P' ++ E' ++ L' ++ F' → R x pc).
Proof. intros Hp H x pc. rw -Hp. apply H. Qed.

(** The parts have no node in common. *)
Lemma held_disjoint P E L F : NoDup (P ++ E ++ L ++ F).*1 →
  P.*1 ## E.*1 ∧ P.*1 ## L.*1 ∧ P.*1 ## F.*1 ∧ E.*1 ## L.*1 ∧ E.*1 ## F.*1 ∧ L.*1 ## F.*1.
Proof.
  rw !fmap_app. rw !NoDup_app. intros (_ & HP & _ & HE & _ & HL & _).
  split_and!; intros x H1 H2; [eapply HP|eapply HP|eapply HP|eapply HE|eapply HE|eapply HL]; try exact H1; set_solver.
Qed.

Lemma wp_connector s c cn l P E L F (R : connector → cstate U → Prop) :
  held s c cn l P E L F → R cn s → wp (cnr (Some c)) s R.
Proof. intros [] HR. rw /cnr /on_conns. wp_step. eapply wp_hload; [done|]. by destruct s. Qed.

Lemma wp_pc_get s c cn l P E L F x pc (R : pending_connect → cstate U → Prop) :
  held s c cn l P E L F → (x, pc) ∈ P ++ E ++ L ++ F → R pc s → wp (pc_get (Some x)) s R.
Proof.
  intros [] Hx HR. destruct (he_pcs0 _ _ Hx) as [? _].
  rw /pc_get /on_pcs. wp_step. eapply wp_hload; [done|]. by destruct s.
Qed.

Lemma wp_connector_set f s c cn l P E L F (R : () → cstate U → Prop) :
  held s c cn l P E L F →
  _pending_connect (f cn) = _pending_connect cn → extern_pending_connect (f cn) = extern_pending_connect cn →
  (∀ s', held s' c (f cn) l P E L F → cs_net s' = cs_net s → R tt s') →
  wp (cnr_set (Some c) f) s R.
Proof.
  intros [] Hf1 Hf2 HR. rw /cnr_set /on_conns. wp_step. eapply wp_hmodify; [done|].
  apply HR; [|done]. split; simpl; rw ?Hf1 ?Hf2 ?lookup_insert_eq; done.
Qed.

(** Building the representation after the links have changed. *)
Lemma held_links s c cn l P E L F N' cn' l' P' E' L' F' :
  held s c cn l P E L F →
  P ++ E ++ L ++ F ≡ₚ P' ++ E' ++ L' ++ F' →
  ll_rep N' (_pending_connect cn') P'.*1 → ll_rep N' (extern_pending_connect cn') E'.*1 →
  ll_rep N' l' L'.*1 → (∀ x, x ∈ F'.*1 → N' !! x = Some NULL) →
  (Z.of_nat (length P') ≤ FD_SETSIZE)%Z →
  held (CState (cs_net s) (cs_pcs s) N' (<[c := cn']> (cs_conns s))) c cn' l' P' E' L' F'.
Proof.
  intros [] Hp ?????. split; try done; [by rw lookup_insert_eq|by eapply held_nodup_perm|by eapply held_sub].
Qed.

Lemma held_same s c cn l P E L F : held s c cn l P E L F → <[c := cn]> (cs_conns s) = cs_conns s.
Proof. intros []. by rw insert_id. Qed.

(** The pop of the first node of the table. *)
Lemma wp_pc_pop s c cn l P E L F (R : ptr → cstate U → Prop) :
  held s c cn l P E L F →
  (∀ s' cn', same_counts cn cn' → cs_net s' = cs_net s →
     held s' c cn' l (tail P) E L (take 1 P ++ F) → R (head P.*1) s') →
  wp (pc_pop (Some c)) s R.
Proof.
  intros Hh HR. pose proof Hh as []. rw /pc_pop. wp_step. eapply wp_connector; [done|].
  wp_step. rw /on_links. wp_step. eapply wp_mono.
  { apply ll_pop_ok; [exact he_pending0|]. rw length_fmap. unfold FD_SETSIZE in *. lia. }
  intros [p l'] N' (Hhd & Hl' & Hfr & Hnull). cbn [fst snd] in *. subst p. wp_step. rw /cnr_set /on_conns. wp_step.
  eapply wp_hmodify; [done|]. wp_step. cbn [cs_conns cs_net cs_pcs cs_nexts].
  destruct (held_disjoint _ _ _ _ he_nodup0) as (HPE & HPL & HPF & _).
  eapply (HR _ (set_pending l' cn)); [done..|]. eapply held_links; [exact Hh| | | | | |].
  - destruct P as [|xp P]; [done|]. simpl. solve_Permutation.
  - by destruct P.
  - eapply ll_rep_frame; [done| |done]; set_solver.
  - eapply ll_rep_frame; [done| |done]; set_solver.
  - intros x. rw fmap_app elem_of_app. intros [Hx|Hx].
    + apply Hnull. destruct P as [|xp P]; [by apply not_elem_of_nil in Hx|]. simpl in *.
      apply list_elem_of_singleton in Hx. by subst.
    + rw (proj2 Hfr); [set_solver|]. by apply he_free0.
  - destruct P; simpl in *; lia.
Qed.

(** The pop of the first node of the local list. *)
Lemma wp_local_pop s c cn l P E L F (R : ptr * link_list → cstate U → Prop) :
  held s c cn l P E L F → (Z.of_nat (length L) < 2 ^ 31)%Z →
  (∀ s' l', cs_net s' = cs_net s →
     held s' c cn l' P E (tail L) (take 1 L ++ F) → R (head L.*1, l') s') →
  wp (on_links (link_list_pop l)) s R.
Proof.
  intros Hh Hlen HR. pose proof Hh as []. rw /on_links. wp_step. eapply wp_mono.
  { apply ll_pop_ok; [exact he_local0|]. by rw length_fmap. }
  intros [p l'] N' (Hhd & Hl' & Hfr & Hnull). cbn [fst snd] in *. subst p.
  destruct (held_disjoint _ _ _ _ he_nodup0) as (HPE & HPL & HPF & HEL & HEF & HLF).
  apply HR; [done|]. rw -(held_same _ _ _ _ _ _ _ _ Hh). eapply held_links; [exact Hh| | | | | |done].
  - destruct L as [|xp L]; [done|]. simpl. solve_Permutation.
  - eapply ll_rep_frame; [done| |done]; set_solver.
  - eapply ll_rep_frame; [done| |done]; set_solver.
  - by destruct L.
  - intros x. rw fmap_app elem_of_app. intros [Hx|Hx].
    + apply Hnull. destruct L as [|xp L]; [by apply not_elem_of_nil in Hx|]. simpl in *.
      apply list_elem_of_singleton in Hx. by subst.
    + rw (proj2 Hfr); [set_solver|]. by apply he_free0.
Qed.

(** The push of a detached node on the table. *)
Lemma wp_pc_push s c cn l P E L F x pc (R : () → cstate U → Prop) :
  held s c cn l P E L ((x, pc) :: F) → (Z.of_nat (length P) < FD_SETSIZE)%Z →
  (∀ s' cn', same_counts cn cn' → cs_net s' = cs_net s →
     held s' c cn' l (P ++ [(x, pc)]) E L F → R tt s') →
  wp (pc_push (Some c) x) s R.
Proof.
  intros Hh Hlen HR. pose proof Hh as []. rw /pc_push. wp_step. eapply wp_connector; [done|].
  destruct (held_disjoint _ _ _ _ he_nodup0) as (HPE & HPL & HPF & HEL & HEF & HLF). simpl in HPF, HEF, HLF.
  wp_step. rw /on_links. wp_step. eapply wp_mono.
  { apply ll_push_back_ok; [exact he_pending0|apply he_free0; left|set_solver|].
    rw /ll_room length_fmap. unfold FD_SETSIZE in *. lia. }
  intros l' N' (Hl' & Hfr). rw /cnr_set /on_conns. wp_step.
  eapply wp_hmodify; [done|]. cbn [cs_conns cs_net cs_pcs cs_nexts].
  assert (HxF : x ∉ F.*1).
  { intros Hx. rw !fmap_app fmap_cons !NoDup_app in he_nodup0.
    destruct he_nodup0 as (_ & _ & _ & _ & _ & _ & [Hx' _]%NoDup_cons). done. }
  eapply (HR _ (set_pending l' cn)); [done..|]. eapply held_links; [exact Hh| | | | | |].
  - simpl. solve_Permutation.
  - by rw fmap_app.
  - eapply ll_rep_frame; [done| |done]; set_solver.
  - eapply ll_rep_frame; [done| |done]; set_solver.
  - intros y Hy. rw (proj2 Hfr); [set_solver|]. apply he_free0. by right.
  - rw length_app /=. lia.
Qed.

(** The [free] of a detached node. *)
Lemma wp_pc_free s c cn l P E L F x pc (R : () → cstate U → Prop) :
  held s c cn l P E L ((x, pc) :: F) →
  (∀ s', cs_net s' = cs_net s → held s' c cn l P E L F → R tt s') →
  wp (pc_free (Some x)) s R.
Proof.
  intros Hh HR. pose proof Hh as []. destruct (he_pcs0 x pc) as [Hx _]; [set_solver|].
  rw /pc_free /on_pcs /on_links. do 2 wp_step. eapply wp_hfree; [done|]. do 2 wp_step.
  destruct (held_disjoint _ _ _ _ he_nodup0) as (_ & _ & HPF & _ & HEF & HLF). simpl in HPF, HEF, HLF.
  pose proof he_nodup0 as Hnd. eapply held_nodup_perm in Hnd as Hnd';
    [|change ((x, pc) :: F) with ([(x, pc)] ++ F); by rw (Permutation_app_comm [_] F)].
  assert (Hnx : x ∉ (P ++ E ++ L ++ F).*1 ∧ NoDup (P ++ E ++ L ++ F).*1).
  { rw !app_assoc fmap_app NoDup_app -!app_assoc in Hnd'. destruct Hnd' as (Hnd1 & Hd & _). split; [|done].
    intros Hin. eapply Hd; [exact Hin|]. left. }
  destruct Hnx as [Hnx Hnd2]. apply HR; [done|]. simpl.
  assert (Hlists : ∀ li (Q : list (loc * pending_connect)), x ∉ Q.*1 → ll_rep (cs_nexts s) li Q.*1 →
    ll_rep (delete x (cs_nexts s)) li Q.*1).
  { intros li Q HQ []. split; [done| |done]. clear -HQ ll_rep_seg. revert ll_rep_seg.
    generalize (ll_head li). generalize NULL as q. induction Q.*1 as [|y ys IH]; intros q p; simpl; [done|].
    intros (-> & r & Hr & Hs). split; [done|]. exists r. rw lookup_delete_ne; [set_solver|].
    split; [done|]. apply IH; [set_solver|done]. }
  split; simpl; try done; try (apply Hlists; [set_solver|done]).
  - intros y Hy. rw lookup_delete_ne; [set_solver|]. apply he_free0. by right.
  - intros y pc' Hy. rw lookup_delete_ne.
    + intros ->. apply Hnx. by apply (list_elem_of_fmap_2 fst) in Hy.
    + apply he_pcs0. set_solver.
Qed.
End rep.

(** ** The outside world *)

Section run.
Context {U : Type} (K : kernel U) (k_select : Z → gset Z → Z → M U (Z * gset Z)).
Context (call : nat → Z → list Z → Z → Z → M (cstate U) ()).
(** The events that the outside world has seen, and for every time a bound on
    the number of clock readings that are still before it. *)
Context (trace : U → list cevent) (patience : U → Z → nat).
Implicit Types (s : cstate U) (c x : loc) (P E L F : list (loc * pending_connect)) (a : astate).

Definition cmem s : U := w_mem (cs_net s).
Definition no_later (u u' : U) : Prop := ∀ T, patience u' T ≤ patience u T.

(** A reading of the clock as the code keeps it. *)
Definition tick_of (r : Z * Z) : Z := u32 (i32 (r.1 * 1000 + r.2 / 1000)).

(** [select] and the clock return; both are seen; time passes. *)
Record outside_ok : Prop := {
  ok_select : ∀ set us u, wp (k_select 1024 set us) u (λ r u',
    trace u' = trace u ++ [EvSelect set r.1 r.2] ∧ no_later u u');
  ok_clock : ∀ u, wp (k_gettimeofday K) u (λ r u',
    trace u' = trace u ++ [EvClock (tick_of r)] ∧ no_later u u' ∧
    ∀ T, (tick_of r < T < 2 ^ 32)%Z → patience u' T < patience u T);
}.

(** A callback returns; it may queue further connections, but it does not touch
    those that are queued, and it is seen itself. *)
Definition callback_ok : Prop := ∀ f h ip port ud s c cn l P E L F,
  held s c cn l P E L F → (Z.of_nat (length E) < 2 ^ 31)%Z →
  wp (call f h ip port ud) s (λ _ s', ∃ cn' E' clocks,
    held s' c cn' l P (E ++ E') L F ∧ same_counts cn cn' ∧
    (Z.of_nat (length (E ++ E')) < 2 ^ 31)%Z ∧
    trace (cmem s') = trace (cmem s) ++ EvCall f h ip port ud :: clocks ∧ Forall is_clock clocks ∧
    no_later (cmem s) (cmem s')).

Lemma selected_quiet evs evs' set : Forall (λ e, ¬ is_select e) evs' →
  selected (evs ++ evs') set = selected evs set.
Proof.
  intros Hq. revert set. induction evs as [|e evs IH]; intros set; simpl.
  - induction Hq as [|e evs He Hq IH]; [done|]. by destruct e.
  - by destruct e.
Qed.

Lemma selected_snoc evs set watched total found :
  selected (evs ++ [EvSelect watched total found]) set = if (0 <? total)%Z then found else ∅.
Proof. revert set. induction evs as [|[] evs IH]; intros; simpl; auto. Qed.

(** [observed t0 s a s' a' evs]: between [s] and [s'] the abstract connector has
    gone from [a] to [a'], and the events [evs] were seen. *)
Record observed s a s' a' (evs : list cevent) : Prop := {
  ev_steps : rtc astep a a';
  ev_trace : trace (cmem s') = trace (cmem s) ++ evs;
  ev_atrace : a_trace a' = a_trace a ++ evs;
  ev_time : no_later (cmem s) (cmem s');
}.

Lemma observed_refl s s' a : cs_net s' = cs_net s → observed s a s' a [].
Proof. intros H. split; rw ?app_nil_r /no_later /cmem ?H //. Qed.
Lemma observed_trans s1 a1 s2 a2 s3 a3 evs evs' :
  observed s1 a1 s2 a2 evs → observed s2 a2 s3 a3 evs' → observed s1 a1 s3 a3 (evs ++ evs').
Proof.
  intros [] []. split; [by etrans| | |]; [rw app_assoc; congruence..|]. intros T. unfold no_later in *. eapply Nat.le_trans; eauto.
Qed.
Lemma observed_step s1 a1 s2 a2 s3 evs :
  observed s1 a1 s2 a2 evs → cs_net s3 = cs_net s2 → observed s1 a1 s3 a2 evs.
Proof. intros [] H. split; rw /cmem ?H //. Qed.

Lemma observed_from s0 s a s' a' evs :
  cs_net s = cs_net s0 → observed s a s' a' evs → observed s0 a s' a' evs.
Proof. intros H []. by split; rw /cmem -?H. Qed.

Lemma clock_steps new table evs clocks : Forall is_clock clocks →
  rtc astep (AState new table evs) (AState new table (evs ++ clocks)).
Proof.
  intros Hc. revert evs. induction Hc as [|e clocks He Hc IH]; intros evs; [by rw app_nil_r|].
  destruct e; try done. eapply rtc_l; [apply AClock|]. rw (_ : evs ++ _ :: clocks = (evs ++ [EvClock tick]) ++ clocks).
  { by rw -app_assoc. } apply IH.
Qed.

(** The connections in the table and in the local list are those of [a]. *)
Definition agrees a P L : Prop := a_new a = L.*2 ∧ a_table a ≡ₚ P.*2.

Context (Hout : outside_ok) (Hcall : callback_ok).

(** [pc_finish]: the callback is called and the connection is freed; the
    abstract connector has the step that allows this call. *)
Lemma wp_pc_finish s c cn l P E L F x pc h a a' (R : () → cstate U → Prop) :
  held s c cn l P E L ((x, pc) :: F) → (Z.of_nat (length E) < 2 ^ 31)%Z →
  astep a a' → a_trace a' = a_trace a ++ [call_of pc h] → agrees a' P L →
  (∀ s' cn' E' a'' clocks, held s' c cn' l P E' L F → same_counts cn cn' → (Z.of_nat (length E') < 2 ^ 31)%Z →
     agrees a'' P L → observed s a s' a'' (call_of pc h :: clocks) → Forall is_clock clocks →
     R tt s') →
  wp (pc_finish call (Some x) pc h) s R.
Proof.
  intros Hh HE Hstep Htr [Hnew Htab] HR. rw /pc_finish. wp_step. eapply wp_mono; [by apply Hcall|].
  intros [] s1 (cn' & E' & clocks & Hh1 & Hc & HE' & Htr1 & Hclk & Hl).
  eapply wp_pc_free; [done|]. intros s2 Hnet Hh2.
  apply (HR s2 cn' (E ++ E') (AState (a_new a') (a_table a') (a_trace a' ++ clocks)) clocks); try done.
  - split.
    + eapply rtc_l; [done|]. destruct a'. by apply clock_steps.
    + by rw /cmem Hnet.
    + by rw /= Htr -assoc.
    + by rw /cmem Hnet.
Qed.

Lemma wp_current_tick s a (R : Z → cstate U → Prop) :
  (∀ t w, let s' := CState w (cs_pcs s) (cs_nexts s) (cs_conns s) in
     observed s a s' (AState (a_new a) (a_table a) (a_trace a ++ [EvClock t])) [EvClock t] →
     (∀ T, (t < T < 2 ^ 32)%Z → patience (cmem s') T < patience (cmem s) T) →
     (∃ r, k_gettimeofday K (cmem s) = Ok (r, cmem s') ∧ t = tick_of r) → R t s') →
  wp (current_tick K) s R.
Proof.
  intros HR. rw /current_tick /GetSystemMs /on_net. do 3 wp_step. rw /on_mem. wp_step.
  destruct (wp_ok _ _ _ (ok_clock Hout (cmem s))) as ([sec usec] & u & Hrun & Htr & Hl & Hlt).
  eapply ok_wp; [exact Hrun|].
  do 2 wp_step. apply HR; [|done|by exists (sec, usec)]. split; try done. destruct a. apply rtc_once, AClock.
Qed.

Lemma wp_FD_SET fd s c cn l P E L F (R : () → cstate U → Prop) :
  held s c cn l P E L F → fd_fits fd = true →
  (∀ s', held s' c (set_Set ({[ fd ]} ∪ c_Set cn) cn) l P E L F → cs_net s' = cs_net s → R tt s') →
  wp (FD_SET fd (Some c)) s R.
Proof. intros Hh Hfd HR. rw /FD_SET Hfd. eapply wp_connector_set; [exact Hh|done..]. Qed.

Lemma wp_FD_ISSET fd s c cn l P E L F (R : bool → cstate U → Prop) :
  held s c cn l P E L F → fd_fits fd = true → R (bool_decide (fd ∈ c_Set cn)) s →
  wp (FD_ISSET fd (Some c)) s R.
Proof. intros Hh Hfd HR. rw /FD_ISSET Hfd. wp_step. eapply wp_connector; [exact Hh|]. by wp_step. Qed.

Lemma held_fits s c cn l P E L F x pc : held s c cn l P E L F → (x, pc) ∈ P ++ E ++ L ++ F →
  fd_fits (pc_real_fd pc) = true.
Proof. intros [] Hx. by apply he_pcs0 in Hx as []. Qed.

Lemma agrees_length a P L : agrees a P L → length (a_table a) = length P.
Proof. intros [_ ->]. by rw length_fmap. Qed.

Lemma agrees_watching a cn P L : agrees a P L → watching cn P →
  c_Set cn = list_to_set (pc_real_fd <$> a_table a).
Proof. rw /watching. intros [_ H] ->. by rw H. Qed.

(** *** Taking over the new connections *)

Lemma intake_ok fuel s c cn l P E L a : held s c cn l P E L [] → counted cn P → watching cn P →
  (Z.of_nat (length E) < 2 ^ 31)%Z → (Z.of_nat (length L) < 2 ^ 31)%Z → agrees a P L → length L < fuel →
  wp (loop fuel (intake_body call (Some c)) l) s (λ _ s', ∃ cn' P' E' a' evs,
    held s' c cn' create_link_list P' E' [] [] ∧ counted cn' P' ∧ watching cn' P' ∧
    (Z.of_nat (length E') < 2 ^ 31)%Z ∧ agrees a' P' [] ∧ observed s a s' a' evs ∧
    Forall (λ e, ¬ is_select e) evs).
Proof.
  intros Hh Hcnt Hw HE HL Ha Hfuel.
  apply (wp_loop (λ n l s', ∃ cn' P' E' L' a' evs, n = length L' ∧ held s' c cn' l P' E' L' [] ∧
    counted cn' P' ∧ watching cn' P' ∧ (Z.of_nat (length E') < 2 ^ 31)%Z ∧ (Z.of_nat (length L') < 2 ^ 31)%Z ∧
    agrees a' P' L' ∧ observed s a s' a' evs ∧ Forall (λ e, ¬ is_select e) evs)) with (length L); [| |done].
  2: { exists cn, P, E, L, a, []. split_and!; try done. by apply observed_refl. }
  clear -Hout Hcall. intros n l' s1 (cn & P & E & L & a1 & evs & -> & Hh & Hcnt & Hw & HE & HL & Ha & Hev & Hq).
  rw /intake_body. wp_step. eapply wp_local_pop; [done..|]. intros s2 l2 Hnet Hh2. cbn match.
  eapply observed_step in Hev; [|exact Hnet]. destruct L as [|[x pc] L].
  - simpl. wp_step. exists cn, P, E, a1, evs. split_and!; try done. by destruct Hh2.
  - simpl. simpl in Hh2. assert (Hin : (x, pc) ∈ P ++ E ++ L ++ [(x, pc)]) by set_solver.
    wp_step. eapply wp_connector; [done|]. wp_step. eapply wp_pc_get; [done..|].
    destruct Ha as [Hnew Htab]. destruct a1 as [new table tr]. simpl in Hnew, Htab. subst new.
    assert (Hlen : length table = length P) by (rw Htab; by rw length_fmap).
    rw Hcnt. wp_step. destruct (Z.leb_spec FD_SETSIZE (Z.of_nat (length P))) as [Hfull|Hroom].
    + eapply (wp_pc_finish _ _ _ _ _ _ _ _ _ _ _ (AState (pc :: L.*2) table tr)); [done|done| | | |].
      * apply AReject. by rw Hlen.
      * done.
      * done.
      * intros s3 cn' E' a'' clocks Hh3 [Hc1 Hc2] HE' Ha'' Hev' Hclk. wp_step. exists (length L). split; [simpl; lia|].
        exists cn', P, E', L, a'', (evs ++ call_of pc (-1) :: clocks). rw /counted /watching Hc1 Hc2.
        split_and!; try done; [simpl in HL; lia|by eapply observed_trans|].
        apply Forall_app. split; [done|]. constructor; [by intros []|].
        eapply Forall_impl; [exact Hclk|]. intros []; simpl; tauto.
    + wp_step. eapply wp_FD_SET; [done|by eapply held_fits|]. intros s3 Hh3 Hnet3.
      wp_step. eapply wp_pc_push; [done..|]. intros s4 cn4 [Hc1 Hc2] Hnet4 Hh4.
      eapply wp_connector_set; [exact Hh4|done..|]. intros s5 Hh5 Hnet5. wp_step. exists (length L). split; [simpl; lia|].
      eexists _, (P ++ [(x, pc)]), E, L, (AState L.*2 (pc :: table) tr), (evs ++ []). split_and!; [done|exact Hh5|..].
      * rw /counted /= Hc2 /= Hcnt length_app /=. unfold FD_SETSIZE in *. rw u32_small; lia.
      * rw /watching /= Hc1 /= Hw !fmap_app list_to_set_app_L /=. set_solver.
      * done.
      * simpl in HL. lia.
      * split; [done|]. rw fmap_app /= Htab. solve_Permutation.
      * eapply observed_trans; [done|]. split; rw ?app_nil_r /no_later /cmem ?Hnet5 ?Hnet4 ?Hnet3 //.
        apply rtc_once, AAdmit. by rw Hlen.
      * by rw app_nil_r.
Qed.

(** *** Serving what [select] has found *)

Definition not_in (set : gset Z) (xp : loc * pending_connect) : Prop := pc_real_fd xp.2 ∉ set.
#[local] Instance not_in_dec set xp : Decision (not_in set xp).
Proof. unfold not_in. apply _. Defined.

Lemma serve_ready_ok n s c cn P E a : held s c cn create_link_list P E [] [] → counted cn P → n ≤ length P →
  (Z.of_nat (length E) < 2 ^ 31)%Z → agrees a P [] → c_Set cn = selected (a_trace a) ∅ →
  wp (serve_ready call (Some c) n) s (λ _ s', ∃ cn' E' a' evs,
    let P' := drop n P ++ filter (not_in (c_Set cn)) (take n P) in
    held s' c cn' create_link_list P' E' [] [] ∧ counted cn' P' ∧ c_Set cn' = c_Set cn ∧
    (Z.of_nat (length E') < 2 ^ 31)%Z ∧ agrees a' P' [] ∧ observed s a s' a' evs ∧
    Forall (λ e, ¬ is_select e) evs).
Proof.
  revert s cn P E a. induction n as [|n IH]; intros s cn P E a Hh Hcnt Hn HE Ha Hset; simpl.
  - wp_step. exists cn, E, a, []. rw take_0 drop_0 filter_nil app_nil_r. split_and!; try done. by apply observed_refl.
  - destruct P as [|[x pc] P]; [simpl in Hn; lia|]. wp_step.
    eapply wp_pc_pop; [done|]. intros s1 cn1 [Hc1 Hc2] Hnet1 Hh1. simpl in Hh1. cbn [head fmap list_fmap fst]. wp_step.
    assert (Hin : (x, pc) ∈ P ++ E ++ [] ++ [(x, pc)]) by set_solver.
    wp_step. eapply wp_pc_get; [done..|]. wp_step. eapply wp_FD_ISSET; [done|by eapply held_fits|].
    rw Hc1. case_bool_decide as Hsel.
    + wp_step. destruct a as [new table tr]. destruct Ha as [Hnew Htab]. simpl in *.
      assert (Hstep : astep (AState new table tr) (AState new P.*2 (tr ++ [call_of pc (pc_sock pc)]))).
      { apply AReady; [done|]. by rw -Hset. }
      eapply (wp_pc_finish s1 _ _ _ _ _ _ _ _ _ _ _ _ _ Hh1 HE Hstep); [done|done|].
      intros s2 cn2 E2 a2 clocks Hh2 [Hc3 Hc4] HE2 Ha2 Hev2 Hclk.
      assert (Hquiet : Forall (λ e, ¬ is_select e) (call_of pc (pc_sock pc) :: clocks)).
      { constructor; [by intros []|]. eapply Forall_impl; [exact Hclk|]. intros []; simpl; tauto. }
      eapply wp_connector_set; [exact Hh2|done..|]. intros s3 Hh3 Hnet3.
      eapply wp_mono.
      { eapply (IH s3 _ P E2 a2 Hh3); try done; [| |].
        - rw /counted /= Hc4 Hc2 Hcnt /=. pose proof (he_size _ _ _ _ _ _ _ _ Hh). unfold FD_SETSIZE in *.
          simpl in *. rw u32_small; lia.
        - simpl in Hn. lia.
        - rw /= Hc3 Hc1 Hset (ev_atrace _ _ _ _ _ Hev2) selected_quiet //. }
      intros [] s4 (cn4 & E4 & a4 & evs4 & Hh4 & Hcnt4 & Hs4 & HE4 & Ha4 & Hev4 & Hq4).
      simpl in Hh4, Hcnt4, Hs4, Ha4. rw Hc3 Hc1 in Hh4, Hcnt4, Hs4, Ha4.
      exists cn4, E4, a4, ((call_of pc (pc_sock pc) :: clocks) ++ evs4).
      rw /= filter_cons_False; [by intros Hni; apply Hni|]. split_and!; try done.
      * rw app_comm_cons. eapply observed_trans; [|done]. eapply observed_step; [|done]. by eapply observed_from.
      * rw app_comm_cons. by apply Forall_app.
    + simpl in Hn. pose proof (he_size _ _ _ _ _ _ _ _ Hh) as Hsz. simpl in Hsz.
      eapply wp_pc_push; [done|lia|]. intros s2 cn2 [Hc3 Hc4] Hnet2 Hh2.
      eapply wp_mono.
      { eapply (IH s2 cn2 (P ++ [(x, pc)]) E a Hh2); try done.
        - rw /counted Hc4 Hc2 Hcnt length_app /=. lia.
        - rw length_app /=. lia.
        - destruct Ha as [? Ht]. split; [done|]. rw Ht fmap_app /=. solve_Permutation.
        - by rw Hc3 Hc1. }
      intros [] s4 (cn4 & E4 & a4 & evs4 & Hh4 & Hcnt4 & Hs4 & HE4 & Ha4 & Hev4 & Hq4).
      simpl in Hh4, Hcnt4, Ha4. rw Hc3 Hc1 in Hh4, Hcnt4, Hs4, Ha4.
      exists cn4, E4, a4, evs4. rw drop_app_le in Hh4, Hcnt4, Ha4; [lia..|]. rw take_app_le in Hh4, Hcnt4, Ha4; [lia..|].
      rw -app_assoc in Hh4, Hcnt4, Ha4. rw /= filter_cons_True; [done|].
      split_and!; try done. eapply observed_from; [|done]. congruence.
Qed.

(** *** Giving up on the connections whose time is over *)

Definition before (tick : Z) (xp : loc * pending_connect) : Prop := (tick < pc_timeout xp.2)%Z.
#[local] Instance before_dec tick xp : Decision (before tick xp).
Proof. unfold before. apply _. Defined.

Lemma expire_ok tick A s c cn B E a : held s c cn create_link_list (A ++ B) E [] [] →
  counted cn (A ++ B) → watching cn B → (Z.of_nat (length E) < 2 ^ 31)%Z → agrees a (A ++ B) [] →
  EvClock tick ∈ a_trace a →
  wp (expire call (Some c) tick (length A)) s (λ _ s', ∃ cn' E' a' evs,
    let P' := B ++ filter (before tick) A in
    held s' c cn' create_link_list P' E' [] [] ∧ counted cn' P' ∧ watching cn' P' ∧
    (Z.of_nat (length E') < 2 ^ 31)%Z ∧ agrees a' P' [] ∧ observed s a s' a' evs ∧
    Forall (λ e, ¬ is_select e) evs).
Proof.
  revert s cn B E a. induction A as [|[x pc] A IH]; intros s cn B E a Hh Hcnt Hw HE Ha Htick; simpl.
  - wp_step. exists cn, E, a, []. rw filter_nil app_nil_r. split_and!; try done. by apply observed_refl.
  - pose proof (he_size _ _ _ _ _ _ _ _ Hh) as Hsz. simpl in Hsz.
    wp_step. eapply wp_pc_pop; [done|]. intros s1 cn1 [Hc1 Hc2] Hnet1 Hh1. simpl in Hh1.
    rw (_ : head (((x, pc) :: A) ++ B).*1 = Some x) //.
    assert (Hin : (x, pc) ∈ (A ++ B) ++ E ++ [] ++ [(x, pc)]) by set_solver.
    wp_step. wp_step. wp_step. eapply wp_pc_get; [done..|]. wp_step.
    destruct (Z.leb_spec (pc_timeout pc) tick) as [Hlate|Hearly].
    + wp_step. destruct a as [new table tr]. destruct Ha as [Hnew Htab]. simpl in *.
      assert (Hstep : astep (AState new table tr) (AState new (A ++ B).*2 (tr ++ [call_of pc (-1)]))).
      { by apply (ALate _ _ _ _ _ tick). }
      eapply (wp_pc_finish s1 _ _ _ _ _ _ _ _ _ _ _ _ _ Hh1 HE Hstep); [done|done|].
      intros s2 cn2 E2 a2 clocks Hh2 [Hc3 Hc4] HE2 Ha2 Hev2 Hclk.
      assert (Hquiet : Forall (λ e, ¬ is_select e) (call_of pc (-1) :: clocks)).
      { constructor; [by intros []|]. eapply Forall_impl; [exact Hclk|]. intros []; simpl; tauto. }
      eapply wp_connector_set; [exact Hh2|done..|]. intros s3 Hh3 Hnet3.
      eapply wp_mono.
      { eapply (IH s3 _ B E2 a2 Hh3); try done.
        - rw /counted /= Hc4 Hc2 Hcnt /=. unfold FD_SETSIZE in *. rw u32_small; lia.
        - by rw /watching /= Hc3 Hc1.
        - rw (ev_atrace _ _ _ _ _ Hev2) elem_of_app. by left. }
      intros [] s4 (cn4 & E4 & a4 & evs4 & Hh4 & Hcnt4 & Hs4 & HE4 & Ha4 & Hev4 & Hq4).
      exists cn4, E4, a4, ((call_of pc (-1) :: clocks) ++ evs4).
      rw /= filter_cons_False; [rw /before /=; lia|]. split_and!; try done.
      * rw app_comm_cons. eapply observed_trans; [|done]. eapply observed_step; [|done]. by eapply observed_from.
      * rw app_comm_cons. by apply Forall_app.
    + wp_step. eapply wp_pc_push; [done|lia|]. intros s2 cn2 [Hc3 Hc4] Hnet2 Hh2.
      rw -app_assoc in Hh2. eapply wp_FD_SET; [exact Hh2|eapply held_fits; [exact Hh1|exact Hin]|].
      intros s3 Hh3 Hnet3. eapply wp_mono.
      { eapply (IH s3 _ (B ++ [(x, pc)]) E a Hh3); try done.
        - rw /counted /= Hc4 Hc2 Hcnt /= !length_app /=. lia.
        - rw /watching /= Hc3 Hc1 Hw !fmap_app list_to_set_app_L /=. set_solver.
        - destruct Ha as [? Ht]. split; [done|]. rw Ht !fmap_app /=. solve_Permutation. }
      intros [] s4 (cn4 & E4 & a4 & evs4 & Hh4 & Hcnt4 & Hs4 & HE4 & Ha4 & Hev4 & Hq4).
      exists cn4, E4, a4, evs4. rw -app_assoc in Hh4, Hcnt4, Hs4, Ha4. rw /= filter_cons_True; [done|].
      split_and!; try done. eapply observed_from; [|done]. congruence.
Qed.

(** *** The rounds *)

(** What the first [select] has found. *)
Fixpoint first_found (evs : list cevent) : gset Z :=
  match evs with
  | [] => ∅
  | EvSelect _ total found :: _ => if (0 <? total)%Z then found else ∅
  | _ :: evs => first_found evs
  end.

Lemma first_found_quiet evs evs' : Forall (λ e, ¬ is_select e) evs → first_found (evs ++ evs') = first_found evs'.
Proof. induction 1 as [|e evs He _ IH]; [done|]. by destruct e. Qed.
Lemma first_found_some evs evs' : Exists is_select evs → first_found (evs ++ evs') = first_found evs.
Proof. induction 1 as [e evs He|e evs _ IH]; [by destruct e|]. by destruct e. Qed.

(** The last look at the clock before the last callbacks has found no
    connection of [ps] late. *)
Definition swept (evs : list cevent) (ps : list pending_connect) : Prop :=
  ps = [] ∨ ∃ evs1 tick evs2, evs = evs1 ++ EvClock tick :: evs2 ∧ Forall (λ e, ¬ is_select e) evs2 ∧
    Forall (λ pc, tick < pc_timeout pc)%Z ps.

Lemma swept_app evs evs' ps : swept evs' ps → swept (evs ++ evs') ps.
Proof.
  intros [?|(evs1 & tick & evs2 & -> & ? & ?)]; [by left|right]. exists (evs ++ evs1), tick, evs2.
  by rw -app_assoc.
Qed.

Lemma wp_pending_size s c cn l P E L F (R : Z → cstate U → Prop) : held s c cn l P E L F →
  R (Z.of_nat (length P)) s → wp (pending_size (Some c)) s R.
Proof.
  intros Hh HR. rw /pending_size. wp_step. eapply wp_connector; [done|]. wp_step.
  pose proof (he_size _ _ _ _ _ _ _ _ Hh). rw (ll_rep_size _ _ _ (he_pending _ _ _ _ _ _ _ _ Hh)) length_fmap.
  unfold FD_SETSIZE in *. rw u32_small; [lia|]. rw i32_small; [lia|done].
Qed.

Lemma wp_select s c cn P E a us (R : Z * gset Z → cstate U → Prop) :
  held s c cn create_link_list P E [] [] → watching cn P → agrees a P [] →
  (∀ total found w, let s' := CState w (cs_pcs s) (cs_nexts s) (cs_conns s) in
     let e := EvSelect (c_Set cn) total found in
     observed s a s' (AState (a_new a) (a_table a) (a_trace a ++ [e])) [e] → R (total, found) s') →
  wp (on_net (on_mem (k_select 1024 (c_Set cn) us))) s R.
Proof.
  intros Hh Hw Ha HR. rw /on_net /on_mem. do 2 wp_step. eapply wp_mono; [by apply (ok_select Hout)|].
  intros [total found] u (Htr & Hl). cbn [fst snd] in *. apply HR. split; try done. apply rtc_once.
  rw (agrees_watching _ _ _ _ Ha Hw). destruct a. apply ASelect.
Qed.

(** The loop over the connections that [select] has found, or nothing. *)
Lemma serve_found_ok total n s c cn P E a : held s c cn create_link_list P E [] [] → counted cn P →
  n ≤ length P → (Z.of_nat (length E) < 2 ^ 31)%Z → agrees a P [] →
  ((0 < total)%Z → c_Set cn = selected (a_trace a) ∅) →
  wp (if (0 <? total)%Z then serve_ready call (Some c) n else mret tt) s (λ _ s', ∃ cn' P' E' a' evs,
    held s' c cn' create_link_list P' E' [] [] ∧ counted cn' P' ∧
    (Z.of_nat (length E') < 2 ^ 31)%Z ∧ agrees a' P' [] ∧ observed s a s' a' evs ∧
    Forall (λ e, ¬ is_select e) evs ∧ (∀ xp, xp ∈ P' → xp ∈ P) ∧
    (n = length P → Forall (not_in (if (0 <? total)%Z then c_Set cn else ∅)) P')).
Proof.
  intros Hh Hcnt Hn HE Ha Hset. destruct (Z.ltb_spec 0 total) as [Hpos|_].
  - eapply wp_mono; [by eapply serve_ready_ok; eauto|].
    intros [] s' (cn' & E' & a' & evs & Hh' & Hcnt' & _ & HE' & Ha' & Hev & Hq).
    do 5 eexists. split_and!; try done.
    + intros xp [H|[_ H]%list_elem_of_filter]%elem_of_app.
      * by eapply subseteq_drop.
      * by eapply subseteq_take.
    + intros ->. rw drop_all /=. apply Forall_forall. by intros xp [? _]%list_elem_of_filter.
  - wp_step. exists cn, P, E, a, []. split_and!; try done; [by apply observed_refl|].
    intros _. apply Forall_forall. intros xp _. rw /not_in. set_solver.
Qed.

(** What is known of the table [P] after the events [evs] of a run, when the
    next round starts at [i]. *)
Definition first_served evs (i : Z) P : Prop :=
  (Exists is_select evs ∧ Forall (not_in (first_found evs)) P) ∨ (Forall (λ e, ¬ is_select e) evs ∧ i = 0%Z).

Lemma first_served_round evs i P P' watched total found rest : first_served evs i P →
  (∀ xp, xp ∈ P' → xp ∈ P) → (i = 0%Z → Forall (not_in (if (0 <? total)%Z then found else ∅)) P') →
  let evs' := evs ++ EvSelect watched total found :: rest in
  Exists is_select evs' ∧ Forall (not_in (first_found evs')) P'.
Proof.
  intros Hfs Hsub H0. cbn zeta. split.
  - apply Exists_app. right. by left.
  - destruct Hfs as [[Hex Hall]|[Hq ->]].
    + rw first_found_some //. rw Forall_forall in Hall. apply Forall_forall. eauto.
    + rw first_found_quiet //. by apply H0.
Qed.

Lemma run_round_ok _timeout i tick s0 a0 s c cn P E a evs :
  observed s0 a0 s a evs → a_trace a0 = [] → held s c cn create_link_list P E [] [] → counted cn P →
  watching cn P → (Z.of_nat (length E) < 2 ^ 31)%Z → agrees a P [] → first_served evs i P → (0 ≤ i)%Z → (_timeout < 2 ^ 32)%Z →
  wp (run_round K k_select call (Some c) _timeout (i, tick)) s (λ r s', ∃ cn' P' E' a' evs',
    held s' c cn' create_link_list P' E' [] [] ∧ counted cn' P' ∧ watching cn' P' ∧
    (Z.of_nat (length E') < 2 ^ 31)%Z ∧ agrees a' P' [] ∧ observed s0 a0 s' a' evs' ∧
    match r with
    | inl (i', _) => patience (cmem s') _timeout < patience (cmem s) _timeout ∧
        first_served evs' i' P' ∧ (0 ≤ i')%Z
    | inr _ => swept evs' P'.*2 ∧ Forall (not_in (first_found evs')) P'
    end).
Proof.
  intros Hev Htr0 Hh Hcnt Hw HE Ha Hfs Hi HT. rw /run_round. wp_step. eapply wp_pending_size; [done|].
  pose proof (he_size _ _ _ _ _ _ _ _ Hh) as Hsz. unfold FD_SETSIZE in Hsz.
  destruct (Z.eqb_spec (Z.of_nat (length P)) 0) as [H0|_].
  { wp_step. destruct P; [|done]. exists cn, [], E, a, evs. split_and!; try done. by left. }
  wp_step. eapply wp_connector; [done|]. wp_step. eapply wp_select; [done..|]. intros total found w s1 e Hev1.
  cbn match. wp_step. eapply wp_connector_set; [by apply held_net|done..|]. intros s2 Hh2 Hnet2.
  eapply observed_step in Hev1; [|exact Hnet2]. wp_step.
  eapply wp_mono.
  { eapply (serve_found_ok total (Z.to_nat (Z.of_nat (length P) - i)) _ _ _ _ _
      (AState (a_new a) (a_table a) (a_trace a ++ [e])) Hh2); [done|lia|done| |].
    - exact Ha.
    - intros Hpos. rw /= selected_snoc. by destruct (Z.ltb_spec 0 total); [|lia]. }
  intros [] s3 (cn3 & P3 & E3 & a3 & evs3 & Hh3 & Hcnt3 & HE3 & Ha3 & Hev3 & Hq3 & Hsub3 & Hfirst3).
  wp_step. eapply wp_connector_set; [exact Hh3|done..|]. intros s4 Hh4 Hnet4. eapply observed_step in Hev3; [|exact Hnet4].
  wp_step. apply (wp_current_tick _ a3). intros t w5 s5 Hev5 Hlt5 _. wp_step.
  apply (held_net _ w5) in Hh4. eapply wp_pending_size; [exact Hh4|]. rw Nat2Z.id. wp_step.
  eapply wp_mono.
  { rw -(app_nil_r P3) in Hh4. eapply (expire_ok t P3 _ _ _ [] _ (AState (a_new a3) (a_table a3) (a_trace a3 ++ [EvClock t])) Hh4);
      rw ?app_nil_r; try done.
    simpl. apply elem_of_app. right. by left. }
  intros [] s6 (cn6 & E6 & a6 & evs6 & Hh6 & Hcnt6 & Hw6 & HE6 & Ha6 & Hev6 & Hq6).
  wp_step. apply (wp_current_tick _ a6). intros t' w7 s7 Hev7 Hlt7 _.
  pose proof (observed_trans _ _ _ _ _ _ _ _ Hev6 Hev7) as Hev67.
  pose proof (observed_trans _ _ _ _ _ _ _ _ Hev5 Hev67) as Hev57.
  pose proof (observed_trans _ _ _ _ _ _ _ _ Hev1 (observed_trans _ _ _ _ _ _ _ _ Hev3 Hev57)) as Hev17.
  pose proof (observed_trans _ _ _ _ _ _ _ _ Hev Hev17) as Hev07.
  assert (Hsub : ∀ xp, xp ∈ filter (before t) P3 → xp ∈ P).
  { intros xp [_ ?]%list_elem_of_filter. by apply Hsub3. }
  destruct (first_served_round evs i P (filter (before t) P3) (c_Set cn) total found
    (evs3 ++ [EvClock t] ++ evs6 ++ [EvClock t']) Hfs Hsub) as [Hex Hnot].
  { intros ->. apply Forall_forall. intros xp [_ Hxp]%list_elem_of_filter.
    simpl in Hfirst3. rw Forall_forall in Hfirst3. apply Hfirst3; [lia|done]. }
  simpl in Hh6, Hcnt6, Hw6, Ha6. apply (held_net _ w7) in Hh6.
  assert (Hsweep : swept (evs ++ [e] ++ evs3 ++ [EvClock t] ++ evs6 ++ [EvClock t']) (filter (before t) P3).*2).
  { right. exists (evs ++ [e] ++ evs3), t, (evs6 ++ [EvClock t']). split_and!.
    - by rw -!app_assoc.
    - apply Forall_app. split; [done|]. constructor; [by intros []|constructor].
    - apply Forall_fmap, Forall_forall. by intros xp [? _]%list_elem_of_filter. }
  destruct (Z.ltb_spec t' _timeout) as [Hmore|Hdone]; wp_step.
  - exists cn6, (filter (before t) P3), E6. do 2 eexists. split_and!; [exact Hh6|done|done|done| |exact Hev07|..].
    + exact Ha6.
    + eapply Nat.lt_le_trans; [by apply Hlt7|]. eapply Nat.le_trans; [apply (ev_time _ _ _ _ _ Hev6)|].
      eapply Nat.le_trans; [apply (ev_time _ _ _ _ _ Hev5)|].
      eapply Nat.le_trans; [apply (ev_time _ _ _ _ _ Hev3)|]. apply (ev_time _ _ _ _ _ Hev1).
    + left. done.
    + lia.
  - exists cn6, (filter (before t) P3), E6. do 2 eexists. split_and!; [exact Hh6|done|done|done| |exact Hev07|..].
    + exact Ha6.
    + done.
    + done.
Qed.

(** *** The whole run *)

(** The callbacks among the events, in order. *)
Definition is_call (e : cevent) : Prop := match e with EvCall _ _ _ _ _ => True | _ => False end.
#[export] Instance is_call_dec e : Decision (is_call e).
Proof. destruct e; simpl; apply _. Defined.

(** A run of the abstract connector calls every connection back once, or keeps it. *)
Lemma asteps_conserve a a' : rtc astep a a' → ∃ (called : list (pending_connect * Z)) evs,
  a_new a ++ a_table a ≡ₚ a_new a' ++ a_table a' ++ called.*1 ∧ a_trace a' = a_trace a ++ evs ∧
  filter is_call evs = (λ pch, call_of pch.1 pch.2) <$> called.
Proof.
  induction 1 as [a|a1 a2 a3 Hstep _ (called & evs & Hp & Htr & Hc)].
  { exists [], []. by rw !app_nil_r. }
  destruct Hstep as [pc new table tr _|pc new table tr _|new table tr total set|new table tr tick
    |pc new table table' tr Ht _|pc new table table' tr tick Ht _ _]; simpl in Hp, Htr |- *.
  - exists called, evs. split; [|done]. rw -Hp. solve_Permutation.
  - exists ((pc, -1)%Z :: called), (call_of pc (-1) :: evs). rw Htr -app_assoc filter_cons_True // Hc.
    split; [|done]. simpl. rw Hp. solve_Permutation.
  - exists called, (EvSelect (list_to_set (pc_real_fd <$> table)) total set :: evs).
    by rw Htr -app_assoc filter_cons_False //; auto.
  - exists called, (EvClock tick :: evs). by rw Htr -app_assoc filter_cons_False //; auto.
  - exists ((pc, pc_sock pc) :: called), (call_of pc (pc_sock pc) :: evs). rw Htr -app_assoc filter_cons_True // Hc.
    split; [|done]. simpl. rw Ht. trans (pc :: new ++ table'); [solve_Permutation|]. rw Hp. solve_Permutation.
  - exists ((pc, -1)%Z :: called), (call_of pc (-1) :: evs). rw Htr -app_assoc filter_cons_True // Hc.
    split; [|done]. simpl. rw Ht. trans (pc :: new ++ table'); [solve_Permutation|]. rw Hp. solve_Permutation.
Qed.

Lemma run_start_ok s c cn P E (R : link_list → cstate U → Prop) :
  held s c cn create_link_list P E [] [] → (Z.of_nat (length E) < 2 ^ 31)%Z →
  (∀ s' l ext, cs_net s' = cs_net s → held s' c (set_extern ext cn) l P [] E [] → R l s') →
  wp (on_links (link_list_swap create_link_list (extern_pending_connect cn))) s (λ r s1,
    wp (cnr_set (Some c) (set_extern r.2)) s1 (λ _ s2, R r.1 s2)).
Proof.
  intros Hh HE HR. pose proof Hh as []. rw /on_links. wp_step.
  destruct (held_disjoint _ _ _ _ he_nodup0) as (HPE & _).
  eapply wp_mono.
  { apply (ll_swap_ok _ _ _ [] E.*1); [apply ll_rep_nil|done|set_solver|]. by rw length_fmap. }
  intros [l ext] N' (Hl & Hext & Hfr). cbn [fst snd] in *. rw /cnr_set /on_conns. wp_step.
  eapply wp_hmodify; [done|]. cbn [cs_conns cs_net cs_pcs cs_nexts].
  eapply (HR _ _ ext); [done|]. eapply held_links; [exact Hh|..].
  - rw !app_nil_r. solve_Permutation.
  - eapply ll_rep_frame; [exact Hfr| |done]. set_solver.
  - done.
  - done.
  - intros x Hx. by apply not_elem_of_nil in Hx.
  - done.
Qed.
Lemma connector_run_ok fuel s c ps es ms : connector_rep s c ps es → length es < fuel →
  wp (k_gettimeofday K) (cmem s) (λ r u, patience u (u32 (tick_of r + ms)) < fuel) →
  wp (connector_run K k_select call fuel (Some c) ms) s (λ _ s', ∃ cn' P' E' a' evs,
    held s' c cn' create_link_list P' E' [] [] ∧ counted cn' P' ∧ watching cn' P' ∧
    (Z.of_nat (length E') < 2 ^ 31)%Z ∧ agrees a' P' [] ∧ observed s (AState es ps []) s' a' evs ∧
    Forall (not_in (first_found evs)) P' ∧ swept evs P'.*2).
Proof.
  intros (cn & P & E & Hh & -> & -> & Hcnt & Hw & HE) Hes Hpat.
  rw length_fmap in HE. rw length_fmap in Hes. rw /connector_run. wp_step.
  apply (wp_current_tick s (AState E.*2 P.*2 [])). intros tick w s1 Hev1 _ (r & Hrun & ->).
  rw /wp Hrun in Hpat. apply (held_net _ w) in Hh. wp_step. eapply wp_connector; [exact Hh|]. wp_step.
  eapply wp_mono; [apply (run_start_ok s1 c cn P E (λ l s2, cs_net s2 = cs_net s1 ∧
    ∃ ext, held s2 c (set_extern ext cn) l P [] E [])); [exact Hh|done|by eauto]|].
  intros [l ext] s2 H2. cbn match. wp_step. eapply wp_mono; [exact H2|]. intros [] s3 (Hnet3 & ext' & Hh3).
  eapply observed_step in Hev1; [|exact Hnet3]. wp_step. eapply wp_mono.
  { eapply (intake_ok fuel s3 _ _ _ _ _ _ (AState E.*2 P.*2 [EvClock (tick_of r)]) Hh3); try done. }
  intros [] s4 (cn4 & P4 & E4 & a4 & evs4 & Hh4 & Hcnt4 & Hw4 & HE4 & Ha4 & Hev4 & Hq4).
  pose proof (observed_trans _ _ _ _ _ _ _ _ Hev1 Hev4) as Hev04.
  set (T := u32 (tick_of r + ms)) in *.
  eapply (wp_loop (λ n it s', ∃ cn' P' E' a' evs, n = patience (cmem s') T ∧
    held s' c cn' create_link_list P' E' [] [] ∧ counted cn' P' ∧ watching cn' P' ∧
    (Z.of_nat (length E') < 2 ^ 31)%Z ∧ agrees a' P' [] ∧ observed s (AState E.*2 P.*2 []) s' a' evs ∧
    first_served evs it.1 P' ∧ (0 ≤ it.1)%Z)) with (patience (cmem s4) T).
  - intros n [i tick] s5 (cn5 & P5 & E5 & a5 & evs5 & -> & Hh5 & Hcnt5 & Hw5 & HE5 & Ha5 & Hev5 & Hfs5 & Hi5).
    eapply wp_mono; [eapply run_round_ok; try done; apply u32_range|].
    intros [[i' tick']|[]] s6 (cn6 & P6 & E6 & a6 & evs6 & Hh6 & Hcnt6 & Hw6 & HE6 & Ha6 & Hev6 & Hrest).
    + destruct Hrest as (Hlt & Hfs6 & Hi6). eexists. split; [exact Hlt|]. exists cn6, P6, E6, a6, evs6. done.
    + destruct Hrest as [Hsw Hff]. exists cn6, P6, E6, a6, evs6. done.
  - exists cn4, P4, E4, a4. eexists. split_and!; try done. right. split; [|done].
    constructor; [by intros []|done].
  - eapply Nat.le_lt_trans; [apply (ev_time _ _ _ _ _ Hev4)|]. by rw /cmem Hnet3.
Qed.
End run.

(** C35: a run of the connector refines the abstract connector.  It returns;
    every connection that was queued or waiting is called back exactly once or
    is still waiting; a callback gets the handle only after [select] has found
    the descriptor ready, and -1 only when its time is over or the table is
    full; every [select] watches exactly the descriptors that wait.  When the
    run returns, what the first [select] has found is called back, and no
    connection was late at the last sweep. *)
Theorem connector_run_refines {U} (K : kernel U) k_select call trace patience fuel s c ps es ms :
  outside_ok K k_select trace patience → callback_ok call trace patience →
  connector_rep s c ps es → length es < fuel →
  wp (k_gettimeofday K) (cmem s) (λ r u, patience u (u32 (tick_of r + ms)) < fuel) →
  ∃ s' ps' es' evs table called,
    connector_run K k_select call fuel (Some c) ms s = Ok (tt, s') ∧ connector_rep s' c ps' es' ∧
    trace (cmem s') = trace (cmem s) ++ evs ∧
    rtc astep (AState es ps []) (AState [] table evs) ∧ table ≡ₚ ps' ∧
    es ++ ps ≡ₚ ps' ++ called.*1 ∧ filter is_call evs = (λ pch, call_of pch.1 pch.2) <$> called ∧
    Forall (λ pc, pc_real_fd pc ∉ first_found evs) ps' ∧ swept evs ps'.
Proof.
  intros Hout Hcall Hrep Hes Hpat.
  destruct (wp_ok _ _ _ (connector_run_ok K k_select call trace patience Hout Hcall _ _ _ _ _ _ Hrep Hes Hpat))
    as ([] & s' & Hrun & cn' & P' & E' & a' & evs & Hh & Hcnt & Hw & HE & [Hnew Htab] & [Hst Htr Hatr _] & Hff & Hsw).
  destruct (asteps_conserve _ _ Hst) as (called & evs' & Hp & Htr' & Hc).
  destruct a' as [new table tr]. simpl in *. subst.
  exists s', P'.*2, E'.*2, evs', table, called. split_and!; try done.
  - exists cn', P', E'. by rw length_fmap.
  - by rw Hp Htab.
  - by apply Forall_fmap.
Qed.

(** *** Starting a connection, and the end of a connector *)

Section life.
Context {U : Type} (K : kernel U) (call : nat → Z → list Z → Z → Z → M (cstate U) ()).
Context (junk_next : ptr) (junk_socket : socket) (junk_addr : Z).
Implicit Types (s : cstate U) (c x : loc) (P E L F : list (loc * pending_connect)).

(** The push on the shared list. *)
Lemma wp_pc_push_extern s c cn l P E L F x pc (R : () → cstate U → Prop) :
  held s c cn l P E L ((x, pc) :: F) → ll_room E.*1 →
  (∀ s' cn', same_counts cn cn' → cs_net s' = cs_net s →
     held s' c cn' l P (E ++ [(x, pc)]) L F → R tt s') →
  wp (pc_push_extern (Some c) x) s R.
Proof.
  intros Hh Hlen HR. pose proof Hh as []. rw /pc_push_extern. wp_step. eapply wp_connector; [done|].
  destruct (held_disjoint _ _ _ _ he_nodup0) as (HPE & HPL & HPF & HEL & HEF & HLF). simpl in HPF, HEF, HLF.
  wp_step. rw /on_links. wp_step. eapply wp_mono.
  { apply ll_push_back_ok; [exact he_extern0|apply he_free0; left|set_solver|done]. }
  intros l' N' (Hl' & Hfr). rw /cnr_set /on_conns. wp_step.
  eapply wp_hmodify; [done|]. cbn [cs_conns cs_net cs_pcs cs_nexts].
  assert (HxF : x ∉ F.*1).
  { intros Hx. rw !fmap_app fmap_cons !NoDup_app in he_nodup0.
    destruct he_nodup0 as (_ & _ & _ & _ & _ & _ & [Hx' _]%NoDup_cons). done. }
  eapply (HR _ (set_extern l' cn)); [done..|]. eapply held_links; [exact Hh| | | | | |done].
  - simpl. solve_Permutation.
  - eapply ll_rep_frame; [done| |done]; set_solver.
  - by rw fmap_app.
  - eapply ll_rep_frame; [done| |done]; set_solver.
  - intros y Hy. rw (proj2 Hfr); [set_solver|]. apply he_free0. by right.
Qed.

Lemma lseg_fresh (N : nexts) p xs q x v : N !! x = None → lseg N p xs q → lseg (<[x:=v]> N) p xs q.
Proof.
  intros Hx Hs. apply lseg_insert_ne; [|done]. intros Hin. destruct (lseg_lookup _ _ _ _ _ Hs Hin). congruence.
Qed.

Lemma wp_pc_alloc pc s c cn l P E L F (R : loc → cstate U → Prop) :
  held s c cn l P E L F → fd_fits (pc_real_fd pc) = true →
  (∀ x s', cs_net s' = cs_net s → held s' c cn l P E L ((x, pc) :: F) → R x s') →
  wp (pc_alloc pc) s R.
Proof.
  intros Hh Hfd HR. pose proof Hh as []. rw /pc_alloc /on_links /on_pcs. do 6 wp_step.
  set (x := fresh _). assert (Hx : x ∉ dom (cs_pcs s) ∪ dom (cs_nexts s)) by apply is_fresh.
  apply not_elem_of_union in Hx as [Hx1%not_elem_of_dom Hx2%not_elem_of_dom].
  wp_step. apply HR; [done|].
  assert (Hnew : x ∉ (P ++ E ++ L ++ F).*1).
  { intros ([y pc'] & -> & Hy)%list_elem_of_fmap. destruct (he_pcs0 _ _ Hy). simpl in *. congruence. }
  assert (Hl : ∀ li (Q : list (loc * pending_connect)), ll_rep (cs_nexts s) li Q.*1 →
    ll_rep (<[x:=NULL]> (cs_nexts s)) li Q.*1).
  { intros li Q []. split; [done| |done]. by apply lseg_fresh. }
  split; simpl; auto.
  - intros y [->|Hy]%elem_of_cons; [by rw lookup_insert_eq|].
    rw lookup_insert_ne; [|by auto]. intros ->. apply Hnew. rw !fmap_app. set_solver.
  - eapply (held_nodup_perm P E L ((x, pc) :: F) P E L ((x, pc) :: F)); [done|].
    rw (fmap_Permutation fst _ ((x, pc) :: P ++ E ++ L ++ F)); [solve_Permutation|]. by apply NoDup_cons.
  - intros y pc' Hy. assert ((y, pc') = (x, pc) ∨ (y, pc') ∈ P ++ E ++ L ++ F) as [[= -> ->]|Hy'] by set_solver.
    + by rw lookup_insert_eq.
    + rw lookup_insert_ne; [|by apply he_pcs0]. intros ->. apply Hnew. by apply (list_elem_of_fmap_2 fst) in Hy'.
Qed.

(** When the connection cannot be established at once, it is queued with its
    deadline, and no callback is called. *)
Lemma connector_connect_queues s c ps es ip port f ud ms h sk w1 w2 w3 w4 r now :
  connector_rep s c ps es → (Z.of_nat (length es) < 2 ^ 31 - 1)%Z →
  OpenSocket K junk_next junk_socket INET STREAM TCP (cs_net s) = Ok (h, w1) → (0 ≤ h)%Z → (0 < ms)%Z →
  setNonblock K h w1 = Ok (0%Z, w2) →
  Connect K h (store_addr K ip (SockAddr INET (htons (u16 port)) junk_addr)) w2 = Ok (r, w3) → r ≠ 0%Z →
  GetSystemMs K w3 = Ok (now, w4) →
  (∃ x, GetSocketByHandle h w3 = Ok (Some x, w3) ∧ w_sockets w4 !! x = Some sk) → fd_fits (s_fd sk) = true →
  ∃ s', connector_connect K call junk_next junk_socket junk_addr (Some c) ip port f ud ms s = Ok (0%Z, s') ∧
    cs_net s' = w4 ∧
    connector_rep s' c ps (es ++ [PendingConnect ip port h (s_fd sk) f (u32 (now + ms)) ud]).
Proof.
  intros (cn & P & E & Hh & -> & -> & Hcnt & Hw & HE) Hroom Hopen H0 Hms Hnb Hconn Hr Hnow (x & Hget & Hx) Hfit.
  rw length_fmap in Hroom.
  enough (Hwp : wp (connector_connect K call junk_next junk_socket junk_addr (Some c) ip port f ud ms) s
    (λ r s', r = 0%Z ∧ cs_net s' = w4 ∧
       connector_rep s' c P.*2 (E.*2 ++ [PendingConnect ip port h (s_fd sk) f (u32 (now + ms)) ud]))).
  { apply wp_ok in Hwp as (? & s' & ? & -> & ?). by exists s'. }
  rw /connector_connect /on_net. wp_step. wp_step. eapply ok_wp; [exact Hopen|]. cbn beta.
  destruct (Z.ltb_spec h 0); [lia|]. cbv zeta. wp_step. destruct (Z.ltb_spec 0 ms); [|lia]. wp_step.
  eapply ok_wp; [exact Hnb|]. cbn beta. rw Z.eqb_refl. cbn [negb]. wp_step. wp_step. eapply ok_wp; [exact Hconn|]. cbn beta.
  destruct (Z.eqb_spec r 0); [done|]. wp_step. wp_step. eapply ok_wp; [exact Hget|]. wp_step. wp_step.
  eapply ok_wp; [exact Hnow|]. wp_step. wp_step. eapply wp_sock; [exact Hx|]. wp_step.
  eapply wp_pc_alloc; [by eapply held_net, held_net, held_net, held_net, held_net, held_net|done|].
  intros y s1 Hnet1 Hh1. wp_step. eapply wp_pc_push_extern; [exact Hh1|by rw /ll_room length_fmap; lia|].
  intros s2 cn2 [Hc1 Hc2] Hnet2 Hh2. wp_step. split; [done|]. split; [by rw Hnet2 Hnet1|].
  exists cn2, P. eexists. split; [exact Hh2|]. rw fmap_app length_app /counted /watching Hc1 Hc2 /=.
  split_and!; try done. rw length_fmap. lia.
Qed.

Lemma wp_pc_pop_extern s c cn l P E L F (R : ptr → cstate U → Prop) :
  held s c cn l P E L F → (Z.of_nat (length E) < 2 ^ 31)%Z →
  (∀ s' cn', cs_net s' = cs_net s → held s' c cn' l P (tail E) L (take 1 E ++ F) → R (head E.*1) s') →
  wp (pc_pop_extern (Some c)) s R.
Proof.
  intros Hh Hlen HR. pose proof Hh as []. rw /pc_pop_extern. wp_step. eapply wp_connector; [done|].
  wp_step. rw /on_links. wp_step. eapply wp_mono.
  { apply ll_pop_ok; [exact he_extern0|]. by rw length_fmap. }
  intros [p l'] N' (Hhd & Hl' & Hfr & Hnull). cbn [fst snd] in *. subst p. wp_step. rw /cnr_set /on_conns. wp_step.
  eapply wp_hmodify; [done|]. wp_step. cbn [cs_conns cs_net cs_pcs cs_nexts].
  destruct (held_disjoint _ _ _ _ he_nodup0) as (HPE & HPL & HPF & HEL & HEF & HLF).
  eapply (HR _ (set_extern l' cn)); [done..|]. eapply held_links; [exact Hh| | | | | |done].
  - destruct E as [|xp E]; [done|]. simpl. solve_Permutation.
  - eapply ll_rep_frame; [done| |done]; set_solver.
  - by destruct E.
  - eapply ll_rep_frame; [done| |done]; set_solver.
  - intros x. rw fmap_app elem_of_app. intros [Hx|Hx].
    + apply Hnull. destruct E as [|xp E]; [by apply not_elem_of_nil in Hx|]. simpl in *.
      apply list_elem_of_singleton in Hx. by subst.
    + rw (proj2 Hfr); [set_solver|]. by apply he_free0.
Qed.

(** Each loop of [connector_destroy] frees the connections of its list once. *)
Lemma free_table_ok fuel s c cn P E : held s c cn create_link_list P E [] [] → length P < fuel →
  wp (loop fuel (free_body (pc_pop (Some c))) tt) s (λ _ s', ∃ cn',
    held s' c cn' create_link_list [] E [] [] ∧ cs_net s' = cs_net s).
Proof.
  intros Hh Hf.
  apply (wp_loop (λ n _ s', ∃ cn' P', n = length P' ∧ held s' c cn' create_link_list P' E [] [] ∧
    cs_net s' = cs_net s)) with (length P); [|by eauto|done].
  intros n [] s1 (cn1 & P1 & -> & Hh1 & Hnet). rw /free_body. wp_step. eapply wp_pc_pop; [done|].
  intros s2 cn2 _ Hnet2 Hh2. destruct P1 as [|[x pc] P1]; simpl in *.
  - wp_step. exists cn2. split; [done|congruence].
  - wp_step. eapply wp_pc_free; [done|]. intros s3 Hnet3 Hh3. wp_step. exists (length P1). split; [lia|].
    exists cn2, P1. split_and!; [done..|congruence].
Qed.

Lemma free_extern_ok fuel s c cn E : held s c cn create_link_list [] E [] [] →
  (Z.of_nat (length E) < 2 ^ 31)%Z → length E < fuel →
  wp (loop fuel (free_body (pc_pop_extern (Some c))) tt) s (λ _ s', ∃ cn',
    held s' c cn' create_link_list [] [] [] [] ∧ cs_net s' = cs_net s).
Proof.
  intros Hh HE Hf.
  apply (wp_loop (λ n _ s', ∃ cn' E', n = length E' ∧ (Z.of_nat (length E') < 2 ^ 31)%Z ∧
    held s' c cn' create_link_list [] E' [] [] ∧ cs_net s' = cs_net s)) with (length E); [|by eauto 10|done].
  intros n [] s1 (cn1 & E1 & -> & HE1 & Hh1 & Hnet). rw /free_body. wp_step. eapply wp_pc_pop_extern; [done..|].
  intros s2 cn2 Hnet2 Hh2. destruct E1 as [|[x pc] E1]; simpl in *.
  - wp_step. exists cn2. split; [done|congruence].
  - wp_step. eapply wp_pc_free; [done|]. intros s3 Hnet3 Hh3. wp_step. exists (length E1). split; [lia|].
    exists cn2, E1. split_and!; [done|lia|done|congruence].
Qed.

(** The end of a connector: every connection is freed once, and the connector;
    the sockets are left as they are, open. *)
Lemma connector_destroy_ok fuel s c ps es : connector_rep s c ps es → length ps < fuel → length es < fuel →
  ∃ s', connector_destroy fuel (Some c) s = Ok (NULL, s') ∧ cs_conns s' !! c = None ∧ cs_net s' = cs_net s.
Proof.
  intros (cn & P & E & Hh & -> & -> & _ & _ & HE) HP1 HE1. rw !length_fmap in HE, HP1, HE1.
  enough (Hwp : wp (connector_destroy fuel (Some c)) s (λ r s', r = NULL ∧ cs_conns s' !! c = None ∧
    cs_net s' = cs_net s)) by (apply wp_ok in Hwp as (? & s' & ? & -> & ?); by exists s').
  rw /connector_destroy. wp_step. eapply wp_mono; [by eapply free_table_ok|]. intros [] s1 (cn1 & Hh1 & Hnet1).
  wp_step. eapply wp_mono; [by eapply free_extern_ok|]. intros [] s2 (cn2 & Hh2 & Hnet2).
  rw /on_conns. do 2 wp_step. eapply wp_hfree; [by eapply he_conn|]. wp_step. simpl.
  split_and!; [done|by rw lookup_delete_eq|congruence].
Qed.

Lemma connector_create_ok s : ∃ c s', connector_create s = Ok (Some c, s') ∧ connector_rep s' c [] [].
Proof.
  enough (Hwp : wp connector_create s (λ r s', ∃ c, r = Some c ∧ connector_rep s' c [] [])).
  { apply wp_ok in Hwp as (? & s' & ? & c & -> & ?). by exists c, s'. }
  rw /connector_create /on_conns. wp_step. wp_step. apply wp_halloc. intros l Hl. wp_step. eexists. split; [done|].
  exists (Connector ∅ create_link_list 0 create_link_list), [], []. split; [|by vm_compute].
  split; try done; simpl; try apply ll_rep_nil; [by rw lookup_insert_eq| |constructor|].
  - intros x Hx. by apply not_elem_of_nil in Hx.
  - intros x pc Hx. by apply not_elem_of_nil in Hx.
Qed.
End life.

(** ** Examples *)

(** The events so far are the whole outside world: the clock counts its
    readings, and [select] follows a script. *)
Definition readings (u : list cevent) : Z := Z.of_nat (length (filter is_clock u)).
Definition toy_clock : M (list cevent) (Z * Z) := λ u,
  let r := (0, Z.min (readings u) (2 ^ 32 - 1) * 1000)%Z in Ok (r, u ++ [EvClock (tick_of r)]).
Definition toy_select (script : list (Z * gset Z)) (n : Z) (set : gset Z) (us : Z) :
    M (list cevent) (Z * gset Z) := λ u,
  let r := default (0%Z, ∅) (script !! length (filter is_select u)) in
  Ok (r, u ++ [EvSelect set r.1 r.2]).
Definition toy_kernel (nodelay : Z) : kernel (list cevent) :=
  Kernel _ (λ _ _ _, mret 3%Z) (λ _, mret 0%Z) (λ _ _, mret (-1)%Z) (λ _ _, mret 0%Z) (λ _ _, mret 0%Z)
    (λ _, mret (4%Z, 0%Z)) (λ _, mret nodelay) (λ _, mret 0%Z) (λ _ _, mret 0%Z)
    (λ _, mret (0%Z, SockAddr 2 80 1)) (λ _, mret (0%Z, SockAddr 2 80 1))
    (λ _, mret (5%Z, 0%Z)) (λ _ _ _ _ _, mret (0%Z, 0%Z)) (λ _ _ _, mret (0%Z, 0%Z, []))
    (λ _ _, mret (5%Z, 0%Z)) (λ _ _, mret (5%Z, 0%Z)) toy_clock (λ _, None) (λ _ _, None).
Definition toy_call (f : nat) (h : Z) (ip : list Z) (port ud : Z) : M (cstate (list cevent)) () :=
  on_net (on_mem (modify (λ u, u ++ [EvCall f h ip port ud]))).
Definition toy_patience (u : list cevent) (T : Z) : nat := Z.to_nat (T - readings u).

Lemma readings_snoc u e : readings (u ++ [e]) = (readings u + if bool_decide (is_clock e) then 1 else 0)%Z.
Proof. rw /readings filter_app length_app. destruct e; simpl; lia. Qed.

Lemma u32_i32 z : u32 (i32 z) = u32 z.
Proof.
  rw /u32 /i32 Zminus_mod Zmod_mod -Zminus_mod. f_equal. lia.
Qed.

Lemma toy_tick u : tick_of (0%Z, (Z.min (readings u) (2 ^ 32 - 1) * 1000)%Z) = Z.min (readings u) (2 ^ 32 - 1).
Proof.
  rw /tick_of u32_i32. cbn [fst snd]. rw Z.mul_0_l Z.add_0_l Z.div_mul; [lia|].
  apply u32_small. unfold readings. lia.
Qed.

Lemma toy_outside nodelay script : outside_ok (toy_kernel nodelay) (toy_select script) (λ u, u) toy_patience.
Proof.
  split.
  - intros set us u. rw /wp /toy_select. split; [done|]. intros T. rw /toy_patience readings_snoc /=. lia.
  - intros u. rw /wp /= /toy_clock. cbv zeta. split; [done|]. split.
    + intros T. rw /toy_patience readings_snoc /=. lia.
    + intros T. rw toy_tick /toy_patience readings_snoc /=. unfold readings. lia.
Qed.

Lemma toy_call_ok : callback_ok toy_call (λ u, u) toy_patience.
Proof.
  intros f h ip port ud s c cn l P E L F Hh HE. rw /toy_call /on_net /on_mem. do 3 wp_step. exists cn, [], [].
  rw app_nil_r. split_and!; try done.
  - by apply held_net.
  - intros T. rw /cmem /= /toy_patience readings_snoc /=. lia.
Qed.

(** A connector at 1 with one queued connection, at 2. *)
Definition toy_pc (fd : Z) : pending_connect := PendingConnect [] 80 0 fd 0 3 42.
Definition toy_start (fd : Z) : cstate (list cevent) :=
  CState (World ∅ ∅ ∅ ∅ ∅ [] [] 0 []) {[2%positive := toy_pc fd]} {[2%positive := NULL]}
    {[1%positive := Connector ∅ create_link_list 0 (LinkList 1 (Some 2%positive) (Some 2%positive))]}.

Lemma toy_start_rep : connector_rep (toy_start 7) 1%positive [] [toy_pc 7].
Proof.
  exists (Connector ∅ create_link_list 0 (LinkList 1 (Some 2%positive) (Some 2%positive))), [],
    [(2%positive, toy_pc 7)]. split; [|by vm_compute].
  split; try done.
  - split; [done| |done]. simpl. split; [done|]. by exists NULL.
  - intros x Hx. by apply not_elem_of_nil in Hx.
  - by apply NoDup_singleton.
  - intros x pc Hx. apply list_elem_of_singleton in Hx. by injection Hx as -> ->.
Qed.

Lemma connector_run_refines_witness : ∃ s' ps' es' evs table called,
  connector_run (toy_kernel 0) (toy_select [(0, ∅); (1, {[7%Z]})]%Z) toy_call 9 (Some 1%positive) 5 (toy_start 7)
    = Ok (tt, s') ∧
  connector_rep s' 1%positive ps' es' ∧ cmem s' = cmem (toy_start 7) ++ evs ∧
  rtc astep (AState [toy_pc 7] [] []) (AState [] table evs) ∧ table ≡ₚ ps' ∧
  [toy_pc 7] ++ [] ≡ₚ ps' ++ called.*1 ∧ filter is_call evs = (λ pch, call_of pch.1 pch.2) <$> called ∧
  Forall (λ pc, pc_real_fd pc ∉ first_found evs) ps' ∧ swept evs ps'.
Proof.
  apply (connector_run_refines (toy_kernel 0) (toy_select [(0, ∅); (1, {[7%Z]})]%Z) toy_call (λ u, u)
    toy_patience 9 (toy_start 7) 1%positive [] [toy_pc 7] 5).
  - apply toy_outside.
  - exact toy_call_ok.
  - exact toy_start_rep.
  - simpl. lia.
  - vm_compute. lia.
Defined.

(** A connection that only the second [select] of a run finds ready is not
    served: the index [i] of the loop is not reset between the rounds.  Here it
    is ready in time, and still it is called back with -1. *)
Lemma late_ready_is_dropped :
  let s' := connector_run (toy_kernel 0) (toy_select [(0, ∅); (1, {[7%Z]})]%Z) toy_call 9 (Some 1%positive) 5
    (toy_start 7) in
  match s' with
  | Ok (_, s') => cmem s' = [EvClock 0; EvSelect {[7%Z]} 0 ∅; EvClock 1; EvClock 2; EvSelect {[7%Z]} 1 {[7%Z]};
                    EvClock 3; EvCall 0 (-1) [] 80 42; EvClock 4]
  | Fault _ => False
  end.
Proof. by vm_compute. Qed.

(** A descriptor above [FD_SETSIZE] is written past the end of the [fd_set]: only
    the number of connections is checked. *)
Lemma big_descriptor_overruns_set : 
  connector_run (toy_kernel 0) (toy_select []) toy_call 9 (Some 1%positive) 5 (toy_start 1500) = Fault OutOfBounds.
Proof. by vm_compute. Qed.

(** When the socket cannot be made non-blocking, [connector_connect] returns -1
    and keeps the socket: handle 0 stays open and nobody knows it. *)
Lemma failed_connect_leaks_socket :
  match connector_connect (toy_kernel (-1)) toy_call NULL (fresh_socket 0 NULL) 0 (Some 1%positive) [] 80 0 42 5
    (toy_start 7) with
  | Ok (r, s') => r = (-1)%Z ∧ open_handle (cs_net s') 0 ∧ cs_conns s' = cs_conns (toy_start 7)
  | Fault _ => False
  end.
Proof.
  vm_compute. split_and!; [done| |done]. do 2 eexists. by split_and!.
Qed.
