(* ===== verification/CoSche.v ===== *)
(** * The coroutine scheduler ([src/coro/co_sche.c], [src/src/uthread.c])

    Coroutines run one at a time and give up the processor by
    [uthread_switch]: in [coro_yield] and [coro_sleep], when they return, and, in
    the scheduler's own context, in [sche_schedule].  The queue of the runnable
    coroutines is a [link_list], that of the sleeping ones a [minheap].

    A context switch saves the registers of one context and loads those of
    another.  Here the saved registers are a [control]: the place where the
    context goes on, with the local state of the user's function.  [step] runs
    one context from where it was saved to its next [uthread_switch], which says
    which context runs next.  The user's functions, the clock and [usleep] are
    parameters.

    The main theorem is that the scheduler never faults and never loses a
    coroutine, as long as no coroutine returns while the scheduler's own context
    is first in the queue; when one does, the next round ends in a failed
    assertion. *)
From S2P Require Import Prelude LinkList MinHeap.

(** ** Data *)

Definition CORO_YIELD : Z := 0.
Definition CORO_SLEEP : Z := 1.
Definition CORO_ACTIVE : Z := 2.
Definition CORO_DIE : Z := 3.
Definition CORO_START : Z := 4.

(** What the user's function does next. *)
Inductive uact := UYield | USleep (ms : Z) | UReturn.

(** Where a context goes on when it is switched to. *)
Inductive control (B : Type) :=
  | NotBegun (b : B)   (* at the start of [coro_fun] *)
  | InUser (b : B)     (* in the user's function, after a switch *)
  | Returned           (* after the last switch of [coro_fun] *)
  | AtLoop             (* the scheduler, at the head of its loop *)
  | InSchedule.        (* the scheduler, after the switch in [_sche_next] *)
Arguments NotBegun {B}.
Arguments InUser {B}.
Arguments Returned {B}.
Arguments AtLoop {B}.
Arguments InSchedule {B}.

(** A coroutine with its [uthread], which is allocated and freed with it:
    [ut_para] is the [para] field of the latter and [ut_ctl] its registers.  The
    list node and the heap index are in stores of their own. *)
Record coro (B : Type) := Coro {
  co_stack : Z;
  co_status : Z;
  co_timeout : Z;
  co_arg : Z;
  ut_para : ptr;
  ut_ctl : control B;
}.
Arguments Coro {B}.
Arguments co_stack {B}.
Arguments co_status {B}.
Arguments co_timeout {B}.
Arguments co_arg {B}.
Arguments ut_para {B}.
Arguments ut_ctl {B}.

Record sche := Sche {
  s_co : loc;
  max_coro : Z;
  stack_size : Z;
  active_list : link_list;
  next_check_timeout : Z;
  s_stop : Z;
  coro_size : Z;
  s_ti : Z;
}.

(** The scheduler, its heap with the heap indices of all coroutines, the
    coroutines, their list nodes, [current_coro], and the outside world. *)
Record cosys (B U : Type) := CoSys {
  cy_sche : sche;
  cy_heap : minheap;
  cy_coros : gmap loc (coro B);
  cy_nexts : nexts;
  current_coro : ptr;
  cy_mem : U;
}.
Arguments CoSys {B U}.
Arguments cy_sche {B U}.
Arguments cy_heap {B U}.
Arguments cy_coros {B U}.
Arguments cy_nexts {B U}.
Arguments current_coro {B U}.
Arguments cy_mem {B U}.

Section setters.
Context {B : Type}.
Definition set_co_status (v : Z) (c : coro B) : coro B :=
  Coro (co_stack c) v (co_timeout c) (co_arg c) (ut_para c) (ut_ctl c).
Definition set_co_timeout (v : Z) (c : coro B) : coro B :=
  Coro (co_stack c) (co_status c) v (co_arg c) (ut_para c) (ut_ctl c).
Definition set_co_arg (v : Z) (c : coro B) : coro B :=
  Coro (co_stack c) (co_status c) (co_timeout c) v (ut_para c) (ut_ctl c).
Definition set_ut_para (v : ptr) (c : coro B) : coro B :=
  Coro (co_stack c) (co_status c) (co_timeout c) (co_arg c) v (ut_ctl c).
Definition set_ut_ctl (v : control B) (c : coro B) : coro B :=
  Coro (co_stack c) (co_status c) (co_timeout c) (co_arg c) (ut_para c) v.
End setters.

Definition set_active (l : link_list) (s : sche) : sche :=
  Sche (s_co s) (max_coro s) (stack_size s) l (next_check_timeout s) (s_stop s) (coro_size s) (s_ti s).
Definition set_next_check (v : Z) (s : sche) : sche :=
  Sche (s_co s) (max_coro s) (stack_size s) (active_list s) v (s_stop s) (coro_size s) (s_ti s).
Definition set_stop (v : Z) (s : sche) : sche :=
  Sche (s_co s) (max_coro s) (stack_size s) (active_list s) (next_check_timeout s) v (coro_size s) (s_ti s).
Definition set_coro_size (v : Z) (s : sche) : sche :=
  Sche (s_co s) (max_coro s) (stack_size s) (active_list s) (next_check_timeout s) (s_stop s) v (s_ti s).
Definition set_ti (v : Z) (s : sche) : sche :=
  Sche (s_co s) (max_coro s) (stack_size s) (active_list s) (next_check_timeout s) (s_stop s) (coro_size s) v.
Definition set_s_co (v : loc) (s : sche) : sche :=
  Sche v (max_coro s) (stack_size s) (active_list s) (next_check_timeout s) (s_stop s) (coro_size s) (s_ti s).

(** ** Operations *)

Section sche.
Context {B U : Type}.
Abbreviation S := (M (cosys B U)).

Definition on_sche {A} (m : M sche A) : S A :=
  zoom cy_sche (λ x s, CoSys x (cy_heap s) (cy_coros s) (cy_nexts s) (current_coro s) (cy_mem s)) m.
Definition on_heap {A} (m : M minheap A) : S A :=
  zoom cy_heap (λ x s, CoSys (cy_sche s) x (cy_coros s) (cy_nexts s) (current_coro s) (cy_mem s)) m.
Definition on_coros {A} (m : M (gmap loc (coro B)) A) : S A :=
  zoom cy_coros (λ x s, CoSys (cy_sche s) (cy_heap s) x (cy_nexts s) (current_coro s) (cy_mem s)) m.
Definition on_conexts {A} (m : M nexts A) : S A :=
  zoom cy_nexts (λ x s, CoSys (cy_sche s) (cy_heap s) (cy_coros s) x (current_coro s) (cy_mem s)) m.
Definition on_comem {A} (m : M U A) : S A :=
  zoom cy_mem (λ x s, CoSys (cy_sche s) (cy_heap s) (cy_coros s) (cy_nexts s) (current_coro s) x) m.
Definition set_current_coro (co : loc) : S () :=
  modify (λ s, CoSys (cy_sche s) (cy_heap s) (cy_coros s) (cy_nexts s) (Some co) (cy_mem s)).

Definition the_sche : S sche := gets cy_sche.
Definition sche_set (f : sche → sche) : S () := on_sche (modify f).
Definition co_get (co : ptr) : S (coro B) := on_coros (hload co).
Definition co_set (co : ptr) (f : coro B → coro B) : S () := on_coros (hmodify co f).

Definition active_push (co : loc) : S () :=
  s ← the_sche; l ← on_conexts (link_list_push_back (active_list s) co); sche_set (set_active l).
Definition active_pop : S ptr :=
  s ← the_sche; '(p, l) ← on_conexts (link_list_pop (active_list s)); sche_set (set_active l);; mret p.

(** [_less] casts the heap elements to coroutines, although an element is not
    at the start of its coroutine but behind the list node.  With 32-bit pointers,
    which [uthread.c] takes for granted, the element has offset 4, [timeout] 24 and
    [arg] 28: the word that it compares for [timeout] is [arg]. *)
Definition _less (cs : gmap loc (coro B)) (l r : loc) : bool :=
  (u32 (from_option co_arg 0 (cs !! l)) <? u32 (from_option co_arg 0 (cs !! r)))%Z.

(** The outside world: the user's functions, the clock and [usleep]. *)
Context (user : B → M U (uact * B)) (gettimeofday : M U (Z * Z)) (usleep : Z → M U ()).

Definition GetSystemMs : S Z :=
  '(sec, usec) ← on_comem gettimeofday; mret (i32 (sec * 1000 + usec / 1000)).

(** The switch from [from], which goes on at [saved], to [to], the result. *)
Definition uthread_switch (from to : loc) (para : ptr) (saved : control B) : S loc :=
  co_set (Some to) (set_ut_para para);;
  co_set (Some from) (set_ut_ctl saved);;
  mret to.

(** Without a function the new context is never begun; with one, it begins at
    [coro_fun], which calls the user's function in the state [b]. *)
Definition coro_create (stack_size : Z) (ctl : control B) : S loc :=
  s ← get;
  let l := fresh (dom (cy_coros s) ∪ dom (cy_nexts s) ∪ dom (mh_index (cy_heap s))) in
  on_coros (modify (insert l (Coro stack_size 0 0 0 NULL ctl)));;
  on_conexts (modify (insert l NULL));;
  on_heap (modify (λ m, with_index (<[l := 0%Z]> (mh_index m)) m));;
  mret l.

Definition coro_destroy (co : ptr) : S () :=
  co_get co;;
  match co with
  | Some l =>
      on_coros (hfree co);;
      on_conexts (modify (delete l));;
      on_heap (modify (λ m, with_index (delete l (mh_index m)) m))
  | None => mret tt
  end.

Definition reap (co : ptr) : S () :=
  coro_destroy co;;
  sche_set (λ s, set_coro_size (i32 (coro_size s - 1)) s);;
  s ← the_sche;
  if (coro_size s =? 0)%Z then sche_set (set_stop 1) else mret tt.

Definition check_body (now : Z) (_ : ()) : S (() + ()) :=
  ele ← on_heap minheap_min;
  match ele with
  | None => mret (inr tt)
  | Some co =>
      c ← co_get ele;
      if (co_timeout c <? now)%Z then mret (inr tt)
      else
        st ← get;
        on_heap (minheap_popmin (_less (cy_coros st)));;
        (if negb (co_status c =? CORO_ACTIVE)%Z then
           co_set ele (set_co_status CORO_ACTIVE);;
           active_push co
         else if (co_status c =? CORO_DIE)%Z then reap ele
         else mret tt);;
        mret (inl tt)
  end.

(** Every iteration but the last takes an element out of the heap. *)
Definition check_time_out (now : Z) : S () :=
  m ← gets cy_heap;
  loop (Datatypes.S (Z.to_nat (mh_size m))) (check_body now) tt;;
  sche_set (set_next_check (i32 (now + 200))).

(** The test of [ti] that [sche_next] and [sche_schedule] share. *)
Definition check_ti : S () :=
  s ← the_sche;
  if (100 <=? s_ti s)%Z then
    sche_set (set_ti 0);;
    tick ← GetSystemMs;
    let now := u32 tick in
    if (u32 (next_check_timeout s) <=? now)%Z then check_time_out now else mret tt
  else mret tt.

Definition _sche_next (co : loc) (saved : control B) : S loc :=
  next ← active_pop;
  s ← the_sche;
  let next := default (s_co s) next in
  c ← co_get (Some co);
  (if (co_status c =? CORO_YIELD)%Z then
     co_set (Some co) (set_co_status CORO_ACTIVE);;
     active_push co
   else mret tt);;
  assert_ (bool_decide (co ≠ next));;
  set_current_coro next;;
  sche_set (λ s, set_ti (u32 (s_ti s + 1)) s);;
  uthread_switch co next (Some co) saved.

Definition sche_next (co : loc) (status : Z) (saved : control B) : S loc :=
  co_set (Some co) (set_co_status status);;
  check_ti;;
  _sche_next co saved.

Definition sche_add_timeout (co : loc) (saved : control B) : S loc :=
  co_set (Some co) (set_co_status CORO_SLEEP);;
  st ← get;
  on_heap (minheap_insert (_less (cy_coros st)) (Some co));;
  _sche_next co saved.

Definition get_current_coro : S ptr := gets current_coro.

Definition coro_yield (co : loc) (saved : control B) : S loc := sche_next co CORO_YIELD saved.

Definition coro_sleep (co : loc) (ms : Z) (saved : control B) : S loc :=
  now ← GetSystemMs;
  co_set (Some co) (set_co_timeout (u32 (now + ms)));;
  sche_add_timeout co saved.

(** [coro_fun] up to its first switch, from the first to the next one of the
    user's function, and after the last one. *)
Definition coro_fun (co : loc) (ctl : control B) : S loc :=
  s ← the_sche;
  match ctl with
  | NotBegun b =>
      active_push co;;
      co_set (Some co) (set_co_status CORO_ACTIVE);;
      uthread_switch co (s_co s) (Some co) (InUser b)
  | InUser b =>
      '(act, b) ← on_comem (user b);
      match act with
      | UYield => coro_yield co (InUser b)
      | USleep ms => coro_sleep co ms (InUser b)
      | UReturn =>
          co_set (Some co) (set_co_status CORO_DIE);;
          uthread_switch co (s_co s) (Some co) Returned
      end
  | Returned | AtLoop | InSchedule => fail Exited
  end.

(** [sche_schedule] from the head of its loop to the next switch or the next
    round, or to its end. *)
Definition schedule_loop (co : loc) : S (option loc) :=
  s ← the_sche;
  if negb (s_stop s =? 0)%Z then mret None
  else
    check_ti;;
    s ← the_sche;
    if link_list_is_empty (active_list s) then
      on_comem (usleep 50);;
      sche_set (λ s, set_ti (u32 (s_ti s + 50)) s);;
      mret (Some co)
    else Some <$> _sche_next co InSchedule.

(** [sche_schedule] after the switch: [co] is what [_sche_next] returns, the
    parameter of the switch back. *)
Definition schedule_back (self : loc) (co : ptr) : S (option loc) :=
  c ← co_get co;
  index ← on_heap (get_index co);
  (if (co_status c =? CORO_DIE)%Z && (index =? 0)%Z then reap co else mret tt);;
  co_set (Some self) (set_ut_ctl AtLoop);;
  mret (Some self).

(** The context [co] runs to its next switch, whose target is the result;
    [None] when [sche_schedule] returns. *)
Definition step (co : loc) : S (option loc) :=
  c ← co_get (Some co);
  match ut_ctl c with
  | AtLoop => schedule_loop co
  | InSchedule => schedule_back co (ut_para c)
  | ctl => Some <$> coro_fun co ctl
  end.

(** [n] steps, or fewer when the scheduler returns. *)
Fixpoint steps (n : nat) (co : loc) : S (option loc) :=
  match n with
  | O => mret (Some co)
  | Datatypes.S n =>
      next ← step co;
      match next with Some co => steps n co | None => mret None end
  end.

Definition sche_create (max_coro stack_size : Z) : M U (cosys B U) := λ u,
  match gettimeofday u with
  | Fault e => Fault e
  | Ok ((sec, usec), u) =>
      let now := i32 (sec * 1000 + usec / 1000) in
      let s := Sche 1 max_coro stack_size create_link_list (i32 (now + 200)) 0 0 0 in
      match (co ← coro_create 0 AtLoop; sche_set (set_s_co co);; set_current_coro co)
              (CoSys s (minheap_create max_coro ∅) ∅ ∅ NULL u) with
      | Ok (_, st) => Ok (st, cy_mem st)
      | Fault e => Fault e
      end
  end.

(** The scheduler switches to the new coroutine, which queues itself and
    switches back.  [b] is the state in which [fun(arg)] begins. *)
Definition sche_spawn (b : B) (arg : Z) : S loc :=
  co ← coro_create 4096 (NotBegun b);
  co_set (Some co) (set_co_arg arg);;
  sche_set (λ s, set_coro_size (i32 (coro_size s + 1)) s);;
  s ← the_sche;
  uthread_switch (s_co s) co (Some co) AtLoop;;
  step co;;
  mret co.

(** The first loop of [sche_destroy]. *)
Definition destroy_active_body (_ : ()) : S (() + ()) :=
  co ← active_pop;
  match co with Some _ => coro_destroy co;; mret (inl tt) | None => mret (inr tt) end.

(** The second one: the pointer that is computed is dropped, and [co] is still
    the NULL that ended the first loop. *)
Fixpoint destroy_heap_from (i : Z) (n : nat) : S () :=
  match n with
  | O => mret tt
  | Datatypes.S n =>
      d ← on_heap (data_at i);
      match d with Some _ => coro_destroy NULL | None => mret tt end;;
      destroy_heap_from (i + 1)%Z n
  end.

Definition sche_destroy : S () :=
  s ← the_sche;
  loop (Datatypes.S (Z.to_nat (ll_size (active_list s)))) destroy_active_body tt;;
  m ← gets cy_heap;
  destroy_heap_from 1 (Z.to_nat (mh_size m - 1));;
  coro_destroy (Some (s_co s)).
End sche.

(** ** The invariant *)

Section invariant.
Context {B U : Type}.
Abbreviation S := (M (cosys B U)).
Implicit Types (st : cosys B U) (l r : loc) (A Q X : list loc) (c : coro B).

(** Every coroutine is in exactly one place: in the queue [A], in the heap [Q],
    or loose. *)
Record placed st A Q X : Prop := {
  pl_active : ll_rep (cy_nexts st) (active_list (cy_sche st)) A;
  pl_heap : heap_data (cy_heap st) Q;
  pl_all : A ++ Q ++ X ≡ₚ elements (dom (cy_coros st));
  pl_nexts : ∀ l, l ∈ Q ++ X → cy_nexts st !! l = Some NULL;
  pl_index : ∀ l, l ∈ A ++ X → mh_index (cy_heap st) !! l = Some 0%Z;
  pl_ready : ∀ l c, l ∈ A → cy_coros st !! l = Some c → co_status c = CORO_ACTIVE;
  pl_asleep : ∀ l c, l ∈ Q → cy_coros st !! l = Some c → co_status c = CORO_SLEEP;
  pl_cap : (Z.of_nat (size (cy_coros st)) ≤ mh_max_size (cy_heap st))%Z;
}.

(** What the operations on queue and heap keep of the other coroutines. *)
Definition same_ctl (cs cs' : gmap loc (coro B)) : Prop :=
  dom cs' = dom cs ∧ ∀ l c', cs' !! l = Some c' → ∃ c, cs !! l = Some c ∧
    ut_ctl c' = ut_ctl c ∧ ut_para c' = ut_para c.

Record same_rest st st' : Prop := {
  sr_coros : same_ctl (cy_coros st) (cy_coros st');
  sr_main : s_co (cy_sche st') = s_co (cy_sche st);
  sr_size : coro_size (cy_sche st') = coro_size (cy_sche st);
  sr_stop : s_stop (cy_sche st') = s_stop (cy_sche st);
}.

Lemma same_ctl_refl cs : same_ctl cs cs.
Proof. split; [done|eauto]. Qed.
Lemma same_ctl_trans cs1 cs2 cs3 : same_ctl cs1 cs2 → same_ctl cs2 cs3 → same_ctl cs1 cs3.
Proof.
  intros [Hd H] [Hd' H']. split; [congruence|]. intros l c Hc.
  destruct (H' _ _ Hc) as (c2 & Hc2 & ? & ?). destruct (H _ _ Hc2) as (c1 & Hc1 & ? & ?).
  exists c1. split; [done|]. split; congruence.
Qed.
Lemma same_rest_refl st : same_rest st st.
Proof. split; try done. apply same_ctl_refl. Qed.
Lemma same_rest_trans st1 st2 st3 : same_rest st1 st2 → same_rest st2 st3 → same_rest st1 st3.
Proof. intros [] []. split; try congruence. by eapply same_ctl_trans. Qed.

Lemma same_ctl_insert cs l c c' : cs !! l = Some c → ut_ctl c' = ut_ctl c → ut_para c' = ut_para c →
  same_ctl cs (<[l := c']> cs).
Proof.
  intros Hl ??. split; [by rw dom_insert_lookup_L|]. intros l' x. rw lookup_insert. case_decide as Heq.
  - subst l'. intros [= <-]. by exists c.
  - intros Hx. by exists x.
Qed.

Section placed.
Context (st : cosys B U) (A Q X : list loc) (Hp : placed st A Q X).

Lemma placed_nodup : NoDup (A ++ Q ++ X).
Proof. rw (pl_all _ _ _ _ Hp). apply NoDup_elements. Qed.
Lemma placed_alive l : l ∈ A ++ Q ++ X → ∃ c, cy_coros st !! l = Some c.
Proof. rw (pl_all _ _ _ _ Hp) elem_of_elements elem_of_dom. by intros [c ?]; eauto. Qed.
Lemma placed_in l c : cy_coros st !! l = Some c → l ∈ A ++ Q ++ X.
Proof. intros Hc. rw (pl_all _ _ _ _ Hp) elem_of_elements elem_of_dom. eauto. Qed.
Lemma placed_size : length A + length Q + length X = size (cy_coros st).
Proof.
  pose proof (pl_all _ _ _ _ Hp) as Hall. apply Permutation_length in Hall.
  rw !length_app in Hall. rw -(size_dom (D := gset loc)). unfold size, set_size. simpl. lia.
Qed.
Lemma placed_small : length A + length Q + length X < length (mh_data (cy_heap st)) + 1 ∧
  (Z.of_nat (length (mh_data (cy_heap st))) < 2 ^ 30)%Z.
Proof.
  pose proof placed_size. pose proof (pl_cap _ _ _ _ Hp). pose proof (hd_max _ _ (pl_heap _ _ _ _ Hp)).
  pose proof (hd_small _ _ (pl_heap _ _ _ _ Hp)). lia.
Qed.
End placed.

Lemma placed_perm st A Q X X' : X ≡ₚ X' → placed st A Q X → placed st A Q X'.
Proof.
  intros HX []. split; try done; [by rw -HX|intros l; rw -HX; auto|intros l; rw -HX; auto].
Qed.

(** A change of the record of a coroutine that does not matter for its place. *)
Lemma placed_coro st A Q X l c c' : placed st A Q X → cy_coros st !! l = Some c →
  l ∈ X ∨ co_status c' = co_status c →
  placed (CoSys (cy_sche st) (cy_heap st) (<[l := c']> (cy_coros st)) (cy_nexts st) (current_coro st) (cy_mem st))
    A Q X.
Proof.
  intros Hp Hl Hst. pose proof (placed_nodup _ _ _ _ Hp) as Hnd. destruct Hp. split; simpl; try done.
  - by rw dom_insert_lookup_L.
  - intros l' x Hin. rw lookup_insert. case_decide as Heq; [|by apply pl_ready0]. subst l'. intros [= <-].
    destruct Hst as [Hx| ->]; [|by eapply pl_ready0]. exfalso. apply NoDup_app in Hnd as (_ & Hd & _).
    eapply Hd; [done|]. set_solver.
  - intros l' x Hin. rw lookup_insert. case_decide as Heq; [|by apply pl_asleep0]. subst l'. intros [= <-].
    destruct Hst as [Hx| ->]; [|by eapply pl_asleep0]. exfalso. apply NoDup_app in Hnd as (_ & _ & Hnd).
    apply NoDup_app in Hnd as (_ & Hd & _). by eapply Hd.
  - by rw map_size_insert_Some.
Qed.

Lemma wp_co_get st l c (R : coro B → cosys B U → Prop) : cy_coros st !! l = Some c → R c st →
  wp (co_get (Some l)) st R.
Proof. intros Hl HR. rw /co_get /on_coros. wp_step. eapply wp_hload; [done|]. by destruct st. Qed.

Lemma wp_co_set st l c f (R : () → cosys B U → Prop) : cy_coros st !! l = Some c →
  R tt (CoSys (cy_sche st) (cy_heap st) (<[l := f c]> (cy_coros st)) (cy_nexts st) (current_coro st) (cy_mem st)) →
  wp (co_set (Some l) f) st R.
Proof. intros Hl HR. rw /co_set /on_coros. wp_step. by eapply wp_hmodify. Qed.

(** The changes that leave all coroutines as they are. *)
Record kept st st' : Prop := {
  kp_coros : cy_coros st' = cy_coros st;
  kp_main : s_co (cy_sche st') = s_co (cy_sche st);
  kp_size : coro_size (cy_sche st') = coro_size (cy_sche st);
  kp_stop : s_stop (cy_sche st') = s_stop (cy_sche st);
  kp_room : mh_max_size (cy_heap st') = mh_max_size (cy_heap st);
}.
Lemma kept_rest st st' : kept st st' → same_rest st st'.
Proof. intros []. split; try done. rw kp_coros0. apply same_ctl_refl. Qed.

Lemma wp_active_pop st A Q X (R : ptr → cosys B U → Prop) : placed st A Q X →
  (∀ st', placed st' (tail A) Q (take 1 A ++ X) → kept st st' → R (head A) st') →
  wp active_pop st R.
Proof.
  intros Hp HR. pose proof (placed_small _ _ _ _ Hp) as [Hlt Hsm]. pose proof (placed_nodup _ _ _ _ Hp) as Hnd.
  pose proof Hp as []. rw /active_pop /the_sche. wp_step. wp_step. wp_step. rw /on_conexts. wp_step. eapply wp_mono.
  { apply ll_pop_ok; [exact pl_active0|lia]. }
  intros [p l'] N' (Hhd & Hl' & [Hdom Hfr] & Hnull). cbn [fst snd] in *. subst p.
  wp_step. rw /sche_set /on_sche. do 2 wp_step. wp_step. apply HR; [|done].
  apply NoDup_app in Hnd as (HndA & Hd & _).
  assert (HA : take 1 A ++ tail A = A) by by destruct A.
  split; simpl; try done.
  - rw -pl_all0 -{3}HA. solve_Permutation.
  - intros l. rw !elem_of_app. intros [Hl|[Hl|Hl]].
    + rw Hfr; [intros ?; eapply Hd; [done|set_solver]|]. apply pl_nexts0. set_solver.
    + apply Hnull. destruct A as [|x A]; simpl in Hl; [set_solver|]. apply list_elem_of_singleton in Hl. by subst.
    + rw Hfr; [intros ?; eapply Hd; [done|set_solver]|]. apply pl_nexts0. set_solver.
  - intros l. rw !elem_of_app. intros [Hl|[Hl|Hl]]; apply pl_index0; rw elem_of_app -HA; set_solver.
  - intros l c Hl. apply pl_ready0. rw -HA. set_solver.
Qed.

Lemma wp_active_push st A Q X X' l c (R : () → cosys B U → Prop) : placed st A Q X → X ≡ₚ l :: X' →
  cy_coros st !! l = Some c → co_status c = CORO_ACTIVE →
  (∀ st', placed st' (A ++ [l]) Q X' → kept st st' → R tt st') →
  wp (active_push l) st R.
Proof.
  intros Hp HX Hl Hc HR. pose proof (placed_perm _ _ _ _ _ HX Hp) as Hp'. clear Hp.
  pose proof (placed_small _ _ _ _ Hp') as [Hlt Hsm]. pose proof (placed_nodup _ _ _ _ Hp') as Hnd.
  pose proof Hp' as []. rw /active_push /the_sche. wp_step. wp_step. wp_step. rw /on_conexts. wp_step.
  assert (Hnd' : NoDup (l :: A ++ Q ++ X')) by (rw (_ : l :: A ++ Q ++ X' ≡ₚ A ++ Q ++ l :: X') //; solve_Permutation).
  apply NoDup_cons in Hnd' as [HlA Hnd'].
  eapply wp_mono.
  { apply ll_push_back_ok; [exact pl_active0|apply pl_nexts0; set_solver|set_solver|rw /ll_room; lia]. }
  intros l' N' (Hl' & [Hdom Hfr]). rw /sche_set /on_sche. do 2 wp_step. apply HR; [|done].
  split; simpl; try done.
  - rw -pl_all0. solve_Permutation.
  - intros y Hy. rw Hfr; [|apply pl_nexts0; set_solver]. intros [->|HyA]%elem_of_cons; [set_solver|].
    apply NoDup_app in Hnd' as (_ & Hd & _). by eapply Hd.
  - intros y Hy. apply pl_index0. set_solver.
  - intros y cy [Hy|Hy]%elem_of_app; [by apply pl_ready0|]. apply list_elem_of_singleton in Hy as ->. intros. congruence.
Qed.
End invariant.

(** ** The operations keep the invariant *)

Section keeps.
Context {B U : Type}.
Abbreviation S := (M (cosys B U)).
Implicit Types (st : cosys B U) (l r : loc) (A Q X : list loc) (c : coro B).

Lemma wp_heap_insert lt st A Q X X' l c (R : () → cosys B U → Prop) : placed st A Q X → X ≡ₚ l :: X' →
  cy_coros st !! l = Some c → co_status c = CORO_SLEEP → 0 < length A + length X' →
  (∀ st' Q', Q' ≡ₚ l :: Q → placed st' A Q' X' → kept st st' → R tt st') →
  wp (on_heap (minheap_insert lt (Some l))) st R.
Proof.
  intros Hp HX Hl Hc Hroom HR. pose proof (placed_perm _ _ _ _ _ HX Hp) as Hp'. clear Hp.
  pose proof (placed_size _ _ _ _ Hp') as Hsz. pose proof (placed_nodup _ _ _ _ Hp') as Hnd.
  assert (HlA : l ∉ A ++ X').
  { assert (Hnd' : NoDup (l :: (A ++ X') ++ Q)).
    { rw (_ : l :: (A ++ X') ++ Q ≡ₚ A ++ Q ++ l :: X') //; solve_Permutation. }
    apply NoDup_cons in Hnd' as [Hl' _]. set_solver. }
  pose proof Hp' as []. rw /on_heap. wp_step. eapply wp_mono.
  { apply insert_members; [exact pl_heap0|apply pl_index0; set_solver|].
    rw (hd_size _ _ pl_heap0). simpl in Hsz. lia. }
  intros [] m' (Q' & Hd & HQ & [Hmax Hdom Hix]). apply (HR _ Q'); [done| |done].
  split; simpl; try done.
  - rw -pl_all0 HQ. solve_Permutation.
  - intros y. rw HQ. intros Hy. apply pl_nexts0. set_solver.
  - intros y Hy. rw Hix; [|apply pl_index0; set_solver]. intros [->|HyQ]%elem_of_cons; [done|].
    assert (Hnd' : NoDup ((A ++ X') ++ Q ++ [l])).
    { rw (_ : (A ++ X') ++ Q ++ [l] ≡ₚ A ++ Q ++ l :: X') //; solve_Permutation. }
    apply NoDup_app in Hnd' as (_ & Hd' & _). eapply Hd'; [done|]. set_solver.
  - intros y cy. rw HQ. intros [->|Hy]%elem_of_cons; [congruence|by apply pl_asleep0].
  - by rw Hmax.
Qed.

Lemma wp_heap_min st A Q X (R : ptr → cosys B U → Prop) : placed st A Q X → R (head Q) st →
  wp (on_heap minheap_min) st R.
Proof.
  intros Hp HR. rw /on_heap. wp_step. eapply ok_wp; [apply min_head, (pl_heap _ _ _ _ Hp)|]. by destruct st.
Qed.

(** A sleeping coroutine is woken up: it moves from the heap to the queue. *)
Lemma wake_ok lt st A Q X l (R : () → cosys B U → Prop) : placed st A (l :: Q) X →
  (∀ st' Q', Q' ≡ₚ Q → placed st' (A ++ [l]) Q' X → same_rest st st' →
     (∀ x, x ≠ l → cy_coros st' !! x = cy_coros st !! x) → R tt st') →
  wp (on_heap (minheap_popmin lt)) st (λ _ st1,
    wp (co_set (Some l) (set_co_status CORO_ACTIVE);; active_push l) st1 R).
Proof.
  intros Hp HR. pose proof (placed_nodup _ _ _ _ Hp) as Hnd.
  destruct (placed_alive _ _ _ _ Hp l ltac:(set_solver)) as [c Hc].
  pose proof Hp as []. rw /on_heap. wp_step. eapply wp_mono; [by eapply popmin_members|].
  intros p m' (Q' & -> & Hd & HQ & Hmax & Hdom & Hl0 & Hix). wp_step. eapply wp_co_set; [done|]. simpl.
  set (st1 := CoSys _ _ _ _ _ _).
  assert (Hdisj : ∀ y, y ∈ A ++ X → y ∉ l :: Q).
  { intros y Hy HyQ. assert (Hnd' : NoDup ((A ++ X) ++ l :: Q)).
    { rw (_ : (A ++ X) ++ l :: Q ≡ₚ A ++ (l :: Q) ++ X) //; solve_Permutation. }
    apply NoDup_app in Hnd' as (_ & Hd' & _). by eapply Hd'. }
  assert (HlQ : l ∉ Q).
  { apply NoDup_app in Hnd as (_ & _ & Hnd). apply NoDup_app in Hnd as (Hnd & _ & _). by apply NoDup_cons in Hnd as []. }
  assert (Hp1 : placed st1 A Q' (l :: X)).
  { split; simpl; try done.
    - rw dom_insert_lookup_L // -pl_all0 HQ. solve_Permutation.
    - intros y. rw HQ. intros Hy. apply pl_nexts0. set_solver.
    - intros y Hy. destruct (decide (y = l)) as [->|Hne]; [done|].
      rw Hix; [apply Hdisj; set_solver|]. apply pl_index0. set_solver.
    - intros y cy Hy. rw lookup_insert_ne; [|by apply pl_ready0].
      intros <-. apply (Hdisj l); [set_solver|left].
    - intros y cy Hy. rw HQ in Hy. rw lookup_insert_ne; [|apply pl_asleep0; by right]. by intros <-.
    - by rw map_size_insert_Some // Hmax. }
  eapply (wp_active_push _ _ _ _ _ _ (set_co_status CORO_ACTIVE c) _ Hp1); [done|by rw /= lookup_insert_eq|done|].
  intros st2 Hp2 Hk. apply (HR _ Q'); [done|done| |].
  - eapply same_rest_trans; [|by apply kept_rest]. split; try done. simpl. by eapply same_ctl_insert.
  - intros x Hx. rw (kp_coros _ _ Hk) /=. by rw lookup_insert_ne.
Qed.

(** [check_time_out] moves some of the sleeping coroutines to the queue. *)
Record woken st st' A Q X A2 Q' : Prop := {
  wk_placed : placed st' (A ++ A2) Q' X;
  wk_moved : A2 ++ Q' ≡ₚ Q;
  wk_rest : same_rest st st';
  wk_loose : ∀ x, x ∉ Q → cy_coros st' !! x = cy_coros st !! x;
}.

Lemma check_time_out_ok now st A Q X : placed st A Q X →
  wp (check_time_out now) st (λ _ st', ∃ A2 Q', woken st st' A Q X A2 Q').
Proof.
  intros Hp. rw /check_time_out. do 2 wp_step. wp_step. apply (wp_mono _ _ (λ _ st', ∃ A2 Q', woken st st' A Q X A2 Q')).
  { eapply (wp_loop (λ n _ st', ∃ A2 Q', n = length Q' ∧ woken st st' A Q X A2 Q') _ _ (length Q)); [| |].
    - intros n [] st1 (A2 & Q1 & -> & [Hp1 Hm1 Hr1 Hl1]). rw /check_body. wp_step.
      eapply wp_heap_min; [done|]. destruct Q1 as [|l Q1]; simpl.
      { wp_step. by exists A2, []. }
      destruct (placed_alive _ _ _ _ Hp1 l ltac:(set_solver)) as [c Hc].
      wp_step. eapply wp_co_get; [done|]. destruct (co_timeout c <? now)%Z; [wp_step; by exists A2, (l :: Q1)|].
      pose proof (pl_asleep _ _ _ _ Hp1 l c ltac:(set_solver) Hc) as Hst. rw Hst. simpl.
      wp_step. wp_step. wp_step. eapply wp_mono; [eapply (wake_ok _ _ _ _ _ _ (λ _ st2, ∃ Q2, Q2 ≡ₚ Q1 ∧
        placed st2 ((A ++ A2) ++ [l]) Q2 X ∧ same_rest st1 st2 ∧
        ∀ x, x ≠ l → cy_coros st2 !! x = cy_coros st1 !! x) Hp1); by eauto 10|].
      intros p st2 Hwp. wp_step. eapply wp_mono; [exact Hwp|]. intros [] st3 (Q2 & HQ2 & Hp2 & Hr2 & Hl2).
      wp_step. exists (length Q1). split; [simpl; lia|]. exists (A2 ++ [l]), Q2. split; [by rw HQ2|].
      split; [by rw app_assoc| |by eapply same_rest_trans|].
      + rw -Hm1 HQ2. solve_Permutation.
      + intros x Hx. rw Hl2; [|by apply Hl1]. intros ->. apply Hx. rw -Hm1. set_solver.
    - exists [], Q. split; [done|]. split; [by rw app_nil_r|done|apply same_rest_refl|done].
    - rw (hd_size _ _ (pl_heap _ _ _ _ Hp)). lia. }
  intros [] st1 (A2 & Q1 & [Hp1 Hm1 Hr1 Hl1]). rw /sche_set /on_sche. do 2 wp_step. exists A2, Q1.
  split; try done. by destruct Hp1. by destruct Hr1.
Qed.
End keeps.

(** ** The steps *)

Section steps.
Context {B U : Type} (user : B → M U (uact * B)) (gettimeofday : M U (Z * Z)) (usleep : Z → M U ()).
Implicit Types (st : cosys B U) (l r : loc) (A Q X : list loc) (c : coro B).

(** The user's functions reach their next call, and the system calls return. *)
Record world_ok : Prop := {
  wo_user : ∀ b u, wp (user b) u (λ _ _, True);
  wo_clock : ∀ u, wp gettimeofday u (λ _ _, True);
  wo_usleep : ∀ t u, wp (usleep t) u (λ _ _, True);
}.
Context (Hworld : world_ok).

Lemma placed_mem st A Q X (u : U) : placed st A Q X →
  placed (CoSys (cy_sche st) (cy_heap st) (cy_coros st) (cy_nexts st) (current_coro st) u) A Q X.
Proof. by intros []. Qed.

Lemma wp_sche_set f st A Q X (R : () → cosys B U → Prop) : placed st A Q X →
  active_list (f (cy_sche st)) = active_list (cy_sche st) →
  (placed (CoSys (f (cy_sche st)) (cy_heap st) (cy_coros st) (cy_nexts st) (current_coro st) (cy_mem st)) A Q X →
   R tt (CoSys (f (cy_sche st)) (cy_heap st) (cy_coros st) (cy_nexts st) (current_coro st) (cy_mem st))) →
  wp (sche_set f) st R.
Proof.
  intros Hp Hf HR. rw /sche_set /on_sche. do 2 wp_step. apply HR. destruct Hp. split; simpl; rw ?Hf //.
Qed.

Lemma wp_GetSystemMs st (R : Z → cosys B U → Prop) :
  (∀ now u, R now (CoSys (cy_sche st) (cy_heap st) (cy_coros st) (cy_nexts st) (current_coro st) u)) →
  wp (GetSystemMs gettimeofday) st R.
Proof.
  intros HR. rw /GetSystemMs /on_comem. do 2 wp_step. eapply wp_mono; [by apply (wo_clock Hworld)|].
  intros [sec usec] u _. wp_step. apply HR.
Qed.

Lemma check_ti_ok st A Q X : placed st A Q X →
  wp (check_ti gettimeofday) st (λ _ st', ∃ A2 Q', woken st st' A Q X A2 Q').
Proof.
  intros Hp. assert (Hid : woken st st A Q X [] Q) by (split; [by rw app_nil_r|done|apply same_rest_refl|done]).
  rw /check_ti /the_sche. do 2 wp_step. destruct (100 <=? _)%Z; [|wp_step; by eauto].
  wp_step. eapply wp_sche_set; [done|done|]. intros Hp1. wp_step. apply wp_GetSystemMs. intros now u. simpl.
  apply (placed_mem _ _ _ _ u) in Hp1. simpl in Hp1.
  case_match; [|wp_step; exists [], Q; split; rw ?app_nil_r //; by split; [apply same_ctl_refl|..]].
  eapply wp_mono; [by apply check_time_out_ok|]. intros [] st' (A2 & Q' & [H1 H2 H3 H4]). exists A2, Q'.
  split; try done. by destruct H3.
Qed.

(** *** Switching to the next context *)

Record switched st st' r saved next : Prop := {
  sw_main : s_co (cy_sche st') = s_co (cy_sche st);
  sw_size : coro_size (cy_sche st') = coro_size (cy_sche st);
  sw_stop : s_stop (cy_sche st') = s_stop (cy_sche st);
  sw_dom : dom (cy_coros st') = dom (cy_coros st);
  sw_ctl : ∀ l c', cy_coros st' !! l = Some c' →
    (l = r ∧ ut_ctl c' = saved) ∨ (l ≠ r ∧ ∃ c, cy_coros st !! l = Some c ∧ ut_ctl c' = ut_ctl c);
  sw_para : ∃ c', cy_coros st' !! next = Some c' ∧ ut_para c' = Some r;
}.

Lemma uthread_switch_ok st A Q X r c next cn saved (R : loc → cosys B U → Prop) :
  placed st A Q X → cy_coros st !! r = Some c → cy_coros st !! next = Some cn → r ≠ next →
  (∀ st', placed st' A Q X → switched st st' r saved next → R next st') →
  wp (uthread_switch r next (Some r) saved) st R.
Proof.
  intros Hp Hr Hn Hne HR. rw /uthread_switch. wp_step. eapply wp_co_set; [done|].
  pose proof (placed_coro _ _ _ _ next cn (set_ut_para (Some r) cn) Hp Hn (or_intror eq_refl)) as Hp1.
  wp_step. eapply wp_co_set; [by rw /= lookup_insert_ne|]. wp_step. simpl. apply HR.
  - eapply (placed_coro _ _ _ _ r c (set_ut_ctl saved c) Hp1); [by rw /= lookup_insert_ne|by right].
  - split; simpl; try done.
    + rw !dom_insert_lookup_L // lookup_insert_ne //.
    + intros l c'. rw lookup_insert. case_decide as Heq; [subst l; intros [= <-]; by left|].
      rw lookup_insert. case_decide as Heq'; [subst l; intros [= <-]; right; by eauto|]. intros Hc'. right. by eauto.
    + exists (set_ut_para (Some r) cn). by rw lookup_insert_ne // lookup_insert_eq.
Qed.

Lemma _sche_next_ok st A Q X r c cm saved (R : loc → cosys B U → Prop) :
  placed st A Q X → cy_coros st !! r = Some c → cy_coros st !! s_co (cy_sche st) = Some cm →
  default (s_co (cy_sche st)) (head A) ≠ r → (co_status c = CORO_YIELD → r ∈ X) →
  (∀ st' A' X', placed st' A' Q X' → switched st st' r saved (default (s_co (cy_sche st)) (head A)) →
     (co_status c = CORO_YIELD ∧ A' = tail A ++ [r] ∧ r :: X' ≡ₚ take 1 A ++ X ∨
      co_status c ≠ CORO_YIELD ∧ A' = tail A ∧ X' = take 1 A ++ X) →
     R (default (s_co (cy_sche st)) (head A)) st') →
  wp (_sche_next r saved) st R.
Proof.
  intros Hp Hr Hm Hne Hy HR. rw /_sche_next. wp_step. eapply wp_active_pop; [done|]. intros st1 Hp1 Hk1.
  pose proof Hk1 as [Hc1 Hm1 Hs1 Ht1 _]. rw /the_sche. do 2 wp_step. cbv zeta. rw Hm1.
  set (next := default _ (head A)) in *. wp_step. eapply wp_co_get; [by rw Hc1|]. wp_step.
  assert (Hn : ∃ cn, cy_coros st !! next = Some cn).
  { rw /next. destruct A as [|x A]; [by exists cm|]. simpl. apply (placed_alive _ _ _ _ Hp). by left. }
  destruct Hn as [cn Hn].
  apply (wp_mono _ _ (λ _ st2, ∃ A2 X2 cs, placed st2 A2 Q X2 ∧ same_rest st1 st2 ∧ cs = cy_coros st2 ∧
    (co_status c = CORO_YIELD ∧ A2 = tail A ++ [r] ∧ r :: X2 ≡ₚ take 1 A ++ X ∨
      co_status c ≠ CORO_YIELD ∧ A2 = tail A ∧ X2 = take 1 A ++ X))).
  - destruct (Z.eqb_spec (co_status c) CORO_YIELD) as [Hst|Hst].
    + assert (HrX : r ∈ take 1 A ++ X) by (apply elem_of_app; right; by apply Hy).
      apply elem_of_Permutation in HrX as [X2 HX2]. rw -Hc1 in Hr.
      wp_step. eapply wp_co_set; [exact Hr|]. set (c2 := set_co_status CORO_ACTIVE c).
      eapply (wp_active_push _ _ _ _ X2 r c2).
      * apply (placed_coro _ _ _ _ r c c2 Hp1 Hr). left. rw HX2. left.
      * done.
      * by rw /= lookup_insert_eq.
      * done.
      * intros st2 Hp2 Hk2. do 3 eexists. split; [exact Hp2|]. split; [|split; [done|by left]].
        eapply same_rest_trans; [|by apply kept_rest]. split; try done. simpl. by eapply same_ctl_insert.
    + wp_step. do 3 eexists. split; [exact Hp1|]. split; [apply same_rest_refl|]. split; [done|by right].
  - intros [] st2 (A2 & X2 & cs & Hp2 & [Hcs2 Hm2 Hs2 Ht2] & -> & Hcase). wp_step. wp_step.
    { apply bool_decide_eq_true_2. by intros ->. }
    rw /set_current_coro. do 2 wp_step. wp_step. eapply wp_sche_set; [by destruct Hp2|done|]. intros Hp3.
    destruct Hcs2 as [Hdom2 Hctl2].
    assert (Hr2 : ∃ c2, cy_coros st2 !! r = Some c2).
    { apply elem_of_dom. rw Hdom2 Hc1. apply elem_of_dom. by exists c. }
    assert (Hn2 : ∃ c2, cy_coros st2 !! next = Some c2).
    { apply elem_of_dom. rw Hdom2 Hc1. apply elem_of_dom. by exists cn. }
    destruct Hr2 as [cr2 Hr2], Hn2 as [cn2 Hn2].
    eapply uthread_switch_ok; [exact Hp3|exact Hr2|exact Hn2|done|]. intros st4 Hp4 [E1 E2 E3 E4 E5 E6].
    simpl in *. apply (HR st4 A2 X2); [done| |done]. split; try done; try congruence.
    intros l c' Hc'. destruct (E5 _ _ Hc') as [?|[Hlr (c2 & Hc2 & Heq)]]; [by left|right]. split; [done|].
    destruct (Hctl2 _ _ Hc2) as (c1 & Hc1' & ? & _). exists c1. rw -Hc1. split; [done|congruence].
Qed.
End steps.

(** ** The scheduler's invariant *)

Section safety.
Context {B U : Type} (user : B → M U (uact * B)) (gettimeofday : M U (Z * Z)) (usleep : Z → M U ()).
Implicit Types (st : cosys B U) (l r : loc) (A Q X : list loc) (c : coro B).

Abbreviation main st := (s_co (cy_sche st)).

(** The coroutines but the scheduler's own and [p] are in their user's functions. *)
Definition in_user st (p : loc) : Prop :=
  ∀ l c, cy_coros st !! l = Some c → l ≠ main st → l ≠ p → ∃ b, ut_ctl c = InUser b.

(** Who runs: a coroutine; the scheduler at its loop; the scheduler after [p]
    has switched back to it, in which case [p] may have returned. *)
Inductive mode st r A X (cm : coro B) : Prop :=
  | Running : r ≠ main st → r ∈ X → ut_ctl cm = InSchedule → (∀ l, l ∈ X → l = r ∨ l = main st) →
      in_user st (main st) → mode st r A X cm
  | Looping : r = main st → ut_ctl cm = AtLoop → head A ≠ Some (main st) → (∀ l, l ∈ X → l = main st) →
      in_user st (main st) → mode st r A X cm
  | Back p c : r = main st → ut_ctl cm = InSchedule → head A ≠ Some (main st) → ut_para cm = Some p →
      p ≠ main st → cy_coros st !! p = Some c →
      (∀ l, l ∈ X → l = main st ∨ l = p ∧ co_status c = CORO_DIE) → in_user st p →
      (co_status c = CORO_DIE ∨ ∃ b, ut_ctl c = InUser b) → mode st r A X cm.

Record invariant st r A Q X (cm : coro B) : Prop := {
  iv_placed : placed st A Q X;
  iv_main : cy_coros st !! main st = Some cm;
  iv_awake : main st ∉ Q;
  iv_size : coro_size (cy_sche st) = (Z.of_nat (size (cy_coros st)) - 1)%Z;
  iv_stop : s_stop (cy_sche st) ≠ 0%Z → size (cy_coros st) = 1;
  iv_mode : mode st r A X cm;
}.
Definition sched_ok st r : Prop := ∃ A Q X cm, invariant st r A Q X cm.

(** A coroutine returns while the scheduler's own context is first in the queue. *)
Definition returns_early st r : Prop := ∃ c b b' u',
  cy_coros st !! r = Some c ∧ ut_ctl c = InUser b ∧ user b (cy_mem st) = Ok ((UReturn, b'), u') ∧
  link_list_head (active_list (cy_sche st)) = Some (main st).

Context (Hworld : world_ok user gettimeofday usleep).

Lemma nodup_three A Q X l : NoDup (A ++ Q ++ X) → (l ∈ A → l ∉ Q ∧ l ∉ X) ∧ (l ∈ Q → l ∉ X).
Proof.
  intros Hnd. apply NoDup_app in Hnd as (_ & H1 & Hnd). apply NoDup_app in Hnd as (_ & H2 & _).
  split; [intros Hl; specialize (H1 _ Hl); set_solver|auto].
Qed.

(** After a switch by the coroutine [r], which is in the queue or asleep. *)
Lemma switched_mode st st' r b A Q X A0 X0 cm next :
  r ≠ main st → cy_coros st !! main st = Some cm → ut_ctl cm = InSchedule → in_user st (main st) →
  placed st' A Q X → switched st st' r (InUser b) next → r ∈ A ++ Q → main st ∉ Q →
  next = default (main st) (head A0) → (∀ l, l ∈ X ↔ l ≠ r ∧ l ∈ take 1 A0 ++ X0) →
  (∀ l, l ∈ X0 → l = r ∨ l = main st) → (A0 = [] → main st ∈ X0) → r ∉ A0 →
  ∃ cm', cy_coros st' !! main st' = Some cm' ∧ mode st' next A X cm'.
Proof.
  intros Hr Hm Hctl Hin Hp [E1 E2 E3 E4 E5 (cp & Hcp & Hpara)] HrA HmQ Hnext HX HX0 Hnil HrA0.
  pose proof (placed_nodup _ _ _ _ Hp) as Hnd.
  assert (Hm' : ∃ cm', cy_coros st' !! main st' = Some cm').
  { apply elem_of_dom. rw E1 E4. apply elem_of_dom. by exists cm. }
  destruct Hm' as [cm' Hm']. exists cm'. split; [done|].
  assert (Hctl' : ut_ctl cm' = InSchedule).
  { destruct (E5 _ _ Hm') as [[? _]|[_ (c0 & Hc0 & ->)]]; [congruence|]. rw E1 in Hc0. congruence. }
  assert (Hin' : in_user st' (main st')).
  { intros l c Hc Hl _. destruct (E5 _ _ Hc) as [[_ ->]|[_ (c0 & Hc0 & ->)]]; [by eauto|].
    eapply Hin; [done|congruence..]. }
  destruct (decide (next = main st)) as [Hnm|Hnm].
  - assert (HmX : main st ∈ X).
    { apply HX. split; [done|]. destruct A0 as [|x A0]; [by apply Hnil|]. simpl in Hnext. subst x. simpl. rw Hnm. left. }
    assert (Hc : ∃ c, cy_coros st' !! r = Some c).
    { apply (placed_alive _ _ _ _ Hp). rw app_assoc elem_of_app. by left. }
    destruct Hc as [c Hc]. eapply (Back _ _ _ _ _ r c); try done; try congruence.
    + rw E1. intros Hh. destruct A as [|x A]; [done|]. injection Hh as ->.
      destruct (nodup_three _ _ _ (main st) Hnd) as [H3 _]. by apply (H3 ltac:(left)).
    + intros l [Hlr Hl]%HX. left. rw E1. rw elem_of_app in Hl. destruct Hl as [Hl|Hl].
      * destruct A0 as [|x A0]; [by apply not_elem_of_nil in Hl|]. simpl in Hl.
        apply list_elem_of_singleton in Hl. simpl in Hnext. congruence.
      * destruct (HX0 _ Hl); done.
    + intros l c' Hc' Hl1 Hl2. by apply (Hin' l c').
    + right. destruct (E5 _ _ Hc) as [[_ ->]|[? _]]; [by eauto|done].
  - apply Running; rw ?E1; try done.
    + apply HX. destruct A0 as [|x A0]; [done|]. simpl in Hnext. subst x. split; [|left].
      intros ->. apply HrA0. left.
    + intros l [Hlr Hl]%HX. rw elem_of_app in Hl. destruct Hl as [Hl|Hl].
      * left. destruct A0 as [|x A0]; [by apply not_elem_of_nil in Hl|]. simpl in Hl.
        apply list_elem_of_singleton in Hl. simpl in Hnext. congruence.
      * right. by destruct (HX0 _ Hl).
    + by rw -E1.
Qed.

(** The result of a step: the next context, and the invariant again. *)
Definition step_post st r (o : option loc) st' : Prop :=
  main st' = main st ∧
  match o with
  | Some next => sched_ok st' next ∧ size (cy_coros st') ≤ size (cy_coros st)
  | None => r = main st ∧ size (cy_coros st') = 1
  end.

Lemma switched_size st st' r saved next : switched st st' r saved next → size (cy_coros st') = size (cy_coros st).
Proof. intros [_ _ _ E4 _ _]. by rw -!(size_dom (D := gset loc)) E4. Qed.

Lemma rest_size st st' : same_rest st st' → size (cy_coros st') = size (cy_coros st).
Proof. intros [[Hd _] _ _ _]. by rw -!(size_dom (D := gset loc)) Hd. Qed.

Lemma rest_in_user st st' p : same_rest st st' → in_user st p → in_user st' p.
Proof.
  intros [[_ Hc] Hm _ _] Hin l c Hl. rw Hm. intros H1 H2. destruct (Hc _ _ Hl) as (c0 & Hc0 & -> & _). by eapply Hin.
Qed.

(** The invariant after a switch. *)
Lemma switched_ok st st' r saved next A Q X : placed st' A Q X → switched st st' r saved next →
  main st ∉ Q → coro_size (cy_sche st) = (Z.of_nat (size (cy_coros st)) - 1)%Z →
  (s_stop (cy_sche st) ≠ 0%Z → size (cy_coros st) = 1) →
  (∃ cm', cy_coros st' !! main st' = Some cm' ∧ mode st' next A X cm') → step_post st r (Some next) st'.
Proof.
  intros Hp Hsw HQ Hsz Hstop (cm' & Hm' & Hmode). pose proof (switched_size _ _ _ _ _ Hsw) as Hs.
  destruct Hsw as [E1 E2 E3 E4 E5 E6]. split; [done|]. split; [|lia]. exists A, Q, X, cm'.
  split; try done; rw ?E1 ?E2 ?E3 ?Hs //.
Qed.

(** A coroutine yields: it goes to the back of the queue. *)
Lemma yield_ok st r A Q X cm c b (R : loc → cosys B U → Prop) : invariant st r A Q X cm → r ≠ main st → r ∈ X →
  ut_ctl cm = InSchedule → (∀ l, l ∈ X → l = r ∨ l = main st) → in_user st (main st) →
  cy_coros st !! r = Some c → (∀ next st', step_post st r (Some next) st' → R next st') →
  wp (coro_yield gettimeofday r (InUser b)) st R.
Proof.
  intros [Hp Hm HmQ Hsz Hstop _] Hr HrX Hctl HX Hin Hc HR. rw /coro_yield /sche_next. wp_step.
  eapply wp_co_set; [exact Hc|]. set (c1 := set_co_status CORO_YIELD c). set (st1 := CoSys _ _ _ _ _ _).
  assert (Hp1 : placed st1 A Q X) by by apply (placed_coro _ _ _ _ r c c1 Hp Hc); left.
  assert (Hr1 : same_rest st st1) by (split; try done; by eapply same_ctl_insert).
  wp_step. eapply wp_mono; [by eapply check_ti_ok|]. intros [] st2 (A2 & Q2 & [Hp2 Hmv Hr2 Hl2]).
  pose proof (same_rest_trans _ _ _ Hr1 Hr2) as Hr02. pose proof Hr02 as [Hcs2 E1 E2 E3].
  pose proof (placed_nodup _ _ _ _ Hp) as Hnd. pose proof (placed_nodup _ _ _ _ Hp2) as Hnd2.
  assert (HrQ : r ∉ Q) by (intros ?; by eapply (nodup_three _ _ _ r Hnd)).
  assert (Hc2 : cy_coros st2 !! r = Some c1) by (rw Hl2 //= lookup_insert_eq //).
  assert (HmQ2 : main st ∉ Q2) by (intros ?; apply HmQ; rw -Hmv; set_solver).
  assert (Hm2 : cy_coros st2 !! main st2 = Some cm) by (rw E1 Hl2 //= lookup_insert_ne //).
  assert (HrA2 : r ∉ A ++ A2) by (intros H; destruct (nodup_three _ _ _ r Hnd2) as [H3 _]; by apply (H3 H)).
  eapply _sche_next_ok; [exact Hp2|exact Hc2|exact Hm2| |done|].
  { rw E1. destruct (A ++ A2) as [|x A'] eqn:HA; [done|]. simpl. intros ->. apply HrA2. left. }
  intros st3 A3 X3 Hp3 Hsw [(_ & -> & HX3)|(Hbad & _)]; [|done]. rw E1 in Hsw |- *. apply HR.
  assert (Hpost : step_post st2 r (Some (default (main st2) (head (A ++ A2)))) st3).
  { rw -E1 in Hsw. eapply switched_ok; [exact Hp3|exact Hsw|by rw E1| | |].
    - rw E2 Hsz. by rw (rest_size _ _ Hr02).
    - rw E3. by rw (rest_size _ _ Hr02).
    - pose proof (placed_nodup _ _ _ _ Hp3) as Hnd3.
      eapply (switched_mode st2 st3 r b _ _ _ (A ++ A2) X cm); try done.
      + by rw E1.
      + rw E1. by eapply rest_in_user in Hin.
      + set_solver.
      + by rw E1.
      + intros l. split.
        * intros Hl. split; [|rw -HX3; by right]. intros ->. destruct (nodup_three _ _ _ r Hnd3) as [H3 _].
          destruct H3 as [_ H3]; [set_solver|done].
        * intros [Hl Hin']. rw -HX3 in Hin'. by apply elem_of_cons in Hin' as [->|].
      + by rw E1.
      + intros HA. rw E1. assert (Hall : main st ∈ (A ++ A2) ++ Q2 ++ X).
        { apply (placed_in _ _ _ _ Hp2 _ cm). by rw -E1. }
        rw HA in Hall. set_solver. }
  destruct Hpost as [H1 [H2 H3]]. rw E1 in H1, H2. split; [done|]. split; [done|]. by rw -(rest_size _ _ Hr02).
Qed.

(** A coroutine sleeps: it goes to the heap. *)
Lemma sleep_ok st r A Q X cm c b ms (R : loc → cosys B U → Prop) : invariant st r A Q X cm → r ≠ main st →
  r ∈ X → ut_ctl cm = InSchedule → (∀ l, l ∈ X → l = r ∨ l = main st) → in_user st (main st) →
  cy_coros st !! r = Some c → (∀ next st', step_post st r (Some next) st' → R next st') →
  wp (coro_sleep gettimeofday r ms (InUser b)) st R.
Proof.
  intros [Hp Hm HmQ Hsz Hstop _] Hr HrX Hctl HX Hin Hc HR. rw /coro_sleep /sche_add_timeout. wp_step.
  eapply wp_GetSystemMs; [done|]. intros now u. apply (placed_mem _ _ _ _ u) in Hp.
  set (st0 := CoSys _ _ _ _ _ _) in *. wp_step. eapply wp_co_set; [exact Hc|].
  set (c0 := set_co_timeout _ c). set (st1 := CoSys _ _ _ _ _ _).
  assert (Hp1 : placed st1 A Q X) by by apply (placed_coro _ _ _ _ r c c0 Hp Hc); left.
  wp_step. eapply wp_co_set; [by rw /= lookup_insert_eq|]. set (c1 := set_co_status CORO_SLEEP c0).
  set (st2 := CoSys _ _ _ _ _ _).
  assert (Hp2 : placed st2 A Q X).
  { eapply (placed_coro _ _ _ _ r c0 c1 Hp1); [by rw /= lookup_insert_eq|by left]. }
  assert (Hrest : same_rest st st2).
  { split; try done. simpl. rw insert_insert_eq. by eapply same_ctl_insert. }
  pose proof (placed_nodup _ _ _ _ Hp) as Hnd. pose proof HrX as [X0 HX0]%elem_of_Permutation.
  assert (HrA : r ∉ A) by (intros H; destruct (nodup_three _ _ _ r Hnd) as [H3 _]; by apply (H3 H)).
  assert (HrX0 : r ∉ X0).
  { rw HX0 in Hnd. apply NoDup_app in Hnd as (_ & _ & Hnd). apply NoDup_app in Hnd as (_ & _ & Hnd).
    by apply NoDup_cons in Hnd as []. }
  assert (HmAX : main st ∈ A ++ X0).
  { pose proof (placed_in _ _ _ _ Hp _ _ Hm) as Hall. rw HX0 in Hall. set_solver. }
  do 2 wp_step. wp_step. eapply (wp_heap_insert _ st2 A Q X X0 r c1 _ Hp2 HX0).
  - by rw /= lookup_insert_eq.
  - done.
  - destruct A, X0; simpl; try lia. by apply not_elem_of_nil in HmAX.
  - intros st3 Q3 HQ3 Hp3 Hk3. pose proof (same_rest_trans _ _ _ Hrest (kept_rest _ _ Hk3)) as Hr3.
    pose proof Hr3 as [Hcs3 E1 E2 E3]. pose proof (kp_coros _ _ Hk3) as Hco3.
    assert (Hm3 : cy_coros st3 !! main st3 = Some cm) by (rw E1 Hco3 /= !lookup_insert_ne //).
    assert (Hc3 : cy_coros st3 !! r = Some c1) by (rw Hco3 /= lookup_insert_eq //).
    eapply _sche_next_ok; [exact Hp3|exact Hc3|exact Hm3| |done|].
    { rw E1. destruct A as [|x A]; [done|]. simpl. intros ->. apply HrA. left. }
    intros st4 A4 X4 Hp4 Hsw [[Hbad _]|(_ & -> & ->)]; [done|]. rw E1 in Hsw |- *. apply HR.
    assert (Hpost : step_post st3 r (Some (default (main st3) (head A))) st4).
    { assert (HmQ3 : main st3 ∉ Q3) by (rw E1 HQ3; set_solver).
      rw -E1 in Hsw. eapply switched_ok; [exact Hp4|exact Hsw|done| | |].
      - rw E2 Hsz. by rw (rest_size _ _ Hr3).
      - rw E3. by rw (rest_size _ _ Hr3).
      - eapply (switched_mode st3 st4 r b _ _ _ A X0 cm); try done.
        + by rw E1.
        + rw E1. by eapply rest_in_user in Hin.
        + rw elem_of_app HQ3. set_solver.
        + intros l. split; [|by intros [_ ?]]. intros Hl. split; [|done]. intros ->. apply elem_of_app in Hl as [Hl|Hl].
          * apply HrA. destruct A; [done|]. simpl in Hl. set_solver.
          * done.
        + intros l Hl. rw E1. apply HX. rw HX0. by right.
        + intros ->. by rw E1. }
    destruct Hpost as [H1 [H2 H3]]. rw E1 in H1, H2. split; [done|]. split; [done|]. by rw -(rest_size _ _ Hr3).
Qed.

(** A coroutine returns: it is loose until the scheduler reaps it. *)
Lemma return_ok st r A Q X cm c (R : loc → cosys B U → Prop) : invariant st r A Q X cm → r ≠ main st → r ∈ X →
  ut_ctl cm = InSchedule → (∀ l, l ∈ X → l = r ∨ l = main st) → in_user st (main st) → head A ≠ Some (main st) →
  cy_coros st !! r = Some c → (∀ st', step_post st r (Some (main st)) st' → R (main st) st') →
  wp (co_set (Some r) (set_co_status CORO_DIE);; uthread_switch r (main st) (Some r) Returned) st R.
Proof.
  intros [Hp Hm HmQ Hsz Hstop _] Hr HrX Hctl HX Hin Hhead Hc HR. wp_step. eapply wp_co_set; [exact Hc|].
  set (c1 := set_co_status CORO_DIE c). set (st1 := CoSys _ _ _ _ _ _).
  assert (Hp1 : placed st1 A Q X) by by apply (placed_coro _ _ _ _ r c c1 Hp Hc); left.
  rw /uthread_switch. wp_step. eapply wp_co_set; [by rw /= lookup_insert_ne|]. wp_step.
  set (cm1 := set_ut_para (Some r) cm). set (st2 := CoSys _ _ _ _ _ _).
  assert (Hp2 : placed st2 A Q X).
  { apply (placed_coro st1 _ _ _ (main st) cm cm1 Hp1); [by rw /= lookup_insert_ne|by right]. }
  eapply wp_co_set; [by rw /= lookup_insert_ne // lookup_insert_eq|]. wp_step. simpl.
  set (c2 := set_ut_ctl Returned c1). set (st3 := CoSys _ _ _ _ _ _).
  assert (Hp3 : placed st3 A Q X).
  { apply (placed_coro st2 _ _ _ r c1 c2 Hp2); [by rw /= lookup_insert_ne // lookup_insert_eq|by right]. }
  assert (Hs3 : size (cy_coros st3) = size (cy_coros st)).
  { rw -!(size_dom (D := gset loc)) /= !dom_insert_L. f_equal. apply elem_of_dom_2 in Hc, Hm. set_solver. }
  apply HR. split; [done|]. split; [|by rw Hs3]. exists A, Q, X, cm1. split; try done.
  - by rw /= lookup_insert_ne // lookup_insert_eq.
  - by rw Hs3.
  - by rw Hs3.
  - eapply (Back _ _ _ _ _ r c2); try done.
    + by rw /= lookup_insert_eq.
    + intros l Hl. destruct (HX _ Hl) as [->| ->]; [by right|by left].
    + intros l c' Hc' Hl1 Hl2. simpl in Hc', Hl1. rw !lookup_insert_ne // in Hc'. by apply (Hin l c').
    + by left.
Qed.

(** The scheduler at the head of its loop. *)
Lemma loop_ok st A Q X cm (R : option loc → cosys B U → Prop) : invariant st (main st) A Q X cm →
  ut_ctl cm = AtLoop → head A ≠ Some (main st) → (∀ l, l ∈ X → l = main st) → in_user st (main st) →
  (∀ o st', step_post st (main st) o st' → R o st') →
  wp (schedule_loop gettimeofday usleep (main st)) st R.
Proof.
  intros [Hp Hm HmQ Hsz Hstop Hmode] Hctl Hhead HX Hin HR. rw /schedule_loop /the_sche. do 2 wp_step.
  destruct (Z.eqb_spec (s_stop (cy_sche st)) 0) as [_|Hst]; cbn [negb];
    [|wp_step; apply HR; split; [done|split; [done|by apply Hstop]]].
  wp_step. eapply wp_mono; [by eapply check_ti_ok|]. intros [] st1 (A2 & Q1 & [Hp1 Hmv Hr1 Hl1]).
  pose proof Hr1 as [Hcs1 E1 E2 E3]. pose proof (placed_nodup _ _ _ _ Hp) as Hnd.
  assert (HmQ1 : main st ∉ Q1) by (intros ?; apply HmQ; rw -Hmv; set_solver).
  assert (Hm1 : cy_coros st1 !! main st1 = Some cm) by (rw E1 Hl1 //).
  assert (Hhead1 : head (A ++ A2) ≠ Some (main st)).
  { destruct A as [|x A]; [|done]. destruct A2 as [|y A2]; [done|]. intros [= ->]. apply HmQ. rw -Hmv. by left. }
  assert (Hin1 : in_user st1 (main st)) by by eapply rest_in_user in Hin.
  do 2 wp_step. rw (ll_rep_is_empty _ _ _ (pl_active _ _ _ _ Hp1)). case_bool_decide as HA.
  - rw /on_comem. do 2 wp_step. eapply wp_mono; [by apply (wo_usleep _ _ _ Hworld)|]. intros [] u _. wp_step.
    apply (placed_mem _ _ _ _ u) in Hp1. eapply wp_sche_set; [exact Hp1|done|]. intros Hp2. wp_step. apply HR.
    split; [done|]. split; [|simpl; by rw (rest_size _ _ Hr1)]. exists (A ++ A2), Q1, X, cm. split; try done; simpl.
    + by rw E1.
    + by rw E2 (rest_size _ _ Hr1).
    + by rw E3 (rest_size _ _ Hr1).
    + apply Looping; simpl; rw ?E1 //.
  - apply wp_fmap. rw -{1}E1.
    assert (HmX : co_status cm = CORO_YIELD → main st1 ∈ X).
    { intros Hy. pose proof (placed_in _ _ _ _ Hp1 _ _ Hm1) as Hall. rw !elem_of_app in Hall.
      destruct Hall as [Hall|[?|?]]; [|by rw E1 in H|done].
      rw -elem_of_app in Hall. pose proof (pl_ready _ _ _ _ Hp1 _ _ Hall Hm1) as Hst. rw Hy in Hst. done. }
    destruct (A ++ A2) as [|x A1] eqn:HA1; [done|].
    assert (Hxm : x ≠ main st) by (intros ->; by apply Hhead1).
    eapply _sche_next_ok; [exact Hp1|exact Hm1|exact Hm1|by rw E1|exact HmX|].
    intros st3 A3 X3 Hp3 Hsw Hcase. simpl in Hsw |- *. apply HR.
    assert (Hnext : x ∈ X3 ∧ ∀ l, l ∈ X3 → l = x ∨ l = main st).
    { destruct Hcase as [(_ & _ & HX3)|(_ & _ & ->)]; simpl in *.
      - split.
        + assert (x ∈ main st1 :: X3) as [->|?]%elem_of_cons by (rw HX3; left); [congruence|done].
        + intros l Hl. assert (l ∈ x :: X) as [->|Hl']%elem_of_cons by (rw -HX3; by right); [by left|].
          right. by apply HX.
      - split; [left|]. intros l [->|Hl]%elem_of_cons; [by left|right; by apply HX]. }
    destruct Hnext as [HxX HX3].
    assert (Hpost : step_post st1 (main st1) (Some x) st3).
    { eapply switched_ok; [exact Hp3|exact Hsw|by rw E1| | |].
      - by rw E2 (rest_size _ _ Hr1).
      - by rw E3 (rest_size _ _ Hr1).
      - destruct Hsw as [F1 F2 F3 F4 F5 F6].
        assert (Hm3 : ∃ cm', cy_coros st3 !! main st3 = Some cm').
        { apply elem_of_dom. rw F1 F4. apply elem_of_dom. by exists cm. }
        destruct Hm3 as [cm3 Hm3]. exists cm3. split; [done|]. apply Running; rw ?F1 ?E1 //.
        + destruct (F5 _ _ Hm3) as [[_ ?]|[? _]]; [done|congruence].
        + intros l c Hc Hl _. destruct (F5 _ _ Hc) as [[-> _]|[_ (c0 & Hc0 & ->)]]; [congruence|].
          eapply Hin1; [exact Hc0|congruence..]. }
    destruct Hpost as [H1 [H2 H3]]. split; [congruence|]. split; [done|]. by rw -(rest_size _ _ Hr1).
Qed.

(** A coroutine that has returned is freed, and its death is counted. *)
Lemma reap_ok st A Q X p c (R : () → cosys B U → Prop) : placed st A Q (p :: X) → cy_coros st !! p = Some c →
  coro_size (cy_sche st) = (Z.of_nat (size (cy_coros st)) - 1)%Z → s_stop (cy_sche st) = 0%Z →
  (∀ st', placed st' A Q X → cy_coros st' = delete p (cy_coros st) → main st' = main st →
     coro_size (cy_sche st') = (Z.of_nat (size (cy_coros st')) - 1)%Z →
     (s_stop (cy_sche st') ≠ 0%Z → size (cy_coros st') = 1) → R tt st') →
  wp (reap (Some p)) st R.
Proof.
  intros Hp Hc Hsz Hstop HR. pose proof (placed_nodup _ _ _ _ Hp) as Hnd.
  pose proof (placed_small _ _ _ _ Hp) as [Hsm Hsm2]. pose proof (placed_size _ _ _ _ Hp) as Hps.
  assert (Hnd' : NoDup (p :: A ++ Q ++ X)) by (rw (_ : p :: A ++ Q ++ X ≡ₚ A ++ Q ++ p :: X) //; solve_Permutation).
  apply NoDup_cons in Hnd' as [Hnp Hnd']. pose proof Hp as [].
  rw /reap /coro_destroy. wp_step. wp_step. eapply wp_co_get; [done|]. rw /on_coros. do 2 wp_step.
  eapply wp_hfree; [done|]. rw /on_conexts /on_heap. do 6 wp_step. simpl.
  set (st1 := CoSys _ _ _ _ _ _).
  assert (Hsz1 : size (cy_coros st1) = size (cy_coros st) - 1) by (rw /= map_size_delete_Some //; lia).
  assert (Hlists : ll_rep (cy_nexts st1) (active_list (cy_sche st1)) A).
  { destruct pl_active0 as [E1 E2 E3]. split; [done| |done]. simpl. assert (HpA : p ∉ A) by set_solver.
    clear -HpA E2. revert E2. generalize (ll_head (active_list (cy_sche st))) as q.
    induction A as [|y A IH]; intros q; simpl; [done|]. intros (-> & r & Hr & Hs). split; [done|]. exists r.
    rw lookup_delete_ne; [set_solver|]. split; [done|]. apply IH; [set_solver|done]. }
  assert (Hp1 : placed st1 A Q X).
  { split; simpl; try done.
    - destruct pl_heap0 as [D1 D2 D3 D4 D5 D6 D7]. split; try done. intros i e Hi. simpl.
      rw lookup_delete_ne; [|by apply D7]. intros ->. apply Hnp. apply list_elem_of_lookup_2 in Hi. set_solver.
    - rw dom_delete_L. apply NoDup_Permutation; [done|apply NoDup_elements|]. intros l.
      assert (Hall : l ∈ A ++ Q ++ p :: X ↔ l ∈ dom (cy_coros st)) by rw pl_all0 elem_of_elements //.
      rw elem_of_elements elem_of_difference -Hall. set_solver.
    - intros l Hl. rw lookup_delete_ne; [set_solver|]. apply pl_nexts0. set_solver.
    - intros l Hl. rw lookup_delete_ne; [set_solver|]. apply pl_index0. set_solver.
    - intros l x Hl. rw lookup_delete_ne; [set_solver|]. by apply pl_ready0.
    - intros l x Hl. rw lookup_delete_ne; [set_solver|]. by apply pl_asleep0.
    - simpl in Hsz1. lia. }
  simpl in Hps. assert (Hi32 : i32 (coro_size (cy_sche st1) - 1) = (Z.of_nat (size (cy_coros st1)) - 1)%Z).
  { rw Hsz1. change (coro_size (cy_sche st1)) with (coro_size (cy_sche st)). rw Hsz. simpl in Hsm.
    rw i32_small; lia. }
  eapply wp_sche_set; [exact Hp1|done|]. intros Hp2. rw /the_sche. do 2 wp_step.
  change (coro_size (cy_sche st1)) with (coro_size (cy_sche st)) in *. cbn [coro_size set_coro_size cy_sche].
  cbn [coro_size set_coro_size cy_sche] in Hp2. rw Hi32 in Hp2. rw Hi32.
  destruct (Z.eqb_spec (Z.of_nat (size (cy_coros st1)) - 1) 0) as [Hz|Hnz].
  - eapply wp_sche_set; [exact Hp2|done|]. intros Hp3. apply HR; try done. intros _.
    change (size (cy_coros st1) = 1). lia.
  - wp_step. by apply HR.
Qed.

(** The scheduler after a switch back. *)
Lemma sched_back_ok st A Q X cm p c (R : option loc → cosys B U → Prop) : invariant st (main st) A Q X cm →
  head A ≠ Some (main st) → p ≠ main st → cy_coros st !! p = Some c →
  (∀ l, l ∈ X → l = main st ∨ l = p ∧ co_status c = CORO_DIE) → in_user st p →
  (co_status c = CORO_DIE ∨ ∃ b, ut_ctl c = InUser b) →
  (∀ o st', step_post st (main st) o st' → R o st') →
  wp (schedule_back (main st) (Some p)) st R.
Proof.
  intros [Hp Hm HmQ Hsz Hstop Hmode] Hhead Hpm Hc HX Hin Hdead HR.
  pose proof (placed_in _ _ _ _ Hp _ _ Hc) as Hpin. pose proof (placed_nodup _ _ _ _ Hp) as Hnd.
  assert (Hstop0 : s_stop (cy_sche st) = 0%Z).
  { destruct (decide (s_stop (cy_sche st) = 0%Z)) as [|Hst]; [done|]. specialize (Hstop Hst).
    exfalso.
    assert (length [p; main st] ≤ size (cy_coros st)); [|simpl in *; lia].
    rw -(size_dom (D := gset loc)). unfold size, set_size. apply (submseteq_length [p; main st]), NoDup_submseteq.
    - by apply NoDup_cons_2; [rw list_elem_of_singleton|apply NoDup_singleton].
    - intros y Hy. apply elem_of_elements, elem_of_dom. set_solver. }
  assert (Hix : ∃ i, mh_index (cy_heap st) !! p = Some i ∧ (co_status c = CORO_DIE → i = 0%Z)).
  { rw !elem_of_app in Hpin. destruct Hpin as [HpA|[HpQ|HpX]].
    - exists 0%Z. split; [|done]. apply (pl_index _ _ _ _ Hp). set_solver.
    - pose proof HpQ as [i Hi]%list_elem_of_lookup. eexists. split; [by eapply (hd_index _ _ (pl_heap _ _ _ _ Hp))|].
      intros Hd. rw (pl_asleep _ _ _ _ Hp _ _ HpQ Hc) in Hd. done.
    - exists 0%Z. split; [|done]. apply (pl_index _ _ _ _ Hp). set_solver. }
  destruct Hix as (i & Hix & Hi0).
  rw /schedule_back. wp_step. eapply wp_co_get; [exact Hc|]. rw /on_heap /get_index. do 2 wp_step. wp_step.
  eapply wp_hload; [exact Hix|]. wp_step. rw (_ : with_index (mh_index (cy_heap st)) (cy_heap st) = cy_heap st).
  { by destruct (cy_heap st). }
  rw (_ : CoSys _ _ _ _ _ _ = st); [by destruct st|].
  apply (wp_mono _ _ (λ _ st1, ∃ X1, placed st1 A Q X1 ∧ main st1 = main st ∧ cy_coros st1 !! main st = Some cm ∧
    coro_size (cy_sche st1) = (Z.of_nat (size (cy_coros st1)) - 1)%Z ∧
    (s_stop (cy_sche st1) ≠ 0%Z → size (cy_coros st1) = 1) ∧ (∀ l, l ∈ X1 → l = main st) ∧
    in_user st1 (main st) ∧ size (cy_coros st1) ≤ size (cy_coros st))).
  - destruct (Z.eqb_spec (co_status c) CORO_DIE) as [Hd|Hd]; simpl.
    + rw (Hi0 Hd) Z.eqb_refl.
      assert (HpX : p ∈ X).
      { rw !elem_of_app in Hpin. destruct Hpin as [HpA|[HpQ|HpX]]; [| |done].
        - rw (pl_ready _ _ _ _ Hp _ _ HpA Hc) in Hd. done.
        - rw (pl_asleep _ _ _ _ Hp _ _ HpQ Hc) in Hd. done. }
      pose proof HpX as [X1 HX1]%elem_of_Permutation. pose proof (placed_perm _ _ _ _ _ HX1 Hp) as Hp'.
      eapply reap_ok; [exact Hp'|exact Hc|done|done|]. intros st1 Hp1 Hc1 E1 E2 E3. exists X1.
      split_and!; try done.
      * by rw Hc1 lookup_delete_ne.
      * intros l Hl. destruct (HX l) as [?|[-> _]]; [rw HX1; by right|done|].
        pose proof (placed_nodup _ _ _ _ Hp') as Hnd'. apply NoDup_app in Hnd' as (_ & _ & Hnd').
        apply NoDup_app in Hnd' as (_ & _ & Hnd'). by apply NoDup_cons in Hnd' as [].
      * intros l x. rw Hc1 E1. rw lookup_delete. case_decide as Heq; [done|]. intros Hx Hl _. by apply (Hin l x).
      * rw Hc1 map_size_delete_Some //. lia.
    + wp_step. exists X. split_and!; try done.
      * intros l Hl. by destruct (HX _ Hl) as [?|[_ ?]].
      * intros l x Hx Hl _. destruct (decide (l = p)) as [->|Hne]; [|by apply (Hin l x)].
        destruct Hdead as [?|[b Hb]]; [done|]. exists b. congruence.
  - intros [] st1 (X1 & Hp1 & E1 & Hm1 & Hsz1 & Hstop1 & HX1 & Hin1 & Hle). wp_step.
    eapply wp_co_set; [exact Hm1|]. wp_step. set (cm1 := set_ut_ctl AtLoop cm). apply HR.
    split; [done|]. split; [|simpl; by rw map_size_insert_Some].
    exists A, Q, X1, cm1. split; simpl; rw ?E1 //.
    + apply (placed_coro st1 _ _ _ (main st) cm cm1 Hp1 Hm1). by right.
    + by rw lookup_insert_eq.
    + by rw map_size_insert_Some.
    + by rw map_size_insert_Some.
    + apply Looping; simpl; rw ?E1 //. intros l x. simpl. rw E1. intros Hx Hl _.
      rw lookup_insert_ne // in Hx. by apply (Hin1 l x); rw ?E1.
Qed.

(** One step of the system. *)
Lemma step_ok st r : sched_ok st r → ¬ returns_early st r →
  wp (step user gettimeofday usleep r) st (λ o st', step_post st r o st').
Proof.
  intros (A & Q & X & cm & Hiv) Hearly. pose proof Hiv as [Hp Hm HmQ Hsz Hstop Hmode].
  rw /step. wp_step. destruct Hmode as [Hr HrX Hctl HX Hin| -> Hctl Hhead HX Hin|p c -> Hctl Hhead Hpara Hpm Hc HX Hin Hd].
  - destruct (placed_alive _ _ _ _ Hp r) as [c Hc]; [set_solver|]. eapply wp_co_get; [exact Hc|].
    destruct (Hin _ _ Hc Hr Hr) as [b Hb]. rw Hb. apply wp_fmap. rw /coro_fun /the_sche. do 3 wp_step.
    rw /on_comem. wp_step. destruct (wp_ok _ _ _ (wo_user _ _ _ Hworld b (cy_mem st))) as ([act b'] & u & Hu & _).
    eapply ok_wp; [exact Hu|]. cbn match. set (st1 := CoSys _ _ _ _ _ _).
    assert (Hiv1 : invariant st1 r A Q X cm).
    { split; try done; [by apply placed_mem|]. by apply Running. }
    assert (Hpost : ∀ o st', step_post st1 r o st' → step_post st r o st') by done.
    destruct act as [|ms|].
    + eapply yield_ok; [exact Hiv1|done..|exact Hc|]. intros next st' H. by apply Hpost.
    + eapply sleep_ok; [exact Hiv1|done..|exact Hc|]. intros next st' H. by apply Hpost.
    + eapply (return_ok st1 r A Q X cm c _ Hiv1); [done..| |exact Hc|].
      * intros Hhead. apply Hearly. exists c, b, b', u. split_and!; try done.
        by rw (ll_rep_head _ _ _ (pl_active _ _ _ _ Hp)).
      * intros st' H. by apply Hpost.
  - eapply wp_co_get; [exact Hm|]. rw Hctl. by eapply loop_ok.
  - eapply wp_co_get; [exact Hm|]. rw Hctl Hpara. by eapply sched_back_ok.
Qed.
End safety.

(** ** The start of a scheduler *)

Section start.
Context {B U : Type} (user : B → M U (uact * B)) (gettimeofday : M U (Z * Z)) (usleep : Z → M U ()).
Implicit Types (st : cosys B U) (l r : loc) (A Q X : list loc) (c : coro B).
Context (Hworld : world_ok user gettimeofday usleep).

Definition with_coros (cs : gmap loc (coro B)) st : cosys B U :=
  CoSys (cy_sche st) (cy_heap st) cs (cy_nexts st) (current_coro st) (cy_mem st).

(** The push does not look at the coroutines. *)
Lemma active_push_coros l cs st : active_push l (with_coros cs st) =
  match active_push l st with Ok (x, st') => Ok (x, with_coros cs st') | Fault e => Fault e end.
Proof.
  rw /active_push /the_sche /gets /on_conexts /sche_set /on_sche /zoom /modify /mbind /M_bind /=.
  by destruct (link_list_push_back _ _ _) as [[x N]|e].
Qed.

(** A new coroutine is loose, and in no queue. *)
Lemma wp_coro_create stk ctl st A Q X (R : loc → cosys B U → Prop) : placed st A Q X →
  (Z.of_nat (size (cy_coros st)) < mh_max_size (cy_heap st))%Z →
  (∀ l st', cy_coros st !! l = None → placed st' A Q (l :: X) → cy_sche st' = cy_sche st →
     cy_coros st' = <[l := Coro stk 0 0 0 NULL ctl]> (cy_coros st) → mh_max_size (cy_heap st') = mh_max_size (cy_heap st) →
     R l st') →
  wp (coro_create stk ctl) st R.
Proof.
  intros Hp Hcap HR. pose proof (placed_nodup _ _ _ _ Hp) as Hnd. rw /coro_create /on_coros /on_conexts /on_heap.
  do 10 wp_step. wp_step. set (l := fresh _).
  assert (Hl : l ∉ dom (cy_coros st) ∪ dom (cy_nexts st) ∪ dom (mh_index (cy_heap st))) by apply is_fresh.
  rw !not_elem_of_union in Hl. destruct Hl as [[Hl1%not_elem_of_dom Hl2%not_elem_of_dom] Hl3%not_elem_of_dom].
  apply HR; try done. assert (Hnl : l ∉ A ++ Q ++ X).
  { intros Hin. destruct (placed_alive _ _ _ _ Hp _ Hin). congruence. }
  destruct Hp. split; simpl; try done.
  - destruct pl_active0 as [E1 E2 E3]. split; [done| |done]. apply lseg_insert_ne; [|done]. set_solver.
  - destruct pl_heap0 as [D1 D2 D3 D4 D5 D6 D7]. split; try done. intros i e Hi. simpl.
    rw lookup_insert_ne; [|by apply D7]. intros <-. apply Hnl. apply list_elem_of_lookup_2 in Hi. set_solver.
  - rw dom_insert_L. apply NoDup_Permutation; [|apply NoDup_elements|].
    + rw (_ : A ++ Q ++ l :: X ≡ₚ l :: A ++ Q ++ X); [solve_Permutation|]. by apply NoDup_cons_2.
    + intros x. assert (Hall : x ∈ A ++ Q ++ X ↔ x ∈ dom (cy_coros st)) by rw pl_all0 elem_of_elements //.
      rw elem_of_elements elem_of_union -Hall. set_solver.
  - intros x Hx. rw lookup_insert. case_decide; [done|]. apply pl_nexts0. set_solver.
  - intros x Hx. rw lookup_insert. case_decide; [done|]. apply pl_index0. set_solver.
  - intros x y Hx. rw lookup_insert_ne; [set_solver|]. by apply pl_ready0.
  - intros x y Hx. rw lookup_insert_ne; [set_solver|]. by apply pl_asleep0.
  - rw map_size_insert_None //. lia.
Qed.

(** Between two calls of its client the scheduler is at its loop. *)
Definition idle st (n : nat) : Prop := ∃ A Q X cm, invariant st (s_co (cy_sche st)) A Q X cm ∧
  ut_ctl cm = AtLoop ∧ s_stop (cy_sche st) = 0%Z ∧ s_co (cy_sche st) ∉ A ∧
  (∀ l, l ∈ X → l = s_co (cy_sche st)) ∧ in_user st (s_co (cy_sche st)) ∧ size (cy_coros st) = n.

Lemma sche_create_ok max stk u : (1 ≤ max < 2 ^ 30)%Z →
  wp (sche_create gettimeofday max stk) u (λ st _, idle st 1 ∧ mh_max_size (cy_heap st) = max).
Proof.
  intros Hmax. rw /wp /sche_create.
  destruct (wp_ok _ _ _ (wo_clock _ _ _ Hworld u)) as ([sec usec] & u1 & -> & _).
  set (st0 := CoSys _ _ _ _ _ _).
  assert (Hwp : wp (co ← coro_create 0 AtLoop; sche_set (set_s_co co);; set_current_coro co) st0
    (λ _ st, idle st 1 ∧ mh_max_size (cy_heap st) = max)).
  { assert (Hp0 : placed st0 [] [] []).
    { split; simpl; try done; try (by intros ? ?%not_elem_of_nil); try (by intros ?? ?%not_elem_of_nil).
      - split; simpl; rw ?length_replicate; try done; try lia. constructor.
      - rw map_size_empty. lia. }
    wp_step. eapply wp_coro_create; [exact Hp0|simpl; rw map_size_empty; lia|].
    intros l st1 _ Hp1 Hs1 Hc1 Hm1. wp_step. rw /sche_set /on_sche. do 2 wp_step. rw /set_current_coro. wp_step.
    split; [|done]. exists [], [], [l], (Coro 0 0 0 0 NULL AtLoop). rw /= Hs1 /=. split_and!; try done.
    - split; simpl; rw ?Hs1 /= ?Hc1 /=; try done.
      + destruct Hp1. rw Hs1 in pl_active0. rw Hc1 in pl_all0, pl_ready0, pl_asleep0, pl_cap0. by split.
      + by rw lookup_insert_eq.
      + by apply not_elem_of_nil.
      + by rw map_size_insert_None ?map_size_empty.
      + apply Looping; simpl; try done.
        * intros x. apply list_elem_of_singleton.
        * intros x y. rw /= ?Hc1 /=. intros [[<- _]|[_ ?]]%lookup_insert_Some; done.
    - apply not_elem_of_nil.
    - intros x. apply list_elem_of_singleton.
    - intros x y. rw /= ?Hc1 ?Hs1 /=. intros [[<- _]|[_ ?]]%lookup_insert_Some; done.
    - rw ?Hc1 /=. by rw map_size_insert_None ?map_size_empty. }
  destruct (wp_ok _ _ _ Hwp) as ([] & st & Hrun & Hst). by rw Hrun.
Qed.

(** Making a coroutine: it runs to its first switch and is queued. *)
Lemma sche_spawn_ok b arg st n : idle st n → (Z.of_nat n < mh_max_size (cy_heap st))%Z →
  wp (sche_spawn user gettimeofday usleep b arg) st (λ _ st',
    idle st' (Datatypes.S n) ∧ mh_max_size (cy_heap st') = mh_max_size (cy_heap st)).
Proof.
  intros (A & Q & X & cm & [Hp Hm HmQ Hsz Hstop _] & Hctl & Hst & HmA & HX & Hin & Hn) Hcap.
  set (m := s_co (cy_sche st)) in *. pose proof (hd_small _ _ (pl_heap _ _ _ _ Hp)) as Hsm.
  pose proof (hd_max _ _ (pl_heap _ _ _ _ Hp)) as Hmx.
  rw /sche_spawn. wp_step. eapply wp_coro_create; [exact Hp|by rw Hn|]. intros l st0 Hl Hp0 Hs0 Hc0 Hmax0.
  assert (Hlm : l ≠ m) by (intros ->; congruence).
  wp_step. eapply wp_co_set; [by rw Hc0 lookup_insert_eq|].
  set (c1 := set_co_arg arg (Coro 4096 0 0 0 NULL (NotBegun b))). rw Hc0 insert_insert_eq.
  set (st1 := CoSys _ _ _ _ _ _).
  assert (Hp1 : placed st1 A Q (l :: X)).
  { rw /st1 -(insert_insert_eq (cy_coros st) l c1 (Coro 4096 0 0 0 NULL (NotBegun b))) -Hc0.
    eapply placed_coro; [exact Hp0|by rw Hc0 lookup_insert_eq|by right]. }
  assert (Hs1 : cy_sche st1 = cy_sche st) by done.
  assert (Hc1 : cy_coros st1 = <[l := c1]> (cy_coros st)) by done.
  assert (Hmax1 : mh_max_size (cy_heap st1) = mh_max_size (cy_heap st)) by done. clearbody st1.
  wp_step. eapply wp_sche_set; [exact Hp1|done|]. intros Hp2. set (st2 := CoSys _ _ _ _ _ _) in *.
  rw /the_sche. do 2 wp_step. rw (_ : s_co (cy_sche st2) = m); [by rw /= Hs1|]. rw /uthread_switch.
  wp_step. wp_step. eapply wp_co_set; [by rw /= Hc1 lookup_insert_eq|]. set (st3 := CoSys _ _ _ _ _ _).
  assert (Hp3 : placed st3 A Q (l :: X)).
  { eapply placed_coro; [exact Hp2|by rw /= Hc1 lookup_insert_eq|by right]. }
  wp_step. eapply wp_co_set; [by rw /= Hc1 insert_insert_eq lookup_insert_ne|]. wp_step.
  set (st4 := CoSys _ _ _ _ _ _).
  assert (Hp4 : placed st4 A Q (l :: X)).
  { eapply placed_coro; [exact Hp3|by rw /= Hc1 insert_insert_eq lookup_insert_ne|by right]. }
  set (c4 := Coro 4096 0 0 arg (Some l) (NotBegun b)). set (cm4 := set_ut_ctl AtLoop cm).
  assert (Hc4 : cy_coros st4 = <[m := cm4]> (<[l := c4]> (cy_coros st))) by by rw /= Hc1 insert_insert_eq.
  assert (Hl4 : cy_coros st4 !! l = Some c4) by by rw Hc4 lookup_insert_ne // lookup_insert_eq.
  wp_step. rw /step. wp_step. eapply wp_co_get; [exact Hl4|]. cbn [ut_ctl c4].
  apply wp_fmap. rw /coro_fun /the_sche. do 2 wp_step.
  set (c5 := set_co_status CORO_ACTIVE c4). set (cs5 := <[l := c5]> (cy_coros st4)).
  assert (Hp5 : placed (with_coros cs5 st4) A Q (l :: X)) by by (eapply placed_coro; [exact Hp4|exact Hl4|left; left]).
  assert (Hpush : wp (active_push l) (with_coros cs5 st4) (λ _ st', placed st' (A ++ [l]) Q X ∧
    kept (with_coros cs5 st4) st')).
  { eapply (wp_active_push _ _ _ _ X l c5); [exact Hp5|done|by rw /= /cs5 lookup_insert_eq|done|done]. }
  destruct (wp_ok _ _ _ Hpush) as ([] & st6 & Hrun & Hp6 & [Hc6 Hm6 Hs6 Ht6 Hr6]).
  rw active_push_coros in Hrun. destruct (active_push l st4) as [[[] st5]|e] eqn:Hrun5; [|done].
  injection Hrun as Hst6. wp_step. eapply ok_wp; [exact Hrun5|].
  assert (Hcs : cy_coros st5 = cy_coros st4).
  { revert Hrun5. rw /active_push /the_sche /gets /on_conexts /sche_set /on_sche /zoom /modify /mbind /M_bind /=.
    destruct (link_list_push_back _ _ _) as [[x N]|e]; [|done]. by intros [= <-]. }
  wp_step. eapply wp_co_set; [by rw Hcs|]. rw Hcs. fold c5 cs5. fold (with_coros cs5 st5). rw Hst6.
  assert (Hms : s_co (cy_sche st4) = m) by by rw /= Hs1.
  rw Hms. rw /uthread_switch. wp_step. assert (Hm6' : cy_coros st6 !! m = Some cm4).
  { rw Hc6 /= /cs5 lookup_insert_ne // Hc4 lookup_insert_eq //. }
  eapply wp_co_set; [exact Hm6'|]. set (cm7 := set_ut_para (Some l) cm4). wp_step.
  assert (Hl6 : cy_coros st6 !! l = Some c5) by by rw Hc6 /= /cs5 lookup_insert_eq.
  eapply wp_co_set; [by rw /= lookup_insert_ne|]. do 2 wp_step.
  set (c8 := set_ut_ctl (InUser b) c5). set (st8 := CoSys _ _ _ _ _ _).
  assert (Hp7 : placed (CoSys (cy_sche st6) (cy_heap st6) (<[m := cm7]> (cy_coros st6)) (cy_nexts st6)
    (current_coro st6) (cy_mem st6)) (A ++ [l]) Q X).
  { eapply placed_coro; [exact Hp6|exact Hm6'|by right]. }
  assert (Hp8 : placed st8 (A ++ [l]) Q X).
  { eapply (placed_coro _ _ _ _ l c5 c8 Hp7); [by rw /= lookup_insert_ne|by right]. }
  assert (Hc8 : cy_coros st8 = <[l := c8]> (<[m := cm7]> (cy_coros st))).
  { rw /= Hc6 /= /cs5 Hc4. apply map_eq. intros i. rw !lookup_insert. repeat case_decide; congruence. }
  assert (Hsize : size (cy_coros st8) = Datatypes.S n).
  { rw Hc8 map_size_insert_None ?map_size_insert_Some ?Hn //. by rw lookup_insert_ne. }
  assert (Hmain8 : s_co (cy_sche st8) = m).
  { change (s_co (cy_sche st8)) with (s_co (cy_sche st6)). by rw Hm6. }
  assert (Hsz8 : coro_size (cy_sche st8) = (Z.of_nat (Datatypes.S n) - 1)%Z).
  { change (coro_size (cy_sche st8)) with (coro_size (cy_sche st6)). rw Hs6.
    change (i32 (coro_size (cy_sche st1) + 1) = Z.of_nat (Datatypes.S n) - 1)%Z.
    rw Hs1 Hsz Hn. rw i32_small; lia. }
  assert (Hst8 : s_stop (cy_sche st8) = 0%Z).
  { change (s_stop (cy_sche st8)) with (s_stop (cy_sche st6)). rw Ht6.
    change (s_stop (cy_sche st1) = 0%Z). by rw Hs1. }
  split; [|change (mh_max_size (cy_heap st6) = mh_max_size (cy_heap st)); by rw Hr6 -Hmax1].
  clearbody st8. exists (A ++ [l]), Q, X, cm7. rw Hmain8.
  assert (Huser : in_user st8 m).
  { intros x y. rw Hc8 Hmain8. intros [[<- <-]|[_ [[<- _]|[_ Hx]]%lookup_insert_Some]]%lookup_insert_Some Hxm _; [by exists b|done|].
    by apply (Hin x y). }
  assert (Hm8 : cy_coros st8 !! m = Some cm7) by rw Hc8 lookup_insert_ne // lookup_insert_eq //.
  assert (HmA8 : m ∉ A ++ [l]) by set_solver.
  split_and!; try done.
  split; try (rw ?Hmain8 ?Hsize; done).
  - apply Looping; rw ?Hmain8 //. intros Hh. apply HmA8. destruct (A ++ [l]); [done|]. injection Hh as ->. left.
Qed.

(** The client makes the coroutines of [bs] and starts the scheduler. *)
Fixpoint spawn_all (bs : list (B * Z)) : M (cosys B U) () :=
  match bs with
  | [] => mret tt
  | (b, arg) :: bs => sche_spawn user gettimeofday usleep b arg;; spawn_all bs
  end.

Lemma spawn_all_ok bs st n : idle st n → (Z.of_nat (n + length bs) ≤ mh_max_size (cy_heap st))%Z →
  wp (spawn_all bs) st (λ _ st', idle st' (n + length bs)).
Proof.
  revert st n. induction bs as [|[b arg] bs IH]; intros st n Hi Hcap; simpl in *.
  - wp_step. by rw Nat.add_0_r.
  - wp_step. eapply wp_mono; [eapply sche_spawn_ok; [exact Hi|lia]|]. intros l st' [Hi' Hm]. cbv beta.
    rw (_ : n + Datatypes.S (length bs) = Datatypes.S n + length bs); [lia|]. apply IH; [done|rw Hm; lia].
Qed.

Lemma idle_ok st n : idle st n → sched_ok st (s_co (cy_sche st)).
Proof. intros (A & Q & X & cm & Hiv & _). by exists A, Q, X, cm. Qed.
End start.

(** ** Safety of the scheduler *)

Section main.
Context {B U : Type} (user : B → M U (uact * B)) (gettimeofday : M U (Z * Z)) (usleep : Z → M U ()).
Implicit Types (st : cosys B U) (r : loc).

(** A scheduler for [bs], about to run. *)
Definition started (max stk : Z) (bs : list (B * Z)) (u : U) : result (cosys B U) :=
  match sche_create gettimeofday max stk u with
  | Ok (st, _) => match spawn_all user gettimeofday usleep bs st with
                  | Ok (_, st) => Ok st
                  | Fault e => Fault e
                  end
  | Fault e => Fault e
  end.

(** A step from one context to the next in which no coroutine returns while the
    scheduler is first in the queue. *)
Definition safe_step (x y : cosys B U * loc) : Prop :=
  ¬ returns_early user x.1 x.2 ∧ step user gettimeofday usleep x.2 x.1 = Ok (Some y.2, y.1).

(** Every coroutine that neither runs nor has returned is in exactly one of the
    queue and the heap, once. *)
Definition nobody_lost st r : Prop := ∃ A Q, ll_rep (cy_nexts st) (active_list (cy_sche st)) A ∧
  heap_data (cy_heap st) Q ∧ NoDup (A ++ Q) ∧
  ∀ l c, cy_coros st !! l = Some c → l ≠ s_co (cy_sche st) → l ≠ r → co_status c = CORO_DIE ∨ l ∈ A ++ Q.

Lemma returns_early_dec st r : returns_early user st r ∨ ¬ returns_early user st r.
Proof.
  destruct (cy_coros st !! r) as [c|] eqn:Hc; [|by right; intros (? & ? & ? & ? & ? & _); congruence].
  destruct (ut_ctl c) as [|b| | |] eqn:Hctl;
    try (right; intros (? & ? & ? & ? & ? & ? & _); congruence).
  destruct (user b (cy_mem st)) as [[[act b'] u]|e] eqn:Hu;
    [|right; intros (c' & b1 & b2 & u2 & ? & ? & ? & _); congruence].
  destruct act; try (right; intros (c' & b1 & b2 & u2 & ? & ? & ? & _); congruence).
  destruct (decide (link_list_head (active_list (cy_sche st)) = Some (s_co (cy_sche st)))).
  - left. by exists c, b, b', u.
  - right. by intros (c' & b1 & b2 & u2 & _ & _ & _ & ?).
Qed.

Lemma sched_nobody_lost st r : sched_ok st r → nobody_lost st r.
Proof.
  intros (A & Q & X & cm & [Hp Hm HmQ Hsz Hstop Hmode]). exists A, Q.
  split; [by destruct Hp|]. split; [by destruct Hp|]. pose proof (placed_nodup _ _ _ _ Hp) as Hnd.
  rw app_assoc in Hnd. split; [by apply NoDup_app in Hnd as []|]. intros l c Hc Hl1 Hl2.
  pose proof (placed_in _ _ _ _ Hp _ _ Hc) as Hin. rw app_assoc elem_of_app in Hin.
  destruct Hin as [Hin|HX]; [by right|left].
  destruct Hmode as [_ _ _ H _|_ _ _ H _|p cp _ _ _ _ _ Hcp H _ _].
  - by destruct (H _ HX).
  - by destruct (H _ HX).
  - destruct (H _ HX) as [?|[-> ?]]; [done|]. congruence.
Qed.
End main.

(** C36: the coroutine scheduler is safe.  Whatever the functions of the
    coroutines do, as long as none of them returns while the scheduler's own
    context is first in the queue: every switch goes to a live context, no
    assertion fails and nothing that has been freed is used; no coroutine is lost
    or queued twice; and when [sche_schedule] returns, all coroutines have
    returned and are freed. *)
Theorem scheduler_safe {B U} (user : B → M U (uact * B)) gettimeofday usleep max stk bs u :
  world_ok user gettimeofday usleep → (Z.of_nat (length bs) < max < 2 ^ 30)%Z →
  ∃ st0, started user gettimeofday usleep max stk bs u = Ok st0 ∧
    ∀ st r, rtc (safe_step user gettimeofday usleep) (st0, s_co (cy_sche st0)) (st, r) →
      nobody_lost st r ∧ (Z.of_nat (size (cy_coros st)) = coro_size (cy_sche st) + 1)%Z ∧
      (returns_early user st r ∨ ∃ o st', step user gettimeofday usleep r st = Ok (o, st') ∧
        (o = None → r = s_co (cy_sche st) ∧ size (cy_coros st') = 1)).
Proof.
  intros Hw Hmax. rw /started.
  destruct (wp_ok _ _ _ (sche_create_ok user gettimeofday usleep Hw max stk u ltac:(lia))) as (st1 & u1 & -> & Hi1 & Hm1).
  destruct (wp_ok _ _ _ (spawn_all_ok user gettimeofday usleep Hw bs st1 1 Hi1 ltac:(lia))) as ([] & st0 & -> & Hi0).
  exists st0. split; [done|]. intros st r Hrun.
  assert (Hok : sched_ok st r).
  { apply idle_ok in Hi0. revert Hi0. remember (st0, s_co (cy_sche st0)) as x eqn:Hx. remember (st, r) as y eqn:Hy.
    assert (Hx1 : sched_ok st0 (s_co (cy_sche st0)) → sched_ok x.1 x.2) by by rw Hx.
    intros H0. specialize (Hx1 H0). clear Hx H0. induction Hrun as [x|x y' y [Hsafe Hstep] _ IH]; [by rw Hy in Hx1|].
    apply IH; [done|]. pose proof (step_ok _ _ _ Hw _ _ Hx1 Hsafe) as Hpost. rw /wp Hstep in Hpost.
    by destruct Hpost as [_ [? _]]. }
  split; [by apply sched_nobody_lost|]. split.
  { destruct Hok as (A & Q & X & cm & []). lia. }
  destruct (returns_early_dec user st r) as [He|He]; [by left|right].
  destruct (wp_ok _ _ _ (step_ok _ _ _ Hw _ _ Hok He)) as (o & st' & Hstep & _ & Hpost). exists o, st'.
  split; [done|]. by intros ->.
Qed.

(** ** Examples *)

(** The function of a coroutine is the list of its calls; the outside world is a
    clock in milliseconds, which a reading moves by [tick]. *)
Definition script (b : list uact) : M Z (uact * list uact) :=
  mret (match b with [] => (UReturn, []) | a :: b => (a, b) end).
Definition toy_clock (tick : Z) : M Z (Z * Z) := λ u, Ok ((0, u * 1000)%Z, (u + tick)%Z).
Definition toy_usleep (t : Z) : M Z () := mret tt.

Lemma toy_world tick : world_ok script (toy_clock tick) toy_usleep.
Proof. by split. Qed.

Lemma scheduler_safe_witness :
  ∃ st0, started script (toy_clock 1) toy_usleep 10 0 [([UYield; USleep 5], 0%Z); ([UYield], 0%Z)] 0%Z = Ok st0 ∧
    ∀ st r, rtc (safe_step script (toy_clock 1) toy_usleep) (st0, s_co (cy_sche st0)) (st, r) →
      nobody_lost st r ∧ (Z.of_nat (size (cy_coros st)) = coro_size (cy_sche st) + 1)%Z ∧
      (returns_early script st r ∨ ∃ o st', step script (toy_clock 1) toy_usleep r st = Ok (o, st') ∧
        (o = None → r = s_co (cy_sche st) ∧ size (cy_coros st') = 1)).
Proof.
  apply (scheduler_safe script (toy_clock 1) toy_usleep 10 0 [([UYield; USleep 5], 0%Z); ([UYield], 0%Z)] 0%Z).
  - apply toy_world.
  - simpl. lia.
Defined.

(** The state in which a started scheduler is after at most [n] steps. *)
Definition after (n : nat) (tick : Z) (bs : list (list uact * Z)) : result (option loc * cosys (list uact) Z) :=
  match started script (toy_clock tick) toy_usleep 10 0 bs 0%Z with
  | Ok st => steps script (toy_clock tick) toy_usleep n (s_co (cy_sche st)) st
  | Fault e => Fault e
  end.

(** Two coroutines that yield and return: the scheduler returns and only its own
    context is left. *)
Lemma runs_to_the_end : match after 40 1 [([UYield; UYield], 0%Z); ([UYield], 0%Z)] with
  | Ok (o, st) => o = None ∧ size (cy_coros st) = 1 | Fault _ => False end.
Proof. by vm_compute. Qed.

(** The first switch queues the scheduler's own context.  When a coroutine
    returns while that is first in the queue, the scheduler, which is then
    running, takes itself out of the queue and the assertion [co != next] fails:
    one coroutine that sleeps and another that returns are enough. *)
Lemma early_return_asserts : after 40 1 [([USleep 5], 0%Z); ([], 0%Z)] = Fault AssertFailed.
Proof. by vm_compute. Qed.

(** The comparison of [check_time_out] is turned around: a coroutine whose time
    has come is never woken up, and keeps the others from being woken up. *)
Lemma overdue_sleeps_on {B U} now (st : cosys B U) l Q c : heap_data (cy_heap st) (l :: Q) →
  cy_coros st !! l = Some c → (co_timeout c < now)%Z →
  check_time_out now st = Ok (tt, CoSys (set_next_check (i32 (now + 200)) (cy_sche st)) (cy_heap st) (cy_coros st)
    (cy_nexts st) (current_coro st) (cy_mem st)).
Proof.
  intros Hd Hc Hlt. enough (Hwp : wp (check_time_out now) st (λ _ st', st' = CoSys (set_next_check (i32 (now + 200))
    (cy_sche st)) (cy_heap st) (cy_coros st) (cy_nexts st) (current_coro st) (cy_mem st)))
    by (apply wp_ok in Hwp as ([] & ? & ? & ->); done).
  rw /check_time_out. do 2 wp_step. wp_step.
  apply (wp_mono _ _ (λ _ st', st' = st)).
  - cbn [loop]. wp_step. rw /check_body. wp_step. rw /on_heap. wp_step. eapply ok_wp; [by apply min_head|].
    simpl. wp_step. rw (_ : CoSys _ _ _ _ _ _ = st); [by destruct st|]. eapply wp_co_get; [exact Hc|].
    by rw (proj2 (Z.ltb_lt _ _)).
  - intros [] ? ->. rw /sche_set /on_sche. by do 2 wp_step.
Qed.

(** A coroutine that is not due yet is woken up by the first check: this one
    asks for a minute and is back in less than a second. *)
Lemma sleeper_wakes_early : match after 300 50 [([USleep 60000], 0%Z)] with
  | Ok (o, st) => o = None ∧ cy_mem st = 250%Z | Fault _ => False end.
Proof. by vm_compute. Qed.

(** The heap is ordered by the arguments of the coroutines: here the first in
    the heap is the coroutine that sleeps longer. *)
Lemma heap_is_ordered_by_arg : match after 3 1 [([USleep 5], 8%Z); ([USleep 500], 4%Z)] with
  | Ok (_, st) => match minheap_min (cy_heap st) with
                  | Ok (Some l, _) => from_option co_timeout 0%Z (cy_coros st !! l) = 502%Z
                  | _ => False
                  end
  | Fault _ => False end.
Proof. by vm_compute. Qed.

(** [sche_destroy] frees through NULL when two coroutines sleep. *)
Lemma destroy_with_sleepers_faults : match after 3 1 [([USleep 5], 0%Z); ([USleep 5], 0%Z)] with
  | Ok (_, st) => sche_destroy st = Fault NullDeref | Fault _ => False end.
Proof. by vm_compute. Qed.
